(* ===== verification/_CoqProject ===== *)
-Q . S2P
Prelude.v
Bits.v
GoIo.v
BitWriter.v
BitReader.v
Streams.v
Concat.v
Frame.v
HcInt.v
HuffmanTable.v
Huffman.v
HcString.v
StaticTable.v
Table.v
Codec.v
Hpack.v
HpackSpec.v
HpackProps.v
QpackTable.v
QpackEncoder.v
QpackDecoder.v
QpackTableSpec.v
QpackUsageSpec.v
QpackDecoderSpec.v
QpackEncoderSpec.v
QpackReach.v
QpackBlocked.v
QpackIdle.v
QpackLink.v
QpackSizes.v
QpackAck.v
QpackSamples.v
Settings.v
EventLoop.v
EventLoopSpec.v
ServerLoop.v
ServerLoopSpec.v
Headers.v
Qif.v
QifSpec.v
QifStream.v
QifMain.v
QifAsync.v
QifAsyncSpec.v
Message.v
MessageSpec.v
MessageLink.v
Connection.v
ConnectionSpec.v
Push.v
PushSpec.v
PushStream.v
Request.v
RequestSpec.v
Conversation.v
Server.v
ServerSpec.v
ConversationSpec.v
StartUp.v
Client.v
ClientProps.v
Hq.v
HqSpec.v
PromiseSpec.v
HttpSamples.v
WireProps.v
TableProps.v
QpackProps.v
HttpProps.v
ConnProps.v
RequestProps.v
ConversationProps.v
EventLoopProps.v
ServerProps.v
HttpServerProps.v
HqProps.v
QifProps.v
