(* ===== verification/Prelude.v ===== *)
(** * minhq: a verification library

    minhq is an implementation of HTTP over QUIC in Go: a bit-level reader and
    writer, the header compressions HPACK and QPACK, frames, messages, connections
    with server push, and an event loop around a QUIC library. This library models
    that code, file by file, and proves what makes its parts correct. Names are those
    of the source where the logic allows it.

    ** How the code is modelled

    A method is a function in the monad [go] of this file: it takes the state of its
    receiver and gives an [outcome] and the new state. An outcome is a value, an
    error, a panic, or [NoFuel] when a loop of the model ran out of its bound; errors
    come with the state they leave, since Go keeps it. Integers are [Z] with the
    wrap-around of their width written out ([u8], [u64], [i64]); bytes are
    integers below 256; strings are strings of bytes. Loops that are not structural
    take a fuel. Every theorem that runs such a loop asks only for a fuel above the
    length of the input, in bits or in elements, so it also says that the loop ends;
    [NoFuel] is never the outcome then. The loop over the flags of the interop tool can
    run for ever; [NoFuel] for every fuel says so there. A channel, a lock or a
    goroutine appears where it matters: as a step relation over the atomic sections of
    the code (QPACK's encoder, the concatenating reader, the event loops, the server,
    push identifiers, the asynchronous decoder of the interop tool), as the trace of messages
    sent to another goroutine (QPACK's acknowledgments), or as the outcome
    [ErrWouldBlock], which stands for waiting on another goroutine.

    Interfaces of the source are classes with their documented contract as a class of
    laws: [IoReader] and [IoWriter], the table's entries, the handler of a connection.
    What the code takes from elsewhere is a class too: URLs ([UrlLib]), the QUIC
    library ([Minq], [MinqServer]), names and sockets ([Net], [ListenNet]), certificates
    ([TlsLib]) and the files of the operating system ([Files], [HqFiles]); Unicode's
    lower case is a parameter. Of Go's standard library [flag], [strconv] and [fmt] are
    definitions, as far as the code uses them, by the version that it is built with
    (1.10).

    ** The parts

    - Bits, GoIo, BitWriter, BitReader, Streams (io/bitio.go): a writer refines
      appending to a bit string, a reader refines taking from one. [writes], [reads],
      [consumes] and [follows] are the forms in which every later part states what a
      method does to its stream, so that round trips compose.
    - Frame (frame.go): variable-length integers, frames and limited payloads.
    - HcInt, HcString, HuffmanTable, Huffman (hc/io.go, hc/huffman.go,
      hc/huffmantable.go): integers, strings, the compressor, the decoding tree.
    - Table, StaticTable, Codec (hc/table.go, hc/statictable.go, hc/codec.go): the
      header table with insertion, eviction and lookup, and what the codecs share.
    - Hpack, HpackSpec (hc/hpack.go): encoder and decoder over one table; the decoder
      refines an abstract decoder on representations of fields.
    - QpackTable, QpackEncoder, QpackDecoder (hc/qpacktable.go, hc/qpackencoder.go,
      hc/qpackdecoder.go). QpackTableSpec, QpackUsageSpec and QpackEncoderSpec have the
      invariants, QpackDecoderSpec the abstract decoder, QpackReach the interleavings of
      the encoder's critical sections with failing writers, QpackBlocked the streams
      that are really blocked, for calls that do not overlap, QpackIdle encoders that may
      refer to nothing, QpackLink and QpackAck the two ends together, QpackSizes the
      lengths of blocks, QpackSamples concrete states.
    - Concat (io/concat.go): the concatenating reader as a step relation.
    - Settings (settings.go): the payload of a SETTINGS frame.
    - Headers, Message, MessageSpec, MessageLink (message.go): header lists; incoming
      messages, which refine a machine over frames and phases; outgoing messages; and
      both ends, [block_crosses] being the statement that a header block crosses.
    - Connection, ConnectionSpec (connection.go): control streams and the dispatch of
      unidirectional streams, for any [ConnectionHandler].
    - Push, PushSpec, PushStream (client_connection.go, server_connection.go, and the
      promises of client_request.go): the two handlers, push identifiers, promises.
    - Request, RequestSpec, PromiseSpec (client_request.go, server_request.go,
      [Fetch]): requests, responses and promises in both directions.
    - Conversation, ConversationSpec, StartUp: a client and a server together, with the
      streams of one connection between them: [connect] and the control streams at both
      ends, requests, responses and acknowledgments, each given to the goroutine that
      the code starts for its stream ([serviceRequests] and [Fetch] among them).
    - EventLoop, EventLoopSpec (mw/ops.go, mw/stream.go, mw/connection.go): the
      operations the application sends to the goroutine that owns the connection.
    - ServerLoop, ServerLoopSpec (mw/server.go): the one goroutine that serves all
      connections of a server, with the handlers of EventLoop.
    - Server, ServerSpec (server.go): [Listen] with its socket and certificates, and the
      goroutines between the loop of ServerLoop and the application: the one that wraps
      connections, one for each connection, and one for each stream.
    - Client (client.go): a client's connections by name, and its requests. The goroutine
      that reads its socket is in Server, which has the same one.
    - Hq, HqSpec (hq/hq.go): the command hq: its command line, its client, and a round of
      its server.
    - Qif, QifMain, QifAsync (hc/qif): the interop tool, which reads texts of header
      blocks, writes them as chunks of QPACK and prints them again: its parser, encoder,
      decoder, commands, and the goroutines of its asynchronous mode. QifSpec has the
      grammar of the texts, QifStream the chunks, QifAsyncSpec the invariant and the
      measure of the asynchronous runs.

    They call each other as the source does: a message reads frames with the bit reader
    and hands the payload of a HEADERS frame, limited, to the QPACK decoder; the decoder
    reads integers and strings from it; what the decoder acknowledges is the input of
    the peer's encoder; a connection's control stream changes the encoder through
    settings and, through its handler, the state of push.

    ** What the theorems show

    - WireProps: every written integer, string, bit field and frame is read back;
      readers on malformed input and writers that fail.
    - TableProps, HpackProps, QpackProps: tables stay well-formed and evict exactly
      what they must; encoder and decoder agree on the fields and on the table; decoders
      refine their abstract decoders on every input that is well-formed at the level of
      instructions, errors included (name references beyond the base are left out, for
      the code reads them one entry off), and end on any bytes at all, unless a header
      block waits for inserts that have not come; the invariant of every reachable QPACK
      encoder, its limits on blocked streams and on evictions, and exactly which
      acknowledgments it applies, refuses and panics on.
    - HttpProps: the concatenating reader returns the added readers in order, if they
      return no bytes with the end of the stream; settings reach the peer's encoder;
      [handleMessage] refines the abstract machine, where the body of a DATA frame that
      the stream cuts short is heard less what that reader drops ([hears]).
    - ConnProps: the control stream refines an abstract service; push identifiers are
      handed out in order when calls do not overlap, and not when they do; promises are
      settled once, and what each later operation does; push streams are delivered;
      credit and cancellations cross the connection.
    - ConversationProps: any sequence of requests, responses and rounds of
      acknowledgments is heard as it was said, with the dynamic table in use, and from
      the start of a connection without it; what settings and credit do on the way. What
      should be heard ([said]) is stated apart from the code; a query is lost.
    - RequestProps: responses with their promises refine an abstract client, and pushed
      requests reach it under their identifiers.
    - EventLoopProps: every waiting call is owed one result; what completes, and what
      never returns.
    - ServerProps, HttpServerProps, ClientProps: the same for all connections of a
      server at once, and what its [Close] leaves waiting; that a server hands out each
      connection and each request once, that a request is what was read from its stream,
      and that the goroutines of a connection, named one by one, bring the first request
      to the application whatever the others do; what [Listen] does on every path; that a
      client's own requests wait for ever.
    - HqProps: a command line is read as it is spelled, and any other ends in an exit; the
      page that the server answers with, through the whole library and back, which is
      that of its README but for the alignment of the names.
    - QifProps: a text comes back from the tool, whatever its line endings, and from the
      asynchronous decoder in any order of its goroutines; texts that break the parser.

    Several theorems and examples show faults of the code: each states what the code
    does.

    ** Not modelled

    Logging, and what goes to the standard error. [NewBitReader] and
    [NewBitWriter] return their argument when it is a bit reader or writer already; a
    bit reader of a bit reader, the other case, is modelled where the code makes one.
    Methods that only give a field of their receiver are projections here; the types of
    stream.go, which put a frame reader or writer in front of a stream, are the reader
    and writer themselves. The test helpers (mw/test) are left out. Of hc/qif, the
    opening and closing of files and its logging are left out. Reads of a message's body
    are made by an application that drains them; the channels an application receives
    from are taken to be received from, except in the event loops and the server, where
    they are steps. A format of [fmt] with verbs and no operands, which hq makes of a
    request with a percent sign, is a parameter. *)

From stdpp Require Export prelude list numbers strings gmap.
From Stdlib Require Export ZArith Lia.

#[global] Open Scope Z_scope.

(** ** Errors and outcomes *)

(** The error values the modelled code returns or tests for.  [ErrForeign n]
    stands for the errors of an underlying reader or writer that the code only
    passes on. *)
Inductive goerr : Type :=
| EOF                      (* io.EOF *)
| ErrUnexpectedEOF         (* io.ErrUnexpectedEOF *)
| ErrShortWrite            (* io.ErrShortWrite *)
| ErrNoProgress            (* io.ErrNoProgress *)
| ErrBytesTooLarge         (* bytes.ErrTooLarge, returned by WriteBits and ReadBits *)
| ErrIntegerOverflow       (* hc.ErrIntegerOverflow *)
| ErrIndexError            (* hc.ErrIndexError *)
| ErrPseudoHeaderOrdering  (* hc.ErrPseudoHeaderOrdering *)
| ErrInvalidHuffman        (* errors.New("invalid Huffman coding") *)
| ErrTableOverflow         (* hc.ErrTableOverflow *)
| ErrInvalidDelta          (* errors.New("invalid delta for base index") *)
| ErrWouldBlock            (* no error: the call waits for another goroutine *)
| ErrTooLarge              (* minhq.ErrTooLarge *)
| ErrExtraData             (* minhq.ErrExtraData *)
| ErrSettingValue          (* minhq.ErrSettingValue *)
| ErrStreamBlocked         (* minhq.ErrStreamBlocked *)
| ErrInvalidFrame          (* minhq.ErrInvalidFrame *)
| ErrUnsupportedFrame      (* minhq.ErrUnsupportedFrame *)
| ErrPushCancelled         (* minhq.ErrPushCancelled *)
| ErrConnectionClosed      (* mw.ErrConnectionClosed *)
| ErrUnknownOperation      (* mw.ErrUnknownOperation *)
| ErrText (text : string)  (* errors.New(text) in the body of a function *)
| ErrForeign (n : Z).

#[export] Instance goerr_eq_dec : EqDecision goerr.
Proof. solve_decision. Defined.

(** The four ways a call can end: a result with a nil error, a non-nil error,
    a run-time panic, or (in the model only) a loop whose fuel ran out. *)
Inductive outcome (A : Type) : Type :=
| Ok (a : A)
| Err (e : goerr)
| Panic
| NoFuel.
Arguments Ok {A} a.
Arguments Err {A} e.
Arguments Panic {A}.
Arguments NoFuel {A}.

#[export] Instance outcome_eq_dec `{EqDecision A} : EqDecision (outcome A).
Proof. solve_decision. Defined.

(** The call comes back: it does not run for ever and does not wait for another
    goroutine. *)
Definition returns {A} (o : outcome A) : Prop :=
  match o with NoFuel | Err ErrWouldBlock => False | _ => True end.

Lemma returns_fuel {A} (o : outcome A) : returns o → o ≠ NoFuel.
Proof. by intros Ho ->. Qed.

Lemma returns_Err {A} e : e ≠ ErrWouldBlock → returns (Err e : outcome A).
Proof. by destruct e. Qed.

(** ** The state monad of a Go method

    A method with receiver (and shared objects) of type [S] and result [A]. The
    state survives an error: Go code that returns early keeps what it wrote. *)
Definition go (S A : Type) : Type := S → outcome A * S.

#[export] Instance go_ret S : MRet (go S) := λ A a s, (Ok a, s).
#[export] Instance go_bind S : MBind (go S) := λ A B k m s,
  match m s with
  | (Ok a, s') => k a s'
  | (Err e, s') => (Err e, s')
  | (Panic, s') => (Panic, s')
  | (NoFuel, s') => (NoFuel, s')
  end.

Definition getS {S} : go S S := λ s, (Ok s, s).
Definition modS {S} (f : S → S) : go S unit := λ s, (Ok tt, f s).
Definition fail {S A} (e : goerr) : go S A := λ s, (Err e, s).
Definition panic {S A} : go S A := λ s, (Panic, s).
Definition nofuel {S A} : go S A := λ s, (NoFuel, s).

(** [zoom get set m] runs [m] on a part of a larger state. *)
Definition zoom {T S A} (get : T → S) (set : S → T → T) (m : go S A) : go T A :=
  λ t, let '(o, s) := m (get t) in (o, set s t).

(** [catch m] is the Go idiom [v, err := m] where the code looks at [err]
    itself; panics are not caught. *)
Definition catch {S A} (m : go S A) : go S (A + goerr) := λ s,
  match m s with
  | (Ok a, s') => (Ok (inl a), s')
  | (Err e, s') => (Ok (inr e), s')
  | (Panic, s') => (Panic, s')
  | (NoFuel, s') => (NoFuel, s')
  end.

Section monad_lemmas.
Context {S A B : Type}.
Implicit Types (m : go S A) (k : A → go S B).

Lemma bind_Ok m k s a s' : m s = (Ok a, s') → (m ≫= k) s = k a s'.
Proof. intros H. unfold mbind, go_bind. by rewrite H. Qed.

Lemma bind_Err m k s e s' : m s = (Err e, s') → (m ≫= k) s = (Err e, s').
Proof. intros H. unfold mbind, go_bind. by rewrite H. Qed.

Lemma bind_Ok_inv m k s b s' :
  (m ≫= k) s = (Ok b, s') → ∃ a s1, m s = (Ok a, s1) ∧ k a s1 = (Ok b, s').
Proof. unfold mbind, go_bind. destruct (m s) as [[] ?]; naive_solver. Qed.

Lemma bind_unfold m k s :
  (m ≫= k) s = match m s with
               | (Ok a, s') => k a s'
               | (Err e, s') => (Err e, s')
               | (Panic, s') => (Panic, s')
               | (NoFuel, s') => (NoFuel, s')
               end.
Proof. done. Qed.

Lemma bind_assoc {C} m k (k2 : B → go S C) s :
  ((m ≫= k) ≫= k2) s = (m ≫= (λ a, k a ≫= k2)) s.
Proof. unfold mbind, go_bind. by destruct (m s) as [[] ?]. Qed.

Lemma ret_unfold (a : A) (s : S) : (mret a : go S A) s = (Ok a, s).
Proof. done. Qed.

Lemma zoom_Ok {T} (get : T → S) (set : S → T → T) m t a s :
  m (get t) = (Ok a, s) → zoom get set m t = (Ok a, set s t).
Proof. intros H. unfold zoom. by rewrite H. Qed.
End monad_lemmas.

(** ** Triples

    From a state with [P], [m] ends with a result [Q] accepts, or otherwise in a
    state with [E]. *)
Definition triple {S A} (P : S → Prop) (m : go S A) (Q : A → S → Prop) (E : S → Prop) : Prop :=
  ∀ s, P s → match m s with (Ok a, s') => Q a s' | (_, s') => E s' end.

Section triples.
Context {S : Type}.
Implicit Types (P E : S → Prop).

Lemma triple_ret {A} (a : A) P Q E : (∀ s, P s → Q a s) → triple P (mret a) Q E.
Proof. intros HQ s. apply HQ. Qed.

Lemma triple_bind {A B} (m : go S A) (k : A → go S B) P Q R E :
  triple P m Q E → (∀ a, triple (Q a) (k a) R E) → triple P (m ≫= k) R E.
Proof.
  intros Hm Hk s Hs. specialize (Hm s Hs). rewrite bind_unfold.
  destruct (m s) as [[a|e| |] s']; [by apply Hk|done..].
Qed.

(** [k] runs on a state that is known. *)
Lemma triple_get {B} (k : S → go S B) P R E :
  (∀ s, P s → triple (λ s', s' = s) (k s) R E) → triple P (getS ≫= k) R E.
Proof. intros Hk s Hs. by apply (Hk s Hs s). Qed.

Lemma triple_mod f P (Q : unit → S → Prop) E : (∀ s, P s → Q tt (f s)) → triple P (modS f) Q E.
Proof. intros HQ s. apply HQ. Qed.

Lemma triple_weaken {A} (m : go S A) P P' Q Q' E E' : triple P' m Q' E' →
  (∀ s, P s → P' s) → (∀ a s, Q' a s → Q a s) → (∀ s, E' s → E s) → triple P m Q E.
Proof.
  intros Hm HP HQ HE s Hs. specialize (Hm s (HP s Hs)). destruct (m s) as [[a|e| |] s']; auto.
Qed.

Lemma triple_pre {A} (m : go S A) P P' Q E : (∀ s, P s → P' s) → triple P' m Q E → triple P m Q E.
Proof. intros HP Hm s Hs. apply Hm, HP, Hs. Qed.

(** A triple with one postcondition speaks of the state after every outcome. *)
Lemma triple_any {A} (m : go S A) P (Q : S → Prop) s : triple P m (λ _, Q) Q → P s → Q (m s).2.
Proof. intros Hm Hs. specialize (Hm s Hs). by destruct (m s) as [[]]. Qed.

(** A call on another part of the state. *)
Lemma triple_zoom {T A} (get : S → T) (set : T → S → S) (m : go T A) P : (∀ s x, P s → P (set x s)) →
  triple P (zoom get set m) (λ _, P) P.
Proof. intros HP s Hs. unfold zoom. destruct (m (get s)) as [[a|e| |] x]; auto. Qed.
End triples.

(** ** What a method leaves alone

    The part [f] of the state is the same after every outcome. *)
Definition unchanged {S X A} (f : S → X) (m : go S A) : Prop := ∀ s, f (m s).2 = f s.

Section unchanged.
Context {S X : Type} (f : S → X).

Lemma unchanged_out {A} (m : go S A) : (∀ s, (m s).2 = s) → unchanged f m.
Proof. intros Hm s. by rewrite Hm. Qed.

Lemma unchanged_mod g : (∀ s, f (g s) = f s) → unchanged f (modS g).
Proof. intros Hg s. apply Hg. Qed.

Lemma unchanged_bind {A B} (m : go S A) (k : A → go S B) :
  unchanged f m → (∀ a, unchanged f (k a)) → unchanged f (m ≫= k).
Proof.
  intros Hm Hk s. specialize (Hm s). rewrite bind_unfold. destruct (m s) as [[a|e| |] s']; cbn in *; [|done..].
  by rewrite Hk.
Qed.

Lemma unchanged_catch {A} (m : go S A) : unchanged f m → unchanged f (catch m).
Proof. intros Hm s. specialize (Hm s). unfold catch. by destruct (m s) as [[] s']. Qed.
End unchanged.

(** Every branch of a method body. *)
Ltac unchanged_body :=
  repeat match goal with
  | |- unchanged _ (_ ≫= _) => apply unchanged_bind; [|intros ?]
  | |- unchanged _ (modS _) => apply unchanged_mod; done
  | |- unchanged _ (catch _) => apply unchanged_catch
  | |- unchanged _ (if ?b then _ else _) => destruct b
  | |- unchanged _ (match ?x with _ => _ end) => destruct x
  | |- unchanged _ _ => first [ apply unchanged_out; done | progress cbv zeta ]
  end.

Create HintDb go.
(** [go_run H] performs the next call of a method body, whose result [H] states. *)
Tactic Notation "go_run" uconstr(H) :=
  first [ erewrite bind_Ok by (eapply H) | erewrite bind_Err by (eapply H) ].

(** ** Machine integers

    Unsigned integers are [Z] values kept in range by an explicit wrap. [int] is
    the 64-bit signed integer. *)
Definition u8 (z : Z) : Z := z mod 2 ^ 8.
Definition u32 (z : Z) : Z := z mod 2 ^ 32.
Definition u64 (z : Z) : Z := z mod 2 ^ 64.
Definition i64 (z : Z) : Z := (z + 2 ^ 63) mod 2 ^ 64 - 2 ^ 63.

(** The largest [int], [int(^uint(0) >> 1)]. *)
Definition intMax : Z := 2 ^ 63 - 1.

Definition is_byte (z : Z) : Prop := 0 ≤ z < 256.
Definition is_u64 (z : Z) : Prop := 0 ≤ z < 2 ^ 64.

Lemma u8_small z : 0 ≤ z < 256 → u8 z = z.
Proof. intros. by apply Z.mod_small. Qed.
Lemma u64_small z : 0 ≤ z < 2 ^ 64 → u64 z = z.
Proof. intros. by apply Z.mod_small. Qed.
Lemma u8_range z : is_byte (u8 z).
Proof. unfold is_byte, u8. by apply Z.mod_pos_bound. Qed.
Lemma u64_range z : is_u64 (u64 z).
Proof. unfold is_u64, u64. by apply Z.mod_pos_bound. Qed.
Lemma i64_small z : - 2 ^ 63 ≤ z < 2 ^ 63 → i64 z = z.
Proof. intros. unfold i64. rewrite Z.mod_small; lia. Qed.
Lemma i64_wraps z : 2 ^ 63 ≤ z < 2 ^ 63 + 2 ^ 64 → i64 z = z - 2 ^ 64.
Proof. intros. unfold i64. rewrite <- (Z.mod_unique _ (2 ^ 64) 1 (z + 2 ^ 63 - 2 ^ 64)); lia. Qed.
Lemma i64_range z : - 2 ^ 63 ≤ i64 z < 2 ^ 63.
Proof. unfold i64. pose proof (Z.mod_pos_bound (z + 2 ^ 63) (2 ^ 64)). lia. Qed.

#[export] Hint Resolve u8_range u64_range : go.

(** ** Lists measured in [Z] *)

Definition zlen {A} (l : list A) : Z := Z.of_nat (length l).
Definition ztake {A} (n : Z) (l : list A) : list A := take (Z.to_nat n) l.
Definition zdrop {A} (n : Z) (l : list A) : list A := drop (Z.to_nat n) l.

#[global] Arguments zlen {A} _ : simpl never.
#[global] Arguments ztake {A} _ _ : simpl never.
#[global] Arguments zdrop {A} _ _ : simpl never.
#[global] Arguments u8 _ : simpl never.
#[global] Arguments u32 _ : simpl never.
#[global] Arguments u64 _ : simpl never.
#[global] Arguments i64 _ : simpl never.

Lemma zlen_nonneg {A} (l : list A) : 0 ≤ zlen l.
Proof. unfold zlen. lia. Qed.
Lemma zlen_app {A} (l k : list A) : zlen (l ++ k) = zlen l + zlen k.
Proof. unfold zlen. rewrite length_app. lia. Qed.
Lemma zlen_cons {A} (x : A) l : zlen (x :: l) = 1 + zlen l.
Proof. unfold zlen. simpl. lia. Qed.
Lemma zlen_nil {A} : zlen (@nil A) = 0.
Proof. done. Qed.
Lemma zlen_0 {A} (l : list A) : zlen l = 0 → l = [].
Proof. destruct l; [done|]. rewrite zlen_cons. pose proof (zlen_nonneg l). lia. Qed.
Lemma zlen_ztake {A} n (l : list A) : 0 ≤ n → zlen (ztake n l) = Z.min n (zlen l).
Proof. intros. unfold zlen, ztake. rewrite length_take. lia. Qed.
Lemma ztake_zdrop {A} n (l : list A) : ztake n l ++ zdrop n l = l.
Proof. apply take_drop. Qed.
Lemma ztake_all {A} n (l : list A) : zlen l ≤ n → ztake n l = l.
Proof. intros. apply take_ge. unfold zlen in *. lia. Qed.
Lemma zdrop_all {A} n (l : list A) : zlen l ≤ n → zdrop n l = [].
Proof. intros. apply drop_ge. unfold zlen in *. lia. Qed.
Lemma ztake_0 {A} n (l : list A) : n ≤ 0 → ztake n l = [].
Proof. intros. unfold ztake. by replace (Z.to_nat n) with 0%nat by lia. Qed.
Lemma zdrop_0 {A} n (l : list A) : n ≤ 0 → zdrop n l = l.
Proof. intros. unfold zdrop. by replace (Z.to_nat n) with 0%nat by lia. Qed.
Lemma ztake_app {A} n (l k : list A) : n = zlen l → ztake n (l ++ k) = l.
Proof. intros ->. unfold ztake, zlen. by rewrite Nat2Z.id, take_app_length. Qed.
Lemma zdrop_app {A} n (l k : list A) : n = zlen l → zdrop n (l ++ k) = k.
Proof. intros ->. unfold zdrop, zlen. by rewrite Nat2Z.id, drop_app_length. Qed.
Lemma zlen_zdrop {A} n (l : list A) : 0 ≤ n ≤ zlen l → zlen (zdrop n l) = zlen l - n.
Proof. intros. unfold zlen, zdrop in *. rewrite length_drop. lia. Qed.

Lemma ztake_app_split {A} n (l k : list A) :
  zlen l ≤ n → ztake n (l ++ k) = l ++ ztake (n - zlen l) k.
Proof.
  intros H. unfold ztake, zlen in *. rewrite take_app, take_ge by lia.
  do 2 f_equal. lia.
Qed.

Lemma zdrop_app_ge {A} n (l k : list A) :
  zlen l ≤ n → zdrop n (l ++ k) = zdrop (n - zlen l) k.
Proof.
  intros H. unfold zdrop, zlen in *.
  rewrite drop_app, (drop_ge l) by lia. simpl. f_equal. lia.
Qed.

Lemma mjoin_elem_length {A B} (f : A → list B) (l : list A) x : x ∈ l →
  (length (f x) ≤ length (mjoin (f <$> l)))%nat.
Proof.
  intros Hx. induction Hx as [x l|x y l _ IH];
    [change (mjoin (f <$> x :: l)) with (f x ++ mjoin (f <$> l))
    |change (mjoin (f <$> y :: l)) with (f y ++ mjoin (f <$> l))]; rewrite length_app; lia.
Qed.

Create Rewrite HintDb zlen.
#[export] Hint Rewrite @zlen_app @zlen_cons @zlen_nil : zlen.
Ltac zlen_simpl := autorewrite with zlen in *.
