(* ===== verification/Bits.v ===== *)
(** * Bit strings

    The specification language of the bit-level reader and writer: a byte
    stream, or a field of a given width, seen as a list of booleans, most
    significant bit first. [zbits n v] is the [n]-bit field holding [v],
    [val_of] reads a bit string back, [bits_of_bytes] and [bytes_of_bits]
    convert between bytes and bits. *)

From S2P Require Import Prelude.

(** ** Bitwise equality of integers *)

Lemma testbit_u64 z i : Z.testbit (u64 z) i = (i <? 64) && Z.testbit z i.
Proof.
  unfold u64. destruct (Z.ltb_spec i 64).
  - by rewrite Z.mod_pow2_bits_low.
  - by rewrite Z.mod_pow2_bits_high.
Qed.

Lemma testbit_u8 z i : Z.testbit (u8 z) i = (i <? 8) && Z.testbit z i.
Proof.
  unfold u8. destruct (Z.ltb_spec i 8).
  - by rewrite Z.mod_pow2_bits_low.
  - by rewrite Z.mod_pow2_bits_high.
Qed.

Lemma testbit_above z n i : 0 ≤ z < 2 ^ n → n ≤ i → Z.testbit z i = false.
Proof.
  intros Hz Hi. assert (0 ≤ n) by (destruct (Z.neg_nonneg_cases n) as [Hn|]; [|done];
    rewrite (Z.pow_neg_r _ _ Hn) in Hz; lia).
  rewrite <- (Z.mod_small z (2 ^ n)) by done. by apply Z.mod_pow2_bits_high.
Qed.

Lemma testbit_mask n i : 0 ≤ n ≤ 64 → 0 ≤ i →
  Z.testbit (Z.shiftr (2 ^ 64 - 1) (64 - n)) i = (i <? n).
Proof.
  intros. rewrite Z.shiftr_spec by lia.
  change (2 ^ 64 - 1) with (Z.ones 64).
  destruct (Z.ltb_spec i n).
  - apply Z.ones_spec_low. lia.
  - apply Z.ones_spec_high. lia.
Qed.

Create Rewrite HintDb gobits.
#[export] Hint Rewrite testbit_u64 testbit_u8 Z.lor_spec Z.land_spec : gobits.
#[export] Hint Rewrite Z.shiftl_spec Z.shiftr_spec testbit_mask using lia : gobits.

(** Decide the comparisons and drop the bits below index 0. *)
Ltac bitcases :=
  repeat match goal with
  | |- context [?a <? ?b] =>
      first [ rewrite (proj2 (Z.ltb_lt a b)) by lia
            | rewrite (proj2 (Z.ltb_ge a b)) by lia
            | destruct (Z.ltb_spec a b) ]
  end;
  repeat match goal with
  | |- context [Z.testbit ?v ?i] => rewrite (Z.testbit_neg_r v i) by lia
  end;
  rewrite ?andb_true_l, ?andb_true_r, ?andb_false_l, ?andb_false_r,
          ?orb_false_l, ?orb_false_r.

Ltac bitwise := autorewrite with gobits; bitcases.

(** ** Fields *)

Fixpoint bits_of (n : nat) (v : Z) : list bool :=
  match n with
  | O => []
  | S m => Z.testbit v (Z.of_nat m) :: bits_of m v
  end.

(** The [n]-bit field holding the low [n] bits of [v]. *)
Definition zbits (n v : Z) : list bool := bits_of (Z.to_nat n) v.

#[global] Arguments zbits _ _ : simpl never.

Definition val_of (l : list bool) : Z := foldl (λ acc b, 2 * acc + Z.b2z b) 0 l.

#[global] Arguments val_of _ : simpl never.

Lemma length_bits_of n v : length (bits_of n v) = n.
Proof. induction n; simpl; congruence. Qed.

Lemma zlen_zbits n v : 0 ≤ n → zlen (zbits n v) = n.
Proof. intros. unfold zlen, zbits. rewrite length_bits_of. lia. Qed.
#[export] Hint Rewrite zlen_zbits using lia : zlen.

Lemma bits_of_ext n v w :
  (∀ i, 0 ≤ i < Z.of_nat n → Z.testbit v i = Z.testbit w i) → bits_of n v = bits_of n w.
Proof.
  induction n as [|n IH]; intros H; simpl; [done|].
  f_equal; [apply H; lia|]. apply IH. intros. apply H. lia.
Qed.

Lemma zbits_ext n v w :
  (∀ i, 0 ≤ i < n → Z.testbit v i = Z.testbit w i) → zbits n v = zbits n w.
Proof. intros H. apply bits_of_ext. intros. apply H. lia. Qed.

Lemma bits_of_app n m v :
  bits_of (n + m) v = bits_of n (Z.shiftr v (Z.of_nat m)) ++ bits_of m v.
Proof.
  induction n as [|n IH]; simpl; [done|]. f_equal; [|done].
  rewrite Z.shiftr_spec by lia. f_equal. lia.
Qed.

Lemma zbits_app n m v : 0 ≤ n → 0 ≤ m →
  zbits (n + m) v = zbits n (Z.shiftr v m) ++ zbits m v.
Proof.
  intros. unfold zbits. rewrite Z2Nat.inj_add by lia.
  by rewrite bits_of_app, Z2Nat.id by lia.
Qed.

Lemma zbits_0 v : zbits 0 v = [].
Proof. done. Qed.

Lemma zbits_1 v : zbits 1 v = [Z.testbit v 0].
Proof. done. Qed.

Lemma zbits_mod n v : 0 ≤ n → zbits n (v mod 2 ^ n) = zbits n v.
Proof. intros. apply zbits_ext. intros. apply Z.mod_pow2_bits_low. lia. Qed.

(** ** Reading a bit string as a number *)

Lemma foldl_val acc l :
  foldl (λ acc b, 2 * acc + Z.b2z b) acc l = acc * 2 ^ zlen l + val_of l.
Proof.
  unfold val_of. revert acc. induction l as [|b l IH]; intros acc; cbn [foldl].
  - rewrite zlen_nil, Z.pow_0_r. lia.
  - rewrite (IH (2 * acc + _)), (IH (2 * 0 + _)), zlen_cons.
    rewrite Z.pow_add_r by (pose proof (zlen_nonneg l); lia). change (2 ^ 1) with 2. ring.
Qed.

Lemma val_of_app l k : val_of (l ++ k) = val_of l * 2 ^ zlen k + val_of k.
Proof. unfold val_of. rewrite foldl_app. apply foldl_val. Qed.

Lemma val_of_cons b l : val_of (b :: l) = Z.b2z b * 2 ^ zlen l + val_of l.
Proof. apply (val_of_app [b] l). Qed.

Lemma val_of_bound l : 0 ≤ val_of l < 2 ^ zlen l.
Proof.
  induction l as [|b l IH]; [done|]. rewrite val_of_cons, zlen_cons.
  rewrite Z.pow_add_r by (pose proof (zlen_nonneg l); lia).
  destruct b; simpl; lia.
Qed.

Lemma mod_pow2_succ v n : 0 ≤ n →
  v mod 2 ^ (1 + n) = Z.b2z (Z.testbit v n) * 2 ^ n + v mod 2 ^ n.
Proof.
  intros. rewrite Z.add_comm, Z.pow_add_r by lia.
  rewrite Z.rem_mul_r by lia. rewrite <- Z.testbit_spec' by lia. lia.
Qed.

Lemma val_of_zbits n v : 0 ≤ n → val_of (zbits n v) = v mod 2 ^ n.
Proof.
  intros Hn. unfold zbits. rewrite <- (Z2Nat.id n Hn) at 2.
  generalize (Z.to_nat n) as k. clear n Hn. intros k.
  induction k as [|k IH]; [by rewrite Z.mod_1_r|]. cbn [bits_of].
  rewrite val_of_cons, IH. replace (Z.of_nat (S k)) with (1 + Z.of_nat k) by lia.
  rewrite mod_pow2_succ by lia. unfold zlen. by rewrite length_bits_of.
Qed.

Lemma val_of_zbits_small n v : 0 ≤ n → 0 ≤ v < 2 ^ n → val_of (zbits n v) = v.
Proof. intros. rewrite val_of_zbits by done. by apply Z.mod_small. Qed.

Lemma testbit_b2z_top b n x : 0 ≤ n → 0 ≤ x < 2 ^ n →
  Z.testbit (Z.b2z b * 2 ^ n + x) n = b.
Proof.
  intros. apply Z.b2z_inj. rewrite Z.testbit_spec' by done.
  rewrite Z.div_add_l, (Z.div_small x) by lia. by destruct b.
Qed.

Lemma bits_of_length_val_of l : bits_of (length l) (val_of l) = l.
Proof.
  induction l as [|b l IH]; [done|]. cbn [length bits_of]. fold (zlen l).
  rewrite val_of_cons. pose proof (val_of_bound l). f_equal.
  - apply testbit_b2z_top; [apply zlen_nonneg|done].
  - etrans; [|exact IH]. apply bits_of_ext. intros i Hi.
    rewrite <- (Z.mod_pow2_bits_low _ (zlen l) i) by (unfold zlen; lia).
    by rewrite Z.add_comm, Z_mod_plus_full, Z.mod_small.
Qed.

Lemma bits_of_val_of l : zbits (zlen l) (val_of l) = l.
Proof. unfold zbits, zlen. rewrite Nat2Z.id. apply bits_of_length_val_of. Qed.

Lemma zbits_inj n v w :
  0 ≤ n → 0 ≤ v < 2 ^ n → 0 ≤ w < 2 ^ n → zbits n v = zbits n w → v = w.
Proof.
  intros ??? H. apply (f_equal val_of) in H. by rewrite !val_of_zbits_small in H.
Qed.

(** ** Bytes *)

Definition bits_of_bytes (bs : list Z) : list bool := mjoin (zbits 8 <$> bs).

Fixpoint bytes_of_bits (l : list bool) : list Z :=
  match l with
  | b7 :: b6 :: b5 :: b4 :: b3 :: b2 :: b1 :: b0 :: r =>
      val_of [b7; b6; b5; b4; b3; b2; b1; b0] :: bytes_of_bits r
  | _ => []
  end.

#[global] Arguments bits_of_bytes _ : simpl never.

Lemma bits_of_bytes_cons b bs : bits_of_bytes (b :: bs) = zbits 8 b ++ bits_of_bytes bs.
Proof. done. Qed.

Lemma bits_of_bytes_app bs cs :
  bits_of_bytes (bs ++ cs) = bits_of_bytes bs ++ bits_of_bytes cs.
Proof. unfold bits_of_bytes. by rewrite fmap_app, join_app. Qed.

Lemma bits_of_bytes_one b : bits_of_bytes [b] = zbits 8 b.
Proof. apply app_nil_r. Qed.

Lemma zlen_bits_of_bytes bs : zlen (bits_of_bytes bs) = 8 * zlen bs.
Proof.
  induction bs as [|b bs IH]; [done|]. rewrite bits_of_bytes_cons, zlen_app, IH.
  rewrite zlen_zbits, zlen_cons by lia. lia.
Qed.
#[export] Hint Rewrite zlen_bits_of_bytes : zlen.

Lemma shiftr_byte_bound b n : 0 ≤ n ≤ 8 → is_byte b → 0 ≤ Z.shiftr b n < 2 ^ (8 - n).
Proof.
  unfold is_byte. intros ? Hb. rewrite Z.shiftr_div_pow2 by lia.
  split; [apply Z.div_pos; lia|]. apply Z.div_lt_upper_bound; [lia|].
  rewrite <- Z.pow_add_r by lia. replace (_ + _) with 8 by lia. lia.
Qed.

(** Split off the first byte of a bit string that holds one. *)
Lemma split_byte l : 8 ≤ zlen l → ∃ b r, l = zbits 8 b ++ r ∧ is_byte b.
Proof.
  intros H. exists (val_of (ztake 8 l)), (zdrop 8 l).
  assert (zlen (ztake 8 l) = 8) as Hl by (rewrite zlen_ztake; lia).
  rewrite <- Hl at 1. rewrite bits_of_val_of, ztake_zdrop. split; [done|].
  pose proof (val_of_bound (ztake 8 l)) as Hb. by rewrite Hl in Hb.
Qed.

Lemma bytes_of_bits_byte b l : is_byte b →
  bytes_of_bits (zbits 8 b ++ l) = b :: bytes_of_bits l.
Proof.
  intros Hb. change (zbits 8 b ++ l) with
    (Z.testbit b 7 :: Z.testbit b 6 :: Z.testbit b 5 :: Z.testbit b 4 ::
     Z.testbit b 3 :: Z.testbit b 2 :: Z.testbit b 1 :: Z.testbit b 0 :: l).
  cbn [bytes_of_bits]. f_equal. by apply (val_of_zbits_small 8).
Qed.

Lemma bytes_of_bits_short l : zlen l < 8 → bytes_of_bits l = [].
Proof. intros H. do 8 (destruct l as [|? l]; [done|]). zlen_simpl. pose proof (zlen_nonneg l). lia. Qed.

Lemma bytes_of_bits_of_bytes bs l : Forall is_byte bs →
  bytes_of_bits (bits_of_bytes bs ++ l) = bs ++ bytes_of_bits l.
Proof.
  induction 1 as [|b bs Hb _ IH]; [done|].
  rewrite bits_of_bytes_cons, <- (assoc_L (++)), bytes_of_bits_byte by done.
  by rewrite IH.
Qed.

Lemma bytes_of_bits_of_bytes_nil bs :
  Forall is_byte bs → bytes_of_bits (bits_of_bytes bs) = bs.
Proof.
  intros H. rewrite <- (app_nil_r (bits_of_bytes bs)).
  rewrite bytes_of_bits_of_bytes by done. apply app_nil_r.
Qed.

(** A bit string is its whole bytes followed by fewer than eight bits. *)
Lemma bytes_of_bits_split l :
  ∃ r, l = bits_of_bytes (bytes_of_bits l) ++ r ∧ zlen r < 8 ∧
       Forall is_byte (bytes_of_bits l).
Proof.
  remember (Z.to_nat (zlen l)) as n eqn:Hn. revert l Hn.
  induction n as [n IH] using lt_wf_ind. intros l ->.
  destruct (Z.lt_ge_cases (zlen l) 8) as [|H8].
  - exists l. rewrite bytes_of_bits_short by done. done.
  - destruct (split_byte l H8) as (b & r & -> & Hb). zlen_simpl.
    destruct (IH (Z.to_nat (zlen r))) with (l := r) as (q & Hq & ? & ?); [|done|].
    { pose proof (zlen_nonneg r). lia. }
    exists q. rewrite bytes_of_bits_byte, bits_of_bytes_cons by done.
    rewrite <- (assoc_L (++)), <- Hq. split_and!; [done|done|by constructor].
Qed.

Lemma bytes_of_bits_whole l k : zlen l = 8 * k →
  bits_of_bytes (bytes_of_bits l) = l ∧ Forall is_byte (bytes_of_bits l).
Proof.
  intros Hk. destruct (bytes_of_bits_split l) as (r & Hr & Hlen & Hb). split; [|done].
  pose proof (f_equal zlen Hr) as Hz. zlen_simpl. pose proof (zlen_nonneg r).
  rewrite (zlen_0 r), app_nil_r in Hr by lia. done.
Qed.

Lemma bits_of_bytes_inj bs cs : Forall is_byte bs → Forall is_byte cs →
  bits_of_bytes bs = bits_of_bytes cs → bs = cs.
Proof.
  intros Hb Hc H. apply (f_equal bytes_of_bits) in H.
  by rewrite !bytes_of_bits_of_bytes_nil in H.
Qed.
