(* ===== verification/GoIo.v ===== *)
(** * The parts of Go's standard library the code is written against

    [io.Writer] and [io.Reader] as type classes (the optional [io.ByteWriter]
    and [io.ByteReader] are the type assertions the code makes), their
    documented contracts as classes of laws, and the standard readers, writers
    and helpers the code uses: [bytes.Buffer], [bytes.Reader],
    [io.LimitedReader], [io.ReadFull] and [io.Copy]. *)

From S2P Require Import Prelude.

(** ** Writers *)

(** [io_Write p] returns the count and the error of [Write(p)]. [io_WriteByte]
    is [Some] when the type assertion to [io.ByteWriter] succeeds. *)
Class IoWriter (W : Type) := {
  io_Write : list Z → go W (Z * option goerr);
  io_WriteByte : option (Z → go W unit);
}.

(** The contract of [io.Writer] and [io.ByteWriter]: [accepted] is what the
    writer has taken so far, a short count comes with an error, and an error
    from [WriteByte] means that the byte was not taken. *)
Class IoWriterSpec (W : Type) `{IoWriter W} := {
  accepted : W → list Z;
  Write_spec p w : p ≠ [] →
    match io_Write p w with
    | (Ok (n, e), w') =>
        0 ≤ n ≤ zlen p ∧ accepted w' = accepted w ++ ztake n p ∧
        match e with None => n = zlen p | Some _ => n < zlen p end
    | _ => False
    end;
  WriteByte_spec f c w : io_WriteByte = Some f →
    match f c w with
    | (Ok _, w') => accepted w' = accepted w ++ [c]
    | (Err _, w') => accepted w' = accepted w
    | _ => False
    end;
}.

(** A writer that never fails, such as [bytes.Buffer]. *)
Class IoWriterTotal (W : Type) `{IoWriter W} : Prop := {
  Write_total p w : p ≠ [] → ∃ w', io_Write p w = (Ok (zlen p, None), w');
  WriteByte_total f c w : io_WriteByte = Some f → ∃ w', f c w = (Ok tt, w');
}.

(** [bytes.Buffer] as a writer. *)
Record Buffer := MkBuffer { buf_bytes : list Z }.

#[export] Instance Buffer_writer : IoWriter Buffer := {
  io_Write p := λ b, (Ok (zlen p, None), MkBuffer (buf_bytes b ++ p));
  io_WriteByte := Some (λ c b, (Ok tt, MkBuffer (buf_bytes b ++ [c])));
}.

#[export] Program Instance Buffer_spec : IoWriterSpec Buffer := {
  accepted := buf_bytes;
}.
Next Obligation.
  intros p w Hp. cbn. rewrite ztake_all by lia.
  pose proof (zlen_nonneg p). split_and!; [lia|lia|done|done].
Qed.
Next Obligation. by intros f c w [= <-]. Qed.

#[export] Instance Buffer_total : IoWriterTotal Buffer.
Proof. split; [by eexists|intros f c w [= <-]; by eexists]. Qed.

(** [io.Copy(w, r)] when [r] is a [bytes.Reader] or [bytes.Buffer] holding [p]:
    both implement [io.WriterTo] by one [Write] of what is left, if anything. *)
Definition CopyBytes {W} (write : list Z → go W (Z * option goerr)) (p : list Z)
  : go W (Z * option goerr) :=
  match p with
  | [] => mret (0, None)
  | _ =>
      '(n, e) ← write p;
      match e with
      | Some err => mret (n, Some err)
      | None => mret (n, if n =? zlen p then None else Some ErrShortWrite)
      end
  end.

(** ** Readers *)

(** [io_Read n] is [Read(p)] with [len(p) = n]: the bytes stored in
    [p[0:k]] and the error. [io_ReadByte] is the assertion to [io.ByteReader]. *)
Class IoReader (R : Type) := {
  io_Read : Z → go R (list Z * option goerr);
  io_ReadByte : option (go R Z);
}.

(** The contract of a reader over a finite stream: [content] is what is left to
    read, and [residue] the bits after it that make no whole byte (a bit reader
    has some). A read returns some bytes or the end of the stream; [io.EOF] may
    come together with the last bytes, but only on a short read. *)
Class IoReaderSpec (R : Type) `{IoReader R} := {
  rd_wf : R → Prop;
  content : R → list Z;
  residue : R → list bool;
  content_bytes r : rd_wf r → Forall is_byte (content r);
  Read_spec n r : rd_wf r → 0 < n → ∃ bs e r',
    io_Read n r = (Ok (bs, e), r') ∧ rd_wf r' ∧ content r = bs ++ content r' ∧
    residue r' = residue r ∧ zlen bs ≤ n ∧
    (e = None ∧ bs ≠ [] ∨ e = Some EOF ∧ content r' = [] ∧ zlen bs < n);
  ReadByte_spec f r : io_ReadByte = Some f → rd_wf r → ∃ r', rd_wf r' ∧
    residue r' = residue r ∧
    match content r with
    | [] => f r = (Err EOF, r') ∧ content r' = []
    | b :: bs => f r = (Ok b, r') ∧ content r' = bs
    end;
}.

(** [bytes.Reader] (or a [bytes.Buffer] being drained). *)
Record bytesReader := MkBytesReader { rest : list Z }.

Definition bytesReader_Read (n : Z) : go bytesReader (list Z * option goerr) := λ r,
  match rest r with
  | [] => (Ok ([], Some EOF), r)
  | bs => (Ok (ztake n bs, None), MkBytesReader (zdrop n bs))
  end.

Definition bytesReader_ReadByte : go bytesReader Z := λ r,
  match rest r with
  | [] => (Err EOF, r)
  | b :: bs => (Ok b, MkBytesReader bs)
  end.

#[export] Instance bytesReader_reader : IoReader bytesReader := {
  io_Read := bytesReader_Read;
  io_ReadByte := Some bytesReader_ReadByte;
}.

#[export] Program Instance bytesReader_spec : IoReaderSpec bytesReader := {
  rd_wf r := Forall is_byte (rest r);
  content := rest;
  residue _ := [];
}.
Next Obligation. done. Qed.
Next Obligation.
  intros n [l] Hwf Hn. cbn in *. unfold bytesReader_Read. cbn.
  destruct l as [|b l].
  { eexists [], _, _. rewrite zlen_nil. split_and!; [done|done|done|done|lia|right].
    by split_and!; [..|lia]. }
  eexists (ztake n (b :: l)), _, _. split_and!; [done|..].
  - cbn. unfold zdrop. by apply Forall_drop.
  - cbn. by rewrite ztake_zdrop.
  - done.
  - rewrite zlen_ztake; lia.
  - left. split; [done|]. intros H%(f_equal zlen).
    rewrite zlen_ztake, zlen_cons in H by lia. pose proof (zlen_nonneg l).
    rewrite zlen_nil in H. lia.
Qed.
Next Obligation.
  intros f [l] [= <-] Hwf. cbn in *. destruct l as [|b l].
  - by exists (MkBytesReader []).
  - exists (MkBytesReader l). split_and!; [by inversion Hwf|done..].
Qed.

(** [io.LimitedReader]: at most [N] more bytes of [R]. It does not implement
    [io.ByteReader]. *)
Record LimitedReader (R : Type) := MkLimitedReader { lim_R : R; lim_N : Z }.
Arguments MkLimitedReader {R}.
Arguments lim_R {R}.
Arguments lim_N {R}.

Definition LimitedReader_Read {R} `{IoReader R} (n : Z)
  : go (LimitedReader R) (list Z * option goerr) := λ l,
  if lim_N l <=? 0 then (Ok ([], Some EOF), l) else
  let p := if lim_N l <? n then lim_N l else n in
  match io_Read p (lim_R l) with
  | (Ok (bs, e), r') => (Ok (bs, e), MkLimitedReader r' (lim_N l - zlen bs))
  | (Err e, r') => (Err e, MkLimitedReader r' (lim_N l))
  | (Panic, r') => (Panic, MkLimitedReader r' (lim_N l))
  | (NoFuel, r') => (NoFuel, MkLimitedReader r' (lim_N l))
  end.

#[export] Instance LimitedReader_reader {R} `{IoReader R} : IoReader (LimitedReader R) := {
  io_Read := LimitedReader_Read;
  io_ReadByte := None;
}.

(** The contract of a [LimitedReader] made with the limit [N0] over [r0]. Its
    well-formedness remembers where it started, so that every lemma about a
    reader of it also says how far the reader below has advanced. *)
#[program] Definition LimitedReader_spec {R} `{IoReaderSpec R} (r0 : R) (N0 : Z) :
  IoReaderSpec (LimitedReader R) := {|
  rd_wf l := rd_wf (lim_R l) ∧ residue (lim_R l) = residue r0 ∧
    ∃ bs, content r0 = bs ++ content (lim_R l) ∧ lim_N l = N0 - zlen bs ∧
      zlen bs ≤ Z.max 0 N0;
  content l := ztake (lim_N l) (content (lim_R l));
  residue _ := [];
|}.
Next Obligation. intros R ?? r0 N0 l [Hwf _]. apply Forall_take. by apply content_bytes. Qed.
Next Obligation.
  intros R ?? r0 N0 n [r N] (Hwf & Hres & pre & Hpre & HN & Hmax) Hn. cbn in *.
  unfold LimitedReader_Read. cbn. destruct (Z.leb_spec N 0).
  { eexists [], _, (MkLimitedReader r N). cbn. rewrite (ztake_0 N) by lia.
    split_and!; [done|done|done|by exists pre|done|done|rewrite zlen_nil; lia|right].
    by split_and!; [..|rewrite zlen_nil; lia]. }
  set (p := if N <? n then N else n).
  assert (0 < p ≤ N ∧ p ≤ n) as (?&?) by (unfold p; destruct (Z.ltb_spec N n); lia).
  destruct (Read_spec p r Hwf) as (bs & e & r' & -> & Hwf' & Hc & Hres' & Hlen & He); [lia|].
  eexists bs, e, (MkLimitedReader r' (N - zlen bs)). cbn.
  split_and!; [done|done|congruence| | |done|lia|].
  - exists (pre ++ bs). rewrite Hpre, Hc, <- (assoc_L (++)). zlen_simpl. split_and!; [done|lia..].
  - rewrite Hc. apply ztake_app_split. lia.
  - destruct He as [He|(-> & Hnil & ?)]; [by left|right].
    rewrite Hnil. unfold ztake. rewrite take_nil. by split_and!; [..|lia].
Qed.
Next Obligation. done. Qed.

(** [io.Copy] from a reader that is no [io.WriterTo]: reads of [n] bytes until the
    end of the stream, which is no error. Each round reads a byte or ends. *)
Fixpoint Drain {R} `{IoReader R} (fuel : nat) (n : Z) (acc : list Z) : go R (list Z * option goerr) :=
  match fuel with
  | O => nofuel
  | S fuel' =>
      '(bs, e) ← io_Read n;
      match e with
      | None => Drain fuel' n (acc ++ bs)
      | Some EOF => mret (acc ++ bs, None)
      | Some err => mret (acc ++ bs, Some err)
      end
  end.

(** The application's reads through a [ConcatenatingReader] (see [Concat]) until its
    reader [r] ends: what comes together with [io.EOF] is dropped, and after another
    error the application reads on, as nothing else lets go of [r]. *)
Fixpoint CatDrain {R} `{IoReader R} (fuel : nat) (n : Z) (acc : list Z) : go R (list Z) :=
  match fuel with
  | O => nofuel
  | S fuel' =>
      '(bs, e) ← io_Read n;
      if decide (e = Some EOF) then mret acc else CatDrain fuel' n (acc ++ bs)
  end.

(** [io.Copy(ioutil.Discard, r)]: [Discard] reads with a buffer of 8192 bytes. *)
Definition CopyDiscard {R} `{IoReader R} (fuel : nat) : go R (option goerr) :=
  '(_, e) ← Drain fuel 8192 [];
  mret e.

Lemma Drain_spec {R} `{IoReaderSpec R} fuel n acc r : rd_wf r → 0 < n → (length (content r) < fuel)%nat →
  ∃ r', Drain fuel n acc r = (Ok (acc ++ content r, None), r') ∧ rd_wf r' ∧ content r' = [] ∧
    residue r' = residue r.
Proof.
  revert acc r. induction fuel as [|fuel IH]; intros acc r Hwf Hn Hf; [lia|]. cbn [Drain].
  destruct (Read_spec n r Hwf Hn) as (bs & e & r1 & Hr & Hwf1 & Hc & Hres & _ & He).
  rewrite (bind_Ok _ _ _ _ _ Hr). rewrite Hc, length_app in Hf. destruct He as [[-> Hbs]|(-> & Hnil & _)].
  - destruct (IH (acc ++ bs) r1 Hwf1 Hn) as (r2 & Hrun & ? & ? & ?); [destruct bs; [done|cbn [length] in Hf; lia]|].
    exists r2. rewrite Hrun, Hc. split_and!; [by rewrite (assoc_L (++))|done|done|congruence].
  - exists r1. by rewrite Hc, Hnil, app_nil_r.
Qed.

(** All of the content but what the last read returned together with [io.EOF], which
    is less than the [n] bytes asked for. *)
Lemma CatDrain_spec {R} `{IoReaderSpec R} fuel n acc r : rd_wf r → 0 < n → (length (content r) < fuel)%nat →
  ∃ heard lost r', CatDrain fuel n acc r = (Ok (acc ++ heard), r') ∧ content r = heard ++ lost ∧ zlen lost < n ∧
    rd_wf r' ∧ content r' = [] ∧ residue r' = residue r.
Proof.
  revert acc r. induction fuel as [|fuel IH]; intros acc r Hwf Hn Hf; [lia|]. cbn [CatDrain].
  destruct (Read_spec n r Hwf Hn) as (bs & e & r1 & Hr & Hwf1 & Hc & Hres & Hlen & He).
  rewrite (bind_Ok _ _ _ _ _ Hr). rewrite Hc, length_app in Hf. destruct He as [[-> Hbs]|(-> & Hnil & Hlt)].
  - destruct (IH (acc ++ bs) r1 Hwf1 Hn) as (heard & lost & r2 & Hrun & Hc1 & ? & ? & ? & ?);
      [destruct bs; [done|cbn [length] in Hf; lia]|].
    exists (bs ++ heard), lost, r2. rewrite decide_False by done. rewrite Hrun, Hc, Hc1, !(assoc_L (++)).
    split_and!; [done..|congruence].
  - exists [], bs, r1. rewrite decide_True by done. rewrite Hc, Hnil, !app_nil_r. by split_and!.
Qed.

(** [io.ReadFull(r, buf)] with [len(buf) = n], and the loop of [io.ReadAtLeast]
    it runs. Each round of a reader that keeps the contract reads a byte or
    ends, so a fuel of [n + 1] rounds is enough. *)
Fixpoint ReadAtLeast_loop {R} `{IoReader R} (fuel : nat) (n : Z) (acc : list Z)
  : go R (list Z * option goerr) :=
  if zlen acc <? n then
    match fuel with
    | O => nofuel
    | S fuel' =>
        '(bs, e) ← io_Read (n - zlen acc);
        match e with
        | None => ReadAtLeast_loop fuel' n (acc ++ bs)
        | Some err => mret (acc ++ bs, Some err)
        end
    end
  else mret (acc, None).

Definition ReadFull {R} `{IoReader R} (n : Z) : go R (list Z * option goerr) :=
  '(bs, e) ← ReadAtLeast_loop (Z.to_nat n + 1) n [];
  mret (bs, if n <=? zlen bs then None
            else if decide (e = Some EOF) then
                   (if 0 <? zlen bs then Some ErrUnexpectedEOF else e)
                 else e).

Lemma ReadAtLeast_loop_done {R} `{IoReader R} fuel n acc (r : R) :
  n ≤ zlen acc → ReadAtLeast_loop fuel n acc r = (Ok (acc, None), r).
Proof.
  intros Hn. destruct fuel; cbn [ReadAtLeast_loop]; by rewrite (proj2 (Z.ltb_ge _ _)).
Qed.

Section ReadFull_lemmas.
Context {R} `{IoReaderSpec R}.

Lemma ReadAtLeast_loop_spec fuel n acc r :
  rd_wf r → 0 ≤ n → zlen acc ≤ n → n - zlen acc < Z.of_nat fuel →
  ∃ e r', ReadAtLeast_loop fuel n acc r = (Ok (acc ++ ztake (n - zlen acc) (content r), e), r') ∧
    rd_wf r' ∧ content r' = zdrop (n - zlen acc) (content r) ∧ residue r' = residue r ∧
    (zlen acc + zlen (content r) < n → e = Some EOF).
Proof.
  revert acc r. induction fuel as [|fuel IH]; intros acc r Hwf Hn Hacc Hf; [lia|].
  cbn [ReadAtLeast_loop]. destruct (Z.ltb_spec (zlen acc) n) as [Hlt|Hge].
  2: { eexists _, r. rewrite ztake_0, zdrop_0, app_nil_r by lia.
       split_and!; [done|done|done|done|]. pose proof (zlen_nonneg (content r)). lia. }
  destruct (Read_spec (n - zlen acc) r Hwf)
    as (bs & e & r1 & Hr & Hwf1 & Hc & Hres & Hlen & He); [lia|].
  rewrite (bind_Ok _ _ _ _ _ Hr). cbn beta iota. rewrite Hc.
  destruct He as [[-> Hbs]|(-> & Hnil & Hshort)].
  - pose proof (zlen_nonneg bs).
    assert (zlen bs ≠ 0) by (by intros ?%zlen_0).
    destruct (IH (acc ++ bs) r1) as (e & r2 & Hloop & ? & Hc2 & Hres2 & He);
      [done|lia|zlen_simpl; lia..|].
    exists e, r2. zlen_simpl. rewrite Hloop, Hc2.
    rewrite ztake_app_split by lia. rewrite <- (assoc_L (++)).
    replace (n - (zlen acc + zlen bs)) with (n - zlen acc - zlen bs) by lia.
    split_and!; [done|done| |congruence|intros; apply He; lia].
    symmetry. by apply zdrop_app_ge.
  - eexists _, r1. rewrite Hnil, app_nil_r, ztake_all, zdrop_all by lia. done.
Qed.

Lemma ReadFull_spec n r : rd_wf r → 0 ≤ n →
  ∃ r', rd_wf r' ∧ content r' = zdrop n (content r) ∧ residue r' = residue r ∧
  ReadFull n r =
    (Ok (ztake n (content r),
         if n <=? zlen (content r) then None
         else if 0 <? zlen (content r) then Some ErrUnexpectedEOF else Some EOF), r').
Proof.
  intros Hwf Hn. destruct (ReadAtLeast_loop_spec (Z.to_nat n + 1) n [] r)
    as (e & r' & Hloop & ? & ? & ? & He); [done|done|rewrite zlen_nil; lia..|].
  rewrite zlen_nil, Z.sub_0_r, app_nil_l in *.
  exists r'. split_and!; [done|done|done|]. unfold ReadFull.
  rewrite (bind_Ok _ _ _ _ _ Hloop). cbn. rewrite zlen_ztake by lia.
  do 3 f_equal. destruct (Z.leb_spec n (zlen (content r))).
  - by rewrite Z.min_l, (proj2 (Z.leb_le n n)) by lia.
  - rewrite Z.min_r, (proj2 (Z.leb_gt _ _)) by lia. by rewrite He by lia.
Qed.
End ReadFull_lemmas.
