(* ===== verification/BitWriter.v ===== *)
(** * The bit writer (io/bitio.go)

    [bitWriter] over any [io.Writer], its methods translated one by one, and
    its refinement of a bit stream: [wbits] is everything written so far, the
    bytes the underlying writer has accepted followed by the saved bits. *)

From S2P Require Import Prelude Bits GoIo.

Record bitWriter (W : Type) := BitWriter {
  bw_writer : W;
  bw_saved : Z;        (* uint64; junk above [bw_savedBits] *)
  bw_savedBits : Z;    (* byte *)
  bw_written : Z;      (* int64 *)
}.
Arguments BitWriter {W}.
Arguments bw_writer {W}.
Arguments bw_saved {W}.
Arguments bw_savedBits {W}.
Arguments bw_written {W}.

Definition NewBitWriter {W} (writer : W) : bitWriter W := BitWriter writer 0 0 0.

Section bitwriter.
Context {W : Type} `{IoWriter W}.

Definition on_writer {A} (m : go W A) : go (bitWriter W) A :=
  zoom bw_writer (λ w bw, BitWriter w (bw_saved bw) (bw_savedBits bw) (bw_written bw)) m.

Definition add_written (n : Z) : go (bitWriter W) unit :=
  modS (λ bw, BitWriter (bw_writer bw) (bw_saved bw) (bw_savedBits bw)
                (i64 (bw_written bw + n))).

Definition set_saved (saved savedBits : Z) : go (bitWriter W) unit :=
  modS (λ bw, BitWriter (bw_writer bw) saved savedBits (bw_written bw)).

Definition Written : go (bitWriter W) Z :=
  bw ← getS;
  if 0 <? bw_savedBits bw then panic else mret (bw_written bw).

Definition writeByteInternal (c : Z) : go (bitWriter W) unit :=
  match io_WriteByte with
  | Some byteWriter => add_written 1;; on_writer (byteWriter c)
  | None =>
      '(n, err) ← on_writer (io_Write [c]);
      match err with
      | Some e => fail e
      | None => if n =? 0 then fail ErrShortWrite else add_written n
      end
  end.

(** [savedBits] is a byte, so the loop runs at most 31 times. *)
Fixpoint writeSaved_loop (fuel : nat) : go (bitWriter W) unit :=
  bw ← getS;
  if 8 <=? bw_savedBits bw then
    match fuel with
    | O => nofuel
    | S fuel' =>
        writeByteInternal (u8 (Z.shiftr (bw_saved bw) (bw_savedBits bw - 8)));;
        bw ← getS;
        set_saved (bw_saved bw) (u8 (bw_savedBits bw - 8));;
        writeSaved_loop fuel'
    end
  else mret tt.

Definition writeSaved : go (bitWriter W) unit := writeSaved_loop 32.

Definition WriteBits (v count : Z) : go (bitWriter W) unit :=
  if 64 <? count then fail ErrBytesTooLarge
  else if (count <? 64) && (Z.shiftl 1 count <=? v) then fail ErrBytesTooLarge
  else
    bw ← getS;
    if u8 (bw_savedBits bw + count) <? 8 then
      set_saved (Z.lor (u64 (Z.shiftl (bw_saved bw) count)) v)
                (u8 (bw_savedBits bw + count))
    else
      writeSaved;;
      bw ← getS;
      let remainder := u8 (count + bw_savedBits bw - 8) in
      let x := u8 (Z.lor (u64 (Z.shiftl (bw_saved bw) (u8 (8 - bw_savedBits bw))))
                         (Z.shiftr v remainder)) in
      writeByteInternal x;;
      set_saved v remainder;;
      _ ← catch writeSaved;
      mret tt.

Definition WriteBit (bit : Z) : go (bitWriter W) unit := WriteBits bit 1.

Definition WriteByte (c : Z) : go (bitWriter W) unit := WriteBits c 8.

(** The loop of [Write] at index [i]; it returns the count and the error. *)
Fixpoint Write_loop (p : list Z) (i : Z) : go (bitWriter W) (Z * option goerr) :=
  match p with
  | [] => mret (i, None)
  | b :: p' =>
      r ← catch (WriteByte b);
      match r with
      | inl _ => Write_loop p' (i + 1)
      | inr err => mret (i, Some err)
      end
  end.

Definition Write (p : list Z) : go (bitWriter W) (Z * option goerr) :=
  bw ← getS;
  if bw_savedBits bw =? 0 then
    '(n, err) ← on_writer (io_Write p);
    add_written n;;
    mret (n, err)
  else Write_loop p 0.

Definition Pad (pad : Z) : go (bitWriter W) unit :=
  bw ← getS;
  if 0 <? bw_savedBits bw then
    writeSaved;;
    bw ← getS;
    WriteBits (Z.shiftr pad (bw_savedBits bw)) (u8 (8 - bw_savedBits bw));;
    set_saved 0 0
  else mret tt.
End bitwriter.

(** ** The abstract state: a growing bit string *)

Section refinement.
Context {W : Type} `{IoWriterSpec W}.

Definition wbits (bw : bitWriter W) : list bool :=
  bits_of_bytes (accepted (bw_writer bw)) ++ zbits (bw_savedBits bw) (bw_saved bw).

(** Fewer than 64 bits are held back, however often the writer below failed. *)
Definition bw_wf (bw : bitWriter W) : Prop := 0 ≤ bw_savedBits bw < 64.

(** What a call did to the stream: it appended [bits] if it returned a nil
    error and nothing if it returned an error; it never panics. *)
Definition appended {A} (bits : list bool) (bw : bitWriter W)
    (r : outcome A * bitWriter W) : Prop :=
  bw_wf r.2 ∧
  match r.1 with
  | Ok _ => wbits r.2 = wbits bw ++ bits
  | Err _ => wbits r.2 = wbits bw
  | _ => False
  end.

Lemma writeByteInternal_spec c (bw : bitWriter W) :
  let '(o, bw') := writeByteInternal c bw in
  bw_saved bw' = bw_saved bw ∧ bw_savedBits bw' = bw_savedBits bw ∧
  match o with
  | Ok _ => accepted (bw_writer bw') = accepted (bw_writer bw) ++ [c]
  | Err _ => accepted (bw_writer bw') = accepted (bw_writer bw)
  | _ => False
  end.
Proof.
  unfold writeByteInternal. destruct io_WriteByte as [f|] eqn:Hf.
  - unfold mbind, go_bind, add_written, modS, on_writer, zoom. cbn.
    pose proof (WriteByte_spec f c (bw_writer bw) Hf) as Hspec.
    by destruct (f c (bw_writer bw)) as [[] w'].
  - unfold mbind, go_bind, add_written, modS, on_writer, zoom. cbn.
    pose proof (Write_spec [c] (bw_writer bw)) as Hspec.
    destruct (io_Write [c] (bw_writer bw)) as [[[n e]|e| |] w']; [|by destruct Hspec..].
    destruct Hspec as (Hn & Ha & He); [done|]. change (zlen [c]) with 1 in *.
    destruct e as [e|].
    + cbn. split_and!; [done..|]. by rewrite Ha, ztake_0, app_nil_r by lia.
    + subst n. cbn. split_and!; [done..|]. by rewrite Ha, ztake_all.
Qed.

(** Moving the top saved byte to the accepted bytes leaves the stream alone. *)
Lemma wbits_save bw bw' c :
  8 ≤ bw_savedBits bw →
  c = u8 (Z.shiftr (bw_saved bw) (bw_savedBits bw - 8)) →
  accepted (bw_writer bw') = accepted (bw_writer bw) ++ [c] →
  bw_saved bw' = bw_saved bw → bw_savedBits bw' = bw_savedBits bw - 8 →
  wbits bw' = wbits bw.
Proof.
  intros Hs -> Ha Hv Hb. unfold wbits. rewrite Ha, Hv, Hb.
  rewrite bits_of_bytes_app, bits_of_bytes_one, <- (assoc_L (++)). f_equal.
  replace (bw_savedBits bw) with (8 + (bw_savedBits bw - 8)) at 3 by lia.
  rewrite zbits_app by lia. f_equal. apply zbits_ext. intros. by bitwise.
Qed.

(** Flushing never changes the stream; on success fewer than 8 bits remain. *)
Lemma writeSaved_loop_spec fuel (bw : bitWriter W) :
  bw_wf bw → bw_savedBits bw < 8 * Z.of_nat (S fuel) →
  let '(o, bw') := writeSaved_loop fuel bw in
  wbits bw' = wbits bw ∧ bw_wf bw' ∧
  match o with Ok _ => bw_savedBits bw' < 8 | Err _ => True | _ => False end.
Proof.
  revert bw. induction fuel as [|fuel IH]; intros bw Hwf Hf; unfold bw_wf in *;
    cbn [writeSaved_loop]; rewrite bind_unfold; cbn [getS].
  - rewrite (proj2 (Z.leb_gt _ _)) by lia. split_and!; [done|lia..].
  - destruct (Z.leb_spec 8 (bw_savedBits bw)); [|by split_and!; [|lia..]].
    pose proof (writeByteInternal_spec
      (u8 (Z.shiftr (bw_saved bw) (bw_savedBits bw - 8))) bw) as Hw.
    rewrite bind_unfold. destruct (writeByteInternal _ bw) as [[] bw1];
      destruct Hw as (Hv & Hb & Ha); [|by unfold wbits; rewrite Ha, Hv, Hb|done..].
    rewrite bind_unfold. cbn [getS]. rewrite Hv, Hb.
    rewrite bind_unfold. cbn [set_saved modS].
    rewrite u8_small by lia. rewrite <- (wbits_save bw
      (BitWriter (bw_writer bw1) (bw_saved bw) (bw_savedBits bw - 8) (bw_written bw1)) _)
      by (try reflexivity; assumption || done).
    apply IH; cbn; lia.
Qed.

Lemma writeSaved_spec (bw : bitWriter W) : bw_wf bw →
  let '(o, bw') := writeSaved bw in
  wbits bw' = wbits bw ∧ bw_wf bw' ∧
  match o with Ok _ => bw_savedBits bw' < 8 | Err _ => True | _ => False end.
Proof. intros Hwf. apply writeSaved_loop_spec; [done|]. unfold bw_wf in Hwf. lia. Qed.

(** The two ways a field joins the stream: shifted into the saved bits, or split
    over the byte that completes the saved bits and a remainder. *)
Lemma wbits_shift_in (bw : bitWriter W) v count :
  0 ≤ count → 0 ≤ bw_savedBits bw → bw_savedBits bw + count < 8 → 0 ≤ v < 2 ^ count →
  zbits (bw_savedBits bw + count) (Z.lor (u64 (Z.shiftl (bw_saved bw) count)) v) =
  zbits (bw_savedBits bw) (bw_saved bw) ++ zbits count v.
Proof.
  intros ??? Hv. rewrite zbits_app by lia. f_equal; apply zbits_ext; intros i Hi.
  - bitwise. rewrite (testbit_above v count) by lia. rewrite orb_false_r. f_equal. lia.
  - by bitwise.
Qed.

Lemma wbits_split_byte sb saved v count :
  0 ≤ sb < 8 → 8 ≤ sb + count → count ≤ 64 → 0 ≤ v < 2 ^ count →
  zbits 8 (u8 (Z.lor (u64 (Z.shiftl saved (8 - sb))) (Z.shiftr v (count + sb - 8)))) ++
    zbits (count + sb - 8) v =
  zbits sb saved ++ zbits count v.
Proof.
  intros ??? Hv. replace 8 with (sb + (8 - sb)) at 1 by lia.
  replace count with ((8 - sb) + (count + sb - 8)) at 3 by lia.
  rewrite !zbits_app, (assoc_L (++)) by lia. f_equal.
  f_equal; apply zbits_ext; intros i Hi.
  - bitwise. rewrite (testbit_above v count) by lia. rewrite orb_false_r. f_equal. lia.
  - by bitwise.
Qed.

Lemma WriteBits_too_large v count (bw : bitWriter W) :
  0 ≤ count → 64 < count ∨ (count < 64 ∧ 2 ^ count ≤ v) →
  WriteBits v count bw = (Err ErrBytesTooLarge, bw).
Proof.
  intros Hc [?|[??]]; unfold WriteBits.
  - by rewrite (proj2 (Z.ltb_lt 64 count)).
  - rewrite (proj2 (Z.ltb_ge 64 count)), (proj2 (Z.ltb_lt count 64)) by lia.
    by rewrite Z.shiftl_1_l, (proj2 (Z.leb_le _ v)).
Qed.

Lemma WriteBits_fits v count :
  0 ≤ count ≤ 64 → 0 ≤ v < 2 ^ count →
  (64 <? count) = false ∧ (count <? 64) && (Z.shiftl 1 count <=? v) = false.
Proof.
  intros. rewrite Z.shiftl_1_l. split; [apply Z.ltb_ge; lia|].
  apply andb_false_intro2. apply Z.leb_gt. lia.
Qed.

Lemma writeSaved_noop (bw : bitWriter W) :
  bw_savedBits bw < 8 → writeSaved bw = (Ok tt, bw).
Proof.
  intros H1. unfold writeSaved. cbn [writeSaved_loop]. rewrite bind_unfold. cbn [getS].
  by rewrite (proj2 (Z.leb_gt _ _)).
Qed.

Lemma writeByteInternal_saved c (bw bw' : bitWriter W) o :
  writeByteInternal c bw = (o, bw') → bw_savedBits bw' = bw_savedBits bw.
Proof.
  intros Hw. pose proof (writeByteInternal_spec c bw) as Hs. rewrite Hw in Hs. by destruct Hs as (?&?&?).
Qed.

(** A field that exactly completes the saved byte leaves nothing behind. *)
Lemma WriteBits_completes v count (bw bw' : bitWriter W) :
  bw_savedBits bw < 8 → bw_savedBits bw + count = 8 →
  WriteBits v count bw = (Ok tt, bw') → bw_savedBits bw' = 0.
Proof.
  intros Hlt H8. unfold WriteBits. destruct (64 <? count); [done|].
  destruct (_ && _); [done|]. rewrite bind_unfold. cbn [getS]. rewrite H8. cbn [Z.ltb u8].
  change (u8 8 <? 8) with false. cbn iota. rewrite bind_unfold, writeSaved_noop by done.
  rewrite bind_unfold. cbn [getS]. rewrite (Z.add_comm count), H8, bind_unfold.
  match goal with |- context [writeByteInternal ?x bw] =>
    pose proof (writeByteInternal_saved x bw) as Hw;
    destruct (writeByteInternal x bw) as [[] bw2]; [|done..] end.
  cbn. by intros [= <-].
Qed.

(** The state in which a field of [count] bits can be written safely: nothing
    but the bits of an incomplete byte is held back, or the field completes a
    byte whatever is left of the held back bits after a flush. *)
Definition bw_ready (count : Z) (bw : bitWriter W) : Prop :=
  bw_savedBits bw < 8 ∨ 8 ≤ count.

Lemma WriteBits_spec v count (bw : bitWriter W) :
  bw_wf bw → bw_ready count bw → 0 ≤ count ≤ 64 → 0 ≤ v < 2 ^ count →
  appended (zbits count v) bw (WriteBits v count bw).
Proof.
  intros Hwf Hrd Hc Hv. unfold WriteBits.
  destruct (WriteBits_fits v count Hc Hv) as [-> ->].
  rewrite bind_unfold. cbn [getS]. unfold bw_wf in Hwf.
  rewrite u8_small by lia. destruct (Z.ltb_spec (bw_savedBits bw + count) 8) as [|Hge].
  { split; cbn; [unfold bw_wf; cbn; lia|]. unfold wbits. cbn.
    by rewrite wbits_shift_in, (assoc_L (++)) by lia. }
  assert (match writeSaved bw with
          | (Ok _, bw1) => wbits bw1 = wbits bw ∧ 8 ≤ bw_savedBits bw1 + count ∧
                           0 ≤ bw_savedBits bw1 < 8
          | (Err _, bw1) => wbits bw1 = wbits bw ∧ bw_wf bw1
          | _ => False end) as Hs.
  { destruct (Z.lt_ge_cases (bw_savedBits bw) 8) as [Hlt|].
    - rewrite writeSaved_noop by done. by split_and!; [|lia..].
    - destruct Hrd as [|Hrd]; [lia|]. pose proof (writeSaved_spec bw Hwf) as Hs.
      destruct (writeSaved bw) as [[] bw1]; destruct Hs as (? & Hw & ?);
        unfold bw_wf in Hw; [|done..]. split_and!; [done|lia..]. }
  rewrite bind_unfold. destruct (writeSaved bw) as [[] bw1];
    [|by destruct Hs; split|done..].
  destruct Hs as (Hbits & Hge1 & Hlt). rewrite bind_unfold. cbn [getS].
  rewrite !u8_small by lia. rewrite bind_unfold.
  match goal with |- context [writeByteInternal ?x bw1] =>
    pose proof (writeByteInternal_spec x bw1) as Hw;
    destruct (writeByteInternal x bw1) as [[] bw2] end;
    destruct Hw as (Hv2 & Hb2 & Ha2); [|split|done..].
  2: { unfold bw_wf. cbn. lia. }
  2: { cbn. rewrite <- Hbits. unfold wbits. by rewrite Ha2, Hv2, Hb2. }
  rewrite bind_unfold. cbn [set_saved modS]. unfold catch. rewrite bind_unfold.
  set (bw3 := BitWriter _ _ _ _).
  assert (wbits bw3 = wbits bw ++ zbits count v) as Hw3.
  { unfold bw3, wbits. cbn. rewrite Ha2, bits_of_bytes_app, <- (assoc_L (++)).
    rewrite bits_of_bytes_one, (u8_small (8 - _)), wbits_split_byte by lia.
    rewrite (assoc_L (++)). f_equal. exact Hbits. }
  assert (bw_wf bw3) as Hwf3 by (unfold bw_wf, bw3; cbn; lia).
  pose proof (writeSaved_spec bw3 Hwf3) as Hs.
  destruct (writeSaved bw3) as [[] bw4]; destruct Hs as (Hb4 & Hwf4 & ?); [..|done|done];
    split; cbn; by rewrite ?Hb4.
Qed.

Lemma WriteByte_spec' c (bw : bitWriter W) :
  bw_wf bw → is_byte c → appended (zbits 8 c) bw (WriteByte c bw).
Proof. intros. by apply WriteBits_spec; [|right|..]. Qed.

(** The unaligned loop of [Write] appends the bytes it counts. *)
Lemma Write_loop_spec p i (bw : bitWriter W) :
  bw_wf bw → Forall is_byte p →
  match Write_loop p i bw with
  | (Ok (n, e), bw') =>
      i ≤ n ≤ i + zlen p ∧ bw_wf bw' ∧ (e = None ↔ n = i + zlen p) ∧
      wbits bw' = wbits bw ++ bits_of_bytes (ztake (n - i) p)
  | _ => False
  end.
Proof.
  intros Hwf Hp. revert i bw Hwf. induction Hp as [|c p Hc Hp IH]; intros i bw Hwf.
  - cbn [Write_loop]. rewrite ret_unfold, zlen_nil. split_and!; [lia|lia|done|split; [lia|done]|].
    unfold ztake. by rewrite take_nil, app_nil_r.
  - cbn [Write_loop]. unfold catch. rewrite bind_unfold.
    destruct (WriteByte_spec' c bw Hwf Hc) as [Hwf1 Ho]. rewrite zlen_cons.
    pose proof (zlen_nonneg p). destruct (WriteByte c bw) as [[] bw1]; cbn in *; [..|done|done].
    + specialize (IH (i + 1) bw1 Hwf1).
      destruct (Write_loop p (i + 1) bw1) as [[[n e]|?| |] bw2]; [|done..].
      destruct IH as (Hn & ? & He & Hb). split_and!; [lia|lia|done| |].
      * rewrite He. lia.
      * rewrite Hb, Ho, <- (assoc_L (++)). f_equal.
        unfold ztake. replace (Z.to_nat (n - i)) with (S (Z.to_nat (n - (i + 1)))) by lia.
        by rewrite <- bits_of_bytes_cons.
    + split_and!; [lia|lia|done|split; [done|lia]|].
      by rewrite Z.sub_diag, ztake_0, app_nil_r.
Qed.

(** [Write] appends the bytes it counts, aligned or not. *)
Lemma Write_spec' p (bw : bitWriter W) :
  bw_wf bw → p ≠ [] → Forall is_byte p →
  match Write p bw with
  | (Ok (n, e), bw') =>
      0 ≤ n ≤ zlen p ∧ bw_wf bw' ∧ (e = None ↔ n = zlen p) ∧
      wbits bw' = wbits bw ++ bits_of_bytes (ztake n p)
  | _ => False
  end.
Proof.
  intros Hwf Hne Hp. unfold Write. rewrite bind_unfold. cbn [getS].
  destruct (Z.eqb_spec (bw_savedBits bw) 0) as [H0'|].
  - unfold mbind, go_bind, on_writer, zoom, add_written, modS. cbn.
    pose proof (Write_spec p (bw_writer bw) Hne) as Hw.
    destruct (io_Write p (bw_writer bw)) as [[[n e]|?| |] w']; [|by destruct Hw..].
    destruct Hw as (? & Ha & He). cbn. split_and!; [lia|lia|done| |].
    + destruct e; split; (done || lia).
    + unfold wbits. cbn. by rewrite H0', Ha, bits_of_bytes_app, !app_nil_r.
  - pose proof (Write_loop_spec p 0 bw Hwf Hp) as Hw.
    destruct (Write_loop p 0 bw) as [[[k e]|err| |] bw']; [|done..].
    by rewrite Z.add_0_l, Z.sub_0_r in Hw.
Qed.

(** [Pad] completes the last byte with the high bits of [pad]. *)
Lemma Pad_spec pad (bw : bitWriter W) :
  0 ≤ bw_savedBits bw < 8 → is_byte pad →
  let n := (8 - bw_savedBits bw) mod 8 in
  appended (zbits n (Z.shiftr pad (8 - n))) bw (Pad pad bw) ∧
  match Pad pad bw with (Ok _, bw') => bw_savedBits bw' = 0 | _ => True end.
Proof.
  intros Hsb Hpad n. unfold Pad. rewrite bind_unfold. cbn [getS].
  destruct (Z.ltb_spec 0 (bw_savedBits bw)).
  2: { assert (bw_savedBits bw = 0) as H00 by lia. unfold n. rewrite H00. cbn.
       split; [|done]. split; [unfold bw_wf; cbn; lia|]. by rewrite app_nil_r. }
  assert (n = 8 - bw_savedBits bw) as Hn by (unfold n; rewrite Z.mod_small; lia).
  clearbody n. subst n.
  rewrite bind_unfold, writeSaved_noop by lia.
  rewrite bind_unfold. cbn [getS]. rewrite u8_small by lia.
  replace (8 - (8 - bw_savedBits bw)) with (bw_savedBits bw) by lia.
  set (n := 8 - bw_savedBits bw). set (v := Z.shiftr pad _).
  assert (0 ≤ v < 2 ^ n) as Hv.
  { apply shiftr_byte_bound; [lia|done]. }
  destruct (WriteBits_spec v n bw) as [Hwf Ho]; [unfold bw_wf; lia|left; lia|lia|done|].
  rewrite bind_unfold.
  pose proof (WriteBits_completes v n bw) as Hcomp.
  destruct (WriteBits v n bw) as [[] bw1]; cbn in *; [..|done|done]; [|done].
  destruct a. split; [|done]. split; [unfold bw_wf; cbn; lia|].
  cbn. rewrite <- Ho. unfold wbits. cbn. rewrite (Hcomp bw1); [done|lia|lia|done].
Qed.

(** Every method passes only bytes to the writer below, whatever it returns. *)
Definition bytes_ok (bw : bitWriter W) : Prop := Forall is_byte (accepted (bw_writer bw)).

Definition keeps {A} (m : go (bitWriter W) A) : Prop := ∀ bw, bytes_ok bw → bytes_ok (m bw).2.

Lemma keeps_same {A} (m : go (bitWriter W) A) :
  (∀ bw, bw_writer (m bw).2 = bw_writer bw) → keeps m.
Proof. intros Hm bw Hb. unfold bytes_ok. by rewrite Hm. Qed.

Lemma keeps_bind {A B} (m : go (bitWriter W) A) (k : A → go (bitWriter W) B) :
  keeps m → (∀ a, keeps (k a)) → keeps (m ≫= k).
Proof.
  intros Hm Hk bw Hb. specialize (Hm bw Hb). rewrite bind_unfold.
  destruct (m bw) as [[a|e| |] bw1]; [by apply Hk|done..].
Qed.

Lemma keeps_catch {A} (m : go (bitWriter W) A) : keeps m → keeps (catch m).
Proof.
  intros Hm bw Hb. specialize (Hm bw Hb). unfold catch.
  by destruct (m bw) as [[a|e| |] bw1].
Qed.

Lemma writeByteInternal_keeps c : is_byte c → keeps (writeByteInternal c).
Proof.
  intros Hc. unfold writeByteInternal. destruct io_WriteByte as [f|] eqn:Hf.
  - apply keeps_bind; [by apply keeps_same|]. intros _ bw Hb. unfold on_writer, zoom.
    pose proof (WriteByte_spec f c (bw_writer bw) Hf) as Hs. unfold bytes_ok in *.
    destruct (f c (bw_writer bw)) as [[[]|e| |] w']; try done; cbn; rewrite Hs; [|done].
    apply Forall_app. split; [done|by constructor].
  - apply keeps_bind.
    + intros bw Hb. unfold on_writer, zoom. pose proof (Write_spec [c] (bw_writer bw)) as Hs.
      unfold bytes_ok in *. destruct (io_Write [c] (bw_writer bw)) as [[[n e]|e| |] w'];
        try by destruct Hs. cbn. destruct Hs as (_ & -> & _); [done|].
      apply Forall_app. split; [done|]. apply Forall_take. by constructor.
    + intros [n [e|]]; [by apply keeps_same|]. destruct (n =? 0); by apply keeps_same.
Qed.

Lemma writeSaved_keeps : keeps writeSaved.
Proof.
  unfold writeSaved. generalize 32%nat as fuel. intros fuel. induction fuel as [|fuel IH];
    cbn [writeSaved_loop]; (apply keeps_bind; [by apply keeps_same|]; intros bw0);
    (destruct (8 <=? bw_savedBits bw0); [|by apply keeps_same]); [by apply keeps_same|].
  apply keeps_bind; [apply writeByteInternal_keeps, u8_range|]. intros _.
  apply keeps_bind; [by apply keeps_same|]. intros bw1.
  apply keeps_bind; [by apply keeps_same|]. done.
Qed.

Lemma WriteBits_keeps v count : keeps (WriteBits v count).
Proof.
  unfold WriteBits. destruct (64 <? count); [by apply keeps_same|].
  destruct (_ && _); [by apply keeps_same|].
  apply keeps_bind; [by apply keeps_same|]. intros bw0.
  destruct (_ <? 8); [by apply keeps_same|].
  apply keeps_bind; [apply writeSaved_keeps|]. intros _.
  apply keeps_bind; [by apply keeps_same|]. intros bw1.
  apply keeps_bind; [apply writeByteInternal_keeps, u8_range|]. intros _.
  apply keeps_bind; [by apply keeps_same|]. intros _.
  apply keeps_bind; [apply keeps_catch, writeSaved_keeps|]. intros _. by apply keeps_same.
Qed.

Lemma Pad_keeps pad : keeps (Pad pad).
Proof.
  unfold Pad. apply keeps_bind; [by apply keeps_same|]. intros bw0.
  destruct (0 <? _); [|by apply keeps_same].
  apply keeps_bind; [apply writeSaved_keeps|]. intros _.
  apply keeps_bind; [by apply keeps_same|]. intros bw1.
  apply keeps_bind; [apply WriteBits_keeps|]. intros _. by apply keeps_same.
Qed.
End refinement.

(** ** Over a writer that never fails *)

Section total.
Context {W : Type} `{IoWriterSpec W} `{!IoWriterTotal W}.

Definition bw_ok (bw : bitWriter W) : Prop := 0 ≤ bw_savedBits bw < 8 ∧ bytes_ok bw.

(** [writes m a bits]: [m] returns [a] and appends [bits] to the stream, from
    every state in which less than a byte is held back. *)
Definition writes {A} (m : go (bitWriter W) A) (a : A) (bits : list bool) : Prop :=
  ∀ bw, bw_ok bw → ∃ bw', m bw = (Ok a, bw') ∧ bw_ok bw' ∧ wbits bw' = wbits bw ++ bits.

Lemma writes_ret {A} (a : A) : writes (mret a) a [].
Proof. intros bw Hok. exists bw. by rewrite app_nil_r. Qed.

Lemma writes_bind {A B} (m : go (bitWriter W) A) (k : A → go (bitWriter W) B) a b l1 l2 :
  writes m a l1 → writes (k a) b l2 → writes (m ≫= k) b (l1 ++ l2).
Proof.
  intros Hm Hk bw Hok. destruct (Hm bw Hok) as (bw1 & Hr1 & Hok1 & Hw1).
  destruct (Hk bw1 Hok1) as (bw2 & Hr2 & Hok2 & Hw2). exists bw2.
  rewrite (bind_Ok _ _ _ _ _ Hr1). split_and!; [done|done|].
  by rewrite Hw2, Hw1, (assoc_L (++)).
Qed.

Lemma writes_catch {A} (m : go (bitWriter W) A) a bits :
  writes m a bits → writes (catch m) (inl a) bits.
Proof.
  intros Hm bw Hok. destruct (Hm bw Hok) as (bw' & Hr & ?). exists bw'. unfold catch. by rewrite Hr.
Qed.

Lemma writeByteInternal_total c (bw : bitWriter W) :
  ∃ bw', writeByteInternal c bw = (Ok tt, bw').
Proof.
  unfold writeByteInternal. destruct io_WriteByte as [f|] eqn:Hf.
  - destruct (WriteByte_total f c (bw_writer bw) Hf) as [w' Hw].
    unfold mbind, go_bind, add_written, modS, on_writer, zoom. cbn. rewrite Hw. by eexists.
  - destruct (Write_total [c] (bw_writer bw)) as [w' Hw]; [done|].
    unfold mbind, go_bind, add_written, modS, on_writer, zoom. rewrite Hw. by eexists.
Qed.

Lemma writeSaved_total (bw : bitWriter W) :
  bw_wf bw → ∃ bw', writeSaved bw = (Ok tt, bw').
Proof.
  unfold bw_wf, writeSaved. intros Hwf.
  assert (bw_savedBits bw < 8 * Z.of_nat 33) as Hf by lia. revert Hf Hwf.
  generalize 32%nat as fuel. intros fuel. revert bw.
  induction fuel as [|fuel IH]; intros bw Hf Hwf; cbn [writeSaved_loop];
    rewrite bind_unfold; cbn [getS].
  - rewrite (proj2 (Z.leb_gt _ _)) by lia. by eexists.
  - destruct (Z.leb_spec 8 (bw_savedBits bw)); [|by eexists].
    destruct (writeByteInternal_total
      (u8 (Z.shiftr (bw_saved bw) (bw_savedBits bw - 8))) bw) as [bw1 Hr1].
    pose proof (writeByteInternal_saved _ _ _ _ Hr1) as Hb.
    rewrite bind_unfold, Hr1, bind_unfold. cbn [getS]. rewrite bind_unfold.
    cbn [set_saved modS]. apply IH; cbn; rewrite u8_small; lia.
Qed.

Lemma WriteBits_total v count (bw : bitWriter W) :
  0 ≤ count ≤ 64 → 0 ≤ v < 2 ^ count → bw_ok bw →
  ∃ bw', WriteBits v count bw = (Ok tt, bw') ∧ bw_ok bw'.
Proof.
  intros Hc Hv [Hok Hbytes]. pose proof (WriteBits_keeps v count bw Hbytes) as Hkeep. revert Hkeep.
  cut (∃ bw', WriteBits v count bw = (Ok tt, bw') ∧ 0 ≤ bw_savedBits bw' < 8).
  { intros (bw' & -> & ?) Hkeep. by exists bw'. }
  unfold WriteBits.
  destruct (WriteBits_fits v count Hc Hv) as [-> ->].
  rewrite bind_unfold. cbn [getS]. rewrite u8_small by lia.
  destruct (Z.ltb_spec (bw_savedBits bw + count) 8).
  { eexists. split; [done|]. cbn. lia. }
  rewrite bind_unfold, writeSaved_noop, bind_unfold by lia. cbn [getS]. cbv zeta.
  rewrite bind_unfold. match goal with |- context [writeByteInternal ?x bw] =>
    destruct (writeByteInternal_total x bw) as [bw1 Hr1] end.
  rewrite Hr1, bind_unfold. cbn [set_saved modS].
  unfold catch. rewrite bind_unfold. set (bw2 := BitWriter _ _ _ _).
  assert (bw_wf bw2) as Hwf2 by (unfold bw_wf, bw2; cbn; rewrite u8_small; lia).
  destruct (writeSaved_total bw2 Hwf2) as [bw3 Hr3].
  pose proof (writeSaved_spec bw2 Hwf2) as Hs3. rewrite Hr3 in *.
  destruct Hs3 as (_ & Hwf3 & Hlt). unfold bw_wf in Hwf3.
  exists bw3. split; [done|lia].
Qed.

Lemma WriteBits_writes v count :
  0 ≤ count ≤ 64 → 0 ≤ v < 2 ^ count → writes (WriteBits v count) tt (zbits count v).
Proof.
  intros Hc Hv bw Hok. destruct (WriteBits_total v count bw Hc Hv Hok) as (bw' & Hw & ?).
  destruct (WriteBits_spec v count bw) as [_ Ho]; [| |done|done|].
  - unfold bw_ok, bw_wf in *. lia.
  - left. apply Hok.
  - exists bw'. by rewrite Hw in *.
Qed.

Lemma WriteBit_writes bit : 0 ≤ bit < 2 → writes (WriteBit bit) tt (zbits 1 bit).
Proof. intros. by apply WriteBits_writes. Qed.

Lemma WriteByte_writes c : is_byte c → writes (WriteByte c) tt (zbits 8 c).
Proof. intros. by apply WriteBits_writes. Qed.

Lemma Write_loop_writes p i :
  Forall is_byte p → writes (Write_loop p i) (i + zlen p, None) (bits_of_bytes p).
Proof.
  intros Hp. revert i. induction Hp as [|c p Hc _ IH]; intros i; cbn [Write_loop].
  - rewrite zlen_nil, Z.add_0_r. apply writes_ret.
  - rewrite bits_of_bytes_cons. eapply writes_bind.
    + intros bw Hok. destruct (WriteByte_writes c Hc bw Hok) as (bw' & Hw & ?).
      exists bw'. unfold catch. by rewrite Hw.
    + cbn. rewrite zlen_cons, Z.add_assoc. apply IH.
Qed.

Lemma Write_writes p :
  p ≠ [] → Forall is_byte p → writes (Write p) (zlen p, None) (bits_of_bytes p).
Proof.
  intros Hne Hp bw Hok. unfold Write. rewrite bind_unfold. cbn [getS].
  destruct (Z.eqb_spec (bw_savedBits bw) 0) as [H0'|].
  - destruct (Write_total p (bw_writer bw) Hne) as [w' Hw].
    pose proof (Write_spec p (bw_writer bw) Hne) as Hs. rewrite Hw in Hs.
    destruct Hs as (_ & Ha & _). rewrite ztake_all in Ha by lia.
    unfold mbind, go_bind, on_writer, zoom. rewrite Hw. eexists.
    destruct Hok as [Hok Hb]. split_and!; [done| |].
    + split; [done|]. unfold bytes_ok in *. cbn. rewrite Ha. by apply Forall_app.
    + unfold wbits. cbn. by rewrite H0', Ha, bits_of_bytes_app, !app_nil_r.
  - by apply Write_loop_writes.
Qed.

(** [io.Copy(bw, r)] for an in-memory [r] holding [p]. *)
Lemma CopyBytes_writes p :
  Forall is_byte p → writes (CopyBytes Write p) (zlen p, None) (bits_of_bytes p).
Proof.
  intros Hp. unfold CopyBytes. destruct p as [|b p]; [apply writes_ret|].
  rewrite <- (app_nil_r (bits_of_bytes _)). eapply writes_bind; [by apply Write_writes|].
  cbn beta iota. rewrite Z.eqb_refl. apply writes_ret.
Qed.

Lemma Pad_writes pad (bw : bitWriter W) : bw_ok bw → is_byte pad →
  let n := (8 - bw_savedBits bw) mod 8 in
  ∃ bw', Pad pad bw = (Ok tt, bw') ∧ bw_savedBits bw' = 0 ∧ bytes_ok bw' ∧
         wbits bw' = wbits bw ++ zbits n (Z.shiftr pad (8 - n)).
Proof.
  intros [Hok Hbytes] Hpad n. destruct (Pad_spec pad bw Hok Hpad) as [[_ Ho] Hsb].
  pose proof (Pad_keeps pad bw Hbytes) as Hkeep.
  fold n in Ho. assert (∃ bw', Pad pad bw = (Ok tt, bw')) as [bw' Hw].
  2: { exists bw'. by rewrite Hw in *. }
  unfold Pad in *. rewrite bind_unfold. cbn [getS].
  destruct (Z.ltb_spec 0 (bw_savedBits bw)); [|by eexists].
  rewrite bind_unfold, writeSaved_noop, bind_unfold by lia. cbn [getS].
  rewrite u8_small by lia.
  destruct (WriteBits_writes (Z.shiftr pad (bw_savedBits bw)) (8 - bw_savedBits bw))
    with bw as (bw1 & Hw & _); [lia|apply shiftr_byte_bound; [lia|done]|done|].
  rewrite bind_unfold, Hw. by eexists.
Qed.

(** A whole number of bytes is all with the writer below. *)
Lemma whole_accepted (bw : bitWriter W) w l k : bw_ok bw → Forall is_byte (accepted w) →
  wbits bw = bits_of_bytes (accepted w) ++ l → zlen l = 8 * k →
  ∃ block, accepted (bw_writer bw) = accepted w ++ block ∧ Forall is_byte block ∧
           bits_of_bytes block = l.
Proof.
  intros [Hsb Hbytes] Hacc Hbits Hk. destruct (bytes_of_bits_whole _ _ Hk) as [Hblock Hbb].
  exists (bytes_of_bits l). split_and!; [|done|done].
  assert (bw_savedBits bw = 0) as H0'.
  { unfold wbits in Hbits. apply (f_equal zlen) in Hbits. zlen_simpl. lia. }
  unfold wbits in Hbits. rewrite H0', zbits_0, app_nil_r, <- Hblock, <- bits_of_bytes_app in Hbits.
  apply bits_of_bytes_inj in Hbits; [done|done|by apply Forall_app].
Qed.
End total.
