(* ===== verification/BitReader.v ===== *)
(** * The bit reader (io/bitio.go)

    [bitReader] over any [io.Reader], and its refinement of a bit stream:
    [rbits] is what is left to read, the saved bits followed by the content of
    the underlying reader. *)

From S2P Require Import Prelude Bits GoIo.

Record bitReader (R : Type) := BitReader {
  br_reader : R;
  br_saved : Z;        (* uint64; junk above [br_savedBits] *)
  br_savedBits : Z;    (* byte *)
}.
Arguments BitReader {R}.
Arguments br_reader {R}.
Arguments br_saved {R}.
Arguments br_savedBits {R}.

Definition NewBitReader {R} (reader : R) : bitReader R := BitReader reader 0 0.

Section bitreader.
Context {R : Type} `{IoReader R}.

Definition on_reader {A} (m : go R A) : go (bitReader R) A :=
  zoom br_reader (λ r br, BitReader r (br_saved br) (br_savedBits br)) m.

Definition set_rsaved (saved savedBits : Z) : go (bitReader R) unit :=
  modS (λ br, BitReader (br_reader br) saved savedBits).

Definition readByteInternal : go (bitReader R) Z :=
  match io_ReadByte with
  | Some byteReader => on_reader byteReader
  | None =>
      '(buf, err) ← on_reader (io_Read 1);
      match err with
      | Some e => fail e
      | None => match buf with [b] => mret b | _ => fail ErrNoProgress end
      end
  end.

Definition readNext : go (bitReader R) unit :=
  b ← readByteInternal;
  br ← getS;
  set_rsaved (Z.lor (u64 (Z.shiftl (br_saved br) 8)) b) (u8 (br_savedBits br + 8)).

Definition ReadBit : go (bitReader R) Z :=
  br ← getS;
  (if 0 <? br_savedBits br then mret tt else readNext);;
  br ← getS;
  set_rsaved (br_saved br) (u8 (br_savedBits br - 1));;
  mret (Z.land (u8 (Z.shiftr (br_saved br) (u8 (br_savedBits br - 1)))) 1).

(** The loop of [ReadBits]: whole bytes while there is room for them. Eight
    rounds fill the 64 saved bits. *)
Fixpoint fill (fuel : nat) (count : Z) : go (bitReader R) unit :=
  br ← getS;
  if u8 (br_savedBits br + 8) <=? count then
    match fuel with
    | O => nofuel
    | S fuel' => readNext;; fill fuel' count
    end
  else mret tt.

(** The end of [ReadBits] when the saved bits are enough. *)
Definition takeSaved (count : Z) : go (bitReader R) Z :=
  br ← getS;
  let savedBits := u8 (br_savedBits br - count) in
  set_rsaved (br_saved br) savedBits;;
  mret (Z.land (Z.shiftr (br_saved br) savedBits)
               (Z.shiftr (2 ^ 64 - 1) (u8 (64 - count)))).

(** The end of [ReadBits] when one more byte is needed. *)
Definition takeAcross (count : Z) : go (bitReader R) Z :=
  br ← getS;
  let result := Z.land (br_saved br)
                  (Z.shiftr (2 ^ 64 - 1) (u8 (64 - br_savedBits br))) in
  let remainder := u8 (count - br_savedBits br) in
  b ← readByteInternal;
  set_rsaved b (u8 (8 - remainder));;
  mret (Z.lor (u64 (Z.shiftl result remainder)) (Z.shiftr b (u8 (8 - remainder)))).

Definition ReadBits (count : Z) : go (bitReader R) Z :=
  if 64 <? count then fail ErrBytesTooLarge else
  fill 8 count;;
  br ← getS;
  if count <=? br_savedBits br then takeSaved count else takeAcross count.

Definition ReadByte : go (bitReader R) Z :=
  br ← getS;
  if br_savedBits br =? 0 then readByteInternal
  else b ← ReadBits 8; mret (u8 b).

(** The loop of [Read] over the rest of [p], with the bytes read so far. *)
Fixpoint Read_loop (left : nat) (acc : list Z) : go (bitReader R) (list Z * option goerr) :=
  match left with
  | O => mret (acc, None)
  | S left' =>
      r ← catch ReadByte;
      match r with
      | inl b => Read_loop left' (acc ++ [b])
      | inr err => mret (acc, Some err)
      end
  end.

Definition Read (n : Z) : go (bitReader R) (list Z * option goerr) :=
  br ← getS;
  if br_savedBits br =? 0 then on_reader (io_Read n)
  else Read_loop (Z.to_nat n) [].

#[export] Instance bitReader_reader : IoReader (bitReader R) := {
  io_Read := Read;
  io_ReadByte := Some ReadByte;
}.
End bitreader.

(** ** Masks and joins *)

Lemma land_mask x n : 0 ≤ n ≤ 64 →
  Z.land x (Z.shiftr (2 ^ 64 - 1) (64 - n)) = x mod 2 ^ n.
Proof.
  intros. rewrite <- Z.land_ones by lia. f_equal.
  apply Z.bits_inj'. intros i Hi. rewrite testbit_mask by lia.
  destruct (Z.ltb_spec i n); [rewrite Z.ones_spec_low|rewrite Z.ones_spec_high]; done || lia.
Qed.

Lemma lor_shiftl_add r n y : 0 ≤ n → 0 ≤ y < 2 ^ n →
  Z.lor (Z.shiftl r n) y = r * 2 ^ n + y.
Proof.
  intros Hn Hy. rewrite <- Z.shiftl_mul_pow2 by done.
  rewrite <- Z.add_lor_land. replace (Z.land _ _) with 0; [lia|].
  symmetry. apply Z.bits_inj'. intros i Hi.
  rewrite Z.land_spec, Z.bits_0, Z.shiftl_spec by done.
  destruct (Z.lt_ge_cases i n).
  - by rewrite Z.testbit_neg_r by lia.
  - by rewrite (testbit_above y n), andb_false_r.
Qed.

(** ** The abstract state: a shrinking bit string *)

Section refinement.
Context {R : Type} `{IoReaderSpec R}.

Definition rbits (br : bitReader R) : list bool :=
  zbits (br_savedBits br) (br_saved br) ++ bits_of_bytes (content (br_reader br)).

Definition br_wf (br : bitReader R) : Prop :=
  rd_wf (br_reader br) ∧ 0 ≤ br_savedBits br ≤ 64.

Lemma zlen_rbits br : br_wf br →
  zlen (rbits br) = br_savedBits br + 8 * zlen (content (br_reader br)).
Proof. intros [_ ?]. unfold rbits. by zlen_simpl. Qed.

Lemma readByteInternal_spec (br : bitReader R) : br_wf br →
  ∃ r', rd_wf r' ∧
    match content (br_reader br) with
    | [] => readByteInternal br = (Err EOF, BitReader r' (br_saved br) (br_savedBits br)) ∧
            content r' = []
    | b :: bs => readByteInternal br = (Ok b, BitReader r' (br_saved br) (br_savedBits br)) ∧
            content r' = bs ∧ is_byte b
    end.
Proof.
  intros [Hwf _]. pose proof (content_bytes _ Hwf) as Hbytes.
  unfold readByteInternal, on_reader, zoom. destruct io_ReadByte as [f|] eqn:Hf.
  - destruct (ReadByte_spec f _ Hf Hwf) as (r' & Hwf' & _ & Hr). exists r'.
    destruct (content (br_reader br)) as [|b bs]; destruct Hr as [-> ?]; [done|].
    by inversion Hbytes.
  - destruct (Read_spec 1 _ Hwf) as (bs & e & r' & Hr & Hwf' & Hc & _ & Hlen & He); [done|].
    exists r'. split; [done|]. rewrite bind_unfold, Hr, Hc in *. clear Hc.
    destruct bs as [|b [|b' bs]].
    + destruct He as [[_ ?]|(-> & -> & _)]; [done|]. by cbn.
    + destruct He as [[-> _]|(_ & _ & ?)]; [|done]. cbn. by inversion Hbytes.
    + rewrite !zlen_cons in Hlen. pose proof (zlen_nonneg bs). lia.
Qed.

(** Reading a byte into the saved bits changes nothing, unless the end of the
    stream is reached. *)
Lemma readNext_spec (br : bitReader R) : br_wf br → br_savedBits br ≤ 56 →
  ∃ o br', readNext br = (o, br') ∧ br_wf br' ∧ rbits br' = rbits br ∧
    match content (br_reader br) with
    | [] => o = Err EOF
    | _ => o = Ok tt ∧ br_savedBits br' = br_savedBits br + 8
    end.
Proof.
  intros Hwf Hsb. destruct (readByteInternal_spec br Hwf) as (r' & Hwf' & Hr).
  destruct Hwf as [_ ?]. unfold readNext. rewrite bind_unfold. unfold rbits.
  destruct (content (br_reader br)) as [|b bs].
  - destruct Hr as [-> Hc]. eexists _, _. split_and!; [done|split; cbn; [done|lia]| |done].
    cbn. by rewrite Hc.
  - destruct Hr as (-> & Hc & Hb). cbn [getS set_rsaved modS].
    rewrite bind_unfold. cbn. rewrite u8_small by lia.
    eexists _, _. split_and!; [done|split; cbn; [done|lia]| |done|done].
    cbn. rewrite Hc, bits_of_bytes_cons, (assoc_L (++)). f_equal.
    rewrite zbits_app by lia. f_equal; apply zbits_ext; intros i Hi.
    + bitwise. rewrite (testbit_above b 8), orb_false_r by (unfold is_byte in Hb; lia).
      f_equal. lia.
    + by bitwise.
Qed.

Lemma fill_spec fuel count (br : bitReader R) :
  br_wf br → count ≤ 64 → count < br_savedBits br + 8 * Z.of_nat (S fuel) →
  ∃ o br', fill fuel count br = (o, br') ∧ br_wf br' ∧ rbits br' = rbits br ∧
    (o = Ok tt ∧ count < br_savedBits br' + 8 ∨
     o = Err EOF ∧ zlen (rbits br) < count).
Proof.
  revert br. induction fuel as [|fuel IH]; intros br Hwf Hc Hf; cbn [fill];
    rewrite bind_unfold; cbn [getS]; pose proof Hwf as [_ Hsb]; rewrite u8_small by lia.
  - rewrite (proj2 (Z.leb_gt _ _)) by lia. eexists _, _. split_and!; [done..|left].
    split; [done|lia].
  - destruct (Z.leb_spec (br_savedBits br + 8) count).
    2: { eexists _, _. split_and!; [done..|left]. split; [done|lia]. }
    destruct (readNext_spec br Hwf) as (o & br1 & Hn & Hwf1 & Hb1 & Ho); [lia|].
    rewrite bind_unfold, Hn. pose proof (zlen_rbits br Hwf) as Hlen.
    destruct (content (br_reader br)) as [|b bs].
    + subst o. eexists _, _. split_and!; [done..|right]. split; [done|].
      rewrite (zlen_nil (A:=Z)) in Hlen. lia.
    + destruct Ho as [-> Hsb1]. destruct (IH br1 Hwf1 Hc) as (o & br2 & ? & ? & Hb2 & Ho); [lia|].
      exists o, br2. rewrite Hb1 in *. by rewrite Hb2.
Qed.

Lemma takeSaved_spec count (br : bitReader R) :
  br_wf br → 0 ≤ count ≤ br_savedBits br →
  ∃ br', takeSaved count br = (Ok (val_of (ztake count (rbits br))), br') ∧
         br_wf br' ∧ rbits br' = zdrop count (rbits br).
Proof.
  intros [Hwf Hsb] Hc. unfold takeSaved. rewrite bind_unfold. cbn [getS].
  rewrite !u8_small by lia. set (n := br_savedBits br - count).
  assert (rbits br = zbits count (Z.shiftr (br_saved br) n) ++
            zbits n (br_saved br) ++ bits_of_bytes (content (br_reader br))) as ->.
  { unfold rbits. replace (br_savedBits br) with (count + n) by lia.
    by rewrite zbits_app, <- (assoc_L (++)) by lia. }
  rewrite ztake_app, zdrop_app by (zlen_simpl; lia).
  rewrite bind_unfold. cbn [set_rsaved modS]. rewrite land_mask, ret_unfold by lia.
  rewrite <- val_of_zbits by lia.
  eexists. split_and!; [done|split; [done|cbn; lia]|done].
Qed.

Lemma takeAcross_value saved b sb rem :
  0 ≤ sb → 0 ≤ rem ≤ 8 → sb + rem ≤ 64 → is_byte b →
  Z.lor (u64 (Z.shiftl (saved mod 2 ^ sb) rem)) (Z.shiftr b (8 - rem)) =
  val_of (zbits sb saved ++ zbits rem (Z.shiftr b (8 - rem))).
Proof.
  intros Hsb Hrem Hle Hb. rewrite val_of_app, !val_of_zbits, zlen_zbits by lia.
  assert (0 ≤ saved mod 2 ^ sb < 2 ^ sb) as Hs by (apply Z.mod_pos_bound; lia).
  destruct (shiftr_byte_bound b (8 - rem)) as [Hlo Hhi]; [lia|done|].
  replace (8 - (8 - rem)) with rem in Hhi by lia.
  rewrite (Z.mod_small (Z.shiftr b _)) by lia. rewrite <- lor_shiftl_add by lia.
  rewrite u64_small; [done|]. rewrite Z.shiftl_mul_pow2 by lia.
  pose proof (Z.pow_le_mono_r 2 (sb + rem) 64). rewrite Z.pow_add_r in * by lia. nia.
Qed.

Lemma takeAcross_spec count (br : bitReader R) :
  br_wf br → br_savedBits br < count ≤ 64 → count < br_savedBits br + 8 →
  ∃ br', br_wf br' ∧
    if count <=? zlen (rbits br) then
      takeAcross count br = (Ok (val_of (ztake count (rbits br))), br') ∧
      rbits br' = zdrop count (rbits br)
    else takeAcross count br = (Err EOF, br') ∧ rbits br' = rbits br.
Proof.
  intros Hwf Hc Hlt. pose proof (zlen_rbits br Hwf) as Hlen.
  destruct (readByteInternal_spec br Hwf) as (r' & Hwf' & Hr). destruct Hwf as [_ Hsb].
  unfold takeAcross. rewrite bind_unfold. cbn [getS]. rewrite !u8_small by lia.
  rewrite bind_unfold. unfold rbits in *. destruct (content (br_reader br)) as [|b bs].
  - destruct Hr as [-> Hc']. rewrite (zlen_nil (A:=Z)) in Hlen.
    rewrite (proj2 (Z.leb_gt _ _)) by lia. eexists.
    split; [|split; [done|]]; [split; [done|cbn; lia]|]. cbn. by rewrite Hc'.
  - destruct Hr as (-> & Hc' & Hb). rewrite zlen_cons in Hlen. pose proof (zlen_nonneg bs).
    rewrite (proj2 (Z.leb_le _ _)) by lia. set (rem := count - br_savedBits br) in *.
    assert (zbits (br_savedBits br) (br_saved br) ++ bits_of_bytes (b :: bs) =
      (zbits (br_savedBits br) (br_saved br) ++ zbits rem (Z.shiftr b (8 - rem))) ++
      zbits (8 - rem) b ++ bits_of_bytes bs) as ->.
    { rewrite bits_of_bytes_cons. replace 8 with (rem + (8 - rem)) at 1 by lia.
      rewrite zbits_app by lia. by rewrite <- !(assoc_L (++)). }
    rewrite ztake_app, zdrop_app by (zlen_simpl; lia).
    rewrite bind_unfold. cbn [set_rsaved modS].
    rewrite land_mask, ret_unfold, takeAcross_value by (done || lia).
    eexists. split; [|split; [done|]]; [split; [done|cbn; lia]|]. cbn. by rewrite Hc'.
Qed.

(** [ReadBits] takes the next [count] bits as a number; if there are fewer it
    returns [io.EOF] and no bit is lost. *)
Lemma ReadBits_spec count (br : bitReader R) : br_wf br → 0 ≤ count ≤ 64 →
  ∃ br', br_wf br' ∧
    if count <=? zlen (rbits br) then
      ReadBits count br = (Ok (val_of (ztake count (rbits br))), br') ∧
      rbits br' = zdrop count (rbits br)
    else ReadBits count br = (Err EOF, br') ∧ rbits br' = rbits br.
Proof.
  intros Hwf Hc. unfold ReadBits. rewrite (proj2 (Z.ltb_ge 64 count)) by lia.
  destruct (fill_spec 8 count br Hwf) as (o & br1 & Hfill & Hwf1 & <- & Ho);
    [lia|destruct Hwf; lia|].
  rewrite bind_unfold, Hfill. destruct Ho as [[-> Hlt]|[-> Hlt]].
  2: { exists br1. rewrite (proj2 (Z.leb_gt _ _)) by lia. done. }
  rewrite bind_unfold. cbn [getS].
  destruct (Z.leb_spec count (br_savedBits br1)).
  - destruct (takeSaved_spec count br1) as (br2 & ? & ? & ?); [done|lia|].
    pose proof (zlen_rbits br1 Hwf1) as Hlen.
    pose proof (zlen_nonneg (content (br_reader br1))).
    exists br2. rewrite (proj2 (Z.leb_le count (zlen _))) by lia. done.
  - apply takeAcross_spec; [done|lia..].
Qed.

(** Outcomes of a reading method in terms of the stream. *)
Definition at_eof {A} (m : go (bitReader R) A) (br : bitReader R) : Prop :=
  ∃ br', m br = (Err EOF, br') ∧ br_wf br' ∧ rbits br' = rbits br.

(** [reads m a bits]: on a stream that starts with [bits], [m] returns [a] and
    leaves the rest. *)
Definition reads {A} (m : go (bitReader R) A) (a : A) (bits : list bool) : Prop :=
  ∀ br l, br_wf br → rbits br = bits ++ l →
  ∃ br', m br = (Ok a, br') ∧ br_wf br' ∧ rbits br' = l.

(** On a stream of exactly [bits], [m] returns [a] and leaves nothing. *)
Definition drains {A} (m : go (bitReader R) A) (a : A) (bits : list bool) : Prop :=
  ∀ br, br_wf br → rbits br = bits → ∃ br', m br = (Ok a, br') ∧ br_wf br' ∧ rbits br' = [].

Lemma reads_drains {A} (m : go (bitReader R) A) a bits : reads m a bits → drains m a bits.
Proof. intros Hm br Hwf Hl. apply Hm; [done|]. by rewrite app_nil_r. Qed.

(** On a stream that ends within [bits], [m] reports the end. *)
Definition cut {A} (m : go (bitReader R) A) (bits : list bool) : Prop :=
  ∀ br l1 l2, br_wf br → rbits br = l1 → bits = l1 ++ l2 → l2 ≠ [] →
  ∃ br', m br = (Err EOF, br') ∧ br_wf br'.

Lemma reads_ret {A} (a : A) : reads (mret a) a [].
Proof. intros br l ??. by exists br. Qed.

Lemma reads_bind {A B} (m : go (bitReader R) A) (k : A → go (bitReader R) B) a b l1 l2 :
  reads m a l1 → reads (k a) b l2 → reads (m ≫= k) b (l1 ++ l2).
Proof.
  intros Hm Hk br l Hwf Hl. rewrite <- (assoc_L (++)) in Hl.
  destruct (Hm br _ Hwf Hl) as (br1 & Hr & Hwf1 & Hl1).
  destruct (Hk br1 _ Hwf1 Hl1) as (br2 & ? & ? & ?).
  exists br2. by rewrite (bind_Ok _ _ _ _ _ Hr).
Qed.

Lemma ReadBits_reads n v : 0 ≤ n ≤ 64 → 0 ≤ v < 2 ^ n → reads (ReadBits n) v (zbits n v).
Proof.
  intros Hn Hv br l Hwf Hl. destruct (ReadBits_spec n br Hwf Hn) as (br' & Hwf' & Hr).
  rewrite Hl in Hr. zlen_simpl. pose proof (zlen_nonneg l).
  rewrite (proj2 (Z.leb_le _ _)), ztake_app, zdrop_app, val_of_zbits_small in Hr
    by (zlen_simpl; lia).
  destruct Hr. by exists br'.
Qed.

Lemma cut_nil {A} (m : go (bitReader R) A) : cut m [].
Proof. intros br l1 l2 _ _ Hl Hne. by destruct l1, l2. Qed.

Lemma cut_bind {A B} (m : go (bitReader R) A) (k : A → go (bitReader R) B) a l1 l2 :
  reads m a l1 → cut m l1 → cut (k a) l2 → cut (m ≫= k) (l1 ++ l2).
Proof.
  intros Hm Hc Hk br w1 w2 Hwf Hl Heq Hne.
  apply app_eq_app in Heq as (v & [[-> ->]|[-> ->]]).
  - destruct v as [|b v].
    + destruct (Hm br [] Hwf) as (br1 & Hr1 & Hwf1 & Hl1); [by rewrite Hl, !app_nil_r|].
      destruct (Hk br1 [] l2 Hwf1 Hl1) as (br2 & Hr2 & ?); [done|done|].
      exists br2. by rewrite (bind_Ok _ _ _ _ _ Hr1).
    + destruct (Hc br w1 (b :: v) Hwf Hl) as (br1 & Hr1 & ?); [done|done|].
      exists br1. by rewrite (bind_Err _ _ _ _ _ Hr1).
  - destruct (Hm br v Hwf Hl) as (br1 & Hr1 & Hwf1 & Hl1).
    destruct (Hk br1 v w2 Hwf1 Hl1) as (br2 & Hr2 & ?); [done|done|].
    exists br2. by rewrite (bind_Ok _ _ _ _ _ Hr1).
Qed.

Lemma ReadBits_eof n br : br_wf br → 0 ≤ n ≤ 64 → zlen (rbits br) < n → at_eof (ReadBits n) br.
Proof.
  intros Hwf Hn Hl. destruct (ReadBits_spec n br Hwf Hn) as (br' & ? & Hr).
  rewrite (proj2 (Z.leb_gt _ _)) in Hr by done. destruct Hr. by exists br'.
Qed.

(** The saved bit that [ReadBit] takes off. *)
Lemma ReadBit_saved (br : bitReader R) : br_wf br → 0 < br_savedBits br →
  let n := br_savedBits br - 1 in
  rbits br = Z.testbit (br_saved br) n ::
             rbits (BitReader (br_reader br) (br_saved br) n) ∧
  Z.land (u8 (Z.shiftr (br_saved br) n)) 1 = Z.b2z (Z.testbit (br_saved br) n).
Proof.
  intros [_ Hsb] Hpos n. split.
  - unfold rbits. cbn. replace (br_savedBits br) with (1 + n) by lia.
    by rewrite zbits_app, zbits_1, Z.shiftr_spec by lia.
  - change 1 with (Z.ones 1) at 1. rewrite Z.land_ones by done.
    change (2 ^ 1) with 2. rewrite <- Z.bit0_mod. f_equal.
    rewrite testbit_u8, Z.shiftr_spec by done. done.
Qed.

Lemma ReadBit_spec (br : bitReader R) : br_wf br →
  ∃ br', br_wf br' ∧
    match rbits br with
    | [] => ReadBit br = (Err EOF, br') ∧ rbits br' = []
    | b :: l => ReadBit br = (Ok (Z.b2z b), br') ∧ rbits br' = l
    end.
Proof.
  intros Hwf. unfold ReadBit. rewrite bind_unfold. cbn [getS].
  assert (∃ o br1, (if 0 <? br_savedBits br then mret tt else readNext) br = (o, br1) ∧
            br_wf br1 ∧ rbits br1 = rbits br ∧
            (o = Err EOF ∧ rbits br = [] ∨ o = Ok tt ∧ 0 < br_savedBits br1))
    as (o & br1 & Hrun & Hwf1 & <- & Ho).
  { destruct (Z.ltb_spec 0 (br_savedBits br)) as [|Hsb0].
    - exists (Ok tt), br. split_and!; [done..|]. by right.
    - destruct Hwf as [Hwf Hsb].
      destruct (readNext_spec br (conj Hwf Hsb)) as (o & br1 & ? & ? & ? & Ho); [lia|].
      exists o, br1. split_and!; [done..|]. unfold rbits at 1.
      destruct (content (br_reader br)); [left|right; destruct Ho; split; [done|lia]].
      split; [done|]. by replace (br_savedBits br) with 0 by lia. }
  rewrite bind_unfold, Hrun. destruct Ho as [[-> Hnil]|[-> Hpos]].
  - exists br1. by rewrite Hnil.
  - destruct (ReadBit_saved br1 Hwf1 Hpos) as [-> Hv]. destruct Hwf1 as [Hwf1 Hsb].
    rewrite bind_unfold. cbn [getS]. rewrite (u8_small (_ - 1)) by lia.
    rewrite bind_unfold. cbn [set_rsaved modS]. rewrite Hv, ret_unfold.
    exists (BitReader (br_reader br1) (br_saved br1) (br_savedBits br1 - 1)).
    by split; [split; [done|cbn; lia]|].
Qed.

Lemma ReadBit_reads b : reads ReadBit (Z.b2z b) [b].
Proof.
  intros br l Hwf Hl. destruct (ReadBit_spec br Hwf) as (br' & Hwf' & Hr).
  rewrite Hl in Hr. destruct Hr. by exists br'.
Qed.

(** [ReadByte] takes eight bits, or fails at the end of the stream. *)
Lemma ReadByte_spec' (br : bitReader R) : br_wf br →
  ∃ br', br_wf br' ∧
    match bytes_of_bits (rbits br) with
    | [] => ReadByte br = (Err EOF, br') ∧ rbits br' = rbits br
    | b :: _ => ReadByte br = (Ok b, br') ∧ rbits br = zbits 8 b ++ rbits br' ∧ is_byte b
    end.
Proof.
  intros Hwf. unfold ReadByte. rewrite bind_unfold. cbn [getS].
  destruct (Z.eqb_spec (br_savedBits br) 0) as [Hsb0|].
  - destruct (readByteInternal_spec br Hwf) as (r' & Hwf' & Hr). destruct Hwf as [Hwf Hsb].
    eexists (BitReader r' (br_saved br) (br_savedBits br)). split; [done|].
    unfold rbits. cbn. rewrite Hsb0, zbits_0. cbn.
    rewrite bytes_of_bits_of_bytes_nil by by apply content_bytes.
    rewrite Hsb0 in Hr.
    destruct (content (br_reader br)); [by destruct Hr as [-> ->]|].
    by destruct Hr as (-> & -> & ?).
  - destruct (ReadBits_spec 8 br Hwf) as (br' & Hwf' & Hr); [lia|].
    exists br'. split; [done|]. rewrite bind_unfold.
    destruct (Z.leb_spec 8 (zlen (rbits br))) as [H8|Hshort].
    + destruct (split_byte _ H8) as (b & l & Hl & Hb). rewrite Hl in *.
      rewrite ztake_app, zdrop_app, val_of_zbits_small in Hr by (by rewrite ?zlen_zbits).
      rewrite bytes_of_bits_byte by done. destruct Hr as [-> Hr]. rewrite ret_unfold.
      by rewrite u8_small, Hr.
    + destruct Hr as [-> Hr]. by rewrite bytes_of_bits_short.
Qed.

Lemma ReadByte_reads b : is_byte b → reads ReadByte b (zbits 8 b).
Proof.
  intros Hb br l Hwf Hl. destruct (ReadByte_spec' br Hwf) as (br' & Hwf' & Hr).
  rewrite Hl, bytes_of_bits_byte in Hr by done. destruct Hr as (? & Hr & _).
  exists br'. by apply app_inv_head in Hr.
Qed.

Lemma ReadBits_cut n v : 0 ≤ n ≤ 64 → cut (ReadBits n) (zbits n v).
Proof.
  intros Hn br l1 l2 Hwf Hl Heq Hne. apply (f_equal zlen) in Heq. zlen_simpl.
  destruct l2 as [|b l2]; [done|]. zlen_simpl. pose proof (zlen_nonneg l2).
  destruct (ReadBits_eof n br Hwf Hn) as (br' & ? & ? & _); [rewrite Hl; lia|]. by exists br'.
Qed.

Lemma ReadByte_cut b : cut ReadByte (zbits 8 b).
Proof.
  intros br l1 l2 Hwf Hl Heq Hne. apply (f_equal zlen) in Heq. zlen_simpl.
  destruct l2 as [|c l2]; [done|]. zlen_simpl. pose proof (zlen_nonneg l2).
  destruct (ReadByte_spec' br Hwf) as (br' & Hwf' & Hr). exists br'.
  destruct (bytes_of_bits (rbits br)) as [|b0 bs0] eqn:Hbytes; [by destruct Hr|].
  destruct Hr as (_ & Hr & _). rewrite Hl in Hr. apply (f_equal zlen) in Hr. zlen_simpl.
  pose proof (zlen_nonneg (rbits br')). lia.
Qed.

Lemma Read_loop_spec left acc (br : bitReader R) : br_wf br →
  ∃ bs e br', Read_loop left acc br = (Ok (acc ++ bs, e), br') ∧ br_wf br' ∧
    rbits br = bits_of_bytes bs ++ rbits br' ∧ Forall is_byte bs ∧
    (e = None ∧ length bs = left ∨
     e = Some EOF ∧ bytes_of_bits (rbits br') = [] ∧ (length bs < left)%nat).
Proof.
  revert acc br. induction left as [|left IH]; intros acc br Hwf; cbn [Read_loop].
  - exists [], None, br. rewrite app_nil_r. split_and!; [done..|by left].
  - unfold catch. rewrite bind_unfold.
    destruct (ReadByte_spec' br Hwf) as (br1 & Hwf1 & Hr).
    destruct (bytes_of_bits (rbits br)) as [|b l] eqn:Hbb.
    + destruct Hr as [-> Hr]. exists [], (Some EOF), br1.
      rewrite ret_unfold, app_nil_r, Hr. split_and!; [done..|]. right. split_and!; [done..|].
      simpl. lia.
    + destruct Hr as (-> & -> & Hb).
      destruct (IH (acc ++ [b]) br1 Hwf1) as (bs & e & br2 & -> & ? & -> & ? & He).
      exists (b :: bs), e, br2. rewrite <- !(assoc_L (++)). split_and!; [done..| |].
      * by constructor.
      * simpl. destruct He as [[? ?]|(? & ? & ?)]; [left|right]; split_and!; (done || lia).
Qed.

(** [runs m]: whatever is left on the stream, [m] ends within its fuel, and what
    it leaves is the end of what it was given. Nothing it calls waits. *)
Definition runs {A} (m : go (bitReader R) A) : Prop :=
  ∀ br, br_wf br → ∃ o br', m br = (o, br') ∧ br_wf br' ∧ returns o ∧
  ∃ bits, rbits br = bits ++ rbits br'.

Lemma runs_out {A} (m : go (bitReader R) A) o : returns o → (∀ s, m s = (o, s)) → runs m.
Proof. intros Ho Hm br Hwf. exists o, br. rewrite Hm. split_and!; [done..|by exists []]. Qed.

Lemma runs_ret {A} (a : A) : runs (mret a).
Proof. by apply (runs_out _ (Ok a)). Qed.
Lemma runs_fail {A} e : e ≠ ErrWouldBlock → runs (fail e : go (bitReader R) A).
Proof. intros He. apply (runs_out _ (Err e)); [by apply returns_Err|done]. Qed.
Lemma runs_panic {A} : runs (panic : go (bitReader R) A).
Proof. by apply (runs_out _ (Panic)). Qed.

(** The same when what [m] returns is as [Q] says. *)
Lemma runs_bind_with {A B} (Q : A → Prop) (m : go (bitReader R) A) (k : A → go (bitReader R) B) :
  runs m → (∀ br a br', br_wf br → m br = (Ok a, br') → Q a) → (∀ a, Q a → runs (k a)) → runs (m ≫= k).
Proof.
  intros Hm HQ Hk br Hwf. destruct (Hm br Hwf) as (o & br1 & Hr & Hwf1 & Ho & l1 & Hl1).
  rewrite bind_unfold, Hr. destruct o as [a|e| |];
    [|eexists _, br1; split_and!; [done|done|exact Ho|by exists l1]..].
  destruct (Hk a (HQ br a br1 Hwf Hr) br1 Hwf1) as (o & br2 & Hr2 & Hwf2 & Ho2 & l2 & Hl2).
  exists o, br2. split_and!; [done..|]. exists (l1 ++ l2).
  by rewrite Hl1, Hl2, (assoc_L (++)).
Qed.

Lemma runs_bind {A B} (m : go (bitReader R) A) (k : A → go (bitReader R) B) :
  runs m → (∀ a, runs (k a)) → runs (m ≫= k).
Proof. intros Hm Hk. by apply (runs_bind_with (λ _, True)). Qed.

Lemma runs_catch {A} (m : go (bitReader R) A) : runs m → runs (catch m).
Proof.
  intros Hm br Hwf. destruct (Hm br Hwf) as (o & br1 & Hr & Hwf1 & Ho & Hl).
  unfold catch. rewrite Hr. destruct o; [by eexists _, br1..|done].
Qed.

Lemma ReadBit_runs : runs ReadBit.
Proof.
  intros br Hwf. destruct (ReadBit_spec br Hwf) as (br' & Hwf' & Hr).
  destruct (rbits br) as [|b l]; destruct Hr as [-> Hr]; eexists _, br'; split_and!; try done.
  - exists []. by rewrite Hr.
  - exists [b]. by rewrite Hr.
Qed.

(** [fetches m]: [m] also returns a result or the end of the stream, nothing else. *)
Definition fetches {A} (m : go (bitReader R) A) : Prop :=
  ∀ br, br_wf br → ∃ o br', m br = (o, br') ∧ br_wf br' ∧ ((∃ a, o = Ok a) ∨ o = Err EOF) ∧
  ∃ bits, rbits br = bits ++ rbits br'.

Lemma fetches_runs {A} (m : go (bitReader R) A) : fetches m → runs m.
Proof.
  intros Hm br Hwf. destruct (Hm br Hwf) as (o & br' & ? & ? & Ho & ?). exists o, br'. split_and!; try done.
  by destruct Ho as [[? ->]| ->].
Qed.

Lemma fetches_bind {A B} (m : go (bitReader R) A) (k : A → go (bitReader R) B) :
  fetches m → (∀ br a br', br_wf br → m br = (Ok a, br') → fetches (k a)) → fetches (m ≫= k).
Proof.
  intros Hm Hk br Hwf. destruct (Hm br Hwf) as (o & br1 & Hr & Hwf1 & Ho & l1 & Hl1).
  destruct Ho as [[a ->]| ->].
  2: { exists (Err EOF), br1. rewrite (bind_Err _ _ _ _ _ Hr). split_and!; [done..|by right|by exists l1]. }
  destruct (Hk br a br1 Hwf Hr br1 Hwf1) as (o & br2 & Hr2 & Hwf2 & Ho2 & l2 & Hl2).
  exists o, br2. rewrite (bind_Ok _ _ _ _ _ Hr). split_and!; [done..|]. exists (l1 ++ l2).
  by rewrite Hl1, Hl2, (assoc_L (++)).
Qed.

Lemma ReadBits_fetches n : 0 ≤ n ≤ 64 → fetches (ReadBits n).
Proof.
  intros Hn br Hwf. destruct (ReadBits_spec n br Hwf Hn) as (br' & Hwf' & Hr).
  destruct (n <=? _); destruct Hr as [-> Hr]; eexists _, br'; split_and!; try done.
  - left. by eexists.
  - exists (ztake n (rbits br)). by rewrite Hr, ztake_zdrop.
  - by right.
  - by exists [].
Qed.
Lemma ReadBits_runs n : 0 ≤ n ≤ 64 → runs (ReadBits n).
Proof. intros Hn. by apply fetches_runs, ReadBits_fetches. Qed.
End refinement.

Create HintDb runs.
#[export] Hint Extern 1 (_ ≠ ErrWouldBlock) => discriminate : runs.
#[export] Hint Resolve runs_ret runs_fail runs_panic runs_catch ReadBit_runs : runs.

(** The bits of a stream after its last whole byte. *)
Definition trailing (l : list bool) : list bool := drop (8 * length (bytes_of_bits l)) l.

#[global] Arguments trailing _ : simpl never.

Lemma trailing_app bs l : Forall is_byte bs → trailing (bits_of_bytes bs ++ l) = trailing l.
Proof.
  intros Hbs. unfold trailing. rewrite bytes_of_bits_of_bytes, length_app by done.
  assert (length (bits_of_bytes bs) = 8 * length bs)%nat as Hlen.
  { pose proof (zlen_bits_of_bytes bs) as H8. unfold zlen in H8. lia. }
  rewrite drop_app. rewrite (drop_ge (bits_of_bytes bs)) by lia. simpl. f_equal. lia.
Qed.

Lemma bits_split_trailing l : l = bits_of_bytes (bytes_of_bits l) ++ trailing l.
Proof.
  destruct (bytes_of_bits_split l) as (rest & Hl & _ & _). rewrite Hl at 1. f_equal.
  unfold trailing. rewrite Hl at 2.
  assert (length (bits_of_bytes (bytes_of_bits l)) = 8 * length (bytes_of_bits l))%nat as <-.
  { pose proof (zlen_bits_of_bytes (bytes_of_bits l)) as H8. unfold zlen in H8. lia. }
  by rewrite drop_app_length.
Qed.

Lemma trailing_short l : zlen (trailing l) < 8.
Proof.
  destruct (bytes_of_bits_split l) as (rest & Hl & Hb & Hr). rewrite Hl, trailing_app by done.
  unfold trailing. by rewrite bytes_of_bits_short.
Qed.

(** A bit reader is itself a reader over a finite stream: its content is the
    whole bytes that are left, aligned or not. *)
#[export] Program Instance bitReader_spec {R} `{IoReaderSpec R} :
  IoReaderSpec (bitReader R) := {
  rd_wf := br_wf;
  content br := bytes_of_bits (rbits br);
  residue br := trailing (rbits br);
}.
Next Obligation. intros R ?? br Hwf. by destruct (bytes_of_bits_split (rbits br)) as (?&?&?&?). Qed.
Next Obligation.
  intros R ?? n br Hwf Hn. cbn. unfold Read.
  destruct (Z.eqb_spec (br_savedBits br) 0) as [Hsb0|].
  - pose proof Hwf as [Hrd Hsb]. destruct (Read_spec n _ Hrd Hn)
      as (bs & e & r' & Hr & Hwf' & Hc & _ & ? & He).
    assert (∀ r, rd_wf r →
      rbits (BitReader r (br_saved br) 0) = bits_of_bytes (content r) ++ []) as Hcnt.
    { intros r Hr'. unfold rbits. cbn. by rewrite zbits_0, app_nil_r. }
    exists bs, e, (BitReader r' (br_saved br) 0). rewrite bind_unfold. cbn [getS].
    rewrite Hsb0. cbn. unfold on_reader, zoom. rewrite Hr, Hsb0.
    destruct br as [r v sb]. cbn in *. subst sb.
    rewrite !Hcnt, !trailing_app, !bytes_of_bits_of_bytes, !app_nil_r
      by (done || by apply content_bytes).
    split_and!; done || lia.
  - rewrite bind_unfold. cbn [getS]. rewrite (proj2 (Z.eqb_neq _ _)) by done.
    destruct (Read_loop_spec (Z.to_nat n) [] br Hwf)
      as (bs & e & br' & Hr & Hwf' & Hb & Hbs & He).
    exists bs, e, br'. rewrite Hr, Hb, bytes_of_bits_of_bytes, trailing_app by done. unfold zlen.
    split_and!; [done..| |]; destruct He as [[? ?]|(? & ? & ?)]; try lia;
      [left|right]; split_and!; try (done || lia). intros ->. simpl in *. lia.
Qed.
Next Obligation.
  intros R ?? f br [= <-] Hwf. destruct (ReadByte_spec' br Hwf) as (br' & Hwf' & Hr).
  exists br'. split; [done|]. destruct (bytes_of_bits (rbits br)) as [|b l] eqn:Hbb.
  - destruct Hr as [-> Hr]. by rewrite Hr.
  - destruct Hr as (-> & Hr & Hb). rewrite Hr, bytes_of_bits_byte in Hbb by done.
    injection Hbb as Hbb. split; [|done]. rewrite Hr.
    change (trailing (rbits br') = trailing (zbits 8 b ++ rbits br')).
    replace (zbits 8 b) with (bits_of_bytes [b]) by by rewrite bits_of_bytes_one.
    by rewrite trailing_app by by constructor.
Qed.

(** ** A limited reader over a bit reader *)

Section limited.
Context {R : Type} `{IoReaderSpec R}.

(** What a limited reader over [br] has taken from the stream below. *)
Lemma limited_bits (br : bitReader R) N l :
  let _ := LimitedReader_spec br N in
  rd_wf l → br_wf (lim_R l) ∧ ∃ pre,
    rbits br = bits_of_bytes pre ++ rbits (lim_R l) ∧
    ztake N (bytes_of_bits (rbits br)) = pre ++ content l.
Proof.
  intros I (Hwf & Hres & pre & Hpre & HN & Hmax). split; [done|]. exists pre. cbn in *.
  split.
  - rewrite (bits_split_trailing (rbits br)), (bits_split_trailing (rbits (lim_R l))).
    by rewrite Hpre, Hres, bits_of_bytes_app, (assoc_L (++)).
  - rewrite Hpre, HN. destruct (Z.le_gt_cases 0 N).
    + apply ztake_app_split. lia.
    + assert (pre = []) as -> by (apply zlen_0; pose proof (zlen_nonneg pre); lia).
      by rewrite !ztake_0 by (rewrite ?zlen_nil; lia).
Qed.

Lemma limited_init (br : bitReader R) N : br_wf br →
  @rd_wf _ _ (LimitedReader_spec br N) (MkLimitedReader br N).
Proof. intros Hwf. split_and!; [done|done|]. exists []. cbn. rewrite zlen_nil. split_and!; [done|lia..]. Qed.
End limited.
