(* ===== verification/Streams.v ===== *)
(** * Methods that keep state beside a stream

    A codec's method runs on a record [mk x b] of its own state [x] and a bit
    reader or writer [b]. The predicates here say what such a method does to both;
    HPACK and QPACK instantiate [mk] with the constructors of their states. *)

From S2P Require Import Prelude Bits GoIo BitWriter BitReader.

(** ** Reading *)

Section reading.
Context {R : Type} `{IoReaderSpec R} {X S : Type} (mk : X → bitReader R → S).

(** On a stream that starts with [bits], [m] returns [a], leaves the rest and
    takes the state from [x] to [x']. *)
Definition sreads {A} (m : go S A) (x : X) (bits : list bool) (a : A) (x' : X) : Prop :=
  ∀ br l, br_wf br → rbits br = bits ++ l →
  ∃ br', m (mk x br) = (Ok a, mk x' br') ∧ br_wf br' ∧ rbits br' = l.

(** On such a stream [m] ends with the error [e]. *)
Definition sfails {A} (m : go S A) (x : X) (bits : list bool) (e : goerr) : Prop :=
  ∀ br l, br_wf br → rbits br = bits ++ l → ∃ x' br', m (mk x br) = (Err e, mk x' br').

Lemma sreads_ret {A} (a : A) x : sreads (mret a) x [] a x.
Proof. intros br l ??. by exists br. Qed.

Lemma sreads_zoom {A} get set (m : go (bitReader R) A) a bits x :
  (∀ br, get (mk x br) = br) → (∀ br br', set br' (mk x br) = mk x br') →
  reads m a bits → sreads (zoom get set m) x bits a x.
Proof.
  intros Hg Hs Hm br l Hwf Hl. destruct (Hm br l Hwf Hl) as (br' & Hr & ? & ?).
  exists br'. unfold zoom. by rewrite Hg, Hr, Hs.
Qed.

Lemma sreads_step {A} (m : go S A) x a x' :
  (∀ br, m (mk x br) = (Ok a, mk x' br)) → sreads m x [] a x'.
Proof. intros Hm br l ??. exists br. by rewrite Hm. Qed.

Lemma sfails_step {A} (m : go S A) x e bits :
  (∀ br, m (mk x br) = (Err e, mk x br)) → sfails m x bits e.
Proof. intros Hm br l ??. exists x, br. by rewrite Hm. Qed.

Lemma sreads_bind {A B} (m : go S A) (k : A → go S B) x l1 a x1 l2 b x2 :
  sreads m x l1 a x1 → sreads (k a) x1 l2 b x2 → sreads (m ≫= k) x (l1 ++ l2) b x2.
Proof.
  intros Hm Hk br l Hwf Hl. rewrite <- (assoc_L (++)) in Hl.
  destruct (Hm br _ Hwf Hl) as (br1 & Hr & Hwf1 & Hl1).
  destruct (Hk br1 _ Hwf1 Hl1) as (br2 & ? & ? & ?). exists br2. by rewrite (bind_Ok _ _ _ _ _ Hr).
Qed.

Lemma sreads_bind_r {A B} (m : go S A) (k : A → go S B) x l a x1 b x2 :
  sreads m x l a x1 → sreads (k a) x1 [] b x2 → sreads (m ≫= k) x l b x2.
Proof. intros Hm Hk. rewrite <- (app_nil_r l). by eapply sreads_bind. Qed.

Lemma sreads_bind_l {A B} (m : go S A) (k : A → go S B) x l a x1 b x2 :
  sreads m x [] a x1 → sreads (k a) x1 l b x2 → sreads (m ≫= k) x l b x2.
Proof. intros Hm Hk. by apply (sreads_bind m k x [] a x1 l b x2). Qed.

Lemma sreads_assoc {A B C} (m : go S A) (k : A → go S B) (k2 : B → go S C) x bits c x' :
  sreads ((m ≫= k) ≫= k2) x bits c x' → sreads (m ≫= λ a, k a ≫= k2) x bits c x'.
Proof. intros Hm br l Hwf Hl. rewrite <- bind_assoc. by apply Hm. Qed.

Lemma sreads_get {B} (k : S → go S B) x bits b x' :
  (∀ br, sreads (k (mk x br)) x bits b x') → sreads (getS ≫= k) x bits b x'.
Proof. intros Hk br l Hwf Hl. by apply (Hk br). Qed.

Lemma sfails_get {B} (k : S → go S B) x bits e :
  (∀ br, sfails (k (mk x br)) x bits e) → sfails (getS ≫= k) x bits e.
Proof. intros Hk br l Hwf Hl. by apply (Hk br br l). Qed.

Lemma sfails_bind {A B} (m : go S A) (k : A → go S B) x l1 a x1 l2 e :
  sreads m x l1 a x1 → sfails (k a) x1 l2 e → sfails (m ≫= k) x (l1 ++ l2) e.
Proof.
  intros Hm Hk br l Hwf Hl. rewrite <- (assoc_L (++)) in Hl.
  destruct (Hm br _ Hwf Hl) as (br1 & Hr & Hwf1 & Hl1).
  destruct (Hk br1 _ Hwf1 Hl1) as (x2 & br2 & ?). exists x2, br2. by rewrite (bind_Ok _ _ _ _ _ Hr).
Qed.

Lemma sfails_bind_r {A B} (m : go S A) (k : A → go S B) x l a x1 e :
  sreads m x l a x1 → sfails (k a) x1 [] e → sfails (m ≫= k) x l e.
Proof. intros Hm Hk. rewrite <- (app_nil_r l). by eapply sfails_bind. Qed.

Lemma sfails_bind_l {A B} (m : go S A) (k : A → go S B) x l e :
  sfails m x l e → sfails (m ≫= k) x l e.
Proof.
  intros Hm br l' Hwf Hl. destruct (Hm br _ Hwf Hl) as (x1 & br1 & Hr).
  exists x1, br1. by rewrite (bind_Err _ _ _ _ _ Hr).
Qed.

(** *** Any input

    [I] is an invariant of the state and [inserts] what [m] may add at most [n]
    to: [m] ends within its fuel, keeps [I] and takes a prefix of the stream. *)
Definition ssafe {A} (I : X → Prop) (inserts : X → Z) (n : Z) (m : go S A) : Prop :=
  ∀ x br, I x → br_wf br → inserts x + n ≤ intMax →
  ∃ o x' br', m (mk x br) = (o, mk x' br') ∧ returns o ∧ I x' ∧
    inserts x' ≤ inserts x + n ∧ br_wf br' ∧ zlen (rbits br') ≤ zlen (rbits br).

Variables (I : X → Prop) (inserts : X → Z).

Lemma ssafe_step {A} n (m : go S A) (f : X → X) (o : X → outcome A) : (∀ x, returns (o x)) →
  (∀ x br, m (mk x br) = (o x, mk (f x) br)) →
  (∀ x, I x → inserts x + n ≤ intMax → I (f x) ∧ inserts (f x) ≤ inserts x + n) →
  ssafe I inserts n m.
Proof.
  intros Ho Hm Hf x br Hx Hbr Hb. destruct (Hf x Hx Hb). exists (o x), (f x), br. by split_and!.
Qed.

Lemma ssafe_out {A} (m : go S A) o : returns o → (∀ s, m s = (o, s)) → ssafe I inserts 0 m.
Proof.
  intros Ho Hm. apply (ssafe_step 0 m (λ x, x) (λ _, o)); [done|by intros|].
  intros x Hx _. split; [done|lia].
Qed.

Lemma ssafe_zoom {A} get set (m : go (bitReader R) A) :
  (∀ x br, get (mk x br) = br) → (∀ x br br', set br' (mk x br) = mk x br') →
  runs m → ssafe I inserts 0 (zoom get set m).
Proof.
  intros Hg Hs Hm x br Hx Hbr Hb. destruct (Hm br Hbr) as (o & br' & Hr & ? & ? & bits & Hbits).
  eexists o, x, br'. unfold zoom. rewrite Hg, Hr, Hs, Hbits. zlen_simpl.
  pose proof (zlen_nonneg bits). split_and!; [done..|lia|done|lia].
Qed.

Lemma ssafe_bind {A B} (m : go S A) (k : A → go S B) n1 n2 :
  0 ≤ n1 → 0 ≤ n2 → ssafe I inserts n1 m → (∀ a, ssafe I inserts n2 (k a)) →
  ssafe I inserts (n1 + n2) (m ≫= k).
Proof.
  intros ?? Hm Hk x br Hx Hbr Hb.
  destruct (Hm x br Hx Hbr) as (o & x1 & br1 & Hr & Ho & Hx1 & Hb1 & Hbr1 & Hl1); [lia|].
  rewrite bind_unfold, Hr.
  destruct o as [a|e| |]; [|eexists _, x1, br1; split_and!; (done || lia)..].
  destruct (Hk a x1 br1 Hx1 Hbr1) as (o & x2 & br2 & Hr2 & Ho2 & Hx2 & Hb2 & Hbr2 & Hl2); [lia|].
  exists o, x2, br2. split_and!; (done || lia).
Qed.

Lemma ssafe_bind_0 {A B} (m : go S A) (k : A → go S B) n :
  0 ≤ n → ssafe I inserts 0 m → (∀ a, ssafe I inserts n (k a)) → ssafe I inserts n (m ≫= k).
Proof. intros. by apply (ssafe_bind m k 0 n). Qed.

Lemma ssafe_weaken {A} (m : go S A) n : 0 ≤ n → ssafe I inserts 0 m → ssafe I inserts n m.
Proof.
  intros Hn Hm x br Hx Hbr Hb. destruct (Hm x br Hx Hbr) as (o & x1 & br1 & ?); [lia|].
  exists o, x1, br1. destruct_and!. split_and!; done || lia.
Qed.

Lemma ssafe_ret {A} (a : A) : ssafe I inserts 0 (mret a).
Proof. by apply (ssafe_out _ (Ok a)). Qed.
Lemma ssafe_fail {A} e : e ≠ ErrWouldBlock → ssafe I inserts 0 (fail e : go S A).
Proof. intros He. apply (ssafe_out _ (Err e)); [by apply returns_Err|done]. Qed.
Lemma ssafe_panic {A} : ssafe I inserts 0 (panic : go S A).
Proof. by apply (ssafe_out _ Panic). Qed.

Lemma ssafe_get {B} n (k : S → go S B) :
  (∀ x br, ssafe I inserts n (k (mk x br))) → ssafe I inserts n (getS ≫= k).
Proof. intros Hk x br Hx Hbr Hb. by apply (Hk x br). Qed.
End reading.

(** ** Following a machine

    A method on a state [mk x br] does what a machine on [x] alone does, with the
    same outcome. *)

Section following.
Context {R : Type} `{IoReaderSpec R} {X S : Type} (mk : X → bitReader R → S).

(** [c] does what [a] does on a stream that starts with [bits], and leaves the
    rest. *)
Definition consumes {A} (c : go S A) (a : go X A) (bits : list bool) : Prop :=
  ∀ x br l, br_wf br → rbits br = bits ++ l → ∃ br', c (mk x br) = ((a x).1, mk (a x).2 br') ∧
    match (a x).1 with Ok _ => br_wf br' ∧ rbits br' = l | _ => True end.

(** [c] does what [a] does on a stream of [bits]. *)
Definition follows {A} (c : go S A) (a : go X A) (bits : list bool) : Prop :=
  ∀ x br, br_wf br → rbits br = bits → ∃ br', c (mk x br) = ((a x).1, mk (a x).2 br').

Lemma consumes_bind {A B} c a (kc : A → go S B) ka l1 l2 :
  consumes c a l1 → (∀ y, consumes (kc y) (ka y) l2) → consumes (c ≫= kc) (a ≫= ka) (l1 ++ l2).
Proof.
  intros Hc Hk x br l Hwf Hl. rewrite <- (assoc_L (++)) in Hl.
  destruct (Hc x br _ Hwf Hl) as (br1 & Hr & Hok). rewrite !bind_unfold, Hr.
  destruct (a x) as [[y|e| |] x1]; cbn in Hok |- *; [|by exists br1..].
  destruct Hok as [Hwf1 Hl1]. by apply Hk.
Qed.

Lemma follows_bind {A B} c a (kc : A → go S B) ka l1 l2 :
  consumes c a l1 → (∀ y, follows (kc y) (ka y) l2) → follows (c ≫= kc) (a ≫= ka) (l1 ++ l2).
Proof.
  intros Hc Hk x br Hwf Hl. destruct (Hc x br _ Hwf Hl) as (br1 & Hr & Hok). rewrite !bind_unfold, Hr.
  destruct (a x) as [[y|e| |] x1]; cbn in Hok |- *; [|by exists br1..].
  destruct Hok as [Hwf1 Hl1]. by apply Hk.
Qed.

Lemma consumes_here {A} (c : go S A) (a : go X A) :
  (∀ x br, c (mk x br) = ((a x).1, mk (a x).2 br)) → consumes c a [].
Proof. intros Hc x br l Hwf Hl. exists br. split; [apply Hc|]. by destruct ((a x).1). Qed.

Lemma consumes_follows {A} (c : go S A) (a : go X A) bits : consumes c a bits → follows c a bits.
Proof. intros Hc x br Hwf Hl. destruct (Hc x br [] Hwf) as (br' & ? & _); [by rewrite app_nil_r|]. by exists br'. Qed.

(** [c] does what [a] does on a stream of [bits], and reads it to its end. *)
Definition exhausts {A} (c : go S A) (a : go X A) (bits : list bool) : Prop :=
  ∀ x br, br_wf br → rbits br = bits → ∃ br', c (mk x br) = ((a x).1, mk (a x).2 br') ∧
    match (a x).1 with Ok _ => br_wf br' ∧ rbits br' = [] | _ => True end.

Lemma exhausts_bind_r {A B} c a (kc : A → go S B) ka bits :
  exhausts c a bits → (∀ y, consumes (kc y) (ka y) []) → exhausts (c ≫= kc) (a ≫= ka) bits.
Proof.
  intros Hc Hk x br Hwf Hl. destruct (Hc x br Hwf Hl) as (br1 & Hr & Hok). rewrite !bind_unfold, Hr.
  destruct (a x) as [[y|e| |] x1]; cbn in Hok |- *; [|by exists br1..].
  destruct Hok as [Hwf1 Hl1]. by apply Hk.
Qed.

Lemma exhausts_fail {A} e bits : exhausts (A := A) (fail e) (fail e) bits.
Proof. intros x br _ _. by exists br. Qed.

Lemma follows_fail {A} e bits : follows (A := A) (fail e) (fail e) bits.
Proof. intros x br _ _. by exists br. Qed.

Lemma consumes_lift {A} (o : outcome A) : consumes (λ s, (o, s)) (λ x, (o, x)) [].
Proof. by apply consumes_here. Qed.

(** [c] does what one of the machines [a y] does, with a [y] as [P] says: what the
    reader below decides. *)
Definition follows_some {Y A} (P : Y → Prop) (c : go S A) (a : Y → go X A) (bits : list bool) : Prop :=
  ∀ x br, br_wf br → rbits br = bits → ∃ y br', P y ∧ c (mk x br) = ((a y x).1, mk (a y x).2 br').

Lemma follows_one {Y A} (P : Y → Prop) y (c : go S A) (a : Y → go X A) bits :
  P y → follows c (a y) bits → follows_some P c a bits.
Proof. intros Hy Hc x br Hwf Hl. destruct (Hc x br Hwf Hl) as (br' & Hr). by exists y, br'. Qed.

Lemma follows_some_bind {Y A B} (P : Y → Prop) c a (kc : A → go S B) (ka : Y → A → go X B) l1 l2 :
  (∃ y, P y) → consumes c a l1 → (∀ v, follows_some P (kc v) (λ y, ka y v) l2) →
  follows_some P (c ≫= kc) (λ y, a ≫= ka y) (l1 ++ l2).
Proof.
  intros [y0 Hy0] Hc Hk x br Hwf Hl. destruct (Hc x br _ Hwf Hl) as (br1 & Hr & Hok). setoid_rewrite bind_unfold. rewrite Hr.
  destruct (a x) as [[v|e| |] x1]; cbn in Hok |- *; [|by exists y0, br1..].
  destruct Hok as [Hwf1 Hl1]. by apply Hk.
Qed.

(** A call that only reads. *)
Lemma follows_reads {A B} (c : go S A) (m : go (bitReader R) A) a (kc : A → go S B) ka l1 l2 :
  (∀ x br, c (mk x br) = ((m br).1, mk x (m br).2)) → reads m a l1 → follows (kc a) ka l2 →
  follows (c ≫= kc) ka (l1 ++ l2).
Proof.
  intros Hc Hm Hk x br Hwf Hl. destruct (Hm br l2 Hwf Hl) as (br' & Hr & Hwf' & Hl').
  rewrite bind_unfold, Hc, Hr. by apply Hk.
Qed.
End following.

(** ** Writing *)

Section writing.
Context {W : Type} `{IoWriterSpec W} `{!IoWriterTotal W} {X S : Type} (mk : X → bitWriter W → S).

Definition swrites {A} (m : go S A) (x : X) (bits : list bool) (a : A) (x' : X) : Prop :=
  ∀ bw, bw_ok bw → ∃ bw', m (mk x bw) = (Ok a, mk x' bw') ∧ bw_ok bw' ∧
  wbits bw' = wbits bw ++ bits.

Lemma swrites_step {A} (m : go S A) x a x' :
  (∀ bw, m (mk x bw) = (Ok a, mk x' bw)) → swrites m x [] a x'.
Proof. intros Hm bw Hok. exists bw. by rewrite Hm, app_nil_r. Qed.

Lemma swrites_ret {A} (a : A) x : swrites (mret a) x [] a x.
Proof. by apply swrites_step. Qed.

Lemma swrites_zoom {A} get set (m : go (bitWriter W) A) a bits x :
  (∀ bw, get (mk x bw) = bw) → (∀ bw bw', set bw' (mk x bw) = mk x bw') →
  writes m a bits → swrites (zoom get set m) x bits a x.
Proof.
  intros Hg Hs Hm bw Hok. destruct (Hm bw Hok) as (bw' & Hr & ? & ?).
  exists bw'. unfold zoom. by rewrite Hg, Hr, Hs.
Qed.

Lemma swrites_bind {A B} (m : go S A) (k : A → go S B) x l1 a x1 l2 b x2 :
  swrites m x l1 a x1 → swrites (k a) x1 l2 b x2 → swrites (m ≫= k) x (l1 ++ l2) b x2.
Proof.
  intros Hm Hk bw Hok. destruct (Hm bw Hok) as (bw1 & Hr1 & Hok1 & Hw1).
  destruct (Hk bw1 Hok1) as (bw2 & ? & ? & Hw2). exists bw2.
  rewrite (bind_Ok _ _ _ _ _ Hr1). split_and!; [done..|]. by rewrite Hw2, Hw1, (assoc_L (++)).
Qed.

Lemma swrites_bind_r {A B} (m : go S A) (k : A → go S B) x l a x1 b x2 :
  swrites m x l a x1 → swrites (k a) x1 [] b x2 → swrites (m ≫= k) x l b x2.
Proof. intros Hm Hk. rewrite <- (app_nil_r l). by eapply swrites_bind. Qed.

Lemma swrites_bind_l {A B} (m : go S A) (k : A → go S B) x l a x1 b x2 :
  swrites m x [] a x1 → swrites (k a) x1 l b x2 → swrites (m ≫= k) x l b x2.
Proof. intros Hm Hk. by apply (swrites_bind m k x [] a x1 l b x2). Qed.

Lemma swrites_get {B} (k : S → go S B) x bits b x' :
  (∀ bw, swrites (k (mk x bw)) x bits b x') → swrites (getS ≫= k) x bits b x'.
Proof. intros Hk bw Hok. by apply (Hk bw). Qed.

(** A writer with no bits held back. *)
Definition at_byte (bw : bitWriter W) : Prop := bw_ok bw ∧ bw_savedBits bw = 0.

(** A whole number of bytes reaches the writer below. *)
Lemma swrites_whole {A} (m : go S A) x bits a x' k bw :
  swrites m x bits a x' → zlen bits = 8 * k → at_byte bw →
  ∃ bw' block, m (mk x bw) = (Ok a, mk x' bw') ∧ at_byte bw' ∧
    accepted (bw_writer bw') = accepted (bw_writer bw) ++ block ∧
    Forall is_byte block ∧ bits_of_bytes block = bits.
Proof.
  intros Hm Hk [Hok Hsb]. destruct (Hm bw Hok) as (bw' & Hr & Hok' & Hw).
  unfold wbits at 2 in Hw. rewrite Hsb, zbits_0, app_nil_r in Hw.
  destruct (whole_accepted bw' (bw_writer bw) bits k Hok' (proj2 Hok) Hw Hk) as (block & ? & ? & ?).
  exists bw', block. split_and!; try done. split; [done|].
  destruct Hok' as [? _]. unfold wbits in Hw. apply (f_equal zlen) in Hw. zlen_simpl. lia.
Qed.
End writing.
