(* ===== verification/Concat.v ===== *)
(** * The concatenating reader (io/concat.go)

    One thread reads, others add readers and wait until theirs is drained. The
    channel of readers has no buffer, so a message in [pending] is an [AddReader]
    call blocked in its send; the [drained] channel of a message is the number of
    its call. The reading thread is idle or blocked in [next], receiving from
    [pending]. *)

From S2P Require Import Prelude Bits GoIo BitReader.

Inductive readerState : Type :=
| Idle
| Receiving (n : Z).       (* in a [Read] of [n] bytes, at [<-cat.pending] *)

Section concat.
Context {R : Type} `{IoReader R}.

Record concatMessage := ConcatMessage {
  cm_r : R;
  cm_drained : nat;
}.

Record ConcatenatingReader := MkConcatenatingReader {
  pending : list concatMessage;
  closed : bool;
  current : option concatMessage;
  reading : readerState;
  drained : list nat;      (* the calls of [AddReader] that have returned *)
}.

Definition NewConcatenatingReader : ConcatenatingReader := MkConcatenatingReader [] false None Idle [].

(** [AddReader], up to where it blocks; a send on a closed channel panics. *)
Definition AddReader (id : nat) (r : R) (cat : ConcatenatingReader) : outcome ConcatenatingReader :=
  if closed cat then Panic else
  Ok (MkConcatenatingReader (pending cat ++ [ConcatMessage r id]) (closed cat) (current cat)
        (reading cat) (drained cat)).

(** [Close]; closing twice panics, and so do senders that are blocked. *)
Definition Close (cat : ConcatenatingReader) : outcome ConcatenatingReader :=
  if closed cat then Panic else
  match pending cat with
  | [] => Ok (MkConcatenatingReader [] true (current cat) (reading cat) (drained cat))
  | _ => Panic
  end.

(** What a [Read] call has come to: a result, or it goes on in [next]. *)
Definition readResult : Type := option (list Z * option goerr).

(** [cat.current.r.Read(p)] and the test of its error. At the end of the reader
    the message is sent to [drained] and the call waits for the next one. *)
Definition readCurrent (n : Z) (m : concatMessage) (cat : ConcatenatingReader)
  : outcome (readResult * ConcatenatingReader) :=
  match io_Read n (cm_r m) with
  | (Ok (bs, e), r') =>
      if decide (e = Some EOF) then
        Ok (None, MkConcatenatingReader (pending cat) (closed cat) (Some (ConcatMessage r' (cm_drained m)))
              (Receiving n) (drained cat ++ [cm_drained m]))
      else
        Ok (Some (bs, e), MkConcatenatingReader (pending cat) (closed cat)
              (Some (ConcatMessage r' (cm_drained m))) Idle (drained cat))
  | (Err er, _) => Err er
  | (Panic, _) => Panic
  | (NoFuel, _) => NoFuel
  end.

(** The start of [Read(p)] with [len(p) = n]. *)
Definition Read (n : Z) (cat : ConcatenatingReader) : outcome (readResult * ConcatenatingReader) :=
  match current cat with
  | None => Ok (None, MkConcatenatingReader (pending cat) (closed cat) None (Receiving n) (drained cat))
  | Some m => readCurrent n m cat
  end.

(** The rest of [next] once a message can be received, and the read that follows
    it; [None] while the receive blocks. *)
Definition next (cat : ConcatenatingReader) : option (outcome (readResult * ConcatenatingReader)) :=
  match reading cat with
  | Idle => None
  | Receiving n =>
      match pending cat with
      | m :: ms => Some (readCurrent n m
          (MkConcatenatingReader ms (closed cat) (Some m) (Receiving n) (drained cat)))
      | [] =>
          if closed cat
          then Some (Ok (Some ([], Some EOF), MkConcatenatingReader [] true None Idle (drained cat)))
          else None
      end
  end.

(** ** The step relation *)

(** The reader, what has been added and what has been returned, in order. *)
Record concat_config := ConcatConfig {
  cfg_cat : ConcatenatingReader;
  cfg_added : list concatMessage;
  cfg_read : list Z;
}.

Definition result_bytes (res : readResult) : list Z := match res with Some (bs, _) => bs | None => [] end.

Inductive concat_step : concat_config → concat_config → Prop :=
| cstep_add id r cat cat' added read :
    AddReader id r cat = Ok cat' →
    concat_step (ConcatConfig cat added read) (ConcatConfig cat' (added ++ [ConcatMessage r id]) read)
| cstep_close cat cat' added read :
    Close cat = Ok cat' →
    concat_step (ConcatConfig cat added read) (ConcatConfig cat' added read)
| cstep_read n cat res cat' added read :
    reading cat = Idle → 0 < n → Read n cat = Ok (res, cat') →
    concat_step (ConcatConfig cat added read) (ConcatConfig cat' added (read ++ result_bytes res))
| cstep_next cat res cat' added read :
    next cat = Some (Ok (res, cat')) →
    concat_step (ConcatConfig cat added read) (ConcatConfig cat' added (read ++ result_bytes res)).

Inductive concat_reachable : concat_config → Prop :=
| concat_new : concat_reachable (ConcatConfig NewConcatenatingReader [] [])
| concat_more cfg cfg' : concat_reachable cfg → concat_step cfg cfg' → concat_reachable cfg'.

(** The whole of a [Read] call, with nothing added meanwhile: a fuel of one round
    a message is enough. *)
Fixpoint next_loop (fuel : nat) (cat : ConcatenatingReader) : outcome (readResult * ConcatenatingReader) :=
  match fuel with
  | O => NoFuel
  | S fuel' =>
      match next cat with
      | None => Ok (None, cat)
      | Some (Ok (None, cat')) => next_loop fuel' cat'
      | Some o => o
      end
  end.

Definition ReadCall (n : Z) (cat : ConcatenatingReader) : outcome (readResult * ConcatenatingReader) :=
  match Read n cat with
  | Ok (None, cat') => next_loop (S (length (pending cat'))) cat'
  | o => o
  end.

(** [ioutil.ReadAll] with a buffer of [n] bytes. *)
Fixpoint ReadAll (fuel : nat) (n : Z) (acc : list Z) (cat : ConcatenatingReader)
  : outcome (list Z * ConcatenatingReader) :=
  match fuel with
  | O => NoFuel
  | S fuel' =>
      match ReadCall n cat with
      | Ok (Some (bs, None), cat') => ReadAll fuel' n (acc ++ bs) cat'
      | Ok (Some (bs, Some EOF), cat') => Ok (acc ++ bs, cat')
      | Ok (Some (_, Some e), _) => Err e
      | Ok (None, _) => Err ErrWouldBlock
      | Err e => Err e
      | Panic => Panic
      | NoFuel => NoFuel
      end
  end.
End concat.

#[global] Arguments concatMessage : clear implicits.
#[global] Arguments ConcatenatingReader : clear implicits.
#[global] Arguments concat_config : clear implicits.

(** The application's reads of one reader, up to its end, as [CatDrain] has them. *)
Lemma ReadAll_CatDrain {R} `{IoReaderSpec R} fuel n acc (r : R) id dr : rd_wf r → 0 < n → (length (content r) < fuel)%nat →
  ∃ bs r' cat', CatDrain fuel n acc r = (Ok bs, r') ∧
    ReadAll fuel n acc (MkConcatenatingReader [] true (Some (ConcatMessage r id)) Idle dr) = Ok (bs, cat') ∧
    drained cat' = dr ++ [id].
Proof.
  revert acc r. induction fuel as [|fuel IH]; intros acc r Hwf Hn Hf; [lia|]. cbn [CatDrain ReadAll].
  destruct (Read_spec n r Hwf Hn) as (bs & e & r1 & Hr & Hwf1 & Hc & _ & _ & He).
  rewrite (bind_Ok _ _ _ _ _ Hr). unfold ReadCall, Read, readCurrent. cbn [current cm_r]. rewrite Hr.
  rewrite Hc, length_app in Hf. destruct He as [[-> Hbs]|(-> & _ & _)].
  - rewrite !decide_False by done. cbn [pending closed cm_drained drained]. apply IH; [done|done|].
    destruct bs; [done|cbn [length] in Hf; lia].
  - rewrite !decide_True by done. eexists acc, r1, _. split; [done|]. cbn. by rewrite app_nil_r.
Qed.

(** ** What is delivered *)

(** Readers that never return bytes together with [io.EOF]. *)
Class CleanEOF (R : Type) `{IoReaderSpec R} : Prop :=
  clean_eof n r bs r' : rd_wf r → 0 < n → io_Read n r = (Ok (bs, Some EOF), r') → bs = [].

#[export] Instance bytesReader_clean : CleanEOF bytesReader.
Proof. intros n [[|b l]] bs r' _ _; cbn; unfold bytesReader_Read; cbn; congruence. Qed.

Section delivered.
Context {R : Type} `{CleanEOF R}.

Implicit Types (cat : ConcatenatingReader R) (m : concatMessage R).

Definition left_of (ms : list (concatMessage R)) : list Z := mjoin ((λ m, content (cm_r m)) <$> ms).

(** What is still to come, in order. *)
Definition remaining cat : list Z :=
  left_of (match current cat with Some m => [m] | None => [] end ++ pending cat).

Record cat_wf cat : Prop := {
  cw_current m : current cat = Some m → rd_wf (cm_r m);
  cw_pending : Forall (λ m, rd_wf (cm_r m)) (pending cat);
  cw_receiving n : reading cat = Receiving n → 0 < n ∧ ∀ m, current cat = Some m → content (cm_r m) = [];
}.

Lemma left_of_cons m ms : left_of (m :: ms) = content (cm_r m) ++ left_of ms.
Proof. done. Qed.

Lemma left_of_app ms1 ms2 : left_of (ms1 ++ ms2) = left_of ms1 ++ left_of ms2.
Proof. unfold left_of. by rewrite fmap_app, join_app. Qed.

(** One read of a reader that is in order: it returns bytes, or it is at its end. *)
Lemma readCurrent_spec n m cat : 0 < n → rd_wf (cm_r m) → Forall (λ m, rd_wf (cm_r m)) (pending cat) →
  ∃ res cat' r', readCurrent n m cat = Ok (res, cat') ∧ cat_wf cat' ∧
    pending cat' = pending cat ∧ closed cat' = closed cat ∧
    current cat' = Some (ConcatMessage r' (cm_drained m)) ∧
    content (cm_r m) = result_bytes res ++ content r' ∧
    match res with
    | Some (bs, e) => e = None ∧ bs ≠ [] ∧ reading cat' = Idle ∧ drained cat' = drained cat
    | None => content r' = [] ∧ reading cat' = Receiving n ∧ drained cat' = drained cat ++ [cm_drained m]
    end.
Proof.
  intros Hn Hm Hp. unfold readCurrent.
  destruct (Read_spec n (cm_r m) Hm Hn) as (bs & e & r' & Hr & Hwf' & Hc & _ & _ & He). rewrite Hr.
  destruct He as [[-> Hbs]|(-> & Hnil & _)].
  - rewrite decide_False by done. eexists _, _, r'. split_and!; try done.
    split; cbn; [by intros ? [= <-]|done|done].
  - rewrite decide_True by done. pose proof (clean_eof n _ _ _ Hm Hn Hr) as ->.
    eexists _, _, r'. split_and!; try done.
    split; cbn; [by intros ? [= <-]|done|]. intros ? [= <-]. split; [done|]. by intros ? [= <-].
Qed.

(** ** Every reachable state *)

(** The message being read. *)
Definition held cat : option (concatMessage R) :=
  match reading cat with Idle => current cat | Receiving _ => None end.

(** The calls that have returned are the first ones, in order; what was read is
    the content of their readers and a part of the next one. *)
Definition delivered_ok (added : list (concatMessage R)) (read : list Z) cat : Prop :=
  ∃ done hd pre, added = done ++ hd ++ pending cat ∧ drained cat = cm_drained <$> done ∧
    read = left_of done ++ pre ∧
    match held cat with
    | Some m => ∃ m0, hd = [m0] ∧ cm_drained m0 = cm_drained m ∧ content (cm_r m0) = pre ++ content (cm_r m)
    | None => hd = [] ∧ pre = []
    end.

(** A message that is read, whole so far up to [pre]. *)
Lemma readCurrent_delivered n m m0 pre cat done read : 0 < n →
  rd_wf (cm_r m) → Forall (λ m, rd_wf (cm_r m)) (pending cat) →
  cm_drained m0 = cm_drained m → content (cm_r m0) = pre ++ content (cm_r m) →
  drained cat = cm_drained <$> done → read = left_of done ++ pre →
  ∃ res cat', readCurrent n m cat = Ok (res, cat') ∧ cat_wf cat' ∧
    delivered_ok (done ++ [m0] ++ pending cat) (read ++ result_bytes res) cat'.
Proof.
  intros Hn Hm Hp Hid Hpre Hdr Hread.
  destruct (readCurrent_spec n m cat Hn Hm Hp) as (res & cat' & r' & -> & Hwf & Hpend & _ & Hcur & Hc & Hres).
  exists res, cat'. split_and!; [done..|]. subst read. destruct res as [[bs e]|].
  - destruct Hres as (_ & _ & Hidle & Hdr'). exists done, [m0], (pre ++ bs).
    rewrite Hpend, Hdr'. unfold held. rewrite Hidle, Hcur. split_and!; [done..|by rewrite (assoc_L (++))|].
    exists m0. cbn [cm_drained cm_r result_bytes] in *. by rewrite Hpre, Hc, (assoc_L (++)).
  - destruct Hres as (Hnil & Hrec & Hdr'). exists (done ++ [m0]), [], [].
    rewrite Hpend, Hdr', Hdr. unfold held. rewrite Hrec. split_and!; try done.
    + by rewrite <- (assoc_L (++)).
    + by rewrite fmap_app, <- Hid.
    + cbn [result_bytes] in *. rewrite !app_nil_r, left_of_app, left_of_cons, Hpre, Hc, Hnil.
      unfold left_of at 3. cbn. by rewrite !app_nil_r.
Qed.

Lemma concat_reachable_ok cfg : concat_reachable cfg → Forall (λ m, rd_wf (cm_r m)) (cfg_added cfg) →
  cat_wf (cfg_cat cfg) ∧ delivered_ok (cfg_added cfg) (cfg_read cfg) (cfg_cat cfg).
Proof.
  induction 1 as [|cfg cfg' _ IH Hstep]; intros Hadd.
  { split; [by split; cbn|]. by exists [], [], []. }
  inversion Hstep as [id r cat cat' added read Ha|cat cat' added read Hc|n cat res cat' added read Hi Hn Hr|
    cat res cat' added read Hr]; subst; cbn [cfg_cat cfg_added cfg_read] in *.
  - apply Forall_app in Hadd as [Hadd Hr]. destruct (IH Hadd) as [[Hcur Hp Hrec] Hd].
    unfold AddReader in Ha. destruct (closed cat); [done|]. injection Ha as <-.
    split; [split; cbn; [done| |done]; by apply Forall_app|].
    destruct Hd as (done & hd & pre & -> & ? & ? & Hh). exists done, hd, pre. split_and!; try done.
    by rewrite <- !(assoc_L (++)).
  - destruct (IH Hadd) as [[Hcur Hp Hrec] (done & hd & pre & Hd)]. unfold Close in Hc.
    destruct (closed cat); [done|]. destruct (pending cat) eqn:Hms; [|done]. injection Hc as <-.
    split; [by split|]. exists done, hd, pre. exact Hd.
  - destruct (IH Hadd) as [[Hcur Hp Hrec] (done & hd & pre & -> & Hdr & -> & Hh)].
    unfold Read in Hr. unfold held in Hh. rewrite Hi in Hh. destruct (current cat) as [m|] eqn:Hm.
    + destruct Hh as (m0 & -> & Hid & Hpre).
      destruct (readCurrent_delivered n m m0 pre cat done _ Hn (Hcur m eq_refl) Hp Hid Hpre Hdr eq_refl)
        as (res' & cat'' & Hr' & ? & ?). rewrite Hr in Hr'. by injection Hr' as <- <-.
    + injection Hr as <- <-. destruct Hh as [-> ->]. split; [by split; cbn; [|done|intros ? [= <-]]|].
      exists done, [], []. by rewrite !app_nil_r.
  - destruct (IH Hadd) as [[Hcur Hp Hrec] (done & hd & pre & -> & Hdr & -> & Hh)].
    unfold next in Hr. unfold held in Hh. destruct (reading cat) as [|n] eqn:Hn; [done|].
    destruct Hh as [-> ->]. destruct (Hrec n eq_refl) as [Hpos _]. destruct (pending cat) as [|m ms] eqn:Hms.
    + destruct (closed cat); [|done]. injection Hr as <- <-. split; [by split; cbn|].
      exists done, [], []. by rewrite !app_nil_r.
    + injection Hr as Hr. apply Forall_cons in Hp as [Hwm Hp].
      destruct (readCurrent_delivered n m m [] (MkConcatenatingReader ms (closed cat) (Some m) (Receiving n) (drained cat))
        done (left_of done ++ []) Hpos Hwm Hp eq_refl eq_refl Hdr eq_refl) as (res' & cat'' & Hr' & ? & ?).
      rewrite Hr in Hr'. by injection Hr' as <- <-.
Qed.

(** ** Whole calls *)

(** A read is at the end of what was added exactly when the reader is closed and
    all of it was returned. *)
Lemma next_loop_spec cat n fuel : cat_wf cat → closed cat = true → reading cat = Receiving n →
  (length (pending cat) < fuel)%nat →
  ∃ bs e cat', next_loop fuel cat = Ok (Some (bs, e), cat') ∧ cat_wf cat' ∧ closed cat' = true ∧
    reading cat' = Idle ∧ left_of (pending cat) = bs ++ remaining cat' ∧
    (e = None ∧ bs ≠ [] ∨ e = Some EOF ∧ bs = [] ∧ remaining cat' = []).
Proof.
  revert cat. induction fuel as [|fuel IH]; intros cat [Hcur Hp Hrec] Hcl Hn Hf; [lia|].
  cbn [next_loop]. unfold next. rewrite Hn. destruct (Hrec n Hn) as [Hpos _].
  destruct (pending cat) as [|m ms] eqn:Hms.
  { rewrite Hcl. eexists _, _, _. split_and!; try done. by right. }
  apply Forall_cons in Hp as [Hm Hp].
  destruct (readCurrent_spec n m (MkConcatenatingReader ms (closed cat) (Some m) (Receiving n) (drained cat)) Hpos Hm Hp)
    as (res & cat' & r' & -> & Hwf & Hpend & Hcl' & Hcur' & Hc & Hres). cbn [pending closed] in *.
  rewrite left_of_cons, Hc. destruct res as [[bs e]|].
  - destruct Hres as (-> & Hbs & Hidle & _). exists bs, None, cat'. split_and!; try done; [congruence| |by left].
    unfold remaining. rewrite Hcur', Hpend. cbn [app result_bytes]. by rewrite left_of_cons, <- (assoc_L (++)).
  - destruct Hres as (Hnil & Hrec' & _). cbn [result_bytes app]. rewrite Hnil. cbn [app].
    rewrite <- Hpend. apply IH; [done|congruence|done|]. cbn [length] in Hf. rewrite Hpend. lia.
Qed.

Lemma ReadCall_spec n cat : 0 < n → cat_wf cat → closed cat = true → reading cat = Idle →
  ∃ bs e cat', ReadCall n cat = Ok (Some (bs, e), cat') ∧ cat_wf cat' ∧ closed cat' = true ∧
    reading cat' = Idle ∧ remaining cat = bs ++ remaining cat' ∧
    (e = None ∧ bs ≠ [] ∨ e = Some EOF ∧ bs = [] ∧ remaining cat' = []).
Proof.
  intros Hn [Hcur Hp Hrec] Hcl Hidle. unfold ReadCall, Read. destruct (current cat) as [m|] eqn:Hm.
  - destruct (readCurrent_spec n m cat Hn (Hcur m eq_refl) Hp)
      as (res & cat' & r' & -> & Hwf & Hpend & Hcl' & Hcur' & Hc & Hres).
    unfold remaining at 1. rewrite Hm. cbn [app]. rewrite left_of_cons, Hc. destruct res as [[bs e]|].
    + destruct Hres as (-> & Hbs & Hidle' & _). exists bs, None, cat'. split_and!; try done; [congruence| |by left].
      unfold remaining. rewrite Hcur', Hpend. cbn [app result_bytes]. by rewrite left_of_cons, <- (assoc_L (++)).
    + destruct Hres as (Hnil & Hrec' & _). cbn [result_bytes app]. rewrite Hnil. cbn [app]. rewrite <- Hpend.
      apply (next_loop_spec cat' n); [done|congruence|done|lia].
  - set (cat' := MkConcatenatingReader _ _ _ _ _).
    destruct (next_loop_spec cat' n (S (length (pending cat')))) as (bs & e & cat'' & Hrun & Hrest);
      [by split; cbn; [|done|intros ? [= <-]]|done|done|lia|].
    exists bs, e, cat''. split; [done|]. unfold remaining at 1. by rewrite Hm.
Qed.

Lemma ReadAll_spec fuel n acc cat : 0 < n → cat_wf cat → closed cat = true → reading cat = Idle →
  (length (remaining cat) < fuel)%nat →
  ∃ cat', ReadAll fuel n acc cat = Ok (acc ++ remaining cat, cat') ∧ remaining cat' = [].
Proof.
  intros Hn. revert acc cat. induction fuel as [|fuel IH]; intros acc cat Hwf Hcl Hidle Hf; [lia|].
  cbn [ReadAll]. destruct (ReadCall_spec n cat Hn Hwf Hcl Hidle) as (bs & e & cat' & -> & Hwf' & Hcl' & Hidle' & Hrem & He).
  destruct He as [[-> Hbs]|(-> & -> & Hnil)].
  - rewrite Hrem, length_app in Hf. destruct (IH (acc ++ bs) cat' Hwf' Hcl' Hidle') as (cat'' & Hrun & Hnil).
    { destruct bs; [done|]. cbn [length] in Hf. lia. }
    exists cat''. split; [|done]. by rewrite Hrun, Hrem, (assoc_L (++)).
  - exists cat'. by rewrite Hrem, Hnil, !app_nil_r.
Qed.
End delivered.
