(* ===== verification/Frame.v ===== *)
(** * HTTP/QUIC frames (frame.go)

    Variable-length integers and frames over the bit reader and writer. A frame
    is its payload's length, a type byte and the payload. *)

From S2P Require Import Prelude Bits GoIo BitWriter BitReader Streams.

(** [FrameType] is a byte; the named values are these. *)
Definition frameData : Z := 0.
Definition frameHeaders : Z := 1.
Definition framePriority : Z := 2.
Definition frameCancelPush : Z := 3.
Definition frameSettings : Z := 4.
Definition framePushPromise : Z := 5.
Definition frameGoaway : Z := 7.
Definition frameMaxPushID : Z := 13.

(** [FrameType.String]. *)
Definition FrameType_String (ft : Z) : string :=
  if ft =? frameData then "DATA"%string
   else if ft =? frameHeaders then "HEADERS"%string
   else if ft =? framePriority then "PRIORITY"%string
   else if ft =? frameCancelPush then "CANCEL_PUSH"%string
   else if ft =? frameSettings then "SETTINGS"%string
   else if ft =? framePushPromise then "PUSH_PROMISE"%string
   else if ft =? frameGoaway then "GOAWAY"%string
   else if ft =? frameMaxPushID then "MAX_PUSH_ID"%string
   else "UNKNOWN!"%string.

(** ** Reader: a [frameReader] is its bit reader *)

Section reader.
Context {R : Type} `{IoReader R}.

Definition ReadVarint : go (bitReader R) Z :=
  len ← ReadBits 2;
  ReadBits (u8 (u8 (Z.shiftl 8 len) - 2)).

(** [ReadFrame] returns the type and the length; [Limited len] is the reader it
    returns for the payload. *)
Definition ReadFrame : go (bitReader R) (Z * Z) :=
  len ← ReadVarint;
  t ← ReadByte;
  mret (t, len).

(** Running [m] on [fr.Limited(n)]: a new bit reader over a limited reader over
    this one. *)
Definition on_Limited {A} (n : Z) (m : go (bitReader (LimitedReader (bitReader R))) A)
  : go (bitReader R) A :=
  zoom (λ br, NewBitReader (MkLimitedReader br (i64 n))) (λ fr _, lim_R (br_reader fr)) m.

Definition CheckForEOF : go (bitReader R) unit :=
  '(p, err) ← Read 1;
  match err with
  | Some EOF | None => if 0 <? zlen p then fail ErrExtraData else mret tt
  | Some e => fail e
  end.
End reader.

(** ** Writer *)

Section writer.
Context {W : Type} `{IoWriter W}.

(** The size class of a value: [None] when it is too large. *)
Definition varintSize (v : Z) : option Z :=
  if 2 ^ 62 <=? v then None
  else if 2 ^ 30 <=? v then Some 3
  else if 2 ^ 14 <=? v then Some 2
  else if 2 ^ 6 <=? v then Some 1
  else Some 0.

(** An error of the second write is dropped, as the source has it. *)
Definition WriteVarint (v : Z) : go (bitWriter W) (Z * option goerr) :=
  match varintSize v with
  | None => mret (0, Some ErrTooLarge)
  | Some size =>
      r ← catch (WriteBits size 2);
      match r with
      | inr err => mret (0, Some err)
      | inl _ =>
          let n := u8 (Z.shiftl 1 size) in
          r ← catch (WriteBits v (u8 (u8 (n * 8) - 2)));
          match r with
          | inr _ => mret (0, None)
          | inl _ => mret (n, None)
          end
      end
  end.

Definition WriteFrame (t : Z) (p : list Z) : go (bitWriter W) (Z * option goerr) :=
  '(written, err) ← WriteVarint (zlen p);
  match err with
  | Some e => mret (written, Some e)
  | None =>
      r ← catch (WriteByte t);
      match r with
      | inr err => mret (written, Some err)
      | inl _ =>
          '(n, err) ← CopyBytes Write p;
          mret (i64 (written + n + 2), err)
      end
  end.
End writer.

(** ** The reference encoding *)

Definition varint_bits (v : Z) : list bool :=
  match varintSize v with
  | Some size => zbits 2 size ++ zbits (8 * 2 ^ size - 2) v
  | None => []
  end.

Definition frame_bits (t : Z) (p : list Z) : list bool :=
  varint_bits (zlen p) ++ zbits 8 t ++ bits_of_bytes p.

(** The number of bytes of a value's encoding. *)
Definition varint_len (v : Z) : Z :=
  match varintSize v with Some size => 2 ^ size | None => 0 end.

Lemma varintSize_spec v : 0 ≤ v < 2 ^ 62 →
  ∃ size, varintSize v = Some size ∧ 0 ≤ size ≤ 3 ∧ v < 2 ^ (8 * 2 ^ size - 2) ∧
  (0 < size → 2 ^ (8 * 2 ^ (size - 1) - 2) ≤ v).
Proof.
  intros Hv. unfold varintSize. rewrite (proj2 (Z.leb_gt (2 ^ 62) v)) by lia.
  destruct (Z.leb_spec (2 ^ 30) v); [by exists 3; split_and!; [..|lia|]|].
  destruct (Z.leb_spec (2 ^ 14) v); [by exists 2; split_and!; [..|lia|]|].
  destruct (Z.leb_spec (2 ^ 6) v); [by exists 1; split_and!; [..|lia|]|].
  exists 0. split_and!; [done|lia|lia|change (v < 2 ^ 6); lia|lia].
Qed.

Lemma size_cases size : 0 ≤ size ≤ 3 → size = 0 ∨ size = 1 ∨ size = 2 ∨ size = 3.
Proof. lia. Qed.

Lemma zlen_varint_bits v : 0 ≤ v < 2 ^ 62 → zlen (varint_bits v) = 8 * varint_len v.
Proof.
  intros Hv. unfold varint_bits, varint_len.
  destruct (varintSize_spec v Hv) as (size & -> & Hs & _).
  destruct (size_cases _ Hs) as [->|[->|[->| ->]]]; by zlen_simpl.
Qed.

Lemma varint_len_range v : 0 ≤ v < 2 ^ 62 → 1 ≤ varint_len v ≤ 8.
Proof.
  intros Hv. unfold varint_len. destruct (varintSize_spec v Hv) as (size & -> & Hs & _).
  by destruct (size_cases _ Hs) as [->|[->|[->| ->]]].
Qed.

Lemma frame_bits_length ft p : zlen p < 2 ^ 62 → (8 * length p + 16 ≤ length (frame_bits ft p))%nat.
Proof.
  intros Hlen. pose proof (zlen_nonneg p). pose proof (zlen_varint_bits (zlen p) ltac:(lia)) as Hv.
  pose proof (varint_len_range (zlen p) ltac:(lia)).
  enough (8 * zlen p + 16 ≤ zlen (frame_bits ft p)) by (unfold zlen in *; lia).
  unfold frame_bits. zlen_simpl. lia.
Qed.

Section writer_spec.
Context {W : Type} `{IoWriterSpec W} `{!IoWriterTotal W}.

Lemma WriteVarint_writes v : 0 ≤ v < 2 ^ 62 →
  writes (WriteVarint (W := W) v) (varint_len v, None) (varint_bits v).
Proof.
  intros Hv. unfold WriteVarint, varint_bits, varint_len.
  destruct (varintSize_spec v Hv) as (size & -> & Hs & Hlt & _).
  eapply writes_bind.
  { apply writes_catch, WriteBits_writes; [done|]. change (2 ^ 2) with 4. lia. }
  cbv beta iota zeta. rewrite <- (app_nil_r (zbits (8 * _ - 2) v)).
  assert (u8 (u8 (u8 (Z.shiftl 1 size) * 8) - 2) = 8 * 2 ^ size - 2 ∧
          u8 (Z.shiftl 1 size) = 2 ^ size ∧ 0 ≤ 8 * 2 ^ size - 2 ≤ 64) as (-> & -> & ?)
    by by destruct (size_cases _ Hs) as [->|[->|[->| ->]]].
  eapply writes_bind; [apply writes_catch, WriteBits_writes; lia|]. apply writes_ret.
Qed.

Lemma WriteFrame_writes t p : is_byte t → Forall is_byte p → zlen p < 2 ^ 62 →
  writes (WriteFrame (W := W) t p) (varint_len (zlen p) + zlen p + 2, None) (frame_bits t p).
Proof.
  intros Ht Hp Hlen. pose proof (zlen_nonneg p). unfold WriteFrame, frame_bits.
  eapply writes_bind; [apply WriteVarint_writes; lia|]. cbv beta iota.
  eapply writes_bind; [by apply writes_catch, WriteByte_writes|]. cbv beta iota.
  rewrite <- (app_nil_r (bits_of_bytes p)).
  eapply writes_bind; [by apply CopyBytes_writes|]. cbv beta iota.
  pose proof (varint_len_range (zlen p) ltac:(lia)).
  rewrite i64_small by lia. apply writes_ret.
Qed.
End writer_spec.

(** A frame as bytes. *)
Lemma zlen_frame_bits ft p : 0 ≤ zlen p < 2 ^ 62 → ∃ k, zlen (frame_bits ft p) = 8 * k.
Proof.
  intros Hp. exists (varint_len (zlen p) + 1 + zlen p). unfold frame_bits. zlen_simpl.
  rewrite zlen_varint_bits by done. lia.
Qed.

Lemma WriteFrame_bytes ft p (w : bitWriter Buffer) : is_byte ft → Forall is_byte p → zlen p < 2 ^ 62 → at_byte w →
  ∃ n w' bs, WriteFrame ft p w = (Ok (n, None), w') ∧ at_byte w' ∧
    buf_bytes (bw_writer w') = buf_bytes (bw_writer w) ++ bs ∧ Forall is_byte bs ∧ bits_of_bytes bs = frame_bits ft p.
Proof.
  intros Hft Hp Hlen Hat. pose proof (zlen_nonneg p). destruct (zlen_frame_bits ft p) as [k Hk]; [lia|].
  destruct (swrites_whole (W := Buffer) (λ _ w, w) (WriteFrame ft p) tt (frame_bits ft p)
    (varint_len (zlen p) + zlen p + 2, None) tt k w) as (w' & bs & Hr & Hw & Hac & Hbs & Hbits); [|done..|].
  { intros bw Hw. by apply (WriteFrame_writes ft p Hft Hp Hlen bw Hw). }
  by eexists _, w', bs.
Qed.

Section reader_spec.
Context {R : Type} `{IoReaderSpec R}.

Lemma ReadVarint_reads v : 0 ≤ v < 2 ^ 62 → reads (ReadVarint (R := R)) v (varint_bits v).
Proof.
  intros Hv. unfold ReadVarint, varint_bits.
  destruct (varintSize_spec v Hv) as (size & -> & Hs & Hlt & _).
  eapply reads_bind; [apply ReadBits_reads; [done|change (2 ^ 2) with 4; lia]|].
  assert (u8 (u8 (Z.shiftl 8 size) - 2) = 8 * 2 ^ size - 2 ∧ 0 ≤ 8 * 2 ^ size - 2 ≤ 64) as (-> & ?)
    by by destruct (size_cases _ Hs) as [->|[->|[->| ->]]].
  apply ReadBits_reads; lia.
Qed.

Lemma ReadVarint_fetches : fetches (ReadVarint (R := R)).
Proof.
  unfold ReadVarint. apply fetches_bind; [by apply ReadBits_fetches|]. intros br size br' Hwf Hr.
  apply ReadBits_fetches. destruct (ReadBits_spec 2 br Hwf) as (br1 & _ & Hs); [done|].
  destruct (Z.leb_spec 2 (zlen (rbits br))); destruct Hs as [Hs _]; rewrite Hs in Hr; [|done].
  injection Hr as <- <-. pose proof (val_of_bound (ztake 2 (rbits br))) as Hb.
  rewrite zlen_ztake, Z.min_l in Hb by lia. change (2 ^ 2) with 4 in Hb.
  by destruct (size_cases (val_of (ztake 2 (rbits br)))) as [->|[->|[->| ->]]]; [lia|..].
Qed.

(** The integer at the start of any bits, and the rest. *)
Definition take_varint (l : list bool) : option (Z * list bool) :=
  if zlen l <? 2 then None else
  let n := 8 * 2 ^ val_of (ztake 2 l) - 2 in
  let l' := zdrop 2 l in
  if zlen l' <? n then None else Some (val_of (ztake n l'), zdrop n l').

Lemma take_varint_bits v l : 0 ≤ v < 2 ^ 62 → take_varint (varint_bits v ++ l) = Some (v, l).
Proof.
  intros Hv. unfold take_varint, varint_bits. destruct (varintSize_spec v Hv) as (size & -> & Hs & Hlt & _).
  rewrite <- (assoc_L (++)). pose proof (zlen_nonneg l).
  assert (0 ≤ 8 * 2 ^ size - 2) as Hn by by destruct (size_cases _ Hs) as [->|[->|[->| ->]]].
  rewrite ztake_app, zdrop_app by done. rewrite val_of_zbits_small by (change (2 ^ 2) with 4; lia). cbv zeta.
  rewrite ztake_app, zdrop_app by by rewrite zlen_zbits. rewrite val_of_zbits_small by lia. zlen_simpl.
  by rewrite !(proj2 (Z.ltb_ge _ _)) by lia.
Qed.

Lemma ReadVarint_exact br : br_wf br → ∃ br', br_wf br' ∧
  match take_varint (rbits br) with
  | Some (v, l) => ReadVarint br = (Ok v, br') ∧ rbits br' = l
  | None => ReadVarint br = (Err EOF, br')
  end.
Proof.
  intros Hwf. unfold ReadVarint, take_varint. destruct (ReadBits_spec 2 br Hwf) as (br1 & Hwf1 & Hs); [done|].
  destruct (Z.ltb_spec (zlen (rbits br)) 2).
  { rewrite (proj2 (Z.leb_gt _ _)) in Hs by lia. destruct Hs as [Hs _]. exists br1.
    by rewrite (bind_Err _ _ _ _ _ Hs). }
  rewrite (proj2 (Z.leb_le _ _)) in Hs by lia. destruct Hs as [Hs Hl1]. rewrite (bind_Ok _ _ _ _ _ Hs).
  pose proof (val_of_bound (ztake 2 (rbits br))) as Hb. rewrite zlen_ztake, Z.min_l in Hb by lia. change (2 ^ 2) with 4 in Hb.
  assert (u8 (u8 (Z.shiftl 8 (val_of (ztake 2 (rbits br)))) - 2) = 8 * 2 ^ val_of (ztake 2 (rbits br)) - 2 ∧
    0 ≤ 8 * 2 ^ val_of (ztake 2 (rbits br)) - 2 ≤ 64) as (-> & Hn)
    by by destruct (size_cases (val_of (ztake 2 (rbits br)))) as [->|[->|[->| ->]]]; [lia|..].
  destruct (ReadBits_spec _ br1 Hwf1 Hn) as (br2 & Hwf2 & Hs2). rewrite Hl1 in Hs2. exists br2. split; [done|].
  cbv zeta. destruct (Z.ltb_spec (zlen (zdrop 2 (rbits br))) (8 * 2 ^ val_of (ztake 2 (rbits br)) - 2)).
  - rewrite (proj2 (Z.leb_gt _ _)) in Hs2 by lia. by destruct Hs2.
  - by rewrite (proj2 (Z.leb_le _ _)) in Hs2 by lia.
Qed.

(** A value or the end of the stream. *)
Lemma ReadVarint_range br : br_wf br → ∃ o br', ReadVarint br = (o, br') ∧ br_wf br' ∧
  ((∃ v, o = Ok v ∧ 0 ≤ v) ∨ o = Err EOF).
Proof.
  intros Hwf. destruct (ReadVarint_exact br Hwf) as (br' & Hwf' & Hr). unfold take_varint in Hr.
  destruct (_ <? 2); [|destruct (_ <? _)].
  - by exists (Err EOF), br'; split_and!; [..|right].
  - by exists (Err EOF), br'; split_and!; [..|right].
  - destruct Hr as [Hr _]. eexists _, br'. split_and!; [exact Hr|done|left]. eexists. split; [done|].
    apply val_of_bound.
Qed.

(** The rest of a payload: [CheckForEOF] refuses any whole byte. *)
Lemma CheckForEOF_exact br : br_wf br → ∃ br', br_wf br' ∧
  if zlen (rbits br) <? 8 then CheckForEOF br = (Ok tt, br') ∧ rbits br' = rbits br
  else CheckForEOF br = (Err ErrExtraData, br').
Proof.
  intros Hwf. destruct (Read_spec (IoReaderSpec := bitReader_spec) 1 br Hwf) as (bs & e & br' & Hr & Hwf' & Hc & Hres & Hlen & He); [done|].
  exists br'. split; [done|]. unfold CheckForEOF. change (io_Read 1) with (Read (R := R) 1) in Hr. rewrite (bind_Ok _ _ _ _ _ Hr).
  cbn in Hc, Hres. assert (e = Some EOF ∨ e = None) as Hee by (destruct He as [[-> _]|[-> _]]; auto).
  assert (match e with Some EOF | None => if 0 <? zlen bs then fail ErrExtraData else mret tt | Some e => fail e end =
    (if 0 <? zlen bs then fail ErrExtraData else mret tt : go (bitReader R) unit)) as -> by by destruct Hee as [-> | ->].
  pose proof (f_equal zlen (bits_split_trailing (rbits br))) as Hz. rewrite zlen_app, zlen_bits_of_bytes in Hz.
  pose proof (trailing_short (rbits br)) as Ht. destruct bs as [|b bs].
  - assert (bytes_of_bits (rbits br') = []) as Hnil by (destruct He as [[_ Hne]|(_ & Hnil & _)]; [done|exact Hnil]).
    rewrite Hc, Hnil in Hz. cbn [app] in Hz. rewrite (zlen_nil (A := Z)) in Hz. rewrite (proj2 (Z.ltb_lt _ _)) by lia. split; [done|].
    rewrite (bits_split_trailing (rbits br')), (bits_split_trailing (rbits br)), Hc, Hnil, Hres. done.
  - rewrite zlen_cons. pose proof (zlen_nonneg bs). rewrite (proj2 (Z.ltb_lt 0 _)) by lia.
    rewrite Hc in Hz. cbn [app] in Hz. rewrite zlen_cons in Hz. pose proof (zlen_nonneg (bs ++ bytes_of_bits (rbits br'))).
    pose proof (zlen_nonneg (trailing (rbits br))). by rewrite (proj2 (Z.ltb_ge _ _)) by lia.
Qed.

Lemma ReadFrame_reads t len : is_byte t → 0 ≤ len < 2 ^ 62 →
  reads (ReadFrame (R := R)) (t, len) (varint_bits len ++ zbits 8 t).
Proof.
  intros Ht Hl. eapply reads_bind; [by apply ReadVarint_reads|].
  rewrite <- (app_nil_r (zbits 8 t)). eapply reads_bind; [by apply ReadByte_reads|]. apply reads_ret.
Qed.

(** A stream that ends within the header of a frame. *)
Lemma ReadVarint_cut v : 0 ≤ v < 2 ^ 62 → cut (ReadVarint (R := R)) (varint_bits v).
Proof.
  intros Hv. unfold ReadVarint, varint_bits.
  destruct (varintSize_spec v Hv) as (size & -> & Hs & Hlt & _).
  assert (u8 (u8 (Z.shiftl 8 size) - 2) = 8 * 2 ^ size - 2 ∧ 0 ≤ 8 * 2 ^ size - 2 ≤ 64) as (Hu & ?)
    by by destruct (size_cases _ Hs) as [->|[->|[->| ->]]].
  apply (cut_bind _ _ size); [apply ReadBits_reads; [done|change (2 ^ 2) with 4; lia]|by apply ReadBits_cut|].
  rewrite Hu. by apply ReadBits_cut.
Qed.

Lemma ReadFrame_cut t len : is_byte t → 0 ≤ len < 2 ^ 62 →
  cut (ReadFrame (R := R)) (varint_bits len ++ zbits 8 t).
Proof.
  intros Ht Hl. apply (cut_bind _ _ len); [by apply ReadVarint_reads|by apply ReadVarint_cut|].
  rewrite <- (app_nil_r (zbits 8 t)).
  apply (cut_bind _ _ t); [by apply ReadByte_reads|by apply ReadByte_cut|apply cut_nil].
Qed.

(** The payload as a stream of its own: what is taken from it is taken from the
    stream below. *)
Lemma limited_start (br : bitReader R) n : br_wf br → 0 ≤ n < 2 ^ 63 →
  br_wf (H0 := LimitedReader_spec br n) (NewBitReader (MkLimitedReader br (i64 n))) ∧
  rbits (H0 := LimitedReader_spec br n) (NewBitReader (MkLimitedReader br (i64 n))) =
    bits_of_bytes (ztake n (bytes_of_bits (rbits br))).
Proof.
  intros Hwf Hn. rewrite i64_small by lia. split; [split; [by apply limited_init|done]|]. done.
Qed.

(** A payload of [n] bytes, or what there is of it before the stream ends. *)
Definition payload_at (br : bitReader R) (n : Z) (p : list Z) (l : list bool) : Prop :=
  br_wf br ∧ 0 ≤ n < 2 ^ 63 ∧ rbits br = bits_of_bytes p ++ l ∧
  (zlen p = n ∨ zlen p < n ∧ l = []).

Lemma payload_take br n p l : Forall is_byte p → payload_at br n p l →
  ztake n (bytes_of_bits (rbits br)) = p.
Proof.
  intros Hp (_ & Hn & -> & [<-|[Hlt ->]]); rewrite bytes_of_bits_of_bytes by done.
  - by rewrite ztake_app.
  - rewrite app_nil_r. apply ztake_all. lia.
Qed.

(** When the payload has been read, the stream is after it. *)
Lemma limited_end br n p l (fr' : bitReader (LimitedReader (bitReader R))) :
  Forall is_byte p → payload_at br n p l →
  br_wf (H0 := LimitedReader_spec br n) fr' → rbits (H0 := LimitedReader_spec br n) fr' = [] →
  br_wf (lim_R (br_reader fr')) ∧ rbits (lim_R (br_reader fr')) = l.
Proof.
  intros Hp Hat Hfr Hnil. pose (I := LimitedReader_spec br n).
  pose proof (payload_take br n p l Hp Hat) as Htake. destruct Hat as (Hwf & Hn & Hl & _).
  destruct Hfr as [Hwf' _]. destruct (limited_bits br n (br_reader fr') Hwf') as (Hbr' & pre & Hbits & Hpre).
  split; [done|]. unfold rbits in Hnil. apply app_eq_nil in Hnil as [_ Hnil%(f_equal zlen)]. zlen_simpl.
  rewrite (zlen_0 (content (br_reader fr'))), app_nil_r, Htake in Hpre
    by by apply (Z.mul_reg_l _ 0 8).
  subst pre. rewrite Hl in Hbits. by apply app_inv_head in Hbits.
Qed.

(** What reads the whole payload leaves the stream after it. *)
Lemma on_Limited_end {A} (m : go (bitReader (LimitedReader (bitReader R))) A) a n p br l :
  Forall is_byte p → payload_at br n p l →
  drains (H0 := LimitedReader_spec br n) m a (bits_of_bytes p) →
  ∃ br', on_Limited n m br = (Ok a, br') ∧ br_wf br' ∧ rbits br' = l.
Proof.
  intros Hp Hat Hm. pose proof Hat as (Hwf & Hn & _).
  destruct (limited_start br n Hwf Hn) as [Hfr Hfl]. rewrite (payload_take br n p l Hp Hat) in Hfl.
  destruct (Hm _ Hfr Hfl) as (fr' & Hr & Hwf' & Hnil).
  exists (lim_R (br_reader fr')). unfold on_Limited, zoom. rewrite Hr. split; [done|].
  by apply (limited_end br n p l).
Qed.

Lemma on_Limited_drains {A} (m : go (bitReader (LimitedReader (bitReader R))) A) a p :
  Forall is_byte p → zlen p < 2 ^ 63 →
  (∀ br, drains (H0 := LimitedReader_spec br (zlen p)) m a (bits_of_bytes p)) →
  reads (on_Limited (zlen p) m) a (bits_of_bytes p).
Proof.
  intros Hp Hn Hm br l Hwf Hl. pose proof (zlen_nonneg p).
  apply (on_Limited_end m a (zlen p) p br l Hp); [by split_and!; [..|left]|done].
Qed.

Lemma on_Limited_reads {A} (m : go (bitReader (LimitedReader (bitReader R))) A) a p :
  Forall is_byte p → zlen p < 2 ^ 63 →
  (∀ br, reads (H0 := LimitedReader_spec br (zlen p)) m a (bits_of_bytes p)) →
  reads (on_Limited (zlen p) m) a (bits_of_bytes p).
Proof. intros Hp Hn Hm. apply on_Limited_drains; [done..|]. intros br. by apply reads_drains. Qed.

(** Whatever is run on a payload takes from the stream below. *)
Lemma on_Limited_takes {A} n (m : go (bitReader (LimitedReader (bitReader R))) A) (P : outcome A → Prop) br :
  br_wf br → (∀ fr, br_wf (H0 := LimitedReader_spec br (i64 n)) fr →
    zlen (rbits (H0 := LimitedReader_spec br (i64 n)) fr) ≤ zlen (rbits br) →
    ∃ o fr', m fr = (o, fr') ∧ br_wf (H0 := LimitedReader_spec br (i64 n)) fr' ∧ P o) →
  ∃ o br', on_Limited n m br = (o, br') ∧ br_wf br' ∧ P o ∧ ∃ bits, rbits br = bits ++ rbits br'.
Proof.
  intros Hwf Hm. pose (I := LimitedReader_spec br (i64 n)).
  set (fr := NewBitReader (MkLimitedReader br (i64 n))).
  assert (br_wf fr) as Hfr by (split; [by apply limited_init|done]).
  assert (zlen (rbits fr) ≤ zlen (rbits br)) as Hle.
  { change (rbits fr) with (bits_of_bytes (ztake (i64 n) (bytes_of_bits (rbits br)))).
    rewrite (bits_split_trailing (rbits br)) at 2. rewrite zlen_app, !zlen_bits_of_bytes.
    pose proof (f_equal zlen (ztake_zdrop (i64 n) (bytes_of_bits (rbits br)))) as Hz. zlen_simpl.
    pose proof (zlen_nonneg (zdrop (i64 n) (bytes_of_bits (rbits br)))).
    pose proof (zlen_nonneg (trailing (rbits br))). lia. }
  destruct (Hm fr Hfr Hle) as (o & fr' & Hr & [Hwf' _] & Ho).
  destruct (limited_bits br (i64 n) (br_reader fr') Hwf') as (Hbr' & pre & Hbits & _).
  exists o, (lim_R (br_reader fr')). unfold on_Limited, zoom. fold fr. rewrite Hr.
  split_and!; [done..|by eexists].
Qed.

Lemma on_Limited_fetches {A} n (m : go (bitReader (LimitedReader (bitReader R))) A) :
  (∀ br N, fetches (H0 := LimitedReader_spec br N) m) → fetches (on_Limited n m).
Proof.
  intros Hm br Hwf. apply on_Limited_takes; [done|]. intros fr Hfr.
  destruct (Hm br (i64 n) fr Hfr) as (o & fr' & ? & ? & ? & _). by exists o, fr'.
Qed.

(** A stream that ends before a frame, or within its header. *)
Definition header_cut (bits : list bool) : Prop :=
  ∃ ft len left, is_byte ft ∧ 0 ≤ len < 2 ^ 62 ∧ left ≠ [] ∧ varint_bits len ++ zbits 8 ft = bits ++ left.

Lemma header_cut_nil : header_cut [].
Proof. by exists 0, 0, (varint_bits 0 ++ zbits 8 0). Qed.

Lemma ReadFrame_end br : br_wf br → header_cut (rbits br) → ∃ br', ReadFrame br = (Err EOF, br').
Proof.
  intros Hwf (ft & len & left & Hft & Hlen & Hne & Heq).
  destruct (ReadFrame_cut ft len Hft Hlen br _ left Hwf eq_refl Heq Hne) as (br' & ? & _). by exists br'.
Qed.
End reader_spec.
