(* ===== verification/HcInt.v ===== *)
(** * HPACK integers (hc/io.go)

    [ReadInt], [ReadIndex] and [WriteInt] over the bit reader and writer, with
    the reference encoding they implement: a prefix of ones followed by 7-bit
    groups, least significant first. *)

From S2P Require Import Prelude Bits GoIo BitWriter BitReader.

Section reader.
Context {R : Type} `{IoReader R}.

(** [s] is 0, 7, ..., 63 in turn: ten rounds. *)
Fixpoint ReadInt_loop (fuel : nat) (v s : Z) : go (bitReader R) Z :=
  if s <? 64 then
    match fuel with
    | O => nofuel
    | S fuel' =>
        b ← ReadBits 8;
        if (s =? 63) && ((1 <? b) || ((b =? 1) && (Z.shiftr v 63 =? 1)))
        then fail ErrIntegerOverflow
        else
          let v' := u64 (v + u64 (Z.shiftl (Z.land b 0x7f) s)) in
          if Z.land b 0x80 =? 0 then mret v' else ReadInt_loop fuel' v' (u8 (s + 7))
    end
  else mret v.

Definition ReadInt (prefix : Z) : go (bitReader R) Z :=
  v ← ReadBits prefix;
  if v <? u64 (Z.shiftl 1 prefix - 1) then mret v else ReadInt_loop 10 v 0.

Definition ReadIndex (prefix : Z) : go (bitReader R) Z :=
  offset ← ReadInt prefix;
  if intMax <? offset then fail ErrIntegerOverflow else mret (i64 offset).
End reader.

Section writer.
Context {W : Type} `{IoWriter W}.

(** A 64-bit value has at most ten 7-bit groups. *)
Fixpoint WriteInt_loop (fuel : nat) (p : Z) : go (bitWriter W) unit :=
  match fuel with
  | O => nofuel
  | S fuel' =>
      let b := u8 (Z.land p 0x7f) in
      let p' := Z.shiftr p 7 in
      if 0 <? p' then WriteByte (Z.lor b 0x80);; WriteInt_loop fuel' p'
      else WriteByte b
  end.

Definition WriteInt (p prefix : Z) : go (bitWriter W) unit :=
  if (8 <? prefix) || (prefix =? 0) then panic else
  let ones := u64 (u64 (Z.shiftl 1 prefix) - 1) in
  if p <? ones then WriteBits p prefix
  else WriteBits ones prefix;; WriteInt_loop 10 (u64 (p - ones)).
End writer.

(** ** The reference encoding *)

Fixpoint leb (fuel : nat) (p : Z) : list Z :=
  match fuel with
  | O => []
  | S fuel' => if p <? 128 then [p] else (p mod 128 + 128) :: leb fuel' (p / 128)
  end.

Definition int_bits (prefix p : Z) : list bool :=
  let ones := 2 ^ prefix - 1 in
  if p <? ones then zbits prefix p
  else zbits prefix ones ++ bits_of_bytes (leb 10 (p - ones)).

(** With its prefix filled up, an integer is a whole number of bytes. *)
Lemma zlen_int_bits prefix p : 0 ≤ prefix → ∃ k, zlen (int_bits prefix p) = prefix + 8 * k.
Proof.
  intros Hp. unfold int_bits. destruct (_ <? _); zlen_simpl; [exists 0; lia|by eexists].
Qed.

(** Any group sequence that stands for [v], shortest or not. *)
Inductive groups : list Z → Z → Prop :=
| groups_last b : 0 ≤ b < 128 → groups [b] b
| groups_more b bs v : 128 ≤ b < 256 → groups bs v → groups (b :: bs) (b - 128 + 128 * v).

Lemma byte_forall (P : Z → bool) :
  forallb P (Z.of_nat <$> seq 0 256) = true → ∀ b, is_byte b → P b = true.
Proof.
  intros HP b Hb. rewrite forallb_forall in HP. apply HP. unfold is_byte in Hb.
  rewrite <- (Z2Nat.id b) by lia. apply in_map, in_seq. lia.
Qed.

Lemma land_127 b : Z.land b 127 = b mod 128.
Proof. change 127 with (Z.ones 7). by rewrite Z.land_ones. Qed.

Lemma land_128 b : is_byte b → (Z.land b 128 =? 0) = (b <? 128).
Proof.
  intros Hb. apply eqb_prop. revert b Hb. by apply byte_forall.
Qed.

Lemma lor_128 x : 0 ≤ x < 128 → Z.lor x 128 = x + 128.
Proof.
  intros Hx. apply Z.eqb_eq. assert (is_byte x) as Hb by (unfold is_byte; lia).
  pose proof (byte_forall (λ b, (128 <=? b) || (Z.lor b 128 =? b + 128)) eq_refl x Hb) as Hl.
  cbn beta in Hl. by rewrite (proj2 (Z.leb_gt _ _)) in Hl by lia.
Qed.

(** ** The writer produces the reference encoding *)

Section writer_spec.
Context {W : Type} `{IoWriterSpec W} `{!IoWriterTotal W}.

Lemma WriteInt_loop_writes fuel p : 0 ≤ p < 2 ^ (7 * Z.of_nat fuel) → (0 < fuel)%nat →
  writes (WriteInt_loop (W := W) fuel p) tt (bits_of_bytes (leb fuel p)).
Proof.
  revert p. induction fuel as [|fuel IH]; intros p Hp Hf; [lia|]. cbn [WriteInt_loop leb].
  rewrite land_127, Z.shiftr_div_pow2 by done. change (2 ^ 7) with 128.
  pose proof (Z.mod_pos_bound p 128). rewrite u8_small by lia.
  destruct (Z.ltb_spec 0 (p / 128)) as [Hq|Hq]; destruct (Z.ltb_spec p 128) as [Hs|Hs].
  - rewrite Z.div_small in Hq; lia.
  - rewrite bits_of_bytes_cons, lor_128 by lia.
    eapply writes_bind; [apply WriteByte_writes; unfold is_byte; lia|].
    destruct fuel as [|fuel]; [lia|]. apply IH; [|lia].
    split; [lia|]. apply Z.div_lt_upper_bound; [lia|].
    replace (7 * Z.of_nat (S (S fuel))) with (7 + 7 * Z.of_nat (S fuel)) in Hp by lia.
    rewrite Z.pow_add_r in Hp by lia. lia.
  - rewrite bits_of_bytes_one, Z.mod_small by lia.
    apply WriteByte_writes. unfold is_byte. lia.
  - pose proof (Z.div_le_lower_bound p 128 1). lia.
Qed.

Lemma WriteInt_writes p prefix : is_u64 p → 1 ≤ prefix ≤ 8 →
  writes (WriteInt p prefix) tt (int_bits prefix p).
Proof.
  intros Hp Hpre. unfold WriteInt, int_bits, is_u64 in *.
  rewrite (proj2 (Z.ltb_ge 8 prefix)), (proj2 (Z.eqb_neq prefix 0)) by lia. cbn [orb].
  rewrite Z.shiftl_1_l. assert (2 ≤ 2 ^ prefix ≤ 256) as Hpow.
  { split; [apply (Z.pow_le_mono_r 2 1)|apply (Z.pow_le_mono_r 2 _ 8)]; lia. }
  rewrite !u64_small by (rewrite ?u64_small; lia).
  destruct (Z.ltb_spec p (2 ^ prefix - 1)).
  - apply WriteBits_writes; lia.
  - eapply writes_bind; [apply WriteBits_writes; lia|]. rewrite u64_small by lia.
    apply WriteInt_loop_writes; lia.
Qed.
End writer_spec.

(** ** The reader inverts it, and never wraps around *)

Section reader_spec.
Context {R : Type} `{IoReaderSpec R}.

Lemma ReadInt_loop_reads fuel q v s :
  (0 < fuel)%nat → s = 7 * (10 - Z.of_nat fuel) → (fuel ≤ 10)%nat →
  0 ≤ q → 0 ≤ v → v + q * 2 ^ s < 2 ^ 64 →
  reads (ReadInt_loop (R := R) fuel v s) (v + q * 2 ^ s) (bits_of_bytes (leb fuel q)).
Proof.
  revert q v s. induction fuel as [|fuel IH]; intros q v s Hpos Hs Hf Hq Hv Hlt; [lia|].
  cbn [ReadInt_loop leb]. rewrite (proj2 (Z.ltb_lt s 64)) by lia.
  assert (0 < 2 ^ s) by (apply Z.pow_pos_nonneg; lia).
  pose proof (Z.mod_pos_bound q 128). pose proof (Z.div_mod q 128).
  destruct (Z.ltb_spec q 128) as [Hsm|Hbig].
  - rewrite bits_of_bytes_one, <- (app_nil_r (zbits 8 q)).
    eapply reads_bind; [apply ReadBits_reads; lia|].
    replace (_ && _) with false.
    2: { symmetry. destruct (Z.eqb_spec s 63) as [->|]; [|done].
         rewrite (proj2 (Z.ltb_ge 1 q)) by lia. destruct (Z.eqb_spec q 1); [|done].
         rewrite Z.shiftr_div_pow2, Z.div_small by lia. done. }
    rewrite land_127, land_128, (proj2 (Z.ltb_lt q 128)), (Z.mod_small q) by (unfold is_byte; lia).
    rewrite Z.shiftl_mul_pow2, (u64_small (q * _)), u64_small by nia. apply reads_ret.
  - destruct fuel as [|fuel].
    { replace s with 63 in Hlt by lia. lia. }
    rewrite bits_of_bytes_cons.
    eapply reads_bind; [apply ReadBits_reads; lia|].
    rewrite (proj2 (Z.eqb_neq s 63)) by lia. cbn [andb].
    rewrite land_127, land_128, (proj2 (Z.ltb_ge _ 128)) by (unfold is_byte; lia).
    replace ((q mod 128 + 128) mod 128) with (q mod 128)
      by (Z.to_euclidean_division_equations; lia).
    rewrite Z.shiftl_mul_pow2, (u64_small (_ * _)), u64_small, u8_small by nia.
    replace (v + q * 2 ^ s) with (v + q mod 128 * 2 ^ s + q / 128 * 2 ^ (s + 7)).
    2: { rewrite Z.pow_add_r by lia. change (2 ^ 7) with 128. nia. }
    apply IH; try lia. rewrite Z.pow_add_r by lia. change (2 ^ 7) with 128. nia.
Qed.

Lemma ReadInt_reads p prefix : is_u64 p → 1 ≤ prefix ≤ 8 →
  reads (ReadInt (R := R) prefix) p (int_bits prefix p).
Proof.
  intros Hp Hpre. unfold ReadInt, int_bits, is_u64 in *.
  rewrite Z.shiftl_1_l. assert (2 ≤ 2 ^ prefix ≤ 256) as Hpow.
  { split; [apply (Z.pow_le_mono_r 2 1)|apply (Z.pow_le_mono_r 2 _ 8)]; lia. }
  rewrite u64_small by lia. destruct (Z.ltb_spec p (2 ^ prefix - 1)).
  - rewrite <- (app_nil_r (zbits _ _)). eapply reads_bind; [apply ReadBits_reads; lia|].
    rewrite (proj2 (Z.ltb_lt _ _)) by lia. apply reads_ret.
  - eapply reads_bind; [apply ReadBits_reads; lia|].
    rewrite (proj2 (Z.ltb_ge _ _)) by lia.
    pose proof (ReadInt_loop_reads 10 (p - (2 ^ prefix - 1)) (2 ^ prefix - 1) 0) as Hr.
    rewrite Z.mul_1_r in Hr. replace (2 ^ prefix - 1 + _) with p in Hr by lia.
    apply Hr; lia.
Qed.

Lemma ReadIndex_reads p prefix : 0 ≤ p ≤ intMax → 1 ≤ prefix ≤ 8 →
  reads (ReadIndex (R := R) prefix) p (int_bits prefix p).
Proof.
  unfold intMax. intros Hp Hpre. rewrite <- (app_nil_r (int_bits _ _)). unfold ReadIndex.
  eapply reads_bind; [apply ReadInt_reads; [unfold is_u64; lia|done]|].
  rewrite (proj2 (Z.ltb_ge intMax p)), i64_small by (unfold intMax; lia). apply reads_ret.
Qed.

(** One round: the byte read, and where the loop goes from there. *)
Lemma ReadInt_round fuel v s (br : bitReader R) : br_wf br → 0 ≤ s < 64 →
  at_eof (ReadInt_loop (S fuel) v s) br ∨
  ∃ b br', is_byte b ∧ br_wf br' ∧ rbits br = zbits 8 b ++ rbits br' ∧
    ReadInt_loop (S fuel) v s br =
      (if (s =? 63) && ((1 <? b) || ((b =? 1) && (Z.shiftr v 63 =? 1)))
       then fail ErrIntegerOverflow
       else if b <? 128 then mret (u64 (v + u64 (b * 2 ^ s)))
       else ReadInt_loop fuel (u64 (v + u64 ((b - 128) * 2 ^ s))) (u8 (s + 7))) br'.
Proof.
  intros Hwf Hs. destruct (Z.lt_ge_cases (zlen (rbits br)) 8) as [Hshort|H8].
  - left. destruct (ReadBits_eof 8 br Hwf) as (br' & Hr & ?); [lia|done|].
    exists br'. cbn [ReadInt_loop]. by rewrite (proj2 (Z.ltb_lt s 64)), bind_unfold, Hr by lia.
  - right. destruct (split_byte _ H8) as (b & l & Hl & Hb). pose proof Hb as Hb'. unfold is_byte in Hb'.
    destruct (ReadBits_reads 8 b) with br l as (br' & Hr & Hwf' & Hl'); [lia|lia|done..|].
    exists b, br'. rewrite Hl'. split; [done|split; [done|split; [done|]]].
    cbn [ReadInt_loop]. rewrite (proj2 (Z.ltb_lt s 64)), bind_unfold, Hr by lia.
    destruct (_ && _); [done|]. rewrite land_127, land_128, Z.shiftl_mul_pow2 by (done || lia).
    destruct (Z.ltb_spec b 128).
    + by rewrite Z.mod_small by lia.
    + by replace (b mod 128) with (b - 128) by (Z.to_euclidean_division_equations; lia).
Qed.

(** Whatever the input, the loop ends with the exact value of the groups it
    read, with an overflow error after the last group it can accept, or at the
    end of the stream. *)
Lemma ReadInt_loop_sound fuel v s (br : bitReader R) :
  (0 < fuel ≤ 10)%nat → s = 7 * (10 - Z.of_nat fuel) → 0 ≤ v < 255 + 2 ^ s → br_wf br →
  (∃ bs w br', ReadInt_loop fuel v s br = (Ok (v + w * 2 ^ s), br') ∧ br_wf br' ∧
     rbits br = bits_of_bytes bs ++ rbits br' ∧ groups bs w ∧ v + w * 2 ^ s < 2 ^ 64) ∨
  (∃ bs br', ReadInt_loop fuel v s br = (Err ErrIntegerOverflow, br') ∧ br_wf br' ∧
     rbits br = bits_of_bytes bs ++ rbits br' ∧ length bs = fuel) ∨
  (∃ br', ReadInt_loop fuel v s br = (Err EOF, br') ∧ br_wf br').
Proof.
  revert v s br. induction fuel as [|fuel IH]; intros v s br Hf Hs Hv Hwf; [lia|].
  destruct (ReadInt_round fuel v s br Hwf) as [(br' & -> & ? & _)|(b & br1 & Hb & Hwf1 & Hl & ->)];
    [lia|by right; right; exists br'|]. unfold is_byte in Hb.
  assert (0 < 2 ^ s) by (apply Z.pow_pos_nonneg; lia).
  destruct (Z.eqb_spec s 63) as [Hs63|Hs63].
  - assert (fuel = 0%nat) as -> by lia. rewrite Hs63 in *.
    destruct (_ && _) eqn:Hov.
    { right; left. exists [b], br1. by rewrite bits_of_bytes_one. }
    left. cbn [andb] in Hov. apply orb_false_elim in Hov as [Hb1%Z.ltb_ge Hv1].
    rewrite (proj2 (Z.ltb_lt b 128)) by lia. exists [b], b, br1. rewrite ret_unfold.
    assert (v + b * 2 ^ 63 < 2 ^ 64).
    { destruct (Z.eqb_spec b 1) as [->|]; [|lia]. cbn [andb] in Hv1.
      rewrite Z.shiftr_div_pow2 in Hv1 by lia. apply Z.eqb_neq in Hv1.
      destruct (Z.lt_ge_cases v (2 ^ 63)); [lia|]. destruct Hv1.
      symmetry. apply (Z.div_unique_pos v (2 ^ 63) 1 (v - 2 ^ 63)); lia. }
    rewrite (u64_small (b * _)), u64_small, bits_of_bytes_one by lia.
    split_and!; [done..|constructor; lia|done].
  - assert (2 ^ s ≤ 2 ^ 56) by (apply Z.pow_le_mono_r; lia). cbn [andb].
    destruct (Z.ltb_spec b 128).
    { left. exists [b], b, br1. rewrite (u64_small (b * _)), u64_small, bits_of_bytes_one by nia.
      split_and!; [done..|constructor; lia|nia]. }
    rewrite (u64_small (_ * _)), u64_small, u8_small by nia.
    assert (2 ^ (s + 7) = 128 * 2 ^ s) as Hp7 by (rewrite Z.pow_add_r by lia; lia).
    destruct (IH (v + (b - 128) * 2 ^ s) (s + 7) br1)
      as [(bs & w & br2 & -> & ? & Hl2 & ? & ?)|[(bs & br2 & -> & ? & Hl2 & ?)|(br2 & -> & ?)]];
      [lia|lia|nia|done|..].
    + left. exists (b :: bs), (b - 128 + 128 * w), br2.
      replace (v + (b - 128 + 128 * w) * 2 ^ s)
        with (v + (b - 128) * 2 ^ s + w * 2 ^ (s + 7)) by (rewrite Hp7; ring).
      rewrite bits_of_bytes_cons, <- (assoc_L (++)), <- Hl2.
      split_and!; [done..|constructor; [lia|done]|done].
    + right; left. exists (b :: bs), br2.
      rewrite bits_of_bytes_cons, <- (assoc_L (++)), <- Hl2. cbn. by split_and!; [..|lia].
    + right; right. by exists br2.
Qed.

Lemma groups_nonneg bs w : groups bs w → 0 ≤ w.
Proof. induction 1; lia. Qed.

(** Every integer read fits 64 bits. *)
Lemma ReadInt_range prefix (br : bitReader R) v br' : br_wf br → 1 ≤ prefix ≤ 8 →
  ReadInt prefix br = (Ok v, br') → is_u64 v.
Proof.
  intros Hwf Hp. unfold ReadInt. rewrite bind_unfold.
  destruct (ReadBits_spec prefix br Hwf) as (br1 & Hwf1 & Hr); [lia|].
  assert (2 ^ prefix ≤ 2 ^ 8) by (apply Z.pow_le_mono_r; lia). unfold is_u64.
  destruct (Z.leb_spec prefix (zlen (rbits br))); destruct Hr as [-> _]; [|done].
  pose proof (val_of_bound (ztake prefix (rbits br))) as Hv.
  rewrite zlen_ztake, Z.min_l in Hv by lia.
  destruct (_ <? _); [intros [= <- <-]; lia|].
  destruct (ReadInt_loop_sound 10 (val_of (ztake prefix (rbits br))) 0 br1)
    as [(bs & w & br2 & -> & _ & _ & Hg & Hlt)|[(bs & br2 & -> & _)|(br2 & -> & _)]];
    [lia|done|lia|done| |done|done].
  intros [= <- <-]. apply groups_nonneg in Hg. lia.
Qed.

Lemma ReadInt_loop_runs fuel v : (fuel ≤ 10)%nat →
  runs (ReadInt_loop (R := R) fuel v (7 * (10 - Z.of_nat fuel))).
Proof.
  revert v. induction fuel as [|fuel IH]; intros v Hf; [apply runs_ret|].
  intros br Hwf. destruct (ReadInt_round fuel v (7 * (10 - Z.of_nat (S fuel))) br Hwf)
    as [(br' & -> & ? & Hl)|(b & br1 & Hb & Hwf1 & Hl & ->)]; [lia|..].
  { exists (Err EOF), br'. split_and!; [done..|]. exists []. by rewrite Hl. }
  rewrite u8_small by lia.
  replace (_ + 7) with (7 * (10 - Z.of_nat fuel)) by lia.
  assert (∀ {A} (m : go (bitReader R) A), runs m → ∃ o br', m br1 = (o, br') ∧ br_wf br' ∧
    returns o ∧ ∃ bits, rbits br = bits ++ rbits br') as Hcont.
  { intros A m Hm. destruct (Hm br1 Hwf1) as (o & br' & ? & ? & ? & bits & Hbits).
    exists o, br'. split_and!; [done..|]. exists (zbits 8 b ++ bits).
    by rewrite Hl, Hbits, (assoc_L (++)). }
  destruct (_ && _); [|destruct (b <? 128)]; apply Hcont;
    [by apply runs_fail|apply runs_ret|apply IH; lia].
Qed.

Lemma ReadInt_runs prefix : 0 ≤ prefix ≤ 64 → runs (ReadInt (R := R) prefix).
Proof.
  intros Hp. apply runs_bind; [by apply ReadBits_runs|]. intros v.
  destruct (_ <? _); [apply runs_ret|by apply (ReadInt_loop_runs 10)].
Qed.

Lemma ReadIndex_runs prefix : 0 ≤ prefix ≤ 64 → runs (ReadIndex (R := R) prefix).
Proof.
  intros Hp. apply runs_bind; [by apply ReadInt_runs|]. intros v.
  destruct (_ <? _); auto with runs.
Qed.
End reader_spec.

#[export] Hint Resolve ReadInt_runs ReadIndex_runs ReadBits_runs : runs.
