(* ===== verification/Huffman.v ===== *)
(** * Huffman coding (hc/huffman.go)

    The compressor over the bit writer, the decoding tree built by [makeLayer]
    and the decompressor that walks it bit by bit, with the reference decoder
    [decode] over bit strings that it implements. *)

From S2P Require Import Prelude Bits GoIo BitWriter BitReader HcInt HuffmanTable.

(** ** Compressor *)

Section compressor.
Context {W : Type} `{IoWriter W}.

(** The compressor holds nothing but its bit writer: the source's [saved] and
    [savedBits] fields are never used. *)
Fixpoint HuffmanCompressor_Write_loop (input : list Z) (i : Z)
  : go (bitWriter W) (Z * option goerr) :=
  match input with
  | [] => mret (i, None)
  | c :: input' =>
      match huffmanTable !! Z.to_nat c with
      | None => panic
      | Some entry =>
          r ← catch (WriteBits (val entry) (len entry));
          match r with
          | inl _ => HuffmanCompressor_Write_loop input' (i + 1)
          | inr err => mret (i, Some err)
          end
      end
  end.

Definition HuffmanCompressor_Write (input : list Z) : go (bitWriter W) (Z * option goerr) :=
  HuffmanCompressor_Write_loop input 0.

Definition HuffmanCompressor_Pad : go (bitWriter W) unit := Pad 0xff.
End compressor.

(** ** The decoding tree *)

(** A pointer to a [huffmanDecoderNode]: nil, or a node with its two [next]
    pointers. *)
Inductive huffmanDecoderNode : Type :=
| NilNode
| Node (next0 next1 : huffmanDecoderNode) (leaf : bool) (v : Z).

Definition is_nil (n : huffmanDecoderNode) : bool :=
  match n with NilNode => true | Node _ _ _ _ => false end.
Definition next (b : Z) (n : huffmanDecoderNode) : huffmanDecoderNode :=
  match n with NilNode => NilNode | Node n0 n1 _ _ => if b =? 0 then n0 else n1 end.
Definition is_leaf (n : huffmanDecoderNode) : bool :=
  match n with NilNode => false | Node _ _ l _ => l end.
Definition node_val (n : huffmanDecoderNode) : Z :=
  match n with NilNode => 0 | Node _ _ _ v => v end.

(** The loop of [makeLayer] over the table from index [i]: the two children
    found so far, [found], and whether the loop returned early. *)
Fixpoint makeLayer_scan (entries : list huffmanTableItem) (i prefix prefixLen : Z)
    (next0 next1 : huffmanDecoderNode) (found : bool)
  : huffmanDecoderNode * huffmanDecoderNode * bool * bool :=
  match entries with
  | [] => (next0, next1, found, false)
  | e :: entries' =>
      if len e <? u8 (prefixLen + 1) then
        makeLayer_scan entries' (i + 1) prefix prefixLen next0 next1 found
      else if negb (Z.shiftr (val e) (u8 (len e - prefixLen)) =? prefix) then
        makeLayer_scan entries' (i + 1) prefix prefixLen next0 next1 found
      else
        let arity := Z.land (Z.shiftr (val e) (u8 (u8 (len e - prefixLen) - 1))) 1 in
        if len e =? u8 (prefixLen + 1) then
          let child := Node NilNode NilNode true (u8 i) in
          let next0' := if arity =? 0 then child else next0 in
          let next1' := if arity =? 0 then next1 else child in
          if negb (is_nil (if arity =? 0 then next1' else next0'))
          then (next0', next1', found, true)
          else makeLayer_scan entries' (i + 1) prefix prefixLen next0' next1' true
        else makeLayer_scan entries' (i + 1) prefix prefixLen next0 next1 true
  end.

(** [prefixLen] grows with the depth and no code is longer than 30 bits, so a
    fuel of 32 levels is enough ([makeLayer_total]). *)
Fixpoint makeLayer (fuel : nat) (prefix prefixLen : Z) : outcome huffmanDecoderNode :=
  match fuel with
  | O => NoFuel
  | S fuel' =>
      let '(next0, next1, found, early) :=
        makeLayer_scan huffmanTable 0 prefix prefixLen NilNode NilNode false in
      if early || negb found then Ok (Node next0 next1 false 0) else
      let o0 := if is_nil next0
                then makeLayer fuel' (u32 (Z.shiftl prefix 1)) (u8 (prefixLen + 1))
                else Ok next0 in
      let o1 := if is_nil next1
                then makeLayer fuel' (Z.lor (u32 (Z.shiftl prefix 1)) 1) (u8 (prefixLen + 1))
                else Ok next1 in
      match o0, o1 with
      | Ok c0, Ok c1 => Ok (Node c0 c1 false 0)
      | Ok _, o => o
      | o, _ => o
      end
  end.

Definition decompressorTree : huffmanDecoderNode :=
  Eval vm_compute in match makeLayer 32 0 0 with Ok t => t | _ => NilNode end.

Lemma makeLayer_total : makeLayer 32 0 0 = Ok decompressorTree.
Proof. vm_compute. reflexivity. Qed.

(** ** Decompressor *)

Record HuffmanDecompressor (R : Type) := MkHuffmanDecompressor {
  hd_reader : bitReader R;
  hd_cursor : huffmanDecoderNode;   (* nil after an invalid code *)
}.
Arguments MkHuffmanDecompressor {R}.
Arguments hd_reader {R}.
Arguments hd_cursor {R}.

Definition NewHuffmanDecompressor {R} (reader : R) : HuffmanDecompressor R :=
  MkHuffmanDecompressor (NewBitReader reader) decompressorTree.

Section decompressor.
Context {R : Type} `{IoReader R}.

Definition set_cursor (c : huffmanDecoderNode) : go (HuffmanDecompressor R) unit :=
  modS (λ d, MkHuffmanDecompressor (hd_reader d) c).

Definition on_hd_reader {A} (m : go (bitReader R) A) : go (HuffmanDecompressor R) A :=
  zoom hd_reader (λ br d, MkHuffmanDecompressor br (hd_cursor d)) m.

(** The loop of [Read], with the bytes stored so far. A byte takes at most 31
    rounds. *)
Fixpoint HuffmanDecompressor_loop (fuel : nat) (n : Z) (acc : list Z)
  : go (HuffmanDecompressor R) (list Z * option goerr) :=
  if zlen acc <? n then
    match fuel with
    | O => nofuel
    | S fuel' =>
        r ← catch (on_hd_reader ReadBit);
        match r with
        | inr err => mret (acc, Some err)
        | inl b =>
            d ← getS;
            if is_nil (hd_cursor d) then panic else
            let cursor := next b (hd_cursor d) in
            set_cursor cursor;;
            if is_nil cursor then mret (acc, Some ErrInvalidHuffman)
            else if is_leaf cursor then
              set_cursor decompressorTree;;
              HuffmanDecompressor_loop fuel' n (acc ++ [node_val cursor])
            else HuffmanDecompressor_loop fuel' n acc
        end
    end
  else mret (acc, None).

Definition HuffmanDecompressor_Read (n : Z)
  : go (HuffmanDecompressor R) (list Z * option goerr) :=
  HuffmanDecompressor_loop (Z.to_nat (32 * n)) n [].

#[export] Instance HuffmanDecompressor_reader : IoReader (HuffmanDecompressor R) := {
  io_Read := HuffmanDecompressor_Read;
  io_ReadByte := None;
}.
End decompressor.

(** ** Codes *)

Definition code (c : Z) : list bool :=
  match huffmanTable !! Z.to_nat c with
  | Some e => zbits (len e) (val e)
  | None => []
  end.

Definition codes (s : list Z) : list bool := mjoin (code <$> s).

Lemma codes_cons c s : codes (c :: s) = code c ++ codes s.
Proof. done. Qed.

Lemma huffmanTable_lookup c : is_byte c →
  ∃ e, huffmanTable !! Z.to_nat c = Some e ∧ 5 ≤ len e ≤ 30 ∧ 0 ≤ val e < 2 ^ len e.
Proof.
  intros Hc. pose proof (byte_forall (λ c, match huffmanTable !! Z.to_nat c with
    | Some e => (5 <=? len e) && (len e <=? 30) && (0 <=? val e) && (val e <? 2 ^ len e)
    | None => false end) eq_refl c Hc) as Ht. cbn beta in Ht.
  destruct (huffmanTable !! Z.to_nat c) as [e|]; [|done]. exists e.
  apply andb_prop in Ht as [Ht ?%Z.ltb_lt]. apply andb_prop in Ht as [Ht ?%Z.leb_le].
  apply andb_prop in Ht as [?%Z.leb_le ?%Z.leb_le]. done.
Qed.

Section compressor_spec.
Context {W : Type} `{IoWriterSpec W} `{!IoWriterTotal W}.

Lemma HuffmanCompressor_loop_writes s i : Forall is_byte s →
  writes (HuffmanCompressor_Write_loop (W := W) s i) (i + zlen s, None) (codes s).
Proof.
  intros Hs. revert i. induction Hs as [|c s Hc _ IH]; intros i;
    cbn [HuffmanCompressor_Write_loop].
  - rewrite zlen_nil, Z.add_0_r. apply writes_ret.
  - destruct (huffmanTable_lookup c Hc) as (e & He & Hlen & Hval).
    rewrite codes_cons. unfold code at 1. rewrite He.
    eapply writes_bind.
    + intros bw Hok. destruct (WriteBits_writes (val e) (len e)) with bw as (bw' & Hw & ?);
        [lia|done|done|]. exists bw'. unfold catch. by rewrite Hw.
    + cbn beta iota. rewrite zlen_cons, Z.add_assoc. apply IH.
Qed.
End compressor_spec.

(** ** The reference decoder

    [decode cursor l] is the text that the bits [l] stand for, from [cursor],
    and the cursor at the end: nil when [l] holds no valid code. *)
Fixpoint decode (cursor : huffmanDecoderNode) (l : list bool)
  : list Z * huffmanDecoderNode :=
  match l with
  | [] => ([], cursor)
  | b :: l' =>
      let node := next (Z.b2z b) cursor in
      if is_nil node then ([], NilNode)
      else if is_leaf node then
        let '(s, c) := decode decompressorTree l' in (node_val node :: s, c)
      else decode node l'
  end.

Fixpoint height (n : huffmanDecoderNode) : Z :=
  match n with
  | NilNode => 0
  | Node n0 n1 _ _ => 1 + Z.max (height n0) (height n1)
  end.

Lemma height_next b n : is_nil n = false → height (next b n) < height n.
Proof. destruct n as [|n0 n1 l v]; [done|]. intros _. cbn. destruct (b =? 0); lia. Qed.

Lemma height_nonneg n : 0 ≤ height n.
Proof. induction n; cbn; lia. Qed.

Lemma height_tree : height decompressorTree = 31.
Proof. vm_compute. reflexivity. Qed.

Lemma decompressorTree_not_nil : is_nil decompressorTree = false.
Proof. vm_compute. reflexivity. Qed.

#[global] Opaque decompressorTree.

(** [walk_to c cursor l]: the path [l] from [cursor] visits inner nodes only and
    ends at the leaf of [c]. *)
Fixpoint walk_to (c : Z) (cursor : huffmanDecoderNode) (l : list bool) : bool :=
  match l with
  | [] => false
  | b :: l' =>
      let node := next (Z.b2z b) cursor in
      if is_nil node then false
      else if is_leaf node then match l' with [] => node_val node =? c | _ => false end
      else walk_to c node l'
  end.

Lemma walk_to_decode c cursor l r : walk_to c cursor l = true →
  decode cursor (l ++ r) = (c :: (decode decompressorTree r).1, (decode decompressorTree r).2).
Proof.
  revert cursor. induction l as [|b l IH]; intros cursor; [done|].
  cbn [walk_to app decode]. destruct (is_nil _); [done|].
  destruct (is_leaf _); [|by apply IH].
  destruct l; [|done]. intros ->%Z.eqb_eq. cbn [app].
  by destruct (decode decompressorTree r).
Qed.

(** Every code leads from the root to the leaf of its byte, so no code is a
    prefix of another. *)
Lemma walk_to_code c : is_byte c → walk_to c decompressorTree (code c) = true.
Proof. revert c. apply byte_forall. vm_compute. reflexivity. Qed.

Lemma decode_codes s l : Forall is_byte s →
  decode decompressorTree (codes s ++ l) =
  (s ++ (decode decompressorTree l).1, (decode decompressorTree l).2).
Proof.
  induction 1 as [|c s Hc _ IH]; [apply surjective_pairing|].
  rewrite codes_cons, <- (assoc_L (++)).
  by rewrite (walk_to_decode c _ _ _ (walk_to_code c Hc)), IH.
Qed.

(** Up to seven padding ones decode to nothing: they start no code. *)
Lemma decode_padding n : 0 ≤ n < 8 →
  let pad := zbits n (Z.shiftr 0xff (8 - n)) in
  (decode decompressorTree pad).1 = [] ∧ is_nil (decode decompressorTree pad).2 = false.
Proof.
  intros Hn. cbv zeta. pose proof (byte_forall (λ n, (8 <=? n) ||
    match decode decompressorTree (zbits n (Z.shiftr 0xff (8 - n))) with
    | ([], c) => negb (is_nil c)
    | _ => false
    end) ltac:(vm_compute; reflexivity) n ltac:(unfold is_byte; lia)) as Hp.
  cbn beta in Hp. rewrite (proj2 (Z.leb_gt 8 n)) in Hp by lia. cbn [orb] in Hp.
  destruct (decode _ _) as [[|? ?] c]; [|done]. by apply negb_true_iff in Hp.
Qed.

(** ** The decompressor implements the reference decoder *)

Section decompressor_spec.
Context {R : Type} `{IoReaderSpec R}.

Definition hd_bits (d : HuffmanDecompressor R) : list bool := rbits (hd_reader d).

(** What a read into a buffer of [n] bytes does, in terms of [decode]: it either
    fills the buffer or stops where the reference decoder stops. *)
Lemma HuffmanDecompressor_loop_spec fuel n acc (d : HuffmanDecompressor R) :
  br_wf (hd_reader d) → is_nil (hd_cursor d) = false → height (hd_cursor d) ≤ 31 →
  zlen acc ≤ n → height (hd_cursor d) + 32 * (n - zlen acc - 1) < Z.of_nat fuel →
  ∃ bs e d', HuffmanDecompressor_loop fuel n acc d = (Ok (acc ++ bs, e), d') ∧
    br_wf (hd_reader d') ∧
    (e = None ∧ zlen (acc ++ bs) = n ∧
       (∃ s', (decode (hd_cursor d) (hd_bits d)).1 = bs ++ s') ∨
     zlen (acc ++ bs) < n ∧ (decode (hd_cursor d) (hd_bits d)).1 = bs ∧
     (e = Some EOF ∧ hd_bits d' = [] ∧
        is_nil (decode (hd_cursor d) (hd_bits d)).2 = false ∨
      e = Some ErrInvalidHuffman ∧
        is_nil (decode (hd_cursor d) (hd_bits d)).2 = true)).
Proof.
  revert acc d. induction fuel as [|fuel IH]; intros acc d Hwf Hnil Hh Hacc Hf;
    pose proof (height_nonneg (hd_cursor d)); cbn [HuffmanDecompressor_loop];
    (destruct (Z.ltb_spec (zlen acc) n) as [Hlt|Hge];
     [|exists [], None, d; rewrite app_nil_r; split_and!; [done..|left; split_and!; [done|lia|by eexists]]]).
  { lia. }
  destruct (ReadBit_spec (hd_reader d) Hwf) as (br' & Hwf' & Hr).
  unfold hd_bits. rewrite bind_unfold. unfold catch, on_hd_reader, zoom.
  destruct (rbits (hd_reader d)) as [|b l] eqn:Hl; destruct Hr as [-> Hr].
  { exists [], (Some EOF), (MkHuffmanDecompressor br' (hd_cursor d)).
    rewrite ret_unfold, app_nil_r. split_and!; [done..|right]. split_and!; [done..|]. by left. }
  rewrite bind_unfold. cbn [getS hd_cursor]. rewrite Hnil. cbn [decode].
  pose proof (height_next (Z.b2z b) (hd_cursor d) Hnil) as Hdesc.
  set (node := next (Z.b2z b) (hd_cursor d)) in *. rewrite bind_unfold.
  cbn [set_cursor modS hd_reader].
  destruct (is_nil node) eqn:Hnode.
  { exists [], (Some ErrInvalidHuffman), (MkHuffmanDecompressor br' node).
    rewrite ret_unfold, app_nil_r. split_and!; [done..|right]. split_and!; [done..|]. by right. }
  destruct (is_leaf node).
  - rewrite bind_unfold. cbn [set_cursor modS hd_reader].
    destruct (IH (acc ++ [node_val node]) (MkHuffmanDecompressor br' decompressorTree))
      as (bs & e & d' & Hrun & Hwf2 & Hres); zlen_simpl; cbn [hd_reader hd_cursor];
      rewrite ?height_tree; [done|apply decompressorTree_not_nil|lia..|].
    exists (node_val node :: bs), e, d'. rewrite Hrun. zlen_simpl. rewrite <- (assoc_L (++)).
    split; [done|split; [done|]]. unfold hd_bits in Hres. cbn [hd_cursor hd_reader] in Hres.
    rewrite Hr in Hres. destruct (decode decompressorTree l) as [s c]. cbn [fst snd] in *.
    destruct Hres as [(? & ? & s' & ->)|(? & -> & Hres)]; [left|right]; split_and!; try (done || lia).
    by exists s'.
  - destruct (IH acc (MkHuffmanDecompressor br' node))
      as (bs & e & d' & Hrun & Hwf2 & Hres); cbn [hd_reader hd_cursor]; [done..|lia|lia|lia|].
    exists bs, e, d'. unfold hd_bits in Hres. cbn [hd_cursor hd_reader] in Hres.
    by rewrite Hr in Hres.
Qed.

(** The text the bits left in [d] stand for, when they are valid and the buffer
    is larger: one [Read] delivers all of it, with [io.EOF]. *)
Lemma HuffmanDecompressor_Read_all n (d : HuffmanDecompressor R) :
  br_wf (hd_reader d) → hd_cursor d = decompressorTree →
  let '(s, c) := decode decompressorTree (hd_bits d) in
  is_nil c = false → zlen s < n →
  ∃ d', HuffmanDecompressor_Read n d = (Ok (s, Some EOF), d') ∧ br_wf (hd_reader d') ∧
        hd_bits d' = [].
Proof.
  intros Hwf Hcur. destruct (decode decompressorTree (hd_bits d)) as [s c] eqn:Hdec.
  intros Hnil Hlen. pose proof (zlen_nonneg s).
  destruct (HuffmanDecompressor_loop_spec (Z.to_nat (32 * n)) n [] d)
    as (bs & e & d' & Hrun & Hwf' & Hres);
    rewrite ?Hcur, ?height_tree, ?zlen_nil;
    [done|apply decompressorTree_not_nil|lia..|].
  rewrite Hcur, Hdec in Hres. cbn [fst snd] in Hres. rewrite app_nil_l in *.
  exists d'. unfold HuffmanDecompressor_Read. rewrite Hrun.
  destruct Hres as [(_ & ? & s' & ->)|(? & -> & [(-> & ? & _)|(_ & Hn)])].
  - pose proof (zlen_nonneg s'). zlen_simpl. lia.
  - done.
  - congruence.
Qed.
End decompressor_spec.
