(* ===== verification/HcString.v ===== *)
(** * HPACK strings (hc/io.go)

    [ReadString] and [WriteStringRaw] over the bit reader and writer: a Huffman
    bit, a length and the bytes. [string_bits] is the reference encoding. *)

From S2P Require Import Prelude Bits GoIo BitWriter BitReader HcInt HuffmanTable Huffman.

(** ** Go strings

    A Go string is a byte sequence, which a Rocq [string] is as well. *)
Definition bytes_of_string (s : string) : list Z :=
  (λ a, Z.of_N (Ascii.N_of_ascii a)) <$> String.list_ascii_of_string s.

Definition string_of_bytes (bs : list Z) : string :=
  String.string_of_list_ascii ((λ b, Ascii.ascii_of_N (Z.to_N b)) <$> bs).

(** [len(s)]. *)
Definition slen (s : string) : Z := zlen (bytes_of_string s).

Lemma string_of_bytes_of_string s : string_of_bytes (bytes_of_string s) = s.
Proof.
  unfold string_of_bytes, bytes_of_string. rewrite <- list_fmap_compose.
  rewrite (list_fmap_ext _ id).
  - by rewrite list_fmap_id, String.string_of_list_ascii_of_string.
  - intros i a _. cbn. by rewrite N2Z.id, Ascii.ascii_N_embedding.
Qed.

Lemma bytes_of_string_bytes s : Forall is_byte (bytes_of_string s).
Proof.
  apply Forall_fmap, Forall_true. intros a. cbn. unfold is_byte.
  pose proof (Ascii.N_ascii_bounded a). lia.
Qed.

Lemma bytes_of_string_inj s t : bytes_of_string s = bytes_of_string t → s = t.
Proof.
  intros H. rewrite <- (string_of_bytes_of_string s), H. apply string_of_bytes_of_string.
Qed.

Lemma bytes_of_string_app s1 s2 : bytes_of_string (s1 +:+ s2) = bytes_of_string s1 ++ bytes_of_string s2.
Proof.
  unfold bytes_of_string. induction s1 as [|a s1 IH]; [done|].
  change (String a s1 +:+ s2) with (String a (s1 +:+ s2)). cbn. by f_equal.
Qed.

(** ** Reading *)

(** [make] of a byte slice panics above the largest allocation of the run time: 2^39
    bytes less one in Go 1.10 on a 64-bit system other than Windows (later run times
    allow 2^48). *)
Definition maxAlloc : Z := 2 ^ 39 - 1.

Section reader.
Context {R : Type} `{IoReader R}.

(** [io.ReadFull] from [&io.LimitedReader{R: hr, N: N}]. *)
Definition ReadFull_limited (N size : Z) : go (bitReader R) (list Z * option goerr) :=
  zoom (λ br, MkLimitedReader br N) (λ l _, lim_R l) (ReadFull size).

(** The same through a [HuffmanDecompressor]. *)
Definition ReadFull_huffman (N size : Z) : go (bitReader R) (list Z * option goerr) :=
  zoom (λ br, NewHuffmanDecompressor (MkLimitedReader br N))
       (λ d _, lim_R (br_reader (hd_reader d))) (ReadFull size).

Definition ReadString (prefix : Z) : go (bitReader R) string :=
  r ← catch ReadBit;
  match r with
  | inr _ => mret ""%string
  | inl huffman =>
      r ← catch (ReadInt prefix);
      match r with
      | inr _ => mret ""%string
      | inl len =>
          let size := if huffman =? 0 then len else u64 (u64 (len * 8) / 5 + 1) in
          if maxAlloc <? size then panic else
          '(buf, err) ← if huffman =? 0 then ReadFull_limited (i64 len) size
                        else ReadFull_huffman (i64 len) size;
          match err with
          | None | Some ErrUnexpectedEOF => mret (string_of_bytes buf)
          | Some e => fail e
          end
      end
  end.
End reader.

(** ** Writing *)

Inductive HuffmanCodingChoice := HuffmanCodingAuto | HuffmanCodingAlways | HuffmanCodingNever.

#[export] Instance HuffmanCodingChoice_eq_dec : EqDecision HuffmanCodingChoice.
Proof. solve_decision. Defined.

(** The compressed form of [s], made in a local [bytes.Buffer]. *)
Definition compress (s : list Z) : outcome (list Z) :=
  let '(o, bw) :=
    ('(n, err) ← CopyBytes HuffmanCompressor_Write s;
     match err with
     | Some e => fail e
     | None => if n <? zlen s then fail ErrShortWrite else HuffmanCompressor_Pad
     end) (NewBitWriter (MkBuffer [])) in
  match o with
  | Ok _ => Ok (buf_bytes (bw_writer bw))
  | Err e => Err e
  | Panic => Panic
  | NoFuel => NoFuel
  end.

(** A computation that touches no state of the method. *)
Definition lift {S A} (o : outcome A) : go S A := λ s, (o, s).

Section writer.
Context {W : Type} `{IoWriter W}.

(** The Huffman bit and the bytes to write. *)
Definition chooseCoding (s : list Z) (huffman : HuffmanCodingChoice)
  : go (bitWriter W) (Z * list Z) :=
  if decide (huffman = HuffmanCodingNever) then mret (0, s) else
  buf ← lift (compress s);
  mret (if bool_decide (huffman = HuffmanCodingAlways) || (zlen buf <? zlen s)
        then (1, buf) else (0, s)).

Definition WriteStringRaw (str : string) (prefix : Z) (huffman : HuffmanCodingChoice)
  : go (bitWriter W) unit :=
  let s := bytes_of_string str in
  '(hbit, reader) ← chooseCoding s huffman;
  WriteBit hbit;;
  WriteInt (zlen reader) prefix;;
  '(n, err) ← CopyBytes Write reader;
  match err with
  | Some e => fail e
  | None => if n <? zlen reader then fail ErrShortWrite else mret tt
  end.

Definition WriteString (s : string) (prefix : Z) : go (bitWriter W) unit :=
  WriteStringRaw s prefix HuffmanCodingAuto.
End writer.

(** ** The reference encoding *)

(** The padding up to a whole byte: a prefix of the all-ones byte. *)
Definition ones_pad (n : Z) : list bool := zbits n (Z.shiftr 0xff (8 - n)).

Definition huffman_bits (s : list Z) : list bool :=
  codes s ++ ones_pad ((8 - zlen (codes s) mod 8) mod 8).

Definition huffman_bytes (s : list Z) : list Z := bytes_of_bits (huffman_bits s).

Definition huffman_chosen (s : list Z) (huffman : HuffmanCodingChoice) : bool :=
  match huffman with
  | HuffmanCodingNever => false
  | HuffmanCodingAlways => true
  | HuffmanCodingAuto => zlen (huffman_bytes s) <? zlen s
  end.

Definition string_bits (str : string) (prefix : Z) (huffman : HuffmanCodingChoice)
  : list bool :=
  let s := bytes_of_string str in
  let h := huffman_chosen s huffman in
  let payload := if h then huffman_bytes s else s in
  h :: int_bits prefix (zlen payload) ++ bits_of_bytes payload.

Lemma zlen_string_bits s prefix pref : 0 ≤ prefix →
  ∃ k, zlen (string_bits s prefix pref) = 1 + prefix + 8 * k.
Proof.
  intros Hp. unfold string_bits. set (payload := if huffman_chosen _ _ then _ else _).
  destruct (zlen_int_bits prefix (zlen payload) Hp) as [k Hk].
  exists (k + zlen payload). zlen_simpl. lia.
Qed.

(** ** The writer produces the reference encoding *)

Lemma zlen_codes s : Forall is_byte s → 5 * zlen s ≤ zlen (codes s).
Proof.
  induction 1 as [|c s Hc _ IH]; [done|]. rewrite codes_cons. zlen_simpl.
  destruct (huffmanTable_lookup c Hc) as (e & He & ? & _). unfold code. rewrite He.
  zlen_simpl. lia.
Qed.

Lemma huffman_bits_whole s : ∃ k, zlen (huffman_bits s) = 8 * k.
Proof.
  unfold huffman_bits, ones_pad. pose proof (Z.mod_pos_bound (8 - zlen (codes s) mod 8) 8).
  zlen_simpl. exists ((zlen (codes s) + 7) / 8). Z.to_euclidean_division_equations. lia.
Qed.

Lemma huffman_bytes_bytes s : Forall is_byte (huffman_bytes s).
Proof. destruct (huffman_bits_whole s) as [k Hk]. apply (bytes_of_bits_whole _ _ Hk). Qed.

Lemma huffman_bytes_bits s : bits_of_bytes (huffman_bytes s) = huffman_bits s.
Proof. destruct (huffman_bits_whole s) as [k Hk]. apply (bytes_of_bits_whole _ _ Hk). Qed.

(** The decompressor's buffer is larger than any text it can hold. *)
Lemma huffman_bytes_expansion s : Forall is_byte s → 5 * zlen s ≤ 8 * zlen (huffman_bytes s).
Proof.
  intros Hs. rewrite <- zlen_bits_of_bytes, huffman_bytes_bits. unfold huffman_bits.
  pose proof (zlen_codes s Hs). zlen_simpl. unfold ones_pad.
  match goal with |- _ ≤ _ + zlen ?l => pose proof (zlen_nonneg l) end. lia.
Qed.

(** Compression does not grow a string beyond four bytes a character. *)
Lemma zlen_codes_le s : Forall is_byte s → zlen (codes s) ≤ 30 * zlen s.
Proof.
  induction 1 as [|c s Hc _ IH]; [done|]. rewrite codes_cons. zlen_simpl.
  destruct (huffmanTable_lookup c Hc) as (e & He & ? & _). unfold code. rewrite He.
  zlen_simpl. lia.
Qed.

Lemma zlen_huffman_bytes_le s : Forall is_byte s → 8 * zlen (huffman_bytes s) ≤ 30 * zlen s + 7.
Proof.
  intros Hs. rewrite <- zlen_bits_of_bytes, huffman_bytes_bits. unfold huffman_bits, ones_pad.
  pose proof (zlen_codes_le s Hs). pose proof (Z.mod_pos_bound (8 - zlen (codes s) mod 8) 8).
  zlen_simpl. lia.
Qed.

Lemma CopyBytes_HuffmanCompressor_writes {W} `{IoWriterSpec W} `{!IoWriterTotal W} s :
  Forall is_byte s →
  writes (CopyBytes (HuffmanCompressor_Write (W := W)) s) (zlen s, None) (codes s).
Proof.
  intros Hs. unfold CopyBytes. destruct s as [|c s]; [apply writes_ret|].
  rewrite <- (app_nil_r (codes _)).
  eapply writes_bind; [by apply (HuffmanCompressor_loop_writes _ 0)|].
  cbn beta iota. rewrite Z.add_0_l, Z.eqb_refl. apply writes_ret.
Qed.

Lemma compress_spec s : Forall is_byte s → compress s = Ok (huffman_bytes s).
Proof.
  intros Hs. unfold compress.
  set (bw0 := NewBitWriter (MkBuffer [])).
  assert (bw_ok bw0) as Hok by (split; [done|by constructor]).
  destruct (CopyBytes_HuffmanCompressor_writes s Hs bw0 Hok) as (bw1 & Hr1 & Hok1 & Hw1).
  rewrite (bind_Ok _ _ _ _ _ Hr1). cbn beta iota.
  rewrite (proj2 (Z.ltb_ge (zlen s) (zlen s))) by lia.
  unfold HuffmanCompressor_Pad. destruct (Pad_writes 0xff bw1 Hok1) as (bw2 & -> & H0 & Hb & Hw2);
    [done|]. f_equal. apply bits_of_bytes_inj; [done|apply huffman_bytes_bytes|].
  rewrite huffman_bytes_bits. unfold huffman_bits, wbits in *.
  rewrite H0, zbits_0, app_nil_r in Hw2. change (bits_of_bytes (buf_bytes (bw_writer bw2)))
    with (bits_of_bytes (accepted (bw_writer bw2))). rewrite Hw2, Hw1. f_equal.
  unfold ones_pad. destruct Hok1 as [Hsb _].
  assert (zlen (codes s) mod 8 = bw_savedBits bw1) as ->; [|done].
  apply (f_equal zlen) in Hw1. unfold bw0 in Hw1. cbn in Hw1. zlen_simpl.
  Z.to_euclidean_division_equations. lia.
Qed.

Lemma WriteStringRaw_writes {W} `{IoWriterSpec W} `{!IoWriterTotal W} str prefix huffman :
  1 ≤ prefix ≤ 8 → is_u64 (slen str) → is_u64 (zlen (huffman_bytes (bytes_of_string str))) →
  writes (WriteStringRaw (W := W) str prefix huffman) tt (string_bits str prefix huffman).
Proof.
  intros Hp Hlen Hhlen. unfold WriteStringRaw, string_bits.
  pose proof (bytes_of_string_bytes str) as Hs. unfold slen in Hlen.
  set (s := bytes_of_string str) in *. set (h := huffman_chosen s huffman).
  set (payload := if h then huffman_bytes s else s).
  assert (Forall is_byte payload) as Hpay
    by (unfold payload; destruct h; [apply huffman_bytes_bytes|done]).
  change (h :: ?x) with ([] ++ [h] ++ x). eapply writes_bind.
  { assert (chooseCoding (W := W) s huffman = lift (Ok (Z.b2z h, payload))) as ->.
    { unfold chooseCoding, payload, h. destruct huffman; cbn; [|by rewrite compress_spec..|done].
      rewrite compress_spec by done. cbn. unfold mbind, go_bind, lift. cbn. by destruct (_ <? _). }
    apply (writes_ret (Z.b2z h, payload)). }
  cbn beta iota. eapply writes_bind.
  { replace [h] with (zbits 1 (Z.b2z h)) by by destruct h. apply WriteBit_writes. by destruct h. }
  eapply writes_bind; [apply WriteInt_writes; [unfold payload; by destruct h|done]|].
  rewrite <- (app_nil_r (bits_of_bytes _)).
  eapply writes_bind; [by apply CopyBytes_writes|]. cbn beta iota.
  rewrite (proj2 (Z.ltb_ge (zlen payload) (zlen payload))) by lia. apply writes_ret.
Qed.

(** ** The reader on any stream *)

Section reader_spec.
Context {R : Type} `{IoReaderSpec R}.

(** The error of [io.ReadFull] for a buffer of [size] bytes when [n] were read. *)
Definition readFull_err (size n : Z) : option goerr :=
  if size <=? n then None else if 0 <? n then Some ErrUnexpectedEOF else Some EOF.

Lemma ReadFull_limited_spec N size (br : bitReader R) : br_wf br → 0 ≤ size →
  let avail := ztake N (bytes_of_bits (rbits br)) in
  ∃ br', ReadFull_limited N size br =
    (Ok (ztake size avail, readFull_err size (zlen avail)), br') ∧
    br_wf br' ∧ rbits br = bits_of_bytes (ztake size avail) ++ rbits br'.
Proof.
  intros Hwf Hsize avail. pose (I := LimitedReader_spec br N).
  destruct (ReadFull_spec size (MkLimitedReader br N) (limited_init br N Hwf))
    as (l & Hl & Hc & _ & Hrun); [done|].
  destruct (limited_bits br N l Hl) as (Hwf' & pre & Hbits & Hpre).
  exists (lim_R l). unfold ReadFull_limited, zoom. rewrite Hrun. split; [done|].
  split; [done|]. rewrite Hbits. do 2 f_equal. fold avail in Hpre.
  change (content (MkLimitedReader br N)) with avail in Hc. rewrite Hc in Hpre.
  rewrite <- (ztake_zdrop size avail) in Hpre at 1. by apply app_inv_tail in Hpre.
Qed.

(** The same for the decompressor, in terms of the reference decoder: the first
    read fills the buffer or stops where the decoder stops. *)
Lemma ReadFull_huffman_spec N size (br : bitReader R) : br_wf br → 0 < size →
  let avail := ztake N (bytes_of_bits (rbits br)) in
  let '(s, c) := decode decompressorTree (bits_of_bytes avail) in
  ∃ pre bs err br', ReadFull_huffman N size br = (Ok (bs, err), br') ∧
    br_wf br' ∧ rbits br = bits_of_bytes pre ++ rbits br' ∧ err ≠ Some ErrWouldBlock ∧
    (zlen s < size → bs = s ∧
       if is_nil c then err = Some ErrInvalidHuffman
       else pre = avail ∧ err = Some (if 0 <? zlen s then ErrUnexpectedEOF else EOF)).
Proof.
  intros Hwf Hsize avail. pose (I := LimitedReader_spec br N).
  set (d := NewHuffmanDecompressor (MkLimitedReader br N)).
  assert (br_wf (hd_reader d)) as Hd by (split; [by apply limited_init|done]).
  destruct (decode decompressorTree (bits_of_bytes avail)) as [s c] eqn:Hdec.
  assert (height (hd_cursor d) = 31) as Hh by apply height_tree.
  destruct (HuffmanDecompressor_loop_spec (Z.to_nat (32 * (size - zlen (@nil Z)))) (size - zlen (@nil Z)) [] d)
    as (bs & e & d' & Hrun & Hwf' & Hres); [done|apply decompressorTree_not_nil|..];
    rewrite ?zlen_nil in *; [lia..|].
  destruct (limited_bits br N (br_reader (hd_reader d')) (proj1 Hwf')) as (Hwf2 & pre & Hbits & Hpre).
  change (hd_bits d) with (bits_of_bytes avail) in Hres.
  change (hd_cursor d) with decompressorTree in Hres. rewrite Hdec in Hres. cbn [fst snd] in Hres.
  rewrite app_nil_l in *.
  assert (ReadFull_huffman N size br =
    (Ok (bs, if size <=? zlen bs then None else if decide (e = Some EOF) then
               if 0 <? zlen bs then Some ErrUnexpectedEOF else e else e),
     lim_R (br_reader (hd_reader d')))) as Hfull.
  { unfold ReadFull_huffman, zoom, ReadFull. fold d. rewrite bind_unfold.
    replace (Z.to_nat size + 1)%nat with (S (Z.to_nat size)) by lia. cbn [ReadAtLeast_loop].
    rewrite zlen_nil, (proj2 (Z.ltb_lt 0 size)), bind_unfold by lia.
    cbn [io_Read HuffmanDecompressor_reader]. unfold HuffmanDecompressor_Read. rewrite Hrun.
    destruct Hres as [(-> & Hn & _)|(_ & _ & [(-> & _)|(-> & _)])]; cbv iota beta.
    - by rewrite app_nil_l, ReadAtLeast_loop_done by lia.
    - done.
    - done. }
  exists pre, bs. eexists _, _. split; [exact Hfull|]. split; [done|split; [done|split]].
  { destruct (_ <=? _); [done|]. destruct Hres as [(-> & _)|(_ & _ & [(-> & _)|(-> & _)])];
      [done| |done]. cbn. by destruct (_ <? _). }
  intros Hlen.
  destruct Hres as [(_ & ? & s' & ->)|(_ & -> & Hres)];
    [pose proof (zlen_nonneg s'); zlen_simpl; lia|].
  split; [done|]. rewrite (proj2 (Z.leb_gt size (zlen bs))) by lia.
  destruct Hres as [(-> & Hnil & ->)|(-> & ->)]; [|done]. cbn. split; [|by destruct (0 <? _)].
  unfold avail. rewrite Hpre. unfold hd_bits, rbits in Hnil. apply app_eq_nil in Hnil as [_ Hnil].
  apply (f_equal zlen) in Hnil. zlen_simpl.
  rewrite (zlen_0 (content (br_reader (hd_reader d')))), app_nil_r; [done|].
  by apply (Z.mul_reg_l _ 0 8).
Qed.
End reader_spec.

(** ** [ReadString] on any stream *)

(** Every code has at least five bits: a leaf is at least [shallow] below. *)
Fixpoint shallow (n : huffmanDecoderNode) : Z :=
  match n with
  | NilNode => 31
  | Node n0 n1 leaf _ => if leaf then 0 else 1 + Z.min (shallow n0) (shallow n1)
  end.

Lemma shallow_next b n : is_leaf n = false → shallow n - 1 ≤ shallow (next b n).
Proof.
  destruct n as [|n0 n1 leaf v]; cbn; [lia|]. intros ->. destruct (b =? 0); lia.
Qed.

Lemma shallow_tree : shallow decompressorTree = 5 ∧ is_leaf decompressorTree = false.
Proof. vm_compute. done. Qed.

Lemma decode_expansion cursor l : is_leaf cursor = false →
  5 * zlen (decode cursor l).1 ≤ zlen l + 5 - Z.min 5 (shallow cursor).
Proof.
  revert cursor. induction l as [|b l IH]; intros cursor Hleaf; cbn [decode].
  { cbn. change (zlen []) with 0. lia. }
  pose proof (shallow_next (Z.b2z b) cursor Hleaf) as Hnext. pose proof (zlen_nonneg l).
  zlen_simpl. destruct (is_nil _); [cbn; change (zlen []) with 0; lia|].
  destruct (is_leaf (next (Z.b2z b) cursor)) eqn:Hl.
  - destruct shallow_tree as [Ht Htl]. specialize (IH decompressorTree Htl).
    destruct (decode decompressorTree l) as [s c]. cbn [fst] in *. zlen_simpl.
    assert (shallow (next (Z.b2z b) cursor) = 0) by (destruct (next _ _); [done|]; cbn in *; by rewrite Hl).
    lia.
  - specialize (IH _ Hl). lia.
Qed.

Lemma decode_tree_expansion l : 5 * zlen (decode decompressorTree l).1 ≤ zlen l.
Proof. destruct shallow_tree as [Ht Hl]. pose proof (decode_expansion _ l Hl). lia. Qed.

Section ReadString_spec.
Context {R : Type} `{IoReaderSpec R}.

(** The bytes of the string that are there, of the [len] announced. *)
Definition string_payload (len : Z) (l : list bool) : list Z := ztake len (bytes_of_bits l).

(** What [ReadString] makes of them: a truncated string is accepted if anything
    of it is there. *)
Definition string_result (h : bool) (len : Z) (payload : list Z) : outcome string :=
  if h then
    let '(s, c) := decode decompressorTree (bits_of_bytes payload) in
    if is_nil c then Err ErrInvalidHuffman
    else if 0 <? zlen s then Ok (string_of_bytes s) else Err EOF
  else if (0 <? len) && (zlen payload =? 0) then Err EOF
  else Ok (string_of_bytes payload).

Lemma ReadString_spec prefix h len l (br : bitReader R) :
  br_wf br → 1 ≤ prefix ≤ 8 → 0 ≤ len < 2 ^ 38 →
  rbits br = h :: int_bits prefix len ++ l →
  ∃ taken br', ReadString prefix br = (string_result h len (string_payload len l), br') ∧
    br_wf br' ∧ l = bits_of_bytes taken ++ rbits br' ∧
    (string_result h len (string_payload len l) ≠ Err ErrInvalidHuffman →
     taken = string_payload len l).
Proof.
  intros Hwf Hp Hlen Hl. unfold ReadString.
  destruct (ReadBit_reads h br _ Hwf Hl) as (br1 & Hr1 & Hwf1 & Hl1).
  rewrite bind_unfold. unfold catch at 1. rewrite Hr1. cbv beta iota.
  destruct (ReadInt_reads len prefix) with br1 l as (br2 & Hr2 & Hwf2 & Hl2);
    [unfold is_u64; lia|done..|].
  rewrite bind_unfold. unfold catch at 1. rewrite Hr2. cbv beta iota zeta.
  rewrite i64_small by lia. unfold string_payload, string_result. rewrite <- Hl2.
  destruct h; cbn [Z.b2z Z.eqb].
  - rewrite (u64_small (len * 8)), u64_small by (Z.to_euclidean_division_equations; lia).
    rewrite (proj2 (Z.ltb_ge maxAlloc _))
      by (unfold maxAlloc; Z.to_euclidean_division_equations; lia).
    set (size := len * 8 / 5 + 1).
    assert (0 < size) as Hsize by (unfold size; Z.to_euclidean_division_equations; lia).
    pose proof (ReadFull_huffman_spec len size br2 Hwf2 Hsize) as Hrun. cbv zeta in Hrun.
    set (avail := ztake len (bytes_of_bits (rbits br2))) in *.
    pose proof (decode_tree_expansion (bits_of_bytes avail)) as Hexp.
    assert (zlen avail ≤ len) as Hav by (unfold avail; rewrite zlen_ztake; lia).
    destruct (decode _ _) as [s c]. cbn [fst] in Hexp. zlen_simpl.
    destruct Hrun as (pre & bs & err & br3 & Hr3 & Hwf3 & Hl3 & _ & Herr).
    destruct Herr as [-> Herr]; [unfold size; Z.to_euclidean_division_equations; lia|].
    exists pre, br3. rewrite (bind_Ok _ _ _ _ _ Hr3).
    destruct (is_nil c); [by rewrite Herr|]. destruct Herr as [Hpre Herr].
    rewrite Herr. by destruct (0 <? zlen s).
  - rewrite (proj2 (Z.ltb_ge maxAlloc _)) by (unfold maxAlloc; lia).
    destruct (ReadFull_limited_spec len len br2 Hwf2) as (br3 & Hr3 & Hwf3 & Hl3); [lia|].
    set (avail := ztake len (bytes_of_bits (rbits br2))) in *.
    assert (zlen avail ≤ len) as Hav by (unfold avail; rewrite zlen_ztake; lia).
    rewrite (ztake_all len avail) in * by done.
    exists avail, br3. rewrite (bind_Ok _ _ _ _ _ Hr3). unfold readFull_err.
    pose proof (zlen_nonneg avail).
    destruct (Z.leb_spec len (zlen avail)), (Z.ltb_spec 0 (zlen avail)),
      (Z.ltb_spec 0 len), (Z.eqb_spec (zlen avail) 0); try lia; done.
Qed.

(** A string the writer made is read back, except an empty one that was
    compressed. *)
Lemma ReadString_reads str prefix huffman :
  1 ≤ prefix ≤ 8 → slen str < 2 ^ 38 → zlen (huffman_bytes (bytes_of_string str)) < 2 ^ 38 →
  str ≠ ""%string ∨ huffman ≠ HuffmanCodingAlways →
  reads (ReadString (R := R) prefix) str (string_bits str prefix huffman).
Proof.
  intros Hp Hlen Hhlen Hne br l Hwf Hl. unfold string_bits in Hl.
  pose proof (bytes_of_string_bytes str) as Hs.
  pose proof (string_of_bytes_of_string str) as Hinv. unfold slen in Hlen.
  assert (str = ""%string ∨ 0 < zlen (bytes_of_string str)) as Hpos.
  { destruct (bytes_of_string str); [by left|right]. zlen_simpl. pose proof (zlen_nonneg l0). lia. }
  set (s := bytes_of_string str) in *. set (h := huffman_chosen s huffman) in *.
  set (payload := if h then huffman_bytes s else s) in *.
  assert (Forall is_byte payload) as Hpay
    by (unfold payload; destruct h; [apply huffman_bytes_bytes|done]).
  cbn [app] in Hl. rewrite <- (assoc_L (++)) in Hl.
  pose proof (zlen_nonneg payload).
  destruct (ReadString_spec prefix h (zlen payload) (bits_of_bytes payload ++ l) br Hwf Hp)
    as (taken & br' & Hr & Hwf' & Hl' & Htaken); [split; [done|unfold payload; by destruct h]|done|].
  assert (string_payload (zlen payload) (bits_of_bytes payload ++ l) = payload) as Hpl.
  { unfold string_payload. by rewrite bytes_of_bits_of_bytes, ztake_app. }
  rewrite Hpl in *.
  assert (string_result h (zlen payload) payload = Ok str) as Hres.
  { unfold string_result, payload in *. destruct h eqn:Hh.
    - rewrite huffman_bytes_bits. unfold huffman_bits. rewrite decode_codes by done.
      destruct (decode_padding ((8 - zlen (codes s) mod 8) mod 8)) as [Hp1 Hp2];
        [apply Z.mod_pos_bound; lia|]. unfold ones_pad. rewrite Hp1, Hp2, app_nil_r. cbn [fst snd].
      destruct (Z.ltb_spec 0 (zlen s)); [by rewrite Hinv|].
      destruct huffman; cbn in Hh; [|destruct Hpos as [->|]; [by destruct Hne|lia]|done].
      unfold h in Hh. cbn in Hh. apply Z.ltb_lt in Hh. pose proof (zlen_nonneg (huffman_bytes s)). lia.
    - rewrite Hinv. destruct (Z.ltb_spec 0 (zlen s)), (Z.eqb_spec (zlen s) 0); try lia; done. }
  rewrite Hres in *. exists br'. split_and!; [done|done|].
  rewrite Htaken in Hl' by done. by apply app_inv_head in Hl'.
Qed.

(** Filling the buffer of a string. *)
Lemma ReadFull_string_runs (huffman : bool) len size br : br_wf br → is_u64 len →
  size = (if huffman then u64 (u64 (len * 8) / 5 + 1) else len) →
  ∃ bs err br', (if huffman then ReadFull_huffman (i64 len) size else ReadFull_limited (i64 len) size) br =
      (Ok (bs, err), br') ∧ br_wf br' ∧ err ≠ Some ErrWouldBlock ∧ ∃ bits, rbits br = bits ++ rbits br'.
Proof.
  intros Hwf Hlen ->. destruct huffman.
  - assert (0 < u64 (u64 (len * 8) / 5 + 1)) as Hsize.
    { pose proof (u64_range (len * 8)) as Hr. unfold is_u64 in Hr.
      rewrite (u64_small (_ / 5 + 1)); Z.to_euclidean_division_equations; lia. }
    pose proof (ReadFull_huffman_spec (i64 len) _ br Hwf Hsize) as Hrun. cbv zeta in Hrun.
    destruct (decode _ _) as [s c]. destruct Hrun as (pre & bs & err & br' & Hr & Hwf' & Hl & Herr & _).
    exists bs, err, br'. split_and!; [exact Hr|done|exact Herr|by eexists].
  - destruct (ReadFull_limited_spec (i64 len) len br Hwf) as (br' & Hr & ? & ?); [apply Hlen|].
    eexists _, _, br'. split_and!; [exact Hr|done| |by eexists].
    unfold readFull_err. by repeat case_match.
Qed.

(** Whatever the stream holds, [ReadString] comes back. *)
Lemma ReadString_runs prefix : 1 ≤ prefix ≤ 8 → runs (ReadString (R := R) prefix).
Proof.
  intros Hp. unfold ReadString. apply runs_bind; [auto with runs|]. intros [huffman|]; [|auto with runs].
  apply (runs_bind_with (λ r, ∀ len, r = inl len → is_u64 len)); [apply runs_catch, ReadInt_runs; lia| |].
  { intros br r br' Hwf Hr len ->. unfold catch in Hr.
    destruct (ReadInt prefix br) as [[v|e| |] br1] eqn:Hi; try done. injection Hr as -> ->. by eapply (ReadInt_range prefix br); [..|exact Hi]. }
  intros [len|] Hlen; [|auto with runs]. cbv zeta. specialize (Hlen len eq_refl).
  destruct (Z.ltb_spec maxAlloc (if huffman =? 0 then len else u64 (u64 (len * 8) / 5 + 1)));
    [auto with runs|].
  set (fill := if huffman =? 0 then ReadFull_limited _ _ else _).
  assert (∀ br, br_wf br → ∃ bs err br', fill br = (Ok (bs, err), br') ∧ br_wf br' ∧ err ≠ Some ErrWouldBlock ∧
    ∃ bits, rbits br = bits ++ rbits br') as Hfill.
  { intros br Hwf. unfold fill. pose proof (ReadFull_string_runs (negb (huffman =? 0)) len _ br Hwf Hlen eq_refl) as Hs.
    by destruct (huffman =? 0). }
  apply (runs_bind_with (λ r, r.2 ≠ Some ErrWouldBlock)).
  - intros br Hwf. destruct (Hfill br Hwf) as (bs & err & br' & -> & ? & ? & ?). by exists (Ok (bs, err)), br'.
  - intros br r br' Hwf. destruct (Hfill br Hwf) as (bs & err & br1 & -> & ? & Herr & _). by intros [= <- _].
  - intros [buf [e|]] He; [|auto with runs]. cbn in He. destruct e; first [done|auto with runs].
Qed.
End ReadString_spec.

(** ** Strings that survive the trip *)

(** Of a sane size, and not an empty one that was compressed. *)
Definition string_ok (pref : HuffmanCodingChoice) (s : string) : Prop :=
  slen s < 2 ^ 36 ∧ (s ≠ ""%string ∨ pref ≠ HuffmanCodingAlways).

Lemma string_ok_sizes pref s : string_ok pref s →
  0 ≤ slen s < 2 ^ 36 ∧ 0 ≤ zlen (huffman_bytes (bytes_of_string s)) < 2 ^ 38.
Proof.
  intros [Hlen _]. unfold slen in *. pose proof (zlen_huffman_bytes_le _ (bytes_of_string_bytes s)).
  pose proof (zlen_nonneg (bytes_of_string s)).
  pose proof (zlen_nonneg (huffman_bytes (bytes_of_string s))). lia.
Qed.
