(* ===== verification/StaticTable.v ===== *)
(** * The static tables (hc/statictable.go)

    The entries of the HPACK (1-based) and QPACK (0-based) static tables, as the
    source lists them, and the lookups by index the tables answer. *)

From S2P Require Import Prelude.

Record staticTableEntry := StaticEntry {
  se_index : Z;
  se_name : string;
  se_value : string;
}.

#[export] Instance staticTableEntry_eq_dec : EqDecision staticTableEntry.
Proof. solve_decision. Defined.

Definition hpackStaticTable : list staticTableEntry :=
  (* index, name, value *)
  [ StaticEntry 1 ":authority" "";
    StaticEntry 2 ":method" "GET";
    StaticEntry 3 ":method" "POST";
    StaticEntry 4 ":path" "/";
    StaticEntry 5 ":path" "/index.html";
    StaticEntry 6 ":scheme" "http";
    StaticEntry 7 ":scheme" "https";
    StaticEntry 8 ":status" "200";
    StaticEntry 9 ":status" "204";
    StaticEntry 10 ":status" "206";
    StaticEntry 11 ":status" "304";
    StaticEntry 12 ":status" "400";
    StaticEntry 13 ":status" "404";
    StaticEntry 14 ":status" "500";
    StaticEntry 15 "accept-charset" "";
    StaticEntry 16 "accept-encoding" "gzip, deflate";
    StaticEntry 17 "accept-language" "";
    StaticEntry 18 "accept-ranges" "";
    StaticEntry 19 "accept" "";
    StaticEntry 20 "access-control-allow-origin" "";
    StaticEntry 21 "age" "";
    StaticEntry 22 "allow" "";
    StaticEntry 23 "authorization" "";
    StaticEntry 24 "cache-control" "";
    StaticEntry 25 "content-disposition" "";
    StaticEntry 26 "content-encoding" "";
    StaticEntry 27 "content-language" "";
    StaticEntry 28 "content-length" "";
    StaticEntry 29 "content-location" "";
    StaticEntry 30 "content-range" "";
    StaticEntry 31 "content-type" "";
    StaticEntry 32 "cookie" "";
    StaticEntry 33 "date" "";
    StaticEntry 34 "etag" "";
    StaticEntry 35 "expect" "";
    StaticEntry 36 "expires" "";
    StaticEntry 37 "from" "";
    StaticEntry 38 "host" "";
    StaticEntry 39 "if-match" "";
    StaticEntry 40 "if-modified-since" "";
    StaticEntry 41 "if-none-match" "";
    StaticEntry 42 "if-range" "";
    StaticEntry 43 "if-unmodified-since" "";
    StaticEntry 44 "last-modified" "";
    StaticEntry 45 "link" "";
    StaticEntry 46 "location" "";
    StaticEntry 47 "max-forwards" "";
    StaticEntry 48 "proxy-authenticate" "";
    StaticEntry 49 "proxy-authorization" "";
    StaticEntry 50 "range" "";
    StaticEntry 51 "referer" "";
    StaticEntry 52 "refresh" "";
    StaticEntry 53 "retry-after" "";
    StaticEntry 54 "server" "";
    StaticEntry 55 "set-cookie" "";
    StaticEntry 56 "strict-transport-security" "";
    StaticEntry 57 "transfer-encoding" "";
    StaticEntry 58 "user-agent" "";
    StaticEntry 59 "vary" "";
    StaticEntry 60 "via" "";
    StaticEntry 61 "www-authenticate" "" ].

Definition qpackStaticTable : list staticTableEntry :=
  (* index, name, value *)
  [ StaticEntry 0 ":authority" "";
    StaticEntry 1 ":path" "/";
    StaticEntry 2 "age" "0";
    StaticEntry 3 "content-disposition" "";
    StaticEntry 4 "content-length" "0";
    StaticEntry 5 "cookie" "";
    StaticEntry 6 "date" "";
    StaticEntry 7 "etag" "";
    StaticEntry 8 "if-modified-since" "";
    StaticEntry 9 "if-none-match" "";
    StaticEntry 10 "last-modified" "";
    StaticEntry 11 "link" "";
    StaticEntry 12 "location" "";
    StaticEntry 13 "referer" "";
    StaticEntry 14 "set-cookie" "";
    StaticEntry 15 ":method" "CONNECT";
    StaticEntry 16 ":method" "DELETE";
    StaticEntry 17 ":method" "GET";
    StaticEntry 18 ":method" "HEAD";
    StaticEntry 19 ":method" "OPTIONS";
    StaticEntry 20 ":method" "POST";
    StaticEntry 21 ":method" "PUT";
    StaticEntry 22 ":scheme" "http";
    StaticEntry 23 ":scheme" "https";
    StaticEntry 24 ":status" "103";
    StaticEntry 25 ":status" "200";
    StaticEntry 26 ":status" "304";
    StaticEntry 27 ":status" "404";
    StaticEntry 28 ":status" "503";
    StaticEntry 29 "accept" "*/*";
    StaticEntry 30 "accept" "application/dns-message";
    StaticEntry 31 "accept-encoding" "gzip, deflate, br";
    StaticEntry 32 "accept-ranges" "bytes";
    StaticEntry 33 "access-control-allow-headers" "cache-control";
    StaticEntry 34 "access-control-allow-headers" "content-type";
    StaticEntry 35 "access-control-allow-origin" "*";
    StaticEntry 36 "cache-control" "max-age=0";
    StaticEntry 37 "cache-control" "max-age=2592000";
    StaticEntry 38 "cache-control" "max-age=604800";
    StaticEntry 39 "cache-control" "no-cache";
    StaticEntry 40 "cache-control" "no-store";
    StaticEntry 41 "cache-control" "public, max-age=31536000";
    StaticEntry 42 "content-encoding" "br";
    StaticEntry 43 "content-encoding" "gzip";
    StaticEntry 44 "content-type" "application/dns-message";
    StaticEntry 45 "content-type" "application/javascript";
    StaticEntry 46 "content-type" "application/json";
    StaticEntry 47 "content-type" "application/x-www-form-urlencoded";
    StaticEntry 48 "content-type" "image/gif";
    StaticEntry 49 "content-type" "image/jpeg";
    StaticEntry 50 "content-type" "image/png";
    StaticEntry 51 "content-type" "text/css";
    StaticEntry 52 "content-type" "text/html; charset=utf-8";
    StaticEntry 53 "content-type" "text/plain";
    StaticEntry 54 "content-type" "text/plain;charset=utf-8";
    StaticEntry 55 "range" "bytes=0-";
    StaticEntry 56 "strict-transport-security" "max-age=31536000";
    StaticEntry 57 "strict-transport-security" "max-age=31536000; includesubdomains";
    StaticEntry 58 "strict-transport-security" "max-age=31536000; includesubdomains; preload";
    StaticEntry 59 "vary" "accept-encoding";
    StaticEntry 60 "vary" "origin";
    StaticEntry 61 "x-content-type-options" "nosniff";
    StaticEntry 62 "x-xss-protection" "1; mode=block";
    StaticEntry 63 ":status" "100";
    StaticEntry 64 ":status" "204";
    StaticEntry 65 ":status" "206";
    StaticEntry 66 ":status" "302";
    StaticEntry 67 ":status" "400";
    StaticEntry 68 ":status" "403";
    StaticEntry 69 ":status" "421";
    StaticEntry 70 ":status" "425";
    StaticEntry 71 ":status" "500";
    StaticEntry 72 "accept-language" "";
    StaticEntry 73 "access-control-allow-credentials" "FALSE";
    StaticEntry 74 "access-control-allow-credentials" "TRUE";
    StaticEntry 75 "access-control-allow-headers" "*";
    StaticEntry 76 "access-control-allow-methods" "get";
    StaticEntry 77 "access-control-allow-methods" "get, post, options";
    StaticEntry 78 "access-control-allow-methods" "options";
    StaticEntry 79 "access-control-expose-headers" "content-length";
    StaticEntry 80 "access-control-request-headers" "content-type";
    StaticEntry 81 "access-control-request-method" "get";
    StaticEntry 82 "access-control-request-method" "post";
    StaticEntry 83 "alt-svc" "clear";
    StaticEntry 84 "authorization" "";
    StaticEntry 85 "content-security-policy" "script-src 'none'; object-src 'none'; base-uri 'none'";
    StaticEntry 86 "early-data" "1";
    StaticEntry 87 "expect-ct" "";
    StaticEntry 88 "forwarded" "";
    StaticEntry 89 "if-range" "";
    StaticEntry 90 "origin" "";
    StaticEntry 91 "purpose" "prefetch";
    StaticEntry 92 "server" "";
    StaticEntry 93 "timing-allow-origin" "*";
    StaticEntry 94 "upgrade-insecure-requests" "1";
    StaticEntry 95 "user-agent" "";
    StaticEntry 96 "x-forwarded-for" "";
    StaticEntry 97 "x-frame-options" "deny";
    StaticEntry 98 "x-frame-options" "sameorigin" ].

(** The number of the entry is its position. *)
Definition numbered_from (first : Z) (es : list staticTableEntry) : bool :=
  forallb (λ p, se_index p.2 =? first + Z.of_nat p.1) (imap pair es).

Lemma numbered_from_lookup first es i e :
  numbered_from first es = true → es !! i = Some e → se_index e = first + Z.of_nat i.
Proof.
  unfold numbered_from. rewrite forallb_forall. intros Hall Hi.
  specialize (Hall (i, e)). cbn in Hall. apply Z.eqb_eq, Hall.
  apply list_elem_of_In, list_elem_of_lookup. exists i. by rewrite list_lookup_imap, Hi.
Qed.

Lemma hpackStaticTable_numbered : numbered_from 1 hpackStaticTable = true.
Proof. vm_compute. reflexivity. Qed.
Lemma qpackStaticTable_numbered : numbered_from 0 qpackStaticTable = true.
Proof. vm_compute. reflexivity. Qed.
Lemma hpackStaticTable_length : zlen hpackStaticTable = 61.
Proof. reflexivity. Qed.
Lemma qpackStaticTable_length : zlen qpackStaticTable = 99.
Proof. reflexivity. Qed.
