(* ===== verification/Table.v ===== *)
(** * The header tables' common part (hc/table.go)

    [tableCommon] over any type of dynamic entries (the Go interface
    [DynamicEntry] is the class of that name), with insertion, eviction and
    lookup as the source has them, the well-formedness of a table, and the
    abstract eviction [fit]: the newest entries that fit a limit. *)

From S2P Require Import Prelude Bits GoIo HuffmanTable Huffman HcString StaticTable.

Definition entryOverhead : Z := 32.

(** The interface [DynamicEntry]; [setBase] is the only mutator. *)
Class DynamicEntry (E : Type) := {
  Name : E → string;
  Value : E → string;
  Base : E → Z;
  setBase : Z → E → E;
}.

Class DynamicEntryLaws (E : Type) `{DynamicEntry E} : Prop := {
  Name_setBase b e : Name (setBase b e) = Name e;
  Value_setBase b e : Value (setBase b e) = Value e;
  Base_setBase b e : Base (setBase b e) = b;
}.

Record BasicDynamicEntry := MkBasicDynamicEntry {
  bde_N : string;
  bde_V : string;
  bde_B : Z;      (* int *)
}.

#[export] Instance BasicDynamicEntry_eq_dec : EqDecision BasicDynamicEntry.
Proof. solve_decision. Defined.

#[export] Instance BasicDynamicEntry_entry : DynamicEntry BasicDynamicEntry := {
  Name := bde_N;
  Value := bde_V;
  Base := bde_B;
  setBase b e := MkBasicDynamicEntry (bde_N e) (bde_V e) b;
}.

#[export] Instance BasicDynamicEntry_laws : DynamicEntryLaws BasicDynamicEntry.
Proof. by split. Qed.

(** An [Entry] of either table; nil is [None]. *)
Inductive Entry (E : Type) : Type :=
| Static (e : staticTableEntry)
| Dynamic (e : E).
Arguments Static {E}.
Arguments Dynamic {E}.

#[export] Instance Entry_eq_dec `{EqDecision E} : EqDecision (Entry E).
Proof. solve_decision. Defined.

Record tableCommon (E : Type) := TableCommon {
  dynamic : list E;     (* the newest entry first *)
  capacity : Z;         (* uint *)
  used : Z;             (* uint *)
  tbase : Z;            (* int: the number of inserts *)
}.
Arguments TableCommon {E}.
Arguments dynamic {E}.
Arguments capacity {E}.
Arguments used {E}.
Arguments tbase {E}.

(** The zero value of a table. *)
Definition newTable {E} : tableCommon E := TableCommon [] 0 0 0.

Section table.
Context {E : Type} `{DynamicEntry E}.

Definition entry_Name (e : Entry E) : string :=
  match e with Static s => se_name s | Dynamic d => Name d end.
Definition entry_Value (e : Entry E) : string :=
  match e with Static s => se_value s | Dynamic d => Value d end.

Definition Size (e : E) : Z := u64 (entryOverhead + u64 (slen (Name e) + slen (Value e))).

Definition GetDynamic (t : tableCommon E) (i base : Z) : option E :=
  let delta := i64 (tbase t - base) in
  if delta <? 0 then None else
  let dynIndex := i64 (i + delta) in
  if (zlen (dynamic t) <=? dynIndex) || (dynIndex <? 0) then None
  else dynamic t !! Z.to_nat dynIndex.

(** The [evictionCheck] passed around: nil, or a method that may also update
    state of its receiver, threaded as [S]. *)
Definition evictionCheck (S : Type) : Type := option (E → S → bool * S).

(** The loop of [evictTo] with [l] entries left: [None] when the check refuses
    an eviction. The entry at [l] is always there. *)
Fixpoint evictTo_loop {S} (entries : list E) (evict : evictionCheck S) (reduced : Z)
    (l : nat) (used : Z) (s : S) : option (nat * Z) * S :=
  match l with
  | O => (Some (l, used), s)
  | Datatypes.S l' =>
      if reduced <? used then
        match entries !! l' with
        | None => (None, s)
        | Some e =>
            let '(ok, s') := match evict with Some f => f e s | None => (true, s) end in
            if ok then evictTo_loop entries evict reduced l' (u64 (used - Size e)) s'
            else (None, s')
        end
      else (Some (l, used), s)
  end.

Definition evictTo {S} (t : tableCommon E) (reduced : Z) (evict : evictionCheck S) (s : S)
  : bool * tableCommon E * S :=
  match evictTo_loop (dynamic t) evict reduced (length (dynamic t)) (used t) s with
  | (Some (l, used'), s') =>
      (true, TableCommon (take l (dynamic t)) (capacity t) used' (tbase t), s')
  | (None, s') => (false, t, s')
  end.

Definition SetCapacity (t : tableCommon E) (c : Z) : tableCommon E :=
  let '(_, t', _) := evictTo t c None tt in
  TableCommon (dynamic t') c (used t') (tbase t').

(** [insert]: whether the entry went in, and the entry as its holder sees it
    afterwards (its base is set only when it did). *)
Definition insert {S} (t : tableCommon E) (entry : E) (evict : evictionCheck S) (s : S)
  : bool * tableCommon E * E * S :=
  if capacity t <? Size entry then
    let '(ok, t', s') := evictTo t 0 evict s in
    (false, if ok then TableCommon [] (capacity t') 0 (tbase t') else t', entry, s')
  else
    let '(ok, t', s') := evictTo t (u64 (capacity t - Size entry)) evict s in
    if ok then
      let b := i64 (tbase t' + 1) in
      let entry' := setBase b entry in
      (true, TableCommon (entry' :: dynamic t') (capacity t') (u64 (used t' + Size entry')) b,
       entry', s')
    else (false, t', entry, s').

(** [lookupImpl] as one scan over the entries: the match on name and value, and
    the first match on the name. *)
Fixpoint lookup_scan (entries : list (Entry E)) (name value : string)
    (nameMatch : option (Entry E)) : option (Entry E) * option (Entry E) :=
  match entries with
  | [] => (None, nameMatch)
  | e :: entries' =>
      if decide (entry_Name e = name) then
        if decide (entry_Value e = value) then (Some e, Some e)
        else lookup_scan entries' name value
               (match nameMatch with None => Some e | Some _ => nameMatch end)
      else lookup_scan entries' name value nameMatch
  end.

Definition lookupImpl (t : tableCommon E) (staticTable : list staticTableEntry)
    (name value : string) (dynamicMin dynamicMax : Z)
  : outcome (option (Entry E) * option (Entry E)) :=
  (* The slice expression is only reached when the static scan finds no match.
     A high bound between the length and the capacity of the slice would not
     panic in Go; no caller passes one. *)
  match lookup_scan (Static <$> staticTable) name value None with
  | (Some e, nm) => Ok (Some e, nm)
  | (None, nm) =>
      if (dynamicMin <? 0) || (dynamicMax <? dynamicMin) || (zlen (dynamic t) <? dynamicMax)
      then Panic
      else Ok (lookup_scan
             (Dynamic <$> ztake (dynamicMax - dynamicMin) (zdrop dynamicMin (dynamic t)))
             name value nm)
  end.
End table.

#[global] Arguments Size {E _} e : simpl never.

(** ** Well-formed tables *)

Section table_spec.
Context {E : Type} `{DynamicEntryLaws E}.

Fixpoint total (es : list E) : Z :=
  match es with [] => 0 | e :: es' => Size e + total es' end.

(** The accounting is exact and within the capacity, and the bases count down
    from the number of inserts. *)
Record table_wf (t : tableCommon E) : Prop := {
  wf_capacity : is_u64 (capacity t);
  wf_used : used t = total (dynamic t);
  wf_fits : total (dynamic t) ≤ capacity t;
  wf_bases i e : dynamic t !! i = Some e → Base e = tbase t - Z.of_nat i;
  wf_tbase : zlen (dynamic t) ≤ tbase t ≤ intMax;
}.

(** The abstract eviction: the newest entries that fit the limit. *)
Fixpoint fit (limit : Z) (es : list E) : list E :=
  match es with
  | [] => []
  | e :: es' => if Size e <=? limit then e :: fit (limit - Size e) es' else []
  end.

Lemma Size_range e : is_u64 (Size e).
Proof. apply u64_range. Qed.

Lemma Size_setBase b e : Size (setBase b e) = Size e.
Proof. unfold Size. by rewrite Name_setBase, Value_setBase. Qed.

Lemma total_nonneg es : 0 ≤ total es.
Proof. induction es as [|e es IH]; cbn; [lia|]. pose proof (Size_range e). unfold is_u64 in *. lia. Qed.

Lemma total_app es fs : total (es ++ fs) = total es + total fs.
Proof. induction es as [|e es IH]; cbn; [lia|]. rewrite IH. lia. Qed.

Lemma total_take_le l es : total (take l es) ≤ total es.
Proof.
  pose proof (total_app (take l es) (drop l es)) as Ht. rewrite take_drop in Ht.
  pose proof (total_nonneg (drop l es)). lia.
Qed.

Lemma take_S_total es l e : es !! l = Some e →
  total (take (S l) es) = total (take l es) + Size e.
Proof. intros He. rewrite (take_S_r _ _ _ He), total_app. cbn. lia. Qed.

Lemma fit_all limit es : total es ≤ limit → fit limit es = es.
Proof.
  revert limit. induction es as [|e es IH]; intros limit Hle; [done|]. cbn in *.
  pose proof (total_nonneg es). rewrite (proj2 (Z.leb_le _ _)) by lia. f_equal. apply IH. lia.
Qed.

(** An entry that does not fit is no loss. *)
Lemma fit_snoc limit es e : limit < total (es ++ [e]) → fit limit (es ++ [e]) = fit limit es.
Proof.
  revert limit. induction es as [|e' es IH]; intros limit Hlt; cbn in *.
  - rewrite (proj2 (Z.leb_gt _ _)) by lia. done.
  - destruct (_ <=? _) eqn:?; [|done]. f_equal. apply IH. lia.
Qed.

Lemma fit_prefix limit es : ∃ l, fit limit es = take l es.
Proof.
  revert limit. induction es as [|e es IH]; intros limit; [by exists 0%nat|]. cbn.
  destruct (_ <=? _); [|by exists 0%nat]. destruct (IH (limit - Size e)) as [l ->]. by exists (S l).
Qed.

Lemma fit_total limit es : 0 ≤ limit → total (fit limit es) ≤ limit.
Proof.
  revert limit. induction es as [|e es IH]; intros limit Hl; [done|]. cbn.
  destruct (Z.leb_spec (Size e) limit); [|done]. cbn. specialize (IH (limit - Size e)). lia.
Qed.

(** Nothing is evicted that could stay: the next entry would not fit. *)
Lemma fit_maximal limit es l : total (take l es) ≤ limit → take l es = take l (fit limit es).
Proof.
  revert limit l. induction es as [|e es IH]; intros limit l Hle; [done|].
  destruct l as [|l]; [done|]. cbn in *. pose proof (total_nonneg (take l es)).
  rewrite (proj2 (Z.leb_le (Size e) limit)) by lia. cbn. f_equal. apply IH. lia.
Qed.

(** ** Eviction *)

(** The loop by rule induction: [P l s] holds with [l] entries left and the
    check's state [s]. *)
Lemma evictTo_loop_spec {S} (P : nat → S → Prop) entries evict reduced l used s :
  (l ≤ length entries)%nat → used = total (take l entries) → used < 2 ^ 64 →
  P l s →
  (∀ l e s, entries !! l = Some e → reduced < total (take (Datatypes.S l) entries) →
     P (Datatypes.S l) s →
     match evict with
     | Some f => (f e s).1 = true → P l (f e s).2
     | None => P l s
     end) →
  match evictTo_loop entries evict reduced l used s with
  | (Some (l', used'), s') => used' = total (take l' entries) ∧ (l' ≤ l)%nat ∧
      fit reduced (take l entries) = take l' entries ∧ P l' s'
  | (None, s') => evict ≠ None ∧ reduced < used ∧ ∃ l' e s0, entries !! l' = Some e ∧
      P (Datatypes.S l') s0 ∧ match evict with Some f => f e s0 = (false, s') | None => False end
  end.
Proof.
  intros Hl Hused Hmax HP Hstep. revert used s Hl Hused Hmax HP.
  induction l as [|l IH]; intros used s Hl Hused Hmax HP; cbn [evictTo_loop].
  { split_and!; [done|done|by destruct entries|done]. }
  destruct (Z.ltb_spec reduced used) as [Hlt|Hge].
  2: { split_and!; [done|done| |done]. apply fit_all. lia. }
  destruct (lookup_lt_is_Some_2 entries l) as [e He]; [lia|]. rewrite He.
  pose proof (take_S_total _ _ _ He) as Htot. pose proof (total_nonneg (take l entries)).
  pose proof (Size_range e) as Hsz. unfold is_u64 in Hsz.
  assert (u64 (used - Size e) = total (take l entries)) as Hu by (rewrite u64_small; lia).
  assert (fit reduced (take (Datatypes.S l) entries) = fit reduced (take l entries)) as Hfit.
  { rewrite (take_S_r _ _ _ He). apply fit_snoc. rewrite <- (take_S_r _ _ _ He). lia. }
  specialize (Hstep l e s He ltac:(lia) HP).
  assert (∀ s', P l s' →
    match evictTo_loop entries evict reduced l (u64 (used - Size e)) s' with
    | (Some (l', used'), s') => used' = total (take l' entries) ∧ (l' ≤ Datatypes.S l)%nat ∧
        fit reduced (take (Datatypes.S l) entries) = take l' entries ∧ P l' s'
    | (None, s') => evict ≠ None ∧ reduced < used ∧ ∃ l' e s0, entries !! l' = Some e ∧
      P (Datatypes.S l') s0 ∧ match evict with Some f => f e s0 = (false, s') | None => False end
    end) as Hrec.
  { intros s' HP'. specialize (IH (u64 (used - Size e)) s' ltac:(lia) Hu ltac:(lia) HP').
    rewrite Hfit. destruct (evictTo_loop _ _ _ _ _ _) as [[[l' used']|] s''].
    - destruct IH as (? & ? & ? & ?). split_and!; [done|lia|done..].
    - destruct IH as (? & ? & ?). split_and!; [done|lia|done]. }
  destruct evict as [f|]; [|by apply Hrec].
  destruct (f e s) as [[] s'] eqn:Hf; [by apply Hrec, Hstep|].
  split_and!; [done|done|]. by exists l, e, s.
Qed.

Lemma evictTo_spec {S} (P : nat → S → Prop) (t : tableCommon E) reduced evict s :
  table_wf t → P (length (dynamic t)) s →
  (∀ l e s, dynamic t !! l = Some e → reduced < total (take (Datatypes.S l) (dynamic t)) →
     P (Datatypes.S l) s →
     match evict with
     | Some f => (f e s).1 = true → P l (f e s).2
     | None => P l s
     end) →
  match evictTo t reduced evict s with
  | (true, t', s') => t' = TableCommon (fit reduced (dynamic t)) (capacity t)
      (total (fit reduced (dynamic t))) (tbase t) ∧ P (length (fit reduced (dynamic t))) s'
  | (false, t', s') => t' = t ∧ evict ≠ None ∧ reduced < used t ∧
      ∃ l' e s0, dynamic t !! l' = Some e ∧ P (Datatypes.S l') s0 ∧
        match evict with Some f => f e s0 = (false, s') | None => False end
  end.
Proof.
  intros Hwf HP Hstep. unfold evictTo. destruct Hwf as [Hcap Hused Hfits _ _].
  pose proof (evictTo_loop_spec P (dynamic t) evict reduced (length (dynamic t)) (used t) s) as Hl.
  rewrite firstn_all in Hl. unfold is_u64 in Hcap.
  specialize (Hl ltac:(lia) Hused ltac:(lia) HP Hstep).
  destruct (evictTo_loop _ _ _ _ _ _) as [[[l' used']|] s']; [|done].
  destruct Hl as (-> & Hle & -> & HP'). split; [done|].
  by rewrite length_take, Nat.min_l by lia.
Qed.

Lemma evictTo_nocheck {S} (t : tableCommon E) reduced (s : S) : table_wf t →
  evictTo t reduced None s =
    (true, TableCommon (fit reduced (dynamic t)) (capacity t)
             (total (fit reduced (dynamic t))) (tbase t), s).
Proof.
  intros Hwf. pose proof (evictTo_spec (λ _ s', s' = s) t reduced None s Hwf eq_refl) as He.
  destruct (evictTo t reduced None s) as [[[] t'] s']; [|by destruct He as (_ & ? & _); [done..|]].
  destruct He as [-> ->]; done.
Qed.

(** ** The operations on a well-formed table *)

(** What is left when room is made for [c] bytes, and the abstract operations. *)
Definition evicted (t : tableCommon E) (c : Z) : list E := fit c (dynamic t).

Definition resized (t : tableCommon E) (c : Z) : tableCommon E :=
  TableCommon (evicted t c) c (total (evicted t c)) (tbase t).

Definition inserted (t : tableCommon E) (e : E) : tableCommon E :=
  if capacity t <? Size e then TableCommon [] (capacity t) 0 (tbase t)
  else
    let b := tbase t + 1 in
    TableCommon (setBase b e :: evicted t (capacity t - Size e)) (capacity t)
                (Size e + total (evicted t (capacity t - Size e))) b.

Lemma SetCapacity_resized t c : table_wf t → SetCapacity t c = resized t c.
Proof. intros Hwf. unfold SetCapacity. by rewrite evictTo_nocheck. Qed.

Lemma insert_inserted {S} t e (s : S) : table_wf t → tbase t < intMax →
  insert t e None s =
    if capacity t <? Size e then (false, inserted t e, e, s)
    else (true, inserted t e, setBase (tbase t + 1) e, s).
Proof.
  intros Hwf Hb. unfold insert, inserted. rewrite !evictTo_nocheck by done.
  pose proof Hwf as [Hcap _ _ _ Htb]. pose proof (Size_range e) as Hs.
  pose proof (zlen_nonneg (dynamic t)). unfold is_u64, intMax in *.
  destruct (Z.ltb_spec (capacity t) (Size e)); [done|]. cbn.
  rewrite (u64_small (_ - _)), i64_small, Size_setBase by lia. unfold evicted.
  pose proof (fit_total (capacity t - Size e) (dynamic t)).
  pose proof (total_nonneg (fit (capacity t - Size e) (dynamic t))).
  rewrite u64_small by lia. by rewrite (Z.add_comm (total _)).
Qed.

Lemma evicted_wf (t : tableCommon E) c n : table_wf t → 0 ≤ c → total (evicted t c) ≤ n → is_u64 n →
  table_wf (TableCommon (evicted t c) n (total (evicted t c)) (tbase t)).
Proof.
  intros [Hcap Hused Hfits Hbases Htb] Hc Hn Hnr. unfold evicted in *.
  destruct (fit_prefix c (dynamic t)) as [l Hl]. split; cbn; [done|done|done|..].
  - intros i e Hi. rewrite Hl in Hi. apply lookup_take_Some in Hi as [Hi _]. by apply Hbases.
  - rewrite Hl. unfold zlen in *. rewrite length_take. lia.
Qed.

Lemma resized_wf t c : table_wf t → is_u64 c → table_wf (resized t c).
Proof.
  intros Hwf Hc. apply evicted_wf; [done|unfold is_u64 in Hc; lia| |done].
  apply fit_total. unfold is_u64 in Hc. lia.
Qed.

Lemma inserted_wf t e : table_wf t → tbase t < intMax → table_wf (inserted t e).
Proof.
  intros Hwf Hb. pose proof Hwf as [Hcap _ _ _ Htb]. unfold inserted.
  pose proof (zlen_nonneg (dynamic t)).
  destruct (Z.ltb_spec (capacity t) (Size e)).
  - split; cbn; [done|done|unfold is_u64 in Hcap; lia|done|rewrite zlen_nil; lia].
  - pose proof (fit_total (capacity t - Size e) (dynamic t)) as Hfit.
    destruct (evicted_wf t (capacity t - Size e) (capacity t)) as [_ _ Hf Hbs Hl];
      [done|lia|unfold evicted; pose proof (Size_range e) as Hs; unfold is_u64 in Hs; lia|done|].
    cbn in *. unfold evicted in *.
    split; cbn; rewrite ?Size_setBase, ?zlen_cons; [done|lia|lia| |lia].
    intros [|i] e' Hi; cbn in Hi.
    + injection Hi as <-. rewrite Base_setBase. lia.
    + rewrite (Hbs i e' Hi). lia.
Qed.

Lemma newTable_wf : table_wf newTable.
Proof. by split. Qed.

(** [GetDynamic] finds exactly the entry whose base is [i] below [base]. *)
Lemma GetDynamic_spec t i base e : table_wf t → 0 ≤ base ≤ tbase t → 0 ≤ i < 2 ^ 62 →
  tbase t < 2 ^ 62 →
  GetDynamic t i base = Some e ↔ (e ∈ dynamic t ∧ Base e = base - i).
Proof.
  intros [_ _ _ Hbases Htb] Hbase Hi Hmax. unfold GetDynamic.
  rewrite (i64_small (_ - _)), i64_small by lia. rewrite (proj2 (Z.ltb_ge _ 0)) by lia.
  set (k := i + (tbase t - base)). rewrite (proj2 (Z.ltb_ge k 0)), orb_false_r by lia.
  split.
  - destruct (Z.leb_spec (zlen (dynamic t)) k); [done|]. intros Hk. split.
    + by eapply list_elem_of_lookup_2.
    + apply Hbases in Hk. lia.
  - intros [(j & Hj)%list_elem_of_lookup Hb]. pose proof (Hbases _ _ Hj).
    apply lookup_lt_Some in Hj as Hlt. unfold zlen in *.
    rewrite (proj2 (Z.leb_gt _ _)) by lia. by replace (Z.to_nat k) with j by lia.
Qed.

(** ** Lookup *)

Definition matches (name : string) (e : Entry E) : Prop := entry_Name e = name.
Definition matches2 (name value : string) (e : Entry E) : Prop :=
  entry_Name e = name ∧ entry_Value e = value.

Lemma lookup_scan_spec es name value nm :
  match lookup_scan es name value nm with
  | (Some e, e') => e ∈ es ∧ matches2 name value e ∧ e' = Some e
  | (None, nm') => (∀ e, e ∈ es → ¬ matches2 name value e) ∧
      match nm with
      | Some _ => nm' = nm
      | None => match nm' with
                | Some e => e ∈ es ∧ matches name e
                | None => ∀ e, e ∈ es → ¬ matches name e
                end
      end
  end.
Proof.
  unfold matches, matches2.
  revert nm. induction es as [|e es IH]; intros nm; cbn [lookup_scan].
  { split; [by intros ? ?%not_elem_of_nil|]. destruct nm; [done|].
    by intros ? ?%not_elem_of_nil. }
  destruct (decide (entry_Name e = name)) as [Hn|Hn].
  - destruct (decide (entry_Value e = value)) as [Hv|Hv].
    + split_and!; [by constructor|done..].
    + specialize (IH (match nm with None => Some e | Some _ => nm end)).
      destruct (lookup_scan _ _ _ _) as [[e1|] nm'].
      * destruct IH as (? & [? ?] & ?). split_and!; [by constructor|done..].
      * destruct IH as [Hnone IH]. split.
        { intros e' [->|?]%elem_of_cons; [by intros [_ ?]|by apply Hnone]. }
        destruct nm; [done|]. subst nm'. split; [by constructor|done].
  - specialize (IH nm). destruct (lookup_scan _ _ _ _) as [[e1|] nm'].
    + destruct IH as (? & [? ?] & ?). split_and!; [by constructor|done..].
    + destruct IH as [Hnone IH]. split.
      { intros e' [->|?]%elem_of_cons; [by intros [? _]|by apply Hnone]. }
      destruct nm; [done|]. destruct nm' as [e1|].
      * destruct IH as [? ?]. split; [by constructor|done].
      * intros e' [->|?]%elem_of_cons; [done|by apply IH].
Qed.

(** [lookupImpl] over the static entries and a range of the dynamic table. *)
Lemma lookupImpl_range (t : tableCommon E) statics name value lo hi : 0 ≤ lo ≤ hi → hi ≤ zlen (dynamic t) →
  ∃ r, lookupImpl t statics name value lo hi = Ok r ∧
  (let all := (Static <$> statics) ++ (Dynamic <$> ztake (hi - lo) (zdrop lo (dynamic t))) in
   match r with
   | (Some e, e') => e ∈ all ∧ matches2 name value e ∧ e' = Some e
   | (None, nm) => (∀ e, e ∈ all → ¬ matches2 name value e) ∧
       match nm with
       | Some e => e ∈ all ∧ matches name e
       | None => ∀ e, e ∈ all → ¬ matches name e
       end
   end).
Proof.
  intros Hlo Hhi. unfold lookupImpl. set (range := ztake (hi - lo) (zdrop lo (dynamic t))).
  pose proof (lookup_scan_spec (Static <$> statics) name value None) as Hs.
  destruct (lookup_scan _ _ _ _) as [[e|] nm].
  { eexists. split; [done|]. cbn. rewrite elem_of_app. destruct Hs as (? & [? ?] & ?).
    split_and!; [by left|done..]. }
  rewrite (proj2 (Z.ltb_ge lo 0)), (proj2 (Z.ltb_ge hi lo)),
    (proj2 (Z.ltb_ge (zlen (dynamic t)) hi)) by lia.
  cbn [orb]. eexists. split; [done|].
  pose proof (lookup_scan_spec (Dynamic <$> range) name value nm) as Hd.
  destruct (lookup_scan _ _ _ _) as [[e|] nm'].
  { cbn. rewrite elem_of_app. destruct Hd as (? & [? ?] & ?). split_and!; [by right|done..]. }
  cbn. destruct Hs as [Hs1 Hs2], Hd as [Hd1 Hd2]. split.
  { intros e [?|?]%elem_of_app; [by apply Hs1|by apply Hd1]. }
  destruct nm as [e|]; [subst nm'|destruct nm' as [e|]]; rewrite ?elem_of_app.
  - destruct Hs2. split; [by left|done].
  - destruct Hd2. split; [by right|done].
  - intros e [?|?]%elem_of_app; [by apply Hs2|by apply Hd2].
Qed.

(** The whole dynamic table. *)
Lemma lookupImpl_spec (t : tableCommon E) statics name value :
  ∃ r, lookupImpl t statics name value 0 (zlen (dynamic t)) = Ok r ∧
  (let all := (Static <$> statics) ++ (Dynamic <$> dynamic t) in
   match r with
   | (Some e, e') => e ∈ all ∧ matches2 name value e ∧ e' = Some e
   | (None, nm) => (∀ e, e ∈ all → ¬ matches2 name value e) ∧
       match nm with
       | Some e => e ∈ all ∧ matches name e
       | None => ∀ e, e ∈ all → ¬ matches name e
       end
   end).
Proof.
  pose proof (zlen_nonneg (dynamic t)).
  pose proof (lookupImpl_range t statics name value 0 (zlen (dynamic t))) as Hr.
  rewrite Z.sub_0_r, zdrop_0, ztake_all in Hr by lia. apply Hr; lia.
Qed.
End table_spec.

#[export] Hint Resolve resized_wf inserted_wf newTable_wf Size_range : go.
