(* ===== verification/Codec.v ===== *)
(** * What the HPACK and QPACK codecs share (hc/codec.go)

    Header fields, the order of pseudo-header fields, and the encoders' choice
    of the fields they index. *)

From Stdlib Require Import Ascii.
From S2P Require Import Prelude Bits GoIo HuffmanTable Huffman HcString Table.

Record HeaderField := MkHeaderField {
  h_Name : string;
  h_Value : string;
  h_Sensitive : bool;
}.

#[export] Instance HeaderField_eq_dec : EqDecision HeaderField.
Proof. solve_decision. Defined.

Definition HeaderField_size (h : HeaderField) : Z :=
  u64 (32 + u64 (slen (h_Name h) + slen (h_Value h))).

(** [h.Name[0] == ':']; indexing panics when the name is empty. *)
Definition is_pseudo (name : string) : outcome bool :=
  match name with
  | EmptyString => Panic
  | String c _ => Ok (bool_decide (c = ":"%char))
  end.

(** The check of one field, given that only pseudo-header fields came before:
    the new value of [pseudo]. *)
Definition checkPseudo (h : HeaderField) (pseudo : bool) : outcome bool :=
  match is_pseudo (h_Name h) with
  | Ok true => if pseudo then Ok pseudo else Err ErrPseudoHeaderOrdering
  | Ok false => Ok false
  | Err e => Err e
  | Panic => Panic
  | NoFuel => NoFuel
  end.

Fixpoint validate (headers : list HeaderField) (pseudo : bool) : outcome unit :=
  match headers with
  | [] => Ok tt
  | h :: headers' =>
      match checkPseudo h pseudo with
      | Ok pseudo' => validate headers' pseudo'
      | Err e => Err e
      | Panic => Panic
      | NoFuel => NoFuel
      end
  end.

Definition ValidatePseudoHeaders (headers : list HeaderField) : outcome unit :=
  validate headers true.

(** The encoder's settings. A nil [indexPrefs] map reads as an empty one. *)
Record encoderCommon := EncoderCommon {
  HuffmanPreference : HuffmanCodingChoice;
  indexPrefs : gmap string bool;
}.

Definition dontIndex : gset string :=
  list_to_set [":path"; "content-length"; "content-range"; "date"; "expires"; "etag";
    "if-modified-since"; "if-range"; "if-unmodified-since"; "last-modified"; "link";
    "range"; "referer"; "refresh"]%string.

Definition shouldIndex (encoder : encoderCommon) (capacity : Z) (h : HeaderField) : bool :=
  if capacity <? u64 (slen (h_Name h) + slen (h_Value h) + 32) then false
  else match indexPrefs encoder !! h_Name h with
       | Some pref => pref
       | None => negb (bool_decide (h_Name h ∈ dontIndex))
       end.

Definition SetIndexPreference (name : string) (pref : bool) (encoder : encoderCommon)
  : encoderCommon :=
  EncoderCommon (HuffmanPreference encoder) (<[name := pref]> (indexPrefs encoder)).

Definition ClearIndexPreference (name : string) (encoder : encoderCommon) : encoderCommon :=
  EncoderCommon (HuffmanPreference encoder) (delete name (indexPrefs encoder)).

(** ** Properties *)

Definition pseudo_name (h : HeaderField) : bool :=
  match is_pseudo (h_Name h) with Ok b => b | _ => false end.

Definition named (h : HeaderField) : Prop := h_Name h ≠ ""%string.

(** The order that is asked for: pseudo-header fields first. *)
Definition pseudo_first (headers : list HeaderField) : Prop :=
  ∃ l1 l2, headers = l1 ++ l2 ∧ Forall (λ h, pseudo_name h = true) l1 ∧
           Forall (λ h, pseudo_name h = false) l2.

Lemma checkPseudo_named h pseudo : named h →
  checkPseudo h pseudo =
    if pseudo_name h then if pseudo then Ok true else Err ErrPseudoHeaderOrdering else Ok false.
Proof.
  unfold checkPseudo, pseudo_name, named. destruct (h_Name h); [done|]. intros _. cbn.
  destruct (bool_decide _); [|done]. by destruct pseudo.
Qed.

Lemma validate_regular headers : Forall named headers →
  validate headers false =
    if forallb (λ h, negb (pseudo_name h)) headers then Ok tt else Err ErrPseudoHeaderOrdering.
Proof.
  induction 1 as [|h headers Hn _ IH]; [done|]. cbn. rewrite checkPseudo_named by done.
  by destruct (pseudo_name h).
Qed.

Lemma validate_spec headers : Forall named headers →
  (validate headers true = Ok tt ∧ pseudo_first headers) ∨
  (validate headers true = Err ErrPseudoHeaderOrdering ∧ ¬ pseudo_first headers).
Proof.
  induction 1 as [|h headers Hn Hns IH]; [left; split; [done|by exists [], []]|].
  cbn. rewrite checkPseudo_named by done. destruct (pseudo_name h) eqn:Hp.
  - destruct IH as [[-> (l1 & l2 & -> & ? & ?)]|[-> Hno]].
    + left. split; [done|]. exists (h :: l1), l2. by split_and!; [|constructor|].
    + right. split; [done|]. intros ([|h' l1] & l2 & Heq & Hl1 & Hl2); apply Hno.
      * cbn in Heq. subst l2. inversion Hl2. congruence.
      * injection Heq as <- ->. inversion Hl1. by exists l1, l2.
  - rewrite validate_regular by done. destruct (forallb _ _) eqn:Hall.
    + left. split; [done|]. exists [], (h :: headers). split_and!; [done..|].
      constructor; [done|]. apply Forall_forall. intros x Hx.
      rewrite forallb_forall in Hall. apply negb_true_iff, Hall. by apply list_elem_of_In.
    + right. split; [done|]. intros (l1 & l2 & Heq & Hl1 & Hl2).
      destruct l1 as [|h' l1]; [|injection Heq as <- ->; inversion Hl1; congruence].
      cbn in Heq. subst l2. inversion Hl2 as [|?? _ Hr]. subst.
      assert (forallb (λ h, negb (pseudo_name h)) headers = true); [|congruence].
      apply forallb_forall. intros x Hx%list_elem_of_In. rewrite Forall_forall in Hr.
      by rewrite Hr.
Qed.
