(* ===== verification/Hpack.v ===== *)
(** * HPACK (hc/hpack.go)

    The table with its single index space, the decoder and the encoder, against
    an abstract decoder [rep_apply] over field representations: the decoder
    implements it on every block of representations, the encoder emits
    representations that stand for the fields it was given and leave the same
    table. *)

From S2P Require Import Prelude Bits GoIo BitWriter BitReader HcInt HuffmanTable Huffman HcString StaticTable Table Codec.

(** ** The table *)

Definition hpackEntry : Type := BasicDynamicEntry.
Definition HpackTable : Type := tableCommon hpackEntry.

(** [hpackEntry.Index]: 0 when the entry is newer than [base]. *)
Definition hpackEntry_Index (hd : hpackEntry) (base : Z) : Z :=
  if base <? Base hd then 0 else i64 (zlen hpackStaticTable + 1 + base - Base hd).

Definition newEntry (name value : string) : hpackEntry := MkBasicDynamicEntry name value 0.

(** [HpackTable.Insert] drops its check and returns the entry in any case. *)
Definition Insert (t : HpackTable) (name value : string) : HpackTable * hpackEntry :=
  let '(_, t', e, _) := insert t (newEntry name value) None tt in (t', e).

Definition GetStatic (i : Z) : option staticTableEntry :=
  if (i <=? 0) || (zlen hpackStaticTable <? i) then None
  else hpackStaticTable !! Z.to_nat (i - 1).

Definition Get (t : HpackTable) (i : Z) : option (Entry hpackEntry) :=
  if i <=? 0 then None else
  match GetStatic i with
  | Some e => Some (Static e)
  | None => Dynamic <$> GetDynamic t (i64 (i - zlen hpackStaticTable - 1)) (tbase t)
  end.

Definition Lookup (t : HpackTable) (name value : string) :=
  lookupImpl t hpackStaticTable name value 0 (zlen (dynamic t)).

Definition Index (t : HpackTable) (e : Entry hpackEntry) : Z :=
  match e with
  | Dynamic d => i64 (zlen hpackStaticTable + 1 + tbase t - Base d)
  | Static s => se_index s
  end.

(** ** Decoder *)

(** The decoder's table with the reader of the block. *)
Record decoding (R : Type) := Decoding { dc_table : HpackTable; dc_reader : bitReader R }.
Arguments Decoding {R}.
Arguments dc_table {R}.
Arguments dc_reader {R}.

Section decoder.
Context {R : Type} `{IoReader R}.

Definition on_reader {A} (m : go (bitReader R) A) : go (decoding R) A :=
  zoom dc_reader (λ r d, Decoding (dc_table d) r) m.

Definition set_table (t : HpackTable) : go (decoding R) unit :=
  modS (λ d, Decoding t (dc_reader d)).

Definition readIndexed : go (decoding R) HeaderField :=
  index ← on_reader (ReadIndex 7);
  d ← getS;
  match Get (dc_table d) index with
  | None => fail ErrIndexError
  | Some entry => mret (MkHeaderField (entry_Name entry) (entry_Value entry) false)
  end.

Definition readNameValue (prefix : Z) : go (decoding R) (string * string) :=
  index ← on_reader (ReadIndex prefix);
  name ← (if index =? 0 then on_reader (ReadString 7)
          else d ← getS;
               match Get (dc_table d) index with
               | None => fail ErrIndexError
               | Some entry => mret (entry_Name entry)
               end);
  value ← on_reader (ReadString 7);
  mret (name, value).

Definition readIncremental : go (decoding R) HeaderField :=
  '(name, value) ← readNameValue 6;
  d ← getS;
  set_table (Insert (dc_table d) name value).1;;
  mret (MkHeaderField name value false).

Definition readCapacity : go (decoding R) unit :=
  capacity ← on_reader (ReadInt 5);
  d ← getS;
  set_table (SetCapacity (dc_table d) capacity).

Definition readLiteral : go (decoding R) HeaderField :=
  ni ← on_reader ReadBit;
  '(name, value) ← readNameValue 4;
  mret (MkHeaderField name value (ni =? 1)).

(** One round of the loop of [ReadHeaderBlock] after its first bit [b]: the
    field it appends, if any. *)
Definition readField (b : Z) : go (decoding R) (option HeaderField) :=
  if b =? 1 then h ← readIndexed; mret (Some h) else
  b ← on_reader ReadBit;
  if b =? 1 then h ← readIncremental; mret (Some h) else
  b ← on_reader ReadBit;
  if b =? 1 then readCapacity;; mret None else
  h ← readLiteral; mret (Some h).

(** Every round takes a bit, so the number of bits left is fuel enough. *)
Fixpoint ReadHeaderBlock_loop (fuel : nat) (headers : list HeaderField)
  : go (decoding R) (list HeaderField) :=
  match fuel with
  | O => nofuel
  | S fuel' =>
      r ← catch (on_reader ReadBit);
      match r with
      | inr EOF => mret headers
      | inr err => fail err
      | inl b =>
          h ← readField b;
          ReadHeaderBlock_loop fuel' (headers ++ option_list h)
      end
  end.

(** [ReadHeaderBlock(r)] on the table and the reader. *)
Definition ReadHeaderBlock (fuel : nat) : go (HpackTable * R) (list HeaderField) :=
  zoom (λ s, Decoding s.1 (NewBitReader s.2)) (λ d _, (dc_table d, br_reader (dc_reader d)))
    (headers ← ReadHeaderBlock_loop fuel [];
     lift (validate headers true);;
     mret headers).
End decoder.

(** ** Encoder *)

Record HpackEncoder := MkHpackEncoder {
  he_common : encoderCommon;
  he_table : HpackTable;
  minCapacity : Z;        (* uint *)
  nextCapacity : Z;       (* uint *)
}.

Definition Encoder_SetCapacity (c : Z) (encoder : HpackEncoder) : HpackEncoder :=
  MkHpackEncoder (he_common encoder) (he_table encoder)
    (if c <? minCapacity encoder then c else minCapacity encoder) c.

(** The zero encoder, and a new one. *)
Definition NewHpackEncoder (capacity : Z) : HpackEncoder :=
  Encoder_SetCapacity capacity
    (MkHpackEncoder (EncoderCommon HuffmanCodingAuto ∅) newTable 0 0).

Record encoding (W : Type) := Encoding { ec_encoder : HpackEncoder; ec_writer : bitWriter W }.
Arguments Encoding {W}.
Arguments ec_encoder {W}.
Arguments ec_writer {W}.

Section encoder.
Context {W : Type} `{IoWriter W}.

Definition on_writer {A} (m : go (bitWriter W) A) : go (encoding W) A :=
  zoom ec_writer (λ w s, Encoding (ec_encoder s) w) m.

Definition getEncoder : go (encoding W) HpackEncoder := s ← getS; mret (ec_encoder s).

Definition set_encoder_table (t : HpackTable) : go (encoding W) unit :=
  modS (λ s, let e := ec_encoder s in
    Encoding (MkHpackEncoder (he_common e) t (minCapacity e) (nextCapacity e)) (ec_writer s)).

Definition set_minCapacity (c : Z) : go (encoding W) unit :=
  modS (λ s, let e := ec_encoder s in
    Encoding (MkHpackEncoder (he_common e) (he_table e) c (nextCapacity e)) (ec_writer s)).

Definition writeCapacity (c : Z) : go (encoding W) unit :=
  on_writer (WriteBits 1 3);;
  on_writer (WriteInt c 5).

Definition writeCapacityChange : go (encoding W) unit :=
  e ← getEncoder;
  (if minCapacity e <? capacity (he_table e) then
     writeCapacity (minCapacity e);;
     set_encoder_table (SetCapacity (he_table e) (minCapacity e))
   else mret tt);;
  e ← getEncoder;
  if capacity (he_table e) <? nextCapacity e then
    writeCapacity (nextCapacity e);;
    set_encoder_table (SetCapacity (he_table e) (nextCapacity e));;
    set_minCapacity (nextCapacity e)
  else mret tt.

Definition writeIndexed (entry : Entry hpackEntry) : go (encoding W) unit :=
  on_writer (WriteBit 1);;
  e ← getEncoder;
  on_writer (WriteInt (u64 (Index (he_table e) entry)) 7).

Definition writeNameValue (h : HeaderField) (nameEntry : option (Entry hpackEntry)) (prefix : Z)
  : go (encoding W) unit :=
  e ← getEncoder;
  let nameIndex := match nameEntry with
                   | Some entry => u64 (Index (he_table e) entry)
                   | None => 0
                   end in
  on_writer (WriteInt nameIndex prefix);;
  (match nameEntry with
   | None => on_writer (WriteStringRaw (h_Name h) 7 (HuffmanPreference (he_common e)))
   | Some _ => mret tt
   end);;
  on_writer (WriteStringRaw (h_Value h) 7 (HuffmanPreference (he_common e))).

Definition writeIncremental (h : HeaderField) (nameEntry : option (Entry hpackEntry))
  : go (encoding W) unit :=
  on_writer (WriteBits 1 2);;
  writeNameValue h nameEntry 6;;
  e ← getEncoder;
  set_encoder_table (Insert (he_table e) (h_Name h) (h_Value h)).1.

Definition writeLiteral (h : HeaderField) (nameEntry : option (Entry hpackEntry))
  : go (encoding W) unit :=
  on_writer (WriteBits (if h_Sensitive h then 1 else 0) 4);;
  writeNameValue h nameEntry 4.

(** The choice of a representation for a field. *)
Definition writeField (h : HeaderField) : go (encoding W) unit :=
  e ← getEncoder;
  if h_Sensitive h then writeLiteral h None else
  '(m, nm) ← lift (Lookup (he_table e) (h_Name h) (h_Value h));
  match m with
  | Some entry => writeIndexed entry
  | None =>
      if shouldIndex (he_common e) (capacity (he_table e)) h
      then writeIncremental h nm else writeLiteral h nm
  end.

Fixpoint writeFields (headers : list HeaderField) (pseudo : bool) : go (encoding W) unit :=
  match headers with
  | [] => mret tt
  | h :: headers' =>
      pseudo' ← lift (checkPseudo h pseudo);
      writeField h;;
      writeFields headers' pseudo'
  end.

Definition WriteHeaderBlock (headers : list HeaderField) : go (HpackEncoder * W) unit :=
  zoom (λ s, Encoding s.1 (NewBitWriter s.2)) (λ s _, (ec_encoder s, bw_writer (ec_writer s)))
    (writeCapacityChange;; writeFields headers true).
End encoder.
