(* ===== verification/HpackSpec.v ===== *)
(** * HPACK: the abstract decoder and the refinement proofs

    [rep] is the representation of a field or a capacity update, [rep_bits] its
    encoding and [rep_apply] what it does to a table. The decoder implements
    [rep_apply] on any sequence of representations; the encoder emits
    representations [rep_apply] turns back into the fields it was given. *)

From S2P Require Import Prelude Bits GoIo BitWriter BitReader Streams HcInt HuffmanTable Huffman HcString StaticTable Table Codec Hpack.

(** ** Representations *)

Inductive nameRef : Type := NameIndex (i : Z) | NameLiteral (s : string).

Inductive rep : Type :=
| RIndexed (i : Z)
| RIncremental (n : nameRef) (v : string)
| RCapacity (c : Z)
| RLiteral (sensitive : bool) (n : nameRef) (v : string).

Section rep.
Variable pref : HuffmanCodingChoice.

Definition name_bits (n : nameRef) (prefix : Z) : list bool :=
  match n with
  | NameIndex i => int_bits prefix i
  | NameLiteral s => int_bits prefix 0 ++ string_bits s 7 pref
  end.

Definition rep_bits (r : rep) : list bool :=
  match r with
  | RIndexed i => true :: int_bits 7 i
  | RIncremental n v => false :: true :: name_bits n 6 ++ string_bits v 7 pref
  | RCapacity c => false :: false :: true :: int_bits 5 c
  | RLiteral sensitive n v =>
      false :: false :: false :: sensitive :: name_bits n 4 ++ string_bits v 7 pref
  end.

Definition name_ok (n : nameRef) : Prop :=
  match n with NameIndex i => 0 < i ≤ intMax | NameLiteral s => string_ok pref s end.

Definition rep_ok (r : rep) : Prop :=
  match r with
  | RIndexed i => 0 ≤ i ≤ intMax
  | RIncremental n v => name_ok n ∧ string_ok pref v
  | RCapacity c => is_u64 c
  | RLiteral _ n v => name_ok n ∧ string_ok pref v
  end.
End rep.

(** The abstract decoder. *)
Definition name_value (t : HpackTable) (n : nameRef) : option string :=
  match n with
  | NameIndex i => entry_Name <$> Get t i
  | NameLiteral s => Some s
  end.

Definition rep_apply (t : HpackTable) (r : rep) : option (HpackTable * option HeaderField) :=
  match r with
  | RIndexed i =>
      e ← Get t i;
      Some (t, Some (MkHeaderField (entry_Name e) (entry_Value e) false))
  | RIncremental n v =>
      name ← name_value t n;
      Some (inserted t (newEntry name v), Some (MkHeaderField name v false))
  | RCapacity c => Some (resized t c, None)
  | RLiteral sensitive n v =>
      name ← name_value t n;
      Some (t, Some (MkHeaderField name v sensitive))
  end.

Fixpoint reps_apply (t : HpackTable) (rs : list rep) : option (HpackTable * list HeaderField) :=
  match rs with
  | [] => Some (t, [])
  | r :: rs' =>
      '(t1, h) ← rep_apply t r;
      '(t2, hs) ← reps_apply t1 rs';
      Some (t2, option_list h ++ hs)
  end.

Lemma Insert_inserted t name value : table_wf t → tbase t < intMax →
  (Insert t name value).1 = inserted t (newEntry name value).
Proof. intros Hwf Hb. unfold Insert. rewrite insert_inserted by done. by destruct (_ <? _). Qed.

Lemma inserted_tbase t (e : hpackEntry) : tbase t ≤ tbase (inserted t e) ≤ tbase t + 1.
Proof. unfold inserted. destruct (_ <? _); cbn; lia. Qed.

Lemma inserted_capacity t (e : hpackEntry) : capacity (inserted t e) = capacity t.
Proof. unfold inserted. by destruct (_ <? _). Qed.

Lemma rep_apply_wf t r t' h pref : table_wf t → tbase t < intMax → rep_ok pref r →
  rep_apply t r = Some (t', h) → table_wf t' ∧ tbase t ≤ tbase t' ≤ tbase t + 1.
Proof.
  intros Hwf Hb Hok. destruct r as [i|n v|c|s n v]; cbn.
  - destruct (Get t i); [|done]. intros [= <- _]. split; [done|lia].
  - destruct (name_value t n); [|done]. intros [= <- _]. split; [by apply inserted_wf|].
    apply inserted_tbase.
  - intros [= <- _]. split; [by apply resized_wf|cbn; lia].
  - destruct (name_value t n); [|done]. intros [= <- _]. split; [done|lia].
Qed.

(** ** The decoder implements [rep_apply] *)

#[local] Opaque ReadIndex ReadInt ReadString ReadBit.

Section decoder_spec.
Context {R : Type} `{IoReaderSpec R} (pref : HuffmanCodingChoice).

(** The decoder's state beside the reader is its table. *)
#[local] Abbreviation dreads := (sreads Decoding).
#[local] Abbreviation dfails := (sfails Decoding).
#[local] Abbreviation dsafe := (ssafe Decoding table_wf tbase).

Lemma dreads_on {A} (m : go (bitReader R) A) a bits t : reads m a bits → dreads (on_reader m) t bits a t.
Proof. by apply sreads_zoom. Qed.

Lemma dreads_set (t t' : HpackTable) : dreads (set_table t') t [] tt t'.
Proof. by apply sreads_step. Qed.

Lemma dreads_string s t : string_ok pref s →
  dreads (on_reader (ReadString 7)) t (string_bits s 7 pref) s t.
Proof.
  intros Hs. apply dreads_on. pose proof (string_ok_sizes _ _ Hs) as [? ?]. destruct Hs as [_ Hne].
  apply ReadString_reads; [done|lia|lia|done].
Qed.

(** The name and the value of a literal. *)
Lemma readNameValue_reads n v t name prefix : 1 ≤ prefix ≤ 8 →
  name_ok pref n → string_ok pref v → name_value t n = Some name →
  dreads (readNameValue prefix) t (name_bits pref n prefix ++ string_bits v 7 pref) (name, v) t.
Proof.
  intros Hp Hn Hv Hname. unfold readNameValue.
  assert (dreads (index ← on_reader (ReadIndex prefix);
            if index =? 0 then on_reader (ReadString 7)
            else d ← getS; match Get (dc_table d) index with
                           | None => fail ErrIndexError
                           | Some entry => mret (entry_Name entry)
                           end) t (name_bits pref n prefix) name t) as Hfirst.
  { destruct n as [i|s]; cbn in *.
    - eapply sreads_bind_r; [apply dreads_on, ReadIndex_reads; [lia|done]|].
      rewrite (proj2 (Z.eqb_neq _ _)) by lia. apply sreads_get. intros br. cbn.
      destruct (Get t i); [|done]. injection Hname as <-. apply sreads_ret.
    - injection Hname as ->.
      eapply sreads_bind; [apply dreads_on, ReadIndex_reads; [unfold intMax; lia|done]|].
      by apply dreads_string. }
  apply sreads_assoc. eapply sreads_bind; [exact Hfirst|].
  eapply sreads_bind_r; [by apply dreads_string|apply sreads_ret].
Qed.

Lemma readNameValue_fails n v t prefix : 1 ≤ prefix ≤ 8 →
  name_ok pref n → name_value t n = None →
  dfails (readNameValue prefix) t (name_bits pref n prefix ++ string_bits v 7 pref) ErrIndexError.
Proof.
  intros Hp Hn Hname. destruct n as [i|s]; [|done]. cbn in *. unfold readNameValue.
  eapply sfails_bind; [apply dreads_on, ReadIndex_reads; [lia|done]|]. cbv beta.
  rewrite (proj2 (Z.eqb_neq _ _)) by lia. apply sfails_bind_l, sfails_get. intros br. cbn.
  destruct (Get t i); [done|]. by apply sfails_step.
Qed.

(** One round: the first bit, then [readField] on the others. *)
Lemma readField_reads t r : table_wf t → tbase t < intMax → rep_ok pref r →
  ∃ b bits, rep_bits pref r = b :: bits ∧
    match rep_apply t r with
    | Some (t', h) => dreads (readField (Z.b2z b)) t bits h t'
    | None => dfails (readField (Z.b2z b)) t bits ErrIndexError
    end.
Proof.
  intros Hwf Hb Hok. destruct r as [i|n v|c|s n v]; cbn [rep_bits rep_apply];
    eexists _, _; (split; [done|]); unfold readField; cbn [Z.b2z Z.eqb].
  - unfold readIndexed. cbn in Hok.
    destruct (Get t i) as [e|] eqn:Hget; cbn.
    + eapply sreads_bind_r; [|apply sreads_ret].
      eapply sreads_bind_r; [by apply dreads_on, ReadIndex_reads|].
      apply sreads_get. intros br. cbn. rewrite Hget. apply sreads_ret.
    + apply sfails_bind_l. eapply sfails_bind_r; [by apply dreads_on, ReadIndex_reads|].
      apply sfails_get. intros br. cbn. rewrite Hget. by apply sfails_step.
  - destruct Hok as [Hn Hv]. change (true :: ?x) with ([true] ++ x).
    destruct (name_value t n) as [name|] eqn:Hname; cbn [mbind option_bind].
    + eapply sreads_bind; [apply dreads_on, (ReadBit_reads true)|].
      eapply sreads_bind_r; [|apply sreads_ret]. unfold readIncremental.
      eapply sreads_bind_r; [by apply readNameValue_reads|]. cbv beta iota.
      apply sreads_get. intros br. cbn [dc_table]. rewrite Insert_inserted by done.
      eapply sreads_bind_r; [apply dreads_set|apply sreads_ret].
    + eapply sfails_bind; [apply dreads_on, (ReadBit_reads true)|].
      apply sfails_bind_l, sfails_bind_l. by apply readNameValue_fails.
  - change (false :: true :: ?x) with ([false] ++ [true] ++ x).
    eapply sreads_bind; [apply dreads_on, (ReadBit_reads false)|].
    eapply sreads_bind; [apply dreads_on, (ReadBit_reads true)|].
    eapply sreads_bind_r; [|apply sreads_ret]. unfold readCapacity.
    eapply sreads_bind_r; [by apply dreads_on, ReadInt_reads|].
    apply sreads_get. intros br. cbn [dc_table]. rewrite SetCapacity_resized by done.
    apply dreads_set.
  - destruct Hok as [Hn Hv]. change (false :: false :: ?b :: ?x) with ([false] ++ [false] ++ [b] ++ x).
    destruct (name_value t n) as [name|] eqn:Hname; cbn [mbind option_bind].
    + eapply sreads_bind; [apply dreads_on, (ReadBit_reads false)|].
      eapply sreads_bind; [apply dreads_on, (ReadBit_reads false)|].
      eapply sreads_bind_r; [|apply sreads_ret]. unfold readLiteral.
      eapply sreads_bind; [apply dreads_on, (ReadBit_reads s)|].
      eapply sreads_bind_r; [by apply readNameValue_reads|]. cbv beta iota.
      replace s with (Z.b2z s =? 1) at 2 by by destruct s. apply sreads_ret.
    + eapply sfails_bind; [apply dreads_on, (ReadBit_reads false)|].
      eapply sfails_bind; [apply dreads_on, (ReadBit_reads false)|]. apply sfails_bind_l.
      eapply sfails_bind; [apply dreads_on, (ReadBit_reads s)|].
      apply sfails_bind_l. by apply readNameValue_fails.
Qed.

Definition reps_bits (rs : list rep) : list bool := mjoin (rep_bits pref <$> rs).

Lemma reps_bits_cons r rs : reps_bits (r :: rs) = rep_bits pref r ++ reps_bits rs.
Proof. done. Qed.

(** The loop applies the representations in turn. The inserts are counted to
    stay below the largest [int]. *)
Lemma ReadHeaderBlock_loop_reads rs t t' hs headers fuel br :
  table_wf t → tbase t + zlen rs < intMax → Forall (rep_ok pref) rs →
  reps_apply t rs = Some (t', hs) → br_wf br → rbits br = reps_bits rs →
  (length rs < fuel)%nat →
  ∃ br', ReadHeaderBlock_loop fuel headers (Decoding t br) = (Ok (headers ++ hs), Decoding t' br').
Proof.
  revert t hs headers fuel br. induction rs as [|r rs IH]; intros t hs headers fuel br
    Hwf Hb Hok Happ Hbr Hl Hf; (destruct fuel as [|fuel]; [cbn in Hf; lia|]); cbn [ReadHeaderBlock_loop].
  - injection Happ as <- <-. rewrite app_nil_r, bind_unfold. unfold catch, on_reader, zoom. cbn.
    destruct (ReadBit_spec br Hbr) as (br' & _ & Hr). rewrite Hl in Hr. cbn in Hr.
    destruct Hr as [-> _]. by exists br'.
  - cbn in Happ. pose proof (zlen_nonneg rs). zlen_simpl. inversion Hok as [|?? Hr Hrs]; subst.
    destruct (readField_reads t r Hwf) as (b & bits & Hbits & Hread); [lia|done|].
    destruct (rep_apply t r) as [[t1 h]|] eqn:Hap; [|done]. cbn in Happ.
    destruct (reps_apply t1 rs) as [[t2 hs']|] eqn:Haps; [|done].
    cbn in Happ. injection Happ as -> <-.
    rewrite reps_bits_cons, Hbits in Hl.
    destruct (dreads_on ReadBit (Z.b2z b) [b] t (ReadBit_reads b) br _ Hbr Hl) as (br1 & Hr1 & Hbr1 & Hl1).
    destruct (Hread br1 _ Hbr1 Hl1) as (br2 & Hr2 & Hbr2 & Hl2).
    destruct (rep_apply_wf _ _ _ _ pref Hwf ltac:(lia) Hr Hap) as [Hwf1 Hb1].
    destruct (IH t1 hs' (headers ++ option_list h) fuel br2) as (br3 & Hr3);
      [done|lia|done..|cbn in Hf; lia|].
    exists br3. rewrite bind_unfold. unfold catch. rewrite Hr1. cbv iota beta.
    rewrite (bind_Ok _ _ _ _ _ Hr2), Hr3. by rewrite <- (assoc_L (++)).
Qed.

(** A block with a bad index is refused where it stands. *)
Lemma ReadHeaderBlock_loop_fails rs t headers fuel br :
  table_wf t → tbase t + zlen rs < intMax → Forall (rep_ok pref) rs →
  reps_apply t rs = None → br_wf br → rbits br = reps_bits rs → (length rs < fuel)%nat →
  ∃ t' br', ReadHeaderBlock_loop fuel headers (Decoding t br) = (Err ErrIndexError, Decoding t' br').
Proof.
  revert t headers fuel br. induction rs as [|r rs IH]; intros t headers fuel br
    Hwf Hb Hok Happ Hbr Hl Hf; [done|]. destruct fuel as [|fuel]; [cbn in Hf; lia|].
  cbn [ReadHeaderBlock_loop].
  cbn in Happ. pose proof (zlen_nonneg rs). zlen_simpl. inversion Hok as [|?? Hr Hrs]; subst.
  destruct (readField_reads t r Hwf) as (b & bits & Hbits & Hread); [lia|done|].
  rewrite reps_bits_cons, Hbits in Hl.
  destruct (dreads_on ReadBit (Z.b2z b) [b] t (ReadBit_reads b) br _ Hbr Hl) as (br1 & Hr1 & Hbr1 & Hl1).
  rewrite bind_unfold. unfold catch. rewrite Hr1. cbv iota beta.
  destruct (rep_apply t r) as [[t1 h]|] eqn:Hap.
  - destruct (Hread br1 _ Hbr1 Hl1) as (br2 & Hr2 & Hbr2 & Hl2).
    destruct (rep_apply_wf _ _ _ _ pref Hwf ltac:(lia) Hr Hap) as [Hwf1 Hb1]. cbn in Happ.
    destruct (reps_apply t1 rs) as [[t2 hs']|] eqn:Haps; [done|].
    destruct (IH t1 (headers ++ option_list h) fuel br2) as (t3 & br3 & Hr3);
      [done|lia|done..|cbn in Hf; lia|].
    exists t3, br3. by rewrite (bind_Ok _ _ _ _ _ Hr2).
  - destruct (Hread br1 _ Hbr1 Hl1) as (t2 & br2 & Hr2). exists t2, br2.
    by rewrite (bind_Err _ _ _ _ _ Hr2).
Qed.

Lemma rep_bits_pos r : (1 ≤ length (rep_bits pref r))%nat.
Proof. destruct r; cbn; lia. Qed.

Lemma reps_bits_length rs : (length rs ≤ length (reps_bits rs))%nat.
Proof.
  induction rs as [|r rs IH]; [done|]. rewrite reps_bits_cons. cbn [length].
  pose proof (rep_bits_pos r). rewrite length_app. lia.
Qed.

(** The outcome of decoding the fields [hs]: the order is checked last. *)
Definition ordered (hs : list HeaderField) : outcome (list HeaderField) :=
  match validate hs true with
  | Ok _ => Ok hs
  | Err e => Err e
  | Panic => Panic
  | NoFuel => NoFuel
  end.

(** A block of representations is decoded as [reps_apply] says. *)
Lemma ReadHeaderBlock_reads rs t fuel r :
  table_wf t → tbase t + zlen rs < intMax → Forall (rep_ok pref) rs →
  rd_wf r → bits_of_bytes (content r) = reps_bits rs → (8 * length (content r) < fuel)%nat →
  match reps_apply t rs with
  | Some (t', hs) => ∃ r', ReadHeaderBlock fuel (t, r) = (ordered hs, (t', r'))
  | None => ∃ t' r', ReadHeaderBlock fuel (t, r) = (Err ErrIndexError, (t', r'))
  end.
Proof.
  intros Hwf Hb Hok Hr Hl Hf.
  pose proof (reps_bits_length rs) as Hlen. rewrite <- Hl in Hlen.
  pose proof (zlen_bits_of_bytes (content r)) as H8. unfold zlen in H8.
  assert (br_wf (NewBitReader r)) as Hbr by by split.
  unfold ReadHeaderBlock, zoom, ordered. cbn [fst snd].
  destruct (reps_apply t rs) as [[t' hs]|] eqn:Happ.
  - destruct (ReadHeaderBlock_loop_reads rs t t' hs [] fuel (NewBitReader r)) as (br' & Hrun);
      [done..|lia|].
    exists (br_reader br'). rewrite (bind_Ok _ _ _ _ _ Hrun), bind_unfold. unfold lift.
    rewrite app_nil_l. by destruct (validate hs true).
  - destruct (ReadHeaderBlock_loop_fails rs t [] fuel (NewBitReader r)) as (t' & br' & Hrun);
      [done..|lia|].
    exists t', (br_reader br'). by rewrite (bind_Err _ _ _ _ _ Hrun).
Qed.

(** ** The decoder on any input *)

Lemma dsafe_on {A} (m : go (bitReader R) A) : runs m → dsafe 0 (on_reader m).
Proof. by apply ssafe_zoom. Qed.

Lemma dsafe_update {A} n (f : HpackTable → HpackTable) (a : A) :
  (∀ t, table_wf t → tbase t + n ≤ intMax → table_wf (f t) ∧ tbase (f t) ≤ tbase t + n) →
  dsafe n (d ← getS; set_table (f (dc_table d));; mret a).
Proof.
  intros Hf t br Hwf Hbr Hb. destruct (Hf t Hwf Hb).
  exists (Ok a), (f t), br. by split_and!.
Qed.

Lemma readNameValue_safe prefix : 1 ≤ prefix ≤ 8 → dsafe 0 (readNameValue prefix).
Proof.
  intros Hp. apply ssafe_bind_0; [done|apply dsafe_on, ReadIndex_runs; lia|]. intros index.
  apply ssafe_bind_0; [done| |].
  - destruct (index =? 0); [by apply dsafe_on, ReadString_runs|].
    apply ssafe_get. intros d br. cbn. destruct (Get _ _); [apply ssafe_ret|by apply ssafe_fail].
  - intros name. apply ssafe_bind_0; [done|by apply dsafe_on, ReadString_runs|].
    intros value. apply ssafe_ret.
Qed.

Lemma readCapacity_safe : dsafe 0 readCapacity.
Proof.
  intros t br Hwf Hbr Hb. destruct (ReadInt_runs 5 ltac:(done) br Hbr) as (o & br1 & Hr & Ho & Hbr1 & bits & Hbits).
  unfold readCapacity. rewrite bind_unfold. unfold on_reader, zoom. cbn. rewrite Hr.
  pose proof (zlen_nonneg bits). assert (zlen (rbits br1) ≤ zlen (rbits br)) by (rewrite Hbits; zlen_simpl; lia).
  destruct o as [c|e| |]; [|by eexists _, t, br1; split_and!; (done || lia)..|done].
  exists (Ok tt), (resized t c), br1. rewrite bind_unfold. cbn [getS dc_table].
  rewrite SetCapacity_resized by done.
  split_and!; [done|done| |cbn; lia|done|done].
  apply resized_wf; [done|]. by apply (ReadInt_range 5 br c br1).
Qed.

Lemma readField_safe b : dsafe 1 (readField b).
Proof.
  unfold readField. destruct (b =? 1).
  { apply ssafe_weaken; [done|]. apply ssafe_bind_0; [done| |intros h; apply ssafe_ret].
    apply ssafe_bind_0; [done|by apply dsafe_on, ReadIndex_runs|]. intros i.
    apply ssafe_get. intros d br. cbn. destruct (Get _ _); [apply ssafe_ret|by apply ssafe_fail]. }
  apply ssafe_bind_0; [done|apply dsafe_on, ReadBit_runs|]. intros b1. destruct (b1 =? 1).
  { apply (ssafe_bind _ _ _ _ _ 1 0); [done|done| |intros h; apply ssafe_ret].
    apply ssafe_bind_0; [done|by apply readNameValue_safe|]. intros [name value].
    apply (dsafe_update 1 (λ t, (Insert t name value).1)). intros t Hwf Hb.
    rewrite Insert_inserted by (done || lia). split; [apply inserted_wf; (done || lia)|].
    apply inserted_tbase. }
  apply ssafe_weaken; [done|].
  apply ssafe_bind_0; [done|apply dsafe_on, ReadBit_runs|]. intros b2. destruct (b2 =? 1).
  { apply ssafe_bind_0; [done|apply readCapacity_safe|]. intros _. apply ssafe_ret. }
  apply ssafe_bind_0; [done| |intros h; apply ssafe_ret].
  apply ssafe_bind_0; [done|apply dsafe_on, ReadBit_runs|]. intros ni.
  apply ssafe_bind_0; [done|by apply readNameValue_safe|]. intros [name value]. apply ssafe_ret.
Qed.

Lemma ReadHeaderBlock_loop_safe fuel headers t br :
  table_wf t → br_wf br → zlen (rbits br) < Z.of_nat fuel → tbase t + Z.of_nat fuel ≤ intMax →
  ∃ o t' br', ReadHeaderBlock_loop fuel headers (Decoding t br) = (o, Decoding t' br') ∧
    returns o ∧ table_wf t' ∧ br_wf br'.
Proof.
  revert headers t br. induction fuel as [|fuel IH]; intros headers t br Hwf Hbr Hl Hb;
    pose proof (zlen_nonneg (rbits br)); [lia|]. cbn [ReadHeaderBlock_loop]. rewrite bind_unfold.
  unfold catch, on_reader at 1, zoom. cbn.
  destruct (ReadBit_spec br Hbr) as (br1 & Hbr1 & Hr).
  destruct (rbits br) as [|b l]; destruct Hr as [-> Hl1].
  { eexists _, t, br1. by split_and!. }
  zlen_simpl. rewrite bind_unfold.
  destruct (readField_safe (Z.b2z b) t br1 Hwf Hbr1) as (o & t2 & br2 & -> & Ho & Hwf2 & Hb2 & Hbr2 & Hl2);
    [lia|].
  destruct o as [h|e| |]; [|by eexists _, t2, br2; split_and!..|done].
  apply IH; [done|done| |lia]. rewrite Hl1 in Hl2. lia.
Qed.
End decoder_spec.

(** ** The index space *)

(** [Get] and [Index] are inverse on the entries of the two tables. *)
Lemma Get_static i : 0 < i ≤ 61 → ∃ s, Get newTable i = Some (Static s) ∧
  hpackStaticTable !! Z.to_nat (i - 1) = Some s ∧ ∀ t, Get t i = Some (Static s).
Proof.
  intros Hi. pose proof hpackStaticTable_length as Hlen. unfold zlen in Hlen.
  destruct (lookup_lt_is_Some_2 hpackStaticTable (Z.to_nat (i - 1))) as [s Hs]; [lia|].
  assert (∀ t, Get t i = Some (Static s)) as Hget.
  { intros t. unfold Get, GetStatic. rewrite hpackStaticTable_length.
    rewrite !(proj2 (Z.leb_gt i 0)), (proj2 (Z.ltb_ge 61 i)) by lia. cbn [orb]. by rewrite Hs. }
  exists s. by rewrite Hget.
Qed.

Lemma Get_dynamic t i : table_wf t → tbase t < 2 ^ 61 → 61 < i < 2 ^ 61 →
  Get t i = Dynamic <$> GetDynamic t (i - 62) (tbase t).
Proof.
  intros Hwf Hb Hi. unfold Get, GetStatic. rewrite hpackStaticTable_length.
  rewrite !(proj2 (Z.leb_gt i 0)), (proj2 (Z.ltb_lt 61 i)) by lia. cbn [orb].
  rewrite i64_small by lia. do 2 f_equal. lia.
Qed.

Lemma Get_Index t e : table_wf t → tbase t < 2 ^ 60 →
  e ∈ (Static <$> hpackStaticTable) ++ (Dynamic <$> dynamic t) →
  Get t (Index t e) = Some e ∧ 0 < Index t e < 2 ^ 61.
Proof.
  intros Hwf Hb. pose proof Hwf as [_ _ _ Hbases Htb].
  rewrite elem_of_app, !list_elem_of_fmap. intros [(s & -> & Hs)|(d & -> & Hd)]; cbn [Index].
  - apply list_elem_of_lookup in Hs as [i Hi].
    pose proof (numbered_from_lookup _ _ _ _ hpackStaticTable_numbered Hi) as Hn.
    apply lookup_lt_Some in Hi as Hlt. pose proof hpackStaticTable_length as Hlen. unfold zlen in Hlen.
    destruct (Get_static (se_index s)) as (s' & _ & Hs' & Hget); [lia|].
    split; [|lia]. rewrite Hget. replace (Z.to_nat _) with i in Hs' by lia. congruence.
  - apply list_elem_of_lookup in Hd as [k Hk]. pose proof (Hbases _ _ Hk) as HB.
    apply lookup_lt_Some in Hk as Hlt. unfold zlen in Htb. rewrite hpackStaticTable_length.
    rewrite i64_small by lia. split; [|lia]. rewrite Get_dynamic by (done || lia).
    replace (61 + 1 + tbase t - Base d - 62) with (Z.of_nat k) by lia.
    rewrite (proj2 (GetDynamic_spec t (Z.of_nat k) (tbase t) d Hwf ltac:(lia) ltac:(lia) ltac:(lia))); [done|].
    split; [by eapply list_elem_of_lookup_2|lia].
Qed.

(** ** The encoder emits representations of its fields *)

Section encoder_spec.
Context {W : Type} `{IoWriterSpec W} `{!IoWriterTotal W}.

(** The encoder's state beside the writer. *)
#[local] Abbreviation ewrites := (swrites Encoding).

Lemma ewrites_lift {A} (o : outcome A) a e : o = Ok a → ewrites (lift o) e [] a e.
Proof. intros ->. by apply swrites_step. Qed.

Lemma ewrites_on {A} (m : go (bitWriter W) A) a bits e :
  writes m a bits → ewrites (on_writer m) e bits a e.
Proof. by apply swrites_zoom. Qed.

Lemma ewrites_get {B} (k : HpackEncoder → go (encoding W) B) e l b e' :
  ewrites (k e) e l b e' → ewrites (getEncoder ≫= k) e l b e'.
Proof. intros Hk bw Hok. by apply (Hk bw). Qed.

Definition with_table (e : HpackEncoder) (t : HpackTable) : HpackEncoder :=
  MkHpackEncoder (he_common e) t (minCapacity e) (nextCapacity e).

Definition with_min (e : HpackEncoder) (c : Z) : HpackEncoder :=
  MkHpackEncoder (he_common e) (he_table e) c (nextCapacity e).

Lemma ewrites_set_table e t : ewrites (set_encoder_table t) e [] tt (with_table e t).
Proof. by apply swrites_step. Qed.
Lemma ewrites_set_min e c : ewrites (set_minCapacity c) e [] tt (with_min e c).
Proof. by apply swrites_step. Qed.

Definition enc_pref (e : HpackEncoder) := HuffmanPreference (he_common e).

Lemma ewrites_string e s : string_ok (enc_pref e) s →
  ewrites (on_writer (WriteStringRaw s 7 (enc_pref e))) e (string_bits s 7 (enc_pref e)) tt e.
Proof.
  intros Hs. apply ewrites_on. destruct (string_ok_sizes _ _ Hs).
  apply WriteStringRaw_writes; unfold is_u64; lia.
Qed.

(** The reference to a name the encoder makes. *)
Definition name_ref (t : HpackTable) (h : HeaderField) (nm : option (Entry hpackEntry)) : nameRef :=
  match nm with Some e => NameIndex (Index t e) | None => NameLiteral (h_Name h) end.

Definition entry_ok (t : HpackTable) (e : Entry hpackEntry) : Prop :=
  Get t (Index t e) = Some e ∧ 0 < Index t e < 2 ^ 61.

Definition field_ok (pref : HuffmanCodingChoice) (h : HeaderField) : Prop :=
  named h ∧ string_ok pref (h_Name h) ∧ string_ok pref (h_Value h).

Lemma name_ref_ok pref t h nm : field_ok pref h →
  (∀ e, nm = Some e → entry_ok t e ∧ matches (h_Name h) e) →
  name_ok pref (name_ref t h nm) ∧ name_value t (name_ref t h nm) = Some (h_Name h).
Proof.
  intros (_ & Hn & _) Hnm. destruct nm as [e|]; cbn; [|done].
  destruct (Hnm e eq_refl) as [[Hget ?] <-]. rewrite Hget. unfold intMax. split; [lia|done].
Qed.

Lemma writeNameValue_writes e h nm prefix : 1 ≤ prefix ≤ 8 → field_ok (enc_pref e) h →
  (∀ en, nm = Some en → entry_ok (he_table e) en) →
  ewrites (writeNameValue h nm prefix) e
    (name_bits (enc_pref e) (name_ref (he_table e) h nm) prefix ++
     string_bits (h_Value h) 7 (enc_pref e)) tt e.
Proof.
  intros Hp (_ & Hn & Hv) Hnm. apply ewrites_get. destruct nm as [en|]; cbn [name_ref name_bits].
  - destruct (Hnm en eq_refl) as [_ Hidx].
    eapply swrites_bind.
    { apply ewrites_on. rewrite u64_small by lia. apply WriteInt_writes; [unfold is_u64; lia|done]. }
    eapply swrites_bind_l; [apply swrites_ret|]. by apply ewrites_string.
  - rewrite <- (assoc_L (++)).
    eapply swrites_bind; [apply ewrites_on, WriteInt_writes; [done|done]|].
    eapply swrites_bind; by apply ewrites_string.
Qed.

(** One field becomes one representation, which the abstract decoder turns back
    into the field, and both tables move alike. *)
(** A field that is not indexed. *)
Lemma writeLiteral_ewrites e h nm : field_ok (enc_pref e) h → (∀ en, nm = Some en → entry_ok (he_table e) en) →
  ewrites (writeLiteral h nm) e (rep_bits (enc_pref e) (RLiteral (h_Sensitive h) (name_ref (he_table e) h nm) (h_Value h))) tt e.
Proof.
  intros Hok Hnm. unfold writeLiteral. set (b := h_Sensitive h).
  change (rep_bits _ _) with ([false; false; false; b] ++ name_bits (enc_pref e) (name_ref (he_table e) h nm) 4 ++ string_bits (h_Value h) 7 (enc_pref e)).
  replace [false; false; false; b] with (zbits 4 (if b then 1 else 0)) by by destruct b.
  eapply swrites_bind; [apply ewrites_on, WriteBits_writes; by destruct b|by apply writeNameValue_writes].
Qed.

Lemma writeField_writes e h : table_wf (he_table e) → tbase (he_table e) < 2 ^ 60 →
  field_ok (enc_pref e) h →
  ∃ r t', ewrites (writeField h) e (rep_bits (enc_pref e) r) tt (with_table e t') ∧
    rep_ok (enc_pref e) r ∧ rep_apply (he_table e) r = Some (t', Some h) ∧
    capacity t' = capacity (he_table e).
Proof.
  intros Hwf Hb Hok. pose proof Hok as (_ & _ & Hv). set (t := he_table e) in *.
  assert (∀ c, with_table (with_table e t) c = with_table e c) as Hwt by done.
  assert (with_table e t = e) as Hself by by destruct e.
  destruct h as [n v [|]]; unfold writeField.
  - exists (RLiteral true (NameLiteral n) v), t. rewrite Hself. split; [|split; [|by split]].
    + apply ewrites_get. cbn [h_Sensitive]. by apply (writeLiteral_ewrites e (MkHeaderField n v true) None).
    + cbn. destruct Hok as (_ & ? & ?). done.
  - destruct (lookupImpl_spec t hpackStaticTable n v) as (r & Hr & Hspec). cbv zeta in Hspec.
    destruct r as [[en|] nm]; cbn [h_Sensitive h_Name h_Value] in *.
    + destruct Hspec as (Hin & [Hn Hval] & _). destruct (Get_Index t en Hwf Hb Hin) as [Hget Hidx].
      exists (RIndexed (Index t en)), t. rewrite Hself. split; [|split; [|split; [|done]]].
      * apply ewrites_get. cbn [h_Sensitive]. eapply swrites_bind_l; [by apply ewrites_lift|]. cbv iota beta.
        change (rep_bits _ _) with (zbits 1 1 ++ int_bits 7 (Index t en)).
        eapply swrites_bind; [by apply ewrites_on, WriteBit_writes|]. apply ewrites_get.
        apply ewrites_on. fold t. rewrite u64_small by lia.
        apply WriteInt_writes; [unfold is_u64; lia|done].
      * cbn. unfold intMax. lia.
      * cbn. by rewrite Hget, <- Hn, <- Hval.
    + destruct Hspec as [_ Hnm].
      assert (∀ en, nm = Some en → entry_ok t en ∧ matches n en) as Hent.
      { intros en ->. destruct Hnm as [Hin ?]. split; [|done]. by apply Get_Index. }
      destruct (name_ref_ok (enc_pref e) t (MkHeaderField n v false) nm Hok Hent) as [Hnok Hnv].
      set (nr := name_ref t (MkHeaderField n v false) nm) in *. cbn [h_Name] in Hnv.
      destruct (shouldIndex (he_common e) (capacity t) (MkHeaderField n v false)) eqn:Hsi.
      * exists (RIncremental nr v), (inserted t (newEntry n v)). split_and!; [|done|cbn; by rewrite Hnv|apply inserted_capacity].
        apply ewrites_get. cbn [h_Sensitive]. eapply swrites_bind_l; [by apply ewrites_lift|]. cbv iota beta.
        fold t. rewrite Hsi. unfold writeIncremental.
        change (rep_bits _ _) with (zbits 2 1 ++ name_bits (enc_pref e) nr 6 ++ string_bits v 7 (enc_pref e)).
        eapply swrites_bind; [by apply ewrites_on, WriteBits_writes|].
        eapply swrites_bind_r.
        { apply (writeNameValue_writes e (MkHeaderField n v false) nm 6); [done|done|]. intros en Hen. by apply Hent. }
        apply ewrites_get. rewrite Insert_inserted by (done || unfold intMax; fold t; lia).
        apply ewrites_set_table.
      * exists (RLiteral false nr v), t. rewrite Hself. split_and!; [|done|cbn; by rewrite Hnv|done].
        apply ewrites_get. cbn [h_Sensitive]. eapply swrites_bind_l; [by apply ewrites_lift|]. cbv iota beta.
        fold t. rewrite Hsi.
        apply (writeLiteral_ewrites e (MkHeaderField n v false) nm); [done|]. intros en Hen. by apply Hent.
Qed.

Lemma writeFields_writes headers pseudo e : table_wf (he_table e) →
  tbase (he_table e) + zlen headers < 2 ^ 60 → Forall (field_ok (enc_pref e)) headers →
  validate headers pseudo = Ok tt →
  ∃ rs t', ewrites (writeFields headers pseudo) e (reps_bits (enc_pref e) rs) tt (with_table e t') ∧
    Forall (rep_ok (enc_pref e)) rs ∧ zlen rs = zlen headers ∧ table_wf t' ∧
    reps_apply (he_table e) rs = Some (t', headers) ∧ capacity t' = capacity (he_table e).
Proof.
  revert pseudo e. induction headers as [|h headers IH]; intros pseudo e Hwf Hb Hok Hval;
    cbn [writeFields].
  { exists [], (he_table e). split_and!; try done. destruct e. apply swrites_ret. }
  cbn [validate] in Hval. destruct (checkPseudo h pseudo) as [pseudo'| | |] eqn:Hp; try done.
  pose proof (zlen_nonneg headers). zlen_simpl. inversion Hok as [|?? Hh Hhs]; subst.
  destruct (writeField_writes e h Hwf) as (r & t1 & Hw1 & Hr & Hap1 & Hc1); [lia|done|].
  destruct (rep_apply_wf _ _ _ _ _ Hwf ltac:(unfold intMax; lia) Hr Hap1) as [Hwf1 Hb1].
  destruct (IH pseudo' (with_table e t1)) as (rs & t2 & Hw2 & Hrs & Hlen & Hwf2 & Hap2 & Hc2);
    [done|cbn; lia|done|done|].
  exists (r :: rs), t2. split_and!; [|by constructor|zlen_simpl; lia|done| |].
  - rewrite reps_bits_cons. eapply swrites_bind_l; [by apply ewrites_lift|].
    eapply swrites_bind; [exact Hw1|exact Hw2].
  - cbn. rewrite Hap1. cbn. cbn in Hap2. by rewrite Hap2.
  - cbn in Hc2. congruence.
Qed.

(** ** Capacity updates *)

Definition enc_wf (e : HpackEncoder) : Prop :=
  table_wf (he_table e) ∧ is_u64 (minCapacity e) ∧ is_u64 (nextCapacity e) ∧
  minCapacity e ≤ nextCapacity e.

Lemma writeCapacity_writes e c : is_u64 c →
  ewrites (writeCapacity c) e (rep_bits (enc_pref e) (RCapacity c)) tt e.
Proof.
  intros Hc. change (rep_bits _ _) with (zbits 3 1 ++ int_bits 5 c).
  eapply swrites_bind; apply ewrites_on; [by apply WriteBits_writes|by apply WriteInt_writes].
Qed.

(** The updates to signal: the smallest capacity since the last block, if it is
    below the table's, then the current one. *)
Definition lower (e : HpackEncoder) : list rep * HpackEncoder :=
  if minCapacity e <? capacity (he_table e)
  then ([RCapacity (minCapacity e)], with_table e (resized (he_table e) (minCapacity e)))
  else ([], e).

Definition raise (e : HpackEncoder) : list rep * HpackEncoder :=
  if capacity (he_table e) <? nextCapacity e
  then ([RCapacity (nextCapacity e)],
        with_min (with_table e (resized (he_table e) (nextCapacity e))) (nextCapacity e))
  else ([], e).

Definition capacityChange (e : HpackEncoder) : list rep * HpackEncoder :=
  let '(rs1, e1) := lower e in let '(rs2, e2) := raise e1 in (rs1 ++ rs2, e2).

(** [e'] differs from [e] by the updates [rs] of the table, and goes on with
    the same preferences. *)
Definition updated (e : HpackEncoder) (rs : list rep) (e' : HpackEncoder) : Prop :=
  enc_wf e' ∧ he_common e' = he_common e ∧ nextCapacity e' = nextCapacity e ∧
  tbase (he_table e') = tbase (he_table e) ∧ Forall (rep_ok (enc_pref e)) rs ∧
  reps_apply (he_table e) rs = Some (he_table e', []).

Lemma lower_writes e : enc_wf e → let '(rs, e') := lower e in
  ewrites (if minCapacity e <? capacity (he_table e) then
             writeCapacity (minCapacity e);;
             set_encoder_table (SetCapacity (he_table e) (minCapacity e))
           else mret tt) e (reps_bits (enc_pref e) rs) tt e' ∧
  updated e rs e' ∧ minCapacity e' = minCapacity e ∧ capacity (he_table e') ≤ minCapacity e.
Proof.
  intros (Hwf & Hmin & Hnext & Hle). unfold lower.
  destruct (Z.ltb_spec (minCapacity e) (capacity (he_table e))).
  - split; [|split; [|by split]].
    + unfold reps_bits. cbn [fmap list_fmap mjoin list_join]. rewrite app_nil_r.
      eapply swrites_bind_r; [by apply writeCapacity_writes|].
      rewrite SetCapacity_resized by done. apply ewrites_set_table.
    + split_and!; try done; [|by constructor].
      split; [by apply resized_wf|done].
  - split; [apply swrites_ret|]. by split_and!.
Qed.

Lemma raise_writes e : enc_wf e → capacity (he_table e) ≤ minCapacity e → let '(rs, e') := raise e in
  ewrites (if capacity (he_table e) <? nextCapacity e then
             writeCapacity (nextCapacity e);;
             set_encoder_table (SetCapacity (he_table e) (nextCapacity e));;
             set_minCapacity (nextCapacity e)
           else mret tt) e (reps_bits (enc_pref e) rs) tt e' ∧
  updated e rs e' ∧ minCapacity e' = nextCapacity e ∧ capacity (he_table e') = nextCapacity e.
Proof.
  intros (Hwf & Hmin & Hnext & Hle) Hcap. unfold raise.
  destruct (Z.ltb_spec (capacity (he_table e)) (nextCapacity e)).
  - split; [|split; [|by split]].
    + unfold reps_bits. cbn [fmap list_fmap mjoin list_join]. rewrite app_nil_r.
      eapply swrites_bind_r; [by apply writeCapacity_writes|].
      eapply swrites_bind_l; [apply ewrites_set_table|].
      rewrite SetCapacity_resized by done. apply ewrites_set_min.
    + split_and!; try done; [|by constructor].
      split; [by apply resized_wf|done].
  - split; [apply swrites_ret|]. split_and!; try (done || lia).
Qed.

Lemma reps_bits_app pref rs1 rs2 :
  reps_bits pref (rs1 ++ rs2) = reps_bits pref rs1 ++ reps_bits pref rs2.
Proof. unfold reps_bits. by rewrite fmap_app, join_app. Qed.

Lemma reps_apply_app t rs1 t1 h1 rs2 t2 h2 :
  reps_apply t rs1 = Some (t1, h1) → reps_apply t1 rs2 = Some (t2, h2) →
  reps_apply t (rs1 ++ rs2) = Some (t2, h1 ++ h2).
Proof.
  revert t h1. induction rs1 as [|r rs1 IH]; intros t h1 Ha1 Ha2; cbn in *.
  { by injection Ha1 as -> <-. }
  destruct (rep_apply t r) as [[t0 h]|]; [|done]. cbn in *.
  destruct (reps_apply t0 rs1) as [[t3 hs]|] eqn:Hr; [|done]. cbn in Ha1.
  injection Ha1 as -> <-. rewrite (IH t0 hs Hr Ha2). cbn. by rewrite (assoc_L (++)).
Qed.

Lemma writeCapacityChange_writes e : enc_wf e → let '(rs, e') := capacityChange e in
  ewrites writeCapacityChange e (reps_bits (enc_pref e) rs) tt e' ∧ updated e rs e' ∧
  minCapacity e' = nextCapacity e ∧ capacity (he_table e') = nextCapacity e.
Proof.
  intros Hwf. unfold capacityChange. pose proof (lower_writes e Hwf) as Hlow.
  destruct (lower e) as [rs1 e1]. destruct Hlow as (Hw1 & Hu1 & Hm1 & Hc1).
  destruct Hu1 as (Hwf1 & Hcom1 & Hn1 & Hb1 & Hok1 & Hap1).
  pose proof (raise_writes e1 Hwf1) as Hup. rewrite Hm1 in Hup. specialize (Hup Hc1).
  destruct (raise e1) as [rs2 e2]. destruct Hup as (Hw2 & Hu2 & Hm2 & Hc2).
  destruct Hu2 as (Hwf2 & Hcom2 & Hn2 & Hb2 & Hok2 & Hap2).
  assert (enc_pref e1 = enc_pref e) as Hpref by (unfold enc_pref; by rewrite Hcom1).
  rewrite Hpref in *. split.
  - rewrite reps_bits_app. apply ewrites_get. eapply swrites_bind; [exact Hw1|].
    apply ewrites_get. exact Hw2.
  - split_and!; try congruence. split_and!; try congruence; try apply Hwf2.
    + by apply Forall_app.
    + exact (reps_apply_app _ _ _ _ _ _ _ Hap1 Hap2).
Qed.

(** ** A whole block *)

Lemma zlen_rep_bits pref r : ∃ k, zlen (rep_bits pref r) = 8 * k.
Proof.
  assert (∀ n v p, 1 ≤ p ≤ 8 →
    ∃ k, zlen (name_bits pref n p ++ string_bits v 7 pref) = p + 8 * k) as Hnv.
  { intros n v p Hp. destruct (zlen_string_bits v 7 pref) as [k1 Hk1]; [done|].
    destruct n as [i|s]; cbn [name_bits]; zlen_simpl; rewrite Hk1.
    - destruct (zlen_int_bits p i) as [k2 ->]; [lia|]. exists (k2 + k1 + 1). lia.
    - destruct (zlen_int_bits p 0) as [k2 ->]; [lia|]. destruct (zlen_string_bits s 7 pref) as [k3 ->]; [done|].
      exists (k2 + k3 + k1 + 2). lia. }
  destruct r as [i|n v|c|s n v]; cbn [rep_bits]; rewrite !zlen_cons.
  - destruct (zlen_int_bits 7 i) as [k ->]; [done|]. exists (1 + k). lia.
  - destruct (Hnv n v 6) as [k ->]; [done|]. exists (1 + k). lia.
  - destruct (zlen_int_bits 5 c) as [k ->]; [done|]. exists (1 + k). lia.
  - destruct (Hnv n v 4) as [k ->]; [done|]. exists (1 + k). lia.
Qed.

Lemma zlen_reps_bits pref rs : ∃ k, zlen (reps_bits pref rs) = 8 * k.
Proof.
  induction rs as [|r rs [k IH]]; [by exists 0|]. rewrite reps_bits_cons, zlen_app, IH.
  destruct (zlen_rep_bits pref r) as [k' ->]. exists (k' + k). lia.
Qed.

(** The block is a whole number of bytes, all of them accepted by the writer
    below, and the encoder's table is the one the abstract decoder ends with. *)
Lemma WriteHeaderBlock_writes headers e w :
  enc_wf e → tbase (he_table e) + zlen headers < 2 ^ 60 →
  Forall (field_ok (enc_pref e)) headers → validate headers true = Ok tt →
  Forall is_byte (accepted w) →
  ∃ rs block e' w', WriteHeaderBlock headers (e, w) = (Ok tt, (e', w')) ∧
    accepted w' = accepted w ++ block ∧ Forall is_byte block ∧
    bits_of_bytes block = reps_bits (enc_pref e) rs ∧
    Forall (rep_ok (enc_pref e)) rs ∧ zlen rs ≤ zlen headers + 2 ∧ enc_wf e' ∧
    capacity (he_table e') = nextCapacity e ∧
    reps_apply (he_table e) rs = Some (he_table e', headers).
Proof.
  intros Hwf Hb Hok Hval Hacc. pose proof (writeCapacityChange_writes e Hwf) as Hcap.
  assert (zlen (capacityChange e).1 ≤ 2) as Hlen1.
  { unfold capacityChange, lower, raise. by repeat case_match; simplify_eq. }
  destruct (capacityChange e) as [rs1 e1]. destruct Hcap as (Hw1 & Hu & Hm1 & Hc1).
  destruct Hu as (Hwf1 & Hcom & Hn1 & Hb1 & Hok1 & Hap1).
  assert (enc_pref e1 = enc_pref e) as Hpref by (unfold enc_pref; by rewrite Hcom).
  destruct (writeFields_writes headers true e1) as (rs2 & t' & Hw2 & Hok2 & Hlen2 & Hwf2 & Hap2 & Hc2);
    [apply Hwf1|lia|by rewrite Hpref|done|]. rewrite Hpref in *.
  destruct (swrites_bind Encoding _ (λ _, writeFields headers true) _ _ _ _ _ _ _ Hw1 Hw2 (NewBitWriter w))
    as (bw & Hrun & [Hsb Hbytes] & Hbits); [by split|].
  rewrite <- reps_bits_app in Hbits. unfold wbits at 2 in Hbits.
  cbn [NewBitWriter bw_writer bw_savedBits] in Hbits. rewrite zbits_0, app_nil_r in Hbits.
  destruct (zlen_reps_bits (enc_pref e) (rs1 ++ rs2)) as [k Hk].
  destruct (whole_accepted bw w _ k (conj Hsb Hbytes) Hacc Hbits Hk) as (block & Hac & Hbb & Hblock).
  exists (rs1 ++ rs2), block, (with_table e1 t'), (bw_writer bw).
  unfold WriteHeaderBlock, zoom. cbn [fst snd]. rewrite Hrun.
  split_and!; [done|done|done|done|by apply Forall_app|zlen_simpl; cbn in *; lia| | |].
  - destruct Hwf1 as (_ & Hwf1). split; [done|exact Hwf1].
  - cbn. congruence.
  - exact (reps_apply_app _ _ _ _ _ _ _ Hap1 Hap2).
Qed.
End encoder_spec.
