(* ===== verification/HpackProps.v ===== *)
(** * HPACK: the properties

    Round trips, the decoder's refinement of the abstract decoder, its safety on
    any input, capacity updates and the index space. *)

From S2P Require Import Prelude Bits GoIo BitWriter BitReader HcInt HuffmanTable Huffman HcString StaticTable Table Codec Hpack HpackSpec.

(** ** Concrete values for the witnesses *)

Definition sampleHeaders : list HeaderField :=
  [ MkHeaderField ":method" "GET" false;
    MkHeaderField ":path" "/sample/path" false;
    MkHeaderField "custom-key" "custom-header" false;
    MkHeaderField "password" "secret" true;
    MkHeaderField "custom-key" "custom-header" false ]%string.

Definition sampleEncoder : HpackEncoder := NewHpackEncoder 256.

Lemma sampleEncoder_wf : enc_wf sampleEncoder.
Proof. split; [apply newTable_wf|]. unfold is_u64; cbn; lia. Qed.

Lemma sampleHeaders_ok : Forall (field_ok HuffmanCodingAuto) sampleHeaders.
Proof.
  repeat constructor; try done; right; done.
Qed.

Lemma sampleHeaders_pseudo : pseudo_first sampleHeaders.
Proof.
  exists (take 2 sampleHeaders), (drop 2 sampleHeaders).
  split_and!; [done|by repeat constructor..].
Qed.

Lemma Forall_named pref headers : Forall (field_ok pref) headers → Forall named headers.
Proof. intros Hok. eapply Forall_impl; [exact Hok|]. by intros h (? & _). Qed.

Lemma validate_ordered headers : Forall named headers → pseudo_first headers →
  validate headers true = Ok tt.
Proof. intros Hn Hp. by destruct (validate_spec headers Hn) as [[? _]|[_ ?]]. Qed.

(** C4: the header block an encoder writes for well-ordered fields is decoded, by
    a decoder whose table equals the encoder's, to exactly these fields, each
    with its sensitivity, and the two tables are equal again afterwards. *)
Theorem hpack_roundtrip headers e :
  enc_wf e → tbase (he_table e) + zlen headers < 2 ^ 60 →
  Forall (field_ok (enc_pref e)) headers → pseudo_first headers →
  ∃ block e', WriteHeaderBlock headers (e, MkBuffer []) = (Ok tt, (e', MkBuffer block)) ∧
    enc_wf e' ∧ capacity (he_table e') = nextCapacity e ∧
    ∀ fuel, (8 * length block < fuel)%nat →
    ∃ r', ReadHeaderBlock fuel (he_table e, MkBytesReader block) = (Ok headers, (he_table e', r')).
Proof.
  intros Hwf Hb Hok Hps.
  pose proof (validate_ordered headers (Forall_named _ _ Hok) Hps) as Hval.
  destruct (WriteHeaderBlock_writes headers e (MkBuffer []) Hwf Hb Hok Hval)
    as (rs & block & e' & [w'] & Hrun & Hacc & Hbytes & Hbits & Hreps & Hlen & Hwf' & Hcap & Happ);
    [constructor|].
  cbn in Hacc. subst w'. exists block, e'. split_and!; [done|apply Hwf'..|done|].
  intros fuel Hf.
  pose proof (ReadHeaderBlock_reads (enc_pref e) rs (he_table e) fuel (MkBytesReader block)) as Hd.
  rewrite Happ in Hd. unfold ordered in Hd. rewrite Hval in Hd.
  apply Hd; try done; [apply Hwf|unfold intMax; lia].
Qed.

Lemma hpack_roundtrip_witness :
  (enc_wf sampleEncoder ∧ Forall (field_ok (enc_pref sampleEncoder)) sampleHeaders) ∧
  ∃ block e', WriteHeaderBlock sampleHeaders (sampleEncoder, MkBuffer []) =
    (Ok tt, (e', MkBuffer block)) ∧
    enc_wf e' ∧ capacity (he_table e') = nextCapacity sampleEncoder ∧
    ∀ fuel, (8 * length block < fuel)%nat →
    ∃ r', ReadHeaderBlock fuel (he_table sampleEncoder, MkBytesReader block) =
      (Ok sampleHeaders, (he_table e', r')).
Proof.
  split; [split; [apply sampleEncoder_wf|apply sampleHeaders_ok]|].
  apply (hpack_roundtrip sampleHeaders sampleEncoder);
    [apply sampleEncoder_wf|done|apply sampleHeaders_ok|apply sampleHeaders_pseudo].
Defined.

(** The block of the witness decodes, by evaluation. *)
Example sample_decodes :
  match WriteHeaderBlock sampleHeaders (sampleEncoder, MkBuffer []) with
  | (Ok _, (e', MkBuffer block)) =>
      match ReadHeaderBlock 2000 (newTable, MkBytesReader block) with
      | (Ok hs, (t', _)) => bool_decide (hs = sampleHeaders) && (used t' =? used (he_table e'))
      | _ => false
      end
  | _ => false
  end = true.
Proof. vm_compute. reflexivity. Qed.

(** The capacity updates of the source's own test: after a reset to 0 and 256 the
    block is [20 3f e1 01] (the first, from an empty table, lacks the [20]). *)
Example reset_capacity_bytes :
  let reset := λ e, Encoder_SetCapacity 256 (Encoder_SetCapacity 0 e) in
  match WriteHeaderBlock [] (reset (NewHpackEncoder 0), MkBuffer []) with
  | (Ok _, (e1, MkBuffer b1)) =>
      match WriteHeaderBlock [] (reset e1, MkBuffer []) with
      | (Ok _, (_, MkBuffer b2)) => bool_decide (b1 = [0x3f; 0xe1; 0x01] ∧ b2 = [0x20; 0x3f; 0xe1; 0x01])
      | _ => false
      end
  | _ => false
  end = true.
Proof. vm_compute. reflexivity. Qed.

Definition sampleReps : list rep :=
  [ RCapacity 100; RIncremental (NameLiteral "a") "b"; RIndexed 62;
    RLiteral true (NameIndex 62) "c" ]%string.

Definition sampleBlock : list Z := bytes_of_bits (reps_bits HuffmanCodingNever sampleReps).

Lemma sampleReps_ok : Forall (rep_ok HuffmanCodingNever) sampleReps.
Proof.
  repeat constructor; try (right; done); try (vm_compute; congruence).
Qed.

(** C16: on the encoding of any sequence of representations the decoder does what
    the abstract decoder does: the same fields and the same table, or
    [ErrIndexError] when a representation refers to no entry. *)
Theorem hpack_decoder_refines {R} `{IoReaderSpec R} pref rs t fuel r :
  table_wf t → tbase t + zlen rs < intMax → Forall (rep_ok pref) rs →
  rd_wf r → bits_of_bytes (content r) = reps_bits pref rs → (8 * length (content r) < fuel)%nat →
  match reps_apply t rs with
  | Some (t', hs) => ∃ r', ReadHeaderBlock fuel (t, r) = (ordered hs, (t', r'))
  | None => ∃ t' r', ReadHeaderBlock fuel (t, r) = (Err ErrIndexError, (t', r'))
  end.
Proof. apply ReadHeaderBlock_reads. Qed.

Lemma hpack_decoder_refines_witness :
  match reps_apply newTable sampleReps with
  | Some (t', hs) => hs ≠ [] ∧ ∃ r', ReadHeaderBlock 200 (newTable, MkBytesReader sampleBlock) =
      (ordered hs, (t', r'))
  | None => False
  end.
Proof.
  split; [done|].
  apply (hpack_decoder_refines HuffmanCodingNever sampleReps newTable 200 (MkBytesReader sampleBlock));
    [apply newTable_wf|done|apply sampleReps_ok| | |].
  - vm_compute. repeat constructor; congruence.
  - vm_compute. reflexivity.
  - vm_compute. repeat constructor.
Defined.

(** C17: whatever bytes the decoder is given, it ends (a fuel of one round a bit
    is enough) and leaves a well-formed table. *)
Theorem hpack_decoder_safe {R} `{IoReaderSpec R} t r fuel :
  table_wf t → rd_wf r → 8 * zlen (content r) < Z.of_nat fuel → tbase t + Z.of_nat fuel ≤ intMax →
  ∃ o t' r', ReadHeaderBlock fuel (t, r) = (o, (t', r')) ∧ o ≠ NoFuel ∧ table_wf t'.
Proof.
  intros Hwf Hr Hf Hb. unfold ReadHeaderBlock, zoom. cbn [fst snd].
  destruct (ReadHeaderBlock_loop_safe fuel [] t (NewBitReader r))
    as (o & t' & br' & Hrun & Ho%returns_fuel & Hwf' & _); [done|by split| |done|].
  { unfold rbits. cbn. rewrite zbits_0. by zlen_simpl. }
  rewrite bind_unfold, Hrun.
  destruct o as [hs|e| |]; [|by eexists _, t', _..|done].
  rewrite bind_unfold. unfold lift.
  assert (validate hs true ≠ NoFuel) as Hv.
  { clear. generalize true. induction hs as [|h hs IH]; intros b; [done|]. cbn.
    unfold checkPseudo. destruct (is_pseudo (h_Name h)) as [[]| | |] eqn:Hp; try done;
      [by destruct b|]. by destruct (h_Name h). }
  destruct (validate hs true); [by eexists _, t', _..|done].
Qed.

Lemma hpack_decoder_safe_witness :
  ∃ o t' r', ReadHeaderBlock 100 (newTable, MkBytesReader [0xff; 0x80; 0x01; 0x07]) = (o, (t', r')) ∧
    o ≠ NoFuel ∧ table_wf t'.
Proof.
  apply hpack_decoder_safe; [apply newTable_wf| |done|done].
  repeat constructor; done.
Defined.

(** [Get] and [Index] are inverse to each other: every entry a lookup can
    return is found again by its index, and every index that [Get] accepts is the
    index of what it returns. *)
Theorem hpack_index_space t : table_wf t → tbase t < 2 ^ 60 →
  (∀ e, e ∈ (Static <$> hpackStaticTable) ++ (Dynamic <$> dynamic t) →
     Get t (Index t e) = Some e) ∧
  (∀ i e, i < 2 ^ 60 → Get t i = Some e → Index t e = i).
Proof.
  intros Hwf Hb. split; [intros e He; by apply Get_Index|].
  intros i e Hi. destruct (Z.leb_spec i 0).
  { unfold Get. by rewrite (proj2 (Z.leb_le i 0)). }
  destruct (Z.leb_spec i 61).
  - destruct (Get_static i) as (s & _ & Hs & Hget); [lia|]. rewrite Hget. intros [= <-].
    cbn. rewrite (numbered_from_lookup _ _ _ _ hpackStaticTable_numbered Hs). lia.
  - rewrite Get_dynamic by (done || lia). destruct (GetDynamic _ _ _) as [d|] eqn:Hd; [|done].
    intros [= <-]. destruct Hwf as [? ? ? Hbs Htb]. pose proof (zlen_nonneg (dynamic t)).
    apply GetDynamic_spec in Hd as [_ Hd]; [|by split|lia..].
    cbn [Index]. rewrite Hd, hpackStaticTable_length, i64_small; lia.
Qed.

Definition oneEntryTable : HpackTable := inserted (resized newTable 100) (newEntry "a" "b").

Lemma oneEntryTable_wf : table_wf oneEntryTable.
Proof. apply inserted_wf; [apply resized_wf; [apply newTable_wf|done]|done]. Qed.

Lemma hpack_index_space_witness :
  (∀ e, e ∈ (Static <$> hpackStaticTable) ++ (Dynamic <$> dynamic oneEntryTable) →
     Get oneEntryTable (Index oneEntryTable e) = Some e) ∧
  (∀ i e, i < 2 ^ 60 → Get oneEntryTable i = Some e → Index oneEntryTable e = i).
Proof. apply hpack_index_space; [apply oneEntryTable_wf|done]. Defined.

(** Before a block the encoder signals the smallest capacity set since the
    last one and then the current one: a decoder that applies the updates [rs]
    ends with the encoder's table, which then has the capacity last asked for,
    after passing through the smallest. *)
Theorem hpack_capacity_change {W} `{IoWriterSpec W} `{!IoWriterTotal W} e w :
  enc_wf e → Forall is_byte (accepted w) →
  ∃ rs e' w', WriteHeaderBlock [] (e, w) = (Ok tt, (e', w')) ∧
    bits_of_bytes (accepted w') = bits_of_bytes (accepted w) ++ reps_bits (enc_pref e) rs ∧
    reps_apply (he_table e) rs = Some (he_table e', []) ∧
    capacity (he_table e') = nextCapacity e ∧ minCapacity e' = nextCapacity e ∧
    (minCapacity e < capacity (he_table e) → head rs = Some (RCapacity (minCapacity e))).
Proof.
  intros Hwf Hacc. pose proof (writeCapacityChange_writes e Hwf) as Hcap.
  assert (minCapacity e < capacity (he_table e) →
    head (capacityChange e).1 = Some (RCapacity (minCapacity e))) as Hhead.
  { intros Hlt. unfold capacityChange, lower. rewrite (proj2 (Z.ltb_lt _ _) Hlt).
    by destruct (raise _). }
  destruct (capacityChange e) as [rs e']. destruct Hcap as (Hw & Hu & Hmin & Hnext).
  destruct (Hw (NewBitWriter w)) as (bw & Hrun & Hok & Hbits); [by split|].
  unfold wbits at 2 in Hbits.
  cbn [NewBitWriter bw_writer bw_savedBits] in Hbits. rewrite zbits_0, app_nil_r in Hbits.
  destruct (zlen_reps_bits (enc_pref e) rs) as [k Hk].
  destruct (whole_accepted bw w _ k Hok Hacc Hbits Hk) as (block & Hac & Hbb & Hblock).
  exists rs, e', (bw_writer bw). unfold WriteHeaderBlock, zoom. cbn [fst snd].
  rewrite (bind_Ok _ _ _ _ _ Hrun). cbn [writeFields].
  split_and!; [done|by rewrite Hac, bits_of_bytes_app, Hblock|apply Hu|done..|exact Hhead].
Qed.

Lemma hpack_capacity_change_witness :
  let e := Encoder_SetCapacity 50 (NewHpackEncoder 100) in
  enc_wf e ∧ ∃ rs e' w', WriteHeaderBlock [] (e, MkBuffer []) = (Ok tt, (e', w')) ∧
    bits_of_bytes (accepted w') = bits_of_bytes (accepted (MkBuffer [])) ++ reps_bits (enc_pref e) rs ∧
    reps_apply (he_table e) rs = Some (he_table e', []) ∧
    capacity (he_table e') = nextCapacity e ∧ minCapacity e' = nextCapacity e ∧
    (minCapacity e < capacity (he_table e) → head rs = Some (RCapacity (minCapacity e))).
Proof.
  intros e. assert (enc_wf e) as Hwf.
  { split; [apply newTable_wf|]. unfold is_u64. cbn. lia. }
  split; [exact Hwf|]. apply (hpack_capacity_change e (MkBuffer []) Hwf). constructor.
Defined.

(** The decoder panics on a field with an empty name: it looks at the first
    byte of every name when it checks the order of the pseudo-header fields. *)
Theorem hpack_empty_name_panics :
  (ReadHeaderBlock 100 (newTable, MkBytesReader [0x00; 0x00; 0x00])).1 = Panic.
Proof. vm_compute. reflexivity. Qed.
