(* ===== verification/QpackTable.v ===== *)
(** * The QPACK tables and usage tracking (hc/qpacktable.go)

    The decoder's table, the encoder's table with its referenceable part, and the
    tracker of the entries that header blocks in flight refer to. Entries of the
    encoder are shared by pointer between the table, the blocks being written and
    the tracker. An entry is identified by its base, which is unique and never
    reused; the one mutable field, [usageCount], lives in a store keyed by it. *)

From S2P Require Import Prelude Bits GoIo HuffmanTable Huffman HcString StaticTable Table.

Definition qpackEntry : Type := BasicDynamicEntry.
Definition qpackTableCommon : Type := tableCommon qpackEntry.

Definition useQpackStaticTable : bool := true.

Definition staticTable : list staticTableEntry :=
  if useQpackStaticTable then qpackStaticTable else hpackStaticTable.

(** ** The common part *)

Definition Lookup (t : qpackTableCommon) (name value : string) :=
  lookupImpl t staticTable name value 0 (zlen (dynamic t)).

Definition Index (t : qpackTableCommon) (e : Entry qpackEntry) : Z :=
  match e with
  | Dynamic d => i64 (tbase t - Base d)
  | Static s => se_index s
  end.

Definition GetStatic (i : Z) : option staticTableEntry :=
  if useQpackStaticTable then
    if (i <? 0) || (zlen qpackStaticTable <=? i) then None else qpackStaticTable !! Z.to_nat i
  else
    let i := i64 (i - 1) in
    if (i <? 0) || (zlen hpackStaticTable <=? i) then None else hpackStaticTable !! Z.to_nat i.

(** [BasicDynamicEntry.Index]. *)
Definition entry_Index (d : qpackEntry) (base : Z) : Z := i64 (base - Base d).

(** ** The decoder's table

    Its methods run under the lock, so each is one atomic step. *)
Definition NewQpackDecoderTable (c : Z) : qpackTableCommon := TableCommon [] c 0 0.

Definition DecoderTable_Insert (t : qpackTableCommon) (name value : string)
  : option qpackEntry * qpackTableCommon :=
  let '(inserted, t', entry, _) := insert t (MkBasicDynamicEntry name value 0) None tt in
  (if inserted then Some entry else None, t').

(** [WaitForEntry(base)] returns once this holds. *)
Definition entryAvailable (t : qpackTableCommon) (base : Z) : bool := base <=? tbase t.

(** ** Usage *)

Record qpackHeaderBlockUsage := HeaderBlockUsage {
  hbu_entries : list Z;    (* the bases of the entries *)
  hbu_max : Z;
}.

(** The store of the tracker: the [usageCount] of entries by base (0 when
    absent), the header block usages by reference, and the map from stream ids to
    the references of the blocks in flight. *)
Record qpackUsage := QpackUsage {
  usageCount : gmap Z Z;                   (* uint *)
  blocks : gmap nat qpackHeaderBlockUsage;
  nextBlock : nat;
  tracker : gmap Z (list nat);
}.

Definition newUsage : qpackUsage := QpackUsage ∅ ∅ 0 ∅.

Definition count_of (u : qpackUsage) (b : Z) : Z := default 0 (usageCount u !! b).
Definition inUse (u : qpackUsage) (b : Z) : bool := 0 <? count_of u b.

Definition block_of (u : qpackUsage) (r : nat) : qpackHeaderBlockUsage :=
  default (HeaderBlockUsage [] 0) (blocks u !! r).

Definition set_count (b c : Z) (u : qpackUsage) : qpackUsage :=
  QpackUsage (<[b := c]> (usageCount u)) (blocks u) (nextBlock u) (tracker u).
Definition set_block (r : nat) (h : qpackHeaderBlockUsage) (u : qpackUsage) : qpackUsage :=
  QpackUsage (usageCount u) (<[r := h]> (blocks u)) (nextBlock u) (tracker u).
Definition set_stream (id : Z) (su : option (list nat)) (u : qpackUsage) : qpackUsage :=
  QpackUsage (usageCount u) (blocks u) (nextBlock u) (partial_alter (λ _, su) id (tracker u)).

(** [&qpackHeaderBlockUsage{}]. *)
Definition newBlock (u : qpackUsage) : nat * qpackUsage :=
  (nextBlock u, QpackUsage (usageCount u) (<[nextBlock u := HeaderBlockUsage [] 0]> (blocks u))
                  (S (nextBlock u)) (tracker u)).

(** [qpackHeaderBlockUsage.add]. *)
Definition hbu_add (r : nat) (b : Z) (u : qpackUsage) : qpackUsage :=
  let h := block_of u r in
  set_block r (HeaderBlockUsage (hbu_entries h ++ [b]) (if hbu_max h <? b then b else hbu_max h))
    (set_count b (u64 (count_of u b + 1)) u).

(** [qpackHeaderBlockUsage.ack]. *)
Definition hbu_ack (r : nat) (u : qpackUsage) : qpackUsage :=
  let h := block_of u r in
  set_block r (HeaderBlockUsage [] (hbu_max h))
    (foldl (λ u b, set_count b (u64 (count_of u b - 1)) u) u (hbu_entries h)).

(** [qpackStreamUsage.max]. *)
Definition su_max (u : qpackUsage) (su : list nat) : Z :=
  foldl (λ m r, if m <? hbu_max (block_of u r) then hbu_max (block_of u r) else m) 0 su.

(** [qpackStreamUsage.ack]: the largest reference of the oldest block, and what
    is left of the stream. *)
Definition su_ack (su : list nat) (u : qpackUsage) : Z * list nat * qpackUsage :=
  match su with
  | [] => (0, [], u)
  | z :: su' => (hbu_max (block_of u z), su', hbu_ack z u)
  end.

(** [qpackStreamUsage.cancel]. *)
Definition su_cancel (su : list nat) (u : qpackUsage) : Z * qpackUsage :=
  foldl (λ '(m, u) z,
    let u' := hbu_ack z u in
    (if m <? hbu_max (block_of u' z) then hbu_max (block_of u' z) else m, u')) (0, u) su.

(** [qpackUsageTracker.get]. *)
Definition ut_get (id : Z) (u : qpackUsage) : list nat * qpackUsage :=
  match tracker u !! id with
  | Some su => (su, u)
  | None => ([], set_stream id (Some []) u)
  end.

(** [qpackUsageTracker.ack]. *)
Definition ut_ack (id : Z) (u : qpackUsage) : Z * Z * qpackUsage :=
  match tracker u !! id with
  | None => (0, 0, u)
  | Some su =>
      let '(oldLargest, su', u') := su_ack su u in
      (oldLargest, su_max u' su',
       set_stream id (match su' with [] => None | _ => Some su' end) u')
  end.

(** [qpackUsageTracker.cancel]. *)
Definition ut_cancel (id : Z) (u : qpackUsage) : Z * qpackUsage :=
  match tracker u !! id with
  | None => (-1, u)
  | Some su => let '(largest, u') := su_cancel su u in (largest, set_stream id None u')
  end.

Definition countBlockedStreams (u : qpackUsage) (largestAcknowledged : Z) : Z :=
  Z.of_nat (size (filter (λ p, largestAcknowledged < su_max u p.2) (tracker u))).

(** ** The encoder's table *)

Record QpackEncoderTable := MkQpackEncoderTable {
  qt_common : qpackTableCommon;
  referenceableLimit : Z;   (* uint *)
  referenceable : Z;        (* int *)
  referenceableSize : Z;    (* uint *)
}.

(** The loop of [added], with [i] entries still counted. *)
Fixpoint added_loop (entries : list qpackEntry) (limit : Z) (i : nat) (updatedSize : Z)
  : outcome (Z * Z) :=
  if limit <? updatedSize then
    match i with
    | O => Panic
    | S i' =>
        match entries !! i' with
        | None => Panic
        | Some e => added_loop entries limit i' (u64 (updatedSize - Size e))
        end
    end
  else Ok (Z.of_nat i, updatedSize).

Definition added (qt : QpackEncoderTable) (qe : qpackEntry) : outcome QpackEncoderTable :=
  match added_loop (dynamic (qt_common qt)) (referenceableLimit qt)
          (Z.to_nat (referenceable qt + 1)) (u64 (referenceableSize qt + Size qe)) with
  | Ok (i, updatedSize) =>
      Ok (MkQpackEncoderTable (qt_common qt) (referenceableLimit qt) i updatedSize)
  | Err e => Err e
  | Panic => Panic
  | NoFuel => NoFuel
  end.

(** [removed], on the pair of [referenceable] and [referenceableSize]. *)
Definition removed (base : Z) (qe : qpackEntry) (s : Z * Z) : Z * Z :=
  if entry_Index qe base <? s.1 then (s.1 - 1, u64 (s.2 - Size qe)) else s.

(** [qpackEncoderEvictWrapper.CanEvict]. *)
Definition evictWrapper (wrapped : qpackEntry → bool) (u : qpackUsage) (base : Z)
  (e : qpackEntry) (s : Z * Z) : bool * (Z * Z) :=
  if negb (wrapped e) then (false, s)
  else if inUse u (Base e) then (false, s)
  else (true, removed base e s).

(** [QpackEncoderTable.Insert]; [evict] is the caller's check, never nil. *)
Definition EncoderTable_Insert (qt : QpackEncoderTable) (u : qpackUsage) (name value : string)
    (evict : qpackEntry → bool) : outcome (option qpackEntry * QpackEncoderTable) :=
  let '(inserted, t', entry, (r, rs)) :=
    insert (qt_common qt) (MkBasicDynamicEntry name value 0)
      (Some (evictWrapper evict u (tbase (qt_common qt))))
      (referenceable qt, referenceableSize qt) in
  let qt' := MkQpackEncoderTable t' (referenceableLimit qt) r rs in
  if inserted then
    match added qt' entry with
    | Ok qt'' => Ok (Some entry, qt'')
    | Err e => Err e
    | Panic => Panic
    | NoFuel => NoFuel
    end
  else Ok (None, qt').

Definition LookupReferenceable (qt : QpackEncoderTable) (name value : string) (maxBase : Z) :=
  let base := tbase (qt_common qt) in
  let start := if maxBase <? base then base - maxBase else 0 in
  let '(start, end_) := if referenceable qt <=? start then (0, 0) else (start, referenceable qt) in
  lookupImpl (qt_common qt) staticTable name value start end_.

Definition LookupBlocked (qt : QpackEncoderTable) (name value : string) (maxBase : Z)
  : outcome bool :=
  let base := tbase (qt_common qt) in
  if base <=? maxBase then Ok false else
  let end_ := Z.min (base - maxBase) (referenceable qt) in
  if (end_ <? 0) || (zlen (dynamic (qt_common qt)) <? end_) then Panic
  else Ok (existsb (λ e, bool_decide (Name e = name) && bool_decide (Value e = value))
             (ztake end_ (dynamic (qt_common qt)))).

(** The scan of [LookupExtra]: a name match is only taken over an earlier name
    match, as the source has it. *)
Fixpoint extra_scan (entries : list qpackEntry) (name value : string)
    (nameMatch : option qpackEntry) : option qpackEntry * option qpackEntry :=
  match entries with
  | [] => (None, nameMatch)
  | e :: entries' =>
      if decide (Name e = name) then
        if decide (Value e = value) then (Some e, Some e)
        else extra_scan entries' name value
               (match nameMatch with Some _ => Some e | None => None end)
      else extra_scan entries' name value nameMatch
  end.

Definition LookupExtra (qt : QpackEncoderTable) (name value : string)
  : outcome (option qpackEntry * option qpackEntry) :=
  if (referenceable qt <? 0) || (zlen (dynamic (qt_common qt)) <? referenceable qt) then Panic
  else Ok (extra_scan (zdrop (referenceable qt) (dynamic (qt_common qt))) name value None).

(** The loop of [SetReferenceableLimit]; [remainingSpace] never changes. *)
Fixpoint limit_scan (entries : list qpackEntry) (remainingSpace r rs : Z) : Z * Z :=
  match entries with
  | [] => (r, rs)
  | e :: entries' =>
      if Size e <? remainingSpace then limit_scan entries' remainingSpace (r + 1) (u64 (rs + Size e))
      else (r, rs)
  end.

Definition SetReferenceableLimit (limit : Z) (qt : QpackEncoderTable) : QpackEncoderTable :=
  let limit := if capacity (qt_common qt) <? limit then capacity (qt_common qt) else limit in
  let '(r, rs) := limit_scan (dynamic (qt_common qt)) limit 0 0 in
  MkQpackEncoderTable (qt_common qt) limit r rs.

Definition EncoderTable_SetCapacity (c : Z) (qt : QpackEncoderTable) : outcome QpackEncoderTable :=
  if 0 <? tbase (qt_common qt) then Panic else
  let t := qt_common qt in
  let qt' := MkQpackEncoderTable (TableCommon (dynamic t) c (used t) (tbase t))
               (referenceableLimit qt) (referenceable qt) (referenceableSize qt) in
  Ok (if c <? referenceableLimit qt then SetReferenceableLimit (referenceableLimit qt) qt' else qt').

Definition NewQpackEncoderTable (c limit : Z) : outcome QpackEncoderTable :=
  match EncoderTable_SetCapacity c (MkQpackEncoderTable newTable 0 0 0) with
  | Ok qt => Ok (SetReferenceableLimit limit qt)
  | o => o
  end.
