(* ===== verification/QpackEncoder.v ===== *)
(** * The QPACK encoder (hc/qpackencoder.go)

    Encoding a header block has two critical sections, as in the source:
    [writeTableChanges], which picks or inserts entries and writes the table
    updates, and [writeHeaderBlock], which writes the block and registers its
    uses. The handlers of acknowledgments are a third group. [WriteHeaderBlock]
    runs the first two with nothing in between; two concurrent calls interleave
    their sections. *)

From S2P Require Import Prelude Bits GoIo BitWriter BitReader HcInt HuffmanTable Huffman HcString StaticTable Table Codec QpackTable.

(** ** [strings.ToLower]: bytes of an ASCII string, Unicode's mapping otherwise *)

Definition lower_byte (b : Z) : Z := if (65 <=? b) && (b <=? 90) then b + 32 else b.

Definition ToLower (unicodeLower : string → string) (s : string) : string :=
  if forallb (λ b, b <? 128) (bytes_of_string s)
  then string_of_bytes (lower_byte <$> bytes_of_string s)
  else unicodeLower s.

(** ** The state of a block being written *)

Record qpackWriterState := WriterState {
  ws_headers : list HeaderField;
  ws_matches : list (option (Entry qpackEntry));
  ws_nameMatches : list (option (Entry qpackEntry));
  largestBase : Z;      (* int *)
  smallestBase : Z;     (* int *)
  wasBlocked : bool;
  maxBase : Z;          (* int *)
  uses : nat;           (* reference of a qpackHeaderBlockUsage *)
}.

Definition initHeaders (unicodeLower : string → string) (headers : list HeaderField)
  : qpackWriterState :=
  WriterState
    ((λ h, MkHeaderField (ToLower unicodeLower (h_Name h)) (h_Value h) (h_Sensitive h)) <$> headers)
    (replicate (length headers) None) (replicate (length headers) None) 0 intMax false 0 0.

(** [setupUsage]; [streamMax] is the stream's largest reference in flight. *)
Definition setupUsage (streamMax highestAcknowledged : Z) (blockingAllowed : bool) (r : nat)
    (state : qpackWriterState) : qpackWriterState :=
  let blocked := highestAcknowledged <? streamMax in
  WriterState (ws_headers state) (ws_matches state) (ws_nameMatches state)
    (largestBase state) (smallestBase state)
    (if blocked then true else wasBlocked state)
    (if blocked then intMax else if blockingAllowed then intMax else highestAcknowledged)
    r.

Definition dynBase (e : Entry qpackEntry) : Z :=
  match e with Static _ => 0 | Dynamic d => Base d end.

Definition updateBase (e : Entry qpackEntry) (full : bool) (state : qpackWriterState)
  : qpackWriterState :=
  match e with
  | Static _ => state
  | Dynamic d =>
      WriterState (ws_headers state) (ws_matches state) (ws_nameMatches state)
        (if largestBase state <? Base d then Base d else largestBase state)
        (if full && (Base d <? smallestBase state) then Base d else smallestBase state)
        (wasBlocked state) (maxBase state) (uses state)
  end.

Definition set_match (i : nat) (e : Entry qpackEntry) (state : qpackWriterState) : qpackWriterState :=
  WriterState (ws_headers state) (<[i := Some e]> (ws_matches state)) (ws_nameMatches state)
    (largestBase state) (smallestBase state) (wasBlocked state) (maxBase state) (uses state).

Definition set_nameMatch (i : nat) (e : Entry qpackEntry) (state : qpackWriterState)
  : qpackWriterState :=
  WriterState (ws_headers state) (ws_matches state) (<[i := Some e]> (ws_nameMatches state))
    (largestBase state) (smallestBase state) (wasBlocked state) (maxBase state) (uses state).

Definition recordMatch (i : nat) (full name : option (Entry qpackEntry)) (state : qpackWriterState)
  : qpackWriterState :=
  let byName :=
    match name with
    | Some e => if dynBase e <=? maxBase state
                then updateBase e false (set_nameMatch i e state) else state
    | None => state
    end in
  match full with
  | Some e => if dynBase e <=? maxBase state then updateBase e true (set_match i e state) else byName
  | None => byName
  end.

Definition isNewlyBlocked (highestAcknowledged : Z) (state : qpackWriterState) : bool :=
  if wasBlocked state then false else highestAcknowledged <? largestBase state.

Definition CanEvict (state : qpackWriterState) (e : qpackEntry) : bool :=
  Base e <? smallestBase state.

(** ** The encoder *)

Record QpackEncoder := MkQpackEncoder {
  qe_common : encoderCommon;
  qe_table : QpackEncoderTable;
  qe_usage : qpackUsage;
  maxBlockedStreams : Z;       (* int *)
  highestAcknowledged : Z;     (* int *)
  unacknowledgedSize : Z;      (* uint *)
  blockedStreams : Z;          (* int *)
}.

Definition qe_base (e : QpackEncoder) : Z := tbase (qt_common (qe_table e)).
Definition qe_capacity (e : QpackEncoder) : Z := capacity (qt_common (qe_table e)).

Definition set_qe_table (t : QpackEncoderTable) (e : QpackEncoder) : QpackEncoder :=
  MkQpackEncoder (qe_common e) t (qe_usage e) (maxBlockedStreams e) (highestAcknowledged e)
    (unacknowledgedSize e) (blockedStreams e).
Definition set_qe_usage (u : qpackUsage) (e : QpackEncoder) : QpackEncoder :=
  MkQpackEncoder (qe_common e) (qe_table e) u (maxBlockedStreams e) (highestAcknowledged e)
    (unacknowledgedSize e) (blockedStreams e).
Definition set_highestAcknowledged (h : Z) (e : QpackEncoder) : QpackEncoder :=
  MkQpackEncoder (qe_common e) (qe_table e) (qe_usage e) (maxBlockedStreams e) h
    (unacknowledgedSize e) (blockedStreams e).
Definition set_unacknowledgedSize (n : Z) (e : QpackEncoder) : QpackEncoder :=
  MkQpackEncoder (qe_common e) (qe_table e) (qe_usage e) (maxBlockedStreams e)
    (highestAcknowledged e) n (blockedStreams e).
Definition set_blockedStreams (n : Z) (e : QpackEncoder) : QpackEncoder :=
  MkQpackEncoder (qe_common e) (qe_table e) (qe_usage e) (maxBlockedStreams e)
    (highestAcknowledged e) (unacknowledgedSize e) n.

Definition NewQpackEncoder (c limit : Z) : outcome QpackEncoder :=
  match NewQpackEncoderTable c limit with
  | Ok t => Ok (MkQpackEncoder (EncoderCommon HuffmanCodingAuto ∅) t newUsage 0 0 0 0)
  | Err e => Err e
  | Panic => Panic
  | NoFuel => NoFuel
  end.

(** ** Table changes *)

(** The encoder, the stream of table updates and the state of the block. *)
Record changing (W : Type) := Changing {
  ch_encoder : QpackEncoder;
  ch_updates : bitWriter W;
  ch_state : qpackWriterState;
}.
Arguments Changing {W}.
Arguments ch_encoder {W}.
Arguments ch_updates {W}.
Arguments ch_state {W}.

Section changes.
Context {W : Type} `{IoWriter W}.

Definition on_updates {A} (m : go (bitWriter W) A) : go (changing W) A :=
  zoom ch_updates (λ w s, Changing (ch_encoder s) w (ch_state s)) m.
Definition mod_encoder (f : QpackEncoder → QpackEncoder) : go (changing W) unit :=
  modS (λ s, Changing (f (ch_encoder s)) (ch_updates s) (ch_state s)).
Definition mod_state (f : qpackWriterState → qpackWriterState) : go (changing W) unit :=
  modS (λ s, Changing (ch_encoder s) (ch_updates s) (f (ch_state s))).

(** [QpackEncoder.insert] with the block's state as the eviction check. *)
Definition insert (name value : string) : go (changing W) (option qpackEntry) :=
  s ← getS;
  let e := ch_encoder s in
  let size := Size (MkBasicDynamicEntry name value 0 : qpackEntry) in
  if referenceableLimit (qe_table e) <? u64 (size + unacknowledgedSize e) then mret None else
  '(entry, t) ← lift (EncoderTable_Insert (qe_table e) (qe_usage e) name value (CanEvict (ch_state s)));
  mod_encoder (set_qe_table t);;
  match entry with
  | None => mret None
  | Some qe =>
      mod_encoder (λ e, set_unacknowledgedSize (u64 (unacknowledgedSize e + Size qe)) e);;
      mret (Some qe)
  end.

Definition writeDuplicate (entry : qpackEntry) (i : nat) : go (changing W) unit :=
  inserted ← insert (Name entry) (Value entry);
  match inserted with
  | None => mret tt
  | Some qe =>
      on_updates (WriteBits 0 3);;
      s ← getS;
      on_updates (WriteInt (u64 (Index (qt_common (qe_table (ch_encoder s))) (Dynamic entry) - 1)) 5);;
      mod_state (recordMatch i (Some (Dynamic qe)) None)
  end.

Definition writeInsert (h : HeaderField) (i : nat) (nameMatch : option (Entry qpackEntry))
  : go (changing W) unit :=
  inserted ← insert (h_Name h) (h_Value h);
  match inserted with
  | None => mret tt
  | Some qe =>
      let instruction := match nameMatch with
                         | Some (Dynamic _) => 2
                         | Some (Static _) => 3
                         | None => 1
                         end in
      on_updates (WriteBits instruction 2);;
      s ← getS;
      let t := qt_common (qe_table (ch_encoder s)) in
      let pref := HuffmanPreference (qe_common (ch_encoder s)) in
      match nameMatch with
      | None => on_updates (WriteStringRaw (h_Name h) 5 pref)
      | Some (Dynamic d) => on_updates (WriteInt (u64 (Index t (Dynamic d) - 1)) 6)
      | Some (Static st) => on_updates (WriteInt (u64 (Index t (Static st))) 6)
      end;;
      on_updates (WriteStringRaw (h_Value h) 7 pref);;
      mod_state (recordMatch i (Some (Dynamic qe)) None)
  end.

(** The body of the loop of [writeTableChanges] for the field at [i]. *)
Definition changeFor (i : nat) (h : HeaderField) : go (changing W) unit :=
  if h_Sensitive h then mret tt else
  s ← getS;
  let e := ch_encoder s in
  '(m, nameMatch) ← lift (LookupReferenceable (qe_table e) (h_Name h) (h_Value h) (maxBase (ch_state s)));
  match m with
  | Some entry => mod_state (recordMatch i (Some entry) nameMatch)
  | None =>
      blocked ← lift (LookupBlocked (qe_table e) (h_Name h) (h_Value h) (maxBase (ch_state s)));
      if (blocked : bool) then mret tt else
      '(duplicate, extraMatch) ← lift (LookupExtra (qe_table e) (h_Name h) (h_Value h));
      match duplicate with
      | Some d => if Base d <=? highestAcknowledged e then writeDuplicate d i else mret tt
      | None =>
          (match nameMatch with
           | Some _ => mod_state (recordMatch i None nameMatch)
           | None => mret tt
           end);;
          let insertNameMatch := match nameMatch with
                                 | Some _ => nameMatch
                                 | None => Dynamic <$> extraMatch
                                 end in
          if shouldIndex (qe_common e) (qe_capacity e) h && (HeaderField_size h <=? qe_capacity e)
          then writeInsert h i insertNameMatch else mret tt
      end
  end.

Fixpoint changesFor (i : nat) (headers : list HeaderField) : go (changing W) unit :=
  match headers with
  | [] => mret tt
  | h :: headers' => changeFor i h;; changesFor (S i) headers'
  end.

(** [writeTableChanges]; [recordUsage] adds the block to its stream when it
    refers to the dynamic table. *)
Definition writeTableChanges (id : Z) : go (changing W) unit :=
  s ← getS;
  let e := ch_encoder s in
  let '(su, u) := ut_get id (qe_usage e) in
  let '(r, u') := newBlock u in
  mod_encoder (set_qe_usage u');;
  mod_state (setupUsage (su_max u su) (highestAcknowledged e)
               (blockedStreams e <? maxBlockedStreams e) r);;
  changesFor 0 (ws_headers (ch_state s));;
  s ← getS;
  (if isNewlyBlocked (highestAcknowledged (ch_encoder s)) (ch_state s)
   then mod_encoder (λ e, set_blockedStreams (i64 (blockedStreams e + 1)) e) else mret tt);;
  if 0 <? largestBase (ch_state s) then
    mod_encoder (λ e, set_qe_usage (set_stream id (Some (su ++ [uses (ch_state s)])) (qe_usage e)) e)
  else mret tt.
End changes.

(** ** The header block *)

Record writing (W : Type) := Writing {
  wr_encoder : QpackEncoder;
  wr_block : bitWriter W;
  wr_state : qpackWriterState;
}.
Arguments Writing {W}.
Arguments wr_encoder {W}.
Arguments wr_block {W}.
Arguments wr_state {W}.

(** [encodeLargestReference]; dividing by zero panics. *)
Definition encodeLargestReference (c largest : Z) : outcome Z :=
  if largest =? 0 then Ok 0 else
  let maxEntries := u64 (c / entryOverhead) in
  if u64 (2 * maxEntries) =? 0 then Panic
  else Ok (u64 (u64 largest mod u64 (2 * maxEntries) + 1)).

Section block.
Context {W : Type} `{IoWriter W}.

Definition on_block {A} (m : go (bitWriter W) A) : go (writing W) A :=
  zoom wr_block (λ w s, Writing (wr_encoder s) w (wr_state s)) m.

(** [addUse]: the entry at [i] that was written, when it is dynamic. *)
Definition addUse (i : nat) : go (writing W) unit :=
  modS (λ s,
    let e := match mjoin (ws_matches (wr_state s) !! i) with
             | Some e => Some e
             | None => mjoin (ws_nameMatches (wr_state s) !! i)
             end in
    match e with
    | Some (Dynamic d) =>
        Writing (set_qe_usage (hbu_add (uses (wr_state s)) (Base d) (qe_usage (wr_encoder s)))
                   (wr_encoder s)) (wr_block s) (wr_state s)
    | _ => s
    end).

Definition writeIndexed (entry : Entry qpackEntry) (i : nat) : go (writing W) unit :=
  s ← getS;
  (match entry with
   | Dynamic d =>
       let index := entry_Index d (largestBase (wr_state s)) in
       if index <? 0 then
         on_block (WriteBits 1 4);; on_block (WriteInt (u64 (i64 (-1 - index))) 4)
       else on_block (WriteBits 2 2);; on_block (WriteInt (u64 index) 6)
   | Static _ =>
       on_block (WriteBits 3 2);;
       on_block (WriteInt (u64 (Index (qt_common (qe_table (wr_encoder s))) entry)) 6)
   end);;
  addUse i.

Definition writeLiteralNameReference (sensitive : Z) (nameMatch : Entry qpackEntry)
  : go (writing W) unit :=
  s ← getS;
  match nameMatch with
  | Dynamic d =>
      let index := entry_Index d (largestBase (wr_state s)) in
      if index <? 0 then
        on_block (WriteBits sensitive 5);; on_block (WriteInt (u64 (i64 (-1 - index))) 3)
      else
        on_block (WriteBits (Z.lor 4 (Z.shiftl sensitive 1)) 4);; on_block (WriteInt (u64 index) 4)
  | Static _ =>
      on_block (WriteBits (Z.lor 5 (Z.shiftl sensitive 1)) 4);;
      on_block (WriteInt (u64 (Index (qt_common (qe_table (wr_encoder s))) nameMatch)) 4)
  end.

Definition writeLiteral (h : HeaderField) (i : nat) : go (writing W) unit :=
  s ← getS;
  let pref := HuffmanPreference (qe_common (wr_encoder s)) in
  let sensitive := if h_Sensitive h then 1 else 0 in
  (match mjoin (ws_nameMatches (wr_state s) !! i) with
   | Some nameMatch => writeLiteralNameReference sensitive nameMatch
   | None => on_block (WriteBits (Z.lor 2 sensitive) 4);; on_block (WriteStringRaw (h_Name h) 3 pref)
   end);;
  on_block (WriteStringRaw (h_Value h) 7 pref);;
  addUse i.

Fixpoint writeFields (i : nat) (headers : list HeaderField) : go (writing W) unit :=
  match headers with
  | [] => mret tt
  | h :: headers' =>
      s ← getS;
      (match mjoin (ws_matches (wr_state s) !! i) with
       | Some entry => writeIndexed entry i
       | None => writeLiteral h i
       end);;
      writeFields (S i) headers'
  end.

Definition writeHeaderBlock : go (writing W) unit :=
  s ← getS;
  lr ← lift (encodeLargestReference (qe_capacity (wr_encoder s)) (largestBase (wr_state s)));
  on_block (WriteInt lr 8);;
  on_block (WriteInt 0 8);;
  writeFields 0 (ws_headers (wr_state s)).
End block.

(** [WriteHeaderBlock]: the two sections one after the other, on the encoder, the
    update stream and the writer of the block. *)
Definition WriteHeaderBlock {W H} `{IoWriter W} `{IoWriter H} (unicodeLower : string → string)
    (id : Z) (headers : list HeaderField) : go (QpackEncoder * bitWriter W * H) unit :=
  λ '(e, w, h),
  match writeTableChanges id (Changing e w (initHeaders unicodeLower headers)) with
  | (Ok _, s) =>
      let '(o, s') := writeHeaderBlock (Writing (ch_encoder s) (NewBitWriter h) (ch_state s)) in
      (o, (wr_encoder s', ch_updates s, bw_writer (wr_block s')))
  | (Err er, s) => (Err er, (ch_encoder s, ch_updates s, h))
  | (Panic, s) => (Panic, (ch_encoder s, ch_updates s, h))
  | (NoFuel, s) => (NoFuel, (ch_encoder s, ch_updates s, h))
  end.

(** ** Acknowledgments *)

(** The loop of [updateHighestAcknowledged] from [i]; a missing entry is a nil
    dereference. *)
Fixpoint forget_sizes (fuel : nat) (t : qpackTableCommon) (highest i increment size : Z) : outcome Z :=
  if i <? increment then
    match fuel with
    | O => NoFuel
    | S fuel' =>
        match GetDynamic t i highest with
        | None => Panic
        | Some e => forget_sizes fuel' t highest (i64 (i + 1)) increment (u64 (size - Size e))
        end
    end
  else Ok size.

(** The loop stops at the first entry that is not there, so one round more than
    the table has entries is enough. *)
Definition updateHighestAcknowledged (increment : Z) : go QpackEncoder unit :=
  if increment <=? 0 then panic else
  e ← getS;
  if qe_base e <? i64 (increment + highestAcknowledged e) then panic else
  modS (set_highestAcknowledged (i64 (highestAcknowledged e + increment)));;
  e ← getS;
  size ← lift (forget_sizes (S (length (dynamic (qt_common (qe_table e))))) (qt_common (qe_table e))
                 (highestAcknowledged e) 0 increment (unacknowledgedSize e));
  modS (set_unacknowledgedSize size).

Definition AcknowledgeInsert (increment : Z) : go QpackEncoder unit :=
  if increment <=? 0 then fail ErrIndexError else
  e ← getS;
  let base := i64 (highestAcknowledged e + increment) in
  if qe_base e <? base then fail ErrIndexError else
  modS (λ e, set_blockedStreams (countBlockedStreams (qe_usage e) base) e);;
  updateHighestAcknowledged increment.

Definition AcknowledgeHeader (id : Z) : go QpackEncoder unit :=
  e ← getS;
  let '(removedLargest, newLargest, u) := ut_ack id (qe_usage e) in
  modS (set_qe_usage u);;
  if removedLargest =? 0 then fail ErrIndexError else
  if (highestAcknowledged e <? removedLargest) && (newLargest <=? highestAcknowledged e) then
    modS (λ e, set_blockedStreams (i64 (blockedStreams e - 1)) e);;
    updateHighestAcknowledged (i64 (removedLargest - highestAcknowledged e))
  else mret tt.

Definition AcknowledgeReset (id : Z) : go QpackEncoder unit :=
  e ← getS;
  let '(largest, u) := ut_cancel id (qe_usage e) in
  modS (set_qe_usage u);;
  if largest <? 0 then fail ErrIndexError else
  if highestAcknowledged e <? largest
  then modS (λ e, set_blockedStreams (i64 (blockedStreams e - 1)) e)
  else mret tt.

Section service.
Context {R : Type} `{IoReader R}.

Definition on_acks {A} (m : go (bitReader R) A) : go (QpackEncoder * bitReader R) A :=
  zoom snd (λ r s, (s.1, r)) m.
Definition on_acked {A} (m : go QpackEncoder A) : go (QpackEncoder * bitReader R) A :=
  zoom fst (λ e s, (e, s.2)) m.

(** The loop of [ServiceAcknowledgments]. The error of a handler is assigned to a
    variable of the inner scope and never looked at. *)
Fixpoint ServiceAcknowledgments_loop (fuel : nat) : go (QpackEncoder * bitReader R) unit :=
  match fuel with
  | O => nofuel
  | S fuel' =>
      b ← on_acks ReadBit;
      (if b =? 1 then
         v ← on_acks (ReadInt 7);
         _ ← catch (on_acked (AcknowledgeHeader v));
         mret tt
       else
         b ← on_acks ReadBit;
         v ← on_acks (ReadInt 6);
         _ ← catch (on_acked (if b =? 0 then AcknowledgeInsert (i64 v) else AcknowledgeReset v));
         mret tt);;
      ServiceAcknowledgments_loop fuel'
  end.
End service.

(** ** Settings *)

Definition Encoder_SetCapacity (c : Z) : go QpackEncoder unit :=
  e ← getS;
  t ← lift (EncoderTable_SetCapacity c (qe_table e));
  modS (set_qe_table t).

Definition Encoder_SetReferenceableLimit (limit : Z) : go QpackEncoder unit :=
  modS (λ e, set_qe_table (SetReferenceableLimit limit (qe_table e)) e).

Definition SetMaxBlockedStreams (m : Z) : go QpackEncoder unit :=
  e ← getS;
  if m <? blockedStreams e then panic else
  modS (λ e, MkQpackEncoder (qe_common e) (qe_table e) (qe_usage e) m (highestAcknowledged e)
               (unacknowledgedSize e) (blockedStreams e)).
