(* ===== verification/QpackDecoder.v ===== *)
(** * The QPACK decoder (hc/qpackdecoder.go)

    Table updates, header blocks and the goroutine that writes acknowledgments.
    The decoder's methods run on the table and a reader and add to a trace of the
    messages they send to that goroutine. [WaitForEntry] splits the reading of a
    header block: [readLargestBase] before it, [readFields] after it. When the
    entry is not there yet the model's [ReadHeaderBlock] stops with
    [ErrWouldBlock], where the source waits for a table update. *)

From S2P Require Import Prelude Bits GoIo BitWriter BitReader HcInt HuffmanTable Huffman HcString StaticTable Table Codec QpackTable.

(** What goes to the acknowledgment goroutine: [acknowledged], [cancelled] and
    [available] messages, and the tick of its timer. *)
Inductive ackEvent : Type :=
| EvAcknowledged (id largestReference : Z)
| EvCancelled (id : Z)
| EvAvailable (base : Z)
| EvTimer.

#[export] Instance ackEvent_eq_dec : EqDecision ackEvent.
Proof. solve_decision. Defined.

Record decoding (R : Type) := Decoding {
  qd_table : qpackTableCommon;
  qd_reader : bitReader R;
  qd_sent : list ackEvent;
}.
Arguments Decoding {R}.
Arguments qd_table {R}.
Arguments qd_reader {R}.
Arguments qd_sent {R}.

Section decoder.
Context {R : Type} `{IoReader R}.

Definition on_reader {A} (m : go (bitReader R) A) : go (decoding R) A :=
  zoom qd_reader (λ r d, Decoding (qd_table d) r (qd_sent d)) m.
Definition set_table (t : qpackTableCommon) : go (decoding R) unit :=
  modS (λ d, Decoding t (qd_reader d) (qd_sent d)).
Definition send (ev : ackEvent) : go (decoding R) unit :=
  modS (λ d, Decoding (qd_table d) (qd_reader d) (qd_sent d ++ [ev])).
Definition getTable : go (decoding R) qpackTableCommon := d ← getS; mret (qd_table d).

Definition from_option {A} (e : goerr) (o : option A) : go (decoding R) A :=
  match o with Some a => mret a | None => fail e end.

(** ** Table updates *)

(** The insertion and the message about it; [added.Base()] panics on nil. *)
Definition insertAndSend (name value : string) : go (decoding R) unit :=
  t ← getTable;
  let '(entry, t') := DecoderTable_Insert t name value in
  set_table t';;
  match entry with
  | None => panic
  | Some e => send (EvAvailable (Base e))
  end.

Definition readValueAndInsert (name : string) : go (decoding R) unit :=
  value ← on_reader (ReadString 7);
  t ← getTable;
  if capacity t <? u64 (32 + u64 (slen name + slen value)) then fail ErrTableOverflow else
  insertAndSend name value.

Definition readInsertWithNameReference (base : Z) : go (decoding R) unit :=
  static ← on_reader ReadBit;
  nameIndex ← on_reader (ReadIndex 6);
  t ← getTable;
  nameEntry ← from_option ErrIndexError
    (if negb (static =? 0) then Static <$> GetStatic nameIndex
     else Dynamic <$> GetDynamic t nameIndex base);
  readValueAndInsert (entry_Name nameEntry).

Definition readInsertWithNameLiteral (base : Z) : go (decoding R) unit :=
  name ← on_reader (ReadString 5);
  readValueAndInsert name.

Definition readDuplicate (base : Z) : go (decoding R) unit :=
  index ← on_reader (ReadIndex 5);
  t ← getTable;
  entry ← from_option ErrIndexError (GetDynamic t index base);
  insertAndSend (Name entry) (Value entry).

Definition readDynamicUpdate : go (decoding R) unit :=
  capacity ← on_reader (ReadInt 5);
  t ← getTable;
  set_table (SetCapacity t capacity).

(** One instruction after its first bit [b]. *)
Definition readUpdate (base b : Z) : go (decoding R) unit :=
  if b =? 1 then readInsertWithNameReference base else
  b ← on_reader ReadBit;
  if b =? 1 then readInsertWithNameLiteral base else
  b ← on_reader ReadBit;
  if b =? 1 then readDynamicUpdate else readDuplicate base.

(** Every round takes a bit. *)
Fixpoint ReadTableUpdates (fuel : nat) : go (decoding R) unit :=
  match fuel with
  | O => nofuel
  | S fuel' =>
      t ← getTable;
      r ← catch (on_reader ReadBit);
      match r with
      | inr EOF => mret tt
      | inr err => fail err
      | inl b => readUpdate (tbase t) b;; ReadTableUpdates fuel'
      end
  end.

(** ** Header blocks *)

(** [decodeLargestBase]; dividing by zero panics. *)
Definition decodeLargestBase (t : qpackTableCommon) (lrRaw : Z) : outcome Z :=
  if lrRaw =? 0 then Ok 0 else
  let maxEntries := u64 (capacity t / entryOverhead) in
  let fullRange := u64 (maxEntries * 2) in
  let maxValue := u64 (u64 (tbase t) + maxEntries) in
  if fullRange =? 0 then Panic else
  let rounded := u64 (maxValue / fullRange * fullRange) in
  let largestReference := u64 (u64 (rounded + lrRaw) - 1) in
  let largestReference :=
    if (maxValue <? largestReference) && (fullRange <=? largestReference)
    then u64 (largestReference - fullRange) else largestReference in
  Ok (i64 largestReference).

(** [readBase] up to [WaitForEntry], and the rest of it. *)
Definition readLargestBase : go (decoding R) Z :=
  lrRaw ← on_reader (ReadInt 8);
  t ← getTable;
  lift (decodeLargestBase t lrRaw).

Definition readBase (largestBase : Z) : go (decoding R) Z :=
  sign ← on_reader ReadBit;
  delta ← on_reader (ReadIndex 7);
  if (sign =? 1) && (delta =? 0) then fail ErrInvalidDelta else
  mret (i64 (largestBase + i64 (delta * (1 - 2 * sign)))).

Definition readIndexed (base : Z) : go (decoding R) HeaderField :=
  static ← on_reader ReadBit;
  index ← on_reader (ReadIndex 6);
  t ← getTable;
  entry ← from_option ErrIndexError
    (if static =? 1 then Static <$> GetStatic index else Dynamic <$> GetDynamic t index base);
  mret (MkHeaderField (entry_Name entry) (entry_Value entry) false).

Definition readPostBaseIndexed (base : Z) : go (decoding R) HeaderField :=
  postBase ← on_reader (ReadIndex 4);
  t ← getTable;
  entry ← from_option ErrIndexError (GetDynamic t (i64 (-1 - postBase)) base);
  mret (MkHeaderField (Name entry) (Value entry) false).

Definition readLiteralWithNameReference (base : Z) : go (decoding R) HeaderField :=
  neverIndex ← on_reader ReadBit;
  static ← on_reader ReadBit;
  nameIndex ← on_reader (ReadIndex 4);
  t ← getTable;
  nameEntry ← from_option ErrIndexError
    (if static =? 1 then Static <$> GetStatic nameIndex
     else Dynamic <$> GetDynamic t nameIndex base);
  value ← on_reader (ReadString 7);
  mret (MkHeaderField (entry_Name nameEntry) value (neverIndex =? 1)).

Definition readLiteralWithPostBaseNameReference (base : Z) : go (decoding R) HeaderField :=
  neverIndex ← on_reader ReadBit;
  postBase ← on_reader (ReadIndex 3);
  t ← getTable;
  nameEntry ← from_option ErrIndexError (GetDynamic t (i64 (-1 * postBase)) base);
  value ← on_reader (ReadString 7);
  mret (MkHeaderField (Name nameEntry) value (neverIndex =? 1)).

Definition readLiteralWithNameLiteral : go (decoding R) HeaderField :=
  neverIndex ← on_reader ReadBit;
  name ← on_reader (ReadString 3);
  value ← on_reader (ReadString 7);
  mret (MkHeaderField name value (neverIndex =? 1)).

(** One field line after its first bit [b]. *)
Definition readField (base b : Z) : go (decoding R) HeaderField :=
  if b =? 1 then readIndexed base else
  b ← on_reader ReadBit;
  if b =? 1 then readLiteralWithNameReference base else
  b ← on_reader ReadBit;
  if b =? 1 then readLiteralWithNameLiteral else
  b ← on_reader ReadBit;
  if b =? 1 then readPostBaseIndexed base else readLiteralWithPostBaseNameReference base.

Fixpoint readFields (fuel : nat) (base : Z) (headers : list HeaderField)
  : go (decoding R) (list HeaderField) :=
  match fuel with
  | O => nofuel
  | S fuel' =>
      r ← catch (on_reader ReadBit);
      match r with
      | inr EOF => mret headers
      | inr err => fail err
      | inl b => h ← readField base b; readFields fuel' base (headers ++ [h])
      end
  end.

(** The part of [ReadHeaderBlock] after the wait. *)
Definition readBlock (fuel : nat) (id largestBase : Z) : go (decoding R) (list HeaderField) :=
  base ← readBase largestBase;
  headers ← readFields fuel base [];
  (if 0 <? largestBase then send (EvAcknowledged id largestBase) else mret tt);;
  mret headers.

Definition ReadHeaderBlock (fuel : nat) (id : Z) : go (decoding R) (list HeaderField) :=
  largestBase ← readLargestBase;
  t ← getTable;
  if entryAvailable t largestBase then readBlock fuel id largestBase else fail ErrWouldBlock.

Definition Cancelled (id : Z) : go (decoding R) unit := send (EvCancelled id).
End decoder.

(** ** The acknowledgment goroutine *)

Record acking (W : Type) := Acking {
  ak_writer : bitWriter W;
  ak_largest : Z;       (* largestAcknowledged *)
  ak_sync : Z;          (* syncLargest *)
  ak_delayTss : bool;   (* false while the timer runs *)
}.
Arguments Acking {W}.
Arguments ak_writer {W}.
Arguments ak_largest {W}.
Arguments ak_sync {W}.
Arguments ak_delayTss {W}.

Section ack.
Context {W : Type} `{IoWriter W}.

Definition on_ack {A} (m : go (bitWriter W) A) : go (acking W) A :=
  zoom ak_writer (λ w s, Acking w (ak_largest s) (ak_sync s) (ak_delayTss s)) m.

(** One round of the loop of [writeAcknowledgements]. An error ends the
    goroutine. *)
Definition handleAck (ev : ackEvent) : go (acking W) unit :=
  s ← getS;
  match ev with
  | EvAcknowledged id largestReference =>
      modS (λ s, Acking (ak_writer s) largestReference (ak_sync s) (ak_delayTss s));;
      on_ack (WriteBit 1);;
      on_ack (WriteInt id 7)
  | EvCancelled id =>
      on_ack (WriteBits 1 2);;
      on_ack (WriteInt id 6)
  | EvAvailable entry =>
      if ak_sync s <? entry
      then modS (λ s, Acking (ak_writer s) (ak_largest s) entry false)
      else mret tt
  | EvTimer =>
      modS (λ s, Acking (ak_writer s) (ak_largest s) (ak_sync s) true);;
      if ak_sync s <=? ak_largest s then mret tt else
      let v := u64 (i64 (ak_sync s - ak_largest s)) in
      modS (λ s, Acking (ak_writer s) (ak_sync s) (ak_sync s) (ak_delayTss s));;
      on_ack (WriteBits 0 2);;
      on_ack (WriteInt v 6)
  end.

(** The loop over the messages received, in order. *)
Fixpoint writeAcknowledgements (evs : list ackEvent) : go (acking W) unit :=
  match evs with
  | [] => mret tt
  | ev :: evs' => handleAck ev;; writeAcknowledgements evs'
  end.

Definition newAcking (w : W) : acking W := Acking (NewBitWriter w) 0 0 true.
End ack.
