(* ===== verification/QpackTableSpec.v ===== *)
(** * The encoder's table: its invariant and what an insertion does

    The referenceable part is always a prefix of the table with exact size, an
    insertion is the common one, and only entries that may go are evicted. *)

From S2P Require Import Prelude Bits GoIo HuffmanTable Huffman HcString StaticTable Table QpackTable.

(** ** Well-formed encoder tables *)

(** No entry is so long that its size wraps around. *)
Definition sized (d : qpackEntry) : Prop := entryOverhead ≤ Size d.

Record etable_wf (qt : QpackEncoderTable) : Prop := {
  et_table : table_wf (qt_common qt);
  et_count : 0 ≤ referenceable qt ≤ zlen (dynamic (qt_common qt));
  et_size : referenceableSize qt = total (ztake (referenceable qt) (dynamic (qt_common qt)));
  et_limit : 0 ≤ referenceableLimit qt ≤ capacity (qt_common qt);
  et_sized : Forall sized (dynamic (qt_common qt));
}.

(** The entries the eviction check lets go. *)
Definition evictable (u : qpackUsage) (evict : qpackEntry → bool) (d : qpackEntry) : Prop :=
  evict d = true ∧ inUse u (Base d) = false.

(** Only evictable entries are gone from [t] in [t']. *)
Definition spared (u : qpackUsage) (evict : qpackEntry → bool) (t t' : qpackTableCommon) : Prop :=
  ∀ d, d ∈ dynamic t → d ∈ dynamic t' ∨ evictable u evict d.

(** ** The referenceable part *)

Lemma added_loop_spec entries limit i : (i ≤ length entries)%nat → 0 ≤ limit →
  total (take i entries) < 2 ^ 64 →
  ∃ j, added_loop entries limit i (total (take i entries)) =
         Ok (Z.of_nat j, total (take j entries)) ∧ (j ≤ i)%nat ∧
       total (take j entries) ≤ limit ∧ (j = i ∨ limit < total (take (S j) entries)).
Proof.
  intros Hi Hlim. induction i as [|i IH]; intros Hmax; cbn [added_loop].
  - rewrite take_0. cbn [total]. rewrite (proj2 (Z.ltb_ge _ _)) by lia. exists 0%nat.
    rewrite take_0. split_and!; [done|lia|cbn; lia|by left].
  - destruct (Z.ltb_spec limit (total (take (S i) entries))) as [Hlt|].
    2: { exists (S i). split_and!; [done|lia|lia|by left]. }
    destruct (lookup_lt_is_Some_2 entries i) as [e He]; [lia|]. rewrite He.
    pose proof (take_S_total _ _ _ He) as Htot. pose proof (total_nonneg (take i entries)).
    pose proof (Size_range e) as Hsz. unfold is_u64 in Hsz.
    rewrite u64_small by lia.
    replace (total (take (S i) entries) - Size e) with (total (take i entries)) by lia.
    destruct IH as (j & -> & Hj & Hle & Hmore); [lia..|]. exists j. split_and!; [done|lia|done|].
    destruct Hmore as [->|]; by right.
Qed.

Lemma limit_scan_spec all r rs entries remaining : all = ztake r all ++ entries →
  0 ≤ r ≤ zlen all → rs = total (ztake r all) → total all < 2 ^ 64 →
  ∃ r', limit_scan entries remaining r rs = (r', total (ztake r' all)) ∧ 0 ≤ r' ≤ zlen all.
Proof.
  revert r rs. induction entries as [|e entries IH]; intros r rs Hall Hr -> Hmax; cbn [limit_scan].
  { by exists r. }
  destruct (_ <? _); [|by exists r].
  assert (all !! Z.to_nat r = Some e) as He.
  { rewrite Hall, lookup_app_r; unfold ztake, zlen in *; rewrite length_take; [|lia].
    by replace (Z.to_nat r - _)%nat with 0%nat by lia. }
  apply lookup_lt_Some in He as Hlt. unfold zlen in Hr.
  assert (total (ztake (r + 1) all) = total (ztake r all) + Size e) as Htot.
  { unfold ztake. replace (Z.to_nat (r + 1)) with (S (Z.to_nat r)) by lia. by apply take_S_total. }
  pose proof (total_take_le (Z.to_nat (r + 1)) all). unfold ztake in Htot.
  pose proof (total_nonneg (take (Z.to_nat r) all)). pose proof (Size_range e) as Hsz. unfold is_u64 in Hsz.
  apply IH; [|unfold zlen; lia| |done].
  - unfold ztake. replace (Z.to_nat (r + 1)) with (S (Z.to_nat r)) by lia.
    rewrite (take_S_r _ _ _ He), <- (assoc_L (++)). exact Hall.
  - unfold ztake. rewrite u64_small; lia.
Qed.

Lemma SetReferenceableLimit_wf limit qt : etable_wf qt → 0 ≤ limit →
  let qt' := SetReferenceableLimit limit qt in
  etable_wf qt' ∧ qt_common qt' = qt_common qt ∧
  referenceableLimit qt' = Z.min limit (capacity (qt_common qt)).
Proof.
  intros [Hwf _ _ _ Hsz] Hlim. unfold SetReferenceableLimit. pose proof Hwf as [Hcap _ Hfits _ _].
  set (l := if capacity (qt_common qt) <? limit then capacity (qt_common qt) else limit).
  assert (l = Z.min limit (capacity (qt_common qt))) as ->
    by (unfold l; destruct (Z.ltb_spec (capacity (qt_common qt)) limit); lia).
  unfold is_u64 in Hcap. pose proof (zlen_nonneg (dynamic (qt_common qt))).
  destruct (limit_scan_spec (dynamic (qt_common qt)) 0 0 (dynamic (qt_common qt))
    (Z.min limit (capacity (qt_common qt)))) as (r & -> & Hr); [done|lia|done|lia|].
  split_and!; [|done..]. split; cbn; [done|done|done|lia|done].
Qed.

(** ** Insertion *)

(** What the eviction loop leaves of the referenceable part when [l] entries are
    left, and what it has let go. *)
Definition shrunk (dyn : list qpackEntry) (ok : qpackEntry → Prop) (r : Z) (l : nat) (s : Z * Z) : Prop :=
  s = (Z.min r (Z.of_nat l), total (ztake (Z.min r (Z.of_nat l)) dyn)) ∧
  ∀ j d, (l ≤ j)%nat → dyn !! j = Some d → ok d.

Lemma evictWrapper_shrinks (qt : QpackEncoderTable) u evict l d s : etable_wf qt →
  let t := qt_common qt in dynamic t !! l = Some d →
  shrunk (dynamic t) (evictable u evict) (referenceable qt) (S l) s →
  (evictWrapper evict u (tbase t) d s).1 = true →
  shrunk (dynamic t) (evictable u evict) (referenceable qt) l (evictWrapper evict u (tbase t) d s).2.
Proof.
  intros [Hwf Hr _ _ _] t Hd [-> Hok]. pose proof Hwf as [Hcap _ Hfits Hbases Htb].
  subst t. set (t := qt_common qt) in *.
  unfold evictWrapper. destruct (evict d) eqn:He; [|done]. destruct (inUse u (Base d)) eqn:Hu; [done|].
  intros _. cbn [negb snd]. split.
  2: { intros j d' Hj Hd'. destruct (decide (j = l)) as [->|]; [|apply (Hok j); [lia|done]].
       rewrite Hd in Hd'. injection Hd' as <-. by split. }
  unfold removed, entry_Index. pose proof (Hbases _ _ Hd) as HB. apply lookup_lt_Some in Hd as Hlt.
  unfold zlen, intMax in *. rewrite HB, i64_small by lia. cbn [fst snd].
  destruct (Z.ltb_spec (tbase t - (tbase t - Z.of_nat l)) (Z.min (referenceable qt) (Z.of_nat (S l))))
    as [Hin|Hout].
  - replace (Z.min (referenceable qt) (Z.of_nat (S l))) with (Z.of_nat l + 1) by lia.
    replace (Z.min (referenceable qt) (Z.of_nat l)) with (Z.of_nat l) by lia.
    f_equal; [lia|]. unfold ztake.
    replace (Z.to_nat (Z.of_nat l + 1)) with (S l) by lia. rewrite Nat2Z.id.
    rewrite (take_S_total _ _ _ Hd). pose proof (total_take_le l (dynamic t)).
    pose proof (total_nonneg (take l (dynamic t))). unfold is_u64 in Hcap.
    rewrite u64_small; lia.
  - by replace (Z.min (referenceable qt) (Z.of_nat (S l))) with (Z.min (referenceable qt) (Z.of_nat l)) by lia.
Qed.

Lemma shrunk_fit dyn ok r c s d : shrunk dyn ok r (length (fit c dyn)) s → d ∈ dyn →
  d ∈ fit c dyn ∨ ok d.
Proof.
  intros [_ Hok] (j & Hj)%list_elem_of_lookup. destruct (fit_prefix c dyn) as [l Hl].
  destruct (decide (j < length (fit c dyn))%nat) as [Hlt|]; [left|right; by apply (Hok j); [lia|]].
  apply list_elem_of_lookup. exists j. rewrite Hl in *. rewrite length_take in Hlt.
  by rewrite lookup_take_lt by lia.
Qed.

Lemma shrunk_start qt u evict : etable_wf qt →
  shrunk (dynamic (qt_common qt)) (evictable u evict) (referenceable qt)
    (length (dynamic (qt_common qt))) (referenceable qt, referenceableSize qt).
Proof.
  intros [_ Hr Hs _ _]. unfold zlen in Hr. split; [by rewrite Z.min_l, Hs by lia|].
  intros j d Hj Hd%lookup_lt_Some. lia.
Qed.

(** The eviction of [insert], in the encoder's table. *)
Lemma evict_spec qt u evict reduced : etable_wf qt → 
  let t := qt_common qt in
  match evictTo t reduced (Some (evictWrapper evict u (tbase t))) (referenceable qt, referenceableSize qt) with
  | (true, t', s) => t' = TableCommon (fit reduced (dynamic t)) (capacity t)
      (total (fit reduced (dynamic t))) (tbase t) ∧
      shrunk (dynamic t) (evictable u evict) (referenceable qt) (length (fit reduced (dynamic t))) s
  | (false, t', s) => t' = t ∧ reduced < used t ∧ ∃ l,
      shrunk (dynamic t) (evictable u evict) (referenceable qt) l s ∧ (l ≤ length (dynamic t))%nat ∧
      ∃ d, dynamic t !! pred l = Some d ∧ ¬ evictable u evict d
  end.
Proof.
  intros Hwf t. pose proof (et_table _ Hwf) as Htwf.
  pose proof (evictTo_spec (shrunk (dynamic t) (evictable u evict) (referenceable qt)) t reduced
    (Some (evictWrapper evict u (tbase t))) (referenceable qt, referenceableSize qt) Htwf
    (shrunk_start _ _ _ Hwf)) as He.
  destruct (evictTo t reduced _ _) as [[[] t'] s].
  - apply He. intros l d s' Hd _ Hs. by apply evictWrapper_shrinks.
  - destruct He as (-> & _ & Hused & l & d & s0 & Hd & Hs & Hf);
      [intros l d s' Hd _ Hs'; by apply evictWrapper_shrinks|].
    split_and!; [done|done|]. exists (S l). unfold evictWrapper in Hf.
    split_and!; [|apply lookup_lt_Some in Hd; lia|exists d; split; [done|]].
    + destruct (evict d), (inUse u (Base d)); cbn in Hf; by simplify_eq.
    + intros [He Hu]. rewrite He, Hu in Hf. done.
Qed.

Lemma fit_0 dyn : Forall sized dyn → fit 0 dyn = [].
Proof.
  destruct 1 as [|d dyn Hd _]; [done|]. cbn. unfold sized, entryOverhead in Hd.
  by rewrite (proj2 (Z.leb_gt _ _)) by lia.
Qed.

Lemma sized_fit c dyn : Forall sized dyn → Forall sized (fit c dyn).
Proof. intros Hs. destruct (fit_prefix c dyn) as [l ->]. by apply Forall_take. Qed.

(** An entry that does not go in evicts nothing, or all of a table it is too
    large for. *)
Definition not_inserted (t t' : qpackTableCommon) (e : qpackEntry) : Prop :=
  t' = t ∨ (capacity t < Size e ∧ t' = inserted t e).

(** The new table holds the entry; the referenceable part is the longest prefix
    within the limit that has at most one entry more than before. *)
Definition entered (qt qt' : QpackEncoderTable) (e d : qpackEntry) : Prop :=
  Size e ≤ capacity (qt_common qt) ∧ d = setBase (tbase (qt_common qt) + 1) e ∧
  qt_common qt' = inserted (qt_common qt) e ∧ referenceableSize qt' ≤ referenceableLimit qt'.

Lemma shrunk_wf qt ok l s t' : etable_wf qt → shrunk (dynamic (qt_common qt)) ok (referenceable qt) l s →
  (l ≤ length (dynamic (qt_common qt)))%nat →
  t' = qt_common qt →
  etable_wf (MkQpackEncoderTable t' (referenceableLimit qt) s.1 s.2).
Proof.
  intros [Hwf Hr Hs Hl Hsz] [-> _] Hlen ->. unfold zlen in *. split; cbn; try done. unfold zlen. lia.
Qed.

(** A successful insertion, after the eviction. *)
Lemma added_spec qt e s (ok : qpackEntry → Prop) : etable_wf qt → sized e → tbase (qt_common qt) < intMax →
  let t := qt_common qt in
  Size e ≤ capacity t →
  shrunk (dynamic t) ok (referenceable qt) (length (evicted t (capacity t - Size e))) s →
  ∃ qt', added (MkQpackEncoderTable (inserted t e) (referenceableLimit qt) s.1 s.2)
           (setBase (tbase t + 1) e) = Ok qt' ∧
    etable_wf qt' ∧ referenceableLimit qt' = referenceableLimit qt ∧
    qt_common qt' = inserted t e ∧ referenceableSize qt' ≤ referenceableLimit qt'.
Proof.
  intros Hwf He Hb t Hcap [-> _]. pose proof (inserted_wf t e (et_table _ Hwf) Hb) as Hwf'.
  destruct Hwf as [Htwf Hr Hs Hl Hsz]. subst t. set (t := qt_common qt) in *.
  set (old := evicted t (capacity t - Size e)) in *.
  assert (inserted t e = TableCommon (setBase (tbase t + 1) e :: old) (capacity t)
    (Size e + total old) (tbase t + 1)) as Hins
    by (unfold inserted; by rewrite (proj2 (Z.ltb_ge _ _)) by lia).
  rewrite Hins in *. pose proof Hwf' as [Hc _ Hf _ _]. cbn [dynamic capacity total] in Hf, Hc. rewrite Size_setBase in Hf.
  set (r := Z.min (referenceable qt) (Z.of_nat (length old))) in *.
  assert (0 ≤ r ≤ Z.of_nat (length old)) as Hrange by lia.
  unfold added. cbn [fst snd qt_common dynamic referenceable referenceableSize referenceableLimit].
  assert (ztake r (dynamic t) = take (Z.to_nat r) old) as Htk.
  { destruct (fit_prefix (capacity t - Size e) (dynamic t)) as [l Hl']. change (fit _ _) with old in Hl'.
    rewrite Hl', length_take in Hrange. rewrite Hl', take_take. unfold ztake. f_equal. lia. }
  rewrite Htk, Size_setBase. replace (Z.to_nat (r + 1)) with (S (Z.to_nat r)) by lia.
  pose proof (total_take_le (Z.to_nat r) old). pose proof (total_nonneg (take (Z.to_nat r) old)).
  pose proof (Size_range e) as Hse. unfold is_u64 in *.
  rewrite u64_small by lia.
  destruct (added_loop_spec (setBase (tbase t + 1) e :: old) (referenceableLimit qt) (S (Z.to_nat r)))
    as (j & Hj & Hjr & Hle & _); [cbn [length]; lia|lia|cbn [take total]; rewrite Size_setBase; lia|].
  cbn [take total] in Hj. rewrite Size_setBase in Hj.
  rewrite (Z.add_comm (total _)), Hj. eexists. split; [done|]. split_and!; [|done..].
  split; cbn [qt_common referenceable referenceableSize referenceableLimit dynamic capacity];
    [done|unfold zlen; cbn [length]; lia|unfold ztake; by rewrite Nat2Z.id|lia|].
  constructor; [unfold sized; by rewrite Size_setBase|by apply sized_fit].
Qed.

(** Why an entry did not go in: it is larger than the table, or an entry in the
    way may not be evicted. *)
Definition blocked (u : qpackUsage) (evict : qpackEntry → bool) (t : qpackTableCommon) (e : qpackEntry) : Prop :=
  capacity t < Size e ∨ ∃ d, d ∈ dynamic t ∧ ¬ evictable u evict d.

Lemma EncoderTable_Insert_spec qt u name value evict :
  let e : qpackEntry := MkBasicDynamicEntry name value 0 in
  etable_wf qt → sized e → tbase (qt_common qt) < intMax →
  ∃ o qt', EncoderTable_Insert qt u name value evict = Ok (o, qt') ∧
    etable_wf qt' ∧ referenceableLimit qt' = referenceableLimit qt ∧
    spared u evict (qt_common qt) (qt_common qt') ∧
    match o with
    | Some d => entered qt qt' e d
    | None => not_inserted (qt_common qt) (qt_common qt') e ∧ blocked u evict (qt_common qt) e
    end.
Proof.
  intros e Hwf He Hb. pose proof Hwf as [Htwf _ _ Hl Hsz]. unfold EncoderTable_Insert, insert. fold e.
  pose proof (evict_spec qt u evict) as Hev. set (t := qt_common qt) in *.
  pose proof Htwf as [Hcap _ _ _ Htb]. pose proof (zlen_nonneg (dynamic t)).
  pose proof (Size_range e) as Hse. unfold is_u64, intMax in *.
  destruct (Z.ltb_spec (capacity t) (Size e)) as [Hbig|Hfit].
  - specialize (Hev 0 Hwf). destruct (evictTo t 0 _ _) as [[[] t'] [r rs]].
    + destruct Hev as [-> Hs]. pose proof Hs as [Hrs _]. rewrite fit_0 in Hrs by done.
      change (Z.of_nat (length [])) with 0 in Hrs. pose proof (et_count _ Hwf).
      rewrite Z.min_r in Hrs by lia. injection Hrs as -> ->.
      eexists None, _. split; [done|]. cbn [qt_common referenceable referenceableSize referenceableLimit].
      split_and!; [|done| |right|by left].
      * split; cbn; [|done|done|fold t in Hl; lia|done].
        replace (TableCommon _ _ _ _) with (inserted t e); [by apply inserted_wf|].
        unfold inserted. by rewrite (proj2 (Z.ltb_lt _ _)).
      * intros d Hd. right. destruct (shrunk_fit _ _ _ _ _ _ Hs Hd) as [Hf|]; [|done].
        by rewrite fit_0, elem_of_nil in Hf by done.
      * split; [done|]. unfold inserted. by rewrite (proj2 (Z.ltb_lt _ _)).
    + destruct Hev as (-> & _ & l & Hs & Hlen & d & Hd & Hno). eexists None, _. split; [done|].
      split_and!; [by eapply (shrunk_wf qt _ l (r, rs))|done|by left|by left|by left].
  - rewrite (u64_small (_ - _)) by lia.
    specialize (Hev (capacity t - Size e) Hwf). destruct (evictTo t _ _ _) as [[[] t'] [r rs]].
    + destruct Hev as [-> Hs]. cbn [dynamic capacity used tbase].
      rewrite i64_small, Size_setBase by lia.
      pose proof (fit_total (capacity t - Size e) (dynamic t)).
      pose proof (total_nonneg (fit (capacity t - Size e) (dynamic t))).
      rewrite u64_small, (Z.add_comm (total _)) by lia.
      destruct (added_spec qt e (r, rs) (evictable u evict) Hwf He) as (qt' & Ha & Hwf' & Hlim & Hcom & Hle);
        [done|done|exact Hs|].
      assert (inserted t e = TableCommon (setBase (tbase t + 1) e :: fit (capacity t - Size e) (dynamic t))
        (capacity t) (Size e + total (fit (capacity t - Size e) (dynamic t))) (tbase t + 1)) as Hins
        by (unfold inserted; by rewrite (proj2 (Z.ltb_ge _ _)) by lia).
      fold t in Ha, Hcom. cbn [fst snd] in Ha. rewrite Hins in Ha. rewrite Ha.
      eexists (Some _), qt'. split; [done|]. split_and!; [done|done| |by split].
      intros d Hd. rewrite Hcom, Hins. cbn [dynamic].
      destruct (shrunk_fit _ _ _ _ _ _ Hs Hd); [left; by constructor|by right].
    + destruct Hev as (-> & _ & l & Hs & Hlen & d & Hd & Hno). eexists None, _. split; [done|].
      split_and!; [by eapply (shrunk_wf qt _ l (r, rs))|done|by left|by left|].
      right. exists d. split; [by eapply list_elem_of_lookup_2|done].
Qed.
