(* ===== verification/QpackUsageSpec.v ===== *)
(** * The usage tracker: counts and blocks agree

    The [usageCount] of an entry is the number of times the blocks in flight use
    it, and every operation of the tracker keeps it so. *)

From S2P Require Import Prelude Bits GoIo HuffmanTable Huffman HcString StaticTable Table QpackTable.

(** The times [b] occurs in a list of bases. *)
Definition occurs (b : Z) (bs : list Z) : Z := zlen (filter (λ c, c = b) bs).

(** The times the blocks of the store use the entry with base [b]. *)
Definition uses_of (u : qpackUsage) (b : Z) : Z :=
  map_fold (λ _ h n, occurs b (hbu_entries h) + n) 0 (blocks u).

(** A block that has been made. *)
Definition known (u : qpackUsage) (r : nat) : Prop := (r < nextBlock u)%nat.

(** The counts are exact (modulo the width of [usageCount]), references that are
    not taken yet are free, and streams refer to blocks that have been made. *)
Record usage_ok (u : qpackUsage) : Prop := {
  uo_count b : count_of u b = u64 (uses_of u b);
  uo_free r : (nextBlock u ≤ r)%nat → blocks u !! r = None;
  uo_known id su : tracker u !! id = Some su → Forall (known u) su;
}.

Lemma occurs_nil b : occurs b [] = 0.
Proof. done. Qed.

Lemma occurs_app b l k : occurs b (l ++ k) = occurs b l + occurs b k.
Proof. unfold occurs. by rewrite filter_app, zlen_app. Qed.

Lemma occurs_singleton b c : occurs b [c] = if decide (c = b) then 1 else 0.
Proof. unfold occurs. rewrite filter_cons. by destruct (decide (c = b)). Qed.

(** The sum over the blocks, one block at a time. *)
Lemma uses_insert (m : gmap nat qpackHeaderBlockUsage) r h b :
  map_fold (λ _ h n, occurs b (hbu_entries h) + n) 0 (<[r := h]> m) =
  map_fold (λ _ h n, occurs b (hbu_entries h) + n) 0 m + occurs b (hbu_entries h) -
  occurs b (hbu_entries (default (HeaderBlockUsage [] 0) (m !! r))).
Proof.
  assert (∀ (m : gmap nat qpackHeaderBlockUsage) r h, m !! r = None →
    map_fold (λ _ h n, occurs b (hbu_entries h) + n) 0 (<[r := h]> m) =
    occurs b (hbu_entries h) + map_fold (λ _ h n, occurs b (hbu_entries h) + n) 0 m) as Hins.
  { intros m' r' h' Hn. apply (map_fold_insert_L (λ (_ : nat) h n, occurs b (hbu_entries h) + n)); [|done].
    intros. lia. }
  destruct (m !! r) as [h0|] eqn:Hr; cbn [default from_option]; unfold id.
  - pose proof (Hins (delete r m) r h (lookup_delete_eq m r)) as H1.
    pose proof (Hins (delete r m) r h0 (lookup_delete_eq m r)) as H2.
    rewrite insert_delete_eq in H1. rewrite insert_delete_id in H2 by done. lia.
  - rewrite Hins by done. cbn [hbu_entries]. rewrite occurs_nil. lia.
Qed.

Lemma uses_of_set_block r h u b :
  uses_of (set_block r h u) b = uses_of u b + occurs b (hbu_entries h) - occurs b (hbu_entries (block_of u r)).
Proof. apply uses_insert. Qed.

Lemma count_of_set_count u b c b' :
  count_of (set_count b c u) b' = if decide (b' = b) then c else count_of u b'.
Proof.
  unfold count_of. cbn. destruct (decide (b' = b)) as [->|]; [by rewrite lookup_insert_eq|].
  by rewrite lookup_insert_ne.
Qed.

(** ** The operations *)

Lemma usage_ok_new : usage_ok newUsage.
Proof. by split. Qed.

Lemma usage_ok_newBlock u : usage_ok u → usage_ok (newBlock u).2 ∧ known (newBlock u).2 (newBlock u).1.
Proof.
  intros [Hc Hf Hk]. split; [split; cbn|unfold known; cbn; lia].
  - intros b. change (count_of _ b) with (count_of u b). rewrite Hc. f_equal.
    unfold uses_of. cbn. rewrite uses_insert, (Hf (nextBlock u)) by done. cbn. rewrite occurs_nil. lia.
  - intros r Hr. rewrite lookup_insert_ne by lia. apply Hf. lia.
  - intros id su Hsu. eapply Forall_impl; [by eapply Hk|]. unfold known. cbn. lia.
Qed.

Lemma usage_ok_stream u id su : usage_ok u → (∀ l, su = Some l → Forall (known u) l) →
  usage_ok (set_stream id su u).
Proof.
  intros [Hc Hf Hk] Hsu. split; [done|done|]. cbn. intros id' l.
  destruct (decide (id = id')) as [->|]; [rewrite lookup_partial_alter_eq; apply Hsu|].
  rewrite lookup_partial_alter_ne by done. apply Hk.
Qed.

Lemma usage_ok_get u id : usage_ok u →
  usage_ok (ut_get id u).2 ∧ Forall (known (ut_get id u).2) (ut_get id u).1.
Proof.
  intros Hu. unfold ut_get. destruct (tracker u !! id) as [su|] eqn:Hs; cbn.
  - split; [done|]. by eapply uo_known.
  - split; [|constructor]. apply usage_ok_stream; [done|]. intros l [= <-]. constructor.
Qed.

Lemma usage_ok_add r b u : known u r → usage_ok u → usage_ok (hbu_add r b u).
Proof.
  intros Hr [Hc Hf Hk]. split; [| |done].
  - intros b'. unfold hbu_add. change (count_of (set_block r ?h ?v) b') with (count_of v b').
    rewrite uses_of_set_block, count_of_set_count. cbn [hbu_entries].
    change (uses_of (set_count b _ u) b') with (uses_of u b').
    change (block_of (set_count b _ u) r) with (block_of u r).
    rewrite occurs_app, occurs_singleton. destruct (decide (b' = b)) as [->|Hne].
    + rewrite decide_True, Hc by done. unfold u64. rewrite Zplus_mod_idemp_l. f_equal. lia.
    + rewrite decide_False, Hc by done. f_equal. lia.
  - intros r' Hr'. unfold known in Hr. cbn in *. rewrite lookup_insert_ne by lia. by apply Hf.
Qed.

(** Releasing the entries [bs] lowers each count by its occurrences. *)
Lemma release_count bs u b :
  count_of (foldl (λ u b, set_count b (u64 (count_of u b - 1)) u) u bs) b =
    if decide (b ∈ bs) then u64 (count_of u b - occurs b bs) else count_of u b.
Proof.
  revert u. induction bs as [|c bs IH]; intros u; [done|]. cbn [foldl].
  rewrite IH, count_of_set_count. change (c :: bs) with ([c] ++ bs). rewrite occurs_app, occurs_singleton.
  destruct (decide (b = c)) as [->|Hne].
  - rewrite (decide_True (P := c = c)), (decide_True (P := c ∈ [c] ++ bs)) by (done || by constructor).
    destruct (decide (c ∈ bs)) as [|Hnin].
    + unfold u64. rewrite Zminus_mod_idemp_l. f_equal. lia.
    + assert (occurs c bs = 0) as ->; [|f_equal; lia]. unfold occurs.
      destruct (filter (λ x, x = c) bs) as [|x l] eqn:Hfil; [done|].
      assert (x ∈ filter (λ x, x = c) bs) as [-> ?]%list_elem_of_filter by (rewrite Hfil; by constructor). done.
  - rewrite (decide_False (P := c = b)) by done. rewrite Z.add_0_l.
    destruct (decide (b ∈ bs)) as [Hin|Hnin].
    + by rewrite decide_True by (by constructor).
    + by rewrite decide_False by (by intros [->|?]%elem_of_cons).
Qed.

Lemma release_frame bs u :
  let u' := foldl (λ u b, set_count b (u64 (count_of u b - 1)) u) u bs in
  blocks u' = blocks u ∧ nextBlock u' = nextBlock u ∧ tracker u' = tracker u.
Proof. revert u. induction bs as [|c bs IH]; intros u; [done|]. cbn. by destruct (IH (set_count c (u64 (count_of u c - 1)) u)) as (-> & -> & ->). Qed.

Lemma occurs_notin b bs : b ∉ bs → occurs b bs = 0.
Proof.
  intros Hnin. unfold occurs. destruct (filter (λ x, x = b) bs) as [|x l] eqn:Hfil; [done|].
  assert (x ∈ filter (λ x, x = b) bs) as [-> ?]%list_elem_of_filter by (rewrite Hfil; by constructor). done.
Qed.

Lemma usage_ok_ack r u : known u r → usage_ok u → usage_ok (hbu_ack r u) ∧ nextBlock (hbu_ack r u) = nextBlock u ∧
  tracker (hbu_ack r u) = tracker u.
Proof.
  intros Hr [Hc Hf Hk]. unfold hbu_ack.
  destruct (release_frame (hbu_entries (block_of u r)) u) as (Hb & Hn & Ht).
  set (u' := foldl _ u _) in *. split; [split|split; [exact Hn|exact Ht]].
  - intros b. change (count_of (set_block r ?h u') b) with (count_of u' b).
    rewrite uses_of_set_block. unfold u' at 1. rewrite release_count, Hc. cbn [hbu_entries]. rewrite occurs_nil.
    assert (uses_of u' b = uses_of u b) as -> by (unfold uses_of; by rewrite Hb).
    assert (block_of u' r = block_of u r) as -> by (unfold block_of; by rewrite Hb).
    destruct (decide (b ∈ hbu_entries (block_of u r))).
    + unfold u64. rewrite Zminus_mod_idemp_l. f_equal. lia.
    + rewrite occurs_notin by done. f_equal. lia.
  - intros r' Hr'. unfold known in Hr. cbn in *. rewrite Hn in Hr'.
    rewrite lookup_insert_ne, Hb by lia. by apply Hf.
  - intros id su. cbn. rewrite Ht. intros Hs. eapply Forall_impl; [by eapply Hk|].
    unfold known. cbn. intros. by rewrite Hn.
Qed.

(** The largest references stay. *)
Lemma hbu_ack_max r u r' : hbu_max (block_of (hbu_ack r u) r') = hbu_max (block_of u r').
Proof.
  unfold hbu_ack. destruct (release_frame (hbu_entries (block_of u r)) u) as (Hb & _ & _).
  set (u' := foldl _ u _) in *. unfold block_of at 1. cbn. rewrite Hb.
  destruct (decide (r' = r)) as [->|]; [by rewrite lookup_insert_eq|by rewrite lookup_insert_ne].
Qed.

(** What the handlers of acknowledgments keep. *)
Record same_blocks (u u' : qpackUsage) : Prop := {
  sb_ok : usage_ok u';
  sb_max r : hbu_max (block_of u' r) = hbu_max (block_of u r);
  sb_next : nextBlock u' = nextBlock u;
}.

Lemma su_cancel_same su u : usage_ok u → Forall (known u) su → same_blocks u (su_cancel su u).2.
Proof.
  intros Hu Hk. unfold su_cancel. generalize 0. revert u Hu Hk.
  induction su as [|r su IH]; intros u Hu Hk m; [by split|]. inversion Hk as [|?? Hr Hrs]; subst.
  destruct (usage_ok_ack r u Hr Hu) as (Hu' & Hn & _). cbn [foldl].
  destruct (IH (hbu_ack r u) Hu') with (if m <? hbu_max (block_of (hbu_ack r u) r)
    then hbu_max (block_of (hbu_ack r u) r) else m) as [Ho Hm Hnx].
  - eapply Forall_impl; [exact Hrs|]. unfold known. by rewrite Hn.
  - split; [done| |congruence]. intros r'. by rewrite Hm, hbu_ack_max.
Qed.

Lemma ut_cancel_same id u : usage_ok u → same_blocks u (ut_cancel id u).2.
Proof.
  intros Hu. unfold ut_cancel. destruct (tracker u !! id) as [su|] eqn:Hs; [|by split].
  destruct (su_cancel_same su u Hu (uo_known _ Hu _ _ Hs)) as [Ho Hm Hn].
  destruct (su_cancel su u) as [m u']. cbn in *. split; [by apply usage_ok_stream|done|done].
Qed.

Lemma ut_ack_same id u : usage_ok u →
  same_blocks u (ut_ack id u).2 ∧ ∀ b, 0 ≤ b → (∀ r, hbu_max (block_of u r) ≤ b) → (ut_ack id u).1.1 ≤ b.
Proof.
  intros Hu. unfold ut_ack. destruct (tracker u !! id) as [su|] eqn:Hs; [|by split].
  pose proof (uo_known _ Hu _ _ Hs) as Hk. destruct su as [|r su]; cbn.
  - split; [|done]. split; [by apply usage_ok_stream|done|done].
  - inversion Hk as [|?? Hr Hrs]; subst. destruct (usage_ok_ack r u Hr Hu) as (Hu' & Hn & _).
    split; [|intros b Hb Hmax; apply Hmax].
    split; [|intros r'; apply hbu_ack_max|exact Hn].
    apply usage_ok_stream; [done|]. intros l Hl. destruct su as [|r2 su]; [done|]. injection Hl as <-.
    eapply Forall_impl; [exact Hrs|]. unfold known. by rewrite Hn.
Qed.

(** Once the blocks that use an entry are released, it is not in use. *)
Lemma not_in_use u b : usage_ok u → (∀ r, b ∉ hbu_entries (block_of u r)) → inUse u b = false.
Proof.
  intros [Hc _ _] Hno. unfold inUse. rewrite Hc. assert (uses_of u b = 0) as ->; [|done].
  assert (∀ m : gmap nat qpackHeaderBlockUsage, (∀ r h, m !! r = Some h → b ∉ hbu_entries h) →
    map_fold (λ _ h n, occurs b (hbu_entries h) + n) 0 m = 0) as Hz.
  { intros m. induction m as [|r h m Hn IH] using map_ind; intros Hm; [by rewrite map_fold_empty|].
    rewrite (map_fold_insert_L (λ (_ : nat) h n, occurs b (hbu_entries h) + n)) by (done || (intros; lia)).
    rewrite IH, occurs_notin; [done|apply (Hm r); by rewrite lookup_insert_eq|].
    intros r' h' Hr'. apply (Hm r'). rewrite lookup_insert_ne; [done|]. intros ->. congruence. }
  apply Hz. intros r h Hr. specialize (Hno r). unfold block_of in Hno. by rewrite Hr in Hno.
Qed.
