(* ===== verification/QpackDecoderSpec.v ===== *)
(** * QPACK: the abstract decoder

    [update] and [line] are the instructions of the update stream and the field
    lines of a header block, [update_bits] and [line_bits] their encodings, and
    [update_apply] and [line_value] what they mean for a table. The decoder
    implements them on any sequence. *)

From S2P Require Import Prelude Bits GoIo BitWriter BitReader Streams HcInt HuffmanTable Huffman HcString StaticTable Table Codec QpackTable QpackDecoder.

(** ** Instructions *)

Inductive update : Type :=
| UInsertName (static : bool) (i : Z) (v : string)
| UInsert (n v : string)
| UCapacity (c : Z)
| UDuplicate (i : Z).

Inductive line : Type :=
| LIndexed (static : bool) (i : Z)
| LPostIndexed (i : Z)
| LNameRef (sensitive static : bool) (i : Z) (v : string)
| LPostNameRef (sensitive : bool) (i : Z) (v : string)
| LLiteral (sensitive : bool) (n v : string).

Section bits.
Variable pref : HuffmanCodingChoice.

Definition update_bits (u : update) : list bool :=
  match u with
  | UInsertName static i v => true :: static :: int_bits 6 i ++ string_bits v 7 pref
  | UInsert n v => false :: true :: string_bits n 5 pref ++ string_bits v 7 pref
  | UCapacity c => false :: false :: true :: int_bits 5 c
  | UDuplicate i => false :: false :: false :: int_bits 5 i
  end.

Definition line_bits (l : line) : list bool :=
  match l with
  | LIndexed static i => true :: static :: int_bits 6 i
  | LPostIndexed i => false :: false :: false :: true :: int_bits 4 i
  | LNameRef sensitive static i v =>
      false :: true :: sensitive :: static :: int_bits 4 i ++ string_bits v 7 pref
  | LPostNameRef sensitive i v =>
      false :: false :: false :: false :: sensitive :: int_bits 3 i ++ string_bits v 7 pref
  | LLiteral sensitive n v =>
      false :: false :: true :: sensitive :: string_bits n 3 pref ++ string_bits v 7 pref
  end.

Definition index_ok (i : Z) : Prop := 0 ≤ i ≤ intMax.

Definition update_ok (u : update) : Prop :=
  match u with
  | UInsertName _ i v => index_ok i ∧ string_ok pref v
  | UInsert n v => string_ok pref n ∧ string_ok pref v
  | UCapacity c => is_u64 c
  | UDuplicate i => index_ok i
  end.

(** The lines that the decoder reads as they are meant. A name reference beyond the
    base is not one: [readLiteralWithPostBaseNameReference] takes it for the entry
    before (see [post_base_name_off_by_one] in [QpackProps]). *)
Definition line_ok (l : line) : Prop :=
  match l with
  | LIndexed _ i | LPostIndexed i => index_ok i
  | LNameRef _ _ i v => index_ok i ∧ string_ok pref v
  | LPostNameRef _ _ _ => False
  | LLiteral _ n v => string_ok pref n ∧ string_ok pref v
  end.
End bits.

(** ** What they mean *)

Definition new_entry (n v : string) : qpackEntry := MkBasicDynamicEntry n v 0.

(** An insertion, with the message about it. *)
Definition insert_apply (t : qpackTableCommon) (n v : string) : outcome (qpackTableCommon * list ackEvent) :=
  if capacity t <? Size (new_entry n v) then Err ErrTableOverflow
  else Ok (inserted t (new_entry n v), [EvAvailable (tbase t + 1)]).

(** The entry that a relative index refers to. *)
Definition entry_at (t : qpackTableCommon) (static : bool) (i base : Z) : option (Entry qpackEntry) :=
  if static then Static <$> GetStatic i else Dynamic <$> GetDynamic t i base.

Definition update_apply (t : qpackTableCommon) (u : update) : outcome (qpackTableCommon * list ackEvent) :=
  match u with
  | UInsertName static i v =>
      match entry_at t static i (tbase t) with
      | Some e => insert_apply t (entry_Name e) v
      | None => Err ErrIndexError
      end
  | UInsert n v => insert_apply t n v
  | UCapacity c => Ok (resized t c, [])
  | UDuplicate i =>
      match GetDynamic t i (tbase t) with
      | Some e => insert_apply t (Name e) (Value e)
      | None => Err ErrIndexError
      end
  end.

Fixpoint updates_apply (t : qpackTableCommon) (us : list update) : outcome (qpackTableCommon * list ackEvent) :=
  match us with
  | [] => Ok (t, [])
  | u :: us' =>
      match update_apply t u with
      | Ok (t1, evs1) =>
          match updates_apply t1 us' with
          | Ok (t2, evs2) => Ok (t2, evs1 ++ evs2)
          | o => o
          end
      | o => o
      end
  end.

Definition line_value (t : qpackTableCommon) (base : Z) (l : line) : option HeaderField :=
  match l with
  | LIndexed static i =>
      e ← entry_at t static i base;
      Some (MkHeaderField (entry_Name e) (entry_Value e) false)
  | LPostIndexed i =>
      e ← GetDynamic t (-1 - i) base;
      Some (MkHeaderField (Name e) (Value e) false)
  | LNameRef sensitive static i v =>
      e ← entry_at t static i base;
      Some (MkHeaderField (entry_Name e) v sensitive)
  | LPostNameRef sensitive i v =>
      e ← GetDynamic t (-1 - i) base;
      Some (MkHeaderField (Name e) v sensitive)
  | LLiteral sensitive n v => Some (MkHeaderField n v sensitive)
  end.

(** The base of a block. *)
Definition block_base (largest : Z) (sign : bool) (delta : Z) : Z :=
  if sign then largest - delta else largest + delta.

(** A whole block, on the raw largest reference, the sign and the delta of its
    prefix and its lines. *)
Definition block_value (t : qpackTableCommon) (id raw : Z) (sign : bool) (delta : Z) (ls : list line)
  : outcome (list HeaderField * list ackEvent) :=
  match decodeLargestBase t raw with
  | Ok largest =>
      if tbase t <? largest then Err ErrWouldBlock else
      if sign && (delta =? 0) then Err ErrInvalidDelta else
      match mapM (line_value t (block_base largest sign delta)) ls with
      | Some hs => Ok (hs, if 0 <? largest then [EvAcknowledged id largest] else [])
      | None => Err ErrIndexError
      end
  | Err e => Err e
  | Panic => Panic
  | NoFuel => NoFuel
  end.

Definition block_bits (pref : HuffmanCodingChoice) (raw : Z) (sign : bool) (delta : Z) (ls : list line)
  : list bool :=
  int_bits 8 raw ++ sign :: int_bits 7 delta ++ mjoin (line_bits pref <$> ls).

(** *** Whole bytes *)

Lemma zlen_update_bits pref u : ∃ k, zlen (update_bits pref u) = 8 * k.
Proof.
  destruct u as [s i v|n v|c|i]; cbn [update_bits]; zlen_simpl.
  - destruct (zlen_int_bits 6 i ltac:(done)) as [k1 ->], (zlen_string_bits v 7 pref ltac:(done)) as [k2 ->].
    exists (2 + k1 + k2). lia.
  - destruct (zlen_string_bits n 5 pref ltac:(done)) as [k1 ->], (zlen_string_bits v 7 pref ltac:(done)) as [k2 ->].
    exists (2 + k1 + k2). lia.
  - destruct (zlen_int_bits 5 c ltac:(done)) as [k ->]. exists (1 + k). lia.
  - destruct (zlen_int_bits 5 i ltac:(done)) as [k ->]. exists (1 + k). lia.
Qed.

Lemma zlen_line_bits pref l : ∃ k, zlen (line_bits pref l) = 8 * k.
Proof.
  destruct l as [s i|i|se s i v|se i v|se n v]; cbn [line_bits]; zlen_simpl.
  - destruct (zlen_int_bits 6 i ltac:(done)) as [k ->]. exists (1 + k). lia.
  - destruct (zlen_int_bits 4 i ltac:(done)) as [k ->]. exists (1 + k). lia.
  - destruct (zlen_int_bits 4 i ltac:(done)) as [k1 ->], (zlen_string_bits v 7 pref ltac:(done)) as [k2 ->].
    exists (2 + k1 + k2). lia.
  - destruct (zlen_int_bits 3 i ltac:(done)) as [k1 ->], (zlen_string_bits v 7 pref ltac:(done)) as [k2 ->].
    exists (2 + k1 + k2). lia.
  - destruct (zlen_string_bits n 3 pref ltac:(done)) as [k1 ->], (zlen_string_bits v 7 pref ltac:(done)) as [k2 ->].
    exists (2 + k1 + k2). lia.
Qed.

Lemma zlen_mjoin {A} (f : A → list bool) (l : list A) : (∀ a, ∃ k, zlen (f a) = 8 * k) →
  ∃ k, zlen (mjoin (f <$> l)) = 8 * k.
Proof.
  intros Hf. induction l as [|a l [k IH]]; [by exists 0|].
  change (mjoin (f <$> a :: l)) with (f a ++ mjoin (f <$> l)). rewrite zlen_app, IH. destruct (Hf a) as [k' ->]. exists (k' + k). lia.
Qed.

Lemma zlen_block_bits pref raw sign delta ls : ∃ k, zlen (block_bits pref raw sign delta ls) = 8 * k.
Proof.
  unfold block_bits. zlen_simpl. destruct (zlen_mjoin _ ls (zlen_line_bits pref)) as [k1 ->].
  destruct (zlen_int_bits 8 raw ltac:(done)) as [k2 ->], (zlen_int_bits 7 delta ltac:(done)) as [k3 ->].
  exists (2 + k1 + k2 + k3). lia.
Qed.

(** ** Lemmas on the abstract decoder *)

Lemma insert_apply_wf t n v t' evs : table_wf t → tbase t < intMax →
  insert_apply t n v = Ok (t', evs) →
  table_wf t' ∧ tbase t ≤ tbase t' ≤ tbase t + 1 ∧ capacity t' = capacity t.
Proof.
  intros Hwf Hb. unfold insert_apply. destruct (_ <? _) eqn:Hs; [done|]. intros [= <- <-].
  split; [by apply inserted_wf|]. unfold inserted. rewrite Hs. cbn. lia.
Qed.

Lemma update_apply_wf pref t u t' evs : table_wf t → tbase t < intMax → update_ok pref u →
  update_apply t u = Ok (t', evs) → table_wf t' ∧ tbase t ≤ tbase t' ≤ tbase t + 1.
Proof.
  intros Hwf Hb Hok. destruct u as [s i v|n v|c|i]; cbn.
  - destruct (entry_at _ _ _ _); [|done]. intros (? & ? & _)%insert_apply_wf; done.
  - intros (? & ? & _)%insert_apply_wf; done.
  - intros [= <- _]. split; [by apply resized_wf|cbn; lia].
  - destruct (GetDynamic _ _ _); [|done]. intros (? & ? & _)%insert_apply_wf; done.
Qed.

Lemma GetDynamic_elem (t : qpackTableCommon) i base e : GetDynamic t i base = Some e → e ∈ dynamic t.
Proof.
  unfold GetDynamic. destruct (_ <? _); [done|]. destruct (_ || _); [done|].
  by apply list_elem_of_lookup_2.
Qed.

(** An entry of the table fits the table. *)
Lemma elem_fits (t : qpackTableCommon) e : table_wf t → e ∈ dynamic t → Size e ≤ capacity t.
Proof.
  intros [_ _ Hfits _ _] (l1 & l2 & Heq)%list_elem_of_split. rewrite Heq, total_app in Hfits. cbn in Hfits.
  pose proof (total_nonneg l1). pose proof (total_nonneg l2). lia.
Qed.

Lemma updates_apply_app t us1 us2 t1 evs1 : updates_apply t us1 = Ok (t1, evs1) →
  updates_apply t (us1 ++ us2) =
    match updates_apply t1 us2 with
    | Ok (t2, evs2) => Ok (t2, evs1 ++ evs2)
    | o => o
    end.
Proof.
  revert t evs1. induction us1 as [|u us1 IH]; intros t evs1 Ha; cbn in *.
  { injection Ha as -> <-. by destruct (updates_apply t1 us2) as [[??]| | |]. }
  destruct (update_apply t u) as [[t0 evs0]| | |]; [|done..].
  destruct (updates_apply t0 us1) as [[t2 evs2]| | |] eqn:Hr; [|done..]. injection Ha as -> <-.
  rewrite (IH t0 evs2 Hr). destruct (updates_apply t1 us2) as [[??]| | |]; [|done..].
  by rewrite (assoc_L (++)).
Qed.

(** The messages about insertions, each with a base below [b]. *)
Definition available (b : Z) (ev : ackEvent) : Prop := ∃ entry, ev = EvAvailable entry ∧ 0 ≤ entry ≤ b.

Lemma update_apply_available t u t' evs : update_apply t u = Ok (t', evs) → 0 ≤ tbase t →
  tbase t ≤ tbase t' ≤ tbase t + 1 ∧ Forall (available (tbase t')) evs.
Proof.
  assert (∀ n v, insert_apply t n v = Ok (t', evs) → 0 ≤ tbase t →
    tbase t ≤ tbase t' ≤ tbase t + 1 ∧ Forall (available (tbase t')) evs) as Hins.
  { intros n v. unfold insert_apply. destruct (Z.ltb_spec (capacity t) (Size (new_entry n v))); [done|].
    intros [= <- <-] Ht. unfold inserted. rewrite (proj2 (Z.ltb_ge _ _)) by lia. cbn [tbase].
    split; [lia|]. apply Forall_singleton. eexists. split; [done|]. lia. }
  destruct u as [static i v|n v|c|i]; cbn [update_apply]; [|by apply Hins| |].
  - destruct (entry_at _ _ _ _); [by apply Hins|done].
  - intros [= <- <-] ?. by split; [cbn; lia|].
  - destruct (GetDynamic _ _ _); [by apply Hins|done].
Qed.

Lemma updates_apply_available us t t' evs : updates_apply t us = Ok (t', evs) → 0 ≤ tbase t →
  tbase t ≤ tbase t' ∧ Forall (available (tbase t')) evs.
Proof.
  revert t evs. induction us as [|u us IH]; intros t evs; cbn [updates_apply]; [intros [= <- <-] ?; by split|].
  destruct (update_apply t u) as [[t1 evs1]| | |] eqn:Hu; [|done..].
  destruct (updates_apply t1 us) as [[t2 evs2]| | |] eqn:Hus; [|done..]. intros [= <- <-] Hb.
  destruct (update_apply_available _ _ _ _ Hu Hb) as [Hb1 He1].
  destruct (IH _ _ Hus) as [Hb2 He2]; [lia..|]. split; [lia|]. apply Forall_app. split; [|done].
  eapply Forall_impl; [exact He1|]. intros ev (entry & -> & ?). exists entry. split; [done|lia].
Qed.

(** ** The decoder implements it *)

#[local] Opaque ReadIndex ReadInt ReadString ReadBit.

Section decoder_spec.
Context {R : Type} `{IoReaderSpec R} (pref : HuffmanCodingChoice).

Implicit Types (x : qpackTableCommon * list ackEvent).

(** The decoder's state beside the reader: the table and the messages sent. *)
Definition qdec (x : qpackTableCommon * list ackEvent) (br : bitReader R) : decoding R :=
  Decoding x.1 br x.2.

#[local] Abbreviation qreads := (sreads qdec).
#[local] Abbreviation qfails := (sfails qdec).
Lemma qreads_on {A} (m : go (bitReader R) A) a bits x : reads m a bits → qreads (on_reader m) x bits a x.
Proof. by apply sreads_zoom. Qed.

Lemma getTable_bind {B} (k : qpackTableCommon → go (decoding R) B) x br :
  (getTable ≫= k) (qdec x br) = k x.1 (qdec x br).
Proof. done. Qed.

Lemma qreads_table {B} (k : qpackTableCommon → go (decoding R) B) x bits b x' :
  qreads (k x.1) x bits b x' → qreads (getTable ≫= k) x bits b x'.
Proof. intros Hk br l Hwf Hl. by apply (Hk br). Qed.

Lemma qfails_table {B} (k : qpackTableCommon → go (decoding R) B) x bits e :
  qfails (k x.1) x bits e → qfails (getTable ≫= k) x bits e.
Proof. intros Hk br l Hwf Hl. by apply (Hk br l). Qed.

Lemma qfails_fail {A} e x bits : qfails (fail e : go (decoding R) A) x bits e.
Proof. by apply sfails_step. Qed.

Lemma qreads_string v prefix x : 1 ≤ prefix ≤ 7 → string_ok pref v →
  qreads (on_reader (ReadString prefix)) x (string_bits v prefix pref) v x.
Proof.
  intros Hp Hv. apply qreads_on. pose proof (string_ok_sizes _ _ Hv) as [? ?]. destruct Hv as [_ Hne].
  apply ReadString_reads; [lia|lia|lia|done].
Qed.

(** What [m] does to the table is what [o] says. *)
Definition implements (m : go (decoding R) unit) (x : qpackTableCommon * list ackEvent)
    (bits : list bool) (o : outcome (qpackTableCommon * list ackEvent)) : Prop :=
  match o with
  | Ok (t', evs) => qreads m x bits tt (t', x.2 ++ evs)
  | Err e => qfails m x bits e
  | _ => False
  end.

Lemma implements_bind {A} (m : go (decoding R) A) k x l1 a l2 o :
  qreads m x l1 a x → implements (k a) x l2 o → implements (m ≫= k) x (l1 ++ l2) o.
Proof.
  intros Hm. destruct o as [[t' evs]|e| |]; cbn; [|intros|done..].
  - by apply sreads_bind.
  - by eapply sfails_bind.
Qed.

Lemma implements_bind_r {A} (m : go (decoding R) A) k x l a o :
  qreads m x l a x → implements (k a) x [] o → implements (m ≫= k) x l o.
Proof. intros. rewrite <- (app_nil_r l). by eapply implements_bind. Qed.

Lemma implements_table k x l o : implements (k x.1) x l o → implements (getTable ≫= k) x l o.
Proof. destruct o as [[t' evs]|e| |]; [apply qreads_table|apply qfails_table|done..]. Qed.

Lemma insertAndSend_implements n v (x : qpackTableCommon * list ackEvent) : table_wf x.1 → tbase x.1 < intMax →
  Size (new_entry n v) ≤ capacity x.1 →
  implements (insertAndSend n v) x [] (insert_apply x.1 n v).
Proof.
  intros Hwf Hb Hs. destruct x as [t sent]. unfold implements, insert_apply. cbn [fst] in *.
  rewrite (proj2 (Z.ltb_ge _ _)) by lia. apply qreads_table. cbn [fst snd].
  unfold DecoderTable_Insert. change (MkBasicDynamicEntry n v 0) with (new_entry n v).
  rewrite insert_inserted by done. rewrite (proj2 (Z.ltb_ge _ _) Hs). by apply sreads_step.
Qed.

Lemma readValueAndInsert_implements n v (x : qpackTableCommon * list ackEvent) : table_wf x.1 → tbase x.1 < intMax → string_ok pref v →
  implements (readValueAndInsert n) x (string_bits v 7 pref) (insert_apply x.1 n v).
Proof.
  intros Hwf Hb Hv. eapply implements_bind_r; [by apply qreads_string|]. apply implements_table.
  change (u64 (32 + u64 (slen n + slen v))) with (Size (new_entry n v)).
  destruct (Z.ltb_spec (capacity x.1) (Size (new_entry n v))) as [Hlt|Hge].
  - unfold insert_apply. rewrite (proj2 (Z.ltb_lt _ _)) by lia. apply qfails_fail.
  - by apply insertAndSend_implements.
Qed.

Lemma b2z_eq1 b : (Z.b2z b =? 1) = b.
Proof. by destruct b. Qed.
Lemma b2z_neq0 b : negb (Z.b2z b =? 0) = b.
Proof. by destruct b. Qed.

(** One instruction after its first bit. *)
Lemma readUpdate_implements (x : qpackTableCommon * list ackEvent) u : table_wf x.1 → tbase x.1 < intMax → update_ok pref u →
  ∃ b bits, update_bits pref u = b :: bits ∧
    implements (readUpdate (tbase x.1) (Z.b2z b)) x bits (update_apply x.1 u).
Proof.
  intros Hwf Hb Hok. destruct u as [s i v|n v|c|i]; cbn [update_bits update_apply];
    eexists _, _; (split; [done|]); unfold readUpdate; cbn [Z.b2z Z.eqb].
  - destruct Hok as [Hi Hv]. change (s :: ?x) with ([s] ++ x).
    eapply implements_bind; [apply qreads_on, (ReadBit_reads s)|].
    eapply implements_bind; [by apply qreads_on, ReadIndex_reads|]. apply implements_table.
    rewrite b2z_neq0. fold (entry_at x.1 s i (tbase x.1)).
    destruct (entry_at _ _ _ _) as [e|]; cbn [from_option].
    + rewrite <- (app_nil_l (string_bits _ _ _)).
      eapply implements_bind; [apply sreads_ret|]. by apply readValueAndInsert_implements.
    + apply sfails_bind_l, qfails_fail.
  - destruct Hok as [Hn Hv]. change (true :: ?x) with ([true] ++ x).
    eapply implements_bind; [apply qreads_on, (ReadBit_reads true)|].
    eapply implements_bind; [by apply qreads_string|]. by apply readValueAndInsert_implements.
  - change (false :: true :: ?x) with ([false] ++ [true] ++ x).
    eapply implements_bind; [apply qreads_on, (ReadBit_reads false)|].
    eapply implements_bind; [apply qreads_on, (ReadBit_reads true)|].
    eapply implements_bind_r; [by apply qreads_on, ReadInt_reads|]. apply implements_table.
    rewrite SetCapacity_resized by done. destruct x as [t sent]. cbn. rewrite app_nil_r.
    by apply sreads_step.
  - change (false :: false :: ?x) with ([false] ++ [false] ++ x).
    eapply implements_bind; [apply qreads_on, (ReadBit_reads false)|].
    eapply implements_bind; [apply qreads_on, (ReadBit_reads false)|].
    eapply implements_bind_r; [by apply qreads_on, ReadIndex_reads|]. apply implements_table.
    destruct (GetDynamic x.1 i (tbase x.1)) as [e|] eqn:He; cbn [from_option].
    + rewrite <- (app_nil_l []). eapply implements_bind; [apply sreads_ret|].
      apply insertAndSend_implements; [done|done|].
      apply (elem_fits x.1 e Hwf (GetDynamic_elem _ _ _ _ He)).
    + apply sfails_bind_l, qfails_fail.
Qed.

Definition updates_bits (us : list update) : list bool := mjoin (update_bits pref <$> us).
Definition lines_bits (ls : list line) : list bool := mjoin (line_bits pref <$> ls).

Lemma updates_bits_app us1 us2 : updates_bits (us1 ++ us2) = updates_bits us1 ++ updates_bits us2.
Proof. unfold updates_bits. by rewrite fmap_app, join_app. Qed.

(** The end of the stream, where the loops stop. *)
Lemma catch_ReadBit_end {B} (k : Z + goerr → go (decoding R) B) x br :
  br_wf br → rbits br = [] →
  ∃ br', (catch (on_reader ReadBit) ≫= k) (qdec x br) = k (inr EOF) (qdec x br') ∧
    br_wf br' ∧ rbits br' = [].
Proof.
  intros Hbr Hl. destruct (ReadBit_spec br Hbr) as (br' & Hbr' & Hr). rewrite Hl in Hr.
  exists br'. rewrite bind_unfold. unfold catch, on_reader, zoom. cbn. rewrite (proj1 Hr).
  by destruct Hr as [_ Hr].
Qed.

Lemma catch_ReadBit_next {B} (k : Z + goerr → go (decoding R) B) x br b l :
  br_wf br → rbits br = b :: l →
  ∃ br', (catch (on_reader ReadBit) ≫= k) (qdec x br) = k (inl (Z.b2z b)) (qdec x br') ∧
    br_wf br' ∧ rbits br' = l.
Proof.
  intros Hbr Hl. destruct (qreads_on ReadBit (Z.b2z b) [b] x (ReadBit_reads b) br _ Hbr Hl)
    as (br' & Hr & ? & ?).
  exists br'. split; [|done]. rewrite bind_unfold. unfold catch. by rewrite Hr.
Qed.

(** A round of the loop of table updates, after its first bit. *)
Definition updateRound (fuel : nat) (base : Z) (r : Z + goerr) : go (decoding R) unit :=
  match r with
  | inr EOF => mret tt
  | inr err => fail err
  | inl b => readUpdate base b;; ReadTableUpdates fuel
  end.

Lemma ReadTableUpdates_round fuel x br :
  ReadTableUpdates (S fuel) (qdec x br) =
  (catch (on_reader ReadBit) ≫= updateRound fuel (tbase x.1)) (qdec x br).
Proof. done. Qed.

(** The loop applies the updates in turn. *)
Lemma ReadTableUpdates_implements us (x : qpackTableCommon * list ackEvent) fuel br : table_wf x.1 → tbase x.1 + zlen us < intMax →
  Forall (update_ok pref) us → br_wf br → rbits br = updates_bits us → (length us < fuel)%nat →
  match updates_apply x.1 us with
  | Ok (t', evs) => ∃ br', ReadTableUpdates fuel (qdec x br) = (Ok tt, qdec (t', x.2 ++ evs) br')
  | Err e => ∃ x' br', ReadTableUpdates fuel (qdec x br) = (Err e, qdec x' br')
  | _ => False
  end.
Proof.
  revert x fuel br. induction us as [|u us IH]; intros x fuel br Hwf Hb Hok Hbr Hl Hf;
    (destruct fuel as [|fuel]; [cbn in Hf; lia|]); rewrite ReadTableUpdates_round; cbn [updates_apply].
  - destruct (catch_ReadBit_end (updateRound fuel (tbase x.1)) x br Hbr Hl) as (br' & Hr & _).
    exists br'. destruct x as [t sent]. rewrite app_nil_r. exact Hr.
  - pose proof (zlen_nonneg us). zlen_simpl. inversion Hok as [|?? Hu Hus]; subst.
    destruct (readUpdate_implements x u Hwf) as (b & bits & Hbits & Him); [lia|done|].
    change (updates_bits (u :: us)) with (update_bits pref u ++ updates_bits us) in Hl.
    rewrite Hbits in Hl.
    destruct (catch_ReadBit_next (updateRound fuel (tbase x.1)) x br b _ Hbr Hl)
      as (br1 & -> & Hbr1 & Hl1). cbn [updateRound].
    destruct (update_apply x.1 u) as [[t1 evs1]|e| |] eqn:Hap; [|..|done|done]; cbn in Him.
    + destruct (Him br1 _ Hbr1 Hl1) as (br2 & Hr2 & Hbr2 & Hl2).
      destruct (update_apply_wf pref _ _ _ _ Hwf ltac:(lia) Hu Hap) as [Hwf1 Hb1].
      specialize (IH (t1, x.2 ++ evs1) fuel br2 Hwf1). cbn [fst snd] in IH.
      specialize (IH ltac:(lia) Hus Hbr2 Hl2 ltac:(cbn in Hf; lia)).
      destruct (updates_apply t1 us) as [[t2 evs2]|e| |]; [|..|done|done].
      * destruct IH as (br3 & Hr3). exists br3.
        rewrite (bind_Ok _ _ _ _ _ Hr2), Hr3. by rewrite (assoc_L (++)).
      * destruct IH as (x3 & br3 & Hr3). exists x3, br3. by rewrite (bind_Ok _ _ _ _ _ Hr2).
    + destruct (Him br1 _ Hbr1 Hl1) as (x2 & br2 & Hr2). exists x2, br2.
      by rewrite (bind_Err _ _ _ _ _ Hr2).
Qed.

(** ** Field lines *)

(** [m] reads what [o] says and leaves the table alone; no answer is an index
    error. *)
Definition answers {A} (m : go (decoding R) A) (x : qpackTableCommon * list ackEvent)
    (bits : list bool) (o : option A) : Prop :=
  match o with Some a => qreads m x bits a x | None => qfails m x bits ErrIndexError end.

Lemma answers_bind {A B} (m : go (decoding R) A) (k : A → go (decoding R) B) x l1 a l2 o :
  qreads m x l1 a x → answers (k a) x l2 o → answers (m ≫= k) x (l1 ++ l2) o.
Proof. intros Hm. destruct o; cbn; [by apply sreads_bind|by eapply sfails_bind]. Qed.

Lemma answers_bind_r {A B} (m : go (decoding R) A) (k : A → go (decoding R) B) x l a o :
  qreads m x l a x → answers (k a) x [] o → answers (m ≫= k) x l o.
Proof. intros. rewrite <- (app_nil_r l). by eapply answers_bind. Qed.

Lemma answers_table {B} (k : qpackTableCommon → go (decoding R) B) x l o :
  answers (k x.1) x l o → answers (getTable ≫= k) x l o.
Proof. destruct o; [apply qreads_table|apply qfails_table]. Qed.

Lemma answers_lookup {A B} (e : option A) (k : A → go (decoding R) B) x l (f : A → option B) :
  (∀ a, answers (k a) x l (f a)) → answers (from_option ErrIndexError e ≫= k) x l (e ≫= f).
Proof.
  intros Hk. destruct e as [a|]; cbn; [|by apply sfails_bind_l, qfails_fail].
  specialize (Hk a). destruct (f a); cbn in *.
  - eapply sreads_bind_l; [apply sreads_ret|done].
  - rewrite <- (app_nil_l l). eapply sfails_bind; [apply sreads_ret|done].
Qed.

Lemma answers_value v x (f : string → HeaderField) : string_ok pref v →
  answers (value ← on_reader (ReadString 7); mret (f value)) x (string_bits v 7 pref) (Some (f v)).
Proof. intros Hv. eapply answers_bind_r; [by apply qreads_string|apply sreads_ret]. Qed.

(** A name reference beyond the base is read as the one before it. *)
Lemma post_base_name_read x base v i w : index_ok i → string_ok pref w →
  answers (readField base (Z.b2z false)) x (false :: false :: false :: v :: int_bits 3 i ++ string_bits w 7 pref)
    (line_value x.1 base (LPostNameRef v (i - 1) w)).
Proof.
  intros Hi Hw. cbn [line_value]. unfold readField. cbn [Z.b2z Z.eqb].
  change (false :: false :: false :: v :: ?x) with ([false] ++ [false] ++ [false] ++ [v] ++ x).
  do 3 (eapply answers_bind; [apply qreads_on, (ReadBit_reads false)|]).
  eapply answers_bind; [apply qreads_on, (ReadBit_reads v)|].
  eapply answers_bind; [by apply qreads_on, ReadIndex_reads|]. apply answers_table.
  cbn in Hi. unfold index_ok, intMax in Hi. rewrite i64_small by lia.
  replace (-1 - (i - 1)) with (-1 * i) by lia. rewrite b2z_eq1. apply answers_lookup. intros e. by apply answers_value.
Qed.

(** One field line after its first bit. *)
Lemma readField_answers x base l : line_ok pref l →
  ∃ b bits, line_bits pref l = b :: bits ∧
    answers (readField base (Z.b2z b)) x bits (line_value x.1 base l).
Proof.
  intros Hok. destruct l as [s i|i|v s i w|v i w|v n w]; cbn [line_bits line_value];
    eexists _, _; (split; [done|]); unfold readField; cbn [Z.b2z Z.eqb].
  - change (s :: ?x) with ([s] ++ x).
    eapply answers_bind; [apply qreads_on, (ReadBit_reads s)|].
    eapply answers_bind_r; [by apply qreads_on, ReadIndex_reads|]. apply answers_table.
    rewrite b2z_eq1. apply answers_lookup. intros e. apply sreads_ret.
  - change (false :: false :: true :: ?x) with ([false] ++ [false] ++ [true] ++ x).
    do 2 (eapply answers_bind; [apply qreads_on, (ReadBit_reads false)|]).
    eapply answers_bind; [apply qreads_on, (ReadBit_reads true)|].
    eapply answers_bind_r; [by apply qreads_on, ReadIndex_reads|]. apply answers_table.
    cbn in Hok. unfold index_ok, intMax in Hok. rewrite i64_small by lia.
    apply answers_lookup. intros e. apply sreads_ret.
  - destruct Hok as [Hi Hw]. change (true :: v :: s :: ?x) with ([true] ++ [v] ++ [s] ++ x).
    eapply answers_bind; [apply qreads_on, (ReadBit_reads true)|].
    eapply answers_bind; [apply qreads_on, (ReadBit_reads v)|].
    eapply answers_bind; [apply qreads_on, (ReadBit_reads s)|].
    eapply answers_bind; [by apply qreads_on, ReadIndex_reads|]. apply answers_table.
    rewrite !b2z_eq1. apply answers_lookup. intros e. by apply answers_value.
  - destruct Hok.
  - destruct Hok as [Hn Hw]. change (false :: true :: v :: ?x) with ([false] ++ [true] ++ [v] ++ x).
    eapply answers_bind; [apply qreads_on, (ReadBit_reads false)|].
    eapply answers_bind; [apply qreads_on, (ReadBit_reads true)|].
    eapply answers_bind; [apply qreads_on, (ReadBit_reads v)|].
    eapply answers_bind; [by apply qreads_string|]. rewrite b2z_eq1. by apply answers_value.
Qed.

(** The loop reads the lines in turn. *)
Lemma readFields_answers ls base headers x fuel br : Forall (line_ok pref) ls →
  br_wf br → rbits br = lines_bits ls → (length ls < fuel)%nat →
  match mapM (line_value x.1 base) ls with
  | Some hs => ∃ br', readFields fuel base headers (qdec x br) = (Ok (headers ++ hs), qdec x br') ∧
      br_wf br' ∧ rbits br' = []
  | None => ∃ x' br', readFields fuel base headers (qdec x br) = (Err ErrIndexError, qdec x' br')
  end.
Proof.
  revert headers fuel br. induction ls as [|l ls IH]; intros headers fuel br Hok Hbr Hl Hf;
    (destruct fuel as [|fuel]; [cbn in Hf; lia|]); cbn [readFields mapM].
  - edestruct (catch_ReadBit_end (B := list HeaderField)) as (br' & Hr & Hend); [done|done|].
    exists br'. rewrite Hr, app_nil_r. done.
  - inversion Hok as [|?? Hlk Hls]; subst.
    destruct (readField_answers x base l Hlk) as (b & bits & Hbits & Him).
    change (lines_bits (l :: ls)) with (line_bits pref l ++ lines_bits ls) in Hl. rewrite Hbits in Hl.
    edestruct (catch_ReadBit_next (B := list HeaderField)) as (br1 & -> & Hbr1 & Hl1); [done|done|].
    unfold mbind at 1, option_bind. destruct (line_value x.1 base l) as [h|]; cbn [answers] in Him.
    + destruct (Him br1 _ Hbr1 Hl1) as (br2 & Hr2 & Hbr2 & Hl2).
      specialize (IH (headers ++ [h]) fuel br2 Hls Hbr2 Hl2 ltac:(cbn in Hf; lia)). cbn.
      destruct (mapM (line_value x.1 base) ls) as [hs|]; cbn.
      * destruct IH as (br3 & Hr3 & Hend). exists br3. rewrite (bind_Ok _ _ _ _ _ Hr2), Hr3.
        by rewrite <- (assoc_L (++)).
      * destruct IH as (x3 & br3 & Hr3). exists x3, br3. by rewrite (bind_Ok _ _ _ _ _ Hr2).
    + destruct (Him br1 _ Hbr1 Hl1) as (x2 & br2 & Hr2). exists x2, br2.
      by rewrite (bind_Err _ _ _ _ _ Hr2).
Qed.

(** ** Header blocks *)

Lemma readLargestBase_spec x raw br l : is_u64 raw → br_wf br → rbits br = int_bits 8 raw ++ l →
  ∃ br', readLargestBase (qdec x br) = (decodeLargestBase x.1 raw, qdec x br') ∧
    br_wf br' ∧ rbits br' = l.
Proof.
  intros Hraw Hbr Hl. destruct (qreads_on (ReadInt 8) raw (int_bits 8 raw) x) with br l
    as (br' & Hr & Hbr' & Hl'); [by apply ReadInt_reads|done|done|].
  exists br'. unfold readLargestBase. by rewrite (bind_Ok _ _ _ _ _ Hr).
Qed.

Lemma readBase_reads x largest sign delta : 0 ≤ delta < 2 ^ 62 → - 2 ^ 61 ≤ largest < 2 ^ 61 →
  if sign && (delta =? 0) then qfails (readBase largest) x (sign :: int_bits 7 delta) ErrInvalidDelta
  else qreads (readBase largest) x (sign :: int_bits 7 delta) (block_base largest sign delta) x.
Proof.
  intros Hd Hlr. change (sign :: ?x) with ([sign] ++ x). unfold readBase.
  assert (index_ok delta) as Hi by (unfold index_ok, intMax; lia).
  destruct (sign && (delta =? 0)) eqn:Hs.
  - eapply sfails_bind; [apply qreads_on, (ReadBit_reads sign)|].
    eapply sfails_bind_r; [by apply qreads_on, ReadIndex_reads|].
    rewrite b2z_eq1, Hs. apply qfails_fail.
  - eapply sreads_bind; [apply qreads_on, (ReadBit_reads sign)|].
    eapply sreads_bind_r; [by apply qreads_on, ReadIndex_reads|].
    rewrite b2z_eq1, Hs. unfold block_base.
    rewrite (i64_small (delta * _)), i64_small by (destruct sign; cbn [Z.b2z]; lia).
    replace (largest + _) with (if sign then largest - delta else largest + delta)
      by (destruct sign; cbn [Z.b2z]; lia). apply sreads_ret.
Qed.

Lemma ReadHeaderBlock_answers x id raw sign delta ls fuel br :
  is_u64 raw → 0 ≤ delta < 2 ^ 62 → 0 ≤ tbase x.1 < 2 ^ 61 →
  (∀ largest, decodeLargestBase x.1 raw = Ok largest → - 2 ^ 61 ≤ largest) →
  Forall (line_ok pref) ls → br_wf br → rbits br = block_bits pref raw sign delta ls →
  (length ls < fuel)%nat →
  ∃ x' br', match block_value x.1 id raw sign delta ls with
  | Ok (hs, evs) => ReadHeaderBlock fuel id (qdec x br) = (Ok hs, qdec x' br') ∧ x' = (x.1, x.2 ++ evs) ∧
      br_wf br' ∧ rbits br' = []
  | Err e => ReadHeaderBlock fuel id (qdec x br) = (Err e, qdec x' br')
  | Panic => ReadHeaderBlock fuel id (qdec x br) = (Panic, qdec x' br')
  | NoFuel => False
  end.
Proof.
  intros Hraw Hd Hb Hlow Hok Hbr Hl Hf. unfold ReadHeaderBlock, block_value.
  destruct (readLargestBase_spec x raw br _ Hraw Hbr Hl) as (br1 & Hr1 & Hbr1 & Hl1).
  rewrite bind_unfold, Hr1.
  destruct (decodeLargestBase x.1 raw) as [lb|e| |] eqn:Hdec.
  2: by exists x, br1. 2: by exists x, br1.
  2: { unfold decodeLargestBase in Hdec. by repeat case_match. }
  specialize (Hlow lb eq_refl).
  rewrite getTable_bind. unfold entryAvailable. destruct (Z.ltb_spec (tbase x.1) lb) as [Hlt|Hge].
  { rewrite (proj2 (Z.leb_gt _ _)) by lia. by exists x, br1. }
  rewrite (proj2 (Z.leb_le _ _)) by lia. unfold readBlock.
  pose proof (readBase_reads x lb sign delta Hd ltac:(lia)) as Hbase.
  destruct (sign && (delta =? 0)).
  { destruct (Hbase br1 _ Hbr1 Hl1) as (x2 & br2 & Hr2). exists x2, br2.
    by rewrite (bind_Err _ _ _ _ _ Hr2). }
  destruct (Hbase br1 _ Hbr1 Hl1) as (br2 & Hr2 & Hbr2 & Hl2).
  rewrite (bind_Ok _ _ _ _ _ Hr2).
  pose proof (readFields_answers ls (block_base lb sign delta) [] x fuel br2 Hok Hbr2 Hl2 Hf) as Hrun.
  destruct (mapM _ ls) as [hs|].
  - destruct Hrun as (br3 & Hr3 & Hend). rewrite (bind_Ok _ _ _ _ _ Hr3). cbn [app].
    exists (x.1, x.2 ++ if 0 <? lb then [EvAcknowledged id lb] else []), br3. split; [|done].
    destruct (0 <? lb); [done|]. destruct x. by rewrite app_nil_r.
  - destruct Hrun as (x3 & br3 & Hr3). exists x3, br3. by rewrite (bind_Err _ _ _ _ _ Hr3).
Qed.

(** ** The decoder on any input *)

Section any.
Variables (I : qpackTableCommon * list ackEvent → Prop) (inserts : qpackTableCommon * list ackEvent → Z).
#[local] Abbreviation asafe := (ssafe qdec I inserts).

Lemma qsafe_on {A} (m : go (bitReader R) A) : runs m → asafe 0 (on_reader m).
Proof. by apply ssafe_zoom. Qed.

Lemma qsafe_table {B} n (k : qpackTableCommon → go (decoding R) B) :
  (∀ t, asafe n (k t)) → asafe n (getTable ≫= k).
Proof. intros Hk x br Hx Hbr Hb. by apply (Hk x.1 x br). Qed.

Lemma qsafe_from_option {A} e (o : option A) : e ≠ ErrWouldBlock → asafe 0 (from_option e o : go (decoding R) A).
Proof. intros He. destruct o; [apply ssafe_ret|by apply ssafe_fail]. Qed.

Lemma qsafe_value {A} (f : string → A) : asafe 0 (value ← on_reader (ReadString 7); mret (f value)).
Proof. apply ssafe_bind_0; [done|by apply qsafe_on, ReadString_runs|]. intros v. apply ssafe_ret. Qed.

Lemma readLine_safe base b : asafe 0 (readField base b).
Proof.
  unfold readField. destruct (b =? 1).
  { apply ssafe_bind_0; [done|apply qsafe_on, ReadBit_runs|]. intros st.
    apply ssafe_bind_0; [done|by apply qsafe_on, ReadIndex_runs|]. intros i. apply qsafe_table. intros t.
    apply ssafe_bind_0; [done|by apply qsafe_from_option|]. intros e. apply ssafe_ret. }
  apply ssafe_bind_0; [done|apply qsafe_on, ReadBit_runs|]. intros b1. destruct (b1 =? 1).
  { apply ssafe_bind_0; [done|apply qsafe_on, ReadBit_runs|]. intros ni.
    apply ssafe_bind_0; [done|apply qsafe_on, ReadBit_runs|]. intros st.
    apply ssafe_bind_0; [done|by apply qsafe_on, ReadIndex_runs|]. intros i. apply qsafe_table. intros t.
    apply ssafe_bind_0; [done|by apply qsafe_from_option|]. intros e. apply qsafe_value. }
  apply ssafe_bind_0; [done|apply qsafe_on, ReadBit_runs|]. intros b2. destruct (b2 =? 1).
  { apply ssafe_bind_0; [done|apply qsafe_on, ReadBit_runs|]. intros ni.
    apply ssafe_bind_0; [done|by apply qsafe_on, ReadString_runs|]. intros n. apply qsafe_value. }
  apply ssafe_bind_0; [done|apply qsafe_on, ReadBit_runs|]. intros b3. destruct (b3 =? 1).
  { apply ssafe_bind_0; [done|by apply qsafe_on, ReadIndex_runs|]. intros i. apply qsafe_table. intros t.
    apply ssafe_bind_0; [done|by apply qsafe_from_option|]. intros e. apply ssafe_ret. }
  apply ssafe_bind_0; [done|apply qsafe_on, ReadBit_runs|]. intros ni.
  apply ssafe_bind_0; [done|by apply qsafe_on, ReadIndex_runs|]. intros i. apply qsafe_table. intros t.
  apply ssafe_bind_0; [done|by apply qsafe_from_option|]. intros e. apply qsafe_value.
Qed.

(** Every loop that takes a bit a round ends within fuel for the stream. *)
Lemma readFields_safe fuel base headers : ∀ x br, I x → br_wf br → inserts x ≤ intMax →
  zlen (rbits br) < Z.of_nat fuel →
  ∃ o x' br', readFields fuel base headers (qdec x br) = (o, qdec x' br') ∧ returns o ∧ I x'.
Proof.
  revert headers. induction fuel as [|fuel IH]; intros headers x br Hx Hbr Hb Hl;
    pose proof (zlen_nonneg (rbits br)); [lia|]. cbn [readFields].
  destruct (rbits br) as [|b l] eqn:Hbits.
  { edestruct (catch_ReadBit_end (B := list HeaderField)) as (br1 & -> & _); [done|done|].
    by exists (Ok headers), x, br1. }
  edestruct (catch_ReadBit_next (B := list HeaderField)) as (br1 & -> & Hbr1 & Hl1); [done|done|].
  zlen_simpl. rewrite bind_unfold.
  destruct (readLine_safe base (Z.b2z b) x br1 Hx Hbr1)
    as (o & x2 & br2 & -> & Ho & Hx2 & Hb2 & Hbr2 & Hl2); [lia|].
  destruct o as [h|e| |]; [|by eexists _, x2, br2; split_and!..|done].
  apply IH; [done|done|lia|]. rewrite Hl1 in Hl2. lia.
Qed.

Lemma readBase_safe largest : asafe 0 (readBase largest).
Proof.
  apply ssafe_bind_0; [done|apply qsafe_on, ReadBit_runs|]. intros sign.
  apply ssafe_bind_0; [done|by apply qsafe_on, ReadIndex_runs|]. intros delta.
  destruct (_ && _); [by apply ssafe_fail|apply ssafe_ret].
Qed.

Lemma readLargestBase_safe : asafe 0 readLargestBase.
Proof.
  apply ssafe_bind_0; [done|by apply qsafe_on, ReadInt_runs|]. intros raw. apply qsafe_table. intros t.
  apply (ssafe_out _ _ _ _ (decodeLargestBase t raw)); [|done].
  unfold decodeLargestBase. by repeat case_match.
Qed.
End any.

#[local] Abbreviation qsafe := (ssafe qdec (λ x, table_wf x.1) (λ x, tbase x.1)).

Lemma qsafe_send ev : qsafe 0 (send ev).
Proof.
  apply (ssafe_step _ _ _ 0 _ (λ x, (x.1, x.2 ++ [ev])) (λ _, Ok tt)); [done..|].
  cbn. intros x Hx _. split; [done|lia].
Qed.

Lemma qsafe_insert n v : qsafe 1 (insertAndSend n v).
Proof.
  intros x br Hx Hbr Hb. unfold insertAndSend. rewrite getTable_bind. unfold DecoderTable_Insert.
  change (MkBasicDynamicEntry n v 0) with (new_entry n v). rewrite insert_inserted by (done || lia).
  pose proof (inserted_wf x.1 (new_entry n v) Hx ltac:(lia)) as Hwf.
  assert (tbase (inserted x.1 (new_entry n v)) ≤ tbase x.1 + 1)
    by (unfold inserted; destruct (_ <? _); cbn; lia).
  destruct (_ <? _); cbn;
    [exists Panic, (inserted x.1 (new_entry n v), x.2), br
    |exists (Ok tt), (inserted x.1 (new_entry n v), x.2 ++ [EvAvailable (tbase x.1 + 1)]), br];
    by split_and!.
Qed.

Lemma qsafe_valueAndInsert n : qsafe 1 (readValueAndInsert n).
Proof.
  apply ssafe_bind_0; [done|by apply qsafe_on, ReadString_runs|]. intros v. apply qsafe_table.
  intros t. destruct (_ <? _); [apply ssafe_weaken; [done|by apply ssafe_fail]|apply qsafe_insert].
Qed.

Lemma qsafe_dynamicUpdate : qsafe 0 readDynamicUpdate.
Proof.
  intros x br Hx Hbr Hb. destruct (ReadInt_runs 5 ltac:(done) br Hbr) as (o & br1 & Hr & Ho & Hbr1 & bits & Hbits).
  unfold readDynamicUpdate. rewrite bind_unfold. unfold on_reader, zoom. cbn [qdec qd_reader].
  rewrite Hr. pose proof (zlen_nonneg bits).
  assert (zlen (rbits br1) ≤ zlen (rbits br)) by (rewrite Hbits; zlen_simpl; lia).
  destruct o as [c|e| |]; [|by eexists _, x, br1; split_and!; (done || lia)..|done].
  exists (Ok tt), (resized x.1 c, x.2), br1.
  change (Decoding _ br1 _) with (qdec x br1).
  rewrite getTable_bind, SetCapacity_resized by done.
  split_and!; [done|done| |cbn; lia|done|done].
  apply resized_wf; [done|]. by apply (ReadInt_range 5 br c br1).
Qed.

Lemma readUpdate_safe base b : qsafe 1 (readUpdate base b).
Proof.
  unfold readUpdate. destruct (b =? 1).
  { apply ssafe_bind_0; [done|apply qsafe_on, ReadBit_runs|]. intros st.
    apply ssafe_bind_0; [done|by apply qsafe_on, ReadIndex_runs|]. intros i. apply qsafe_table. intros t.
    apply ssafe_bind_0; [done|by apply qsafe_from_option|]. intros e. apply qsafe_valueAndInsert. }
  apply ssafe_bind_0; [done|apply qsafe_on, ReadBit_runs|]. intros b1. destruct (b1 =? 1).
  { apply ssafe_bind_0; [done|by apply qsafe_on, ReadString_runs|]. intros n. apply qsafe_valueAndInsert. }
  apply ssafe_bind_0; [done|apply qsafe_on, ReadBit_runs|]. intros b2. destruct (b2 =? 1).
  { apply ssafe_weaken; [done|apply qsafe_dynamicUpdate]. }
  apply ssafe_bind_0; [done|by apply qsafe_on, ReadIndex_runs|]. intros i. apply qsafe_table. intros t.
  apply ssafe_bind_0; [done|by apply qsafe_from_option|]. intros e. apply qsafe_insert.
Qed.

Lemma ReadTableUpdates_safe fuel x br : table_wf x.1 → br_wf br →
  zlen (rbits br) < Z.of_nat fuel → tbase x.1 + Z.of_nat fuel ≤ intMax →
  ∃ o x' br', ReadTableUpdates fuel (qdec x br) = (o, qdec x' br') ∧ returns o ∧ table_wf x'.1.
Proof.
  revert x br. induction fuel as [|fuel IH]; intros x br Hx Hbr Hl Hb;
    pose proof (zlen_nonneg (rbits br)); [lia|]. rewrite ReadTableUpdates_round.
  destruct (rbits br) as [|b l] eqn:Hbits.
  { edestruct (catch_ReadBit_end (B := unit)) as (br1 & -> & _); [done|done|].
    by exists (Ok tt), x, br1. }
  edestruct (catch_ReadBit_next (B := unit)) as (br1 & -> & Hbr1 & Hl1); [done|done|].
  zlen_simpl. cbn [updateRound]. rewrite bind_unfold.
  destruct (readUpdate_safe (tbase x.1) (Z.b2z b) x br1 Hx Hbr1)
    as (o & x2 & br2 & -> & Ho & Hx2 & Hb2 & Hbr2 & Hl2); [cbn; lia|]. cbn in Hb2.
  destruct o as [h|e| |]; [|by eexists _, x2, br2; split_and!..|done].
  apply IH; [done|done| |lia]. rewrite Hl1 in Hl2. lia.
Qed.

(** The part of [ReadHeaderBlock] after the wait comes back. It leaves the table as
    it is and sends nothing unless it succeeds. *)
Lemma readBlock_safe fuel id largest x br : br_wf br → zlen (rbits br) < Z.of_nat fuel →
  ∃ o x' br', readBlock fuel id largest (qdec x br) = (o, qdec x' br') ∧ returns o ∧ x'.1 = x.1 ∧
    ((∀ hs, o ≠ Ok hs) → x' = x).
Proof.
  intros Hbr Hl. set (I := λ y : qpackTableCommon * list ackEvent, y = x).
  unfold readBlock. rewrite bind_unfold.
  destruct (readBase_safe I (λ _, 0) largest x br eq_refl Hbr ltac:(unfold intMax; lia))
    as (o & x2 & br2 & -> & Ho2 & -> & _ & Hbr2 & Hl2).
  destruct o as [base|e| |]; [|by eexists _, x, br2; split_and!..|done].
  rewrite bind_unfold.
  destruct (readFields_safe I (λ _, 0) fuel base [] x br2 eq_refl Hbr2)
    as (o & x3 & br3 & -> & Ho3 & ->); [unfold intMax; lia|lia|].
  destruct o as [hs|e| |]; [|by eexists _, x, br3; split_and!..|done].
  exists (Ok hs), (x.1, x.2 ++ if 0 <? largest then [EvAcknowledged id largest] else []), br3.
  split; [|split_and!; [done|done|intros Hno; by destruct (Hno hs)]].
  destruct (0 <? largest); [done|]. destruct x. by rewrite app_nil_r.
Qed.

(** The largest reference of a block, when the table has not got that far. *)
Definition awaited (t : qpackTableCommon) (br : bitReader R) : option Z :=
  match (ReadInt 8 br).1 with
  | Ok raw =>
      match decodeLargestBase t raw with
      | Ok largest => if tbase t <? largest then Some largest else None
      | _ => None
      end
  | _ => None
  end.

(** Reading a block comes back, unless it waits in [WaitForEntry]. *)
Lemma ReadHeaderBlock_ends fuel id x br : br_wf br → zlen (rbits br) < Z.of_nat fuel →
  match awaited x.1 br with
  | None => ∃ o x' br', ReadHeaderBlock fuel id (qdec x br) = (o, qdec x' br') ∧ returns o ∧ x'.1 = x.1 ∧
      ((∀ hs, o ≠ Ok hs) → x' = x)
  | Some largest => tbase x.1 < largest ∧ ∃ br1, br_wf br1 ∧ zlen (rbits br1) ≤ zlen (rbits br) ∧
      readLargestBase (qdec x br) = (Ok largest, qdec x br1) ∧
      ReadHeaderBlock fuel id (qdec x br) = (Err ErrWouldBlock, qdec x br1)
  end.
Proof.
  intros Hbr Hl. unfold awaited, ReadHeaderBlock. rewrite bind_unfold. unfold readLargestBase.
  destruct (ReadInt_runs 8 ltac:(done) br Hbr) as (o & br1 & Hr & Hbr1 & Ho & bits & Hbits).
  assert (zlen (rbits br1) ≤ zlen (rbits br)) as Hl1
    by (rewrite Hbits; zlen_simpl; pose proof (zlen_nonneg bits); lia).
  rewrite bind_unfold. unfold on_reader, zoom. cbn [qd_reader qd_table qd_sent qdec]. rewrite Hr. cbn [fst snd].
  change (Decoding x.1 br1 x.2) with (qdec x br1).
  destruct o as [raw|e| |]; [|by eexists _, x, br1; split_and!..|done].
  rewrite getTable_bind. unfold lift. destruct (decodeLargestBase x.1 raw) as [lb|e| |] eqn:Hdec;
    [|by unfold decodeLargestBase in Hdec; repeat case_match|by eexists _, x, br1; split_and!
     |by unfold decodeLargestBase in Hdec; repeat case_match].
  rewrite getTable_bind. unfold entryAvailable. destruct (Z.ltb_spec (tbase x.1) lb).
  - rewrite (proj2 (Z.leb_gt _ _)) by lia. split; [done|]. by exists br1.
  - rewrite (proj2 (Z.leb_le _ _)) by lia. apply readBlock_safe; [done|lia].
Qed.

Lemma ReadHeaderBlock_safe fuel id x br : br_wf br → zlen (rbits br) < Z.of_nat fuel →
  ∃ o x' br', ReadHeaderBlock fuel id (qdec x br) = (o, qdec x' br') ∧ o ≠ NoFuel ∧ x'.1 = x.1 ∧
    ((∀ hs, o ≠ Ok hs) → x' = x).
Proof.
  intros Hbr Hl. pose proof (ReadHeaderBlock_ends fuel id x br Hbr Hl) as Hends. destruct (awaited x.1 br).
  - destruct Hends as (_ & br1 & _ & _ & _ & Hr). by eexists _, x, br1.
  - destruct Hends as (o & x' & br' & Hr & Ho%returns_fuel & Ht & Hx). by exists o, x', br'.
Qed.
End decoder_spec.
