(* ===== verification/QpackEncoderSpec.v ===== *)
(** * QPACK: the encoder's invariant and what it writes

    [enc_ok] is the invariant of the encoder: the table's, and the exact size of
    the entries the peer has not acknowledged, which are always there. [st_inv]
    is the invariant of a block being written, between the table changes and the
    block. *)

From S2P Require Import Prelude Bits GoIo BitWriter BitReader Streams HcInt HuffmanTable Huffman HcString StaticTable Table Codec QpackTable QpackEncoder QpackDecoder QpackTableSpec QpackDecoderSpec.

Implicit Types (t : qpackTableCommon) (d : qpackEntry) (en : Entry qpackEntry).

(** ** The encoder *)

Definition qe_dynamic (e : QpackEncoder) : list qpackEntry := dynamic (qt_common (qe_table e)).
Definition qe_common_table (e : QpackEncoder) : qpackTableCommon := qt_common (qe_table e).

(** The number of entries in flight. *)
Definition unacked (e : QpackEncoder) : Z := qe_base e - highestAcknowledged e.

Record enc_ok (e : QpackEncoder) : Prop := {
  eo_table : etable_wf (qe_table e);
  eo_capacity : qe_capacity e < 2 ^ 60;
  eo_acked : 0 ≤ highestAcknowledged e;
  eo_held : 0 ≤ unacked e ≤ zlen (qe_dynamic e);
  eo_unack : unacknowledgedSize e = total (ztake (unacked e) (qe_dynamic e));
  eo_usage : ∀ r, hbu_max (block_of (qe_usage e) r) ≤ qe_base e;
}.

(** [e'] is [e] after changes of the table. *)
Record changed (e e' : QpackEncoder) : Prop := {
  cg_common : qe_common e' = qe_common e;
  cg_usage : qe_usage e' = qe_usage e;
  cg_maxBlocked : maxBlockedStreams e' = maxBlockedStreams e;
  cg_acked : highestAcknowledged e' = highestAcknowledged e;
  cg_blocked : blockedStreams e' = blockedStreams e;
  cg_limit : referenceableLimit (qe_table e') = referenceableLimit (qe_table e);
  cg_capacity : qe_capacity e' = qe_capacity e;
  cg_base : qe_base e ≤ qe_base e';
}.

#[export] Instance changed_preorder : PreOrder changed.
Proof.
  split.
  - intros e. by split.
  - intros e1 e2 e3 [] []. split; congruence || lia.
Qed.

Lemma enc_table_wf e : enc_ok e → table_wf (qe_common_table e).
Proof. intros [[] _ _ _ _ _]. done. Qed.

Lemma enc_base_nonneg e : enc_ok e → 0 ≤ qe_base e.
Proof. intros [_ _ Ha Hh _ _]. unfold unacked in Hh. lia. Qed.

(** An entry of ordinary size. *)
Definition ordinary (d : qpackEntry) : Prop := sized d ∧ Size d < 2 ^ 61.

(** The entries in flight are the newest, so they stay when room is made. *)
Lemma inserted_unacked e d : enc_ok e → Size d + unacknowledgedSize e ≤ qe_capacity e →
  let t' := inserted (qe_common_table e) d in
  tbase t' = qe_base e + 1 ∧ unacked e + 1 ≤ zlen (dynamic t') ∧
  total (ztake (unacked e + 1) (dynamic t')) = Size d + unacknowledgedSize e.
Proof.
  intros [_ _ _ Hh Hu _] Hfit. rewrite Hu in Hfit. unfold qe_dynamic in *.
  set (t := qt_common (qe_table e)) in *. cbn zeta. unfold qe_common_table. fold t.
  pose proof (total_nonneg (ztake (unacked e) (dynamic t))). unfold qe_capacity in Hfit. fold t in Hfit.
  unfold inserted. rewrite (proj2 (Z.ltb_ge (capacity t) _)) by lia. cbn [tbase dynamic].
  split; [done|]. unfold ztake in *. rewrite zlen_cons.
  assert (take (Z.to_nat (unacked e)) (dynamic t) =
    take (Z.to_nat (unacked e)) (evicted t (capacity t - Size d))) as Hmax by (apply fit_maximal; lia).
  assert (unacked e ≤ zlen (evicted t (capacity t - Size d))) as Hlen.
  { apply (f_equal length) in Hmax. rewrite !length_take in Hmax. unfold zlen in *. lia. }
  split; [lia|]. replace (Z.to_nat (unacked e + 1)) with (S (Z.to_nat (unacked e))) by lia.
  rewrite Hu. cbn [take total]. rewrite Size_setBase. by rewrite <- Hmax.
Qed.

(** The encoder after an insertion. *)
Lemma enc_ok_inserted e d qt' : enc_ok e → Size d + unacknowledgedSize e ≤ qe_capacity e → qe_base e < 2 ^ 60 →
  unacknowledgedSize e < 2 ^ 60 → 0 < Size d < 2 ^ 62 → etable_wf qt' → referenceableLimit qt' = referenceableLimit (qe_table e) → qt_common qt' = inserted (qe_common_table e) d →
  let e' := set_unacknowledgedSize (u64 (unacknowledgedSize e + Size d)) (set_qe_table qt' e) in enc_ok e' ∧ changed e e'.
Proof.
  intros Hok Hfit Hb Hu60 Hsz Hwf' Hlim' Hcom. pose proof Hok as [_ Hcap Ha Hh Hu Husage].
  destruct (inserted_unacked e d Hok Hfit) as (Hb' & Hl' & Ht'). rewrite <- Hcom in Hb', Hl', Ht'.
  assert (capacity (qt_common qt') = qe_capacity e) as Hcap' by (rewrite Hcom; unfold inserted; by destruct (_ <? _)).
  assert (0 ≤ unacknowledgedSize e) by (rewrite Hu; apply total_nonneg).
  split.
  - split; cbn [qe_table qe_usage highestAcknowledged unacknowledgedSize set_unacknowledgedSize set_qe_table];
      unfold qe_capacity, unacked, qe_base, qe_dynamic in *; cbn; [done|lia|done|lia| |].
    + rewrite u64_small by lia. rewrite Hb'.
      replace (tbase _ + 1 - highestAcknowledged e) with (tbase (qt_common (qe_table e)) - highestAcknowledged e + 1) by lia.
      rewrite Ht'. lia.
    + intros r. specialize (Husage r). lia.
  - split; cbn; try done. unfold qe_base in *. cbn. lia.
Qed.

(** And after one that the table refuses. *)
Lemma enc_ok_refused e qt' : enc_ok e → etable_wf qt' → referenceableLimit qt' = referenceableLimit (qe_table e) → qt_common qt' = qt_common (qe_table e) →
  enc_ok (set_qe_table qt' e) ∧ changed e (set_qe_table qt' e).
Proof.
  intros [_ Hcap Ha Hh Hu Husage] Hwf' Hlim' Hsame.
  split; (split; unfold qe_capacity, unacked, qe_base, qe_dynamic in *; cbn; rewrite ?Hsame; done).
Qed.

Section insert.
Context {W : Type}.

(** [insert] never fails; an entry that goes in leaves the invariant, and only
    what the block's state lets go is gone. *)
Lemma insert_spec e st name value : enc_ok e → ordinary (new_entry name value) → qe_base e < 2 ^ 60 →
  ∃ o e', (∀ w : bitWriter W, insert name value (Changing e w st) = (Ok o, Changing e' w st)) ∧
    enc_ok e' ∧ changed e e' ∧
    spared (qe_usage e) (CanEvict st) (qe_common_table e) (qe_common_table e') ∧
    match o with
    | Some d => d = setBase (qe_base e + 1) (new_entry name value) ∧
        Size (new_entry name value) ≤ qe_capacity e ∧
        qe_common_table e' = inserted (qe_common_table e) (new_entry name value)
    | None => qe_common_table e' = qe_common_table e
    end.
Proof.
  intros Hok [Hsz Hbig] Hb. pose proof Hok as [Hwf Hcap Ha Hh Hu Husage].
  pose proof (total_take_le (Z.to_nat (unacked e)) (qe_dynamic e)) as Htot.
  pose proof (total_nonneg (ztake (unacked e) (qe_dynamic e))).
  pose proof (wf_fits _ (et_table _ Hwf)) as Hfits. pose proof (et_limit _ Hwf) as Hlim.
  assert (unacknowledgedSize e < 2 ^ 60).
  { rewrite Hu. unfold ztake. unfold qe_capacity, qe_dynamic in *. lia. }
  unfold sized, entryOverhead in Hsz. set (d0 := new_entry name value) in *.
  assert (u64 (Size d0 + unacknowledgedSize e) = Size d0 + unacknowledgedSize e) as Hsum
    by (apply u64_small; lia).
  destruct (Z.ltb_spec (referenceableLimit (qe_table e)) (Size d0 + unacknowledgedSize e)) as [Hlt|Hge].
  { exists None, e. split_and!; [|done|reflexivity|by left|done]. intros w. unfold insert. rewrite bind_unfold.
    cbn [getS ch_encoder]. change (MkBasicDynamicEntry name value 0) with d0.
    by rewrite Hsum, (proj2 (Z.ltb_lt _ _)). }
  destruct (EncoderTable_Insert_spec (qe_table e) (qe_usage e) name value (CanEvict st))
    as (o & qt' & Hins & Hwf' & Hlim' & Hsp & Hres); [done|done|unfold qe_base, intMax in *; lia|].
  change (MkBasicDynamicEntry name value 0) with d0 in Hres.
  assert (∀ w : bitWriter W, insert name value (Changing e w st) =
    (Ok o, Changing (match o with
      | Some d => set_unacknowledgedSize (u64 (unacknowledgedSize e + Size d)) (set_qe_table qt' e)
      | None => set_qe_table qt' e
      end) w st)) as Hrun.
  { intros w. unfold insert. rewrite bind_unfold. cbn [getS ch_encoder ch_state].
    change (MkBasicDynamicEntry name value 0) with d0.
    rewrite Hsum, (proj2 (Z.ltb_ge _ _)), bind_unfold by lia. unfold lift. rewrite Hins.
    by destruct o. }
  exists o, (match o with
      | Some d => set_unacknowledgedSize (u64 (unacknowledgedSize e + Size d)) (set_qe_table qt' e)
      | None => set_qe_table qt' e
      end).
  destruct o as [d|].
  - destruct Hres as (Hfit & -> & Hcom & Hsmall). rewrite Size_setBase in *.
    destruct (enc_ok_inserted e d0 qt' Hok) as [Hok' Hch]; [unfold qe_capacity; lia|done|done|lia|done|done|done|].
    by split_and!.
  - destruct Hres as ([Hsame|[Hlarge _]] & _).
    2: { exfalso. unfold d0 in *. change (MkBasicDynamicEntry name value 0) with (new_entry name value) in Hlarge. lia. }
    by destruct (enc_ok_refused e qt' Hok Hwf' Hlim' Hsame); split_and!.
Qed.
End insert.

(** ** The state of a block *)

(** An entry that a decoder with table [t] has. *)
Definition usable (t : qpackTableCommon) (en : Entry qpackEntry) : Prop :=
  match en with Static s => s ∈ qpackStaticTable | Dynamic d => d ∈ dynamic t end.

Definition match_at (st : qpackWriterState) (i : nat) : option (Entry qpackEntry) :=
  mjoin (ws_matches st !! i).
Definition name_at (st : qpackWriterState) (i : nat) : option (Entry qpackEntry) :=
  mjoin (ws_nameMatches st !! i).

(** The entry that field [i] will refer to. *)
Definition used_at (st : qpackWriterState) (i : nat) : option (Entry qpackEntry) :=
  match match_at st i with Some en => Some en | None => name_at st i end.

Definition below (en : Entry qpackEntry) (b : Z) : Prop :=
  match en with Static _ => True | Dynamic d => Base d ≤ b end.

(** An entry that was in the table: it still is, or it is older than all of it. *)
Definition kept (t : qpackTableCommon) (en : Entry qpackEntry) : Prop :=
  match en with
  | Static s => s ∈ qpackStaticTable
  | Dynamic d => 0 < Base d ∧ (d ∈ dynamic t ∨ Base d + zlen (dynamic t) ≤ tbase t)
  end.

(** The field at [i] may refer to [en] in full: it is in the table and protected
    from eviction. *)
Record full_ok (t : qpackTableCommon) (st : qpackWriterState) (i : nat) (en : Entry qpackEntry) : Prop := {
  fo_header : ∃ h, ws_headers st !! i = Some h ∧ matches2 (h_Name h) (h_Value h) en ∧ h_Sensitive h = false;
  fo_usable : usable t en;
  fo_below : below en (largestBase st);
  fo_kept : match en with Static _ => True | Dynamic d => smallestBase st ≤ Base d end;
}.

(** The same for a name, which is not protected. *)
Record name_ok (t : qpackTableCommon) (st : qpackWriterState) (i : nat) (en : Entry qpackEntry) : Prop := {
  no_header : ∃ h, ws_headers st !! i = Some h ∧ matches (h_Name h) en ∧ h_Sensitive h = false;
  no_kept : kept t en;
  no_below : below en (largestBase st);
}.

Record st_inv (t : qpackTableCommon) (st : qpackWriterState) : Prop := {
  si_lengths : length (ws_matches st) = length (ws_headers st) ∧
               length (ws_nameMatches st) = length (ws_headers st);
  si_match i en : match_at st i = Some en → full_ok t st i en;
  si_name i en : name_at st i = Some en → name_ok t st i en;
  si_largest : 0 ≤ largestBase st ≤ tbase t;
  si_top : largestBase st = 0 ∨ ∃ i d, used_at st i = Some (Dynamic d) ∧ Base d = largestBase st;
  si_limit : 0 ≤ maxBase st → largestBase st ≤ maxBase st;
}.

(** Nothing is recorded for the fields from [i] on. *)
Definition fresh (st : qpackWriterState) (i : nat) : Prop :=
  ∀ j, (i ≤ j)%nat → match_at st j = None ∧ name_at st j = None.

Lemma usable_kept t en : table_wf t → usable t en → kept t en.
Proof.
  intros Hwf. destruct en as [s|d]; [done|]. intros Hd. split; [|by left].
  apply list_elem_of_lookup in Hd as [j Hj]. pose proof (wf_bases _ Hwf _ _ Hj) as HB.
  pose proof (wf_tbase _ Hwf). apply lookup_lt_Some in Hj. unfold zlen in *. change (0 < Base d). lia.
Qed.

(** An insertion takes the oldest entries. *)
Lemma kept_inserted t d en : table_wf t → kept t en → kept (inserted t d) en.
Proof.
  intros Hwf. destruct en as [s|d']; [done|]. intros [Hpos Hkept]. split; [done|]. revert Hkept.
  unfold inserted, evicted.
  destruct (_ <? _); cbn [dynamic tbase].
  { rewrite zlen_nil. intros [[j Hj]%list_elem_of_lookup|Hold]; right;
      [pose proof (wf_bases _ Hwf _ _ Hj)|pose proof (zlen_nonneg (dynamic t))]; lia. }
  destruct (fit_prefix (capacity t - Size d) (dynamic t)) as [l ->]. rewrite zlen_cons. unfold zlen. rewrite length_take.
  intros [[j Hj]%list_elem_of_lookup|Hold]; [|right; unfold zlen in Hold; lia].
  destruct (decide (j < l)%nat) as [Hlt|Hge].
  - left. right. apply list_elem_of_lookup. exists j. by rewrite lookup_take_lt.
  - right. pose proof (wf_bases _ Hwf _ _ Hj). lia.
Qed.

Lemma below_mono en b b' : below en b → b ≤ b' → below en b'.
Proof. destruct en; cbn; [done|lia]. Qed.

(** What a match is recorded as: the state after [updateBase]. *)
Lemma updateBase_largest en full st :
  largestBase (updateBase en full st) =
    match en with Static _ => largestBase st | Dynamic d => Z.max (largestBase st) (Base d) end.
Proof. destruct en as [s|d]; [done|]. cbn. destruct (Z.ltb_spec (largestBase st) (bde_B d)); lia. Qed.

Lemma updateBase_smallest en full st :
  smallestBase (updateBase en full st) ≤ smallestBase st ∧
  (full = true → match en with Static _ => True | Dynamic d => smallestBase (updateBase en full st) ≤ Base d end).
Proof.
  destruct en as [s|d]; [done|]. cbn. destruct full; cbn; [|split; [lia|done]].
  destruct (Z.ltb_spec (bde_B d) (smallestBase st)); split; intros; lia.
Qed.

Lemma updateBase_frame en full st :
  let st' := updateBase en full st in
  ws_headers st' = ws_headers st ∧ ws_matches st' = ws_matches st ∧
  ws_nameMatches st' = ws_nameMatches st ∧ maxBase st' = maxBase st ∧
  wasBlocked st' = wasBlocked st ∧ uses st' = uses st.
Proof. by destruct en. Qed.

Lemma lookup_insert_join {A} (l : list (option A)) i j x : (i < length l)%nat →
  mjoin (<[i := Some x]> l !! j) = if decide (j = i) then Some x else mjoin (l !! j).
Proof.
  intros Hi. destruct (decide (j = i)) as [->|Hne].
  - by rewrite list_lookup_insert_eq.
  - by rewrite list_lookup_insert_ne.
Qed.

Section record.
Context (t : qpackTableCommon) (st : qpackWriterState) (i : nat) (h : HeaderField).
Hypothesis Hinv : st_inv t st.
Hypothesis Hh : ws_headers st !! i = Some h.
Hypothesis Hplain : h_Sensitive h = false.
Hypothesis Hfree : match_at st i = None.

Lemma record_index : (i < length (ws_matches st))%nat ∧ (i < length (ws_nameMatches st))%nat.
Proof using Hinv Hh. destruct (si_lengths _ _ Hinv) as [-> ->]. apply lookup_lt_Some in Hh. done. Qed.

(** The invariant after a match is recorded: it takes the place of a name match
    only if it is newer than every other match. *)
Lemma set_match_inv en : matches2 (h_Name h) (h_Value h) en → usable t en →
  dynBase en ≤ tbase t → dynBase en ≤ maxBase st →
  name_at st i = None ∨ (∃ d, en = Dynamic d ∧ largestBase st < Base d) →
  st_inv t (updateBase en true (set_match i en st)).
Proof using Hinv Hh Hplain Hfree.
  intros Hm Hu Hb Hmax Hnew. destruct record_index as [Hi _].
  pose proof Hinv as [Hlens Hmatch Hname [Hl0 Hlt] Htop Hlim].
  set (st1 := set_match i en st). pose proof (updateBase_largest en true st1) as Hlarge.
  destruct (updateBase_smallest en true st1) as [Hsmall Hkept]. specialize (Hkept eq_refl).
  destruct (updateBase_frame en true st1) as (Hfh & Hfm & Hfn & Hfx & _).
  set (st2 := updateBase en true st1) in *.
  change (largestBase st1) with (largestBase st) in Hlarge.
  change (smallestBase st1) with (smallestBase st) in Hsmall.
  change (ws_headers st1) with (ws_headers st) in Hfh. change (maxBase st1) with (maxBase st) in Hfx.
  change (ws_nameMatches st1) with (ws_nameMatches st) in Hfn.
  change (ws_matches st1) with (<[i := Some en]> (ws_matches st)) in Hfm.
  assert (largestBase st ≤ largestBase st2 ∧ below en (largestBase st2)) as [Hgrow Hbel]
    by (rewrite Hlarge; destruct en; cbn; lia).
  assert (∀ j, match_at st2 j = if decide (j = i) then Some en else match_at st j) as Hat
    by (intros j; unfold match_at; by rewrite Hfm, lookup_insert_join).
  assert (∀ j, name_at st2 j = name_at st j) as Hnat by (intros j; unfold name_at; by rewrite Hfn).
  split.
  - rewrite Hfm, Hfn, Hfh, length_insert. done.
  - intros j en'. rewrite Hat. destruct (decide (j = i)) as [->|Hne].
    + intros [= <-]. split; [|done|done|done]. rewrite Hfh. by exists h.
    + intros [Hhd Hus Hbe Hk]%Hmatch. split; [by rewrite Hfh|done|by eapply below_mono|].
      destruct en'; [done|]. lia.
  - intros j en'. rewrite Hnat. intros [Hhd Hs Hbe]%Hname.
    split; [by rewrite Hfh|done|by eapply below_mono].
  - rewrite Hlarge. destruct en; cbn in *; lia.
  - rewrite Hlarge. destruct en as [s|d].
    + destruct Hnew as [Hnone|(d & ? & _)]; [|done]. destruct Htop as [|(j & d & Hused & Hd)]; [by left|right].
      exists j, d. split; [|done]. unfold used_at in *. rewrite Hat, Hnat.
      destruct (decide (j = i)) as [->|]; [|done]. by rewrite Hfree, Hnone in Hused.
    + destruct (Z.le_gt_cases (largestBase st) (Base d)) as [Hle|Hgt].
      * right. exists i, d. unfold used_at. rewrite Hat, decide_True by done. split; [done|lia].
      * destruct Hnew as [Hnone|(d' & [= <-] & ?)]; [|lia].
        destruct Htop as [|(j & d' & Hused & Hd')]; [cbn in *; lia|right].
        exists j, d'. split; [|lia]. unfold used_at in *. rewrite Hat, Hnat.
        destruct (decide (j = i)) as [->|]; [|done]. by rewrite Hfree, Hnone in Hused.
  - rewrite Hfx, Hlarge. intros Hm0. specialize (Hlim Hm0). destruct en; cbn in *; lia.
Qed.

(** The invariant after a name match is recorded in an empty place. *)
Lemma set_name_inv en : matches (h_Name h) en → kept t en →
  dynBase en ≤ tbase t → dynBase en ≤ maxBase st → name_at st i = None →
  st_inv t (updateBase en false (set_nameMatch i en st)).
Proof using Hinv Hh Hplain Hfree.
  intros Hm Hs Hb Hmax Hnone. destruct record_index as [_ Hi].
  pose proof Hinv as [Hlens Hmatch Hname [Hl0 Hlt] Htop Hlim].
  set (st1 := set_nameMatch i en st). pose proof (updateBase_largest en false st1) as Hlarge.
  destruct (updateBase_smallest en false st1) as [Hsmall _].
  destruct (updateBase_frame en false st1) as (Hfh & Hfm & Hfn & Hfx & _).
  set (st2 := updateBase en false st1) in *.
  change (largestBase st1) with (largestBase st) in Hlarge.
  change (smallestBase st1) with (smallestBase st) in Hsmall.
  change (ws_headers st1) with (ws_headers st) in Hfh. change (maxBase st1) with (maxBase st) in Hfx.
  change (ws_nameMatches st1) with (<[i := Some en]> (ws_nameMatches st)) in Hfn.
  change (ws_matches st1) with (ws_matches st) in Hfm.
  assert (largestBase st ≤ largestBase st2 ∧ below en (largestBase st2)) as [Hgrow Hbel]
    by (rewrite Hlarge; destruct en; cbn; lia).
  assert (∀ j, name_at st2 j = if decide (j = i) then Some en else name_at st j) as Hnat
    by (intros j; unfold name_at; by rewrite Hfn, lookup_insert_join).
  assert (∀ j, match_at st2 j = match_at st j) as Hat by (intros j; unfold match_at; by rewrite Hfm).
  split.
  - rewrite Hfm, Hfn, Hfh, length_insert. done.
  - intros j en'. rewrite Hat. intros [Hhd Hus Hbe Hk]%Hmatch.
    split; [by rewrite Hfh|done|by eapply below_mono|]. destruct en'; [done|]. lia.
  - intros j en'. rewrite Hnat. destruct (decide (j = i)) as [->|Hne].
    + intros [= <-]. split; [|done|done]. rewrite Hfh. by exists h.
    + intros [Hhd Hs' Hbe]%Hname. split; [by rewrite Hfh|done|by eapply below_mono].
  - rewrite Hlarge. destruct en; cbn in *; lia.
  - rewrite Hlarge. assert (∀ j d, used_at st j = Some (Dynamic d) → used_at st2 j = Some (Dynamic d)) as Hkeep.
    { intros j d. unfold used_at. rewrite Hat, Hnat. destruct (decide (j = i)) as [->|]; [|done].
      by rewrite Hfree, Hnone. }
    destruct en as [s|d].
    + destruct Htop as [|(j & d & Hused & Hd)]; [by left|right]. exists j, d. split; [by apply Hkeep|done].
    + destruct (Z.le_gt_cases (largestBase st) (Base d)) as [Hle|Hgt].
      * right. exists i, d. unfold used_at. rewrite Hat, Hnat, Hfree, decide_True by done. split; [done|lia].
      * destruct Htop as [|(j & d' & Hused & Hd')]; [cbn in *; lia|right].
        exists j, d'. split; [by apply Hkeep|lia].
  - rewrite Hfx, Hlarge. intros Hm0. specialize (Hlim Hm0). destruct en; cbn in *; lia.
Qed.
End record.

(** The invariant after an insertion that loses no match. *)
Lemma st_inv_inserted t d u st : table_wf t → st_inv t st → spared u (CanEvict st) t (inserted t d) →
  tbase t ≤ tbase (inserted t d) → st_inv (inserted t d) st.
Proof.
  intros Hwf [Hlens Hmatch Hname Hl Htop Hlim] Hsp Hb. split; [done| | |lia|done|done].
  - intros i en [Hhd Hus Hbe Hk]%Hmatch. split; [done| |done|done].
    destruct en as [s|d']; [done|]. cbn in *. destruct (Hsp d' Hus) as [|[He _]]; [done|].
    unfold CanEvict in He. cbn in *. lia.
  - intros i en [Hhd Hke Hbe]%Hname. split; [done|by apply kept_inserted|done].
Qed.

(** The field [i] before a later field is looked at. *)
Lemma fresh_S st i : fresh st i → fresh st (S i).
Proof. intros Hf j Hj. apply Hf. lia. Qed.

Lemma fresh_match en full st i : fresh st (S i) → fresh (updateBase en full (set_match i en st)) (S i).
Proof.
  intros Hf j Hj. destruct (Hf j Hj) as [Hm Hn]. unfold match_at, name_at in *.
  destruct (updateBase_frame en full (set_match i en st)) as (_ & -> & -> & _). cbn.
  by rewrite list_lookup_insert_ne by lia.
Qed.

Lemma fresh_name en full st i : fresh st (S i) → fresh (updateBase en full (set_nameMatch i en st)) (S i).
Proof.
  intros Hf j Hj. destruct (Hf j Hj) as [Hm Hn]. unfold match_at, name_at in *.
  destruct (updateBase_frame en full (set_nameMatch i en st)) as (_ & -> & -> & _). cbn.
  by rewrite list_lookup_insert_ne by lia.
Qed.

(** ** Lookups *)

Lemma usable_base t en : table_wf t → usable t en → dynBase en ≤ tbase t.
Proof.
  intros [_ _ _ Hbases Htb] Hu. pose proof (zlen_nonneg (dynamic t)). destruct en as [s|d]; cbn in *; [lia|].
  apply list_elem_of_lookup in Hu as [j Hj]. apply Hbases in Hj. cbn in Hj. lia.
Qed.

Lemma range_usable t lo hi en :
  en ∈ (Static <$> qpackStaticTable) ++ (Dynamic <$> ztake (hi - lo) (zdrop lo (dynamic t))) → usable t en.
Proof.
  rewrite elem_of_app, !list_elem_of_fmap. intros [(s & -> & Hs)|(d & -> & Hd)]; [done|].
  cbn. unfold ztake, zdrop in Hd. by eapply subseteq_drop, subseteq_take.
Qed.

Lemma LookupReferenceable_spec qt name value m : etable_wf qt → 0 ≤ m →
  ∃ full nm, LookupReferenceable qt name value m = Ok (full, nm) ∧
    (∀ en, full = Some en → matches2 name value en ∧ usable (qt_common qt) en) ∧
    (∀ en, nm = Some en → matches name en ∧ usable (qt_common qt) en).
Proof.
  intros [_ Hr _ _ _] Hm. unfold LookupReferenceable.
  set (start := if m <? tbase (qt_common qt) then tbase (qt_common qt) - m else 0).
  assert (0 ≤ start) by (unfold start; destruct (Z.ltb_spec m (tbase (qt_common qt))); lia).
  assert (∀ lo hi, 0 ≤ lo ≤ hi → hi ≤ zlen (dynamic (qt_common qt)) →
    ∃ full nm, lookupImpl (qt_common qt) staticTable name value lo hi = Ok (full, nm) ∧
    (∀ en, full = Some en → matches2 name value en ∧ usable (qt_common qt) en) ∧
    (∀ en, nm = Some en → matches name en ∧ usable (qt_common qt) en)) as Hgo.
  { intros lo hi Hlo Hhi.
    destruct (lookupImpl_range (qt_common qt) staticTable name value lo hi Hlo Hhi) as ([full nm] & -> & Hs).
    exists full, nm. split; [done|]. destruct full as [en|]; cbv zeta in Hs.
    - destruct Hs as (Hin & Hm2 & ->). apply range_usable in Hin.
      split; intros en' [= <-]; (split; [|done]); [done|apply Hm2].
    - split; [done|]. destruct Hs as [_ Hs]. intros en ->. destruct Hs as [Hin ?]. split; [done|].
      by eapply range_usable. }
  destruct (Z.leb_spec (referenceable qt) start); apply Hgo; lia.
Qed.

Lemma LookupBlocked_spec qt name value m : etable_wf qt → ∃ b, LookupBlocked qt name value m = Ok b.
Proof.
  intros [_ Hr _ _ _]. unfold LookupBlocked. destruct (Z.leb_spec (tbase (qt_common qt)) m); [by eexists|].
  rewrite !(proj2 (Z.ltb_ge _ _)) by lia. cbn [orb]. by eexists.
Qed.

(** A name match alone is never found: it would have to replace an earlier one. *)
Lemma extra_scan_spec es name value :
  match extra_scan es name value None with
  | (Some d, nm) => d ∈ es ∧ Name d = name ∧ Value d = value ∧ nm = Some d
  | (None, nm) => nm = None
  end.
Proof.
  induction es as [|d es IH]; [done|]. cbn [extra_scan].
  destruct (decide (Name d = name)) as [Hn|].
  - destruct (decide (Value d = value)) as [Hv|]; [split_and!; [by constructor|done..]|].
    destruct (extra_scan es name value None) as [[d'|] nm]; [|done].
    destruct IH as (? & ? & ? & ->). split_and!; [by constructor|done..].
  - destruct (extra_scan es name value None) as [[d'|] nm]; [|done].
    destruct IH as (? & ? & ? & ->). split_and!; [by constructor|done..].
Qed.

Lemma LookupExtra_spec qt name value : etable_wf qt → ∃ o, LookupExtra qt name value = Ok (o, o) ∧
  ∀ d, o = Some d → d ∈ dynamic (qt_common qt) ∧ Name d = name ∧ Value d = value.
Proof.
  intros [_ Hr _ _ _]. unfold LookupExtra. rewrite !(proj2 (Z.ltb_ge _ _)) by lia. cbn [orb].
  pose proof (extra_scan_spec (zdrop (referenceable qt) (dynamic (qt_common qt))) name value) as Hs.
  destruct (extra_scan _ _ _ _) as [[d|] nm]; [|subst nm; by exists None].
  destruct Hs as (Hin & Hn & Hv & ->). exists (Some d). split; [done|]. intros d' [= <-].
  split; [|done]. by eapply subseteq_drop.
Qed.

(** *** References *)

(** The kind and the index of the reference to an entry, relative to base [b]. *)
Definition ref_of (en : Entry qpackEntry) (b : Z) : bool * Z :=
  match en with Static s => (true, se_index s) | Dynamic d => (false, b - Base d) end.

Lemma GetStatic_index s : s ∈ qpackStaticTable → GetStatic (se_index s) = Some s ∧ 0 ≤ se_index s < 99.
Proof.
  intros [i Hi]%list_elem_of_lookup.
  pose proof (numbered_from_lookup _ _ _ _ qpackStaticTable_numbered Hi) as Hn.
  apply lookup_lt_Some in Hi as Hlt. pose proof qpackStaticTable_length as Hlen. unfold zlen in Hlen.
  split; [|lia]. unfold GetStatic. cbn [useQpackStaticTable]. rewrite qpackStaticTable_length.
  rewrite (proj2 (Z.ltb_ge _ _)), (proj2 (Z.leb_gt _ _)) by lia. cbn [orb].
  by replace (Z.to_nat (se_index s)) with i by lia.
Qed.

Lemma dynamic_base t (d : qpackEntry) : table_wf t → d ∈ dynamic t → 0 < Base d ≤ tbase t ∧
  tbase t - Base d < zlen (dynamic t).
Proof.
  intros [_ _ _ Hbases Htb] [j Hj]%list_elem_of_lookup. pose proof (Hbases _ _ Hj).
  apply lookup_lt_Some in Hj. unfold zlen in *. lia.
Qed.

Lemma entry_at_ref t en b : table_wf t → 0 ≤ b ≤ tbase t → tbase t < 2 ^ 60 →
  usable t en → below en b →
  entry_at t (ref_of en b).1 (ref_of en b).2 b = Some en ∧ 0 ≤ (ref_of en b).2 < 2 ^ 61.
Proof.
  intros Hwf Hb Hmax Hu Hbel. destruct en as [s|d]; cbn [ref_of fst snd entry_at] in *.
  - destruct (GetStatic_index s Hu) as [-> ?]. split; [done|lia].
  - pose proof (dynamic_base _ _ Hwf Hu). unfold below in Hbel. split; [|lia].
    assert (GetDynamic t (b - Base d) b = Some d) as ->; [|done].
    apply GetDynamic_spec; [done|lia..|split; [done|lia]].
Qed.

(** ** What is recorded *)

Record st_frame (st st' : qpackWriterState) : Prop := {
  sf_headers : ws_headers st' = ws_headers st;
  sf_maxBase : maxBase st' = maxBase st;
  sf_wasBlocked : wasBlocked st' = wasBlocked st;
  sf_uses : uses st' = uses st;
}.

#[export] Instance st_frame_preorder : PreOrder st_frame.
Proof. split; [by intros st|]. intros s1 s2 s3 [] []. split; congruence. Qed.

Lemma recordMatch_frame i full nm st : st_frame st (recordMatch i full nm st).
Proof.
  unfold recordMatch. destruct full as [[]|], nm as [[]|]; cbn; repeat case_match; by split.
Qed.

(** A match that a lookup found is recorded in an empty place. *)
Lemma recordMatch_inv t st i h full nm : table_wf t → st_inv t st → ws_headers st !! i = Some h →
  h_Sensitive h = false → fresh st i →
  (∀ en, full = Some en → matches2 (h_Name h) (h_Value h) en ∧ usable t en) →
  (∀ en, nm = Some en → matches (h_Name h) en ∧ usable t en) →
  let st' := recordMatch i full nm st in
  st_inv t st' ∧ fresh st' (S i) ∧ (full = None → match_at st' i = None).
Proof.
  intros Hwf Hinv Hh Hs Hf Hfull Hnm. destruct (Hf i ltac:(lia)) as [Hm0 Hn0]. apply fresh_S in Hf as Hf'.
  set (byName := match nm with
    | Some e => if dynBase e <=? maxBase st then updateBase e false (set_nameMatch i e st) else st
    | None => st end).
  assert (st_inv t byName ∧ fresh byName (S i) ∧ match_at byName i = None) as Hby.
  { unfold byName. destruct nm as [en|]; [|done]. destruct (Hnm en eq_refl) as [Hm Hu].
    destruct (Z.leb_spec (dynBase en) (maxBase st)); [|done]. split_and!.
    - eapply set_name_inv; eauto using usable_base, usable_kept.
    - by apply fresh_name.
    - unfold match_at. destruct (updateBase_frame en false (set_nameMatch i en st)) as (_ & -> & _). done. }
  cbn zeta. unfold recordMatch. fold byName. destruct full as [en|]; [|by destruct Hby as (? & ? & ?)].
  destruct (Hfull en eq_refl) as [Hm Hu].
  destruct (Z.leb_spec (dynBase en) (maxBase st)); [|by destruct Hby as (? & ? & ?)]. split_and!; [|by apply fresh_match|done].
  eapply set_match_inv; eauto using usable_base.
Qed.

(** A new entry is recorded, over a name match if need be. *)
Lemma recordNew_inv t st i h d : table_wf t → st_inv t st → ws_headers st !! i = Some h →
  h_Sensitive h = false → fresh st (S i) → match_at st i = None →
  matches2 (h_Name h) (h_Value h) (Dynamic d) → d ∈ dynamic t → largestBase st < Base d →
  let st' := recordMatch i (Some (Dynamic d)) None st in st_inv t st' ∧ fresh st' (S i).
Proof.
  intros Hwf Hinv Hh Hs Hf Hm0 Hm Hd Hl. cbn zeta. unfold recordMatch.
  destruct (Z.leb_spec (dynBase (Dynamic d)) (maxBase st)); [|done]. split; [|by apply fresh_match].
  eapply set_match_inv; eauto using usable_base.
Qed.

(** ** The updates an encoder writes *)

#[local] Opaque WriteBits WriteInt WriteStringRaw.

Definition enc_pref (e : QpackEncoder) : HuffmanCodingChoice := HuffmanPreference (qe_common e).

Definition field_ok (pref : HuffmanCodingChoice) (h : HeaderField) : Prop :=
  string_ok pref (h_Name h) ∧ string_ok pref (h_Value h).

Lemma Size_new_entry pref n v : string_ok pref n → string_ok pref v →
  Size (new_entry n v) = 32 + slen n + slen v ∧ ordinary (new_entry n v).
Proof.
  intros Hn%string_ok_sizes Hv%string_ok_sizes. unfold ordinary, sized, entryOverhead, Size. cbn.
  unfold entryOverhead. rewrite (u64_small (slen n + slen v)), u64_small by lia. lia.
Qed.

Lemma entry_ordinary e d : enc_ok e → d ∈ qe_dynamic e →
  ordinary (new_entry (Name d) (Value d)) ∧ Size (new_entry (Name d) (Value d)) = Size d.
Proof.
  intros Hok Hd. change (Size (new_entry (Name d) (Value d))) with (Size d). split; [|done].
  pose proof (elem_fits _ _ (enc_table_wf e Hok) Hd) as Hf. pose proof (eo_capacity _ Hok) as Hc.
  pose proof (et_sized _ (eo_table _ Hok)) as Hs. rewrite Forall_forall in Hs.
  split; [exact (Hs d Hd)|]. change (Size (new_entry (Name d) (Value d))) with (Size d).
  unfold qe_capacity, qe_common_table in *. lia.
Qed.

(** No string of a field, or of an update that an encoder sends, is longer than [M]. *)
Definition field_short (M : Z) (h : HeaderField) : Prop := slen (h_Name h) ≤ M ∧ slen (h_Value h) ≤ M.

Definition update_short (M : Z) (u : update) : Prop :=
  match u with
  | UInsertName _ _ v => slen v ≤ M
  | UInsert n v => slen n ≤ M ∧ slen v ≤ M
  | UDuplicate _ => True
  | UCapacity _ => False       (* the encoder sends none *)
  end.

(** A step of the table changes: [us] is what it wrote, and the fields from [i]
    on are still to do. *)
Record stepped (n : Z) (i : nat) (x : QpackEncoder * qpackWriterState) (us : list update)
    (x' : QpackEncoder * qpackWriterState) : Prop := {
  sp_ok : Forall (update_ok (enc_pref x.1)) us;
  sp_length : zlen us ≤ n;
  sp_short M : Forall (field_short M) (ws_headers x.2) → Forall (update_short M) us;
  sp_apply : ∃ evs, updates_apply (qe_common_table x.1) us = Ok (qe_common_table x'.1, evs);
  sp_enc : enc_ok x'.1;
  sp_changed : changed x.1 x'.1;
  sp_base : qe_base x'.1 ≤ qe_base x.1 + n;
  sp_inv : st_inv (qe_common_table x'.1) x'.2;
  sp_fresh : fresh x'.2 i;
  sp_frame : st_frame x.2 x'.2;
}.

Lemma stepped_nil i x : enc_ok x.1 → st_inv (qe_common_table x.1) x.2 → fresh x.2 i → stepped 0 i x [] x.
Proof. intros. split; try done. - by exists []. - lia. Qed.

Lemma stepped_state i e st st' : enc_ok e → st_inv (qe_common_table e) st' → fresh st' i → st_frame st st' →
  stepped 0 i (e, st) [] (e, st').
Proof. intros. split; cbn; try done. - by exists []. - lia. Qed.

Lemma stepped_trans n1 n2 i j x1 us1 x2 us2 x3 :
  stepped n1 i x1 us1 x2 → stepped n2 j x2 us2 x3 → stepped (n1 + n2) j x1 (us1 ++ us2) x3.
Proof.
  intros [Hok1 Hl1 Hsh1 [evs1 Ha1] He1 Hc1 Hb1 Hi1 Hf1 Hs1] [Hok2 Hl2 Hsh2 [evs2 Ha2] He2 Hc2 Hb2 Hi2 Hf2 Hs2].
  split; [| | | |done| |lia|done|done|].
  - apply Forall_app. split; [done|]. unfold enc_pref in *. by rewrite <- (cg_common _ _ Hc1).
  - zlen_simpl. lia.
  - intros M HM. apply Forall_app. split; [by apply Hsh1|apply Hsh2; by rewrite (sf_headers _ _ Hs1)].
  - exists (evs1 ++ evs2). by rewrite (updates_apply_app _ _ _ _ _ Ha1), Ha2.
  - by etransitivity.
  - by etransitivity.
Qed.

Lemma stepped_weaken n n' i x us x' : n ≤ n' → stepped n i x us x' → stepped n' i x us x'.
Proof. intros Hn []. split; try done; lia. Qed.

(** Changes of the usage tracker keep the invariant as long as no block refers
    beyond the table. *)
Lemma enc_ok_usage e u : enc_ok e → (∀ r, hbu_max (block_of u r) ≤ qe_base e) → enc_ok (set_qe_usage u e).
Proof. intros [] Hu. by split. Qed.

Lemma enc_ok_blocked e n : enc_ok e → enc_ok (set_blockedStreams n e).
Proof. intros []. by split. Qed.

Lemma newBlock_max u r b : 0 ≤ b → (∀ r, hbu_max (block_of u r) ≤ b) →
  hbu_max (block_of (newBlock u).2 r) ≤ b.
Proof.
  intros Hb Hu. unfold block_of. cbn. destruct (decide (r = nextBlock u)) as [->|].
  - by rewrite lookup_insert_eq.
  - rewrite lookup_insert_ne by done. apply Hu.
Qed.

Lemma block_of_stream id su u r : block_of (set_stream id su u) r = block_of u r.
Proof. done. Qed.

Lemma ut_get_blocks id u r : block_of (ut_get id u).2 r = block_of u r.
Proof. unfold ut_get. by destruct (tracker u !! id). Qed.

(** The state of a block before the table changes. *)
Lemma initHeaders_inv lower headers m hi ba r t : 0 ≤ tbase t →
  let st := setupUsage m hi ba r (initHeaders lower headers) in st_inv t st ∧ fresh st 0.
Proof.
  intros Ht. cbn zeta. unfold initHeaders, setupUsage. cbn. 
  assert (∀ (n i : nat), mjoin (replicate n (None : option (Entry qpackEntry)) !! i) = None) as Hnone.
  { intros n i. destruct (replicate n None !! i) as [o|] eqn:Hr; [|done].
    by apply lookup_replicate in Hr as [-> _]. }
  split; [split; cbn|].
  - by rewrite !length_replicate, length_fmap.
  - intros i en. unfold match_at. cbn. by rewrite Hnone.
  - intros i en. unfold name_at. cbn. by rewrite Hnone.
  - lia.
  - by left.
  - done.
  - intros j _. unfold match_at, name_at. cbn. by rewrite !Hnone.
Qed.

(** The table changes for the fields [hs]: the updates [us], and the encoder and
    the state of the block they leave. *)
Record prepared (e : QpackEncoder) (hs : list HeaderField) (us : list update) (e' : QpackEncoder)
    (st : qpackWriterState) : Prop := {
  pp_ok : Forall (update_ok (enc_pref e)) us;
  pp_length : zlen us ≤ zlen hs;
  pp_short M : Forall (field_short M) hs → Forall (update_short M) us;
  pp_apply : ∃ evs, updates_apply (qe_common_table e) us = Ok (qe_common_table e', evs);
  pp_enc : enc_ok e';
  pp_common : qe_common e' = qe_common e;
  pp_capacity : qe_capacity e' = qe_capacity e;
  pp_acked : highestAcknowledged e' = highestAcknowledged e;
  pp_base : qe_base e ≤ qe_base e' ≤ qe_base e + zlen hs;
  pp_inv : st_inv (qe_common_table e') st;
  pp_headers : ws_headers st = hs;
  pp_limit : maxBlockedStreams e' = maxBlockedStreams e;
  pp_unblocked : maxBlockedStreams e ≤ blockedStreams e → wasBlocked st = false →
    largestBase st ≤ highestAcknowledged e;
  pp_blocked : - 2 ^ 63 ≤ blockedStreams e → maxBlockedStreams e ≤ intMax →
    blockedStreams e ≤ blockedStreams e' ≤ Z.max (blockedStreams e) (maxBlockedStreams e);
}.

Section changes_spec.
Context {W : Type} `{IoWriterSpec W} `{!IoWriterTotal W}.

(** The state beside the stream of updates. *)
Definition chg (x : QpackEncoder * qpackWriterState) (w : bitWriter W) : changing W :=
  Changing x.1 w x.2.

#[local] Abbreviation cwrites := (swrites chg).

Lemma cwrites_on {A} (m : go (bitWriter W) A) a bits x : writes m a bits → cwrites (on_updates m) x bits a x.
Proof. by apply swrites_zoom. Qed.

Lemma cwrites_state f e st : cwrites (mod_state f) (e, st) [] tt (e, f st).
Proof. by apply swrites_step. Qed.

Lemma cwrites_encoder f e st : cwrites (mod_encoder f) (e, st) [] tt (f e, st).
Proof. by apply swrites_step. Qed.

Lemma cwrites_get {B} (k : changing W → go (changing W) B) x bits b x' :
  (∀ w, cwrites (k (chg x w)) x bits b x') → cwrites (getS ≫= k) x bits b x'.
Proof. apply swrites_get. Qed.

Lemma cwrites_lift {A} (o : outcome A) a x : o = Ok a → cwrites (lift o) x [] a x.
Proof. intros ->. by apply swrites_step. Qed.

Lemma cwrites_string v prefix pref x : 1 ≤ prefix ≤ 8 → string_ok pref v →
  cwrites (on_updates (WriteStringRaw v prefix pref)) x (string_bits v prefix pref) tt x.
Proof.
  intros Hp Hv. apply cwrites_on. destruct (string_ok_sizes _ _ Hv).
  apply WriteStringRaw_writes; unfold is_u64; lia.
Qed.

Lemma cwrites_int v prefix x : 0 ≤ v < 2 ^ 61 → 1 ≤ prefix ≤ 8 →
  cwrites (on_updates (WriteInt (u64 v) prefix)) x (int_bits prefix v) tt x.
Proof.
  intros Hv Hp. rewrite u64_small by lia. apply cwrites_on, WriteInt_writes; [unfold is_u64; lia|done].
Qed.

(** What an insertion comes to, for the field at [i] that has no match yet. *)
Lemma insert_stepped e st i h name value : enc_ok e → qe_base e < 2 ^ 60 → st_inv (qe_common_table e) st →
  ws_headers st !! i = Some h → h_Sensitive h = false → fresh st (S i) → match_at st i = None →
  name = h_Name h → value = h_Value h → ordinary (new_entry name value) →
  ∃ o e', cwrites (insert name value) (e, st) [] o (e', st) ∧
  match o with
  | None => stepped 0 (S i) (e, st) [] (e', st)
  | Some d =>
      qe_base e' = qe_base e + 1 ∧ changed e e' ∧
      ∀ u, update_ok (enc_pref e) u → (∀ M, field_short M h → update_short M u) →
        update_apply (qe_common_table e) u = insert_apply (qe_common_table e) name value →
        stepped 1 (S i) (e, st) [u] (e', recordMatch i (Some (Dynamic d)) None st)
  end.
Proof.
  intros Hok Hb Hinv Hh Hs Hf Hm -> -> Hord.
  destruct (insert_spec (W := W) e st (h_Name h) (h_Value h) Hok Hord Hb) as (o & e' & Hrun & Hok' & Hch & Hsp & Hres).
  exists o, e'. split; [by apply swrites_step|]. pose proof (cg_base _ _ Hch) as Hbase. destruct o as [d|].
  - destruct Hres as (-> & Hfit & Hcom). set (d := setBase _ _).
    assert (inserted (qe_common_table e) (new_entry (h_Name h) (h_Value h)) =
      TableCommon (d :: evicted (qe_common_table e) (qe_capacity e - Size (new_entry (h_Name h) (h_Value h))))
        (qe_capacity e) (Size (new_entry (h_Name h) (h_Value h)) +
          total (evicted (qe_common_table e) (qe_capacity e - Size (new_entry (h_Name h) (h_Value h)))))
        (qe_base e + 1)) as Hins.
    { unfold inserted. change (capacity (qe_common_table e)) with (qe_capacity e).
      by rewrite (proj2 (Z.ltb_ge _ _)). }
    assert (qe_base e' = qe_base e + 1) as Hb'
      by (change (qe_base e') with (tbase (qe_common_table e')); by rewrite Hcom, Hins).
    split_and!; [done|done|]. intros u Hu Hshort Hap.
    destruct (recordNew_inv (qe_common_table e') st i h d) as [Hinv' Hf']; try done.
    + by apply enc_table_wf.
    + rewrite Hcom. rewrite Hcom in Hsp. eapply st_inv_inserted; [by apply enc_table_wf|done|done|].
      rewrite <- Hcom. change (qe_base e ≤ qe_base e'). lia.
    + rewrite Hcom, Hins. by constructor.
    + unfold d. rewrite Base_setBase. pose proof (si_largest _ _ Hinv) as Hl.
      change (tbase (qe_common_table e)) with (qe_base e) in Hl. lia.
    + split; cbn [fst snd]; try done; [by repeat constructor| | |lia|apply recordMatch_frame].
      { intros M HM. constructor; [|done]. apply Hshort. rewrite Forall_forall in HM. by eapply HM, list_elem_of_lookup_2. }
      exists [EvAvailable (qe_base e + 1)]. cbn. rewrite Hap. unfold insert_apply.
      change (capacity (qe_common_table e)) with (qe_capacity e).
      rewrite (proj2 (Z.ltb_ge _ _)) by done. by rewrite Hcom.
  - split; cbn [fst snd]; try done.
    + exists []. by rewrite Hres.
    + change (tbase (qe_common_table e') ≤ tbase (qe_common_table e) + 0). rewrite Hres. lia.
    + by rewrite Hres.
Qed.

(** The reference in an instruction that follows the insertion. *)
Lemma index_after e' b d : qe_base e' = b + 1 → 0 ≤ b - Base d → b < 2 ^ 60 → 0 ≤ Base d →
  u64 (Index (qt_common (qe_table e')) (Dynamic d) - 1) = u64 (b - Base d).
Proof.
  intros Hb' Hd Hb H0'. cbn [Index]. change (tbase (qt_common (qe_table e'))) with (qe_base e').
  rewrite i64_small by lia. f_equal. lia.
Qed.

Lemma writeDuplicate_writes e st i h d : enc_ok e → qe_base e < 2 ^ 60 → st_inv (qe_common_table e) st →
  ws_headers st !! i = Some h → h_Sensitive h = false → fresh st (S i) → match_at st i = None →
  Name d = h_Name h → Value d = h_Value h → d ∈ qe_dynamic e →
  ∃ us x', cwrites (writeDuplicate d i) (e, st) (updates_bits (enc_pref e) us) tt x' ∧
    stepped 1 (S i) (e, st) us x'.
Proof.
  intros Hok Hb Hinv Hh Hs Hf Hm Hn Hv Hd.
  destruct (entry_ordinary e d Hok Hd) as [Hord Hsize].
  destruct (dynamic_base _ _ (enc_table_wf e Hok) Hd) as [HB _].
  change (tbase (qe_common_table e)) with (qe_base e) in HB.
  destruct (insert_stepped e st i h (Name d) (Value d)) as (o & e' & Hins & Hres); try done.
  unfold writeDuplicate. destruct o as [d'|].
  - destruct Hres as (Hb' & Hch & Hst).
    exists [UDuplicate (qe_base e - Base d)], (e', recordMatch i (Some (Dynamic d')) None st). split.
    + unfold updates_bits. cbn [fmap list_fmap mjoin list_join]. rewrite app_nil_r.
      change (update_bits _ _) with (zbits 3 0 ++ int_bits 5 (qe_base e - Base d)).
      eapply swrites_bind_l; [exact Hins|]. cbv beta iota.
      eapply swrites_bind; [by apply cwrites_on, WriteBits_writes|]. apply cwrites_get. intros w.
      cbn [chg ch_encoder fst]. rewrite (index_after e' (qe_base e) d) by lia.
      eapply swrites_bind_r; [apply cwrites_int; lia|apply cwrites_state].
    + apply Hst; [cbn [update_ok]; unfold index_ok, intMax; lia|done|]. unfold update_apply.
      assert (GetDynamic (qe_common_table e) (qe_base e - Base d) (tbase (qe_common_table e)) = Some d) as ->; [|done].
      change (tbase (qe_common_table e)) with (qe_base e). apply GetDynamic_spec; [by apply enc_table_wf|..|split; [done|lia]];
        change (tbase (qe_common_table e)) with (qe_base e); lia.
  - exists [], (e', st). split; [|by apply (stepped_weaken 0 1)].
    eapply swrites_bind_l; [exact Hins|apply swrites_ret].
Qed.

(** The instruction for an insertion with a name match. *)
Definition insert_update (e : QpackEncoder) (h : HeaderField) (nm : option (Entry qpackEntry)) : update :=
  match nm with
  | Some en => UInsertName (ref_of en (qe_base e)).1 (ref_of en (qe_base e)).2 (h_Value h)
  | None => UInsert (h_Name h) (h_Value h)
  end.

Lemma insert_update_ok e h nm : enc_ok e → qe_base e < 2 ^ 60 → field_ok (enc_pref e) h →
  (∀ en, nm = Some en → matches (h_Name h) en ∧ usable (qe_common_table e) en) →
  update_ok (enc_pref e) (insert_update e h nm) ∧
  update_apply (qe_common_table e) (insert_update e h nm) =
    insert_apply (qe_common_table e) (h_Name h) (h_Value h) ∧
  (∀ en, nm = Some en → 0 ≤ (ref_of en (qe_base e)).2 < 2 ^ 61).
Proof.
  intros Hok Hb [Hn Hv] Hnm. destruct nm as [en|]; [|done]. destruct (Hnm en eq_refl) as [Hm Hu].
  destruct (entry_at_ref (qe_common_table e) en (qe_base e)) as [Hat Hidx];
    [by apply enc_table_wf|split; [by apply enc_base_nonneg|done]|done|done| |].
  { destruct en as [s|d]; [done|]. unfold below. apply (dynamic_base _ _ (enc_table_wf e Hok) Hu). }
  split_and!; [cbn; split; [unfold index_ok, intMax; lia|done]| |by intros en' [= <-]].
  cbn [insert_update update_apply]. change (tbase (qe_common_table e)) with (qe_base e).
  rewrite Hat. by rewrite Hm.
Qed.

(** The bits of an insertion, written when the entry is in the table [e']. *)
Lemma writeInsert_bits e e' st h nm f : field_ok (enc_pref e) h → enc_pref e' = enc_pref e →
  qe_base e' = qe_base e + 1 → 0 ≤ qe_base e < 2 ^ 60 →
  (∀ en, nm = Some en → 0 ≤ (ref_of en (qe_base e)).2 < 2 ^ 61 ∧
     match en with Static _ => True | Dynamic d => 0 ≤ Base d end) →
  cwrites (on_updates (WriteBits (match nm with
             | Some (Dynamic _) => 2 | Some (Static _) => 3 | None => 1 end) 2);;
           s ← getS;
           let t := qt_common (qe_table (ch_encoder s)) in
           let pref := HuffmanPreference (qe_common (ch_encoder s)) in
           match nm with
           | None => on_updates (WriteStringRaw (h_Name h) 5 pref)
           | Some (Dynamic d) => on_updates (WriteInt (u64 (Index t (Dynamic d) - 1)) 6)
           | Some (Static st) => on_updates (WriteInt (u64 (Index t (Static st))) 6)
           end;;
           on_updates (WriteStringRaw (h_Value h) 7 pref);;
           mod_state f) (e', st)
    (update_bits (enc_pref e) (insert_update e h nm)) tt (e', f st).
Proof.
  intros [Hn Hv] Hpref Hb' Hb Hnm.
  assert (∃ ib nb, update_bits (enc_pref e) (insert_update e h nm) =
      zbits 2 (match nm with Some (Dynamic _) => 2 | Some (Static _) => 3 | None => 1 end) ++
      nb ++ string_bits (h_Value h) 7 (enc_pref e) ∧
    nb = match nm with Some en => int_bits 6 ib | None => string_bits (h_Name h) 5 (enc_pref e) end ∧
    match nm with Some en => ib = (ref_of en (qe_base e)).2 | None => True end) as (ib & nb & -> & -> & Hib).
  { destruct nm as [[s|d]|]; [exists (se_index s)|exists (qe_base e - Base d)|exists 0]; by eexists. }
  eapply swrites_bind; [apply cwrites_on, WriteBits_writes; by destruct nm as [[]|]|].
  apply cwrites_get. intros w. cbn [chg ch_encoder fst snd]. fold (enc_pref e'). rewrite Hpref.
  eapply swrites_bind; [|eapply swrites_bind_r; [by apply cwrites_string|apply cwrites_state]].
  destruct nm as [[s|d]|]; subst; [| |by apply cwrites_string].
  - destruct (Hnm _ eq_refl) as [? _]. cbn [ref_of snd Index] in *. by apply cwrites_int.
  - destruct (Hnm _ eq_refl) as [? ?]. cbn [ref_of snd] in *.
    rewrite (index_after e' (qe_base e) d) by lia. by apply cwrites_int.
Qed.

Lemma changed_pref e e' : changed e e' → enc_pref e' = enc_pref e.
Proof. intros Hc. unfold enc_pref. by rewrite (cg_common _ _ Hc). Qed.

Lemma writeInsert_writes e st i h nm : enc_ok e → qe_base e < 2 ^ 60 → st_inv (qe_common_table e) st →
  ws_headers st !! i = Some h → h_Sensitive h = false → fresh st (S i) → match_at st i = None →
  field_ok (enc_pref e) h →
  (∀ en, nm = Some en → matches (h_Name h) en ∧ usable (qe_common_table e) en) →
  ∃ us x', cwrites (writeInsert h i nm) (e, st) (updates_bits (enc_pref e) us) tt x' ∧
    stepped 1 (S i) (e, st) us x'.
Proof.
  intros Hok Hb Hinv Hh Hs Hf Hm Hfield Hnm. pose proof Hfield as [Hn Hv].
  destruct (Size_new_entry _ _ _ Hn Hv) as [_ Hord].
  destruct (insert_update_ok e h nm Hok Hb Hfield Hnm) as (Huok & Hap & Hidx).
  destruct (insert_stepped e st i h (h_Name h) (h_Value h)) as (o & e' & Hins & Hres); try done.
  unfold writeInsert. destruct o as [d|].
  - destruct Hres as (Hb' & Hch & Hst).
    exists [insert_update e h nm], (e', recordMatch i (Some (Dynamic d)) None st). split; [|apply Hst; [done| |done]; intros M [? ?]; by destruct nm].
    unfold updates_bits. cbn [fmap list_fmap mjoin list_join]. rewrite app_nil_r.
    eapply swrites_bind_l; [exact Hins|].
    apply writeInsert_bits; [done|by apply changed_pref|done|split; [by apply enc_base_nonneg|done]|].
    intros en Hen. split; [by apply Hidx|]. destruct en as [s|d0]; [done|].
    destruct (Hnm _ Hen) as [_ Hu]. pose proof (dynamic_base _ _ (enc_table_wf e Hok) Hu). lia.
  - exists [], (e', st). split; [|by apply (stepped_weaken 0 1)].
    eapply swrites_bind_l; [exact Hins|apply swrites_ret].
Qed.

(** What one step of the table changes comes to. *)
Definition steps_to (n : Z) (i : nat) (m : go (changing W) unit) (x : QpackEncoder * qpackWriterState) : Prop :=
  ∃ us x', cwrites m x (updates_bits (enc_pref x.1) us) tt x' ∧ stepped n i x us x'.

Lemma steps_ret i e st : enc_ok e → st_inv (qe_common_table e) st → fresh st i →
  steps_to 1 i (mret tt) (e, st).
Proof.
  intros. exists [], (e, st). split; [apply swrites_ret|].
  by apply (stepped_weaken 0 1), stepped_nil.
Qed.

Lemma steps_lookup {A} n i (o : outcome A) a k x : o = Ok a → steps_to n i (k a) x →
  steps_to n i (lift o ≫= k) x.
Proof.
  intros Ho (us & x' & Hw & Hst). exists us, x'. split; [|done].
  eapply swrites_bind_l; [by apply cwrites_lift|done].
Qed.

Lemma steps_get n i k m x : (∀ w, k (chg x w) = m) → steps_to n i m x → steps_to n i (getS ≫= k) x.
Proof.
  intros Heq (us & x' & Hw & Hst). exists us, x'. split; [|done]. apply cwrites_get. intros w. by rewrite Heq.
Qed.

Lemma steps_state n i f k e st : enc_ok e → st_inv (qe_common_table e) (f st) → fresh (f st) (S i) →
  st_frame st (f st) → steps_to n (S i) k (e, f st) → steps_to n (S i) (mod_state f;; k) (e, st).
Proof.
  intros Hok Hinv Hf Hfr (us & x' & Hw & Hst). exists us, x'. split.
  - eapply swrites_bind_l; [apply cwrites_state|done].
  - apply (stepped_trans 0 n (S i) (S i) _ [] _ us _ (stepped_state _ e st (f st) Hok Hinv Hf Hfr) Hst).
Qed.

Lemma steps_record i f e st : enc_ok e → st_inv (qe_common_table e) (f st) → fresh (f st) (S i) →
  st_frame st (f st) → steps_to 1 (S i) (mod_state f) (e, st).
Proof.
  intros Hok Hinv Hf Hfr. exists [], (e, f st). split; [apply cwrites_state|].
  by apply (stepped_weaken 0 1), stepped_state.
Qed.

(** The field at [i]. *)
Lemma changeFor_steps e st i h : enc_ok e → qe_base e < 2 ^ 60 → st_inv (qe_common_table e) st →
  0 ≤ maxBase st → ws_headers st !! i = Some h → fresh st i → field_ok (enc_pref e) h →
  steps_to 1 (S i) (changeFor i h) (e, st).
Proof.
  intros Hok Hb Hinv Hmax Hh Hf Hfield. pose proof (eo_table _ Hok) as Hwf.
  pose proof (enc_table_wf e Hok) as Htwf. apply fresh_S in Hf as HfS.
  unfold changeFor. destruct (h_Sensitive h) eqn:Hs; [by apply steps_ret|].
  eapply steps_get; [intros w; cbn [chg ch_encoder ch_state fst snd]; reflexivity|]. cbv zeta.
  destruct (LookupReferenceable_spec (qe_table e) (h_Name h) (h_Value h) (maxBase st) Hwf Hmax)
    as (full & nm & Hlk & Hfull & Hnm).
  eapply steps_lookup; [exact Hlk|]. cbv beta iota.
  destruct full as [en|].
  { destruct (recordMatch_inv _ st i h (Some en) nm Htwf Hinv Hh Hs Hf Hfull Hnm) as (? & ? & _).
    apply steps_record; [done..|apply recordMatch_frame]. }
  destruct (LookupBlocked_spec (qe_table e) (h_Name h) (h_Value h) (maxBase st) Hwf) as [b Hbl].
  eapply steps_lookup; [exact Hbl|]. destruct b; [by apply steps_ret|].
  destruct (LookupExtra_spec (qe_table e) (h_Name h) (h_Value h) Hwf) as (o & Hex & Hdup).
  eapply steps_lookup; [exact Hex|]. cbv beta iota.
  destruct o as [d|].
  { destruct (Hdup d eq_refl) as (Hd & Hn & Hv). destruct (_ <=? _); [|by apply steps_ret].
    apply (writeDuplicate_writes e st i h d); try done. by apply (Hf i). }
  assert (∀ st', st_inv (qe_common_table e) st' → st_frame st st' → fresh st' (S i) →
    match_at st' i = None →
    steps_to 1 (S i) (let insertNameMatch := match nm with
                                 | Some _ => nm
                                 | None => Dynamic <$> None
                                 end in
          if shouldIndex (qe_common e) (qe_capacity e) h && (HeaderField_size h <=? qe_capacity e)
          then writeInsert h i insertNameMatch else mret tt) (e, st')) as Hins.
  { intros st' Hinv' Hfr Hf' Hm'. cbv zeta. destruct (_ && _); [|by apply steps_ret].
    apply writeInsert_writes; try done.
    - by rewrite (sf_headers _ _ Hfr).
    - intros en Hen. apply Hnm. by destruct nm. }
  destruct nm as [en|].
  - destruct (recordMatch_inv _ st i h None (Some en) Htwf Hinv Hh Hs Hf ltac:(done) Hnm) as (? & ? & Hm').
    apply steps_state; [done..|apply recordMatch_frame|].
    apply Hins; [done|apply recordMatch_frame|done|by apply Hm'].
  - destruct (Hins st Hinv ltac:(reflexivity) HfS (proj1 (Hf i ltac:(lia)))) as (us & x' & Hw & Hst).
    exists us, x'. split; [|done]. eapply swrites_bind_l; [apply swrites_ret|exact Hw].
Qed.

Lemma changesFor_steps hs e st i : enc_ok e → qe_base e + zlen hs ≤ 2 ^ 60 → st_inv (qe_common_table e) st →
  0 ≤ maxBase st → drop i (ws_headers st) = hs → fresh st i → Forall (field_ok (enc_pref e)) hs →
  steps_to (zlen hs) (i + length hs) (changesFor i hs) (e, st).
Proof.
  revert e st i. induction hs as [|h hs IH]; intros e st i Hok Hb Hinv Hmax Hdrop Hf Hfields; cbn [changesFor].
  { exists [], (e, st). split; [apply swrites_ret|]. rewrite Nat.add_0_r. by apply stepped_nil. }
  inversion Hfields as [|?? Hh Hhs]; subst. pose proof (zlen_nonneg hs). rewrite zlen_cons in *.
  destruct (changeFor_steps e st i h Hok ltac:(lia) Hinv Hmax) as (us1 & [e1 st1] & Hw1 & Hst1); [|done|done|].
  { by rewrite <- (Nat.add_0_r i), <- lookup_drop, Hdrop. }
  pose proof Hst1 as [_ _ _ _ He1 Hc1 Hb1 Hi1 Hf1 Hs1]. cbn [fst snd] in *.
  destruct (IH e1 st1 (S i)) as (us2 & x2 & Hw2 & Hst2); try done; [lia| | |..].
  - by rewrite (sf_maxBase _ _ Hs1).
  - rewrite (sf_headers _ _ Hs1). by rewrite <- (Nat.add_1_r i), <- drop_drop, Hdrop.
  - by rewrite (changed_pref _ _ Hc1).
  - cbn [fst snd] in *. exists (us1 ++ us2), x2. split.
    + rewrite updates_bits_app. rewrite (changed_pref _ _ Hc1) in Hw2. by eapply swrites_bind.
    + replace (i + length (h :: hs))%nat with (S i + length hs)%nat by (cbn [length]; lia).
      by eapply stepped_trans.
Qed.

(** What [writeTableChanges] does after the changes: it counts a stream that is newly
    blocked, and records the block's usage. *)
Definition counted (st : qpackWriterState) (e : QpackEncoder) : QpackEncoder :=
  if isNewlyBlocked (highestAcknowledged e) st then set_blockedStreams (i64 (blockedStreams e + 1)) e else e.

Definition recorded (id : Z) (su : list nat) (st : qpackWriterState) (e : QpackEncoder) : QpackEncoder :=
  if 0 <? largestBase st then set_qe_usage (set_stream id (Some (su ++ [uses st])) (qe_usage e)) e else e.

Lemma recorded_counted_ok id su st e : enc_ok e → enc_ok (recorded id su st (counted st e)).
Proof.
  intros Hok. unfold counted, recorded. assert (∀ n, enc_ok (set_blockedStreams n e)) as Hb by (intros n; by apply enc_ok_blocked).
  destruct (isNewlyBlocked _ _), (0 <? _); try done; (apply enc_ok_usage; [done|]); intros r; rewrite block_of_stream; apply (eo_usage _ Hok).
Qed.

Lemma recorded_counted_same id su st e (e' := recorded id su st (counted st e)) :
  qe_table e' = qe_table e ∧ qe_common e' = qe_common e ∧ highestAcknowledged e' = highestAcknowledged e ∧
  maxBlockedStreams e' = maxBlockedStreams e ∧ blockedStreams e' = blockedStreams (counted st e).
Proof. unfold e', recorded, counted. by destruct (isNewlyBlocked _ _), (0 <? _). Qed.

(** A block that was set up on a stream that is not blocked stays below the
    acknowledged entries, unless it may block. *)
Lemma setup_limit m acked allowed r st0 st : wasBlocked st = wasBlocked (setupUsage m acked allowed r st0) →
  maxBase st = maxBase (setupUsage m acked allowed r st0) → (0 ≤ maxBase st → largestBase st ≤ maxBase st) → 0 ≤ acked →
  wasBlocked st = false → allowed = true ∨ largestBase st ≤ acked.
Proof.
  unfold setupUsage. cbn [wasBlocked maxBase]. intros Hw Hm Hlim Ha Hwas.
  destruct (_ <? m); [congruence|]. destruct allowed; [by left|right]. rewrite Hm in Hlim. by apply Hlim.
Qed.

Lemma writeTableChanges_writes lower id headers e : enc_ok e → qe_base e + zlen headers ≤ 2 ^ 60 →
  let st0 := initHeaders lower headers in Forall (field_ok (enc_pref e)) (ws_headers st0) →
  ∃ us e' st', cwrites (writeTableChanges id) (e, st0) (updates_bits (enc_pref e) us) tt (e', st') ∧
    prepared e (ws_headers st0) us e' st'.
Proof.
  intros Hok Hb st0 Hfields. pose proof (enc_base_nonneg e Hok) as Hb0. pose proof (eo_acked _ Hok) as Hacked.
  assert (zlen (ws_headers st0) = zlen headers) as Hlen by (unfold zlen; cbn; by rewrite length_fmap).
  set (g := ut_get id (qe_usage e)). set (n := newBlock g.2). set (allowed := blockedStreams e <? maxBlockedStreams e).
  set (e1 := set_qe_usage n.2 e). set (st1 := setupUsage (su_max g.2 g.1) (highestAcknowledged e) allowed n.1 st0).
  assert (enc_ok e1) as Hok1.
  { apply enc_ok_usage; [done|]. intros r. apply newBlock_max; [done|]. intros r'.
    unfold g. rewrite ut_get_blocks. apply (eo_usage _ Hok). }
  destruct (initHeaders_inv lower headers (su_max g.2 g.1) (highestAcknowledged e) allowed n.1 (qe_common_table e1) Hb0) as [Hinv1 Hf1].
  destruct (changesFor_steps (ws_headers st0) e1 st1 0 Hok1) as (us & [e2 st2] & Hw & Hst);
    [change (qe_base e1) with (qe_base e); lia|done| |done|done|done|].
  { unfold st1, setupUsage, intMax. cbn [maxBase]. destruct (_ <? su_max _ _), allowed; lia. }
  destruct Hst as [Hus Hl Hshort [evs Hap] Hok2 Hch Hb2 Hinv2 _ Hfr]. cbn [fst snd] in *.
  exists us, (recorded id g.1 st2 (counted st2 e2)), st2. split.
  - unfold writeTableChanges. apply cwrites_get. intros w. cbn [chg ch_encoder ch_state fst snd].
    fold g. rewrite (surjective_pairing g). fold n. rewrite (surjective_pairing n).
    eapply swrites_bind_l; [apply cwrites_encoder|]. eapply swrites_bind_l; [apply cwrites_state|].
    eapply swrites_bind_r; [exact Hw|]. apply cwrites_get. intros w'. cbn [chg ch_encoder ch_state fst snd].
    eapply (swrites_bind_l _ _ _ _ _ _ (counted st2 e2, st2)).
    + unfold counted. destruct (isNewlyBlocked _ _); [by apply swrites_step|apply swrites_ret].
    + unfold recorded. destruct (0 <? _); [by apply swrites_step|apply swrites_ret].
  - destruct (recorded_counted_same id g.1 st2 e2) as (Ht & Hc & Ha & Hm & Hbl).
    pose proof (recorded_counted_ok id g.1 st2 e2 Hok2) as Hok4.
    destruct Hch as [Cc _ Cm Ca Cb _ Ccap Cbase].
    change (qe_base e1) with (qe_base e) in *. change (qe_capacity e1) with (qe_capacity e) in *.
    change (enc_pref e1) with (enc_pref e) in *. change (qe_common_table e1) with (qe_common_table e) in *.
    change (blockedStreams e1) with (blockedStreams e) in Cb. change (highestAcknowledged e1) with (highestAcknowledged e) in Ca.
    pose proof (setup_limit _ _ _ _ _ st2 (sf_wasBlocked _ _ Hfr) (sf_maxBase _ _ Hfr) (si_limit _ _ Hinv2) Hacked) as Hlim.
    split; unfold qe_common_table, qe_capacity, qe_base in *; rewrite ?Ht, ?Hc, ?Ha, ?Hm, ?Hbl;
      [done|done|exact Hshort|by exists evs|done|done|done|done|lia|done|by rewrite (sf_headers _ _ Hfr)|done| |].
    + intros Hat Hwas. destruct (Hlim Hwas) as [Hyes|]; [|done]. apply Z.ltb_lt in Hyes. lia.
    + intros Hlow Hhigh. unfold counted, isNewlyBlocked. destruct (wasBlocked st2); [rewrite Cb; lia|].
      destruct (Z.ltb_spec (highestAcknowledged e2) (largestBase st2)); [|rewrite Cb; lia].
      destruct (Hlim eq_refl) as [Hyes%Z.ltb_lt|]; [|lia]. cbn [set_blockedStreams blockedStreams]. unfold intMax in *.
      rewrite Cb, i64_small by lia. lia.
Qed.
End changes_spec.

(** ** The block an encoder writes *)

(** The table holds every entry the block will refer to. *)
Definition live (t : qpackTableCommon) (st : qpackWriterState) : Prop :=
  ∀ i en, used_at st i = Some en → usable t en.

Lemma used_below t st i en : st_inv t st → used_at st i = Some en → below en (largestBase st).
Proof.
  intros [_ Hmatch Hname _ _ _]. unfold used_at. destruct (match_at st i) as [en'|] eqn:Hm.
  - intros [= ->]. apply (fo_below _ _ _ _ (Hmatch _ _ Hm)).
  - intros Hn. apply (no_below _ _ _ _ (Hname _ _ Hn)).
Qed.

(** The line for the field [h] at [i]. *)
Definition line_of (st : qpackWriterState) (i : nat) (h : HeaderField) : line :=
  let b := largestBase st in
  match match_at st i with
  | Some en => LIndexed (ref_of en b).1 (ref_of en b).2
  | None =>
      match name_at st i with
      | Some en => LNameRef (h_Sensitive h) (ref_of en b).1 (ref_of en b).2 (h_Value h)
      | None => LLiteral (h_Sensitive h) (h_Name h) (h_Value h)
      end
  end.

(** The lines of an encoder count back from the largest reference. *)
Definition backward (l : line) : Prop :=
  match l with LPostIndexed _ | LPostNameRef _ _ _ => False | _ => True end.

Lemma line_of_spec pref t st i h : table_wf t → tbase t < 2 ^ 60 → st_inv t st → live t st →
  ws_headers st !! i = Some h → field_ok pref h →
  line_ok pref (line_of st i h) ∧ line_value t (largestBase st) (line_of st i h) = Some h ∧
  (∀ en, used_at st i = Some en → 0 ≤ (ref_of en (largestBase st)).2 < 2 ^ 61).
Proof.
  intros Hwf Hb Hinv Hlive Hh [Hn Hv]. pose proof Hinv as [_ Hmatch Hname Hlb _ _].
  assert (∀ en, used_at st i = Some en →
    entry_at t (ref_of en (largestBase st)).1 (ref_of en (largestBase st)).2 (largestBase st) = Some en ∧
    0 ≤ (ref_of en (largestBase st)).2 < 2 ^ 61) as Hat.
  { intros en Hen. apply entry_at_ref; [done|done|done|by eapply Hlive|by eapply used_below]. }
  unfold line_of. unfold used_at in *.
  destruct (match_at st i) as [en|] eqn:Hm; [|destruct (name_at st i) as [en|] eqn:Hnm].
  - destruct (Hat en eq_refl) as [Hent Hidx]. split_and!; [cbn; unfold index_ok, intMax; lia| |by intros en' [= <-]].
    destruct (fo_header _ _ _ _ (Hmatch _ _ Hm)) as (h' & Hh' & [Hn' Hv'] & Hs). rewrite Hh in Hh'.
    injection Hh' as <-. cbn. rewrite Hent. cbn. rewrite Hn', Hv', <- Hs. by destruct h.
  - destruct (Hat en eq_refl) as [Hent Hidx].
    split_and!; [cbn; split; [unfold index_ok, intMax; lia|done]| |by intros en' [= <-]].
    destruct (no_header _ _ _ _ (Hname _ _ Hnm)) as (h' & Hh' & Hn' & Hs). rewrite Hh in Hh'.
    injection Hh' as <-. cbn. rewrite Hent. cbn. unfold matches in Hn'. rewrite Hn'. by destruct h.
  - split_and!; [done| |done]. cbn. by destruct h.
Qed.

(** What [addUse] does to the usage. *)
Definition use_entry (st : qpackWriterState) (i : nat) (u : qpackUsage) : qpackUsage :=
  match used_at st i with Some (Dynamic d) => hbu_add (uses st) (Base d) u | _ => u end.

Lemma use_entry_max st i u b r : (∀ en, used_at st i = Some en → below en b) →
  (∀ r, hbu_max (block_of u r) ≤ b) → hbu_max (block_of (use_entry st i u) r) ≤ b.
Proof.
  intros Hen Hu. unfold use_entry. destruct (used_at st i) as [[s|d]|]; [done| |done].
  specialize (Hen _ eq_refl). cbn in Hen. unfold hbu_add, block_of at 1. cbn.
  destruct (decide (r = uses st)) as [->|].
  - rewrite lookup_insert_eq. cbn. destruct (_ <? _); [done|apply Hu].
  - rewrite lookup_insert_ne by done. apply Hu.
Qed.

(** ** The largest reference *)

Lemma window_quotient full x m : 0 < full → m - full < x ≤ m →
  x / full = m / full ∨ (x / full = m / full - 1 ∧ m mod full < x mod full).
Proof.
  intros Hf Hx. pose proof (Z.div_mod x full). pose proof (Z.div_mod m full).
  pose proof (Z.mod_pos_bound x full Hf). pose proof (Z.mod_pos_bound m full Hf).
  destruct (Z.lt_trichotomy (x / full) (m / full)) as [Hlt|[Heq|Hgt]]; [right|by left|nia].
  assert (x / full = m / full - 1) by nia. split; [done|]. nia.
Qed.

(** The largest reference survives its modular encoding when it is less than a
    full table ahead of or behind the inserts the decoder has seen. *)
Lemma largest_base_window (t : qpackTableCommon) lb :
  32 ≤ capacity t < 2 ^ 60 → 0 ≤ tbase t < 2 ^ 60 → 0 ≤ lb < 2 ^ 60 →
  tbase t - capacity t / 32 < lb ≤ tbase t + capacity t / 32 →
  ∃ raw, encodeLargestReference (capacity t) lb = Ok raw ∧ is_u64 raw ∧
         decodeLargestBase t raw = Ok lb.
Proof.
  intros Hc Hb Hlb Hwin. unfold encodeLargestReference, decodeLargestBase, entryOverhead.
  assert (1 ≤ capacity t / 32 < 2 ^ 55) as HM by (Z.to_euclidean_division_equations; lia).
  set (M := capacity t / 32) in *. rewrite (u64_small M), (u64_small (2 * M)), (u64_small (M * 2)),
    (u64_small (tbase t)), (u64_small (tbase t + M)), (u64_small lb) by lia.
  rewrite (Z.mul_comm M 2). set (full := 2 * M). assert (0 < full < 2 ^ 56) as Hfull by lia.
  rewrite (proj2 (Z.eqb_neq full 0)) by lia.
  destruct (Z.eqb_spec lb 0) as [->|Hne]; [exists 0; by split_and!|].
  pose proof (Z.mod_pos_bound lb full ltac:(lia)) as Hr.
  pose proof (Z.div_mod (tbase t + M) full ltac:(lia)) as Hdm.
  pose proof (Z.mod_pos_bound (tbase t + M) full ltac:(lia)).
  pose proof (Z.div_mod lb full ltac:(lia)) as Hdl.
  rewrite (u64_small (lb mod full + 1)) by lia.
  exists (lb mod full + 1). split; [done|split; [unfold is_u64; lia|]].
  rewrite (proj2 (Z.eqb_neq (lb mod full + 1) 0)) by lia.
  assert (0 ≤ (tbase t + M) / full) by (apply Z.div_pos; lia).
  rewrite (u64_small (_ / full * full)) by nia.
  rewrite (u64_small (_ + (lb mod full + 1))), (u64_small (_ - 1)) by nia.
  destruct (window_quotient full lb (tbase t + M)) as [Hq|[Hq Hlt]]; [lia|lia|..].
  - assert ((tbase t + M) / full * full + (lb mod full + 1) - 1 = lb) as -> by nia.
    rewrite (proj2 (Z.ltb_ge (tbase t + M) lb)) by lia. cbn [andb]. by rewrite i64_small by lia.
  - set (lr := (tbase t + M) / full * full + (lb mod full + 1) - 1).
    assert (lr = lb + full) as -> by (unfold lr; nia).
    rewrite (proj2 (Z.ltb_lt (tbase t + M) (lb + full))), (proj2 (Z.leb_le full (lb + full))) by lia.
    cbn [andb]. rewrite u64_small by lia. by rewrite i64_small; [f_equal|]; lia.
Qed.

(** A table holds no more entries than its capacity allows. *)
Lemma sized_count dyn : Forall sized dyn → 32 * zlen dyn ≤ total dyn.
Proof.
  induction 1 as [|d dyn Hd _ IH]; [done|]. rewrite zlen_cons. unfold sized, entryOverhead in Hd.
  cbn [total]. lia.
Qed.

(** The largest reference of a block, when it is the base of a live entry. *)
Lemma largest_live qt td d : etable_wf qt → capacity (qt_common qt) < 2 ^ 60 → tbase (qt_common qt) < 2 ^ 60 →
  d ∈ dynamic (qt_common qt) → capacity td = capacity (qt_common qt) →
  0 ≤ tbase td ≤ tbase (qt_common qt) → Base d ≤ tbase td + capacity td / 32 →
  ∃ raw, encodeLargestReference (capacity (qt_common qt)) (Base d) = Ok raw ∧ is_u64 raw ∧
         decodeLargestBase td raw = Ok (Base d).
Proof.
  intros [Hwf _ _ _ Hsz] Hcap Hb Hd Hc Htd Hahead. pose proof (dynamic_base _ _ Hwf Hd) as [HB Hidx].
  pose proof (sized_count _ Hsz). pose proof (wf_fits _ Hwf).
  assert (0 < zlen (dynamic (qt_common qt))).
  { apply list_elem_of_lookup in Hd as [j Hj%lookup_lt_Some]. unfold zlen. lia. }
  rewrite <- Hc. apply largest_base_window; [lia|lia|lia|].
  rewrite Hc in *. Z.to_euclidean_division_equations. lia.
Qed.

Lemma addUse_step {W} i (s : writing W) : addUse i s =
  (Ok tt, Writing (set_qe_usage (use_entry (wr_state s) i (qe_usage (wr_encoder s))) (wr_encoder s))
            (wr_block s) (wr_state s)).
Proof.
  destruct s as [e w st]. unfold addUse, use_entry, used_at, match_at, name_at, modS. cbn.
  destruct (mjoin (ws_matches st !! i)) as [[s|d]|]; [by destruct e|done|].
  destruct (mjoin (ws_nameMatches st !! i)) as [[s|d]|]; [by destruct e|done|by destruct e].
Qed.

Section block_spec.
Context {W : Type} `{IoWriterSpec W} `{!IoWriterTotal W}.

(** The state beside the writer of the block. *)
Definition wrt (x : QpackEncoder * qpackWriterState) (w : bitWriter W) : writing W :=
  Writing x.1 w x.2.

#[local] Abbreviation wwrites := (swrites wrt).

Lemma wwrites_on {A} (m : go (bitWriter W) A) a bits x : writes m a bits → wwrites (on_block m) x bits a x.
Proof. by apply swrites_zoom. Qed.

Lemma wwrites_get {B} (k : writing W → go (writing W) B) x bits b x' :
  (∀ w, wwrites (k (wrt x w)) x bits b x') → wwrites (getS ≫= k) x bits b x'.
Proof. apply swrites_get. Qed.

Lemma wwrites_string v prefix pref x : 1 ≤ prefix ≤ 8 → string_ok pref v →
  wwrites (on_block (WriteStringRaw v prefix pref)) x (string_bits v prefix pref) tt x.
Proof.
  intros Hp Hv. apply wwrites_on. destruct (string_ok_sizes _ _ Hv).
  apply WriteStringRaw_writes; unfold is_u64; lia.
Qed.

Lemma wwrites_int v prefix x : 0 ≤ v < 2 ^ 61 → 1 ≤ prefix ≤ 8 →
  wwrites (on_block (WriteInt (u64 v) prefix)) x (int_bits prefix v) tt x.
Proof.
  intros Hv Hp. rewrite u64_small by lia. apply wwrites_on, WriteInt_writes; [unfold is_u64; lia|done].
Qed.

Lemma wwrites_bits v n x : 0 ≤ n ≤ 64 → 0 ≤ v < 2 ^ n → wwrites (on_block (WriteBits v n)) x (zbits n v) tt x.
Proof. intros. by apply wwrites_on, WriteBits_writes. Qed.

Lemma addUse_writes i e st :
  wwrites (addUse i) (e, st) [] tt (set_qe_usage (use_entry st i (qe_usage e)) e, st).
Proof. apply swrites_step. intros bw. by rewrite addUse_step. Qed.

Lemma entry_Index_small d b : 0 ≤ b - Base d < 2 ^ 61 → entry_Index d b = b - Base d.
Proof. intros. unfold entry_Index. by rewrite i64_small by lia. Qed.

Lemma writeIndexed_writes i e st en : used_at st i = Some en →
  0 ≤ (ref_of en (largestBase st)).2 < 2 ^ 61 →
  wwrites (writeIndexed en i) (e, st)
    (line_bits (enc_pref e) (LIndexed (ref_of en (largestBase st)).1 (ref_of en (largestBase st)).2)) tt
    (set_qe_usage (use_entry st i (qe_usage e)) e, st).
Proof.
  intros Hu Hidx. apply wwrites_get. intros w. cbn [wrt wr_state wr_encoder fst snd].
  eapply swrites_bind_r; [|apply addUse_writes].
  destruct en as [s|d]; cbn [ref_of fst snd] in *.
  - change (line_bits _ _) with (zbits 2 3 ++ int_bits 6 (se_index s)).
    eapply swrites_bind; [by apply wwrites_bits|]. by apply wwrites_int.
  - rewrite entry_Index_small, (proj2 (Z.ltb_ge _ _)) by lia.
    change (line_bits _ _) with (zbits 2 2 ++ int_bits 6 (largestBase st - Base d)).
    eapply swrites_bind; [by apply wwrites_bits|]. by apply wwrites_int.
Qed.

Lemma writeLiteralNameReference_writes (sensitive : bool) e st en :
  0 ≤ (ref_of en (largestBase st)).2 < 2 ^ 61 →
  wwrites (writeLiteralNameReference (if sensitive then 1 else 0) en) (e, st)
    (false :: true :: sensitive :: (ref_of en (largestBase st)).1 :: int_bits 4 (ref_of en (largestBase st)).2)
    tt (e, st).
Proof.
  intros Hidx. apply wwrites_get. intros w. cbn [wrt wr_state wr_encoder fst snd].
  destruct en as [s|d]; cbn [ref_of fst snd] in *.
  - replace (false :: true :: sensitive :: true :: int_bits 4 (se_index s)) with
      (zbits 4 (Z.lor 5 (Z.shiftl (if sensitive then 1 else 0) 1)) ++ int_bits 4 (se_index s))
      by by destruct sensitive.
    eapply swrites_bind; [apply wwrites_bits; [done|by destruct sensitive]|]. by apply wwrites_int.
  - rewrite entry_Index_small, (proj2 (Z.ltb_ge _ _)) by lia.
    replace (false :: true :: sensitive :: false :: int_bits 4 (largestBase st - Base d)) with
      (zbits 4 (Z.lor 4 (Z.shiftl (if sensitive then 1 else 0) 1)) ++ int_bits 4 (largestBase st - Base d))
      by by destruct sensitive.
    eapply swrites_bind; [apply wwrites_bits; [done|by destruct sensitive]|]. by apply wwrites_int.
Qed.

Lemma writeLiteral_writes i h e st : match_at st i = None → field_ok (enc_pref e) h →
  (∀ en, name_at st i = Some en → 0 ≤ (ref_of en (largestBase st)).2 < 2 ^ 61) →
  wwrites (writeLiteral h i) (e, st) (line_bits (enc_pref e) (line_of st i h)) tt
    (set_qe_usage (use_entry st i (qe_usage e)) e, st).
Proof.
  intros Hm [Hn Hv] Hidx. apply wwrites_get. intros w. cbn [wrt wr_state wr_encoder fst snd].
  unfold line_of. rewrite Hm. fold (name_at st i). fold (enc_pref e).
  destruct (name_at st i) as [en|] eqn:Hnm.
  - change (line_bits _ (LNameRef ?s ?r ?ix ?v)) with
      ((false :: true :: s :: r :: int_bits 4 ix) ++ string_bits v 7 (enc_pref e)).
    eapply swrites_bind; [by apply writeLiteralNameReference_writes, Hidx|].
    eapply swrites_bind_r; [by apply wwrites_string|apply addUse_writes].
  - replace (line_bits (enc_pref e) (LLiteral (h_Sensitive h) (h_Name h) (h_Value h))) with
      ((zbits 4 (Z.lor 2 (if h_Sensitive h then 1 else 0)) ++ string_bits (h_Name h) 3 (enc_pref e)) ++
       string_bits (h_Value h) 7 (enc_pref e)) by (by destruct (h_Sensitive h); rewrite <- (assoc_L (++))).
    eapply swrites_bind.
    + eapply swrites_bind; [apply wwrites_bits; [done|by destruct (h_Sensitive h)]|by apply wwrites_string].
    + eapply swrites_bind_r; [by apply wwrites_string|apply addUse_writes].
Qed.

Fixpoint lines_from (st : qpackWriterState) (i : nat) (hs : list HeaderField) : list line :=
  match hs with [] => [] | h :: hs' => line_of st i h :: lines_from st (S i) hs' end.

Fixpoint use_entries (st : qpackWriterState) (i : nat) (hs : list HeaderField) (u : qpackUsage) : qpackUsage :=
  match hs with [] => u | _ :: hs' => use_entries st (S i) hs' (use_entry st i u) end.

Lemma blockFields_writes hs i e st t : table_wf t → tbase t < 2 ^ 60 → st_inv t st → live t st →
  drop i (ws_headers st) = hs → Forall (field_ok (enc_pref e)) hs →
  wwrites (writeFields i hs) (e, st) (lines_bits (enc_pref e) (lines_from st i hs)) tt
    (set_qe_usage (use_entries st i hs (qe_usage e)) e, st) ∧
  Forall (line_ok (enc_pref e)) (lines_from st i hs) ∧ length (lines_from st i hs) = length hs ∧
  mapM (line_value t (largestBase st)) (lines_from st i hs) = Some hs.
Proof.
  revert i e. induction hs as [|h hs IH]; intros i e Hwf Hb Hinv Hlive Hdrop Hfields;
    cbn [writeFields lines_from use_entries].
  { split_and!; [|constructor|done|done]. destruct e. apply swrites_ret. }
  inversion Hfields as [|?? Hfield Hfields']; subst.
  assert (ws_headers st !! i = Some h) as Hh by (by rewrite <- (Nat.add_0_r i), <- lookup_drop, Hdrop).
  destruct (line_of_spec (enc_pref e) t st i h Hwf Hb Hinv Hlive Hh Hfield) as (Hlok & Hval & Hidx).
  set (e1 := set_qe_usage (use_entry st i (qe_usage e)) e).
  destruct (IH (S i) e1) as (Hw & Hok & Hlen & Hvals); try done.
  { by rewrite <- (Nat.add_1_r i), <- drop_drop, Hdrop. }
  split_and!; [|by constructor|cbn; by rewrite Hlen|].
  - change (lines_bits (enc_pref e) (?l :: ?ls)) with (line_bits (enc_pref e) l ++ lines_bits (enc_pref e) ls).
    apply wwrites_get. intros w. cbn [wrt wr_state wr_encoder fst snd]. fold (match_at st i).
    eapply swrites_bind; [|exact Hw]. destruct (match_at st i) as [en|] eqn:Hm.
    + unfold line_of. rewrite Hm. assert (used_at st i = Some en) as Hu by (unfold used_at; by rewrite Hm).
      by apply writeIndexed_writes; [|apply Hidx].
    + apply writeLiteral_writes; [done|done|]. intros en Hen. apply Hidx. unfold used_at. by rewrite Hm.
  - cbn. rewrite Hval. cbn. by rewrite Hvals.
Qed.

Lemma use_entries_max st hs i u b : (∀ i en, used_at st i = Some en → below en b) →
  (∀ r, hbu_max (block_of u r) ≤ b) → ∀ r, hbu_max (block_of (use_entries st i hs u) r) ≤ b.
Proof.
  intros Hen. revert i u. induction hs as [|h hs IH]; intros i u Hu; [done|]. cbn.
  apply IH. intros r. apply use_entry_max; [|done]. intros en. apply Hen.
Qed.

(** The block refers to live entries; a decoder with the same table reads the
    fields back. *)
Lemma lines_backward st i hs : Forall backward (lines_from st i hs).
Proof.
  revert i. induction hs as [|h hs IH]; intros i; constructor; [|apply IH].
  unfold line_of. destruct (match_at st i); [done|]. by destruct (name_at st i).
Qed.

Lemma writeHeaderBlock_writes e st hs : enc_ok e → qe_base e < 2 ^ 60 →
  st_inv (qe_common_table e) st → live (qe_common_table e) st → ws_headers st = hs →
  Forall (field_ok (enc_pref e)) hs →
  ∃ raw ls, wwrites writeHeaderBlock (e, st) (block_bits (enc_pref e) raw false 0 ls) tt
    (set_qe_usage (use_entries st 0 hs (qe_usage e)) e, st) ∧
  Forall (line_ok (enc_pref e)) ls ∧ length ls = length hs ∧ is_u64 raw ∧
  (∀ id, block_value (qe_common_table e) id raw false 0 ls =
    Ok (hs, if 0 <? largestBase st then [EvAcknowledged id (largestBase st)] else [])) ∧
  Forall backward ls ∧ encodeLargestReference (qe_capacity e) (largestBase st) = Ok raw ∧
  decodeLargestBase (qe_common_table e) raw = Ok (largestBase st).
Proof.
  intros Hok Hb Hinv Hlive Hhs Hfields. pose proof (enc_table_wf e Hok) as Hwf.
  pose proof (enc_base_nonneg e Hok) as Hb0. pose proof (si_largest _ _ Hinv) as Hl.
  change (tbase (qe_common_table e)) with (qe_base e) in Hl.
  assert (∃ raw, encodeLargestReference (qe_capacity e) (largestBase st) = Ok raw ∧ is_u64 raw ∧
    decodeLargestBase (qe_common_table e) raw = Ok (largestBase st)) as (raw & Henc & Hraw & Hdec).
  { destruct (si_top _ _ Hinv) as [->|(i & d & Hused & <-)]; [by exists 0|].
    pose proof (Hlive _ _ Hused) as Hd. cbn in Hd. pose proof (dynamic_base _ _ Hwf Hd) as [HB _].
    pose proof (zlen_nonneg (dynamic (qe_common_table e))).
    apply (largest_live (qe_table e) (qe_common_table e) d); [apply (eo_table _ Hok)|apply (eo_capacity _ Hok)|done|done|done|..].
    - change (tbase (qe_common_table e)) with (qe_base e). change (tbase (qt_common (qe_table e))) with (qe_base e). lia.
    - pose proof (wf_capacity _ Hwf) as Hc. unfold is_u64 in Hc.
      assert (0 ≤ capacity (qe_common_table e) / 32) by (apply Z.div_pos; lia). lia. }
  destruct (blockFields_writes hs 0 e st (qe_common_table e)) as (Hw & Hlok & Hlen & Hvals); try done.
  exists raw, (lines_from st 0 hs). split_and!; try done.
  - unfold writeHeaderBlock. apply wwrites_get. intros w. cbn [wrt wr_state wr_encoder fst snd].
    eapply swrites_bind_l; [apply swrites_step; intros bw; unfold lift; by rewrite Henc|]. cbv beta.
    eapply swrites_bind; [by apply wwrites_on, WriteInt_writes|].
    change (false :: int_bits 7 0 ++ ?l) with (int_bits 8 0 ++ l).
    eapply swrites_bind; [by apply wwrites_on, WriteInt_writes|]. by rewrite Hhs.
  - intros id. unfold block_value. rewrite Hdec.
    change (tbase (qe_common_table e)) with (qe_base e). rewrite (proj2 (Z.ltb_ge _ _)) by lia.
    cbn [andb block_base]. by rewrite Z.add_0_r, Hvals.
  - apply lines_backward.
Qed.

(** The encoder after the block. *)
Lemma enc_ok_block e st hs : enc_ok e → st_inv (qe_common_table e) st →
  enc_ok (set_qe_usage (use_entries st 0 hs (qe_usage e)) e).
Proof.
  intros Hok Hinv. apply enc_ok_usage; [done|]. intros r. apply use_entries_max; [|apply (eo_usage _ Hok)].
  intros i en Hen. eapply below_mono; [by eapply used_below|]. apply (si_largest _ _ Hinv).
Qed.
End block_spec.
