(* ===== verification/QpackReach.v ===== *)
(** * The QPACK encoder under interleaving and failure

    Header blocks are written in two critical sections and acknowledgments arrive
    at any time. [enc_step] is the step relation of these operations, for writers
    that may fail, and [enc_inv] the invariant of every reachable state. *)

From S2P Require Import Prelude Bits GoIo BitWriter BitReader Streams HcInt HuffmanTable Huffman HcString StaticTable Table Codec QpackTable QpackEncoder QpackDecoder QpackTableSpec QpackUsageSpec QpackDecoderSpec QpackEncoderSpec.

Implicit Types (t : qpackTableCommon) (d : qpackEntry) (en : Entry qpackEntry).

(** ** Acknowledgments *)

Lemma total_cons_range (dyn : list qpackEntry) p n d : 0 ≤ p → 0 ≤ n → dyn !! Z.to_nat p = Some d →
  total (ztake (n + 1) (zdrop p dyn)) = Size d + total (ztake n (zdrop (p + 1) dyn)).
Proof.
  intros Hp Hn Hd. unfold ztake, zdrop. replace (Z.to_nat (n + 1)) with (S (Z.to_nat n)) by lia.
  replace (Z.to_nat (p + 1)) with (S (Z.to_nat p)) by lia. by rewrite (drop_S _ _ _ Hd).
Qed.

(** The loop of [updateHighestAcknowledged] takes the newly acknowledged entries
    off the size; they are all in the table. *)
Lemma forget_sizes_spec fuel t highest i increment rest : table_wf t →
  0 ≤ i ≤ increment → 0 ≤ tbase t - highest → 0 ≤ highest →
  tbase t - highest + increment ≤ zlen (dynamic t) → 0 ≤ rest → increment - i < Z.of_nat fuel →
  let p := tbase t - highest + i in
  rest + total (ztake (increment - i) (zdrop p (dynamic t))) < 2 ^ 64 →
  forget_sizes fuel t highest i increment (rest + total (ztake (increment - i) (zdrop p (dynamic t)))) = Ok rest.
Proof.
  intros Hwf. pose proof (wf_tbase _ Hwf) as Htb. unfold intMax in Htb.
  revert i. induction fuel as [|fuel IH]; intros i Hi Hd Hh Hlen Hr Hf p Hmax; [lia|]. cbn [forget_sizes].
  destruct (Z.ltb_spec i increment) as [Hlt|].
  2: { replace (increment - i) with 0 by lia. rewrite ztake_0 by lia. cbn. f_equal. lia. }
  assert (∃ d, dynamic t !! Z.to_nat p = Some d) as [d Hp]
    by (apply lookup_lt_is_Some_2; unfold zlen in *; lia).
  assert (GetDynamic t i highest = Some d) as ->.
  { unfold GetDynamic. rewrite (i64_small (_ - _)), i64_small by lia.
    rewrite !(proj2 (Z.ltb_ge _ 0)), (proj2 (Z.leb_gt _ _)) by lia. cbn [orb].
    by replace (i + (tbase t - highest)) with p by lia. }
  replace (increment - i) with ((increment - (i + 1)) + 1) in * by lia.
  rewrite (total_cons_range _ _ _ d) in * by (done || lia). replace (p + 1) with (tbase t - highest + (i + 1)) in * by lia.
  pose proof (total_nonneg (ztake (increment - (i + 1)) (zdrop (tbase t - highest + (i + 1)) (dynamic t)))).
  pose proof (Size_range d) as Hs. unfold is_u64 in Hs.
  rewrite u64_small, i64_small by lia.
  replace (rest + (Size d + _) - Size d) with
    (rest + total (ztake (increment - (i + 1)) (zdrop (tbase t - highest + (i + 1)) (dynamic t)))) by lia.
  apply IH; lia.
Qed.

Lemma updateHighestAcknowledged_spec increment e : enc_ok e → 0 < increment ≤ unacked e →
  ∃ n, updateHighestAcknowledged increment e =
    (Ok tt, set_unacknowledgedSize n (set_highestAcknowledged (highestAcknowledged e + increment) e)) ∧
    enc_ok (set_unacknowledgedSize n (set_highestAcknowledged (highestAcknowledged e + increment) e)).
Proof.
  intros Hok Hinc. pose proof Hok as [Hwf Hcap Ha Hh Hu Husage]. pose proof (enc_table_wf e Hok) as Htwf.
  pose proof (wf_tbase _ Htwf) as Htb. pose proof (wf_fits _ Htwf) as Hfits.
  change (tbase (qe_common_table e)) with (qe_base e) in Htb. unfold intMax in Htb.
  set (n := total (ztake (unacked e - increment) (qe_dynamic e))). exists n.
  assert (unacknowledgedSize e = n + total (ztake increment (zdrop (unacked e - increment) (qe_dynamic e)))) as Hsplit.
  { rewrite Hu. unfold n, ztake, zdrop. rewrite <- total_app. f_equal.
    replace (Z.to_nat (unacked e)) with (Z.to_nat (unacked e - increment) + Z.to_nat increment)%nat by lia.
    by rewrite take_take_drop. }
  split.
  - unfold updateHighestAcknowledged. rewrite (proj2 (Z.leb_gt _ _)) by lia. rewrite bind_unfold. cbn [getS].
    unfold unacked in *. rewrite (i64_small (increment + _)), (proj2 (Z.ltb_ge _ _)) by lia.
    rewrite bind_unfold. cbn [modS]. rewrite i64_small by lia. rewrite bind_unfold. cbn [getS].
    rewrite bind_unfold. unfold lift.
    cbn [highestAcknowledged set_highestAcknowledged qe_table unacknowledgedSize].
    rewrite Hsplit. pose proof (forget_sizes_spec (S (length (dynamic (qt_common (qe_table e)))))
      (qe_common_table e) (highestAcknowledged e + increment) 0 increment n Htwf) as Hrun. cbv zeta in Hrun.
    rewrite Z.sub_0_r, Z.add_0_r in Hrun.
    change (tbase (qe_common_table e)) with (qe_base e) in Hrun.
    replace (qe_base e - highestAcknowledged e - increment) with (qe_base e - (highestAcknowledged e + increment)) in * by lia.
    change (dynamic (qe_common_table e)) with (qe_dynamic e) in Hrun.
    unfold qe_common_table in Hrun. unfold zlen, qe_capacity in *.
    rewrite Hrun; [done|lia|lia|lia|lia|apply total_nonneg|cbn; unfold qe_dynamic in *; lia|].
    rewrite <- Hsplit, Hu. unfold ztake. 
    pose proof (total_take_le (Z.to_nat (qe_base e - highestAcknowledged e)) (qe_dynamic e)).
    unfold qe_dynamic, qe_common_table in *. lia.
  - split; unfold qe_capacity, unacked, qe_base, qe_dynamic in *; cbn; [done|done|lia|lia| |done].
    unfold n. do 2 f_equal. lia.
Qed.

(** An acknowledgment of inserts, when its sum with the acknowledged inserts is
    an [int]. *)
Lemma AcknowledgeInsert_spec increment e : enc_ok e → highestAcknowledged e + increment ≤ intMax →
  - 2 ^ 63 ≤ increment →
  if (0 <? increment) && (increment <=? unacked e)
  then ∃ e', AcknowledgeInsert increment e = (Ok tt, e') ∧ enc_ok e' ∧ qe_table e' = qe_table e ∧
    qe_usage e' = qe_usage e ∧ highestAcknowledged e' = highestAcknowledged e + increment
  else AcknowledgeInsert increment e = (Err ErrIndexError, e).
Proof.
  intros Hok Hsum Hlow. unfold AcknowledgeInsert. destruct (Z.ltb_spec 0 increment) as [Hpos|Hneg]; cbn [andb].
  2: by rewrite (proj2 (Z.leb_le _ _)) by lia.
  rewrite (proj2 (Z.leb_gt increment 0)), bind_unfold by lia. cbn [getS]. pose proof (eo_acked _ Hok).
  unfold intMax in Hsum. rewrite i64_small by lia.
  destruct (Z.leb_spec increment (unacked e)) as [Hle|Hgt]; unfold unacked in *.
  - rewrite (proj2 (Z.ltb_ge _ _)), bind_unfold by lia. cbn [modS].
    set (e1 := set_blockedStreams _ e).
    destruct (updateHighestAcknowledged_spec increment e1) as (n & -> & Hok');
      [by apply enc_ok_blocked|done|]. by eexists.
  - by rewrite (proj2 (Z.ltb_lt _ _)) by lia.
Qed.

(** An increment whose sum with the acknowledged inserts overflows passes both checks
    and runs off the table. *)
Lemma AcknowledgeInsert_overflow increment e : enc_ok e → increment ≤ intMax →
  intMax < highestAcknowledged e + increment → (AcknowledgeInsert increment e).1 = Panic.
Proof.
  intros Hok Hinc Hsum. pose proof (eo_acked _ Hok). pose proof (eo_held _ Hok).
  pose proof (wf_tbase _ (enc_table_wf e Hok)) as Htb.
  change (tbase (qe_common_table e)) with (qe_base e) in Htb. unfold intMax, unacked in *.
  assert (i64 (highestAcknowledged e + increment) = highestAcknowledged e + increment - 2 ^ 64) as Hwrap
    by (apply i64_wraps; lia).
  unfold AcknowledgeInsert. rewrite (proj2 (Z.leb_gt increment 0)), bind_unfold by lia. cbn [getS].
  rewrite Hwrap, (proj2 (Z.ltb_ge _ _)), bind_unfold by lia. cbn [modS].
  unfold updateHighestAcknowledged. rewrite (proj2 (Z.leb_gt increment 0)), bind_unfold by lia. cbn [getS].
  set (e1 := set_blockedStreams _ e). change (highestAcknowledged e1) with (highestAcknowledged e). change (qe_base e1) with (qe_base e).
  rewrite (Z.add_comm increment), Hwrap, (proj2 (Z.ltb_ge _ _)), bind_unfold by lia. cbn [modS].
  rewrite bind_unfold. cbn [getS]. rewrite bind_unfold. unfold lift.
  cbn [set_highestAcknowledged highestAcknowledged qe_table unacknowledgedSize]. cbn [forget_sizes].
  rewrite (proj2 (Z.ltb_lt 0 increment)) by lia. unfold GetDynamic at 1.
  change (tbase (qt_common (qe_table e1))) with (qe_base e).
  assert (i64 (qe_base e - (highestAcknowledged e + increment - 2 ^ 64)) < 0) as Hneg.
  { rewrite i64_wraps; lia. }
  by rewrite (proj2 (Z.ltb_lt _ _) Hneg).
Qed.

(** ** The invariant *)

Definition enc_inv (e : QpackEncoder) : Prop := enc_ok e ∧ usage_ok (qe_usage e).

Lemma enc_inv_usage e u : enc_inv e → same_blocks (qe_usage e) u → enc_inv (set_qe_usage u e).
Proof.
  intros [Hok Hu] [Hu' Hmax _]. split; [|done]. apply enc_ok_usage; [done|]. intros r. rewrite Hmax.
  apply (eo_usage _ Hok).
Qed.

Definition quiet (o : outcome unit) : Prop := o = Ok tt ∨ o = Err ErrIndexError.

Lemma AcknowledgeHeader_spec id e : enc_inv e →
  ∃ o e', AcknowledgeHeader id e = (o, e') ∧ quiet o ∧ enc_inv e' ∧ qe_table e' = qe_table e ∧
    nextBlock (qe_usage e') = nextBlock (qe_usage e) ∧
    highestAcknowledged e ≤ highestAcknowledged e'.
Proof.
  intros Hinv. pose proof Hinv as [Hok Hu]. unfold AcknowledgeHeader. rewrite bind_unfold. cbn [getS].
  destruct (ut_ack_same id (qe_usage e) Hu) as [Hsame Hmax].
  specialize (Hmax (qe_base e) (enc_base_nonneg e Hok) (eo_usage _ Hok)).
  pose proof (sb_next _ _ Hsame) as Hnx.
  destruct (ut_ack id (qe_usage e)) as [[removedLargest newLargest] u]. cbn [fst snd] in *.
  pose proof (enc_inv_usage e u Hinv Hsame) as Hinv1. set (e1 := set_qe_usage u e) in *.
  rewrite bind_unfold. cbn [modS]. fold e1.
  destruct (removedLargest =? 0); [by exists (Err ErrIndexError), e1; split_and!; [|right|..]|].
  destruct (Z.ltb_spec (highestAcknowledged e) removedLargest) as [Hlt|]; cbn [andb];
    [|by exists (Ok tt), e1; split_and!; [|left|..]].
  destruct (newLargest <=? highestAcknowledged e); [|by exists (Ok tt), e1; split_and!; [|left|..]].
  rewrite bind_unfold. cbn [modS]. set (e2 := set_blockedStreams _ e1).
  pose proof (enc_table_wf e Hok) as Htwf. pose proof (wf_tbase _ Htwf) as Htb.
  change (tbase (qe_common_table e)) with (qe_base e) in Htb. unfold intMax in Htb.
  pose proof (eo_acked _ Hok). rewrite i64_small by lia.
  destruct (updateHighestAcknowledged_spec (removedLargest - highestAcknowledged e) e2) as (n & -> & Hok').
  { apply enc_ok_blocked, Hinv1. }
  { change (unacked e2) with (unacked e). unfold unacked. lia. }
  eexists (Ok tt), _. split_and!; [done|by left|split; [done|apply Hinv1]|done|done|cbn; lia].
Qed.

(** The settings of the encoder are not touched. *)
Lemma updateHighestAcknowledged_common n : unchanged qe_common (updateHighestAcknowledged n).
Proof. unfold updateHighestAcknowledged. unchanged_body. Qed.

Lemma AcknowledgeHeader_common id : unchanged qe_common (AcknowledgeHeader id).
Proof. unfold AcknowledgeHeader. unchanged_body. apply updateHighestAcknowledged_common. Qed.

Lemma AcknowledgeInsert_common n : unchanged qe_common (AcknowledgeInsert n).
Proof. unfold AcknowledgeInsert. unchanged_body. apply updateHighestAcknowledged_common. Qed.

Lemma AcknowledgeReset_common id : unchanged qe_common (AcknowledgeReset id).
Proof. unfold AcknowledgeReset. unchanged_body. Qed.

Lemma AcknowledgeReset_spec id e : enc_inv e →
  ∃ o e', AcknowledgeReset id e = (o, e') ∧ quiet o ∧ enc_inv e' ∧ qe_table e' = qe_table e ∧
    nextBlock (qe_usage e') = nextBlock (qe_usage e) ∧
    highestAcknowledged e' = highestAcknowledged e.
Proof.
  intros Hinv. pose proof Hinv as [Hok Hu]. unfold AcknowledgeReset. rewrite bind_unfold. cbn [getS].
  pose proof (ut_cancel_same id (qe_usage e) Hu) as Hsame.
  pose proof (sb_next _ _ Hsame) as Hnx.
  destruct (ut_cancel id (qe_usage e)) as [largest u]. cbn [snd] in *.
  pose proof (enc_inv_usage e u Hinv Hsame) as Hinv1. set (e1 := set_qe_usage u e) in *.
  rewrite bind_unfold. cbn [modS]. fold e1.
  destruct (largest <? 0); [by exists (Err ErrIndexError), e1; split_and!; [|right|..]|].
  destruct (_ <? largest); [|by exists (Ok tt), e1; split_and!; [|left|..]].
  eexists (Ok tt), _. split_and!; [done|by left| |done|done|done].
  destruct Hinv1. split; [by apply enc_ok_blocked|done].
Qed.

(** ** Table changes, whatever the writer does *)

(** Every entry recorded is from the table or was in it. *)
Definition bounded (st : qpackWriterState) (b : Z) : Prop :=
  ∀ i en, match_at st i = Some en ∨ name_at st i = Some en → below en b.

Lemma bounded_mono st b b' : bounded st b → b ≤ b' → bounded st b'.
Proof. intros Hb Hle i en Hen. eapply below_mono; [by eapply Hb|done]. Qed.

Lemma bounded_match st i en full b : bounded st b → below en b →
  bounded (updateBase en full (set_match i en st)) b.
Proof.
  intros Hb Hen j en'. unfold match_at, name_at.
  destruct (updateBase_frame en full (set_match i en st)) as (_ & -> & -> & _). cbn.
  intros [Hm|Hn]; [|by apply (Hb j); right].
  destruct (decide (i < length (ws_matches st))%nat) as [Hi|].
  - rewrite lookup_insert_join in Hm by done. destruct (decide (j = i)); [by injection Hm as <-|].
    apply (Hb j). by left.
  - rewrite list_insert_ge in Hm by lia. apply (Hb j). by left.
Qed.

Lemma bounded_name st i en full b : bounded st b → below en b →
  bounded (updateBase en full (set_nameMatch i en st)) b.
Proof.
  intros Hb Hen j en'. unfold match_at, name_at.
  destruct (updateBase_frame en full (set_nameMatch i en st)) as (_ & -> & -> & _). cbn.
  intros [Hm|Hn]; [by apply (Hb j); left|].
  destruct (decide (i < length (ws_nameMatches st))%nat) as [Hi|].
  - rewrite lookup_insert_join in Hn by done. destruct (decide (j = i)); [by injection Hn as <-|].
    apply (Hb j). by right.
  - rewrite list_insert_ge in Hn by lia. apply (Hb j). by right.
Qed.

Lemma bounded_record st i full nm b : bounded st b → (∀ en, full = Some en → below en b) →
  (∀ en, nm = Some en → below en b) → bounded (recordMatch i full nm st) b.
Proof.
  intros Hb Hfull Hnm. unfold recordMatch.
  destruct full as [en|]; [destruct (_ <=? _); [by apply bounded_match, Hfull|]|];
    (destruct nm as [en'|]; [destruct (_ <=? _); [by apply bounded_name, Hnm|]|]; done).
Qed.

Lemma usable_below t en : table_wf t → usable t en → below en (tbase t).
Proof. intros Hwf Hu. destruct en as [s|d]; [done|]. apply (dynamic_base _ _ Hwf Hu). Qed.

Section keeps.
Context {W : Type} `{IoWriter W}.
Variables (lo : Z) (k : nat).

(** What holds between the instructions of the table changes: at least [lo] and
    at most [n] entries were inserted, and [k] blocks were made. *)
Record ch_inv (n : Z) (s : changing W) : Prop := {
  ci_enc : enc_inv (ch_encoder s);
  ci_base : lo ≤ qe_base (ch_encoder s) ≤ n;
  ci_next : (k ≤ nextBlock (qe_usage (ch_encoder s)))%nat;
  ci_max : 0 ≤ maxBase (ch_state s);
  ci_bounded : bounded (ch_state s) (qe_base (ch_encoder s));
  ci_known : known (qe_usage (ch_encoder s)) (uses (ch_state s));
}.

Lemma ch_inv_mono n n' s : n ≤ n' → ch_inv n s → ch_inv n' s.
Proof. intros Hn []. split; try done. lia. Qed.

Lemma on_updates_keeps {A} n (m : go (bitWriter W) A) (P : changing W → Prop) :
  (∀ s w, P s → P (Changing (ch_encoder s) w (ch_state s))) →
  triple (λ s, ch_inv n s ∧ P s) (on_updates m) (λ _ s, ch_inv n s ∧ P s) (ch_inv n).
Proof.
  intros HP. eapply triple_weaken; [apply (triple_zoom _ _ _ (λ s, ch_inv n s ∧ P s))|done|done|by intros s [? _]].
  intros s w [[] ?]. split; [by split|by apply HP].
Qed.

Lemma insert_keeps n name value : n < 2 ^ 60 → ordinary (new_entry name value) →
  triple (ch_inv n) (insert name value)
    (λ o s, ch_inv (n + 1) s ∧ ∀ d, o = Some d → Base d ≤ qe_base (ch_encoder s)) (ch_inv (n + 1)).
Proof.
  intros Hn Hord [e w st] [[Hok Hu] Hb Hk Hm Hbd Hkn]. cbn in *.
  destruct (insert_spec (W := W) e st name value Hok Hord ltac:(lia)) as (o & e' & Hrun & Hok' & Hch & _ & Hres).
  rewrite Hrun. pose proof (cg_base _ _ Hch). pose proof (cg_usage _ _ Hch) as Hus.
  assert (qe_base e' ≤ qe_base e + 1 ∧ ∀ d, o = Some d → Base d ≤ qe_base e') as [Hle HB].
  { change (qe_base e') with (tbase (qe_common_table e')). destruct o as [d|].
    - destruct Hres as (-> & Hfit & Hcom). rewrite Hcom. unfold inserted.
      change (capacity (qe_common_table e)) with (qe_capacity e). rewrite (proj2 (Z.ltb_ge _ _)) by done.
      change (tbase (TableCommon _ _ _ ?b)) with b. change (tbase (qe_common_table e)) with (qe_base e).
      split; [lia|]. intros d [= <-]. cbn. lia.
    - rewrite Hres. change (tbase (qe_common_table e)) with (qe_base e). split; [lia|done]. }
  split; [|done]. split; cbn; [split; [done|by rewrite Hus]|lia|by rewrite Hus|done| |by rewrite Hus].
  by eapply bounded_mono.
Qed.

Lemma mod_state_keeps n i full nm (P : changing W → Prop) :
  (∀ s en, P s → full = Some en → below en (qe_base (ch_encoder s))) →
  (∀ s en, P s → nm = Some en → below en (qe_base (ch_encoder s))) →
  triple (λ s, ch_inv n s ∧ P s) (mod_state (recordMatch i full nm)) (λ _, ch_inv n) (ch_inv n).
Proof.
  intros Hfull Hnm. apply triple_mod. intros s [[He Hb Hk Hm Hbd Hkn] HP].
  destruct (recordMatch_frame i full nm (ch_state s)) as [_ Hfm _ Hfu].
  split; cbn; [done|done|done|by rewrite Hfm| |by rewrite Hfu].
  apply bounded_record; [done|by intros en; apply Hfull|by intros en; apply Hnm].
Qed.

(** The rest of a handler after an insertion: writes, then the record. *)
Definition has_base (b : Z) (s : changing W) : Prop := b ≤ qe_base (ch_encoder s).

Lemma record_keeps n i d : triple (λ s, ch_inv n s ∧ has_base (Base d) s)
  (mod_state (recordMatch i (Some (Dynamic d)) None)) (λ _, ch_inv n) (ch_inv n).
Proof. apply mod_state_keeps; [|done]. intros s en HP [= <-]. exact HP. Qed.

Lemma get_keeps {B} (f : changing W → go (changing W) B) (P : changing W → Prop) R E :
  (∀ s, P s → triple P (f s) R E) → triple P (getS ≫= f) R E.
Proof. intros Hf s Hs. by apply (Hf s Hs s). Qed.

Lemma writeDuplicate_keeps n d i : n < 2 ^ 60 → ordinary (new_entry (Name d) (Value d)) →
  triple (ch_inv n) (writeDuplicate d i) (λ _, ch_inv (n + 1)) (ch_inv (n + 1)).
Proof.
  intros Hn Hord. eapply triple_bind; [by apply insert_keeps|]. intros [d'|]; [|by apply triple_ret; intros s [? _]].
  apply (triple_pre _ _ (λ s, ch_inv (n + 1) s ∧ has_base (Base d') s)); [by intros s [? Hd]; split; [|apply Hd]|].
  eapply triple_bind; [by apply on_updates_keeps|]. intros ?. cbv beta. apply get_keeps. intros s _.
  eapply triple_bind; [by apply on_updates_keeps|]. intros ?. cbv beta. apply record_keeps.
Qed.

Lemma writeInsert_keeps n h i nm : n < 2 ^ 60 → ordinary (new_entry (h_Name h) (h_Value h)) →
  triple (ch_inv n) (writeInsert h i nm) (λ _, ch_inv (n + 1)) (ch_inv (n + 1)).
Proof.
  intros Hn Hord. eapply triple_bind; [by apply insert_keeps|]. intros [d'|]; [|by apply triple_ret; intros s [? _]].
  apply (triple_pre _ _ (λ s, ch_inv (n + 1) s ∧ has_base (Base d') s)); [by intros s [? Hd]; split; [|apply Hd]|].
  eapply triple_bind; [by apply on_updates_keeps|]. intros ?. cbv beta. apply get_keeps. intros s _. cbv zeta.
  eapply triple_bind; [destruct nm as [[]|]; by apply on_updates_keeps|]. intros ?. cbv beta.
  eapply triple_bind; [by apply on_updates_keeps|]. intros ?. cbv beta. apply record_keeps.
Qed.

(** A call that only looks something up. *)
Lemma lookup_keeps {A} (o : outcome A) a (f : A → go (changing W) unit) P R E : o = Ok a →
  triple P (f a) R E → triple P (lift o ≫= f) R E.
Proof. intros -> Hf s Hs. by apply (Hf s Hs). Qed.

Lemma changeFor_keeps n i h : n < 2 ^ 60 → ordinary (new_entry (h_Name h) (h_Value h)) →
  triple (ch_inv n) (changeFor i h) (λ _, ch_inv (n + 1)) (ch_inv (n + 1)).
Proof.
  intros Hn Hord. unfold changeFor.
  assert (∀ P, (∀ s, P s → ch_inv n s) → triple P (mret tt) (λ _, ch_inv (n + 1)) (ch_inv (n + 1))) as Hret.
  { intros P HP. apply triple_ret. intros s Hs. apply (ch_inv_mono n); [lia|by apply HP]. }
  destruct (h_Sensitive h); [by apply Hret|].
  apply triple_get. intros s Hs. pose proof Hs as [[Hok Hu] Hb Hk Hm Hbd Hkn].
  pose proof (eo_table _ Hok) as Hwf. pose proof (enc_table_wf _ Hok) as Htwf. cbv zeta.
  destruct (LookupReferenceable_spec (qe_table (ch_encoder s)) (h_Name h) (h_Value h)
    (maxBase (ch_state s)) Hwf Hm) as (full & nm & Hlk & Hfull & Hnm).
  assert (∀ en, usable (qe_common_table (ch_encoder s)) en → below en (qe_base (ch_encoder s))) as Hbelow
    by (intros en; by apply usable_below).
  eapply lookup_keeps; [exact Hlk|]. cbv beta iota.
  assert (triple (λ s', s' = s) (mod_state (recordMatch i full nm)) (λ _, ch_inv n) (ch_inv n)) as Hrec.
  { eapply triple_pre; [|apply (mod_state_keeps n i full nm (λ s', ch_encoder s' = ch_encoder s))].
    - by intros s' ->.
    - intros s' en -> Hen. by apply Hbelow, Hfull.
    - intros s' en -> Hen. by apply Hbelow, Hnm. }
  destruct full as [en|].
  { eapply triple_weaken; [exact Hrec|done|intros ? s'|intros s']; apply ch_inv_mono; lia. }
  destruct (LookupBlocked_spec (qe_table (ch_encoder s)) (h_Name h) (h_Value h) (maxBase (ch_state s)) Hwf) as [b Hbl].
  eapply lookup_keeps; [exact Hbl|]. destruct b; [apply Hret; by intros s' ->|].
  destruct (LookupExtra_spec (qe_table (ch_encoder s)) (h_Name h) (h_Value h) Hwf) as (o & Hex & Hdup).
  eapply lookup_keeps; [exact Hex|]. cbv beta iota.
  destruct o as [d|].
  { destruct (Hdup d eq_refl) as (Hd & Hdn & Hdv). destruct (_ <=? _); [|apply Hret; by intros s' ->].
    eapply triple_pre; [|apply writeDuplicate_keeps; [done|by apply (entry_ordinary (ch_encoder s))]].
    by intros s' ->. }
  eapply (triple_bind _ _ _ (λ _, ch_inv n)).
  - destruct nm as [en|].
    + eapply triple_weaken; [exact Hrec|done|done|intros s'; apply ch_inv_mono; lia].
    + apply triple_ret. by intros s' ->.
  - intros ?. cbv beta zeta. destruct (_ && _); [by apply writeInsert_keeps|by apply Hret].
Qed.

Lemma changesFor_keeps hs n i : n + zlen hs ≤ 2 ^ 60 →
  Forall (λ h, ordinary (new_entry (h_Name h) (h_Value h))) hs →
  triple (ch_inv n) (changesFor i hs) (λ _, ch_inv (n + zlen hs)) (ch_inv (n + zlen hs)).
Proof.
  revert n i. induction hs as [|h hs IH]; intros n i Hn Hord; cbn [changesFor].
  - apply triple_ret. intros s. apply ch_inv_mono. rewrite zlen_nil. lia.
  - inversion Hord; subst. pose proof (zlen_nonneg hs). rewrite zlen_cons in *.
    eapply (triple_bind _ _ _ (λ _, ch_inv (n + 1))).
    + eapply triple_weaken; [apply (changeFor_keeps n); [lia|done]|done|done|].
      intros s. apply ch_inv_mono. lia.
    + intros ?. cbv beta. replace (n + (1 + zlen hs)) with (n + 1 + zlen hs) by lia. apply IH; [lia|done].
Qed.
End keeps.

(** What the table changes leave, on every outcome. *)
Record changed_inv (e : QpackEncoder) (n : Z) (e' : QpackEncoder) (st : qpackWriterState) : Prop := {
  hi_enc : enc_inv e';
  hi_base : qe_base e ≤ qe_base e' ≤ qe_base e + n;
  hi_next : (nextBlock (qe_usage e) ≤ nextBlock (qe_usage e'))%nat;
  hi_bounded : bounded st (qe_base e');
  hi_known : known (qe_usage e') (uses st);
}.

Lemma bounded_init lower headers m hi ba r b :
  bounded (setupUsage m hi ba r (initHeaders lower headers)) b.
Proof.
  destruct (initHeaders_inv lower headers m hi ba r (TableCommon [] 0 0 0)) as [_ Hf]; [done|].
  intros i en. destruct (Hf i ltac:(lia)) as [-> ->]. by intros [|].
Qed.

Lemma ut_get_next id u : nextBlock (ut_get id u).2 = nextBlock u.
Proof. unfold ut_get. by destruct (tracker u !! id). Qed.

(** The end of [writeTableChanges]. *)
Lemma count_keeps {W} lo k n (s : changing W) : ch_inv lo k n s →
  triple (λ s', s' = s)
    (if isNewlyBlocked (highestAcknowledged (ch_encoder s)) (ch_state s)
     then mod_encoder (λ e, set_blockedStreams (i64 (blockedStreams e + 1)) e) else mret tt)
    (λ _ s', ch_inv lo k n s' ∧ uses (ch_state s') = uses (ch_state s)) (ch_inv lo k n).
Proof.
  intros [[He Hus] Hb Hk Hm Hbd Hkn]. destruct (isNewlyBlocked _ _); [apply triple_mod|apply triple_ret]; intros s' ->;
    split; try done; split; try done. split; [by apply enc_ok_blocked|done].
Qed.

Lemma record_block_keeps {W} lo k n id su (s : changing W) : Forall (λ r, (r < k)%nat) su →
  triple (λ s' : changing W, ch_inv lo k n s' ∧ uses (ch_state s') = uses (ch_state s))
    (if 0 <? largestBase (ch_state s) then
       mod_encoder (λ e, set_qe_usage (set_stream id (Some (su ++ [uses (ch_state s)])) (qe_usage e)) e)
     else mret tt) (λ _, ch_inv lo k n) (ch_inv lo k n).
Proof.
  intros Hsu. destruct (0 <? _); [apply triple_mod|apply triple_ret; by intros s' [? _]].
  intros s' [[[He Hus] Hb Hk Hm Hbd Hkn] Huses]. split; cbn; try done. split.
  - apply enc_ok_usage; [done|]. intros r'. rewrite block_of_stream. apply (eo_usage _ He).
  - cbn. apply usage_ok_stream; [done|]. intros l [= <-]. apply Forall_app. split.
    + eapply Forall_impl; [exact Hsu|]. unfold known. intros. lia.
    + constructor; [by rewrite <- Huses|done].
Qed.

(** The state that the changes start from. *)
Lemma ch_inv_start {W} lower headers e (w : bitWriter W) u m r : enc_ok e → usage_ok u → (∀ r, hbu_max (block_of u r) ≤ qe_base e) →
  known u r → ch_inv (qe_base e) (nextBlock u) (qe_base e) (Changing (set_qe_usage u e) w
    (setupUsage m (highestAcknowledged e) (blockedStreams e <? maxBlockedStreams e) r (initHeaders lower headers))).
Proof.
  intros Hok Hu Hmax Hr. pose proof (enc_base_nonneg e Hok) as Hb0. split; cbn [ch_encoder ch_state].
  - split; [by apply enc_ok_usage|done].
  - change (qe_base (set_qe_usage u e)) with (qe_base e). lia.
  - done.
  - unfold setupUsage. cbn [maxBase]. pose proof (eo_acked _ Hok). unfold intMax.
    destruct (highestAcknowledged e <? m), (blockedStreams e <? maxBlockedStreams e); lia.
  - apply bounded_init.
  - done.
Qed.

Lemma writeTableChanges_keeps {W} `{IoWriter W} lower id headers e (w : bitWriter W) :
  let st0 := initHeaders lower headers in
  enc_inv e → qe_base e + zlen headers ≤ 2 ^ 60 →
  Forall (λ h, ordinary (new_entry (h_Name h) (h_Value h))) (ws_headers st0) →
  let s := (writeTableChanges id (Changing e w st0)).2 in
  changed_inv e (zlen headers) (ch_encoder s) (ch_state s).
Proof.
  intros st0 [Hok Hu] Hb Hord. cbv zeta.
  assert (zlen (ws_headers st0) = zlen headers) as Hlen by (unfold zlen; cbn; by rewrite length_fmap).
  pose proof (zlen_nonneg headers) as Hn0. pose proof (enc_base_nonneg e Hok) as Hb0.
  destruct (usage_ok_get (qe_usage e) id Hu) as [Hu1 Hsu].
  pose proof (ut_get_next id (qe_usage e)) as Hnx.
  pose proof (ut_get_blocks id (qe_usage e)) as Hblocks.
  unfold writeTableChanges. rewrite bind_unfold. cbn [getS ch_encoder].
  destruct (ut_get id (qe_usage e)) as [su u]. cbn [fst snd] in *.
  destruct (usage_ok_newBlock u Hu1) as [Hu2 Hr].
  assert (∀ r, hbu_max (block_of (newBlock u).2 r) ≤ qe_base e) as Hmax2.
  { intros r. apply newBlock_max; [done|]. intros r'. rewrite Hblocks. apply (eo_usage _ Hok). }
  destruct (newBlock u) as [r u'] eqn:Hnew. cbn [fst snd] in *.
  assert (nextBlock u' = S (nextBlock u)) as Hnx' by (by injection Hnew as <- <-).
  set (lo := qe_base e). set (k := nextBlock u').
  assert (∀ m, triple (λ s, s = Changing e w st0) (mod_encoder (set_qe_usage u');;
     mod_state (setupUsage m (highestAcknowledged e) (blockedStreams e <? maxBlockedStreams e) r);;
     changesFor 0 (ws_headers st0);;
     s ← getS;
     (if isNewlyBlocked (highestAcknowledged (ch_encoder s)) (ch_state s)
      then mod_encoder (λ e, set_blockedStreams (i64 (blockedStreams e + 1)) e) else mret tt);;
     if 0 <? largestBase (ch_state s) then
       mod_encoder (λ e, set_qe_usage (set_stream id (Some (su ++ [uses (ch_state s)])) (qe_usage e)) e)
     else mret tt) (λ _, ch_inv lo k (lo + zlen headers)) (ch_inv lo k (lo + zlen headers))) as Hrun.
  { intros m. eapply (triple_bind _ _ _ (λ _ s, s = Changing (set_qe_usage u' e) w st0));
      [by apply triple_mod; intros s ->|]. intros ?.
    eapply (triple_bind _ _ _ (λ _, ch_inv lo k lo)).
    { apply triple_mod. intros s ->. by apply ch_inv_start. }
    intros ?. eapply (triple_bind _ _ _ (λ _, ch_inv lo k (lo + zlen headers))).
    { rewrite <- Hlen. apply changesFor_keeps; [lia|done]. }
    intros ?. apply triple_get. intros s Hs. cbv beta. eapply triple_bind; [by apply count_keeps|].
    intros ?. apply record_block_keeps. eapply Forall_impl; [exact Hsu|]. intros x Hx. cbn in Hx. unfold known in Hx. unfold k. lia. }
  specialize (Hrun (su_max u su) _ eq_refl). revert Hrun. cbn [ch_state].
  match goal with |- context [ (mod_encoder _ ≫= ?k) ?s ] => set (o := (mod_encoder (set_qe_usage u') ≫= k) s) end.
  intros Hrun. assert (ch_inv lo k (lo + zlen headers) o.2) as [He Hbs Hks _ Hbds Hkns].
  { destruct o as [[[]|?| |] s']; exact Hrun. }
  split; [done|done| |done|done]. lia.
Qed.

(** ** Blocks, whatever the writer does *)

Section block_keeps.
Context {W : Type} `{IoWriter W} (e0 : QpackEncoder) (st : qpackWriterState).
Hypothesis Hbounded : bounded st (qe_base e0).
Hypothesis Hknown : known (qe_usage e0) (uses st).

(** Writing a block only adds uses. *)
Definition wr_inv (s : writing W) : Prop :=
  wr_state s = st ∧ ∃ u, wr_encoder s = set_qe_usage u e0 ∧ usage_ok u ∧
  (∀ r, hbu_max (block_of u r) ≤ qe_base e0) ∧ nextBlock u = nextBlock (qe_usage e0).

#[local] Abbreviation keeps m := (triple wr_inv m (λ _, wr_inv) wr_inv).

Lemma on_block_keeps {A} (m : go (bitWriter W) A) : keeps (on_block m).
Proof. apply triple_zoom. intros s x Hs. exact Hs. Qed.

Lemma bind_keeps {A B} (m : go (writing W) A) (f : A → go (writing W) B) :
  keeps m → (∀ a, keeps (f a)) → keeps (m ≫= f).
Proof. intros Hm Hf. by apply (triple_bind m f wr_inv (λ _, wr_inv)). Qed.

Lemma getS_keeps {B} (f : writing W → go (writing W) B) : (∀ s, keeps (f s)) → keeps (getS ≫= f).
Proof. intros Hf s Hs. by apply (Hf s s). Qed.

Lemma out_keeps {A} (m : go (writing W) A) : (∀ s, (m s).2 = s) → keeps m.
Proof. intros Hm s Hs. specialize (Hm s). destruct (m s) as [[a|e| |] s']; cbn in Hm; by subst. Qed.

Lemma addUse_keeps i : keeps (addUse i).
Proof using Hbounded Hknown.
  intros s [Hst (u & He & Hu & Hmax & Hn)]. rewrite addUse_step, He, Hst. cbn [set_qe_usage qe_usage].
  split; [done|]. exists (use_entry st i u). cbn [wr_encoder].
  assert (∀ en, used_at st i = Some en → below en (qe_base e0)) as Hen.
  { intros en Hen. apply (Hbounded i). unfold used_at in Hen. destruct (match_at st i); auto. }
  split; [done|]. pose proof (λ r, use_entry_max st i u (qe_base e0) r Hen Hmax) as Hmax'.
  unfold use_entry in *. destruct (used_at st i) as [[s'|d]|]; [done| |done].
  split_and!; [|done|done]. apply usage_ok_add; [|done]. unfold known in *. by rewrite Hn.
Qed.

Lemma writeIndexed_keeps en i : keeps (writeIndexed en i).
Proof using Hbounded Hknown.
  apply getS_keeps. intros s. apply bind_keeps; [|intros ?; apply addUse_keeps].
  destruct en; [by apply bind_keeps; intros; apply on_block_keeps|]. cbv zeta.
  destruct (_ <? 0); apply bind_keeps; intros; apply on_block_keeps.
Qed.

Lemma writeLiteral_keeps h i : keeps (writeLiteral h i).
Proof using Hbounded Hknown.
  apply getS_keeps. intros s. cbv zeta. apply bind_keeps.
  - destruct (mjoin _) as [en|]; [|apply bind_keeps; intros; apply on_block_keeps].
    unfold writeLiteralNameReference. apply getS_keeps. intros s'.
    destruct en; [by apply bind_keeps; intros; apply on_block_keeps|]. cbv zeta.
    destruct (_ <? 0); apply bind_keeps; intros; apply on_block_keeps.
  - intros ?. apply bind_keeps; [apply on_block_keeps|intros ?; apply addUse_keeps].
Qed.

Lemma writeFields_keeps hs i : keeps (writeFields i hs).
Proof using Hbounded Hknown.
  revert i. induction hs as [|h hs IH]; intros i; cbn [writeFields]; [by apply out_keeps|].
  apply getS_keeps. intros s. apply bind_keeps; [|intros ?; apply IH].
  destruct (mjoin _); [apply writeIndexed_keeps|apply writeLiteral_keeps].
Qed.

Lemma writeHeaderBlock_keeps : keeps writeHeaderBlock.
Proof using Hbounded Hknown.
  apply getS_keeps. intros s. apply bind_keeps; [by apply out_keeps|]. intros lr.
  apply bind_keeps; [apply on_block_keeps|]. intros ?.
  apply bind_keeps; [apply on_block_keeps|]. intros ?. apply writeFields_keeps.
Qed.
End block_keeps.

(** Both sections, with nothing in between: beside the usage, the encoder is the one
    the table changes left. *)
Lemma WriteHeaderBlock_keeps {W H} `{IoWriter W} `{IoWriter H} lower id headers e (w : bitWriter W) (h : H) :
  let st0 := initHeaders lower headers in
  enc_inv e → qe_base e + zlen headers ≤ 2 ^ 60 →
  Forall (λ h, ordinary (new_entry (h_Name h) (h_Value h))) (ws_headers st0) →
  let s := (writeTableChanges id (Changing e w st0)).2 in
  let e' := (WriteHeaderBlock lower id headers (e, w, h)).2.1.1 in
  enc_inv e' ∧ ∃ u, e' = set_qe_usage u (ch_encoder s).
Proof.
  intros st0 Hinv Hb Hord. destruct (writeTableChanges_keeps lower id headers e w Hinv Hb Hord) as [He _ _ Hbd Hk].
  cbv zeta. fold st0 in He, Hbd, Hk. unfold WriteHeaderBlock. fold st0.
  destruct (writeTableChanges id _) as [o s]. cbn [snd fst] in *.
  assert (enc_inv (ch_encoder s) ∧ ∃ u, ch_encoder s = set_qe_usage u (ch_encoder s)) as Hsame
    by (split; [done|]; exists (qe_usage (ch_encoder s)); by destruct (ch_encoder s)).
  destruct o as [[]|er| |]; cbn [snd fst]; [|exact Hsame..].
  pose proof (triple_any _ _ _ (Writing (ch_encoder s) (NewBitWriter h) (ch_state s))
    (writeHeaderBlock_keeps (ch_encoder s) (ch_state s) Hbd Hk)) as Hwr.
  destruct (writeHeaderBlock _) as [o s']. cbn [snd fst] in *.
  destruct Hwr as [_ (u & -> & Hu & Hmax & _)].
  { split; [done|]. exists (qe_usage (ch_encoder s)). split_and!; [by destruct (ch_encoder s)|apply He|apply He|done]. }
  split; [|by exists u]. split; [apply enc_ok_usage; [apply He|done]|done].
Qed.

(** ** The step relation *)

(** The encoder, and the blocks whose table changes are done and that are still
    to be written. *)
Record enc_config := Config {
  cf_encoder : QpackEncoder;
  cf_pending : list qpackWriterState;
}.

(** The operations, each atomic under the encoder's mutex. Writers may fail: the
    encoder keeps what was changed before. Environment assumptions: fewer than
    2^60 inserts, header strings of ordinary size, increments that can be added
    as [int]s, capacities below 2^60. *)
Inductive enc_step (lower : string → string) : enc_config → enc_config → Prop :=
| step_changes W (IW : IoWriter W) id headers e pending (w : bitWriter W) o s :
    qe_base e + zlen headers ≤ 2 ^ 60 →
    Forall (λ h, ordinary (new_entry (h_Name h) (h_Value h))) (ws_headers (initHeaders lower headers)) →
    writeTableChanges id (Changing e w (initHeaders lower headers)) = (o, s) →
    enc_step lower (Config e pending)
      (Config (ch_encoder s) (match o with Ok _ => ch_state s :: pending | _ => pending end))
| step_block W (IW : IoWriter W) e before st after (w : bitWriter W) o s :
    writeHeaderBlock (Writing e w st) = (o, s) →
    enc_step lower (Config e (before ++ st :: after)) (Config (wr_encoder s) (before ++ after))
| step_ack_insert increment e pending o e' :
    - 2 ^ 63 ≤ increment → highestAcknowledged e + increment ≤ intMax →
    AcknowledgeInsert increment e = (o, e') →
    enc_step lower (Config e pending) (Config e' pending)
| step_ack_header id e pending o e' :
    AcknowledgeHeader id e = (o, e') → enc_step lower (Config e pending) (Config e' pending)
| step_ack_reset id e pending o e' :
    AcknowledgeReset id e = (o, e') → enc_step lower (Config e pending) (Config e' pending)
| step_capacity c e pending o e' : 0 ≤ c < 2 ^ 60 →
    Encoder_SetCapacity c e = (o, e') → enc_step lower (Config e pending) (Config e' pending)
| step_limit limit e pending o e' : 0 ≤ limit →
    Encoder_SetReferenceableLimit limit e = (o, e') →
    enc_step lower (Config e pending) (Config e' pending)
| step_max_blocked m e pending o e' :
    SetMaxBlockedStreams m e = (o, e') → enc_step lower (Config e pending) (Config e' pending).

Inductive enc_reachable (lower : string → string) : enc_config → Prop :=
| reach_new c limit e : 0 ≤ c < 2 ^ 60 → 0 ≤ limit →
    NewQpackEncoder c limit = Ok e → enc_reachable lower (Config e [])
| reach_step cf cf' : enc_reachable lower cf → enc_step lower cf cf' → enc_reachable lower cf'.

Definition pending_ok (e : QpackEncoder) (st : qpackWriterState) : Prop :=
  bounded st (qe_base e) ∧ known (qe_usage e) (uses st).

Definition config_inv (cf : enc_config) : Prop :=
  enc_inv (cf_encoder cf) ∧ Forall (pending_ok (cf_encoder cf)) (cf_pending cf).

Lemma pending_mono e e' sts : qe_base e ≤ qe_base e' →
  (nextBlock (qe_usage e) ≤ nextBlock (qe_usage e'))%nat →
  Forall (pending_ok e) sts → Forall (pending_ok e') sts.
Proof.
  intros Hb Hn Hall. eapply Forall_impl; [exact Hall|]. intros st [Hbd Hk].
  split; [by eapply bounded_mono|]. unfold known in *. lia.
Qed.

Lemma EncoderTable_SetCapacity_wf c qt qt' : etable_wf qt → 0 ≤ c < 2 ^ 64 →
  EncoderTable_SetCapacity c qt = Ok qt' →
  etable_wf qt' ∧ dynamic (qt_common qt') = dynamic (qt_common qt) ∧
  tbase (qt_common qt') = tbase (qt_common qt) ∧ capacity (qt_common qt') = c.
Proof.
  intros [Hwf Hr Hs Hl Hsz] Hc. unfold EncoderTable_SetCapacity.
  destruct (Z.ltb_spec 0 (tbase (qt_common qt))) as [|Hz]; [done|].
  pose proof Hwf as [_ Hu _ Hbases Htb]. pose proof (zlen_nonneg (dynamic (qt_common qt))).
  assert (dynamic (qt_common qt) = []) as He by (apply zlen_0; lia).
  set (t := TableCommon _ _ _ _). assert (table_wf t) as Hwf'.
  { split; cbn; [done|done|rewrite He; cbn; lia|done|done]. }
  destruct (Z.ltb_spec c (referenceableLimit qt)) as [Hlt|Hge]; intros [= <-].
  - assert (etable_wf (MkQpackEncoderTable t 0 (referenceable qt) (referenceableSize qt))) as Hmid
      by (split; cbn; try done; lia).
    destruct (SetReferenceableLimit_wf (referenceableLimit qt) _ Hmid) as (Hwf2 & Hcom & _); [lia|].
    unfold SetReferenceableLimit in *. cbn [qt_common] in *.
    destruct (limit_scan _ _ _ _). cbn [qt_common] in *. by split_and!.
  - split_and!; try done. split; cbn; try done. lia.
Qed.

Lemma NewQpackEncoder_inv c limit e : 0 ≤ c < 2 ^ 60 → 0 ≤ limit → NewQpackEncoder c limit = Ok e → enc_inv e.
Proof.
  intros Hc Hlim. unfold NewQpackEncoder, NewQpackEncoderTable.
  destruct (EncoderTable_SetCapacity c (MkQpackEncoderTable newTable 0 0 0)) as [qt| | |] eqn:Hset; [|done..].
  apply EncoderTable_SetCapacity_wf in Hset as (Hwf & Hd & Hb & Hcap);
    [|split; cbn; try done; apply newTable_wf|lia].
  destruct (SetReferenceableLimit_wf limit qt Hwf Hlim) as (Hwf' & Hcom & _). intros [= <-].
  split; [|apply usage_ok_new].
  split; unfold qe_capacity, unacked, qe_base, qe_dynamic; cbn [qe_table highestAcknowledged qe_usage
    unacknowledgedSize]; rewrite ?Hcom, ?Hd, ?Hb, ?Hcap; cbn; try done; lia.
Qed.

(** The settings of an encoder keep its invariant, its inserts and its usage. *)
Definition settled (e e' : QpackEncoder) : Prop :=
  enc_inv e' ∧ qe_base e' = qe_base e ∧ qe_usage e' = qe_usage e.

Lemma Encoder_SetCapacity_settled c e : 0 ≤ c < 2 ^ 60 → enc_inv e → settled e (Encoder_SetCapacity c e).2.
Proof.
  intros Hc Hinv. pose proof Hinv as [Hok Hu]. unfold Encoder_SetCapacity. rewrite bind_unfold. cbn [getS].
  rewrite bind_unfold. unfold lift.
  destruct (EncoderTable_SetCapacity c (qe_table e)) as [qt| | |] eqn:Hset; [|done..].
  apply EncoderTable_SetCapacity_wf in Hset as (Hwf & Hd & Hb & Hcap); [|apply (eo_table _ Hok)|lia].
  pose proof Hok as [_ _ Ha Hh Hun Hus]. unfold settled, unacked, qe_base, qe_dynamic in *.
  split; [split; [|done]|by cbn; rewrite Hb].
  split; unfold qe_capacity, unacked, qe_base, qe_dynamic; cbn; rewrite ?Hd, ?Hb, ?Hcap; try done. lia.
Qed.

Lemma Encoder_SetReferenceableLimit_settled limit e : 0 ≤ limit → enc_inv e →
  settled e (Encoder_SetReferenceableLimit limit e).2.
Proof.
  intros Hlim [Hok Hu]. destruct (SetReferenceableLimit_wf limit (qe_table e) (eo_table _ Hok) Hlim) as (Hwf & Hcom & _).
  pose proof Hok as [_ Hcap Ha Hh Hun Hus]. unfold settled, qe_capacity, unacked, qe_base, qe_dynamic in *.
  split; [split; [|done]|cbn [Encoder_SetReferenceableLimit modS snd set_qe_table qe_table]; by rewrite Hcom].
  split; unfold qe_capacity, unacked, qe_base, qe_dynamic; cbn [Encoder_SetReferenceableLimit modS snd set_qe_table qe_table
    highestAcknowledged unacknowledgedSize qe_usage]; by rewrite ?Hcom.
Qed.

Lemma SetMaxBlockedStreams_settled m e : enc_inv e → settled e (SetMaxBlockedStreams m e).2.
Proof.
  intros [Hok Hu]. unfold SetMaxBlockedStreams. rewrite bind_unfold. cbn [getS]. destruct (_ <? _); [done|].
  split; [split; [by destruct Hok|done]|done].
Qed.

Lemma settled_config e e' pending : settled e e' → Forall (pending_ok e) pending → config_inv (Config e' pending).
Proof.
  intros (Hinv & Hb & Hu) Hp. split; [exact Hinv|]. cbn. by apply (pending_mono e); [rewrite Hb|rewrite Hu|].
Qed.

Lemma enc_step_inv lower cf cf' : enc_step lower cf cf' → config_inv cf → config_inv cf'.
Proof.
  intros Hstep [Hinv Hpend]. pose proof Hinv as [Hok Hu].
  destruct Hstep as [W IW id headers e pending w o s Hb Hord Hrun|W IW e before st after w o s Hrun
    |increment e pending o e' Hlow Hhigh Hrun|id e pending o e' Hrun|id e pending o e' Hrun
    |c e pending o e' Hc Hrun|limit e pending o e' Hlim Hrun|m e pending o e' Hrun]; cbn in *.
  - pose proof (writeTableChanges_keeps lower id headers e w Hinv Hb Hord) as Hch. cbv zeta in Hch.
    rewrite Hrun in Hch. cbn in Hch. destruct Hch as [He Hbs Hnx Hbd Hk]. split; [done|]. cbn.
    assert (Forall (pending_ok (ch_encoder s)) pending) as Hp by (eapply pending_mono; [|exact Hnx|exact Hpend]; lia).
    destruct o; [by constructor|done..].
  - apply Forall_app in Hpend as [Hp1 Hp2]. inversion Hp2 as [|?? [Hbd Hk] Hp3]; subst.
    assert (wr_inv e st (Writing e w st)) as H0
      by (split; [done|]; exists (qe_usage e); split_and!; [by destruct e|done|apply (eo_usage _ Hok)|done]).
    pose proof (triple_any _ _ _ _ (writeHeaderBlock_keeps (W := W) e st Hbd Hk) H0) as Hwr.
    rewrite Hrun in Hwr. cbn in Hwr. destruct Hwr as [_ (u & -> & Hu' & Hmax & Hn)].
    split; cbn; [split; [by apply enc_ok_usage|done]|].
    apply (pending_mono e); [reflexivity| |by apply Forall_app]. cbn. by rewrite Hn.
  - pose proof (AcknowledgeInsert_spec increment e Hok Hhigh Hlow) as Hspec.
    destruct (_ && _); [|by rewrite Hrun in Hspec; injection Hspec as -> ->].
    destruct Hspec as (e1 & Hrun1 & Hok1 & Ht & Hus & _). rewrite Hrun in Hrun1. injection Hrun1 as -> ->.
    split; cbn; [split; [done|by rewrite Hus]|].
    apply (pending_mono e); [|by rewrite Hus|exact Hpend]. unfold qe_base. by rewrite Ht.
  - destruct (AcknowledgeHeader_spec id e Hinv) as (o1 & e1 & Hrun1 & _ & Hinv1 & Ht & Hnx & _).
    rewrite Hrun in Hrun1. injection Hrun1 as -> ->. split; [done|]. cbn.
    apply (pending_mono e); [|by rewrite Hnx|exact Hpend]. unfold qe_base. by rewrite Ht.
  - destruct (AcknowledgeReset_spec id e Hinv) as (o1 & e1 & Hrun1 & _ & Hinv1 & Ht & Hnx & _).
    rewrite Hrun in Hrun1. injection Hrun1 as -> ->. split; [done|]. cbn.
    apply (pending_mono e); [|by rewrite Hnx|exact Hpend]. unfold qe_base. by rewrite Ht.
  - apply (settled_config e); [|exact Hpend]. pose proof (Encoder_SetCapacity_settled c e Hc Hinv) as Hset. by rewrite Hrun in Hset.
  - apply (settled_config e); [|exact Hpend]. pose proof (Encoder_SetReferenceableLimit_settled limit e Hlim Hinv) as Hset. by rewrite Hrun in Hset.
  - apply (settled_config e); [|exact Hpend]. pose proof (SetMaxBlockedStreams_settled m e Hinv) as Hset. by rewrite Hrun in Hset.
Qed.

Lemma reachable_inv lower cf : enc_reachable lower cf → config_inv cf.
Proof.
  induction 1 as [c limit e Hc Hlim Hnew|cf cf' _ IH Hstep]; [|by eapply enc_step_inv].
  split; [by eapply NewQpackEncoder_inv|constructor].
Qed.
