(* ===== verification/QpackBlocked.v ===== *)
(** * The QPACK encoder's limit on blocked streams

    A stream is blocked while a block of it in flight uses an entry that the decoder
    has not acknowledged. [blockedStreams] is kept as a count of these streams: when
    the calls of the encoder do not overlap it is never too small, and never above
    the peer's limit. *)

From S2P Require Import Prelude Bits GoIo BitWriter BitReader Streams HcInt HuffmanTable Huffman HcString StaticTable Table Codec QpackTable QpackEncoder QpackTableSpec QpackUsageSpec QpackDecoderSpec QpackEncoderSpec QpackReach.

(** ** Blocked streams *)

(** A block in flight of the stream [id] uses an entry beyond [acked]. *)
Definition waits_beyond (u : qpackUsage) (acked id : Z) : Prop :=
  ∃ su r b, tracker u !! id = Some su ∧ r ∈ su ∧ b ∈ hbu_entries (block_of u r) ∧ acked < b.

Definition stream_blocked (e : QpackEncoder) (id : Z) : Prop :=
  waits_beyond (qe_usage e) (highestAcknowledged e) id.

(** Every block remembers a largest reference above all its uses. *)
Definition tops (u : qpackUsage) : Prop := ∀ r b, b ∈ hbu_entries (block_of u r) → b ≤ hbu_max (block_of u r).

Lemma su_max_above u a su : 0 ≤ a → a < su_max u su ↔ Exists (λ r, a < hbu_max (block_of u r)) su.
Proof.
  intros Ha. unfold su_max. enough (∀ m, a < foldl (λ m r, if m <? hbu_max (block_of u r) then hbu_max (block_of u r) else m) m su ↔
    a < m ∨ Exists (λ r, a < hbu_max (block_of u r)) su) as Hall by (rewrite Hall; split; [intros [?|]; [lia|done]|by right]).
  induction su as [|r su IH]; intros m; cbn [foldl]; [split; [by left|by intros [|?%Exists_nil]]|].
  rewrite IH, Exists_cons. destruct (Z.ltb_spec m (hbu_max (block_of u r))); intuition lia.
Qed.

(** The streams that [countBlockedStreams] counts. *)
Definition blocked_set (u : qpackUsage) (a : Z) : gset Z := dom (filter (λ p, a < su_max u p.2) (tracker u)).

Lemma blocked_count u a : countBlockedStreams u a = Z.of_nat (size (blocked_set u a)).
Proof. unfold countBlockedStreams, blocked_set. by rewrite size_dom. Qed.

Lemma blocked_elem u a id : 0 ≤ a → id ∈ blocked_set u a ↔
  ∃ su r, tracker u !! id = Some su ∧ r ∈ su ∧ a < hbu_max (block_of u r).
Proof.
  intros Ha. unfold blocked_set. rewrite elem_of_dom. split.
  - intros [su [Hsu Hm]%map_lookup_filter_Some]. apply su_max_above, Exists_exists in Hm as (r & ? & ?); [|done]. by exists su, r.
  - intros (su & r & Hsu & Hr & Hlt). exists su. apply map_lookup_filter_Some. split; [done|].
    apply su_max_above; [done|]. apply Exists_exists. by exists r.
Qed.

Lemma count_le u u' a a' : blocked_set u' a' ⊆ blocked_set u a → countBlockedStreams u' a' ≤ countBlockedStreams u a.
Proof. rewrite !blocked_count. intros Hs%subseteq_size. lia. Qed.

Lemma count_plus u u' a a' id : blocked_set u' a' ⊆ {[id]} ∪ blocked_set u a →
  countBlockedStreams u' a' ≤ countBlockedStreams u a + 1.
Proof.
  rewrite !blocked_count. intros Hs%subseteq_size.
  pose proof (size_union_alt {[id]} (blocked_set u a)) as Hu. rewrite size_singleton in Hu.
  pose proof (subseteq_size (blocked_set u a ∖ {[id]}) (blocked_set u a) (subseteq_difference_l _ _ _ (reflexivity _))). lia.
Qed.

Lemma count_minus u u' a a' id : id ∈ blocked_set u a → blocked_set u' a' ⊆ blocked_set u a ∖ {[id]} →
  countBlockedStreams u' a' ≤ countBlockedStreams u a - 1.
Proof.
  assert (∀ X : gset Z, {[id]} ## X ∖ {[id]}) as Hd by set_solver.
  rewrite !blocked_count. intros Hin Hs%subseteq_size.
  assert (blocked_set u a = {[id]} ∪ blocked_set u a ∖ {[id]}) as Hu by (by apply union_difference_singleton_L).
  rewrite Hu, size_union, size_singleton by done. lia.
Qed.

Lemma blocked_antitone u a a' : 0 ≤ a ≤ a' → blocked_set u a' ⊆ blocked_set u a.
Proof.
  intros Ha id. rewrite !blocked_elem by lia. intros (su & r & ? & ? & ?). exists su, r. split_and!; [done..|lia].
Qed.

(** Streams that wait are among those counted. *)
Lemma waits_counted u a id : 0 ≤ a → tops u → waits_beyond u a id → id ∈ blocked_set u a.
Proof.
  intros Ha Ht (su & r & b & Hsu & Hr & Hb & Hlt). apply blocked_elem; [done|]. exists su, r. split_and!; [done..|].
  specialize (Ht r b Hb). lia.
Qed.

Lemma waits_limit u a ids : 0 ≤ a → tops u → NoDup ids → Forall (waits_beyond u a) ids →
  zlen ids ≤ countBlockedStreams u a.
Proof.
  intros Ha Ht Hnd Hall. rewrite blocked_count. unfold zlen. rewrite <- (size_list_to_set (C := gset Z) ids) by done.
  enough (list_to_set ids ⊆ blocked_set u a) as Hs%subseteq_size by lia. intros id Hid%elem_of_list_to_set.
  apply waits_counted; [done..|]. rewrite Forall_forall in Hall. by apply Hall.
Qed.

(** ** The tracker *)

Lemma block_of_add r b u r' : block_of (hbu_add r b u) r' =
  if decide (r' = r) then HeaderBlockUsage (hbu_entries (block_of u r) ++ [b])
    (if hbu_max (block_of u r) <? b then b else hbu_max (block_of u r)) else block_of u r'.
Proof.
  unfold hbu_add, block_of at 1. cbn. destruct (decide (r' = r)) as [->|].
  - by rewrite lookup_insert_eq.
  - by rewrite lookup_insert_ne.
Qed.

Lemma tops_add r b u : tops u → tops (hbu_add r b u).
Proof.
  intros Ht r' b'. rewrite block_of_add. destruct (decide (r' = r)) as [->|]; [|apply Ht]. cbn.
  intros [Hb%Ht|Hb%list_elem_of_singleton]%elem_of_app; destruct (Z.ltb_spec (hbu_max (block_of u r)) b); lia.
Qed.

Lemma tops_ack r u : tops u → tops (hbu_ack r u).
Proof.
  intros Ht r' b. rewrite hbu_ack_max. intros Hb. apply Ht. revert Hb. unfold hbu_ack.
  destruct (release_frame (hbu_entries (block_of u r)) u) as (Hbl & _ & _). set (u' := foldl _ u _) in *.
  unfold block_of at 1. cbn. rewrite Hbl. destruct (decide (r' = r)) as [->|].
  - rewrite lookup_insert_eq. cbn. by intros ?%elem_of_nil.
  - by rewrite lookup_insert_ne.
Qed.

Lemma tops_newBlock u : tops u → tops (newBlock u).2.
Proof.
  intros Ht r b. unfold block_of. cbn. destruct (decide (r = nextBlock u)) as [->|].
  - rewrite lookup_insert_eq. cbn. by intros ?%elem_of_nil.
  - rewrite lookup_insert_ne by done. apply Ht.
Qed.

Lemma su_cancel_facts su u : let '(m, u') := su_cancel su u in
  (∀ r, hbu_max (block_of u' r) = hbu_max (block_of u r)) ∧ tracker u' = tracker u ∧ (tops u → tops u') ∧
  m = su_max u su.
Proof.
  unfold su_cancel, su_max. generalize 0. revert u. induction su as [|r su IH]; intros u m; cbn [foldl]; [done|].
  rewrite hbu_ack_max. specialize (IH (hbu_ack r u) (if m <? hbu_max (block_of u r) then hbu_max (block_of u r) else m)).
  destruct (foldl _ _ su) as [m' u']. destruct IH as (Hmax & Htr & Htops & ->). split_and!.
  - intros r'. by rewrite Hmax, hbu_ack_max.
  - rewrite Htr. unfold hbu_ack. apply (release_frame (hbu_entries (block_of u r)) u).
  - intros Ht. by apply Htops, tops_ack.
  - assert (∀ l n, foldl (λ m0 r0, if m0 <? hbu_max (block_of (hbu_ack r u) r0) then hbu_max (block_of (hbu_ack r u) r0) else m0) n l =
      foldl (λ m0 r0, if m0 <? hbu_max (block_of u r0) then hbu_max (block_of u r0) else m0) n l) as Heq; [|apply Heq].
    induction l as [|x l IHl]; intros n; [done|]. cbn [foldl]. by rewrite hbu_ack_max, IHl.
Qed.

Lemma tracker_set_stream id su u id' :
  tracker (set_stream id su u) !! id' = if decide (id' = id) then su else tracker u !! id'.
Proof.
  cbn. destruct (decide (id' = id)) as [->|]; [by rewrite lookup_partial_alter_eq|by rewrite lookup_partial_alter_ne].
Qed.

(** Releasing a stream. *)
Lemma ut_cancel_blocked id u a : 0 ≤ a → tops u →
  let '(largest, u') := ut_cancel id u in
  tops u' ∧ blocked_set u' a ⊆ blocked_set u a ∖ {[id]} ∧ (a < largest → id ∈ blocked_set u a).
Proof.
  intros Ha Ht. unfold ut_cancel. destruct (tracker u !! id) as [su|] eqn:Hsu.
  - pose proof (su_cancel_facts su u) as Hc. destruct (su_cancel su u) as [m u'].
    destruct Hc as (Hmax & Htr & Htops & ->). split_and!; [by apply Htops| |].
    + intros id'. rewrite elem_of_difference, not_elem_of_singleton, !blocked_elem by done.
      setoid_rewrite tracker_set_stream. intros (su' & r & Hs & Hr & Hlt). destruct (decide (id' = id)); [done|].
      split; [|done]. exists su', r. rewrite Htr in Hs. change (block_of (set_stream id None u') r) with (block_of u' r) in Hlt.
      by rewrite Hmax in Hlt.
    + intros [r [Hr Hlt]]%su_max_above%Exists_exists; [|done]. apply blocked_elem; [done|]. by exists su, r.
  - split_and!; [done| |lia]. intros id' Hid. apply elem_of_difference. split; [done|].
    intros ->%elem_of_singleton. apply blocked_elem in Hid as (su & r & Hs & _); [|done]. congruence.
Qed.

(** Releasing the oldest block of a stream. *)
Lemma ut_ack_blocked id u a : 0 ≤ a → tops u →
  let '(removed, newLargest, u') := ut_ack id u in
  tops u' ∧ blocked_set u' a ⊆ blocked_set u a ∧
  (a < removed → newLargest ≤ a → id ∈ blocked_set u a ∧ blocked_set u' a ⊆ blocked_set u a ∖ {[id]}).
Proof.
  intros Ha Ht. unfold ut_ack. destruct (tracker u !! id) as [[|z su]|] eqn:Hsu; cbn [su_ack].
  - split_and!; [done| |lia]. intros id'. rewrite !blocked_elem by done. setoid_rewrite tracker_set_stream.
    intros (su & r & Hs & Hr). destruct (decide (id' = id)); [done|]. by exists su, r.
  - set (left := match su with [] => None | _ => Some su end).
    assert (∀ id' su' r, tracker (set_stream id left (hbu_ack z u)) !! id' = Some su' → r ∈ su' →
      (id' = id ∧ su' = su) ∨ (id' ≠ id ∧ tracker u !! id' = Some su')) as Hleft.
    { intros id' su' r. rewrite tracker_set_stream. destruct (decide (id' = id)) as [->|].
      - unfold left. destruct su; [done|]. intros [= <-] _. by left.
      - unfold hbu_ack. cbn. rewrite (proj2 (proj2 (release_frame (hbu_entries (block_of u z)) u))). by right. }
    split_and!; [by apply tops_ack| |].
    + intros id'. rewrite !blocked_elem by done. intros (su' & r & Hs & Hr & Hlt).
      change (block_of (set_stream id left (hbu_ack z u)) r) with (block_of (hbu_ack z u) r) in Hlt. rewrite hbu_ack_max in Hlt.
      destruct (Hleft id' su' r Hs Hr) as [[-> ->]|[Hne Hs']]; [|by exists su', r].
      exists (z :: su), r. split_and!; [done|by right|done].
    + intros Hrem Hnew. split; [apply blocked_elem; [done|]; exists (z :: su), z; split_and!; [done|by left|done]|].
      intros id'. rewrite elem_of_difference, not_elem_of_singleton, !blocked_elem by done. intros (su' & r & Hs & Hr & Hlt).
      change (block_of (set_stream id left (hbu_ack z u)) r) with (block_of (hbu_ack z u) r) in Hlt.
      destruct (Hleft id' su' r Hs Hr) as [[-> ->]|[Hne Hs']].
      * assert (a < su_max (hbu_ack z u) su); [|lia]. apply su_max_above; [done|]. apply Exists_exists. by exists r.
      * rewrite hbu_ack_max in Hlt. split; [by exists su', r|done].
  - split_and!; [done|done|lia].
Qed.

(** ** The state of a block *)

(** The entries recorded are at most [largestBase], and that at most [maxBase]. *)
Definition seen (st : qpackWriterState) : Prop := 0 ≤ largestBase st ≤ maxBase st ∧ bounded st (largestBase st).

Lemma updateBase_references en full st : largestBase st ≤ largestBase (updateBase en full st) ∧
  (0 ≤ largestBase st ≤ maxBase st → dynBase en ≤ maxBase st → largestBase (updateBase en full st) ≤ maxBase st) ∧
  below en (largestBase (updateBase en full st)) ∧ maxBase (updateBase en full st) = maxBase st ∧
  wasBlocked (updateBase en full st) = wasBlocked st ∧ uses (updateBase en full st) = uses st.
Proof. destruct en as [s|d]; cbn; [split_and!; try done; lia|]. destruct (Z.ltb_spec (largestBase st) (bde_B d)); split_and!; try done; intros; lia. Qed.

Lemma recordMatch_seen i full nm st : seen st → seen (recordMatch i full nm st) ∧
  maxBase (recordMatch i full nm st) = maxBase st ∧ wasBlocked (recordMatch i full nm st) = wasBlocked st ∧
  uses (recordMatch i full nm st) = uses st.
Proof.
  intros [Hl Hb]. unfold recordMatch.
  assert (∀ en, dynBase en ≤ maxBase st → let st' := updateBase en true (set_match i en st) in
    seen st' ∧ maxBase st' = maxBase st ∧ wasBlocked st' = wasBlocked st ∧ uses st' = uses st) as Hfull.
  { intros en Hen. destruct (updateBase_references en true (set_match i en st)) as (Hge & Hle & Hbelow & Hm & Hw & Hu).
    cbn in Hge, Hle, Hm, Hw, Hu. cbv zeta. rewrite Hm, Hw, Hu. unfold seen. rewrite Hm. split_and!; try done; [lia|by apply Hle|].
    apply bounded_match; [by eapply bounded_mono|done]. }
  assert (∀ en, dynBase en ≤ maxBase st → let st' := updateBase en false (set_nameMatch i en st) in
    seen st' ∧ maxBase st' = maxBase st ∧ wasBlocked st' = wasBlocked st ∧ uses st' = uses st) as Hname.
  { intros en Hen. destruct (updateBase_references en false (set_nameMatch i en st)) as (Hge & Hle & Hbelow & Hm & Hw & Hu).
    cbn in Hge, Hle, Hm, Hw, Hu. cbv zeta. rewrite Hm, Hw, Hu. unfold seen. rewrite Hm. split_and!; try done; [lia|by apply Hle|].
    apply bounded_name; [by eapply bounded_mono|done]. }
  destruct full as [en|]; [destruct (Z.leb_spec (dynBase en) (maxBase st)); [by apply Hfull|]|];
    (destruct nm as [en'|]; [destruct (Z.leb_spec (dynBase en') (maxBase st)); [by apply Hname|]|]; by split_and!).
Qed.

(** ** Table changes *)

Section changes.
Context {W : Type} `{IoWriter W} (e0 : QpackEncoder) (w0 : bool) (m0 : Z) (r0 : nat).

(** The table changes of a block touch the table and the block's state only. *)
Record held (s : changing W) : Prop := {
  hd_usage : qe_usage (ch_encoder s) = qe_usage e0;
  hd_blocked : blockedStreams (ch_encoder s) = blockedStreams e0;
  hd_max : maxBlockedStreams (ch_encoder s) = maxBlockedStreams e0;
  hd_acked : highestAcknowledged (ch_encoder s) = highestAcknowledged e0;
  hd_was : wasBlocked (ch_state s) = w0;
  hd_maxBase : maxBase (ch_state s) = m0;
  hd_uses : uses (ch_state s) = r0;
  hd_seen : seen (ch_state s);
}.

#[local] Abbreviation keeps m := (triple held m (λ _, held) held).

Lemma held_bind {A B} (m : go (changing W) A) (f : A → go (changing W) B) : keeps m → (∀ a, keeps (f a)) → keeps (m ≫= f).
Proof. intros Hm Hf. by apply (triple_bind m f held (λ _, held)). Qed.

Lemma held_get {B} (f : changing W → go (changing W) B) : (∀ s, keeps (f s)) → keeps (getS ≫= f).
Proof. intros Hf s Hs. by apply (Hf s s). Qed.

Lemma held_ret {A} (a : A) : keeps (mret a).
Proof. by apply triple_ret. Qed.

Lemma held_lift {A} (o : outcome A) : keeps (lift o).
Proof. intros s Hs. by destruct o. Qed.

Lemma held_updates {A} (m : go (bitWriter W) A) : keeps (on_updates m).
Proof. apply triple_zoom. by intros s x []. Qed.

Lemma held_table t : keeps (mod_encoder (set_qe_table t)).
Proof. apply triple_mod. by intros s []. Qed.

Lemma held_size f : keeps (mod_encoder (λ e, set_unacknowledgedSize (f e) e)).
Proof. apply triple_mod. by intros s []. Qed.

Lemma held_record i full nm : keeps (mod_state (recordMatch i full nm)).
Proof.
  apply triple_mod. intros s [? ? ? ? Hw Hm Hu Hs]. destruct (recordMatch_seen i full nm _ Hs) as (? & ? & ? & ?).
  split; cbn; congruence || done.
Qed.

Ltac held_body := repeat match goal with
  | |- triple held (getS ≫= _) _ _ => apply held_get; intros ?
  | |- triple held (_ ≫= _) _ _ => apply held_bind; [|intros ?]
  | |- triple held (if ?b then _ else _) _ _ => destruct b
  | |- triple held (match ?x with _ => _ end) _ _ => destruct x
  | |- triple held _ _ _ => first [apply held_ret|apply held_lift|apply held_updates|apply held_table|apply held_record
      |apply (held_size (λ e, u64 (unacknowledgedSize e + _)))|progress cbv beta zeta]
  end.

Lemma insert_held name value : keeps (insert name value).
Proof. unfold insert. held_body. Qed.

Lemma changeFor_held i h : keeps (changeFor i h).
Proof.
  unfold changeFor, writeInsert, writeDuplicate. held_body; try apply insert_held; held_body.
Qed.

Lemma changesFor_held hs i : keeps (changesFor i hs).
Proof.
  revert i. induction hs as [|h hs IH]; intros i; cbn [changesFor]; [apply held_ret|].
  apply held_bind; [apply changeFor_held|]. intros _. apply IH.
Qed.
End changes.

(** [writeTableChanges] around its loop. *)
Lemma writeTableChanges_eq {W} `{IoWriter W} id e (w : bitWriter W) st :
  let g := ut_get id (qe_usage e) in let n := newBlock g.2 in
  writeTableChanges id (Changing e w st) =
  match changesFor 0 (ws_headers st) (Changing (set_qe_usage n.2 e) w
      (setupUsage (su_max g.2 g.1) (highestAcknowledged e) (blockedStreams e <? maxBlockedStreams e) n.1 st)) with
  | (Ok _, s) => (Ok tt, Changing (recorded id g.1 (ch_state s) (counted (ch_state s) (ch_encoder s))) (ch_updates s) (ch_state s))
  | (Err er, s) => (Err er, s)
  | (Panic, s) => (Panic, s)
  | (NoFuel, s) => (NoFuel, s)
  end.
Proof.
  cbv zeta. unfold writeTableChanges. rewrite bind_unfold. cbn [getS ch_encoder].
  destruct (ut_get id (qe_usage e)) as [su u]. cbn [fst snd]. destruct (newBlock u) as [r u']. cbn [fst snd].
  rewrite bind_unfold. cbn [mod_encoder modS ch_encoder ch_updates ch_state].
  rewrite bind_unfold. cbn [mod_state modS ch_encoder ch_updates ch_state].
  rewrite bind_unfold. destruct (changesFor _ _ _) as [[[]|er| |] s]; [|done..]. destruct s as [e2 w2 st2].
  rewrite bind_unfold. cbn [getS ch_encoder ch_state ch_updates]. unfold recorded, counted.
  destruct (isNewlyBlocked _ _); rewrite bind_unfold; cbn [mod_encoder modS ch_encoder ch_updates ch_state mret go_ret];
    by destruct (0 <? largestBase st2).
Qed.

(** Writing a block adds uses up to [top] to the block [r]. *)
Record grown (r : nat) (top : Z) (u u' : qpackUsage) : Prop := {
  gr_tracker : tracker u' = tracker u;
  gr_other r' : r' ≠ r → hbu_max (block_of u' r') = hbu_max (block_of u r');
  gr_top : hbu_max (block_of u' r) ≤ top;
  gr_tops : tops u → tops u';
}.

(** The count covers the streams that are blocked and is within the limit. *)
Record limits (e : QpackEncoder) : Prop := {
  li_tops : tops (qe_usage e);
  li_count : countBlockedStreams (qe_usage e) (highestAcknowledged e) ≤ blockedStreams e;
  li_max : blockedStreams e ≤ maxBlockedStreams e ≤ intMax;
}.

Record limit_inv (e : QpackEncoder) : Prop := {
  li_inv : enc_inv e;
  li_limits : limits e;
}.

Lemma limit_low e : limit_inv e → 0 ≤ highestAcknowledged e ∧ 0 ≤ blockedStreams e.
Proof.
  intros [[Hok _] [_ Hc _]]. rewrite blocked_count in Hc. split; [apply (eo_acked _ Hok)|lia].
Qed.

Section write.
Context (e : QpackEncoder) (id : Z).
Hypothesis Hlim : limit_inv e.
#[local] Abbreviation a := (highestAcknowledged e).
#[local] Abbreviation g := (ut_get id (qe_usage e)).
#[local] Abbreviation fresh_block := (newBlock g.2).

Lemma get_tracker id' su r : tracker g.2 !! id' = Some su → r ∈ su → tracker (qe_usage e) !! id' = Some su.
Proof.
  unfold ut_get. destruct (tracker (qe_usage e) !! id) as [su0|] eqn:Hs; [done|]. cbn [snd]. rewrite tracker_set_stream.
  destruct (decide (id' = id)); [|done]. by intros [= <-] ?%elem_of_nil.
Qed.

Lemma get_stream r : r ∈ g.1 → tracker (qe_usage e) !! id = Some g.1.
Proof. unfold ut_get. destruct (tracker (qe_usage e) !! id); [done|]. by intros ?%elem_of_nil. Qed.

Lemma known_old id' su r : tracker (qe_usage e) !! id' = Some su → r ∈ su → r ≠ fresh_block.1 ∧ block_of fresh_block.2 r = block_of (qe_usage e) r.
Proof using Hlim.
  intros Hs Hr. pose proof (uo_known _ (proj2 (li_inv e Hlim)) _ _ Hs) as Hk. rewrite Forall_forall in Hk.
  specialize (Hk r Hr). unfold known in Hk. pose proof (ut_get_next id (qe_usage e)) as Hn.
  assert (blocks g.2 = blocks (qe_usage e)) as Hb by (unfold ut_get; by destruct (tracker (qe_usage e) !! id)).
  destruct (ut_get id (qe_usage e)) as [su' u]. cbn [fst snd newBlock] in *. split; [lia|].
  unfold block_of. cbn [blocks]. rewrite lookup_insert_ne by lia. by rewrite Hb.
Qed.

Lemma start_tops : tops fresh_block.2.
Proof using Hlim.
  apply tops_newBlock. intros r b. rewrite ut_get_blocks. apply (li_tops e (li_limits e Hlim)).
Qed.

Lemma start_blocked : blocked_set fresh_block.2 a ⊆ blocked_set (qe_usage e) a.
Proof using Hlim.
  destruct (limit_low e Hlim) as [Ha _]. intros id'. rewrite !blocked_elem by done. intros (su & r & Hs & Hr & Hlt).
  pose proof (get_tracker id' su r Hs Hr) as Hs'. destruct (known_old id' su r Hs' Hr) as [_ Hb].
  exists su, r. by rewrite <- Hb.
Qed.

(** A block of the stream with references up to [top] blocks no other stream. *)
Lemma written_blocked (keep : bool) top u :
  grown fresh_block.1 top (if keep then set_stream id (Some (g.1 ++ [fresh_block.1])) fresh_block.2 else fresh_block.2) u →
  blocked_set u a ⊆ {[id]} ∪ blocked_set (qe_usage e) a ∧ (top ≤ a → blocked_set u a ⊆ blocked_set (qe_usage e) a).
Proof using Hlim.
  destruct (limit_low e Hlim) as [Ha _]. intros [Htr Hother Htop _].
  enough (∀ id', id' ∈ blocked_set u a → id' ∈ blocked_set (qe_usage e) a ∨ (id' = id ∧ a < top)) as Hall.
  { split; [intros id' [?|[-> _]]%Hall; set_solver|intros Hle id' [?|[_ ?]]%Hall; [done|lia]]. }
  intros id'. rewrite !blocked_elem by done. intros (su & r & Hs & Hr & Hlt). rewrite Htr in Hs.
  assert (r ≠ fresh_block.1 → hbu_max (block_of u r) = hbu_max (block_of fresh_block.2 r)) as Hother'
    by (intros Hne; rewrite Hother by done; by destruct keep).
  destruct (decide (r = fresh_block.1)) as [->|Hne].
  - right. split; [|lia]. destruct keep.
    + rewrite tracker_set_stream in Hs. destruct (decide (id' = id)) as [|Hid]; [done|].
      pose proof (get_tracker id' su fresh_block.1 Hs Hr) as Hs'. by destruct (known_old id' su fresh_block.1 Hs' Hr).
    + pose proof (get_tracker id' su fresh_block.1 Hs Hr) as Hs'. by destruct (known_old id' su fresh_block.1 Hs' Hr).
  - left. rewrite (Hother' Hne) in Hlt. destruct keep.
    + rewrite tracker_set_stream in Hs. destruct (decide (id' = id)) as [->|].
      * injection Hs as <-. apply elem_of_app in Hr as [Hr|Hr%list_elem_of_singleton]; [|done].
        pose proof (get_stream r Hr) as Hs'. destruct (known_old id g.1 r Hs' Hr) as [_ Hb]. exists g.1, r. by rewrite <- Hb.
      * pose proof (get_tracker id' su r Hs Hr) as Hs'. destruct (known_old id' su r Hs' Hr) as [_ Hb]. exists su, r. by rewrite <- Hb.
    + pose proof (get_tracker id' su r Hs Hr) as Hs'. destruct (known_old id' su r Hs' Hr) as [_ Hb]. exists su, r. by rewrite <- Hb.
Qed.
End write.

Lemma setup_seen lower headers m acked allowed r : 0 ≤ acked →
  seen (setupUsage m acked allowed r (initHeaders lower headers)).
Proof.
  intros Ha. split; [|apply bounded_init]. cbn. unfold intMax. destruct (_ <? _), allowed; lia.
Qed.

Lemma recorded_usage id su st e : qe_usage (recorded id su st (counted st e)) =
  if 0 <? largestBase st then set_stream id (Some (su ++ [uses st])) (qe_usage e) else qe_usage e.
Proof. unfold recorded, counted. by destruct (isNewlyBlocked _ _), (0 <? _). Qed.

(** The count of a block that is set up on [e], and what it may then refer to. *)
Lemma counted_limit e m st : limit_inv e → wasBlocked st = (highestAcknowledged e <? m) →
  maxBase st = (if highestAcknowledged e <? m then intMax else if blockedStreams e <? maxBlockedStreams e then intMax
    else highestAcknowledged e) → largestBase st ≤ maxBase st →
  let newly := isNewlyBlocked (highestAcknowledged e) st in
  (if newly then blockedStreams e < maxBlockedStreams e ∧ i64 (blockedStreams e + 1) = blockedStreams e + 1 else True) ∧
  (newly = false → highestAcknowledged e < m ∨ largestBase st ≤ highestAcknowledged e).
Proof.
  intros Hlim Hw Hm Hle. pose proof (limit_low e Hlim) as [Ha Hc0]. pose proof (li_max _ (li_limits _ Hlim)). cbv zeta.
  unfold isNewlyBlocked. rewrite Hw. rewrite Hm in Hle. unfold intMax in *. destruct (Z.ltb_spec (highestAcknowledged e) m); [by split; [|left]|].
  destruct (Z.ltb_spec (highestAcknowledged e) (largestBase st)); [|by split; [|right]].
  destruct (Z.ltb_spec (blockedStreams e) (maxBlockedStreams e)); [|lia]. split; [|done].
  split; [done|]. apply i64_small. lia.
Qed.

(** After the table changes, the count covers whatever the block is to refer to. *)
Lemma changes_limits {W} `{IoWriter W} lower id headers e (w : bitWriter W) : limit_inv e →
  let '(o, s) := writeTableChanges id (Changing e w (initHeaders lower headers)) in
  match o with
  | Ok _ => bounded (ch_state s) (largestBase (ch_state s)) ∧ 0 ≤ largestBase (ch_state s) ∧
      hbu_max (block_of (qe_usage (ch_encoder s)) (uses (ch_state s))) = 0 ∧
      ∀ u, grown (uses (ch_state s)) (largestBase (ch_state s)) (qe_usage (ch_encoder s)) u →
        limits (set_qe_usage u (ch_encoder s))
  | _ => limits (ch_encoder s)
  end.
Proof.
  intros Hlim. pose proof (limit_low e Hlim) as [Ha Hc0]. rewrite writeTableChanges_eq. cbv zeta.
  pose proof (start_tops e id Hlim) as Htops. pose proof (start_blocked e id Hlim) as Hstart.
  pose proof (written_blocked e id Hlim) as Hwritten. pose proof (su_max_above (ut_get id (qe_usage e)).2 (highestAcknowledged e) (ut_get id (qe_usage e)).1 Ha) as Hmax.
  pose proof (get_stream e id) as Hstream.
  set (g := ut_get id (qe_usage e)) in *. set (n := newBlock g.2) in *. set (st1 := setupUsage _ _ _ _ _). set (e1 := set_qe_usage n.2 e).
  pose proof (changesFor_held e1 (wasBlocked st1) (maxBase st1) n.1 (ws_headers (initHeaders lower headers)) 0 (Changing e1 w st1)) as Hheld.
  destruct (changesFor _ _ _) as [[[]|er| |] s];
    (destruct Hheld as [Hu Hb Hm Hac Hw HmB Hus [Hl Hbd]]; [split; try done; by apply setup_seen|]).
  2-4: split; [by rewrite Hu| |by rewrite Hb, Hm; apply Hlim]; rewrite Hu, Hac, Hb;
    etrans; [by apply (count_le (qe_usage e) _ (highestAcknowledged e))|apply Hlim].
  cbn [ch_encoder ch_state]. set (st := ch_state s) in *. set (e2 := ch_encoder s) in *. split; [exact Hbd|split; [lia|split]].
  { rewrite recorded_usage, Hus, Hu. destruct (0 <? largestBase st); unfold block_of; cbn; by rewrite lookup_insert_eq. }
  intros u Hgrown. destruct (recorded_counted_same id g.1 st e2) as (_ & _ & Ha' & Hm' & Hb').
  rewrite recorded_usage, Hus, Hu in Hgrown.
  change (qe_usage e1) with n.2 in *. change (blockedStreams e1) with (blockedStreams e) in *.
  change (maxBlockedStreams e1) with (maxBlockedStreams e) in *. change (highestAcknowledged e1) with (highestAcknowledged e) in *.
  destruct (Hwritten (0 <? largestBase st) (largestBase st) u Hgrown) as [Hone Hnone].
  destruct (counted_limit e (su_max g.2 g.1) st Hlim) as [Hnewly Hold].
  { rewrite Hw. cbn. by destruct (highestAcknowledged e <? su_max g.2 g.1). }
  { by rewrite HmB. }
  { lia. }
  pose proof (li_max _ (li_limits _ Hlim)) as Hlm. pose proof (li_count _ (li_limits _ Hlim)) as Hcount.
  split; cbn [qe_usage highestAcknowledged blockedStreams maxBlockedStreams set_qe_usage]; rewrite ?Ha', ?Hm', ?Hb', ?Hac, ?Hm;
    unfold counted; rewrite ?Hac.
  - apply (gr_tops _ _ _ _ Hgrown). by destruct (0 <? largestBase st).
  - destruct (isNewlyBlocked _ st).
    + cbn [blockedStreams set_blockedStreams]. rewrite Hb, (proj2 Hnewly). pose proof (count_plus _ _ _ _ _ Hone). lia.
    + rewrite Hb. etrans; [|exact Hcount]. apply count_le. destruct (Hold eq_refl) as [Hwas|]; [|by apply Hnone].
      apply Hmax, Exists_exists in Hwas as (r & Hr & Hlt). intros id' [->%elem_of_singleton|?]%Hone%elem_of_union; [|done].
      apply blocked_elem; [done|]. exists g.1, r. split_and!; [by apply (Hstream r)|done|]. cbv beta in Hlt. unfold g in Hlt. by rewrite ut_get_blocks in Hlt.
  - destruct (isNewlyBlocked _ st); cbn [blockedStreams set_blockedStreams]; rewrite Hb; lia.
Qed.

(** ** The block *)

Section block.
Context {W : Type} `{IoWriter W} (e0 : QpackEncoder) (st : qpackWriterState).
Hypothesis Hbounded : bounded st (largestBase st).
Hypothesis Hlow : 0 ≤ largestBase st.

Definition uses_grown (s : writing W) : Prop :=
  wr_state s = st ∧ ∃ u, wr_encoder s = set_qe_usage u e0 ∧ grown (uses st) (largestBase st) (qe_usage e0) u.

#[local] Abbreviation keeps m := (triple uses_grown m (λ _, uses_grown) uses_grown).

Lemma grown_block {A} (m : go (bitWriter W) A) : keeps (on_block m).
Proof. apply triple_zoom. intros s x Hs. exact Hs. Qed.

Lemma grown_bind {A B} (m : go (writing W) A) (f : A → go (writing W) B) :
  keeps m → (∀ a, keeps (f a)) → keeps (m ≫= f).
Proof. intros Hm Hf. by apply (triple_bind m f uses_grown (λ _, uses_grown)). Qed.

Lemma grown_get {B} (f : writing W → go (writing W) B) : (∀ s, keeps (f s)) → keeps (getS ≫= f).
Proof. intros Hf s Hs. by apply (Hf s s). Qed.

Lemma grown_ret {A} (a : A) : keeps (mret a).
Proof. by apply triple_ret. Qed.

Lemma grown_lift {A} (o : outcome A) : keeps (lift o).
Proof. intros s Hs. by destruct o. Qed.

Lemma grown_use i : keeps (addUse i).
Proof using Hbounded Hlow.
  intros s [Hst (u & He & Hg)]. rewrite addUse_step, He, Hst. split; [done|].
  exists (use_entry st i u). split; [done|]. unfold use_entry.
  destruct (used_at st i) as [[s'|d]|] eqn:Hused; [done| |done]. destruct Hg as [Htr Hother Htop Htops].
  assert (Base d ≤ largestBase st) as Hle.
  { apply (Hbounded i (Dynamic d)). unfold used_at in Hused. destruct (match_at st i); auto. }
  split; [exact Htr| | |intros Ht; by apply tops_add, Htops].
  - intros r' Hne. rewrite block_of_add, decide_False by done. by apply Hother.
  - rewrite block_of_add, decide_True by done. cbn in Hle |- *. case_match; lia.
Qed.

Ltac grown_body := repeat match goal with
  | |- triple uses_grown (getS ≫= _) _ _ => apply grown_get; intros ?
  | |- triple uses_grown (_ ≫= _) _ _ => apply grown_bind; [|intros ?]
  | |- triple uses_grown (if ?b then _ else _) _ _ => destruct b
  | |- triple uses_grown (match ?x with _ => _ end) _ _ => destruct x
  | |- triple uses_grown _ _ _ => first [apply grown_ret|apply grown_lift|apply grown_block|apply grown_use|progress cbv beta zeta]
  end.

Lemma writeFields_grown hs i : keeps (writeFields i hs).
Proof using Hbounded Hlow.
  revert i. induction hs as [|h hs IH]; intros i; cbn [writeFields]; [apply grown_ret|].
  apply grown_get. intros s. apply grown_bind; [|intros _; apply IH].
  unfold writeIndexed, writeLiteral, writeLiteralNameReference. grown_body.
Qed.

Lemma writeHeaderBlock_grown : keeps writeHeaderBlock.
Proof using Hbounded Hlow. unfold writeHeaderBlock. grown_body. apply writeFields_grown. Qed.
End block.

(** A whole call of [WriteHeaderBlock], whatever its writers do. *)
Lemma WriteHeaderBlock_limits {W H} `{IoWriter W} `{IoWriter H} lower id headers e (w : bitWriter W) (h : H) :
  limit_inv e → qe_base e + zlen headers ≤ 2 ^ 60 →
  Forall (λ h, ordinary (new_entry (h_Name h) (h_Value h))) (ws_headers (initHeaders lower headers)) →
  limit_inv (WriteHeaderBlock lower id headers (e, w, h)).2.1.1.
Proof.
  intros Hlim Hb Hord. split; [by apply (WriteHeaderBlock_keeps lower id headers e w h (li_inv _ Hlim) Hb Hord)|].
  pose proof (changes_limits lower id headers e w Hlim) as Hch. unfold WriteHeaderBlock.
  destruct (writeTableChanges id _) as [[[]|er| |] s]; [|exact Hch..]. destruct Hch as (Hbd & Hlow & Hnew & Hall).
  pose proof (triple_any _ _ _ (Writing (ch_encoder s) (NewBitWriter h) (ch_state s))
    (writeHeaderBlock_grown (ch_encoder s) (ch_state s) Hbd Hlow)) as Hwr.
  destruct (writeHeaderBlock _) as [o s']. cbn [snd fst] in *.
  destruct Hwr as [_ (u & -> & Hg)]; [|by apply Hall]. split; [done|]. exists (qe_usage (ch_encoder s)).
  split; [by destruct (ch_encoder s)|].
  split; [done|done|by rewrite Hnew|done].
Qed.

(** ** Acknowledgments *)

Lemma AcknowledgeInsert_limits increment e : limit_inv e →
  - 2 ^ 63 ≤ increment → highestAcknowledged e + increment ≤ intMax → limit_inv (AcknowledgeInsert increment e).2.
Proof.
  intros Hlim Hlow Hhigh. pose proof (limit_low e Hlim) as [Ha Hc0]. pose proof Hlim as [[Hok Hu] [Ht Hc Hm]].
  pose proof (AcknowledgeInsert_spec increment e Hok Hhigh Hlow) as Hs.
  destruct ((0 <? increment) && (increment <=? unacked e)) eqn:Hcond; [|by rewrite Hs].
  apply andb_prop in Hcond as [Hpos%Z.ltb_lt Hle%Z.leb_le]. pose proof (eo_acked _ Hok). unfold unacked in *.
  destruct Hs as (e' & Hr & Hok' & _ & Hus & _). rewrite Hr. cbn [snd]. split; [split; [done|by rewrite Hus]|].
  unfold AcknowledgeInsert in Hr. rewrite (proj2 (Z.leb_gt increment 0)), bind_unfold in Hr by lia. cbn [getS] in Hr.
  unfold intMax in *. rewrite i64_small, (proj2 (Z.ltb_ge _ _)), bind_unfold in Hr by lia. cbn [modS] in Hr.
  set (e1 := set_blockedStreams _ e) in Hr.
  destruct (updateHighestAcknowledged_spec increment e1) as (n & Hr' & _); [by apply enc_ok_blocked|change (unacked e1) with (unacked e); unfold unacked; lia|].
  rewrite Hr' in Hr. injection Hr as <-.
  pose proof (count_le (qe_usage e) (qe_usage e) _ _ (blocked_antitone (qe_usage e) (highestAcknowledged e) (highestAcknowledged e + increment) ltac:(lia))).
  split; cbn; [done|done|unfold intMax; lia].
Qed.

Lemma AcknowledgeHeader_limits id e : limit_inv e → limit_inv (AcknowledgeHeader id e).2.
Proof.
  intros Hlim. pose proof (limit_low e Hlim) as [Ha Hc0]. pose proof Hlim as [Hinv [Ht Hc Hm]]. pose proof Hinv as [Hok Hu].
  split. { destruct (AcknowledgeHeader_spec id e Hinv) as (o & e' & -> & _ & Hinv' & _). exact Hinv'. }
  pose proof (ut_ack_blocked id (qe_usage e) (highestAcknowledged e) Ha Ht) as Hack.
  destruct (ut_ack_same id (qe_usage e) Hu) as [Hsame Hmax].
  specialize (Hmax (qe_base e) (enc_base_nonneg e Hok) (eo_usage _ Hok)).
  unfold AcknowledgeHeader. rewrite bind_unfold. cbn [getS].
  destruct (ut_ack id (qe_usage e)) as [[removed newLargest] u]. cbn [fst snd] in *. destruct Hack as (Htu & Hsub & Hone).
  pose proof (enc_inv_usage e u Hinv Hsame) as [Hok1 _]. rewrite bind_unfold. cbn [modS]. set (e1 := set_qe_usage u e) in *.
  assert (limits e1) as Hl1 by (split; [done|etrans; [by apply count_le|done]|done]).
  destruct (removed =? 0); [done|]. destruct (Z.ltb_spec (highestAcknowledged e) removed) as [Hlt|]; [|done]. cbn [andb].
  destruct (Z.leb_spec newLargest (highestAcknowledged e)) as [Hle|]; [|done]. destruct (Hone Hlt Hle) as [Hin Hless].
  rewrite bind_unfold. cbn [modS]. set (e2 := set_blockedStreams _ e1).
  pose proof (wf_tbase _ (enc_table_wf e Hok)) as Htb. change (tbase (qe_common_table e)) with (qe_base e) in Htb.
  unfold intMax in *. rewrite i64_small by lia.
  destruct (updateHighestAcknowledged_spec (removed - highestAcknowledged e) e2) as (n & -> & _);
    [by apply enc_ok_blocked|change (unacked e2) with (unacked e); unfold unacked; lia|].
  pose proof (count_minus (qe_usage e) u (highestAcknowledged e) (highestAcknowledged e) id Hin Hless).
  pose proof (count_le u u _ _ (blocked_antitone u (highestAcknowledged e) (highestAcknowledged e + (removed - highestAcknowledged e)) ltac:(lia))).
  pose proof (blocked_count u (highestAcknowledged e)).
  split; cbn; rewrite ?i64_small by lia; [done|lia|unfold intMax; lia].
Qed.

Lemma AcknowledgeReset_limits id e : limit_inv e → limit_inv (AcknowledgeReset id e).2.
Proof.
  intros Hlim. pose proof (limit_low e Hlim) as [Ha Hc0]. pose proof Hlim as [Hinv [Ht Hc Hm]].
  split. { destruct (AcknowledgeReset_spec id e Hinv) as (o & e' & -> & _ & Hinv' & _). exact Hinv'. }
  pose proof (ut_cancel_blocked id (qe_usage e) (highestAcknowledged e) Ha Ht) as Hcancel.
  unfold AcknowledgeReset. rewrite bind_unfold. cbn [getS]. destruct (ut_cancel id (qe_usage e)) as [largest u].
  destruct Hcancel as (Htu & Hless & Hin). rewrite bind_unfold. cbn [modS].
  assert (blocked_set u (highestAcknowledged e) ⊆ blocked_set (qe_usage e) (highestAcknowledged e)) as Hsub by set_solver.
  assert (limits (set_qe_usage u e)) as Hl1 by (split; [done|etrans; [by apply count_le|done]|done]).
  destruct (largest <? 0); [done|]. destruct (Z.ltb_spec (highestAcknowledged e) largest) as [Hlt|]; [|done].
  pose proof (count_minus (qe_usage e) u _ (highestAcknowledged e) id (Hin Hlt) Hless).
  pose proof (blocked_count u (highestAcknowledged e)). unfold intMax in *.
  split; cbn; rewrite ?i64_small by lia; [done|lia|unfold intMax; lia].
Qed.

(** ** Calls that do not overlap *)

(** The calls of an encoder one after the other, with writers that may fail. The
    assumptions on the environment are those of [enc_step]. *)
Inductive call_step (lower : string → string) : QpackEncoder → QpackEncoder → Prop :=
| call_write W H (IW : IoWriter W) (IH : IoWriter H) id headers e (w : bitWriter W) (h : H) :
    qe_base e + zlen headers ≤ 2 ^ 60 →
    Forall (λ h, ordinary (new_entry (h_Name h) (h_Value h))) (ws_headers (initHeaders lower headers)) →
    call_step lower e (WriteHeaderBlock lower id headers (e, w, h)).2.1.1
| call_ack_insert increment e :
    - 2 ^ 63 ≤ increment → highestAcknowledged e + increment ≤ intMax →
    call_step lower e (AcknowledgeInsert increment e).2
| call_ack_header id e : call_step lower e (AcknowledgeHeader id e).2
| call_ack_reset id e : call_step lower e (AcknowledgeReset id e).2
| call_capacity c e : 0 ≤ c < 2 ^ 60 → call_step lower e (Encoder_SetCapacity c e).2
| call_limit limit e : 0 ≤ limit → call_step lower e (Encoder_SetReferenceableLimit limit e).2
| call_max_blocked m e : m ≤ intMax → call_step lower e (SetMaxBlockedStreams m e).2.

Inductive call_reachable (lower : string → string) : QpackEncoder → Prop :=
| called_new c limit e : 0 ≤ c < 2 ^ 60 → 0 ≤ limit → NewQpackEncoder c limit = Ok e → call_reachable lower e
| called_step e e' : call_reachable lower e → call_step lower e e' → call_reachable lower e'.

Lemma limits_new c limit e : 0 ≤ c < 2 ^ 60 → 0 ≤ limit → NewQpackEncoder c limit = Ok e → limit_inv e.
Proof.
  intros Hc Hl Hnew. split; [by eapply NewQpackEncoder_inv|]. unfold NewQpackEncoder in Hnew.
  destruct (NewQpackEncoderTable c limit); [|done..]. injection Hnew as <-. split; cbn; [|done|done].
  intros r b. unfold block_of. cbn. rewrite lookup_empty. cbn. by intros ?%elem_of_nil.
Qed.

Lemma call_limits lower e e' : call_step lower e e' → limit_inv e → limit_inv e'.
Proof.
  intros [] Hlim.
  - by apply WriteHeaderBlock_limits.
  - by apply AcknowledgeInsert_limits.
  - by apply AcknowledgeHeader_limits.
  - by apply AcknowledgeReset_limits.
  - split; [by apply Encoder_SetCapacity_settled, Hlim|]. destruct (li_limits _ Hlim) as [Ht Hcn Hm].
    unfold Encoder_SetCapacity. rewrite bind_unfold. cbn [getS]. rewrite bind_unfold. unfold lift.
    by destruct (EncoderTable_SetCapacity c (qe_table _)).
  - split; [by apply Encoder_SetReferenceableLimit_settled, Hlim|]. by destruct (li_limits _ Hlim).
  - split; [by apply SetMaxBlockedStreams_settled, Hlim|]. destruct (li_limits _ Hlim) as [Ht Hcn Hm].
    unfold SetMaxBlockedStreams. rewrite bind_unfold. cbn [getS].
    match goal with |- context [?m <? blockedStreams ?e] => destruct (Z.ltb_spec m (blockedStreams e)) end; [done|].
    split; cbn; [done|done|lia].
Qed.

Lemma reachable_limits lower e : call_reachable lower e → limit_inv e.
Proof. induction 1; [by eapply limits_new|by eapply call_limits]. Qed.
