(* ===== verification/QpackIdle.v ===== *)
(** * QPACK: an encoder that may refer to nothing

    With a referenceable limit of 0 nothing is ever inserted: the guard of [insert]
    sees to it. That is the encoder of every connection, since [connect] makes it
    with the limit 0 and nothing raises it. *)

From S2P Require Import Prelude Bits GoIo BitWriter BitReader Streams HcInt HuffmanTable Huffman HcString StaticTable Table Codec QpackTable QpackEncoder QpackTableSpec QpackUsageSpec QpackDecoderSpec QpackEncoderSpec QpackReach.

Record idle (e : QpackEncoder) : Prop := {
  id_limit : referenceableLimit (qe_table e) = 0;
  id_empty : qe_dynamic e = [];
  id_base : qe_base e = 0;
}.

Lemma idle_table e e' : qe_table e' = qe_table e → idle e → idle e'.
Proof. intros Ht []. split; unfold qe_dynamic, qe_base in *; by rewrite Ht. Qed.

Lemma idle_unacknowledged e : enc_ok e → idle e → unacknowledgedSize e = 0.
Proof. intros Hok Hi. rewrite (eo_unack _ Hok), (id_empty _ Hi). unfold ztake. by rewrite take_nil. Qed.

Section idle.
Context {W : Type} `{IoWriter W} (qt : QpackEncoderTable) (pref : HuffmanCodingChoice).
Hypothesis Hlimit : referenceableLimit qt = 0.
Hypothesis Hempty : dynamic (qt_common qt) = [].

(** The table is [qt] and nothing is in flight. *)
Definition keeps_idle (s : changing W) : Prop := qe_table (ch_encoder s) = qt ∧ unacknowledgedSize (ch_encoder s) = 0.

Lemma insert_idle n v : 0 < Size (new_entry n v) < 2 ^ 64 →
  triple keeps_idle (insert n v) (λ o s, o = None ∧ keeps_idle s) keeps_idle.
Proof.
  intros Hsize. unfold insert. apply triple_get. intros s [Ht Hu].
  change (MkBasicDynamicEntry n v 0) with (new_entry n v).
  rewrite Ht, Hu, Hlimit, Z.add_0_r, u64_small by lia. rewrite (proj2 (Z.ltb_lt _ _)) by lia.
  apply triple_ret. by intros ? ->.
Qed.

Lemma writeInsert_idle h i nm : field_ok pref h → triple keeps_idle (writeInsert h i nm) (λ _, keeps_idle) keeps_idle.
Proof.
  intros [Hn Hv]. destruct (Size_new_entry pref _ _ Hn Hv) as [_ [Hsize Hlt]].
  unfold sized, entryOverhead in Hsize. eapply triple_bind; [apply insert_idle; lia|]. intros o s [-> Hs]. exact Hs.
Qed.

Lemma mod_state_idle f : triple keeps_idle (mod_state f) (λ _, keeps_idle) keeps_idle.
Proof. by apply triple_mod. Qed.

Lemma changeFor_idle i h : field_ok pref h → triple keeps_idle (changeFor i h) (λ _, keeps_idle) keeps_idle.
Proof.
  intros Hf. unfold changeFor. destruct (h_Sensitive h); [by apply triple_ret|]. apply triple_get. intros s Hs.
  assert (∀ {A} (o : outcome A) (k : A → go (changing W) unit), (∀ a, triple keeps_idle (k a) (λ _, keeps_idle) keeps_idle) →
    triple (λ s', s' = s) (lift o ≫= k) (λ _, keeps_idle) keeps_idle) as Hlift.
  { intros A o k Hk s' ->. unfold lift. rewrite bind_unfold. destruct o as [a|er| |]; try done. by apply Hk. }
  assert (∀ {A} (o : outcome A) (k : A → go (changing W) unit), (∀ a, triple keeps_idle (k a) (λ _, keeps_idle) keeps_idle) →
    triple keeps_idle (lift o ≫= k) (λ _, keeps_idle) keeps_idle) as Hlift'.
  { intros A o k Hk s' Hs'. unfold lift. rewrite bind_unfold. destruct o as [a|er| |]; try done. by apply Hk. }
  destruct Hs as [Ht Hu]. rewrite Ht. unfold LookupExtra. rewrite Hempty. unfold zdrop. rewrite drop_nil. cbn [extra_scan].
  apply Hlift. intros [[entry|] nameMatch]; [apply mod_state_idle|]. apply Hlift'. intros [|]; [by apply triple_ret|].
  eapply (triple_bind _ _ _ (λ r s', r = (None, None) ∧ keeps_idle s')).
  { destruct (_ || _); by intros s' Hs'. }
  intros r s' [-> Hs']. revert s' Hs'.
  apply (triple_bind _ _ keeps_idle (λ _, keeps_idle)); [destruct nameMatch; [apply mod_state_idle|by apply triple_ret]|]. intros _.
  destruct (_ && _); [by apply writeInsert_idle|by apply triple_ret].
Qed.

Lemma changesFor_idle hs i : Forall (field_ok pref) hs → triple keeps_idle (changesFor i hs) (λ _, keeps_idle) keeps_idle.
Proof.
  intros Hf. revert i. induction Hf as [|h hs Hh _ IH]; intros i; cbn [changesFor]; [by apply triple_ret|].
  apply (triple_bind _ _ _ (λ _, keeps_idle)); [by apply changeFor_idle|]. intros _. apply IH.
Qed.

Lemma mod_encoder_idle f : (∀ e, qe_table (f e) = qe_table e) → (∀ e, unacknowledgedSize (f e) = unacknowledgedSize e) →
  triple keeps_idle (mod_encoder f) (λ _, keeps_idle) keeps_idle.
Proof. intros Ht Hu. apply triple_mod. intros s [Hs1 Hs2]. split; cbn; by rewrite ?Ht, ?Hu. Qed.

Lemma writeTableChanges_idle id (s : changing W) : Forall (field_ok pref) (ws_headers (ch_state s)) →
  keeps_idle s → keeps_idle (writeTableChanges id s).2.
Proof.
  intros Hf Hs. apply (triple_any _ (λ s', s' = s ∧ keeps_idle s') keeps_idle); [|done]. unfold writeTableChanges.
  apply triple_get. intros s0 [-> _]. destruct (ut_get id (qe_usage (ch_encoder s))) as [su u]. destruct (newBlock u) as [r u'].
  apply (triple_pre _ _ keeps_idle); [by intros ? ->|].
  apply (triple_bind _ _ _ (λ _, keeps_idle)); [by apply mod_encoder_idle|]. intros _.
  apply (triple_bind _ _ _ (λ _, keeps_idle)); [apply mod_state_idle|]. intros _.
  apply (triple_bind _ _ _ (λ _, keeps_idle)); [by apply changesFor_idle|]. intros _.
  apply triple_get. intros s1 Hs1. apply (triple_pre _ _ keeps_idle); [by intros ? ->|].
  apply (triple_bind _ _ _ (λ _, keeps_idle)); [destruct (isNewlyBlocked _ _); [by apply mod_encoder_idle|by apply triple_ret]|]. intros _.
  destruct (0 <? _); [by apply mod_encoder_idle|by apply triple_ret].
Qed.
End idle.

(** The table changes of a block make none. *)
Lemma writeTableChanges_none {W} `{IoWriter W} pref id e (w : bitWriter W) st : enc_ok e → idle e →
  Forall (field_ok pref) (ws_headers st) →
  qe_table (ch_encoder (writeTableChanges id (Changing e w st)).2) = qe_table e.
Proof.
  intros Hok Hi Hf. destruct (writeTableChanges_idle (qe_table e) pref (id_limit _ Hi) (id_empty _ Hi) id (Changing e w st) Hf) as [Ht _];
    [|exact Ht]. split; [done|by apply idle_unacknowledged].
Qed.
