(* ===== verification/QpackLink.v ===== *)
(** * QPACK: the two ends together

    The streams at the level of bytes: what a decoder makes of the bytes an
    encoder's two critical sections write. *)

From S2P Require Import Prelude Bits GoIo BitWriter BitReader Streams HcInt HuffmanTable Huffman HcString StaticTable Table Codec QpackTable QpackEncoder QpackDecoder QpackTableSpec QpackDecoderSpec QpackEncoderSpec.

(** ** Reading bytes *)

Section read.
Context {R : Type} `{IoReaderSpec R} (pref : HuffmanCodingChoice).

(** A decoder about to read from [r]. *)
Definition decoder_at (t : qpackTableCommon) (sent : list ackEvent) (r : R) : decoding R :=
  qdec (t, sent) (NewBitReader r).

(** Whole instructions cost at least a bit each, so the loops end within fuel for
    the bits of the stream. *)
Lemma mjoin_length {A} (f : A → list bool) (l : list A) : (∀ a, f a ≠ []) →
  (length l ≤ length (mjoin (f <$> l)))%nat.
Proof.
  intros Hf. induction l as [|a l IH]; [done|]. change (mjoin (f <$> a :: l)) with (f a ++ mjoin (f <$> l)).
  rewrite length_app. specialize (Hf a). destruct (f a); [done|]. cbn [length]. lia.
Qed.

Lemma bytes_length bs (bits : list bool) : bits_of_bytes bs = bits → length bits = (8 * length bs)%nat.
Proof. intros <-. pose proof (zlen_bits_of_bytes bs) as Hl. unfold zlen in Hl. lia. Qed.

Lemma reader_start (r : R) : rd_wf r → br_wf (NewBitReader r) ∧ rbits (NewBitReader r) = bits_of_bytes (content r).
Proof. intros Hr. by split; [split|]. Qed.

Lemma read_updates us t sent (r : R) fuel : table_wf t → tbase t + zlen us < intMax →
  Forall (update_ok pref) us → rd_wf r → bits_of_bytes (content r) = updates_bits pref us →
  (8 * length (content r) < fuel)%nat →
  match updates_apply t us with
  | Ok (t', evs) => ∃ br', ReadTableUpdates fuel (decoder_at t sent r) = (Ok tt, qdec (t', sent ++ evs) br')
  | Err e => ∃ x' br', ReadTableUpdates fuel (decoder_at t sent r) = (Err e, qdec x' br')
  | _ => False
  end.
Proof.
  intros Hwf Hb Hok Hr Hbits Hf. destruct (reader_start r Hr) as [Hbr Hl].
  pose proof (ReadTableUpdates_implements pref us (t, sent) fuel (NewBitReader r)) as Hrun.
  apply Hrun; try done. rewrite <- (bytes_length _ _ Hbits) in Hf.
  enough (length us ≤ length (updates_bits pref us))%nat by lia.
  apply mjoin_length. by intros [].
Qed.

(** Every field line takes a bit. *)
Lemma block_lines_length raw sign delta ls : (length ls < length (block_bits pref raw sign delta ls))%nat.
Proof.
  unfold block_bits. rewrite length_app. cbn [length]. rewrite length_app.
  enough (length ls ≤ length (mjoin (line_bits pref <$> ls)))%nat by lia.
  apply mjoin_length. by intros [].
Qed.

Lemma block_lines_fuel p raw sign delta ls fuel : bits_of_bytes p = block_bits pref raw sign delta ls →
  (8 * length p < fuel)%nat → (length ls < fuel)%nat.
Proof.
  intros Hbits Hf. rewrite <- (bytes_length _ _ Hbits) in Hf. pose proof (block_lines_length raw sign delta ls). lia.
Qed.

Lemma read_block raw sign delta ls t sent id (r : R) fuel :
  is_u64 raw → 0 ≤ delta < 2 ^ 62 → 0 ≤ tbase t < 2 ^ 61 →
  (∀ largest, decodeLargestBase t raw = Ok largest → - 2 ^ 61 ≤ largest) →
  Forall (line_ok pref) ls → rd_wf r → bits_of_bytes (content r) = block_bits pref raw sign delta ls →
  (8 * length (content r) < fuel)%nat →
  ∃ x' br', match block_value t id raw sign delta ls with
  | Ok (hs, evs) => ReadHeaderBlock fuel id (decoder_at t sent r) = (Ok hs, qdec x' br') ∧ x' = (t, sent ++ evs)
  | Err e => ReadHeaderBlock fuel id (decoder_at t sent r) = (Err e, qdec x' br')
  | Panic => ReadHeaderBlock fuel id (decoder_at t sent r) = (Panic, qdec x' br')
  | NoFuel => False
  end.
Proof.
  intros Hraw Hdelta Hb Hlow Hok Hr Hbits Hf. destruct (reader_start r Hr) as [Hbr Hl].
  enough (length ls < fuel)%nat as Hn.
  { destruct (ReadHeaderBlock_answers pref (t, sent) id raw sign delta ls fuel (NewBitReader r))
      as (x' & br' & Hrun); try done. exists x', br'.
    destruct (block_value _ _ _ _ _ _) as [[]| | |]; [|done..]. by destruct Hrun as (? & ? & _). }
  by eapply block_lines_fuel.
Qed.
End read.

(** ** Names that are still there *)

(** The fields that will refer to a dynamic entry for its name only find it in
    the table. Full matches are protected from eviction; these are not. *)
Definition name_live (t : qpackTableCommon) (st : qpackWriterState) (i : nat) : bool :=
  match match_at st i, name_at st i with
  | None, Some (Dynamic d) => bool_decide (d ∈ dynamic t)
  | _, _ => true
  end.

Definition names_live (t : qpackTableCommon) (st : qpackWriterState) : bool :=
  forallb (name_live t st) (seq 0 (length (ws_nameMatches st))).

Lemma names_live_at t st i : names_live t st = true → name_live t st i = true.
Proof.
  intros Hl. destruct (decide (i < length (ws_nameMatches st))%nat) as [Hi|Hi].
  - unfold names_live in Hl. rewrite forallb_forall in Hl. apply Hl, in_seq. lia.
  - unfold name_live, name_at. rewrite lookup_ge_None_2 by lia. by destruct (match_at st i).
Qed.

Lemma live_of_names t st : st_inv t st → names_live t st = true → live t st.
Proof.
  intros Hinv Hn i en Hen. pose proof (names_live_at t st i Hn) as Hi. unfold used_at in Hen.
  unfold name_live in Hi. destruct (match_at st i) as [en'|] eqn:Hm.
  - injection Hen as <-. apply (fo_usable _ _ _ _ (si_match _ _ Hinv _ _ Hm)).
  - rewrite Hen in Hi. destruct en as [s|d]; [apply (no_kept _ _ _ _ (si_name _ _ Hinv _ _ Hen))|].
    by apply bool_decide_eq_true in Hi.
Qed.

(** As long as nothing is acknowledged nothing is evicted, and every name is there. *)
Lemma unacked_live t st : table_wf t → st_inv t st → tbase t ≤ zlen (dynamic t) → names_live t st = true.
Proof.
  intros Hwf Hinv Hall. unfold names_live. apply forallb_forall. intros i _. unfold name_live.
  destruct (match_at st i); [done|]. destruct (name_at st i) as [[s|d]|] eqn:Hn; [done| |done].
  apply bool_decide_eq_true. destruct (no_kept _ _ _ _ (si_name _ _ Hinv _ _ Hn)) as [Hpos [|Hold]]; [done|lia].
Qed.

(** ** Writing bytes *)

Lemma initHeaders_length lower headers : zlen (ws_headers (initHeaders lower headers)) = zlen headers.
Proof. unfold initHeaders, zlen. cbn [ws_headers]. by rewrite length_fmap. Qed.

(** The table changes of a block as bytes. *)
Lemma changes_bytes lower id headers e (w : bitWriter Buffer) : enc_ok e → at_byte w →
  qe_base e + zlen headers ≤ 2 ^ 60 →
  let st0 := initHeaders lower headers in Forall (field_ok (enc_pref e)) (ws_headers st0) →
  ∃ us e' st' w' bs, writeTableChanges id (Changing e w st0) = (Ok tt, Changing e' w' st') ∧
    at_byte w' ∧ buf_bytes (bw_writer w') = buf_bytes (bw_writer w) ++ bs ∧ Forall is_byte bs ∧
    bits_of_bytes bs = updates_bits (enc_pref e) us ∧ prepared e (ws_headers st0) us e' st'.
Proof.
  intros Hok Hw Hb st0 Hf.
  destruct (writeTableChanges_writes (W := Buffer) lower id headers e Hok Hb Hf) as (us & e' & st' & Hrun & Hp).
  destruct (zlen_mjoin (update_bits (enc_pref e)) us (zlen_update_bits _)) as [k Hk].
  destruct (swrites_whole chg _ _ _ _ _ _ w Hrun Hk Hw) as (w' & bs & Hr & Hw' & Hac & Hbs & Hbits).
  by exists us, e', st', w', bs.
Qed.

(** The block itself as bytes, after [b]. *)
Lemma block_bytes e st hs b : enc_ok e → Forall is_byte b → qe_base e < 2 ^ 60 →
  st_inv (qe_common_table e) st → live (qe_common_table e) st → ws_headers st = hs →
  Forall (field_ok (enc_pref e)) hs →
  ∃ raw ls e' w' bs, writeHeaderBlock (Writing e (NewBitWriter (MkBuffer b)) st) = (Ok tt, Writing e' w' st) ∧
    buf_bytes (bw_writer w') = b ++ bs ∧ Forall is_byte bs ∧ enc_ok e' ∧ qe_common_table e' = qe_common_table e ∧
    bits_of_bytes bs = block_bits (enc_pref e) raw false 0 ls ∧
    Forall (line_ok (enc_pref e)) ls ∧ is_u64 raw ∧
    (∀ id, block_value (qe_common_table e) id raw false 0 ls =
      Ok (hs, if 0 <? largestBase st then [EvAcknowledged id (largestBase st)] else [])) ∧
    Forall backward ls ∧ encodeLargestReference (qe_capacity e) (largestBase st) = Ok raw ∧
    decodeLargestBase (qe_common_table e) raw = Ok (largestBase st).
Proof.
  intros Hok Hbytes Hb Hinv Hlive Hhs Hf.
  destruct (writeHeaderBlock_writes (W := Buffer) e st hs) as (raw & ls & Hrun & Hls & _ & Hraw & Hval & Hback & Henc & Hdec);
    try done.
  destruct (zlen_block_bits (enc_pref e) raw false 0 ls) as [k Hk].
  destruct (swrites_whole wrt _ _ _ _ _ _ (NewBitWriter (MkBuffer b)) Hrun Hk) as (w' & bs & Hr & _ & Hac & Hbs & Hbits).
  { by split; [split|]. }
  eexists raw, ls, _, w', bs. split_and!; try done. by apply enc_ok_block.
Qed.

(** Both sections of [WriteHeaderBlock]: the updates, and, if the names it refers to
    are still there, the block. *)
Lemma WriteHeaderBlock_bytes lower id headers e (w : bitWriter Buffer) b : enc_ok e → at_byte w → Forall is_byte b →
  qe_base e + zlen headers < 2 ^ 60 →
  let st0 := initHeaders lower headers in Forall (field_ok (enc_pref e)) (ws_headers st0) →
  ∃ us e1 st1 w1 updates, writeTableChanges id (Changing e w st0) = (Ok tt, Changing e1 w1 st1) ∧
    at_byte w1 ∧ buf_bytes (bw_writer w1) = buf_bytes (bw_writer w) ++ updates ∧ Forall is_byte updates ∧
    bits_of_bytes updates = updates_bits (enc_pref e) us ∧ prepared e (ws_headers st0) us e1 st1 ∧
    (names_live (qe_common_table e1) st1 = true →
     ∃ raw ls e2 block, WriteHeaderBlock lower id headers (e, w, MkBuffer b) = (Ok tt, (e2, w1, MkBuffer (b ++ block))) ∧
      enc_ok e2 ∧ qe_common_table e2 = qe_common_table e1 ∧ Forall is_byte block ∧
      bits_of_bytes block = block_bits (enc_pref e1) raw false 0 ls ∧ Forall (line_ok (enc_pref e1)) ls ∧ is_u64 raw ∧
      (∀ id, block_value (qe_common_table e1) id raw false 0 ls =
        Ok (ws_headers st0, if 0 <? largestBase st1 then [EvAcknowledged id (largestBase st1)] else [])) ∧
      Forall backward ls ∧ encodeLargestReference (qe_capacity e1) (largestBase st1) = Ok raw ∧
      decodeLargestBase (qe_common_table e1) raw = Ok (largestBase st1)).
Proof.
  intros Hok Hw Hbytes Hb st0 Hf.
  destruct (changes_bytes lower id headers e w Hok Hw) as (us & e1 & st1 & w1 & updates & Hrun & Hw1 & Hac & Hbs & Hbits & Hp);
    [lia|done|]. fold st0 in Hrun, Hp. pose proof (pp_base _ _ _ _ _ Hp) as Hbase.
  pose proof (initHeaders_length lower headers) as Hlen. fold st0 in Hlen. exists us, e1, st1, w1, updates. split_and!; [done..|]. intros Hnames.
  assert (enc_pref e1 = enc_pref e) as Hpref by (unfold enc_pref; by rewrite (pp_common _ _ _ _ _ Hp)).
  destruct (block_bytes e1 st1 (ws_headers st0) b) as
    (raw & ls & e2 & w2 & block & Hr2 & Hbk & Hbb & Hok2 & Ht2 & Hbits2 & Hls & Hraw & Hval & Hback & Henc & Hdec);
    [apply Hp|done|lia|apply Hp|apply live_of_names; [apply Hp|done]|apply Hp|by rewrite Hpref|].
  exists raw, ls, e2, block. split_and!; try done.
  unfold WriteHeaderBlock. fold st0. rewrite Hrun. cbn [ch_encoder ch_updates ch_state]. rewrite Hr2.
  cbn [wr_encoder wr_block]. rewrite <- Hbk. by destruct (bw_writer w2).
Qed.

(** The updates of a block take a decoder with the encoder's table to its new one. *)
Lemma updates_read e hs us e1 st1 updates : enc_ok e → qe_base e + zlen hs < 2 ^ 60 → Forall is_byte updates →
  bits_of_bytes updates = updates_bits (enc_pref e) us → prepared e hs us e1 st1 →
  ∀ sent fuel, (8 * length updates < fuel)%nat → ∃ evs br',
    ReadTableUpdates fuel (decoder_at (qe_common_table e) sent (MkBytesReader updates)) =
      (Ok tt, qdec (qe_common_table e1, sent ++ evs) br') ∧ Forall (available (qe_base e1)) evs.
Proof.
  intros Hok Hb Hbs Hbits Hp sent fuel Hfuel. destruct (pp_apply _ _ _ _ _ Hp) as [evs Happ].
  pose proof (read_updates (enc_pref e) us (qe_common_table e) sent (MkBytesReader updates) fuel) as Hread.
  rewrite Happ in Hread. destruct (updates_apply_available _ _ _ _ Happ (enc_base_nonneg e Hok)) as [_ Hav].
  destruct Hread as [br' Hr]; try done; [by apply enc_table_wf| |apply Hp|by exists evs, br'].
  pose proof (pp_length _ _ _ _ _ Hp). pose proof (pp_base _ _ _ _ _ Hp).
  change (tbase (qe_common_table e)) with (qe_base e). unfold intMax. lia.
Qed.
