(* ===== verification/QpackSizes.v ===== *)
(** * QPACK: how long an encoding is

    Bounds on the encodings of strings, instructions and whole blocks, for the lengths
    that have to fit a frame or a chunk. *)

From S2P Require Import Prelude Bits GoIo BitWriter BitReader Streams HcInt HuffmanTable Huffman HcString StaticTable Table Codec QpackTable QpackEncoder QpackDecoder QpackTableSpec QpackDecoderSpec QpackEncoderSpec.

Lemma zlen_leb n p : zlen (leb n p) ≤ Z.of_nat n.
Proof.
  revert p. induction n as [|n IH]; intros p; [done|]. cbn [leb].
  destruct (_ <? _); zlen_simpl; [lia|]. specialize (IH (p / 128)). lia.
Qed.

Lemma zlen_int_bits_le prefix p : 0 ≤ prefix → zlen (int_bits prefix p) ≤ prefix + 80.
Proof.
  intros Hp. unfold int_bits. pose proof (zlen_leb 10 (p - (2 ^ prefix - 1))).
  destruct (_ <? _); zlen_simpl; lia.
Qed.

Lemma zlen_string_bits_le s prefix pref M : 0 ≤ prefix ≤ 8 → slen s ≤ M → zlen (string_bits s prefix pref) ≤ 32 * M + 104.
Proof.
  intros Hp Hs. unfold string_bits. set (payload := if huffman_chosen _ _ then _ else _).
  pose proof (zlen_int_bits_le prefix (zlen payload) (proj1 Hp)).
  pose proof (zlen_huffman_bytes_le _ (bytes_of_string_bytes s)). unfold slen in *.
  pose proof (zlen_nonneg (bytes_of_string s)).
  assert (zlen payload ≤ 4 * zlen (bytes_of_string s) + 1) by (unfold payload; destruct (huffman_chosen _ _); lia).
  zlen_simpl. lia.
Qed.

Lemma zlen_update_bits_le pref u M : 0 ≤ M → update_short M u → zlen (update_bits pref u) ≤ 64 * M + 256.
Proof.
  intros HM. destruct u as [s i v|n v|c|i]; cbn [update_short update_bits]; zlen_simpl.
  - intros Hv. pose proof (zlen_int_bits_le 6 i). pose proof (zlen_string_bits_le v 7 pref M). lia.
  - intros [Hn Hv]. pose proof (zlen_string_bits_le n 5 pref M). pose proof (zlen_string_bits_le v 7 pref M). lia.
  - done.
  - pose proof (zlen_int_bits_le 5 i). lia.
Qed.

(** The strings of a line are those of the field it means. *)
Lemma zlen_line_bits_le pref t base l h M : 0 ≤ M → field_short M h → line_value t base l = Some h →
  zlen (line_bits pref l) ≤ 64 * M + 256.
Proof.
  intros HM [Hn Hv]. destruct l as [s i|i|se s i v|se i v|se n v]; cbn [line_value line_bits]; zlen_simpl.
  - pose proof (zlen_int_bits_le 6 i). lia.
  - pose proof (zlen_int_bits_le 4 i). lia.
  - destruct (entry_at _ _ _ _); [|done]. intros [= <-]. cbn in *. pose proof (zlen_int_bits_le 4 i).
    pose proof (zlen_string_bits_le v 7 pref M). lia.
  - destruct (GetDynamic _ _ _); [|done]. intros [= <-]. cbn in *. pose proof (zlen_int_bits_le 3 i).
    pose proof (zlen_string_bits_le v 7 pref M). lia.
  - intros [= <-]. cbn in *. pose proof (zlen_string_bits_le n 3 pref M). pose proof (zlen_string_bits_le v 7 pref M). lia.
Qed.

Lemma zlen_mjoin_le {A} (f : A → list bool) (l : list A) B : Forall (λ a, zlen (f a) ≤ B) l →
  zlen (mjoin (f <$> l)) ≤ zlen l * B.
Proof.
  induction 1 as [|a l Ha _ IH]; [done|]. change (mjoin (f <$> a :: l)) with (f a ++ mjoin (f <$> l)).
  zlen_simpl. lia.
Qed.

(** A block of a size that its encoding takes less than 2^32 bytes. *)
Definition block_short (block : list HeaderField) : Prop :=
  zlen block ≤ 2 ^ 12 ∧ Forall (field_short (2 ^ 16)) block.

Lemma updates_fit pref us (hs : list HeaderField) p : bits_of_bytes p = updates_bits pref us → zlen us ≤ zlen hs →
  zlen hs ≤ 2 ^ 12 → Forall (update_short (2 ^ 16)) us → zlen p < 2 ^ 32.
Proof.
  intros Hbits Hlen Hhs Hshort.
  pose proof (zlen_mjoin_le (update_bits pref) us (64 * 2 ^ 16 + 256)) as Hle.
  assert (Forall (λ u, zlen (update_bits pref u) ≤ 64 * 2 ^ 16 + 256) us) as Hus.
  { eapply Forall_impl; [exact Hshort|]. intros u. by apply zlen_update_bits_le. }
  specialize (Hle Hus). pose proof (zlen_bits_of_bytes p) as Hp. rewrite Hbits in Hp.
  change (mjoin (update_bits pref <$> us)) with (updates_bits pref us) in Hle. lia.
Qed.

Lemma block_fits pref t base raw ls hs p : bits_of_bytes p = block_bits pref raw false 0 ls →
  mapM (line_value t base) ls = Some hs → block_short hs → zlen p < 2 ^ 32.
Proof.
  intros Hbits Hvals [Hhs Hshort]. apply mapM_Some in Hvals.
  assert (Forall (λ l, zlen (line_bits pref l) ≤ 64 * 2 ^ 16 + 256) ls) as Hls.
  { clear - Hvals Hshort. revert Hshort. induction Hvals as [|l h ls hs Hl _ IH]; [done|].
    intros [Hh Hhs]%Forall_cons. constructor; [by eapply zlen_line_bits_le|by apply IH]. }
  pose proof (zlen_mjoin_le (line_bits pref) ls _ Hls) as Hle. apply Forall2_length in Hvals.
  pose proof (zlen_bits_of_bytes p) as Hp. rewrite Hbits in Hp. unfold block_bits in Hp.
  pose proof (zlen_int_bits_le 8 raw). pose proof (zlen_int_bits_le 7 0).
  unfold zlen in Hhs, Hle. zlen_simpl. unfold zlen in *. lia.
Qed.

(** The same for a block that a decoder understands. *)
Lemma block_value_fits pref t id raw ls hs evs p : bits_of_bytes p = block_bits pref raw false 0 ls →
  block_value t id raw false 0 ls = Ok (hs, evs) → block_short hs → zlen p < 2 ^ 32.
Proof.
  intros Hbits Hval Hshort. unfold block_value in Hval. destruct (decodeLargestBase t raw) as [largest|er| |]; [|done..].
  destruct (tbase _ <? _); [done|]. destruct (_ && _); [done|].
  destruct (mapM _ ls) as [hs'|] eqn:Hm; [|done]. injection Hval as -> _. by eapply block_fits.
Qed.
