(* ===== verification/QpackAck.v ===== *)
(** * QPACK: the stream of acknowledgments

    [ack] is an instruction of that stream. The decoder's goroutine writes the
    instructions of [acks_of] for the messages it receives, and the encoder's
    [ServiceAcknowledgments] calls the handler of each instruction in turn. *)

From S2P Require Import Prelude Bits GoIo BitWriter BitReader Streams HcInt HuffmanTable Huffman HcString StaticTable Table Codec QpackTable QpackEncoder QpackDecoder QpackTableSpec QpackUsageSpec QpackDecoderSpec QpackEncoderSpec QpackReach QpackLink.

Inductive ack : Type :=
| AckHeader (id : Z)
| AckReset (id : Z)
| AckInsert (n : Z).

Definition ack_bits (a : ack) : list bool :=
  match a with
  | AckHeader id => true :: int_bits 7 id
  | AckReset id => false :: true :: int_bits 6 id
  | AckInsert n => false :: false :: int_bits 6 n
  end.

Definition acks_bits (acks : list ack) : list bool := mjoin (ack_bits <$> acks).

Lemma zlen_ack_bits a : ∃ k, zlen (ack_bits a) = 8 * k.
Proof.
  destruct a as [id|id|n]; cbn [ack_bits]; zlen_simpl.
  - destruct (zlen_int_bits 7 id) as [k ->]; [done|]. exists (1 + k). lia.
  - destruct (zlen_int_bits 6 id) as [k ->]; [done|]. exists (1 + k). lia.
  - destruct (zlen_int_bits 6 n) as [k ->]; [done|]. exists (1 + k). lia.
Qed.

(** ** The decoder's side *)

(** What a message makes the goroutine write, and the new values of
    [largestAcknowledged] and [syncLargest]. *)
Definition ack_round (l s : Z) (ev : ackEvent) : list ack * Z * Z :=
  match ev with
  | EvAcknowledged id lr => ([AckHeader id], lr, s)
  | EvCancelled id => ([AckReset id], l, s)
  | EvAvailable b => ([], l, Z.max s b)
  | EvTimer => if s <=? l then ([], l, s) else ([AckInsert (s - l)], s, s)
  end.

Fixpoint acks_of (l s : Z) (evs : list ackEvent) : list ack * Z * Z :=
  match evs with
  | [] => ([], l, s)
  | ev :: evs' =>
      let '(a, l1, s1) := ack_round l s ev in
      let '(acks, l2, s2) := acks_of l1 s1 evs' in (a ++ acks, l2, s2)
  end.

(** Messages with the numbers a decoder sends. *)
Definition event_ok (ev : ackEvent) : Prop :=
  match ev with
  | EvAcknowledged id lr => is_u64 id ∧ 0 ≤ lr < 2 ^ 62
  | EvCancelled id => is_u64 id
  | EvAvailable b => 0 ≤ b < 2 ^ 62
  | EvTimer => True
  end.

Section ack_writing.
Context {W : Type} `{IoWriterSpec W} `{!IoWriterTotal W}.

(** The goroutine's state beside its writer. *)
Definition ackst (x : Z * Z * bool) (bw : bitWriter W) : acking W := Acking bw x.1.1 x.1.2 x.2.

#[local] Abbreviation awrites := (swrites ackst).

Lemma awrites_on {A} (m : go (bitWriter W) A) a bits x : writes m a bits → awrites (on_ack m) x bits a x.
Proof. by apply swrites_zoom. Qed.

Lemma handleAck_writes ev l s d : event_ok ev → 0 ≤ l < 2 ^ 62 → 0 ≤ s < 2 ^ 62 →
  let '(acks, l', s') := ack_round l s ev in
  0 ≤ l' < 2 ^ 62 ∧ 0 ≤ s' < 2 ^ 62 ∧
  ∃ d', awrites (handleAck ev) (l, s, d) (acks_bits acks) tt (l', s', d').
Proof.
  intros Hev Hl Hs. destruct ev as [id lr|id|b|]; cbn [ack_round event_ok] in *.
  - destruct Hev as [Hid Hlr]. split_and!; [lia..|]. exists d. unfold handleAck, acks_bits. apply swrites_get. intros bw.
    eapply (swrites_bind_l ackst _ _ _ _ _ (lr, s, d)); [by apply swrites_step|].
    change (mjoin _) with (zbits 1 1 ++ int_bits 7 id ++ []). rewrite app_nil_r.
    eapply swrites_bind; [by apply awrites_on, WriteBit_writes|].
    by apply awrites_on, WriteInt_writes.
  - split_and!; [lia..|]. exists d. unfold handleAck, acks_bits. apply swrites_get. intros bw.
    change (mjoin _) with (zbits 2 1 ++ int_bits 6 id ++ []). rewrite app_nil_r.
    eapply swrites_bind; [by apply awrites_on, WriteBits_writes|].
    by apply awrites_on, WriteInt_writes.
  - split_and!; [lia..|]. unfold handleAck.
    destruct (Z.ltb_spec s b).
    + exists false. apply swrites_get. intros bw. cbn [ackst ak_sync fst snd].
      rewrite (proj2 (Z.ltb_lt s b)), Z.max_r by lia. by apply swrites_step.
    + exists d. apply swrites_get. intros bw. cbn [ackst ak_sync fst snd].
      rewrite (proj2 (Z.ltb_ge s b)), Z.max_l by lia. apply swrites_ret.
  - unfold handleAck. destruct (Z.leb_spec s l); (split_and!; [lia..|]); exists true;
      apply swrites_get; intros bw; cbn [ackst ak_sync ak_largest fst snd].
    + rewrite (proj2 (Z.leb_le s l)) by lia.
      eapply (swrites_bind_l ackst _ _ _ _ _ (l, s, true)); [by apply swrites_step|apply swrites_ret].
    + rewrite (proj2 (Z.leb_gt s l)), i64_small, u64_small by lia.
      eapply (swrites_bind_l ackst _ _ _ _ _ (l, s, true)); [by apply swrites_step|]. cbv beta zeta.
      eapply (swrites_bind_l ackst _ _ _ _ _ (s, s, true)); [by apply swrites_step|].
      unfold acks_bits. change (mjoin _) with (zbits 2 0 ++ int_bits 6 (s - l) ++ []). rewrite app_nil_r.
      eapply swrites_bind; [by apply awrites_on, WriteBits_writes|].
      apply awrites_on, WriteInt_writes; [unfold is_u64; lia|done].
Qed.

Lemma acks_bits_app a b : acks_bits (a ++ b) = acks_bits a ++ acks_bits b.
Proof. unfold acks_bits. by rewrite fmap_app, join_app. Qed.

Lemma writeAcknowledgements_writes evs l s d : Forall event_ok evs → 0 ≤ l < 2 ^ 62 → 0 ≤ s < 2 ^ 62 →
  let '(acks, l', s') := acks_of l s evs in
  ∃ d', awrites (writeAcknowledgements evs) (l, s, d) (acks_bits acks) tt (l', s', d').
Proof.
  intros Hev. revert l s d. induction Hev as [|ev evs Hev _ IH]; intros l s d Hl Hs; cbn [acks_of].
  { exists d. apply swrites_ret. }
  pose proof (handleAck_writes ev l s d Hev Hl Hs) as Hr. destruct (ack_round l s ev) as [[a l1] s1].
  destruct Hr as (Hl1 & Hs1 & d1 & Hr). specialize (IH l1 s1 d1 Hl1 Hs1).
  destruct (acks_of l1 s1 evs) as [[acks l2] s2]. destruct IH as [d2 IH]. exists d2.
  rewrite acks_bits_app. by eapply swrites_bind.
Qed.
End ack_writing.

(** ** The encoder's side *)

Definition ack_call (a : ack) : go QpackEncoder unit :=
  match a with
  | AckHeader id => AcknowledgeHeader id
  | AckReset id => AcknowledgeReset id
  | AckInsert n => AcknowledgeInsert (i64 n)
  end.

(** The encoder after the instruction, an error or not. *)
Definition ack_step (e : QpackEncoder) (a : ack) : QpackEncoder := (ack_call a e).2.

(** Fields of an instruction as they can be read; the sum of an increment and the
    acknowledged inserts stays an [int]. *)
Definition ack_ok (a : ack) : Prop :=
  match a with
  | AckHeader id | AckReset id => is_u64 id
  | AckInsert n => is_u64 n ∧ i64 n < 2 ^ 62
  end.

Lemma ack_call_quiet a e : enc_inv e → qe_base e < 2 ^ 62 → ack_ok a →
  quiet (ack_call a e).1 ∧ enc_inv (ack_step e a) ∧ qe_table (ack_step e a) = qe_table e ∧
  highestAcknowledged e ≤ highestAcknowledged (ack_step e a).
Proof.
  intros Hinv Hb Ha. unfold ack_step. destruct a as [id|id|n]; cbn [ack_call].
  - destruct (AcknowledgeHeader_spec id e Hinv) as (o & e' & -> & ? & ? & ? & _ & ?). done.
  - destruct (AcknowledgeReset_spec id e Hinv) as (o & e' & -> & ? & ? & ? & _ & Heq).
    split_and!; try done. cbn [snd]. lia.
  - destruct Ha as [Hn Hlt]. pose proof (i64_range n). pose proof (eo_held _ (proj1 Hinv)) as Hheld.
    unfold unacked in Hheld. unfold intMax in *.
    pose proof (AcknowledgeInsert_spec (i64 n) e (proj1 Hinv)) as Hs.
    unfold intMax in Hs. specialize (Hs ltac:(lia) ltac:(lia)).
    destruct (_ && _) eqn:Hc; [|rewrite Hs; split_and!; try done; by right].
    destruct Hs as (e' & -> & Hok & Htab & Hu & Hh). cbn [fst snd].
    split_and!; [by left|split; [done|by rewrite Hu; apply Hinv]|done|lia].
Qed.

Lemma ack_call_common a : unchanged qe_common (ack_call a).
Proof. destruct a; [apply AcknowledgeHeader_common|apply AcknowledgeReset_common|apply AcknowledgeInsert_common]. Qed.

(** Acknowledgments leave the table and the settings of the encoder alone. *)
Lemma ack_steps acks e : enc_inv e → qe_base e < 2 ^ 62 → Forall ack_ok acks →
  enc_inv (foldl ack_step e acks) ∧ qe_table (foldl ack_step e acks) = qe_table e ∧
  qe_common (foldl ack_step e acks) = qe_common e.
Proof.
  intros Hinv Hb Hacks. revert e Hinv Hb. induction Hacks as [|a acks Ha _ IH]; intros e Hinv Hb; [done|]. cbn [foldl].
  destruct (ack_call_quiet a e Hinv Hb Ha) as (_ & Hinv' & Htab & _).
  destruct (IH (ack_step e a) Hinv') as (? & Ht & Hc); [unfold qe_base; by rewrite Htab|].
  split_and!; [done|by rewrite Ht|rewrite Hc; apply ack_call_common].
Qed.

Section ack_reading.
Context {R : Type} `{IoReaderSpec R}.

Lemma on_acked_quiet {B} (m : go QpackEncoder unit) (k : unit + goerr → go (QpackEncoder * bitReader R) B) e br :
  quiet (m e).1 → ∃ r, (catch (on_acked m) ≫= k) (e, br) = k r ((m e).2, br).
Proof.
  intros Hq. unfold on_acked, zoom, catch. rewrite bind_unfold. cbn [fst snd].
  destruct (m e) as [o e']. cbn [fst snd] in *. destruct Hq as [->| ->]; by eexists.
Qed.

(** One round of the loop. *)
Lemma Service_round fuel e a br l : quiet (ack_call a e).1 → ack_ok a →
  br_wf br → rbits br = ack_bits a ++ l →
  ∃ br', ServiceAcknowledgments_loop (S fuel) (e, br) = ServiceAcknowledgments_loop fuel (ack_step e a, br') ∧
    br_wf br' ∧ rbits br' = l.
Proof.
  intros Hq Ha Hwf Hl.
  assert (sreads (λ (x : QpackEncoder) (b : bitReader R), (x, b))
    (b ← on_acks ReadBit;
     if b =? 1 then
       v ← on_acks (ReadInt 7); _ ← catch (on_acked (AcknowledgeHeader v)); mret tt
     else
       b ← on_acks ReadBit; v ← on_acks (ReadInt 6);
       _ ← catch (on_acked (if b =? 0 then AcknowledgeInsert (i64 v) else AcknowledgeReset v)); mret tt)
    e (ack_bits a) tt (ack_step e a)) as Hround.
  { assert (∀ (m : go (bitReader R) Z) v bits, reads m v bits →
      sreads (λ (x : QpackEncoder) (b : bitReader R), (x, b)) (on_acks m) e bits v e) as Hon.
    { intros m v bits Hm. by apply sreads_zoom. }
    assert (∀ m : go QpackEncoder unit, m e = ack_call a e →
      sreads (λ (x : QpackEncoder) (b : bitReader R), (x, b)) (_ ← catch (on_acked m); mret tt) e [] tt (ack_step e a)) as Hcall.
    { intros m Hm br0 l0 Hwf0 Hl0. destruct (on_acked_quiet m (λ _, mret tt) e br0) as [r Hr]; [by rewrite Hm|].
      exists br0. rewrite Hr. unfold ack_step. by rewrite Hm. }
    destruct a as [id|id|n]; cbn [ack_bits ack_ok ack_call] in *.
    - eapply (sreads_bind _ _ _ _ [true]); [apply Hon, (ReadBit_reads true)|]. cbn [Z.b2z Z.eqb].
      eapply sreads_bind_r; [apply Hon; by apply ReadInt_reads|]. by apply Hcall.
    - eapply (sreads_bind _ _ _ _ [false]); [apply Hon, (ReadBit_reads false)|]. cbn [Z.b2z Z.eqb].
      eapply (sreads_bind _ _ _ _ [true]); [apply Hon, (ReadBit_reads true)|]. cbn [Z.b2z Z.eqb].
      eapply sreads_bind_r; [apply Hon; by apply ReadInt_reads|]. by apply Hcall.
    - destruct Ha as [Hn _].
      eapply (sreads_bind _ _ _ _ [false]); [apply Hon, (ReadBit_reads false)|]. cbn [Z.b2z Z.eqb].
      eapply (sreads_bind _ _ _ _ [false]); [apply Hon, (ReadBit_reads false)|]. cbn [Z.b2z Z.eqb].
      eapply sreads_bind_r; [apply Hon; by apply ReadInt_reads|]. by apply Hcall. }
  destruct (Hround br l Hwf Hl) as (br' & Hr & Hwf' & Hl'). exists br'. split; [|done].
  cbn [ServiceAcknowledgments_loop]. rewrite <- bind_assoc. by rewrite (bind_Ok _ _ _ _ _ Hr).
Qed.

Lemma Service_end fuel e br : br_wf br → rbits br = [] →
  ∃ br', ServiceAcknowledgments_loop (S fuel) (e, br) = (Err EOF, (e, br')).
Proof.
  intros Hwf Hl. destruct (ReadBit_spec br Hwf) as (br' & _ & Hr). rewrite Hl in Hr. destruct Hr as [Hr _].
  exists br'. cbn [ServiceAcknowledgments_loop]. rewrite bind_unfold. unfold on_acks at 1, zoom. cbn [snd].
  by rewrite Hr.
Qed.

(** The handlers are called in turn; the loop ends at the end of the stream. *)
Lemma Service_acks acks e fuel br : enc_inv e → qe_base e < 2 ^ 62 → Forall ack_ok acks →
  br_wf br → rbits br = acks_bits acks → (length acks < fuel)%nat →
  ∃ br', ServiceAcknowledgments_loop fuel (e, br) = (Err EOF, (foldl ack_step e acks, br')) ∧
    enc_inv (foldl ack_step e acks).
Proof.
  intros Hinv Hb Hacks. revert e fuel br Hinv Hb.
  induction Hacks as [|a acks Ha _ IH]; intros e [|fuel] br Hinv Hb Hwf Hl Hf; cbn [length] in *; try lia.
  { destruct (Service_end fuel e br Hwf Hl) as [br' Hr]. by exists br'. }
  destruct (ack_call_quiet a e Hinv Hb Ha) as (Hq & Hinv' & Htab & _).
  destruct (Service_round fuel e a br (acks_bits acks) Hq Ha Hwf Hl) as (br1 & Hr & Hwf1 & Hl1).
  rewrite Hr. cbn [foldl]. apply IH; try done; [|lia]. unfold qe_base. by rewrite Htab.
Qed.
End ack_reading.

(** ** The two sides together *)

Lemma ack_round_ok l s ev : event_ok ev → 0 ≤ l < 2 ^ 62 → 0 ≤ s < 2 ^ 62 →
  Forall ack_ok (ack_round l s ev).1.1.
Proof.
  intros Hev Hl Hs. destruct ev as [id lr|id|b|]; cbn in *.
  - apply Forall_singleton, Hev.
  - by apply Forall_singleton.
  - constructor.
  - destruct (Z.leb_spec s l); [constructor|]. apply Forall_singleton. cbn.
    rewrite i64_small; unfold is_u64; lia.
Qed.

Lemma ack_round_range l s ev : event_ok ev → 0 ≤ l < 2 ^ 62 → 0 ≤ s < 2 ^ 62 →
  0 ≤ (ack_round l s ev).1.2 < 2 ^ 62 ∧ 0 ≤ (ack_round l s ev).2 < 2 ^ 62.
Proof. intros Hev Hl Hs. destruct ev; cbn in *; try lia. destruct (s <=? l); cbn; lia. Qed.

Lemma acks_of_ok evs l s : Forall event_ok evs → 0 ≤ l < 2 ^ 62 → 0 ≤ s < 2 ^ 62 →
  let '(acks, l', s') := acks_of l s evs in Forall ack_ok acks ∧ 0 ≤ l' < 2 ^ 62 ∧ 0 ≤ s' < 2 ^ 62.
Proof.
  intros Hev. revert l s. induction Hev as [|ev evs Hev _ IH]; intros l s Hl Hs; cbn [acks_of]; [done|].
  pose proof (ack_round_ok l s ev Hev Hl Hs) as Ha. pose proof (ack_round_range l s ev Hev Hl Hs) as [Hl1 Hs1].
  destruct (ack_round l s ev) as [[a l1] s1]. specialize (IH l1 s1 Hl1 Hs1).
  destruct (acks_of l1 s1 evs) as [[acks l2] s2]. cbn in *. destruct IH as (? & ? & ?). split; [by apply Forall_app|done].
Qed.

(** A decoder's goroutine that has last said [l] and is about to write to a fresh
    stream; its bytes are read by the encoder. *)
Lemma ack_stream evs l e : Forall event_ok evs → 0 ≤ l < 2 ^ 62 → enc_inv e → qe_base e < 2 ^ 62 →
  let '(acks, l', s') := acks_of l l evs in
  ∃ d w, writeAcknowledgements evs (Acking (NewBitWriter (MkBuffer [])) l l true) = (Ok tt, Acking w l' s' d) ∧
    ∀ fuel, (8 * length (buf_bytes (bw_writer w)) < fuel)%nat → ∃ br',
      ServiceAcknowledgments_loop fuel (e, NewBitReader (MkBytesReader (buf_bytes (bw_writer w)))) =
        (Err EOF, (foldl ack_step e acks, br')) ∧ enc_inv (foldl ack_step e acks).
Proof.
  intros Hev Hl Hinv Hb. pose proof (acks_of_ok evs l l Hev Hl Hl) as Hacks.
  pose proof (writeAcknowledgements_writes (W := Buffer) evs l l true Hev Hl Hl) as Hw.
  destruct (acks_of l l evs) as [[acks l'] s']. destruct Hw as [d Hw]. destruct Hacks as [Hacks _].
  destruct (zlen_mjoin ack_bits acks zlen_ack_bits) as [k Hk].
  destruct (swrites_whole ackst _ _ _ _ _ _ (NewBitWriter (MkBuffer [])) Hw Hk) as (w & bs & Hr & _ & Hac & Hbs & Hbits).
  { split; [split; [done|constructor]|done]. }
  exists d, w. split; [exact Hr|]. intros fuel Hf. cbn in Hac.
  apply Service_acks; try done; [split; [|done]; cbn; by rewrite Hac|by rewrite Hac|].
  rewrite Hac in Hf. change (8 * length bs < fuel)%nat in Hf. rewrite <- (bytes_length _ _ Hbits) in Hf.
  enough (length acks ≤ length (acks_bits acks))%nat by (unfold acks_bits in *; lia).
  apply mjoin_length. by intros [].
Qed.

(** Inserts that become available and then the timer. *)
Lemma acks_of_available bs l s : acks_of l s ((EvAvailable <$> bs) ++ [EvTimer]) =
  let m := foldl Z.max s bs in
  if m <=? l then ([], l, m) else ([AckInsert (m - l)], m, m).
Proof.
  revert s. induction bs as [|b bs IH]; intros s; cbn [fmap list_fmap app acks_of ack_round].
  - cbn [foldl]. by destruct (s <=? l).
  - rewrite IH. cbn [foldl app]. cbv zeta. by destruct (_ <=? l).
Qed.

Lemma foldl_max bs s m : s ≤ m → Forall (λ b, b ≤ m) bs → s = m ∨ m ∈ bs → foldl Z.max s bs = m.
Proof.
  intros Hs Hbs. revert s Hs. induction Hbs as [|b bs Hb _ IH]; intros s Hs Hm; cbn [foldl].
  - by destruct Hm as [->|Hm%elem_of_nil].
  - apply IH; [lia|]. destruct Hm as [->|[->|Hm]%elem_of_cons]; [left; lia|left; lia|by right].
Qed.
