(* ===== verification/QpackSamples.v ===== *)
(** * Sample encoders and tables

    Concrete states of encoder and decoder, for the witnesses of the properties. *)

From S2P Require Import Prelude Bits GoIo BitWriter BitReader Streams HcInt HuffmanTable Huffman HcString StaticTable Table Codec QpackTable QpackEncoder QpackDecoder QpackTableSpec QpackUsageSpec QpackDecoderSpec QpackEncoderSpec QpackReach QpackLink.

Definition get_ok {A} (a : A) (o : outcome A) : A := match o with Ok a => a | _ => a end.

Definition emptyEncoder : QpackEncoder :=
  MkQpackEncoder (EncoderCommon HuffmanCodingAuto ∅) (MkQpackEncoderTable newTable 0 0 0) newUsage 0 0 0 0.

(** An encoder with a table of 256 bytes, all of it referenceable, that may block
    ten streams. *)
Definition exampleEncoder : QpackEncoder :=
  (SetMaxBlockedStreams 10 (get_ok emptyEncoder (NewQpackEncoder 256 256))).2.

Definition exampleHeaders : list HeaderField :=
  [ MkHeaderField ":method" "GET" false;
    MkHeaderField ":path" "/sample/path" false;
    MkHeaderField "Custom-Key" "custom-header" false;
    MkHeaderField "password" "secret" true;
    MkHeaderField "custom-key" "custom-header" false ]%string.

Definition noLower : string → string := λ s, s.

Lemma exampleEncoder_inv : enc_inv exampleEncoder.
Proof.
  assert (∃ e, NewQpackEncoder 256 256 = Ok e ∧ exampleEncoder = (SetMaxBlockedStreams 10 e).2) as (e & He & ->).
  { eexists. by split. }
  pose proof (NewQpackEncoder_inv 256 256 e) as Hinv. revert He Hinv. vm_compute NewQpackEncoder.
  intros [= <-] Hinv. destruct Hinv as [Hok Hu]; [done..|]. by split; [destruct Hok|].
Qed.

Lemma exampleEncoder_ok : enc_ok exampleEncoder.
Proof. apply exampleEncoder_inv. Qed.

Lemma short_fields_ok hs : forallb (λ h, (slen (h_Name h) <? 2 ^ 36) && (slen (h_Value h) <? 2 ^ 36)) hs = true →
  Forall (field_ok (enc_pref exampleEncoder)) hs.
Proof.
  intros Hhs%Is_true_true%forallb_True. apply (Forall_impl _ _ _ Hhs). intros h [Hn Hv]%Is_true_true%andb_prop.
  apply Z.ltb_lt in Hn, Hv. by split; (split; [|right]).
Qed.

Lemma exampleHeaders_ok :
  Forall (field_ok (enc_pref exampleEncoder)) (ws_headers (initHeaders noLower exampleHeaders)).
Proof. by apply short_fields_ok. Qed.

Lemma buffer_at_byte : at_byte (NewBitWriter (MkBuffer [])).
Proof. split; [split; [done|constructor]|done]. Qed.

(** A table of four entries, for blocks that refer to it. *)
Definition exampleTable : qpackTableCommon :=
  inserted (inserted (inserted (inserted (resized newTable 200) (new_entry "custom-key" "one"))
    (new_entry ":path" "/path")) (new_entry "custom-key" "two")) (new_entry ":path" "/path").

Lemma exampleTable_wf : table_wf exampleTable.
Proof. repeat (apply inserted_wf; [|done]). apply resized_wf; [apply newTable_wf|done]. Qed.

Definition exampleLines : list line :=
  [ LIndexed true 17; LIndexed false 0; LPostIndexed 0; LNameRef true false 1 "v"; LLiteral false "n" "v" ]%string.
