(* ===== verification/Settings.v ===== *)
(** * Settings (settings.go)

    The two settings that are written and applied. A setting is its identifier in
    16 bits, a length and that many bytes. Reading them changes the QPACK encoder
    of the connection. *)

From S2P Require Import Prelude Bits GoIo BitWriter BitReader Streams Frame HcInt HuffmanTable Huffman HcString StaticTable Table Codec QpackTable QpackEncoder.

Definition settingTableSize : Z := 1.
Definition settingMaxHeaderListSize : Z := 6.
Definition settingMaxQpackBlockedStreams : Z := 7.

(** [Config] (connection.go). *)
Record Config := MkConfig {
  DecoderTableCapacity : Z;      (* uint *)
  ConcurrentDecoders : Z;        (* uint16 *)
  MaxConcurrentPushes : Z;       (* uint64 *)
  TrackConnections : bool;
  InformationalResponses : bool;
}.

(** ** Writer *)

Section writer.
Context {W : Type} `{IoWriter W}.

(** The bytes of [NewFrameWriter(&buf)] after [WriteVarint(v)]. *)
Definition varintBuffer (v : Z) : outcome (list Z * option goerr) :=
  match WriteVarint v (NewBitWriter (MkBuffer [])) with
  | (Ok (_, e), w) => Ok (buf_bytes (bw_writer w), e)
  | (Err e, _) => Err e
  | (Panic, _) => Panic
  | (NoFuel, _) => NoFuel
  end.

(** The error of the first write is overwritten by the second's. *)
Definition writeIntSetting (s v : Z) : go (bitWriter W) (Z * option goerr) :=
  '(buf, err) ← lift (varintBuffer v);
  match err with
  | Some e => mret (0, Some e)
  | None =>
      _ ← catch (WriteBits s 16);
      '(n, err) ← WriteVarint (zlen buf);
      let written := i64 (n + 2) in
      match err with
      | Some e => mret (written, Some e)
      | None =>
          '(n64, err) ← CopyBytes Write buf;
          mret (i64 (written + n64), err)
      end
  end.

(** [settingsWriter.WriteTo], on the frame writer it makes. *)
Definition WriteTo (config : Config) : go (bitWriter W) (Z * option goerr) :=
  '(n, err) ← writeIntSetting settingTableSize (DecoderTableCapacity config);
  match err with
  | Some e => mret (n, Some e)
  | None =>
      '(n', err) ← writeIntSetting settingMaxQpackBlockedStreams (ConcurrentDecoders config);
      mret (i64 (n + n'), err)
  end.
End writer.

(** ** Reader *)

Section reader.
Context {R : Type} `{IoReader R}.

Definition on_settings {A} (m : go (bitReader R) A) : go (QpackEncoder * bitReader R) A :=
  zoom snd (λ r s, (s.1, r)) m.
Definition on_encoder {A} (m : go QpackEncoder A) : go (QpackEncoder * bitReader R) A :=
  zoom fst (λ e s, (e, s.2)) m.

(** One setting, after its identifier and length. *)
Definition readSetting (fuel : nat) (s len : Z) : go (QpackEncoder * bitReader R) unit :=
  if s =? settingTableSize then
    n ← on_settings (on_Limited len ReadVarint);
    if 2 ^ 30 <=? n then fail ErrSettingValue else on_encoder (Encoder_SetCapacity n)
  else if s =? settingMaxQpackBlockedStreams then
    n ← on_settings (on_Limited len ReadVarint);
    if 2 ^ 16 <=? n then fail ErrSettingValue else on_encoder (SetMaxBlockedStreams (i64 n))
  else
    e ← on_settings (on_Limited len (CopyDiscard fuel));
    match e with Some err => fail err | None => mret tt end.

(** The loop: every round takes 16 bits; [fuel] also bounds the reads of a setting
    that is skipped. *)
Fixpoint readSettings_loop (fuel : nat) (skip : nat) : go (QpackEncoder * bitReader R) unit :=
  match fuel with
  | O => nofuel
  | S fuel' =>
      r ← catch (on_settings (ReadBits 16));
      match r with
      | inr EOF => mret tt
      | inr err => fail err
      | inl s =>
          len ← on_settings ReadVarint;
          readSetting skip s len;;
          readSettings_loop fuel' skip
      end
  end.

Definition readSettings (fuel : nat) : go (QpackEncoder * bitReader R) unit := readSettings_loop fuel fuel.
End reader.

(** ** What settings are and do *)

Inductive setting : Type :=
| SInt (s v : Z)                (* an identifier and a variable-length integer *)
| SOther (s : Z) (p : list Z).  (* an identifier that is ignored, and any bytes *)

Definition varint_bytes (v : Z) : list Z := bytes_of_bits (varint_bits v).

Definition setting_bytes (x : setting) : list Z :=
  match x with SInt _ v => varint_bytes v | SOther _ p => p end.

Definition setting_id (x : setting) : Z := match x with SInt s _ | SOther s _ => s end.

Definition setting_bits (x : setting) : list bool :=
  zbits 16 (setting_id x) ++ varint_bits (zlen (setting_bytes x)) ++ bits_of_bytes (setting_bytes x).

Definition setting_ok (x : setting) : Prop :=
  match x with
  | SInt s v => (s = settingTableSize ∨ s = settingMaxQpackBlockedStreams) ∧ 0 ≤ v < 2 ^ 62
  | SOther s p => 0 ≤ s < 2 ^ 16 ∧ s ≠ settingTableSize ∧ s ≠ settingMaxQpackBlockedStreams ∧
      Forall is_byte p ∧ zlen p < 2 ^ 62
  end.

(** What a setting does to the encoder. *)
Definition setting_apply (x : setting) : go QpackEncoder unit :=
  match x with
  | SInt s v =>
      if s =? settingTableSize
      then if 2 ^ 30 <=? v then fail ErrSettingValue else Encoder_SetCapacity v
      else if 2 ^ 16 <=? v then fail ErrSettingValue else SetMaxBlockedStreams v
  | SOther _ _ => mret tt
  end.

Fixpoint settings_apply (xs : list setting) : go QpackEncoder unit :=
  match xs with
  | [] => mret tt
  | x :: xs' => setting_apply x;; settings_apply xs'
  end.

Lemma varint_whole v : 0 ≤ v < 2 ^ 62 →
  bits_of_bytes (varint_bytes v) = varint_bits v ∧ Forall is_byte (varint_bytes v).
Proof. intros Hv. by apply (bytes_of_bits_whole _ (varint_len v)), zlen_varint_bits. Qed.

Lemma setting_bytes_ok x : setting_ok x →
  Forall is_byte (setting_bytes x) ∧ 0 ≤ zlen (setting_bytes x) < 2 ^ 62 ∧ 0 ≤ setting_id x < 2 ^ 16.
Proof.
  destruct x as [s v|s p]; cbn [setting_ok setting_bytes setting_id].
  - intros [Hs Hv]. destruct (varint_whole v Hv) as [Hbits Hb]. split; [done|].
    pose proof (zlen_varint_bits v Hv) as Hlen. rewrite <- Hbits, zlen_bits_of_bytes in Hlen.
    pose proof (varint_len_range v Hv).
    unfold settingTableSize, settingMaxQpackBlockedStreams in Hs. lia.
  - intros (? & _ & _ & ? & ?). pose proof (zlen_nonneg p). split_and!; done || lia.
Qed.

(** ** Writing them *)

Section writer_spec.
Context {W : Type} `{IoWriterSpec W} `{!IoWriterTotal W}.

Lemma varintBuffer_spec v : 0 ≤ v < 2 ^ 62 → varintBuffer v = Ok (varint_bytes v, None).
Proof.
  intros Hv. destruct (varint_whole v Hv) as [Hbits Hb]. unfold varintBuffer.
  destruct (WriteVarint_writes (W := Buffer) v Hv (NewBitWriter (MkBuffer []))) as (w' & -> & Hok & Hw);
    [split; [done|constructor]|].
  change (wbits (NewBitWriter (MkBuffer []))) with (@nil bool) in Hw. rewrite app_nil_l, <- Hbits in Hw.
  destruct (whole_accepted w' (MkBuffer []) (bits_of_bytes (varint_bytes v)) (zlen (varint_bytes v)) Hok) as (block & Hac & Hbb & Hblock);
    [constructor|exact Hw|by rewrite zlen_bits_of_bytes|].
  apply bits_of_bytes_inj in Hblock; [|done..]. subst block. cbn in Hac. by rewrite Hac.
Qed.

(** The number of bytes of a setting. *)
Definition setting_len (v : Z) : Z :=
  varint_len (zlen (varint_bytes v)) + 2 + zlen (varint_bytes v).

Lemma writeIntSetting_writes s v : s = settingTableSize ∨ s = settingMaxQpackBlockedStreams → 0 ≤ v < 2 ^ 62 →
  writes (writeIntSetting (W := W) s v) (setting_len v, None) (setting_bits (SInt s v)) ∧
  zlen (setting_bits (SInt s v)) = 8 * setting_len v.
Proof.
  intros Hs Hv. destruct (setting_bytes_ok (SInt s v)) as (Hb & Hlen & Hid); [done|].
  cbn [setting_bytes setting_id] in *. unfold setting_len, setting_bits. cbn [setting_bytes setting_id].
  pose proof (varint_len_range _ Hlen) as Hvl.
  split.
  - unfold writeIntSetting. change (zbits 16 s ++ ?l) with ([] ++ zbits 16 s ++ l).
    eapply writes_bind; [unfold lift; rewrite varintBuffer_spec by done; apply writes_ret|]. cbv beta iota.
    eapply writes_bind; [by apply writes_catch, WriteBits_writes|].
    eapply writes_bind; [by apply WriteVarint_writes|]. cbv beta iota zeta.
    rewrite <- (app_nil_r (bits_of_bytes _)).
    eapply writes_bind; [by apply CopyBytes_writes|]. cbv beta iota.
    rewrite (i64_small (_ + 2)), i64_small by lia. apply writes_ret.
  - zlen_simpl. rewrite zlen_varint_bits by done. change (zlen (zbits 16 s)) with 16. lia.
Qed.
End writer_spec.

(** ** Reading them *)

Lemma setting_bits_length x : (8 * length (setting_bytes x) + 16 ≤ length (setting_bits x))%nat.
Proof.
  unfold setting_bits. rewrite !length_app. pose proof (zlen_bits_of_bytes (setting_bytes x)) as Hl.
  assert (length (zbits 16 (setting_id x)) = 16%nat) as -> by done. unfold zlen in Hl. lia.
Qed.

Section drain_spec.
Context {R : Type} `{IoReaderSpec R}.

Lemma CopyDiscard_drains fuel p : Forall is_byte p → (length p < fuel)%nat →
  drains (R := R) (CopyDiscard fuel) None (bits_of_bytes p).
Proof.
  intros Hp Hf br Hwf Hl. unfold CopyDiscard.
  assert (content br = p) as Hc.
  { cbn. rewrite Hl. by apply bytes_of_bits_of_bytes_nil. }
  destruct (Drain_spec fuel 8192 [] br) as (br' & Hr & Hwf' & Hnil & Hres); [done|done|by rewrite Hc|].
  exists br'. rewrite (bind_Ok _ _ _ _ _ Hr). split_and!; [done..|].
  cbn in Hnil, Hres. rewrite (bits_split_trailing (rbits br')), Hnil, Hres, Hl.
  rewrite <- (app_nil_r (bits_of_bytes p)). by rewrite trailing_app.
Qed.

End drain_spec.

Section reader_spec.
Context {R : Type} `{IoReaderSpec R}.

(** One setting, after its identifier and length. *)
Lemma readSetting_applies skip x e br l : setting_ok x → (length (setting_bytes x) < skip)%nat →
  br_wf br → rbits br = bits_of_bytes (setting_bytes x) ++ l →
  ∃ br', readSetting skip (setting_id x) (zlen (setting_bytes x)) (e, br) =
    ((setting_apply x e).1, ((setting_apply x e).2, br')) ∧ br_wf br' ∧ rbits br' = l.
Proof.
  intros Hx Hs Hwf Hl. destruct (setting_bytes_ok x Hx) as (Hb & Hlen & _).
  destruct x as [s v|s p]; cbn [setting_bytes setting_id setting_apply setting_ok] in *.
  - destruct Hx as [Hs' Hv]. destruct (varint_whole v Hv) as [Hbits _].
    destruct (on_Limited_reads (R := R) ReadVarint v (varint_bytes v) Hb ltac:(lia)) with br l
      as (br' & Hr & Hwf' & Hl'); [|done|done|].
    { intros br0. rewrite Hbits. by apply (ReadVarint_reads (H0 := LimitedReader_spec br0 _)). }
    exists br'. assert (∀ (k : Z → go (QpackEncoder * bitReader R) unit),
      (on_settings (on_Limited (zlen (varint_bytes v)) ReadVarint) ≫= k) (e, br) = k v (e, br')) as Hread.
    { intros k. rewrite bind_unfold. unfold on_settings, zoom. cbn [snd]. by rewrite Hr. }
    unfold readSetting. destruct Hs' as [->| ->]; cbn [Z.eqb settingTableSize settingMaxQpackBlockedStreams
      Pos.eqb]; rewrite Hread.
    + destruct (2 ^ 30 <=? v); [done|]. unfold on_encoder, zoom. cbn [fst snd].
      by destruct (Encoder_SetCapacity v e).
    + destruct (2 ^ 16 <=? v) eqn:Hlt; [done|]. apply Z.leb_gt in Hlt. rewrite i64_small by lia.
      unfold on_encoder, zoom. cbn [fst snd]. by destruct (SetMaxBlockedStreams v e).
  - destruct Hx as (_ & Hn1 & Hn7 & _).
    destruct (on_Limited_drains (R := R) (CopyDiscard skip) None p Hb ltac:(lia)) with br l
      as (br' & Hr & Hwf' & Hl'); [|done|done|].
    { intros br0. by apply (CopyDiscard_drains (H0 := LimitedReader_spec br0 _)). }
    exists br'. unfold readSetting. rewrite !(proj2 (Z.eqb_neq _ _)) by done.
    rewrite bind_unfold. unfold on_settings, zoom. cbn [snd]. by rewrite Hr.
Qed.

(** The loop applies the settings in turn. *)
Lemma readSettings_applies xs e br fuel skip : Forall setting_ok xs →
  Forall (λ x, length (setting_bytes x) < skip)%nat xs → (length xs < fuel)%nat →
  br_wf br → rbits br = mjoin (setting_bits <$> xs) →
  ∃ br', readSettings_loop fuel skip (e, br) = ((settings_apply xs e).1, ((settings_apply xs e).2, br')) ∧
    match (settings_apply xs e).1 with Ok _ => br_wf br' ∧ rbits br' = [] | _ => True end.
Proof.
  intros Hxs. revert e br fuel. induction Hxs as [|x xs Hx _ IH];
    intros e br [|fuel] Hskip Hf Hwf Hl; cbn [length] in Hf; try lia; cbn [readSettings_loop settings_apply];
    rewrite bind_unfold; unfold catch, on_settings at 1, zoom; cbn [snd].
  - destruct (ReadBits_spec 16 br Hwf) as (br' & Hwf' & Hr); [done|].
    rewrite Hl in Hr. destruct Hr as [-> Hr]. by exists br'.
  - apply Forall_cons in Hskip as [Hsx Hskip]. destruct (setting_bytes_ok x Hx) as (Hb & Hlen & Hid).
    change (mjoin (setting_bits <$> x :: xs)) with (setting_bits x ++ mjoin (setting_bits <$> xs)) in Hl.
    unfold setting_bits at 1 in Hl. rewrite <- !(assoc_L (++)) in Hl.
    destruct (ReadBits_reads 16 (setting_id x) ltac:(done) Hid br _ Hwf Hl) as (br1 & -> & Hwf1 & Hl1).
    destruct (ReadVarint_reads (R := R) (zlen (setting_bytes x)) Hlen br1 _ Hwf1 Hl1) as (br2 & Hr2 & Hwf2 & Hl2).
    rewrite bind_unfold. unfold on_settings at 1, zoom. cbn [fst snd]. rewrite Hr2.
    destruct (readSetting_applies skip x e br2 _ Hx Hsx Hwf2 Hl2) as (br3 & Hr3 & Hwf3 & Hl3).
    rewrite !bind_unfold, Hr3. destruct (setting_apply x e) as [o e']. cbn [fst snd].
    destruct o as [[]|er| |]; [|by exists br3..]. apply IH; [done|lia|done|done].
Qed.
End reader_spec.

(** ** Both settings of a configuration *)

(** The settings that [WriteTo] writes. *)
Definition config_settings (config : Config) : list setting :=
  [SInt settingTableSize (DecoderTableCapacity config);
   SInt settingMaxQpackBlockedStreams (ConcurrentDecoders config)].

Lemma setting_len_range v : 0 ≤ v < 2 ^ 62 → 0 ≤ setting_len v ≤ 18.
Proof.
  intros Hv. unfold setting_len. destruct (varint_whole v Hv) as [Hbits _].
  pose proof (zlen_varint_bits v Hv) as Hlen. rewrite <- Hbits, zlen_bits_of_bytes in Hlen.
  pose proof (varint_len_range v Hv). pose proof (varint_len_range (zlen (varint_bytes v)) ltac:(lia)). lia.
Qed.

Lemma WriteTo_writes {W} `{IoWriterSpec W} `{!IoWriterTotal W} config :
  0 ≤ DecoderTableCapacity config < 2 ^ 62 → 0 ≤ ConcurrentDecoders config < 2 ^ 16 →
  writes (WriteTo (W := W) config)
    (setting_len (DecoderTableCapacity config) + setting_len (ConcurrentDecoders config), None)
    (mjoin (setting_bits <$> config_settings config)) ∧
  zlen (mjoin (setting_bits <$> config_settings config)) =
    8 * (setting_len (DecoderTableCapacity config) + setting_len (ConcurrentDecoders config)).
Proof.
  intros Hc Hd. destruct (writeIntSetting_writes (W := W) settingTableSize (DecoderTableCapacity config)) as [Hw1 Hl1]; [by left|done|].
  destruct (writeIntSetting_writes (W := W) settingMaxQpackBlockedStreams (ConcurrentDecoders config)) as [Hw2 Hl2]; [by right|lia|].
  pose proof (setting_len_range (DecoderTableCapacity config) Hc).
  pose proof (setting_len_range (ConcurrentDecoders config) ltac:(lia)).
  change (mjoin (setting_bits <$> config_settings config)) with
    (setting_bits (SInt settingTableSize (DecoderTableCapacity config)) ++
     setting_bits (SInt settingMaxQpackBlockedStreams (ConcurrentDecoders config)) ++ []). split.
  - unfold WriteTo. eapply writes_bind; [exact Hw1|]. cbv beta iota.
    eapply writes_bind; [exact Hw2|]. cbv beta iota. rewrite i64_small by lia. apply writes_ret.
  - rewrite app_nil_r, zlen_app, Hl1, Hl2. lia.
Qed.

(** The settings as bytes of a buffer. *)
Lemma WriteTo_bytes config (w : bitWriter Buffer) : at_byte w →
  0 ≤ DecoderTableCapacity config < 2 ^ 62 → 0 ≤ ConcurrentDecoders config < 2 ^ 16 →
  ∃ w' bs, WriteTo config w = (Ok (zlen bs, None), w') ∧ at_byte w' ∧
    buf_bytes (bw_writer w') = buf_bytes (bw_writer w) ++ bs ∧ Forall is_byte bs ∧
    bits_of_bytes bs = mjoin (setting_bits <$> config_settings config) ∧ zlen bs ≤ 36.
Proof.
  intros Hw Hc Hd. destruct (WriteTo_writes (W := Buffer) config Hc Hd) as [Hwr Hlen].
  destruct (swrites_whole (W := Buffer) (λ _ w, w) (WriteTo config) tt _ _ tt _ w Hwr Hlen Hw)
    as (w' & bs & Hr & Hw' & Hac & Hbs & Hbits).
  pose proof (setting_len_range (DecoderTableCapacity config) Hc).
  pose proof (setting_len_range (ConcurrentDecoders config) ltac:(lia)).
  rewrite <- Hbits, zlen_bits_of_bytes in Hlen. exists w', bs. split_and!; try done; [|lia].
  rewrite Hr. do 3 f_equal. lia.
Qed.

Lemma config_settings_ok config : 0 ≤ DecoderTableCapacity config < 2 ^ 62 → 0 ≤ ConcurrentDecoders config < 2 ^ 16 →
  Forall setting_ok (config_settings config).
Proof. intros Hc Hd. do 2 (apply Forall_cons; split; [split; [by (left + right)|lia]|]). constructor. Qed.

(** ** Any input *)

(** What the settings of a fresh connection find: nothing was inserted and no
    stream is blocked. *)
Definition fresh_encoder (e : QpackEncoder) : Prop := qe_base e = 0 ∧ blockedStreams e = 0.

Definition ends_well {A} (o : outcome A) : Prop := match o with Ok _ | Err _ => True | _ => False end.

Section any.
Context {R : Type} `{IoReaderSpec R}.

Lemma CopyDiscard_ends fuel (br : bitReader R) : br_wf br → zlen (rbits br) < Z.of_nat fuel →
  ∃ br', CopyDiscard fuel br = (Ok None, br') ∧ br_wf br'.
Proof.
  intros Hwf Hf. unfold CopyDiscard.
  destruct (Drain_spec fuel 8192 [] br) as (br' & Hr & Hwf' & _); [done|done| |].
  - cbn. pose proof (f_equal zlen (bits_split_trailing (rbits br))) as Hz. rewrite zlen_app, zlen_bits_of_bytes in Hz.
    pose proof (zlen_nonneg (trailing (rbits br))). unfold zlen in *. lia.
  - exists br'. by rewrite (bind_Ok _ _ _ _ _ Hr).
Qed.
End any.

Section safe.
Context {R : Type} `{IoReaderSpec R}.

(** The part of [readSetting] that reads takes from the stream and ends; what
    follows changes the encoder alone. *)
Lemma readSetting_safe skip s len e (br : bitReader R) : fresh_encoder e → br_wf br →
  zlen (rbits br) < Z.of_nat skip →
  ∃ o e' br', readSetting skip s len (e, br) = (o, (e', br')) ∧ ends_well o ∧ fresh_encoder e' ∧
    br_wf br' ∧ zlen (rbits br') ≤ zlen (rbits br).
Proof.
  intros [Hb Hbl] Hwf Hs.
  assert (∀ (k : Z → go (QpackEncoder * bitReader R) unit), 
    (∀ v br', 0 ≤ v → ∃ o e', k v (e, br') = (o, (e', br')) ∧ ends_well o ∧ fresh_encoder e') →
    ∃ o e' br', (on_settings (on_Limited len ReadVarint) ≫= k) (e, br) = (o, (e', br')) ∧ ends_well o ∧
      fresh_encoder e' ∧ br_wf br' ∧ zlen (rbits br') ≤ zlen (rbits br)) as Hvar.
  { intros k Hk. destruct (on_Limited_takes (R := R) len ReadVarint
      (λ o, (∃ v, o = Ok v ∧ 0 ≤ v) ∨ o = Err EOF) br Hwf) as (o & br' & Hr & Hwf' & Ho & bits & Hbits).
    { intros fr Hfr _. destruct (ReadVarint_range (H0 := LimitedReader_spec br (i64 len)) fr Hfr)
        as (o & fr' & ? & ? & ?). by exists o, fr'. }
    rewrite bind_unfold. unfold on_settings, zoom. cbn [snd fst]. rewrite Hr.
    assert (zlen (rbits br') ≤ zlen (rbits br)) by (rewrite Hbits; zlen_simpl; pose proof (zlen_nonneg bits); lia).
    destruct Ho as [(v & -> & Hv)| ->]; [|by eexists _, e, br'].
    destruct (Hk v br' Hv) as (o' & e' & -> & ? & ?). by exists o', e', br'. }
  unfold readSetting. destruct (s =? settingTableSize); [|destruct (s =? settingMaxQpackBlockedStreams)].
  - apply Hvar. intros v br' Hv. destruct (2 ^ 30 <=? v); [by eexists _, e|].
    unfold on_encoder, zoom, Encoder_SetCapacity. cbn [fst snd]. rewrite bind_unfold. cbn [getS].
    unfold lift, EncoderTable_SetCapacity. unfold qe_base in Hb. rewrite Hb. cbn [Z.ltb Z.compare].
    rewrite bind_unfold. eexists (Ok tt), _. split; [done|split; [done|split; [|done]]].
    unfold qe_base, set_qe_table. cbn [qe_table]. destruct (_ <? _); [|done].
    unfold SetReferenceableLimit. by destruct (limit_scan _ _ _ _).
  - apply Hvar. intros v br' Hv. destruct (Z.leb_spec (2 ^ 16) v); [by eexists _, e|].
    unfold on_encoder, zoom, SetMaxBlockedStreams. cbn [fst snd]. rewrite bind_unfold. cbn [getS].
    rewrite i64_small, Hbl, (proj2 (Z.ltb_ge _ _)) by lia. eexists (Ok tt), _. split; [done|]. by split.
  - destruct (on_Limited_takes (R := R) len (CopyDiscard skip) (λ o, o = Ok None) br Hwf)
      as (o & br' & Hr & Hwf' & -> & bits & Hbits).
    { intros fr Hfr Hle. destruct (CopyDiscard_ends (H0 := LimitedReader_spec br (i64 len)) skip fr Hfr)
        as (fr' & ? & ?); [lia|]. by exists (Ok None), fr'. }
    rewrite bind_unfold. unfold on_settings, zoom. cbn [snd fst]. rewrite Hr.
    eexists (Ok tt), e, br'. split_and!; try done. rewrite Hbits. zlen_simpl. pose proof (zlen_nonneg bits). lia.
Qed.

Lemma readSettings_safe fuel skip e (br : bitReader R) : fresh_encoder e → br_wf br →
  zlen (rbits br) < Z.of_nat fuel → zlen (rbits br) < Z.of_nat skip →
  ∃ o e' br', readSettings_loop fuel skip (e, br) = (o, (e', br')) ∧ ends_well o ∧ fresh_encoder e'.
Proof.
  revert e br. induction fuel as [|fuel IH]; intros e br He Hwf Hf Hs;
    pose proof (zlen_nonneg (rbits br)); [lia|]. cbn [readSettings_loop].
  rewrite bind_unfold. unfold catch, on_settings at 1, zoom. cbn [snd fst].
  destruct (ReadBits_spec 16 br Hwf) as (br1 & Hwf1 & Hr); [done|].
  destruct (Z.leb_spec 16 (zlen (rbits br))); destruct Hr as [-> Hl1]; [|by eexists (Ok tt), e, br1].
  rewrite bind_unfold. unfold on_settings at 1, zoom. cbn [snd fst].
  destruct (ReadVarint_fetches (R := R) br1 Hwf1) as (o & br2 & -> & Hwf2 & Ho & bits & Hl2).
  assert (zlen (rbits br1) = zlen (rbits br) - 16) as Hz1 by (rewrite Hl1, zlen_zdrop; lia).
  assert (zlen (rbits br2) ≤ zlen (rbits br1)) by (rewrite Hl2; zlen_simpl; pose proof (zlen_nonneg bits); lia).
  destruct Ho as [[len ->]| ->]; [|by eexists _, e, br2].
  rewrite bind_unfold. destruct (readSetting_safe skip (val_of (ztake 16 (rbits br))) len e br2 He Hwf2)
    as (o & e' & br3 & -> & Ho & He' & Hwf3 & Hl3); [lia|].
  destruct o as [[]|er| |]; [|by exists (Err er), e', br3|done..]. apply IH; [done|done|lia|lia].
Qed.
End safe.

(** The settings of a configuration on a fresh encoder. *)
Lemma config_applies config e : fresh_encoder e → 0 ≤ DecoderTableCapacity config →
  0 ≤ ConcurrentDecoders config < 2 ^ 16 →
  if 2 ^ 30 <=? DecoderTableCapacity config
  then settings_apply (config_settings config) e = (Err ErrSettingValue, e)
  else ∃ e', settings_apply (config_settings config) e = (Ok tt, e') ∧ fresh_encoder e' ∧
    qe_capacity e' = DecoderTableCapacity config ∧ maxBlockedStreams e' = ConcurrentDecoders config ∧
    dynamic (qt_common (qe_table e')) = dynamic (qt_common (qe_table e)).
Proof.
  intros [Hb Hbl] Hc Hd. unfold config_settings. cbn [settings_apply setting_apply].
  change (settingTableSize =? settingTableSize) with true.
  change (settingMaxQpackBlockedStreams =? settingTableSize) with false. cbv beta iota.
  destruct (2 ^ 30 <=? DecoderTableCapacity config); [done|].
  rewrite (proj2 (Z.leb_gt (2 ^ 16) _)) by lia. cbv beta iota.
  unfold Encoder_SetCapacity, lift, EncoderTable_SetCapacity. unfold qe_base in Hb.
  rewrite bind_assoc, bind_unfold. cbn [getS]. rewrite bind_assoc, bind_unfold, Hb. cbn [Z.ltb Z.compare].
  rewrite bind_unfold. cbn [modS]. rewrite bind_unfold. unfold SetMaxBlockedStreams. rewrite bind_unfold. cbn [getS].
  unfold set_qe_table. cbn [blockedStreams]. rewrite Hbl, (proj2 (Z.ltb_ge _ _)) by lia. cbn [modS].
  eexists. split; [done|]. unfold fresh_encoder, qe_base, qe_capacity.
  cbn [qe_table blockedStreams maxBlockedStreams]. destruct (_ <? _); [|by split_and!].
  unfold SetReferenceableLimit. destruct (limit_scan _ _ _ _). by split_and!.
Qed.
