(* ===== verification/EventLoop.v ===== *)
(** * The event loop of a connection (mw/ops.go, mw/stream.go, mw/connection.go)

    One goroutine owns the QUIC library's connection. Every call of the application
    is an operation that it sends to the loop, with a channel for the result, and
    then waits on. Channels have no buffer, so a send and its receive are one step.
    The QUIC library is a class; it may call its handler in the middle of a call.

    The handlers are functions on the state that only the loop touches. The results
    that a handler sends block the loop until they are taken, one after the other;
    they are kept as a queue, since nothing else reads or writes the loop's state
    meanwhile. The step relation interleaves the calls, the loop and, once the
    operations are closed, the goroutine that drains them. *)

From S2P Require Import Prelude.

(** ** The QUIC library *)

Inductive State := StateEstablished | StateClosed | StateError | StateOther (n : Z).

(** What the library calls its handler with; streams are their identifiers. *)
Inductive upcall :=
| UStateChanged (s : State)
| UNewStream (s : Z)
| UNewRecvStream (s : Z)
| UStreamReadable (s : Z).

(** A call of the library returns, or calls its handler and goes on with the state
    that the handler leaves. *)
Inductive minqRun (M A : Type) :=
| MRet (a : A) (m : M)
| MCall (u : upcall) (m : M) (k : M → minqRun M A).
Arguments MRet {M A}.
Arguments MCall {M A}.

Class Minq (M : Type) := {
  minq_GetState : M → State;
  minq_Read : Z → Z → M → (list Z * option goerr) * M;       (* stream, length *)
  minq_Write : Z → list Z → M → minqRun M (Z * option goerr);
  minq_Reset : Z → Z → M → minqRun M (option goerr);
  minq_CloseStream : Z → M → minqRun M (option goerr);
  minq_StopSending : Z → Z → M → minqRun M (option goerr);
  minq_CreateStream : M → minqRun M Z;
  minq_CreateSendStream : M → minqRun M Z;
  minq_Close : M → minqRun M (option goerr);
  minq_Error : Z → string → M → minqRun M (option goerr);
  minq_Input : list Z → M → minqRun M unit;
  minq_CheckTimer : M → minqRun M unit;
}.

(** ** Operations *)

Inductive connectionOperation :=
| getStateRequest
| getSendStateRequest (s : Z)
| getRecvStateRequest (s : Z)
| createStreamRequest
| createSendStreamRequest
| writeRequest (s : Z) (p : list Z)
| readRequest (s n : Z)
| resetRequest (s code : Z)
| closeStreamRequest (s : Z)
| stopRequest (s code : Z)
| closeConnectionRequest
| applicationCloseRequest (code : Z) (text : string).

(** What is sent to the channel of an operation; nil streams are [None]. *)
Inductive opResult :=
| RError (e : option goerr)
| RState (s : State)
| RStream (s : option Z)
| RWrite (n : Z) (e : option goerr)
| RRead (bs : list Z) (e : option goerr).

(** [report(err)]: the result it sends. For the states of a stream it sends none
    before it has asked for the state by the stream's own method, which is a new
    operation: [None]. *)
Definition report {M} `{Minq M} (op : connectionOperation) (err : goerr) (m : M) : option opResult :=
  match op with
  | getStateRequest => Some (RState (minq_GetState m))
  | getSendStateRequest _ | getRecvStateRequest _ => None
  | createStreamRequest | createSendStreamRequest => Some (RStream None)
  | writeRequest _ _ => Some (RWrite 0 (Some err))
  | readRequest _ _ => Some (RRead [] (Some err))
  | _ => Some (RError (Some err))
  end.

(** ** What the loop owns *)

(** Calls are numbered; [readState] has the call and the length of the read that
    waits for a stream. [sending] are the results the loop has to send, [nils] the
    calls whose channel it has closed, and [remoteStreams] the goroutines that wait
    to hand out a stream of the peer. *)
Record Connection (M : Type) := MkConnection {
  minq : M;
  wasConnected : bool;
  connectedClosed : bool;
  closedClosed : bool;
  remoteStreams : list Z;
  remoteRecvStreams : list Z;
  readState : gmap Z (nat * Z);
  sending : list (nat * opResult);
  nils : list nat;
}.
Arguments MkConnection {M}.
Arguments minq {M}.
Arguments wasConnected {M}.
Arguments connectedClosed {M}.
Arguments closedClosed {M}.
Arguments remoteStreams {M}.
Arguments remoteRecvStreams {M}.
Arguments readState {M}.
Arguments sending {M}.
Arguments nils {M}.

Section connection.
Context {M : Type} `{Minq M}.
Implicit Types (c : Connection M).

Definition newConnection (m : M) : Connection M := MkConnection m false false false [] [] ∅ [] [].

Definition set_minq (m : M) c : Connection M :=
  MkConnection m (wasConnected c) (connectedClosed c) (closedClosed c) (remoteStreams c) (remoteRecvStreams c)
    (readState c) (sending c) (nils c).
Definition set_readState (rs : gmap Z (nat * Z)) c : Connection M :=
  MkConnection (minq c) (wasConnected c) (connectedClosed c) (closedClosed c) (remoteStreams c) (remoteRecvStreams c)
    rs (sending c) (nils c).
Definition set_sending (q : list (nat * opResult)) c : Connection M :=
  MkConnection (minq c) (wasConnected c) (connectedClosed c) (closedClosed c) (remoteStreams c) (remoteRecvStreams c)
    (readState c) q (nils c).
Definition set_remote (ss rs : list Z) c : Connection M :=
  MkConnection (minq c) (wasConnected c) (connectedClosed c) (closedClosed c) ss rs (readState c) (sending c) (nils c).

(** [op.result <- r] *)
Definition emit (i : nat) (r : opResult) : go (Connection M) unit := modS (λ c, set_sending (sending c ++ [(i, r)]) c).

(** [close(readReq.result)] *)
Definition closeResult (i : nat) : go (Connection M) unit :=
  modS (λ c, MkConnection (minq c) (wasConnected c) (connectedClosed c) (closedClosed c) (remoteStreams c)
    (remoteRecvStreams c) (readState c) (sending c) (nils c ++ [i])).

(** ** Upcalls *)

(** [readRequest.read] for the call [i]. *)
Definition read (i : nat) (s n : Z) : go (Connection M) bool :=
  c ← getS;
  let '((bs, err), m) := minq_Read s n (minq c) in
  modS (set_minq m);;
  if decide (err = Some ErrWouldBlock) then mret false
  else emit i (RRead bs err);; mret true.

Definition handleReadRequest (i : nat) (s n : Z) : go (Connection M) unit :=
  c ← getS;
  match readState c !! s with
  | Some _ => panic         (* someone else is waiting on a read *)
  | None =>
      ok ← read i s n;
      if ok : bool then mret tt else modS (λ c, set_readState (<[s := (i, n)]> (readState c)) c)
  end.

Definition StreamReadable (s : Z) : go (Connection M) unit :=
  c ← getS;
  match readState c !! s with
  | None => mret tt
  | Some (i, n) =>
      modS (λ c, set_readState (delete s (readState c)) c);;
      ok ← read i s n;
      if ok : bool then mret tt else panic     (* read failed after readable event *)
  end.

(** Closing a channel twice panics. *)
Definition StateChanged (s : State) : go (Connection M) unit :=
  c ← getS;
  match s with
  | StateEstablished =>
      if connectedClosed c then panic else
      modS (λ c, MkConnection (minq c) true true (closedClosed c) (remoteStreams c) (remoteRecvStreams c)
        (readState c) (sending c) (nils c))
  | StateClosed | StateError =>
      if closedClosed c then panic else
      modS (λ c, MkConnection (minq c) (wasConnected c) (connectedClosed c) true (remoteStreams c) (remoteRecvStreams c)
        (readState c) (sending c) (nils c))
  | StateOther _ => mret tt
  end.

Definition NewStream (s : Z) : go (Connection M) unit :=
  modS (λ c, set_remote (remoteStreams c ++ [s]) (remoteRecvStreams c) c).
Definition NewRecvStream (s : Z) : go (Connection M) unit :=
  modS (λ c, set_remote (remoteStreams c) (remoteRecvStreams c ++ [s]) c).

Definition handler (u : upcall) : go (Connection M) unit :=
  match u with
  | UStateChanged s => StateChanged s
  | UNewStream s => NewStream s
  | UNewRecvStream s => NewRecvStream s
  | UStreamReadable s => StreamReadable s
  end.

(** A call of the library. *)
Fixpoint exec {A} (run : minqRun M A) : go (Connection M) A := λ c,
  match run with
  | MRet a m => (Ok a, set_minq m c)
  | MCall u m k =>
      match handler u (set_minq m c) with
      | (Ok _, c') => exec (k (minq c')) c'
      | (Err e, c') => (Err e, c')
      | (Panic, c') => (Panic, c')
      | (NoFuel, c') => (NoFuel, c')
      end
  end.

Definition callMinq {A} (f : M → minqRun M A) : go (Connection M) A :=
  c ← getS;
  exec (f (minq c)).

(** ** [connectionOperations.Handle] *)

(** An operation that reports the error of a call. *)
Definition reportCall (i : nat) (f : M → minqRun M (option goerr)) : go (Connection M) unit :=
  e ← callMinq f;
  emit i (RError e).

Definition stopReading (s : Z) : go (Connection M) unit :=
  c ← getS;
  match readState c !! s with
  | None => mret tt
  | Some (i, _) =>
      closeResult i;;
      modS (λ c, set_readState (delete s (readState c)) c)
  end.

(** [false] when the operation calls [Add] from within the loop. *)
Definition Handle (i : nat) (op : connectionOperation) : go (Connection M) bool :=
  match op with
  | closeConnectionRequest => reportCall i minq_Close;; mret true
  | applicationCloseRequest code text => reportCall i (minq_Error code text);; mret true
  | createStreamRequest => s ← callMinq minq_CreateStream; emit i (RStream (Some s));; mret true
  | createSendStreamRequest => s ← callMinq minq_CreateSendStream; emit i (RStream (Some s));; mret true
  | writeRequest s p => '(n, e) ← callMinq (minq_Write s p); emit i (RWrite n e);; mret true
  | closeStreamRequest s => reportCall i (minq_CloseStream s);; mret true
  | resetRequest s code => reportCall i (minq_Reset s code);; mret true
  | readRequest s n => handleReadRequest i s n;; mret true
  | stopRequest s code => stopReading s;; reportCall i (minq_StopSending s code);; mret true
  | _ =>
      c ← getS;
      match report op ErrUnknownOperation (minq c) with
      | Some r => emit i r;; mret true
      | None => mret false
      end
  end.

(** [cleanup]: the goroutines that still wait to hand out a stream send on a closed
    channel. *)
Definition cleanup : go (Connection M) unit :=
  c ← getS;
  (if wasConnected c then mret tt else
   if connectedClosed c then panic else
   modS (λ c, MkConnection (minq c) (wasConnected c) true (closedClosed c) (remoteStreams c) (remoteRecvStreams c)
     (readState c) (sending c) (nils c)));;
  match remoteStreams c with [] => mret tt | _ => panic end.

Definition loopEnds (m : M) : bool :=
  match minq_GetState m with StateClosed | StateError => true | _ => false end.
End connection.

(** ** Calls, the loop and the drain *)

(** Where a call is: before the [select] of [Add]; in the send to the loop; in
    [report] within [Add], sending to its own channel; receiving its result; or back. *)
Inductive callState :=
| CAdd
| CSend
| CReport (r : opResult)
| CWait
| CReturned (r : opResult).

Record call := MkCall {
  cl_op : connectionOperation;
  cl_st : callState;
}.

(** The loop serves ([sending] says whether it is in the middle of its sends), is in
    [Add] on behalf of the call [i], or has ended. *)
Inductive loopState :=
| LService
| LBlocked (i : nat)
| LExited.

(** The goroutine that [Close] starts. *)
Inductive drainState :=
| DNone
| DReady
| DSending (i : nat) (r : opResult).

Record system (M : Type) := System {
  sys_conn : Connection M;
  sys_calls : list call;
  sys_closed : bool;           (* [ops.closed] *)
  sys_loop : loopState;
  sys_drain : drainState;
}.
Arguments System {M}.
Arguments sys_conn {M}.
Arguments sys_calls {M}.
Arguments sys_closed {M}.
Arguments sys_loop {M}.
Arguments sys_drain {M}.

(** A panic, or a stack that overflows, ends the process. *)
Inductive world (M : Type) :=
| Running (s : system M)
| Crashed.
Arguments Running {M}.
Arguments Crashed {M}.

Section system.
Context {M : Type} `{Minq M}.
Implicit Types (s : system M).

Definition start (m : M) : system M := System (newConnection m) [] false LService DNone.

Definition set_conn (c : Connection M) s : system M := System c (sys_calls s) (sys_closed s) (sys_loop s) (sys_drain s).
Definition set_calls (cs : list call) s : system M := System (sys_conn s) cs (sys_closed s) (sys_loop s) (sys_drain s).
Definition set_drain (d : drainState) s : system M := System (sys_conn s) (sys_calls s) (sys_closed s) (sys_loop s) d.
Definition set_call (i : nat) (op : connectionOperation) (st : callState) s : system M :=
  set_calls (<[i := MkCall op st]> (sys_calls s)) s.

Definition at_call s (i : nat) (op : connectionOperation) (st : callState) : Prop := sys_calls s !! i = Some (MkCall op st).

(** The loop is in its [select]. *)
Definition selecting s : Prop :=
  sys_loop s = LService ∧ sending (sys_conn s) = [] ∧ loopEnds (minq (sys_conn s)) = false.

(** Who can send [r] to the channel of the call [i], and what is left then. *)
Inductive sends s (i : nat) (r : opResult) : system M → Prop :=
| sends_loop rest : sys_loop s = LService → sending (sys_conn s) = (i, r) :: rest →
    sends s i r (set_conn (set_sending rest (sys_conn s)) s)
| sends_drain : sys_drain s = DSending i r → sends s i r (set_drain DReady s)
| sends_call op : at_call s i op (CReport r) → sends s i r (set_call i op CWait s).

(** How the loop goes on after a handler. *)
Definition after {A} (o : outcome A * Connection M) (k : A → Connection M → world M) : world M :=
  match o with
  | (Ok a, c) => k a c
  | _ => Crashed
  end.

Inductive step : system M → world M → Prop :=
| step_call s op : step s (Running (set_calls (sys_calls s ++ [MkCall op CAdd]) s))
| step_add s i op : at_call s i op CAdd → sys_closed s = false → step s (Running (set_call i op CSend s))
| step_add_closed s i op : at_call s i op CAdd → sys_closed s = true →
    step s match report op ErrConnectionClosed (minq (sys_conn s)) with
           | Some r => Running (set_call i op (CReport r) s)
           | None => Crashed              (* [Add] and [report] call each other for ever *)
           end
| step_handle s i op : selecting s → at_call s i op CSend →
    step s (after (Handle i op (sys_conn s)) (λ b c,
      Running (set_call i op CWait (System c (sys_calls s) (sys_closed s) (if b : bool then LService else LBlocked i) (sys_drain s)))))
| step_input s p : selecting s →
    step s (after (callMinq (minq_Input p) (sys_conn s)) (λ _ c, Running (set_conn c s)))
| step_timer s : selecting s →
    step s (after (callMinq minq_CheckTimer (sys_conn s)) (λ _ c, Running (set_conn c s)))
| step_exit s : sys_loop s = LService → sending (sys_conn s) = [] → loopEnds (minq (sys_conn s)) = true →
    step s (after (cleanup (sys_conn s)) (λ _ c, Running (System c (sys_calls s) true LExited DReady)))
| step_result s i r s' op : sends s i r s' → at_call s i op CWait → step s (Running (set_call i op (CReturned r) s'))
| step_nil s i op : i ∈ nils (sys_conn s) → at_call s i op CWait →
    step s Crashed                        (* [resp.n] of a nil [resp] *)
| step_accept s x rest : remoteStreams (sys_conn s) = x :: rest →
    step s (Running (set_conn (set_remote rest (remoteRecvStreams (sys_conn s)) (sys_conn s)) s))
| step_accept_recv s x rest : remoteRecvStreams (sys_conn s) = x :: rest →
    step s (Running (set_conn (set_remote (remoteStreams (sys_conn s)) rest (sys_conn s)) s))
| step_drain s i op : sys_drain s = DReady → at_call s i op CSend →
    step s match report op ErrConnectionClosed (minq (sys_conn s)) with
           | Some r => Running (set_call i op CWait (set_drain (DSending i r) s))
           | None => Crashed
           end
| step_drain_loop s i : sys_drain s = DReady → sys_loop s = LBlocked i → step s Crashed.

(** Reachability, in the reflexive and transitive closure. *)
Inductive steps : system M → system M → Prop :=
| steps_refl s : steps s s
| steps_step s1 s2 s3 : steps s1 s2 → step s2 (Running s3) → steps s1 s3.

Definition reachable s : Prop := ∃ m, steps (start m) s.

(** *** Schedules

    A step by its name, for running the system: [None] when it is not possible. *)
Inductive action :=
| ACall (op : connectionOperation)
| AAdd (i : nat)
| AHandle (i : nat)
| AInput (p : list Z)
| AExit
| AResult (i : nat)        (* from the loop or the drain *)
| ANil (i : nat)
| ADrain (i : nat).
#[global] Arguments AAdd i%_nat_scope.
#[global] Arguments AHandle i%_nat_scope.
#[global] Arguments AResult i%_nat_scope.
#[global] Arguments ANil i%_nat_scope.
#[global] Arguments ADrain i%_nat_scope.

Definition is_selecting s : bool :=
  match sys_loop s, sending (sys_conn s) with
  | LService, [] => negb (loopEnds (minq (sys_conn s)))
  | _, _ => false
  end.

Definition sender_of s (i : nat) : option (opResult * system M) :=
  match sys_loop s, sending (sys_conn s), sys_drain s with
  | LService, (j, r) :: rest, _ => if decide (j = i) then Some (r, set_conn (set_sending rest (sys_conn s)) s) else None
  | _, _, DSending j r => if decide (j = i) then Some (r, set_drain DReady s) else None
  | _, _, _ => None
  end.

Definition perform (a : action) s : option (world M) :=
  match a with
  | ACall op => Some (Running (set_calls (sys_calls s ++ [MkCall op CAdd]) s))
  | AAdd i =>
      match sys_calls s !! i with
      | Some (MkCall op CAdd) => Some (
          if sys_closed s then
            match report op ErrConnectionClosed (minq (sys_conn s)) with
            | Some r => Running (set_call i op (CReport r) s)
            | None => Crashed
            end
          else Running (set_call i op CSend s))
      | _ => None
      end
  | AHandle i =>
      match sys_calls s !! i with
      | Some (MkCall op CSend) =>
          if is_selecting s then Some (after (Handle i op (sys_conn s)) (λ b c,
            Running (set_call i op CWait (System c (sys_calls s) (sys_closed s) (if b : bool then LService else LBlocked i) (sys_drain s)))))
          else None
      | _ => None
      end
  | AInput p =>
      if is_selecting s then Some (after (callMinq (minq_Input p) (sys_conn s)) (λ _ c, Running (set_conn c s))) else None
  | AExit =>
      match sys_loop s, sending (sys_conn s), loopEnds (minq (sys_conn s)) with
      | LService, [], true => Some (after (cleanup (sys_conn s)) (λ _ c, Running (System c (sys_calls s) true LExited DReady)))
      | _, _, _ => None
      end
  | AResult i =>
      match sys_calls s !! i, sender_of s i with
      | Some (MkCall op CWait), Some (r, s') => Some (Running (set_call i op (CReturned r) s'))
      | _, _ => None
      end
  | ANil i =>
      match sys_calls s !! i with
      | Some (MkCall op CWait) => if decide (i ∈ nils (sys_conn s)) then Some Crashed else None
      | _ => None
      end
  | ADrain i =>
      match sys_drain s, sys_calls s !! i with
      | DReady, Some (MkCall op CSend) => Some (
          match report op ErrConnectionClosed (minq (sys_conn s)) with
          | Some r => Running (set_call i op CWait (set_drain (DSending i r) s))
          | None => Crashed
          end)
      | _, _ => None
      end
  end.

Fixpoint perform_all (l : list action) s : option (world M) :=
  match l with
  | [] => Some (Running s)
  | a :: l =>
      match perform a s with
      | Some (Running s') => perform_all l s'
      | Some Crashed => match l with [] => Some Crashed | _ => None end
      | None => None
      end
  end.
End system.
