(* ===== verification/EventLoopSpec.v ===== *)
(** * The event loop: results that are owed

    A call that waits is owed one result, by one of the goroutines; that is the
    invariant of the step relation of [EventLoop]. From it follow what completes and
    what never does. *)

From S2P Require Import Prelude EventLoop.

(** ** Lists of owed calls *)

Definition waiting (cs : list call) (i : nat) : Prop := ∃ op, cs !! i = Some (MkCall op CWait).

(** [l] has the calls that wait, each once. *)
Definition owes (l : list nat) (cs : list call) : Prop := NoDup l ∧ ∀ i, i ∈ l ↔ waiting cs i.

#[export] Instance owes_proper : Proper ((≡ₚ) ==> eq ==> iff) owes.
Proof.
  intros l l' Hl cs ? <-. unfold owes. rewrite Hl. split; intros [Hn Hw]; (split; [done|]); intros i;
    rewrite <- (Hw i); by rewrite Hl.
Qed.

Lemma waiting_insert cs i c j : (i < length cs)%nat →
  waiting (<[i := c]> cs) j ↔ if decide (i = j) then cl_st c = CWait else waiting cs j.
Proof.
  intros Hi. unfold waiting. destruct (decide (i = j)) as [<-|Hne].
  - rewrite list_lookup_insert_eq by done. split; [by intros (op & [= ->])|]. destruct c as [op st]. cbn. intros ->. by exists op.
  - by rewrite list_lookup_insert_ne.
Qed.

Section owes.
Context (l : list nat) (cs : list call).
Hypothesis Howes : owes l cs.

Lemma owes_new op st : st ≠ CWait → owes l (cs ++ [MkCall op st]).
Proof.
  intros Hst. destruct Howes as [Hn Hw]. split; [done|]. intros i. rewrite Hw. unfold waiting. split; intros [op' Hi].
  - exists op'. by apply lookup_app_l_Some.
  - exists op'. apply lookup_app_Some in Hi as [Hi|[_ Hi]]; [done|].
    apply list_lookup_singleton_Some in Hi as [_ [= _ ->]]. done.
Qed.

(** A call that does not wait changes its state. *)
Lemma owes_other i op st st' : cs !! i = Some (MkCall op st) → st ≠ CWait → st' ≠ CWait → owes l (<[i := MkCall op st']> cs).
Proof.
  intros Hi Hst Hst'. destruct Howes as [Hn Hw]. split; [done|]. intros j.
  rewrite Hw, waiting_insert by by eapply lookup_lt_Some. cbn. destruct (decide (i = j)) as [<-|]; [|done].
  split; [|done]. intros [op' Hj]. rewrite Hi in Hj. by injection Hj as _ ->.
Qed.

(** A call begins to wait. *)
Lemma owes_more i op st : cs !! i = Some (MkCall op st) → st ≠ CWait → owes (i :: l) (<[i := MkCall op CWait]> cs).
Proof.
  intros Hi Hst. destruct Howes as [Hn Hw]. assert (i ∉ l) as Hil.
  { rewrite Hw. intros [op' Hj]. rewrite Hi in Hj. by injection Hj as _ ->. }
  split; [by constructor|]. intros j. rewrite elem_of_cons, waiting_insert, Hw by by eapply lookup_lt_Some. cbn.
  destruct (decide (i = j)) as [<-|Hne]; [tauto|]. split; [intros [->|]; done|by right].
Qed.
End owes.

(** A call gets its result. *)
Lemma owes_less i l cs op st : owes (i :: l) cs → st ≠ CWait → owes l (<[i := MkCall op st]> cs).
Proof.
  intros [[Hi Hn]%NoDup_cons Hw] Hst. split; [done|]. intros j. assert (waiting cs i) as [op' Hwi] by (apply Hw; by left).
  rewrite waiting_insert by by eapply lookup_lt_Some. cbn. specialize (Hw j). rewrite elem_of_cons in Hw.
  destruct (decide (i = j)) as [<-|Hne]; [done|]. rewrite <- Hw. split; [by right|]. by intros [->|].
Qed.

(** ** What the loop owes *)

Section connection.
Context {M : Type} `{Minq M}.
Implicit Types (c : Connection M).

Definition readers (rs : gmap Z (nat * Z)) : list nat := (λ x, x.2.1) <$> map_to_list rs.
Definition conn_owed c : list nat := (sending c).*1 ++ readers (readState c) ++ nils c.

Lemma readers_insert rs s i n : rs !! s = None → readers (<[s := (i, n)]> rs) ≡ₚ i :: readers rs.
Proof. intros Hs. unfold readers. by rewrite map_to_list_insert by done. Qed.

Lemma readers_delete rs s i n : rs !! s = Some (i, n) → readers rs ≡ₚ i :: readers (delete s rs).
Proof. intros Hs. unfold readers. by rewrite <- (map_to_list_delete rs s (i, n)) by done. Qed.

(** [m] ends or panics, and when it ends with [a] the loop owes [l a] more. *)
Definition adds {A} (m : go (Connection M) A) (l : A → list nat) : Prop :=
  ∀ c, match m c with
       | (Ok a, c') => conn_owed c' ≡ₚ l a ++ conn_owed c
       | (Panic, _) => True
       | _ => False
       end.
Definition keeps {A} (m : go (Connection M) A) : Prop := adds m (λ _, []).

Lemma adds_bind {A B} (m : go (Connection M) A) (k : A → go (Connection M) B) l1 l2 l :
  adds m l1 → (∀ a, adds (k a) (l2 a)) → (∀ a b, l2 a b ++ l1 a ≡ₚ l b) → adds (m ≫= k) l.
Proof.
  intros Hm Hk Hl c. rewrite bind_unfold. specialize (Hm c). destruct (m c) as [[a|e| |] c']; try done.
  specialize (Hk a c'). destruct (k a c') as [[b|e| |] c'']; try done. by rewrite Hk, Hm, (assoc_L (++)), Hl.
Qed.

Lemma keeps_then {A B} (m : go (Connection M) A) (k : A → go (Connection M) B) l :
  keeps m → (∀ a, adds (k a) l) → adds (m ≫= k) l.
Proof. intros Hm Hk. eapply adds_bind; [exact Hm|exact Hk|]. intros a b. by rewrite app_nil_r. Qed.

Lemma keeps_mod f : (∀ c, conn_owed (f c) = conn_owed c) → keeps (modS f).
Proof. intros Hf c. cbn. by rewrite Hf. Qed.

Lemma keeps_get : keeps getS.
Proof. intros c. by cbn. Qed.
Lemma keeps_ret {A} (a : A) : keeps (mret a).
Proof. intros c. by cbn. Qed.
Lemma adds_panic {A} (l : A → list nat) : adds panic l.
Proof. by intros c. Qed.

Lemma adds_emit i r : adds (emit i r) (λ _, [i]).
Proof.
  intros c. unfold emit, conn_owed. cbn. rewrite fmap_app. cbn [fmap list_fmap].
  rewrite <- (assoc_L (++)). symmetry. apply Permutation_middle.
Qed.

Lemma adds_read i s n : adds (read i s n) (λ ok : bool, if ok then [i] else []).
Proof.
  intros c. unfold read. rewrite bind_unfold. cbn [getS]. destruct (minq_Read s n (minq c)) as [[bs err] m].
  rewrite bind_unfold. cbn [modS]. destruct (decide _); [by cbn|].
  rewrite bind_unfold. pose proof (adds_emit i (RRead bs err) (set_minq m c)) as He. by destruct (emit _ _ _) as [[]].
Qed.

Lemma adds_handleReadRequest i s n : adds (handleReadRequest i s n) (λ _, [i]).
Proof.
  intros c. unfold handleReadRequest. rewrite bind_unfold. cbn [getS].
  destruct (readState c !! s) as [[]|] eqn:Hs; [done|]. rewrite bind_unfold.
  pose proof (adds_read i s n c) as Hr. destruct (read i s n c) as [[[]|e| |] c'] eqn:Hread; try done.
  assert (readState c' !! s = None) as Hs'.
  { unfold read in Hread. rewrite bind_unfold in Hread. cbn [getS] in Hread. destruct (minq_Read s n (minq c)) as [[bs err] m].
    rewrite bind_unfold in Hread. cbn [modS] in Hread. destruct (decide _); [by injection Hread as <-|done]. }
  unfold modS, conn_owed in *. cbn [set_readState sending readState nils]. rewrite readers_insert by done.
  cbn [app] in *. rewrite <- Hr. symmetry. apply Permutation_middle.
Qed.

Lemma keeps_StreamReadable s : keeps (StreamReadable s).
Proof.
  intros c. unfold StreamReadable. rewrite bind_unfold. cbn [getS].
  destruct (readState c !! s) as [[i n]|] eqn:Hs; [|by cbn].
  rewrite bind_unfold. cbn [modS]. rewrite bind_unfold. set (c0 := set_readState _ c).
  pose proof (adds_read i s n c0) as Hr. destruct (read i s n c0) as [[[]|e| |] c']; try done.
  cbn [app] in *. cbn. rewrite Hr. unfold c0, conn_owed. cbn [set_readState sending readState nils].
  rewrite (readers_delete _ _ _ _ Hs). apply Permutation_middle.
Qed.

Lemma keeps_handler u : keeps (handler u).
Proof.
  destruct u as [s|s|s|s]; cbn [handler].
  - apply keeps_then; [apply keeps_get|]. intros c0. destruct s; cbn; repeat case_match; first [apply adds_panic|by apply keeps_mod|apply keeps_ret].
  - by apply keeps_mod.
  - by apply keeps_mod.
  - apply keeps_StreamReadable.
Qed.

Lemma keeps_exec {A} (run : minqRun M A) : keeps (exec run).
Proof.
  induction run as [a m|u m k IH]; intros c; cbn [exec]; [by cbn|].
  pose proof (keeps_handler u (set_minq m c)) as Hh. destruct (handler u (set_minq m c)) as [[[]|e| |] c']; try done.
  specialize (IH (minq c') c'). destruct (exec (k (minq c')) c') as [[a|e| |] c'']; try done. cbn in *. by rewrite IH, Hh.
Qed.

Lemma keeps_callMinq {A} (f : M → minqRun M A) : keeps (callMinq f).
Proof. apply keeps_then; [apply keeps_get|]. intros c. apply keeps_exec. Qed.

Lemma adds_reportCall i f : adds (reportCall i f) (λ _, [i]).
Proof. apply keeps_then; [apply keeps_callMinq|]. intros e. apply adds_emit. Qed.

Lemma keeps_stopReading s : keeps (stopReading s).
Proof.
  intros c. unfold stopReading. rewrite bind_unfold. cbn [getS].
  destruct (readState c !! s) as [[i n]|] eqn:Hs; [|by cbn].
  rewrite bind_unfold. unfold closeResult, modS, conn_owed. cbn [set_readState sending readState nils app].
  rewrite (readers_delete _ _ _ _ Hs). cbn [app]. apply Permutation_app_head.
  rewrite (assoc_L (++)). by rewrite <- Permutation_cons_append.
Qed.

Lemma adds_true {A} (m : go (Connection M) A) l : adds m (λ _, l) → adds (m;; mret true) (λ b : bool, if b then l else []).
Proof.
  intros Hm c. rewrite bind_unfold. specialize (Hm c). by destruct (m c) as [[a|e| |] c'].
Qed.

(** An operation adds its own call to what is owed, except when it calls [Add]. *)
Lemma Handle_adds i op : adds (Handle i op) (λ b : bool, if b then [i] else []).
Proof.
  assert (∀ A (f : M → minqRun M A) (r : A → opResult),
    adds (s ← callMinq f; emit i (r s);; mret true) (λ b : bool, if b then [i] else [])) as Hcall.
  { intros A f r. apply keeps_then; [apply keeps_callMinq|]. intros s. apply (adds_true (emit i (r s))), adds_emit. }
  assert (∀ f, adds (reportCall i f;; mret true) (λ b : bool, if b then [i] else [])) as Hrep.
  { intros f. apply adds_true, adds_reportCall. }
  assert (adds (c ← getS; match report op ErrUnknownOperation (minq c) with
    | Some r => emit i r;; mret true | None => mret false end) (λ b : bool, if b then [i] else [])) as Hdef.
  { apply keeps_then; [apply keeps_get|]. intros c. destruct (report _ _ _) as [r|]; [apply adds_true, adds_emit|].
    intros c'. by cbn. }
  destruct op; try exact Hdef; try apply Hrep; cbn [Handle].
  - apply (Hcall _ minq_CreateStream (λ s, RStream (Some s))).
  - apply (Hcall _ minq_CreateSendStream (λ s, RStream (Some s))).
  - apply keeps_then; [apply keeps_callMinq|]. intros [n e]. apply (adds_true (emit i (RWrite n e))), adds_emit.
  - apply adds_true, adds_handleReadRequest.
  - apply keeps_then; [apply keeps_stopReading|]. intros _. apply Hrep.
Qed.

Lemma keeps_cleanup : keeps cleanup.
Proof.
  apply keeps_then; [apply keeps_get|]. intros c. apply keeps_then.
  - destruct (wasConnected c), (connectedClosed c); first [apply keeps_ret|apply adds_panic|by apply keeps_mod].
  - intros _. destruct (remoteStreams c); [apply keeps_ret|apply adds_panic].
Qed.
End connection.

(** ** The invariant *)

Section system.
Context {M : Type} `{Minq M}.
Implicit Types (s : system M).

Definition drain_owed (d : drainState) : list nat := match d with DSending i _ => [i] | _ => [] end.
Definition loop_owed (l : loopState) : list nat := match l with LBlocked i => [i] | _ => [] end.

(** The calls whose result is still to come: queued by the loop, read but not yet
    answered, with a closed channel, held by the drain, or blocking the loop. *)
Definition owed s : list nat := conn_owed (sys_conn s) ++ drain_owed (sys_drain s) ++ loop_owed (sys_loop s).

Record sys_inv s : Prop := {
  inv_owes : owes (owed s) (sys_calls s);
  inv_closed : if sys_closed s then sys_loop s = LExited ∧ sys_drain s ≠ DNone else sys_loop s ≠ LExited ∧ sys_drain s = DNone;
  inv_report : ∀ i op r, at_call s i op (CReport r) → sys_closed s = true;
}.

Lemma start_inv m : sys_inv (start m).
Proof.
  split; [|by cbn|by intros [] op r].
  split; [constructor|]. intros i. split; [by intros ?%elem_of_nil|by intros [op Hi]; destruct i].
Qed.

Lemma at_set_call s i op st j op' st' : at_call (set_call i op st s) j op' st' →
  (j = i ∧ op' = op ∧ st' = st) ∨ (j ≠ i ∧ at_call s j op' st').
Proof.
  unfold at_call. cbn. intros Hj. destruct (decide (j = i)) as [->|Hne].
  - pose proof (lookup_lt_Some _ _ _ Hj) as Hlt. rewrite length_insert in Hlt.
    rewrite list_lookup_insert_eq in Hj by done. left. by injection Hj.
  - rewrite list_lookup_insert_ne in Hj by done. by right.
Qed.

Lemma at_set_call_ne s i op st j op' st' : j ≠ i → at_call s j op' st' → at_call (set_call i op st s) j op' st'.
Proof. intros Hne Hj. unfold at_call. cbn. by rewrite list_lookup_insert_ne. Qed.

Lemma at_set_call_eq s i op st op' st' : at_call s i op' st' → at_call (set_call i op st s) i op st.
Proof. intros Hj. unfold at_call. cbn. apply list_lookup_insert_eq. by eapply lookup_lt_Some. Qed.

Lemma at_call_inj s i op st op' st' : at_call s i op st → at_call s i op' st' → op = op' ∧ st = st'.
Proof. unfold at_call. intros H1 H2. rewrite H1 in H2. by injection H2. Qed.

Lemma after_Running {A} (o : outcome A * Connection M) k s' : after o k = Running s' →
  ∃ a c, o = (Ok a, c) ∧ k a c = Running s'.
Proof. destruct o as [[a|e| |] c]; try done. by exists a, c. Qed.

(** A sender owes what it sends. *)
Lemma sends_owed s i r s' : sends s i r s' → (∃ op, at_call s i op CWait) →
  owed s ≡ₚ i :: owed s' ∧ sys_calls s' = sys_calls s ∧ sys_closed s' = sys_closed s ∧ sys_loop s' = sys_loop s ∧
  minq (sys_conn s') = minq (sys_conn s) ∧ readState (sys_conn s') = readState (sys_conn s).
Proof.
  intros [rest Hl Hs|Hd|op Hc] [op' Hw]; unfold owed.
  - split_and!; try done. cbn. unfold conn_owed. by rewrite Hs.
  - split_and!; try done. cbn. rewrite Hd. cbn. symmetry. apply Permutation_middle.
  - by destruct (at_call_inj _ _ _ _ _ _ Hc Hw).
Qed.

(** A handler of an operation, and a call of the library. *)
Lemma handle_inv s i op b c : sys_inv s → sys_loop s = LService → at_call s i op CSend → Handle i op (sys_conn s) = (Ok b, c) →
  sys_inv (set_call i op CWait (System c (sys_calls s) (sys_closed s) (if b : bool then LService else LBlocked i) (sys_drain s))).
Proof.
  intros [Ho Hc Hr] Hl Hi Hrun. pose proof (Handle_adds i op (sys_conn s)) as Hadds. rewrite Hrun in Hadds.
  split; [|cbn; rewrite Hl in Hc; destruct (sys_closed s), Hc; [done|]; by destruct b|].
  - assert (owed (set_call i op CWait (System c (sys_calls s) (sys_closed s) (if b then LService else LBlocked i) (sys_drain s))) ≡ₚ i :: owed s) as ->.
    { unfold owed. cbn. rewrite Hadds, Hl. destruct b; cbn; [done|]. rewrite app_nil_r, (assoc_L (++)). symmetry.
      apply Permutation_cons_append. }
    by eapply (owes_more _ _ Ho).
  - intros j op' r [(_ & _ & ?)|[_ Hj]]%at_set_call; [done|by eapply Hr].
Qed.

Lemma library_inv {A} s (f : M → minqRun M A) a c : sys_inv s → callMinq f (sys_conn s) = (Ok a, c) → sys_inv (set_conn c s).
Proof.
  intros [Ho Hc Hr] Hrun. pose proof (keeps_callMinq f (sys_conn s)) as Hk. rewrite Hrun in Hk.
  split; [|done|done]. unfold owed. cbn. by rewrite Hk.
Qed.

Lemma step_inv s s' : sys_inv s → step s (Running s') → sys_inv s'.
Proof.
  intros Hinv Hs. pose proof Hinv as [Ho Hc Hr]. remember (Running s') as w eqn:Hw.
  destruct Hs as [s op|s i op Hi Hcl|s i op Hi Hcl|s i op (Hl & Hq & _) Hi|s p _|s _|s Hl _ _|s i r s1 op Hsend Hi|s i op _ _
    |s x rest Hx|s x rest Hx|s i op Hd Hi|s i Hd Hl].
  - injection Hw as <-. split; [by apply owes_new|done|]. intros i op' r Hi. apply (Hr i op' r). unfold at_call in *. cbn in Hi.
    by apply lookup_app_Some in Hi as [Hi|[_ [_ Hi]%list_lookup_singleton_Some]].
  - injection Hw as <-. split; [by eapply (owes_other _ _ Ho)|done|].
    intros j op' r [(_ & _ & ?)|[_ Hj]]%at_set_call; [done|by eapply Hr].
  - destruct (report _ _ _) as [r|]; [|done]. injection Hw as <-.
    split; [by eapply (owes_other _ _ Ho)|done|]. by intros.
  - apply after_Running in Hw as (b & c & Hrun & [= <-]). by apply handle_inv.
  - apply after_Running in Hw as ([] & c & Hrun & [= <-]). by eapply library_inv.
  - apply after_Running in Hw as ([] & c & Hrun & [= <-]). by eapply library_inv.
  - apply after_Running in Hw as ([] & c & Hrun & [= <-]). pose proof (keeps_cleanup (sys_conn s)) as Hk.
    rewrite Hrun in Hk. rewrite Hl in Hc. split; [|done|done].
    assert (owed s = conn_owed (sys_conn s)) as Heq.
    { unfold owed. rewrite Hl. destruct (sys_closed s), Hc as [Hc Hd]; [done|]. by rewrite Hd, app_nil_r. }
    unfold owed. cbn. by rewrite Hk, !app_nil_r, <- Heq.
  - injection Hw as <-. destruct (sends_owed s i r s1) as (Howed & Hcs & Hcl & Hloop & _); [done|by exists op|].
    rewrite Howed in Ho. split.
    + cbn. rewrite Hcs. by eapply owes_less.
    + cbn. rewrite Hcl, Hloop. destruct (sys_closed s), Hc as [Hc Hd]; (split; [done|]);
      destruct Hsend; done || congruence.
    + intros j op' r' [(_ & _ & ?)|[_ Hj]]%at_set_call; [done|]. cbn. rewrite Hcl. unfold at_call in Hj. rewrite Hcs in Hj. by eapply Hr.
  - done.
  - by injection Hw as <-.
  - by injection Hw as <-.
  - destruct (report _ _ _) as [r|]; [|done]. injection Hw as <-. split.
    + assert (owed (set_call i op CWait (set_drain (DSending i r) s)) ≡ₚ i :: owed s) as ->.
      { unfold owed. cbn. rewrite Hd. symmetry. apply Permutation_middle. }
      by eapply (owes_more _ _ Ho).
    + cbn. destruct (sys_closed s), Hc; [done|congruence].
    + intros j op' r' [(_ & _ & ?)|[_ Hj]]%at_set_call; [done|by eapply Hr].
  - done.
Qed.

Lemma steps_inv s s' : sys_inv s → steps s s' → sys_inv s'.
Proof. intros Hi. induction 1; [done|]. by eapply step_inv; [apply IHsteps|]. Qed.

Lemma sys_reachable_inv s : reachable s → sys_inv s.
Proof. intros [m Hm]. eapply steps_inv; [apply start_inv|done]. Qed.

(** ** What completes *)

Lemma steps_trans s1 s2 s3 : steps s1 s2 → steps s2 s3 → steps s1 s3.
Proof. intros H12 H23. revert H12. induction H23; intros H12; [done|]. eapply steps_step; [by apply IHsteps|done]. Qed.

Lemma steps_one s s' : step s (Running s') → steps s s'.
Proof. intros Hs. eapply steps_step; [apply steps_refl|done]. Qed.

Lemma reachable_steps s s' : reachable s → steps s s' → reachable s'.
Proof. intros [m Hm] Hs. exists m. by eapply steps_trans. Qed.

(** The first of the results the loop sends finds its receiver. *)
Lemma deliver_one s i r rest : sys_inv s → sys_loop s = LService → sending (sys_conn s) = (i, r) :: rest →
  ∃ op, at_call s i op CWait ∧
    steps s (set_call i op (CReturned r) (set_conn (set_sending rest (sys_conn s)) s)).
Proof.
  intros Hi Hl Hq. assert (i ∈ owed s) as [op Hop]%(inv_owes s Hi).
  { unfold owed, conn_owed. rewrite Hq. by left. }
  exists op. split; [done|]. by apply steps_one, (step_result s i r _ op); [apply sends_loop|].
Qed.

(** The loop gets rid of the results it sends: every one reaches its call, and
    nothing else changes. *)
Lemma deliver_all s : sys_inv s → sys_loop s = LService →
  ∃ cs, steps s (set_conn (set_sending [] (sys_conn s)) (set_calls cs s)) ∧
    (∀ i r, (i, r) ∈ sending (sys_conn s) → ∃ op, at_call s i op CWait ∧ cs !! i = Some (MkCall op (CReturned r))) ∧
    (∀ i c, sys_calls s !! i = Some c → i ∉ (sending (sys_conn s)).*1 → cs !! i = Some c).
Proof.
  destruct (sending (sys_conn s)) as [|x q] eqn:Hq; [|revert s x Hq; induction q as [|y q IH]; intros s [i r] Hq Hi Hl].
  - intros _ _. exists (sys_calls s). split_and!; [|by intros i r ?%elem_of_nil|done].
    destruct s as [c cs cl l d], c. cbn in *. subst. apply steps_refl.
  - destruct (deliver_one s i r [] Hi Hl Hq) as (op & Hop & Hs). eexists. split; [exact Hs|]. split.
    + intros j r' Hj%list_elem_of_singleton. injection Hj as -> ->. exists op. split; [done|].
      apply list_lookup_insert_eq. by eapply lookup_lt_Some.
    + intros j c Hc Hj. rewrite list_lookup_insert_ne; [done|]. intros ->. apply Hj. by left.
  - destruct (deliver_one s i r (y :: q) Hi Hl Hq) as (op & Hop & Hs).
    set (s1 := set_call i op _ _) in Hs. assert (sys_inv s1) as Hi1 by by eapply steps_inv.
    destruct (IH s1 y eq_refl Hi1 Hl) as (cs & Hs1 & Hdone & Hkeep). exists cs. split; [by eapply steps_trans|].
    assert (i ∉ (y :: q).*1) as Hiq.
    { pose proof (proj1 (inv_owes s Hi)) as Hn. unfold owed, conn_owed in Hn. rewrite Hq in Hn.
      apply NoDup_app in Hn as [Hn _]. apply NoDup_app in Hn as [Hn _]. by apply NoDup_cons in Hn as [Hn _]. }
    split.
    + intros j r' Hj. apply elem_of_cons in Hj as [[= -> ->]|Hj].
      * exists op. split; [done|]. apply Hkeep; [|exact Hiq]. apply list_lookup_insert_eq. by eapply lookup_lt_Some.
      * destruct (Hdone j r' Hj) as (op' & Hat & Hcs). exists op'. split; [|done].
        apply at_set_call in Hat as [(-> & _ & ?)|[_ Hat]]; done.
    + intros j c Hc Hj. apply not_elem_of_cons in Hj as [Hne Hj]. apply Hkeep; [|done]. cbn.
      by rewrite list_lookup_insert_ne.
Qed.

(** What an operation leaves: its result is sent, or its read waits for the stream. *)
Definition answers (i : nat) (op : connectionOperation) (c : Connection M) : Prop :=
  (∃ r, (i, r) ∈ sending c) ∨ ∃ st n, op = readRequest st n ∧ readState c !! st = Some (i, n).

Lemma emit_last {A} (m : go (Connection M) A) i (r : A → opResult) c c' :
  (a ← m; emit i (r a);; mret true) c = (Ok true, c') → ∃ r, (i, r) ∈ sending c'.
Proof.
  intros (a & c1 & _ & Hr)%bind_Ok_inv. injection Hr as <-. exists (r a). cbn. apply elem_of_app. right. by left.
Qed.

Lemma Handle_answers i op c c' : Handle i op c = (Ok true, c') → answers i op c'.
Proof.
  assert (∀ f, (reportCall i f;; mret true) c = (Ok true, c') → answers i op c') as Hrep.
  { intros f Hr. left. unfold reportCall in Hr. rewrite bind_assoc in Hr. by eapply emit_last. }
  assert ((c0 ← getS; match report op ErrUnknownOperation (minq c0) with
    | Some r => emit i r;; mret true | None => mret false end) c = (Ok true, c') → answers i op c') as Hdef.
  { intros (c0 & c1 & _ & Hr)%bind_Ok_inv. left. destruct (report _ _ _) as [r|]; [|done].
    apply (emit_last (mret tt) i (λ _, r) c1). by rewrite bind_unfold. }
  destruct op; try exact Hdef; try apply Hrep; cbn [Handle]; clear Hrep Hdef.
  - intros Hr. left. by eapply (emit_last _ i (λ x, RStream (Some x))).
  - intros Hr. left. by eapply (emit_last _ i (λ x, RStream (Some x))).
  - intros ([n e] & c1 & _ & Hr)%bind_Ok_inv. left. apply (emit_last (mret tt) i (λ _, RWrite n e) c1). by rewrite bind_unfold.
  - intros ([] & c1 & Hr & [= ->])%bind_Ok_inv. unfold handleReadRequest in Hr.
    apply bind_Ok_inv in Hr as (c2 & c3 & [= <- <-] & Hr). destruct (readState c !! s); [done|].
    apply bind_Ok_inv in Hr as (ok & c4 & Hread & Hr). destruct ok; injection Hr as <-.
    + left. unfold read in Hread. apply bind_Ok_inv in Hread as (c5 & c6 & [= <- <-] & Hread).
      destruct (minq_Read s n (minq c)) as [[bs err] m]. apply bind_Ok_inv in Hread as ([] & c7 & _ & Hread).
      destruct (decide _); [done|]. apply (emit_last (mret tt) i (λ _, RRead bs err) c7). by rewrite bind_unfold.
    + right. exists s, n. split; [done|]. cbn. by rewrite lookup_insert_eq.
  - intros ([] & c1 & _ & Hr)%bind_Ok_inv. left. unfold reportCall in Hr. rewrite bind_assoc in Hr. by eapply emit_last.
Qed.

(** A goroutine that owes a call its result and sends it. *)
Lemma send_result s i r s' : sys_inv s → sends s i r s' → i ∈ owed s →
  ∃ op, at_call s i op CWait ∧ steps s (set_call i op (CReturned r) s').
Proof.
  intros Hi Hs [op Hop]%(inv_owes s Hi). exists op. split; [done|]. by apply steps_one, (step_result s i r s' op).
Qed.

(** The drain is ready for the next operation. *)
Lemma drain_ready s i op : sys_inv s → sys_loop s = LExited → at_call s i op CSend →
  ∃ s', steps s s' ∧ sys_drain s' = DReady ∧ at_call s' i op CSend ∧ sys_conn s' = sys_conn s.
Proof.
  intros Hi Hl Hc. pose proof (inv_closed s Hi) as Hcl.
  destruct (sys_drain s) as [| |j r] eqn:Hd.
  - destruct (sys_closed s), Hcl; congruence.
  - exists s. split_and!; [apply steps_refl|done..].
  - destruct (send_result s j r (set_drain DReady s) Hi) as (op' & Hj & Hs); [by apply sends_drain| |].
    { unfold owed. rewrite Hd. apply elem_of_app. right. by left. }
    exists (set_call j op' (CReturned r) (set_drain DReady s)). split_and!; [done|done| |done].
    apply at_set_call_ne; [|done]. intros <-. by destruct (at_call_inj _ _ _ _ _ _ Hc Hj).
Qed.

(** ** What never does *)

Lemma at_insert s s1 i op st j op' st' : sys_calls s1 = <[i := MkCall op st]> (sys_calls s) →
  at_call s1 j op' st' → (j = i ∧ op' = op ∧ st' = st) ∨ (j ≠ i ∧ at_call s j op' st').
Proof. intros Hcs Hj. apply at_set_call. unfold at_call in *. by rewrite Hcs in Hj. Qed.

Lemma at_insert_keeps s s1 i op st st0 j op' st' : sys_calls s1 = <[i := MkCall op st]> (sys_calls s) →
  at_call s i op st0 → at_call s j op' st' → at_call s1 j op' st' ∨ (st' = st0 ∧ j = i ∧ op' = op ∧ at_call s1 i op st).
Proof.
  intros Hcs Hi Hj. unfold at_call in *. rewrite Hcs. destruct (decide (j = i)) as [->|Hne].
  - rewrite Hi in Hj. injection Hj as <- <-. right. split_and!; [done..|]. apply list_lookup_insert_eq. by eapply lookup_lt_Some.
  - left. by rewrite list_lookup_insert_ne.
Qed.

(** What a step changes: the loop and its reads only while it serves; and a call
    that waits only by the result of a sender. *)
Record step_effect s s' : Prop := {
  se_loop : sys_loop s = LService ∨ sys_loop s' = sys_loop s ∧ readState (sys_conn s') = readState (sys_conn s);
  se_closed : sys_closed s = true → sys_closed s' = true;
  se_call i op st : at_call s i op st → at_call s' i op st ∨
    (st = CAdd ∧ (sys_closed s = true → ∃ r, at_call s' i op (CReport r))) ∨ st = CSend ∨
    st = CWait ∧ ∃ r s1, sends s i r s1 ∧ at_call s' i op (CReturned r);
  se_returned i op r : at_call s' i op (CReturned r) → at_call s i op (CReturned r) ∨
    at_call s i op CWait ∧ ∃ s1, sends s i r s1;
}.

Lemma step_effect_insert s s' i op st0 st : at_call s i op st0 → sys_calls s' = <[i := MkCall op st]> (sys_calls s) →
  st0 = CAdd ∧ (sys_closed s = true → ∃ r, st = CReport r) ∨ st0 = CSend → (∀ r, st ≠ CReturned r) →
  (sys_closed s = true → sys_closed s' = true) →
  sys_loop s = LService ∨ sys_loop s' = sys_loop s ∧ readState (sys_conn s') = readState (sys_conn s) → step_effect s s'.
Proof.
  intros Hi Hcs Hst0 Hst Hcl Hl. split; [done..| |].
  - intros j op' st' Hj. destruct (at_insert_keeps s s' i op st st0 j op' st' Hcs Hi Hj) as [?|(-> & -> & -> & Hat)]; [by left|].
    right. destruct Hst0 as [[-> Hr]| ->]; [left|by right; left]. split; [done|]. intros [r ->]%Hr. by exists r.
  - intros j op' r [(_ & _ & Heq)|[_ Hj]]%(at_insert s s' i op st j op' _ Hcs); [|by left]. by destruct (Hst r).
Qed.

Lemma step_effect_conn s c : sys_loop s = LService ∨ readState c = readState (sys_conn s) → step_effect s (set_conn c s).
Proof. intros Hl. split; [by destruct Hl; [left|right]|done|by left|by left]. Qed.

Lemma step_has_effect s s' : sys_inv s → step s (Running s') → step_effect s s'.
Proof.
  intros Hinv Hs. remember (Running s') as w eqn:Hw.
  destruct Hs as [s op|s i op Hi Hcl|s i op Hi Hcl|s i op (Hl & Hq & _) Hi|s p (Hl & _)|s (Hl & _)|s Hl _ _|s i r s1 op Hsend Hi|s i op _ _
    |s x rest Hx|s x rest Hx|s i op Hd Hi|s i Hd Hl].
  - injection Hw as <-. split; [by right|done|..]; unfold at_call; cbn.
    + intros i op' st Hi. left. by apply lookup_app_l_Some.
    + intros i op' r Hi. apply lookup_app_Some in Hi as [Hi|[_ [_ ?]%list_lookup_singleton_Some]]; [by left|done].
  - injection Hw as <-. eapply (step_effect_insert s _ i op CAdd CSend); [done|done| |done|done|by right]. left. split; [done|congruence].
  - destruct (report _ _ _) as [r|]; [|done]. injection Hw as <-.
    eapply (step_effect_insert s _ i op CAdd (CReport r)); [done|done| |done|done|by right]. left. split; [done|]. by exists r.
  - apply after_Running in Hw as (b & c & Hrun & [= <-]). eapply (step_effect_insert s _ i op CSend CWait); [done|done|by right|done|done|by left].
  - apply after_Running in Hw as ([] & c & Hrun & [= <-]). apply step_effect_conn. by left.
  - apply after_Running in Hw as ([] & c & Hrun & [= <-]). apply step_effect_conn. by left.
  - apply after_Running in Hw as ([] & c & Hrun & [= <-]). split; [by left|done|by left|by left].
  - injection Hw as <-. destruct (sends_owed s i r s1) as (_ & Hcs & Hcl & Hloop & _ & Hrs); [done|by exists op|].
    assert (sys_calls (set_call i op (CReturned r) s1) = <[i := MkCall op (CReturned r)]> (sys_calls s)) as Hcs' by (cbn; by rewrite Hcs).
    split; [by right|cbn; by rewrite Hcl|..].
    + intros j op' st' Hj. destruct (at_insert_keeps _ _ _ _ _ _ j op' st' Hcs' Hi Hj) as [?|(-> & -> & -> & Hat)]; [by left|].
      do 3 right. split; [done|]. by exists r, s1.
    + intros j op' r' [(-> & -> & [= ->])|[_ Hj]]%(at_insert s _ i op _ j op' _ Hcs'); [|by left]. right. split; [done|]. by exists s1.
  - done.
  - injection Hw as <-. apply step_effect_conn. by right.
  - injection Hw as <-. apply step_effect_conn. by right.
  - destruct (report _ _ _) as [r|]; [|done]. injection Hw as <-. eapply (step_effect_insert s _ i op CSend CWait); [done|done|by right|done|done|by right].
  - done.
Qed.

(** While the loop is in [Add], nobody sends a result. *)
Lemma blocked_no_sends s b i r s1 : sys_inv s → sys_loop s = LBlocked b → ¬ sends s i r s1.
Proof.
  intros Hi Hl Hs. pose proof (inv_closed s Hi) as Hc. destruct Hs as [rest Hl'|Hd|op Hop]; [congruence|..].
  - destruct (sys_closed s), Hc; congruence.
  - pose proof (inv_report s Hi _ _ _ Hop) as Hcl. rewrite Hcl in Hc. destruct Hc. congruence.
Qed.

Lemma blocked_forever s b s' : sys_inv s → sys_loop s = LBlocked b → steps s s' →
  sys_loop s' = LBlocked b ∧ ∀ i op r, at_call s' i op (CReturned r) → at_call s i op (CReturned r).
Proof.
  intros Hi Hl Hs. induction Hs as [|s1 s2 s3 H12 IH Hstep]; [done|]. destruct (IH Hi Hl) as [Hl2 Hret].
  assert (sys_inv s2) as Hi2 by by eapply steps_inv. destruct (step_has_effect s2 s3 Hi2 Hstep) as [Hloop _ _ Hback]. split.
  - destruct Hloop as [?|[-> _]]; congruence.
  - intros i op r [Hr|(_ & s' & Hs')]%Hback; [by apply Hret|]. by destruct (blocked_no_sends s2 b i r s').
Qed.

(** A call that reports to itself. *)
Lemma report_forever s i op r s' : sys_inv s → at_call s i op (CReport r) → steps s s' → at_call s' i op (CReport r).
Proof.
  intros Hi Hr Hs. induction Hs as [|s1 s2 s3 H12 IH Hstep]; [done|].
  assert (sys_inv s2) as Hi2 by by eapply steps_inv. destruct (step_has_effect s2 s3 Hi2 Hstep) as [_ _ Hcall _].
  by destruct (Hcall i op _ (IH Hi Hr)) as [?|[[? _]|[?|[? _]]]].
Qed.

(** A result is final. *)
Lemma returned_forever s i op r s' : sys_inv s → at_call s i op (CReturned r) → steps s s' → at_call s' i op (CReturned r).
Proof.
  intros Hi Hr Hs. induction Hs as [|s1 s2 s3 H12 IH Hstep]; [done|].
  assert (sys_inv s2) as Hi2 by by eapply steps_inv. destruct (step_has_effect s2 s3 Hi2 Hstep) as [_ _ Hcall _].
  by destruct (Hcall i op _ (IH Hi Hr)) as [?|[[? _]|[?|[? _]]]].
Qed.

(** A call that begins when the operations are closed. *)
Lemma late_forever s i op s' : sys_inv s → sys_closed s = true → at_call s i op CAdd → steps s s' →
  sys_closed s' = true ∧ (at_call s' i op CAdd ∨ ∃ r, at_call s' i op (CReport r)).
Proof.
  intros Hi Hcl Hop Hs. induction Hs as [|s1 s2 s3 H12 IH Hstep]; [by split; [|left]|].
  assert (sys_inv s2) as Hi2 by by eapply steps_inv. destruct (IH Hi Hcl Hop) as [Hcl2 [Hop2|[r Hop2]]];
    destruct (step_has_effect s2 s3 Hi2 Hstep) as [_ Hcl3 Hcall _]; (split; [by apply Hcl3|]).
  - destruct (Hcall i op _ Hop2) as [?|[[_ Hr]|[?|[? _]]]]; [by left|right; by apply Hr|done..].
  - destruct (Hcall i op _ Hop2) as [?|[[? _]|[?|[? _]]]]; [right; by exists r|done..].
Qed.

(** A read that waits for its stream when the loop ends. *)
Lemma pending_forever s i st n s' : sys_inv s → sys_loop s = LExited → readState (sys_conn s) !! st = Some (i, n) →
  steps s s' → waiting (sys_calls s') i ∧ sys_loop s' = LExited ∧ readState (sys_conn s') = readState (sys_conn s).
Proof.
  intros Hi Hl Hr Hs. induction Hs as [|s1 s2 s3 H12 IH Hstep].
  - split_and!; [|done..]. apply (inv_owes s Hi). unfold owed, conn_owed. rewrite (readers_delete _ _ _ _ Hr).
    apply elem_of_app. left. apply elem_of_app. right. by left.
  - destruct (IH Hi Hl Hr) as ([op Hop] & Hl2 & Hr2). assert (sys_inv s2) as Hi2 by by eapply steps_inv.
    destruct (step_has_effect s2 s3 Hi2 Hstep) as [Hloop _ Hcall _].
    assert (sys_loop s3 = LExited ∧ readState (sys_conn s3) = readState (sys_conn s1)) as [Hl3 Hr3].
    { destruct Hloop as [?|[-> ->]]; [congruence|done]. }
    split_and!; [|done..].
    destruct (Hcall i op _ Hop) as [Hop'|[[? _]|[?|[_ (r & s0 & Hs0 & _)]]]]; [by exists op|done|done|].
    exfalso. destruct Hs0 as [rest Hl'|Hd|op' Hrep]; [congruence| |by destruct (at_call_inj _ _ _ _ _ _ Hop Hrep)].
    pose proof (proj1 (inv_owes s2 Hi2)) as Hn. unfold owed, conn_owed in Hn. rewrite Hd, Hr2, (readers_delete _ _ _ _ Hr) in Hn.
    apply NoDup_app in Hn as (_ & Hn & _). apply (Hn i); [|by left]. apply elem_of_app. right. by left.
Qed.
End system.

(** ** Schedules are steps *)

Section schedules.
Context {M : Type} `{Minq M}.
Implicit Types (s : system M).

Lemma is_selecting_true s : is_selecting s = true → selecting s.
Proof.
  unfold is_selecting, selecting. destruct (sys_loop s); [|done..]. destruct (sending (sys_conn s)); [|done].
  by destruct (loopEnds _).
Qed.

Lemma sender_of_sends s i r s' : sender_of s i = Some (r, s') → sends s i r s'.
Proof.
  unfold sender_of. destruct (sys_loop s) eqn:Hl, (sending (sys_conn s)) as [|[j r'] rest] eqn:Hq, (sys_drain s) eqn:Hd;
    try done; destruct (decide _) as [->|]; try done; intros [= <- <-]; by constructor.
Qed.

Lemma perform_step a s w : perform a s = Some w → step s w.
Proof.
  destruct a as [op|i|i|p| |i|i|i]; cbn [perform].
  - intros [= <-]. constructor.
  - destruct (sys_calls s !! i) as [[op []]|] eqn:Hi; try done. intros [= <-].
    destruct (sys_closed s) eqn:Hc; [by apply step_add_closed|by constructor].
  - destruct (sys_calls s !! i) as [[op []]|] eqn:Hi; try done.
    destruct (is_selecting s) eqn:Hs; [|done]. intros [= <-]. by apply step_handle; [apply is_selecting_true|].
  - destruct (is_selecting s) eqn:Hs; [|done]. intros [= <-]. by apply step_input, is_selecting_true.
  - destruct (sys_loop s) eqn:Hl, (sending (sys_conn s)) eqn:Hq, (loopEnds (minq (sys_conn s))) eqn:He; try done. intros [= <-]. by apply step_exit.
  - destruct (sys_calls s !! i) as [[op []]|] eqn:Hi; try done. destruct (sender_of s i) as [[r s']|] eqn:Hs; [|done].
    intros [= <-]. by apply (step_result s i r s' op); [apply sender_of_sends|].
  - destruct (sys_calls s !! i) as [[op []]|] eqn:Hi; try done. destruct (decide _); [|done]. intros [= <-]. by eapply step_nil.
  - destruct (sys_drain s) eqn:Hd; try done. destruct (sys_calls s !! i) as [[op []]|] eqn:Hi; try done.
    intros [= <-]. by apply step_drain.
Qed.

Lemma perform_all_steps l s s' : perform_all l s = Some (Running s') → steps s s'.
Proof.
  revert s. induction l as [|a l IH]; intros s; cbn [perform_all].
  - intros [= ->]. apply steps_refl.
  - destruct (perform a s) as [[s1|]|] eqn:Ha; [|by destruct l|done]. intros Hl.
    eapply steps_trans; [by apply steps_one, (perform_step a)|by apply IH].
Qed.

(** A schedule that ends the process. *)
Lemma perform_all_crash l s : perform_all l s = Some Crashed → ∃ s', steps s s' ∧ step s' Crashed.
Proof.
  revert s. induction l as [|a l IH]; intros s; cbn [perform_all]; [done|].
  destruct (perform a s) as [[s1|]|] eqn:Ha; [|by exists s; split; [apply steps_refl|apply (perform_step a)]|done].
  intros (s' & Hs & Hc)%IH. exists s'. split; [|done]. eapply steps_trans; [by apply steps_one, (perform_step a)|done].
Qed.

Lemma perform_reachable l m s : perform_all l (start m) = Some (Running s) → reachable s.
Proof. intros Hl. exists m. by eapply perform_all_steps. Qed.
End schedules.

(** ** A sample library

    One sequence of bytes that every stream reads from; a packet is data for the
    stream 4, and an empty one opens the stream 1 of the peer. *)
Record sampleMinq := SampleMinq {
  sm_state : State;
  sm_data : list Z;
}.

#[export] Instance sampleMinq_minq : Minq sampleMinq := {
  minq_GetState := sm_state;
  minq_Read s n m :=
    match sm_data m with
    | [] => (([], Some ErrWouldBlock), m)
    | bs => ((ztake n bs, None), SampleMinq (sm_state m) (zdrop n bs))
    end;
  minq_Write s p m := MRet (zlen p, None) m;
  minq_Reset s code m := MRet None m;
  minq_CloseStream s m := MRet None m;
  minq_StopSending s code m := MRet None m;
  minq_CreateStream m := MRet 4 m;
  minq_CreateSendStream m := MRet 2 m;
  minq_Close m := MCall (UStateChanged StateClosed) (SampleMinq StateClosed (sm_data m)) (MRet None);
  minq_Error code text m := MCall (UStateChanged StateClosed) (SampleMinq StateClosed (sm_data m)) (MRet None);
  minq_Input p m :=
    match p with
    | [] => MCall (UNewStream 1) m (MRet tt)
    | _ => MCall (UStreamReadable 4) (SampleMinq (sm_state m) (sm_data m ++ p)) (MRet tt)
    end;
  minq_CheckTimer m := MRet tt m;
}.

Definition sampleStart : sampleMinq := SampleMinq StateEstablished [].
