(* ===== verification/ServerLoop.v ===== *)
(** * The event loop of a server (mw/server.go)

    One goroutine serves all connections of a server: it owns the QUIC library's server
    and every connection of it, and takes the operations of all of them from one
    channel. The handlers of operations and upcalls are those of [EventLoop]; the
    library's routing of packets is a class. *)

From S2P Require Import Prelude EventLoop.

(** ** The library's server *)

(** A call of the server returns, calls [NewConnection] of its handler, or lets one of
    its connections run; connections are numbered as they are made. *)
Inductive serverRun (S M : Type) :=
| SRet (s : S)
| SNewConnection (roleServer : bool) (m : M) (next : serverRun S M)
| SConnection (k : nat) (f : M → minqRun M unit) (next : M → serverRun S M).
Arguments SRet {S M}.
Arguments SNewConnection {S M}.
Arguments SConnection {S M}.

Class MinqServer (S M : Type) := {
  srv_Input : Z → list Z → S → serverRun S M;    (* source address, data *)
  srv_CheckTimer : S → serverRun S M;
}.

(** ** What the loop owns *)

(** [offers] are the goroutines that [NewConnection] starts, which wait for their
    connection to be up and then for a receiver; [accepted] is what came out of the
    channel. The results that the loop has to send are in one queue. *)
Record Server (S M : Type) := MkServer {
  sv_s : S;
  sv_conns : list (Connection M);
  sv_offers : list nat;
  sv_accepted : list nat;
  sv_sending : list (nat * opResult);
}.
Arguments MkServer {S M}.
Arguments sv_s {S M}.
Arguments sv_conns {S M}.
Arguments sv_offers {S M}.
Arguments sv_accepted {S M}.
Arguments sv_sending {S M}.

Section server.
Context {S M : Type} `{Minq M} `{MinqServer S M}.
Implicit Types (v : Server S M).

Definition set_server (s : S) v : Server S M := MkServer s (sv_conns v) (sv_offers v) (sv_accepted v) (sv_sending v).
Definition set_results (q : list (nat * opResult)) v : Server S M :=
  MkServer (sv_s v) (sv_conns v) (sv_offers v) (sv_accepted v) q.

(** The connection [k] after a handler; what it sends goes to the queue. *)
Definition collect (k : nat) (c : Connection M) v : Server S M :=
  MkServer (sv_s v) (<[k := set_sending [] c]> (sv_conns v)) (sv_offers v) (sv_accepted v) (sv_sending v ++ sending c).

(** A handler of the connection [k]; the library only runs those it has. *)
Definition on_conn {A} (k : nat) (m : go (Connection M) A) : go (Server S M) A := λ v,
  match sv_conns v !! k with
  | Some c => let '(o, c') := m c in (o, collect k c' v)
  | None => (Panic, v)
  end.

(** [newServerConnection], and the goroutine of [NewConnection]. *)
Definition NewConnection (roleServer : bool) (m : M) : go (Server S M) unit :=
  if roleServer then
    modS (λ v, MkServer (sv_s v) (sv_conns v ++ [newConnection m]) (sv_offers v ++ [length (sv_conns v)]) (sv_accepted v)
      (sv_sending v))
  else panic.

(** A call of the library's server. *)
Fixpoint execServer (run : serverRun S M) : go (Server S M) unit :=
  match run with
  | SRet s => modS (set_server s)
  | SNewConnection role m next => NewConnection role m;; execServer next
  | SConnection k f next => m ← on_conn k (callMinq f;; c ← getS; mret (minq c)); execServer (next m)
  end.

Definition callServer (f : S → serverRun S M) : go (Server S M) unit :=
  v ← getS;
  execServer (f (sv_s v)).

(** [RunServer] on a server with no connections. *)
Definition RunServer (s : S) : Server S M := MkServer s [] [] [] [].
End server.

(** ** The loop, the calls and the drain *)

(** [Close] of the server: in its send to [shutdown], or back. *)
Inductive closeState := ClSend | ClReturned.

(** [ss_of] has the connection of each call. *)
Record serverSystem (S M : Type) := ServerSystem {
  ss_server : Server S M;
  ss_calls : list call;
  ss_of : list nat;
  ss_closers : list closeState;
  ss_closed : bool;           (* [ops.closed] *)
  ss_loop : loopState;
  ss_drain : drainState;
}.
Arguments ServerSystem {S M}.
Arguments ss_server {S M}.
Arguments ss_calls {S M}.
Arguments ss_of {S M}.
Arguments ss_closers {S M}.
Arguments ss_closed {S M}.
Arguments ss_loop {S M}.
Arguments ss_drain {S M}.

Section system.
Context {S M : Type} `{Minq M} `{MinqServer S M}.
Implicit Types (s : serverSystem S M).

Definition startServer (x : S) : serverSystem S M := ServerSystem (RunServer x) [] [] [] false LService DNone.

Definition ss_set_server (v : Server S M) s : serverSystem S M :=
  ServerSystem v (ss_calls s) (ss_of s) (ss_closers s) (ss_closed s) (ss_loop s) (ss_drain s).
Definition ss_set_drain (d : drainState) s : serverSystem S M :=
  ServerSystem (ss_server s) (ss_calls s) (ss_of s) (ss_closers s) (ss_closed s) (ss_loop s) d.
Definition ss_set_loop (l : loopState) s : serverSystem S M :=
  ServerSystem (ss_server s) (ss_calls s) (ss_of s) (ss_closers s) (ss_closed s) l (ss_drain s).
Definition ss_set_closers (cl : list closeState) s : serverSystem S M :=
  ServerSystem (ss_server s) (ss_calls s) (ss_of s) cl (ss_closed s) (ss_loop s) (ss_drain s).
Definition ss_set_call (i : nat) (op : connectionOperation) (st : callState) s : serverSystem S M :=
  ServerSystem (ss_server s) (<[i := MkCall op st]> (ss_calls s)) (ss_of s) (ss_closers s) (ss_closed s) (ss_loop s) (ss_drain s).

Definition call_at s (i : nat) (op : connectionOperation) (st : callState) : Prop := ss_calls s !! i = Some (MkCall op st).

(** The connection that the call [i] is made on. *)
Definition call_conn s (i k : nat) (c : Connection M) : Prop := ss_of s !! i = Some k ∧ sv_conns (ss_server s) !! k = Some c.

(** The loop is in its [select]; it does not look at the state of a connection. *)
Definition ss_selecting s : Prop := ss_loop s = LService ∧ sv_sending (ss_server s) = [].

(** Who can send [r] to the channel of the call [i], and what is left then. *)
Inductive ss_sends s (i : nat) (r : opResult) : serverSystem S M → Prop :=
| ss_sends_loop rest : ss_loop s = LService → sv_sending (ss_server s) = (i, r) :: rest →
    ss_sends s i r (ss_set_server (set_results rest (ss_server s)) s)
| ss_sends_drain : ss_drain s = DSending i r → ss_sends s i r (ss_set_drain DReady s)
| ss_sends_call op : call_at s i op (CReport r) → ss_sends s i r (ss_set_call i op CWait s).

(** How the loop goes on after a handler; [None] when the process ends. *)
Definition ss_after {A} (o : outcome A * Server S M) (k : A → Server S M → serverSystem S M) : option (serverSystem S M) :=
  match o with
  | (Ok a, v) => Some (k a v)
  | _ => None
  end.

Inductive server_step : serverSystem S M → option (serverSystem S M) → Prop :=
| ss_call s k op : k ∈ sv_accepted (ss_server s) →
    server_step s (Some (ServerSystem (ss_server s) (ss_calls s ++ [MkCall op CAdd]) (ss_of s ++ [k]) (ss_closers s)
      (ss_closed s) (ss_loop s) (ss_drain s)))
| ss_add s i op : call_at s i op CAdd → ss_closed s = false → server_step s (Some (ss_set_call i op CSend s))
| ss_add_closed s i op k c : call_at s i op CAdd → ss_closed s = true → call_conn s i k c →
    server_step s match report op ErrConnectionClosed (minq c) with
                  | Some r => Some (ss_set_call i op (CReport r) s)
                  | None => None
                  end
| ss_handle s i op k c : ss_selecting s → call_at s i op CSend → call_conn s i k c →
    server_step s (ss_after (on_conn k (Handle i op) (ss_server s)) (λ b v,
      ss_set_call i op CWait (ss_set_loop (if b : bool then LService else LBlocked i) (ss_set_server v s))))
| ss_input s addr p : ss_selecting s →
    server_step s (ss_after (callServer (srv_Input addr p) (ss_server s)) (λ _ v, ss_set_server v s))
| ss_timer s : ss_selecting s →
    server_step s (ss_after (callServer srv_CheckTimer (ss_server s)) (λ _ v, ss_set_server v s))
| ss_close s : server_step s (Some (ss_set_closers (ss_closers s ++ [ClSend]) s))
| ss_shutdown s j : ss_selecting s → ss_closers s !! j = Some ClSend →
    server_step s (Some (ServerSystem (ss_server s) (ss_calls s) (ss_of s) (<[j := ClReturned]> (ss_closers s)) true
      LExited DReady))
| ss_result s i r s' op : ss_sends s i r s' → call_at s i op CWait → server_step s (Some (ss_set_call i op (CReturned r) s'))
| ss_nil s i op k c : call_conn s i k c → i ∈ nils c → call_at s i op CWait → server_step s None
| ss_accept s before k after c : sv_offers (ss_server s) = before ++ k :: after →
    sv_conns (ss_server s) !! k = Some c → connectedClosed c = true →
    server_step s (Some (ss_set_server (MkServer (sv_s (ss_server s)) (sv_conns (ss_server s)) (before ++ after)
      (sv_accepted (ss_server s) ++ [k]) (sv_sending (ss_server s))) s))
| ss_accept_stream s k c x rest : sv_conns (ss_server s) !! k = Some c → remoteStreams c = x :: rest →
    server_step s (Some (ss_set_server (collect k (set_remote rest (remoteRecvStreams c) c) (ss_server s)) s))
| ss_accept_recv s k c x rest : sv_conns (ss_server s) !! k = Some c → remoteRecvStreams c = x :: rest →
    server_step s (Some (ss_set_server (collect k (set_remote (remoteStreams c) rest c) (ss_server s)) s))
| ss_drain_op s i op k c : ss_drain s = DReady → call_at s i op CSend → call_conn s i k c →
    server_step s match report op ErrConnectionClosed (minq c) with
                  | Some r => Some (ss_set_call i op CWait (ss_set_drain (DSending i r) s))
                  | None => None
                  end.

Inductive server_steps : serverSystem S M → serverSystem S M → Prop :=
| ss_refl s : server_steps s s
| ss_step s1 s2 s3 : server_steps s1 s2 → server_step s2 (Some s3) → server_steps s1 s3.

Definition server_reachable s : Prop := ∃ x, server_steps (startServer x) s.

(** *** Schedules

    A step by its name: [None] when it is not possible, and then [None] when the
    process ends. *)
Inductive serverAction :=
| SACall (k : nat) (op : connectionOperation)
| SAAdd (i : nat)
| SAHandle (i : nat)
| SAInput (addr : Z) (p : list Z)
| SAClose
| SAShutdown (j : nat)
| SAAccept.
#[global] Arguments SACall k%_nat_scope op.
#[global] Arguments SAAdd i%_nat_scope.
#[global] Arguments SAHandle i%_nat_scope.
#[global] Arguments SAShutdown j%_nat_scope.

Definition ss_is_selecting s : bool :=
  match ss_loop s, sv_sending (ss_server s) with LService, [] => true | _, _ => false end.

Definition server_perform (a : serverAction) s : option (option (serverSystem S M)) :=
  match a with
  | SACall k op =>
      if decide (k ∈ sv_accepted (ss_server s)) then
        Some (Some (ServerSystem (ss_server s) (ss_calls s ++ [MkCall op CAdd]) (ss_of s ++ [k]) (ss_closers s)
          (ss_closed s) (ss_loop s) (ss_drain s)))
      else None
  | SAAdd i =>
      match ss_calls s !! i, ss_closed s with
      | Some (MkCall op CAdd), false => Some (Some (ss_set_call i op CSend s))
      | _, _ => None
      end
  | SAHandle i =>
      match ss_calls s !! i, ss_of s !! i with
      | Some (MkCall op CSend), Some k =>
          match sv_conns (ss_server s) !! k with
          | Some _ =>
              if ss_is_selecting s then
                Some (ss_after (on_conn k (Handle i op) (ss_server s)) (λ b v,
                  ss_set_call i op CWait (ss_set_loop (if b : bool then LService else LBlocked i) (ss_set_server v s))))
              else None
          | None => None
          end
      | _, _ => None
      end
  | SAInput addr p =>
      if ss_is_selecting s then
        Some (ss_after (callServer (srv_Input addr p) (ss_server s)) (λ _ v, ss_set_server v s))
      else None
  | SAClose => Some (Some (ss_set_closers (ss_closers s ++ [ClSend]) s))
  | SAShutdown j =>
      match ss_closers s !! j, ss_is_selecting s with
      | Some ClSend, true =>
          Some (Some (ServerSystem (ss_server s) (ss_calls s) (ss_of s) (<[j := ClReturned]> (ss_closers s)) true LExited DReady))
      | _, _ => None
      end
  | SAAccept =>
      match sv_offers (ss_server s) with
      | k :: offers =>
          match sv_conns (ss_server s) !! k with
          | Some c =>
              if connectedClosed c then
                Some (Some (ss_set_server (MkServer (sv_s (ss_server s)) (sv_conns (ss_server s)) offers
                  (sv_accepted (ss_server s) ++ [k]) (sv_sending (ss_server s))) s))
              else None
          | None => None
          end
      | [] => None
      end
  end.

Fixpoint server_schedule (l : list serverAction) s : option (serverSystem S M) :=
  match l with
  | [] => Some s
  | a :: l => match server_perform a s with Some (Some s') => server_schedule l s' | _ => None end
  end.
End system.
