(* ===== verification/ServerLoopSpec.v ===== *)
(** * The event loop of a server: its invariant

    Calls on any of the connections are owed their results as those of a single
    connection are ([EventLoopSpec]), and connections are handed out once, when they
    are up. *)

From S2P Require Import Prelude EventLoop EventLoopSpec ServerLoop.

(** ** What the loop owes *)

Section server.
Context {S M : Type} `{Minq M} `{MinqServer S M}.
Implicit Types (v : Server S M).

Definition conns_owed (cs : list (Connection M)) : list nat := cs ≫= conn_owed.
Definition server_owed v : list nat := (sv_sending v).*1 ++ conns_owed (sv_conns v).

Lemma conns_owed_lookup cs k c : cs !! k = Some c → conns_owed cs ≡ₚ conn_owed c ++ conns_owed (take k cs ++ drop (Datatypes.S k) cs).
Proof.
  intros Hk. unfold conns_owed. rewrite <- (take_drop_middle cs k c Hk) at 1. rewrite !bind_app, bind_cons.
  rewrite !(assoc_L (++)). apply Permutation_app_tail, Permutation_app_comm.
Qed.

Lemma conns_owed_insert cs k c c' : cs !! k = Some c →
  conns_owed (<[k := c']> cs) ≡ₚ conn_owed c' ++ conns_owed (take k cs ++ drop (Datatypes.S k) cs).
Proof.
  intros Hk. pose proof (lookup_lt_Some _ _ _ Hk).
  rewrite (conns_owed_lookup (<[k := c']> cs) k c') by by apply list_lookup_insert_eq.
  rewrite take_insert_ge, drop_insert_lt by lia. done.
Qed.

Lemma collect_owed k c v c0 : sv_conns v !! k = Some c0 →
  server_owed (collect k c v) ≡ₚ (sv_sending v).*1 ++ conn_owed c ++ conns_owed (take k (sv_conns v) ++ drop (Datatypes.S k) (sv_conns v)).
Proof.
  intros Hk. unfold server_owed. cbn. rewrite (conns_owed_insert _ _ _ _ Hk), fmap_app, <- !(assoc_L (++)).
  apply Permutation_app_head. unfold conn_owed. cbn. by rewrite <- !(assoc_L (++)).
Qed.

(** The connections that were offered or handed out. *)
Definition server_ok v : Prop :=
  NoDup (sv_accepted v ++ sv_offers v) ∧ (∀ k, k ∈ sv_accepted v ++ sv_offers v ↔ (k < length (sv_conns v))%nat) ∧
  ∀ k, k ∈ sv_accepted v → ∃ c, sv_conns v !! k = Some c ∧ connectedClosed c = true.

(** [m] keeps the connections and adds [l a] to what is owed, or ends the process. *)
Definition serves {A} (m : go (Server S M) A) (l : A → list nat) : Prop :=
  ∀ v, server_ok v → match m v with
       | (Ok a, v') => server_ok v' ∧ server_owed v' ≡ₚ l a ++ server_owed v ∧ sv_accepted v' = sv_accepted v
       | (Panic, _) => True
       | _ => False
       end.

(** A connection that is up stays up. *)
Definition stays_up {A} (m : go (Connection M) A) : Prop :=
  ∀ c, connectedClosed c = true → connectedClosed (m c).2 = true.

Lemma collect_ok k c c' v : server_ok v → sv_conns v !! k = Some c → (connectedClosed c = true → connectedClosed c' = true) →
  server_ok (collect k c' v).
Proof.
  intros (Hn & Hall & Hup) Hk Hc. unfold server_ok. cbn. split_and!; [done|intros j; by rewrite length_insert|].
  intros j Hj. destruct (Hup j Hj) as (c0 & Hc0 & Hup0). destruct (decide (k = j)) as [<-|Hne].
  - rewrite Hk in Hc0. injection Hc0 as <-. exists (set_sending [] c'). split; [|by apply Hc].
    apply list_lookup_insert_eq. by eapply lookup_lt_Some.
  - exists c0. by rewrite list_lookup_insert_ne.
Qed.

Lemma serves_on_conn {A} k (m : go (Connection M) A) l : adds m l → stays_up m → serves (on_conn k m) l.
Proof.
  intros Hm Hup v Hv. unfold on_conn. destruct (sv_conns v !! k) as [c|] eqn:Hk; [|done].
  specialize (Hm c). specialize (Hup c). destruct (m c) as [[a|e| |] c']; try done.
  split_and!; [by eapply collect_ok| |done]. rewrite (collect_owed k c' v c Hk), Hm. unfold server_owed.
  rewrite (conns_owed_lookup _ _ _ Hk), !(assoc_L (++)). do 2 apply Permutation_app_tail. apply Permutation_app_comm.
Qed.

Lemma serves_bind {A B} (m : go (Server S M) A) (k : A → go (Server S M) B) :
  serves m (λ _, []) → (∀ a, serves (k a) (λ _, [])) → serves (m ≫= k) (λ _, []).
Proof.
  intros Hm Hk v Hv. rewrite bind_unfold. specialize (Hm v Hv). destruct (m v) as [[a|e| |] v1]; try done.
  destruct Hm as (Hv1 & Ho & Ha). specialize (Hk a v1 Hv1). destruct (k a v1) as [[b|e| |] v2]; try done.
  destruct Hk as (Hv2 & Ho2 & Ha2). cbn in *. split_and!; [done|by rewrite Ho2|congruence].
Qed.

Lemma serves_NewConnection role m : serves (NewConnection role m) (λ _, []).
Proof.
  intros v (Hn & Hall & Hup). unfold NewConnection. destruct role; [|done]. cbn.
  assert (length (sv_conns v) ∉ sv_accepted v ++ sv_offers v) as Hnew by (rewrite Hall; lia).
  split; [split_and!|split].
  - cbn. rewrite (assoc_L (++)). apply NoDup_app. split_and!; [done| |by apply NoDup_singleton].
    by intros k Hk ->%list_elem_of_singleton.
  - intros k. cbn. rewrite (assoc_L (++)), elem_of_app, Hall, list_elem_of_singleton, length_app. cbn. lia.
  - intros k Hk. cbn in *. destruct (Hup k Hk) as (c & Hc & Hcc). exists c. split; [by apply lookup_app_l_Some|done].
  - unfold server_owed. cbn. unfold conns_owed. rewrite bind_app. cbn. by rewrite app_nil_r.
  - done.
Qed.
End server.

(** ** Connections stay up *)

Section up.
Context {M : Type} `{Minq M}.

Lemma up_bind {A B} (m : go (Connection M) A) (k : A → go (Connection M) B) :
  stays_up m → (∀ a, stays_up (k a)) → stays_up (m ≫= k).
Proof.
  intros Hm Hk c Hc. rewrite bind_unfold. specialize (Hm c Hc). destruct (m c) as [[a|e| |] c1]; try done. by apply Hk.
Qed.

Lemma up_get : stays_up (getS : go (Connection M) _).
Proof. by intros c. Qed.
Lemma up_ret {A} (a : A) : stays_up (mret a : go (Connection M) A).
Proof. by intros c. Qed.
Lemma up_panic {A} : stays_up (@panic (Connection M) A).
Proof. by intros c. Qed.
Lemma up_mod f : (∀ c, connectedClosed c = true → connectedClosed (f c) = true) → stays_up (modS f : go (Connection M) unit).
Proof. intros Hf c. apply Hf. Qed.

Lemma up_read i s n : stays_up (read i s n).
Proof.
  apply up_bind; [apply up_get|]. intros c. destruct (minq_Read s n (minq c)) as [[bs err] m].
  apply up_bind; [by apply up_mod|]. intros _. destruct (decide _); [apply up_ret|].
  apply up_bind; [by apply up_mod|]. intros _. apply up_ret.
Qed.

Lemma up_handler u : stays_up (handler u).
Proof.
  destruct u as [s|s|s|s]; cbn [handler]; [|by apply up_mod..|].
  - apply up_bind; [apply up_get|]. intros c. destruct s; repeat case_match; first [apply up_panic|by apply up_mod|apply up_ret].
  - apply up_bind; [apply up_get|]. intros c. destruct (readState c !! s) as [[i n]|]; [|apply up_ret].
    apply up_bind; [by apply up_mod|]. intros _. apply up_bind; [apply up_read|]. intros []; [apply up_ret|apply up_panic].
Qed.

Lemma up_exec {A} (run : minqRun M A) : stays_up (exec run).
Proof.
  induction run as [a m|u m k IH]; intros c Hc; cbn [exec]; [done|].
  pose proof (up_handler u (set_minq m c) Hc) as Hh. destruct (handler u (set_minq m c)) as [[[]|e| |] c1]; try done. by apply IH.
Qed.

Lemma up_callMinq {A} (f : M → minqRun M A) : stays_up (callMinq f).
Proof. apply up_bind; [apply up_get|]. intros c. apply up_exec. Qed.

Lemma up_reportCall i f : stays_up (reportCall i f).
Proof. apply up_bind; [apply up_callMinq|]. intros e. by apply up_mod. Qed.

Lemma up_Handle i op : stays_up (Handle i op).
Proof.
  assert (∀ b : bool, stays_up (mret b : go (Connection M) bool)) as Hret by (intros; apply up_ret).
  assert (∀ r, stays_up (emit i r)) as Hemit by (intros; by apply up_mod).
  destruct op; cbn [Handle]; repeat first
    [ apply up_bind; [first [apply up_get|apply up_callMinq|apply up_reportCall|apply Hemit]|intros]
    | apply Hret | case_match | apply Hemit ].
  - apply up_bind; [|intros; apply Hret]. apply up_bind; [apply up_get|]. intros c.
    destruct (readState c !! s) as [[]|]; [apply up_panic|]. apply up_bind; [apply up_read|]. intros []; [apply up_ret|by apply up_mod].
  - apply up_bind; [|intros; apply up_bind; [apply up_reportCall|intros; apply Hret]]. apply up_bind; [apply up_get|]. intros c.
    destruct (readState c !! s) as [[]|]; [|apply up_ret]. by apply up_bind; [apply up_mod|intros; apply up_mod].
Qed.
End up.

(** ** The invariant *)

Section system.
Context {S M : Type} `{Minq M} `{MinqServer S M}.
Implicit Types (s : serverSystem S M) (v : Server S M).

Lemma serves_execServer (run : serverRun S M) : serves (execServer run) (λ _, []).
Proof.
  induction run as [x|role m next IH|k f next IH]; cbn [execServer].
  - intros v Hv. by split.
  - apply serves_bind; [apply serves_NewConnection|]. by intros _.
  - apply serves_bind; [|exact IH]. apply (serves_on_conn k).
    + apply keeps_then; [apply keeps_callMinq|]. intros _. apply keeps_then; [apply keeps_get|]. intros c. apply keeps_ret.
    + apply up_bind; [apply up_callMinq|]. intros _. apply up_bind; [apply up_get|]. intros c. apply up_ret.
Qed.

Lemma serves_callServer (f : S → serverRun S M) : serves (callServer f) (λ _, []).
Proof. intros v Hv. unfold callServer. rewrite bind_unfold. by apply serves_execServer. Qed.

Lemma serves_Handle k i op : serves (S := S) (on_conn k (Handle i op)) (λ b : bool, if b then [i] else []).
Proof. apply serves_on_conn; [apply Handle_adds|apply up_Handle]. Qed.

Definition ss_owed s : list nat := server_owed (ss_server s) ++ drain_owed (ss_drain s) ++ loop_owed (ss_loop s).

Record ss_inv s : Prop := {
  ssi_owes : owes (ss_owed s) (ss_calls s);
  ssi_server : server_ok (ss_server s);
  ssi_of : length (ss_of s) = length (ss_calls s) ∧ Forall (λ k, k ∈ sv_accepted (ss_server s)) (ss_of s);
  ssi_closed : if ss_closed s then ss_loop s = LExited ∧ ss_drain s ≠ DNone else ss_loop s ≠ LExited ∧ ss_drain s = DNone;
  ssi_report : ∀ i op r, call_at s i op (CReport r) → ss_closed s = true;
}.

Lemma startServer_inv x : ss_inv (startServer x).
Proof.
  split; [| | |by cbn|by intros [] op r].
  - split; [constructor|]. intros i. split; [by intros ?%elem_of_nil|by intros [op Hi]; destruct i].
  - split_and!; [constructor| |by intros k ?%elem_of_nil]. intros k. cbn. split; [by intros ?%elem_of_nil|lia].
  - by split; [|constructor].
Qed.

Lemma call_at_set s i op st j op' st' : call_at (ss_set_call i op st s) j op' st' →
  (j = i ∧ op' = op ∧ st' = st) ∨ (j ≠ i ∧ call_at s j op' st').
Proof.
  unfold call_at. cbn. intros Hj. destruct (decide (j = i)) as [->|Hne].
  - pose proof (lookup_lt_Some _ _ _ Hj) as Hlt. rewrite length_insert in Hlt.
    rewrite list_lookup_insert_eq in Hj by done. left. by injection Hj.
  - rewrite list_lookup_insert_ne in Hj by done. by right.
Qed.

Lemma call_at_inj s i op st op' st' : call_at s i op st → call_at s i op' st' → op = op' ∧ st = st'.
Proof. unfold call_at. intros H1' H2'. rewrite H1' in H2'. by injection H2'. Qed.

Lemma ss_after_Some {A} (o : outcome A * Server S M) k s' : ss_after o k = Some s' → ∃ a v, o = (Ok a, v) ∧ k a v = s'.
Proof. destruct o as [[a|e| |] v]; try done. intros [= <-]. by exists a, v. Qed.

(** What the loop serves changes, and the calls do not. *)
Lemma ss_inv_server s v : ss_inv s → server_ok v → server_owed v ≡ₚ server_owed (ss_server s) →
  (∀ k, k ∈ sv_accepted (ss_server s) → k ∈ sv_accepted v) → ss_inv (ss_set_server v s).
Proof.
  intros [Ho Hs [Hlen Hof] Hc Hr] Hv Howed Hacc. split; [|done| |done|done].
  - unfold ss_owed. cbn. by rewrite Howed.
  - split; [done|]. eapply Forall_impl; [exact Hof|]. exact Hacc.
Qed.

(** A call goes from one state to another that does not wait. *)
Lemma ss_inv_call s i op st st' : ss_inv s → call_at s i op st → st ≠ CWait → st' ≠ CWait →
  (∀ r, st' = CReport r → ss_closed s = true) → ss_inv (ss_set_call i op st' s).
Proof.
  intros [Ho Hs [Hlen Hof] Hc Hr] Hi Hst Hst' Hrep.
  split; [by eapply (owes_other _ _ Ho)|done|by split; [cbn; rewrite length_insert|]|done|].
  intros j op' r [(-> & -> & Heq)|[_ Hj]]%call_at_set; [by eapply Hrep|by eapply Hr].
Qed.

(** A call begins to wait for what is owed now. *)
Lemma ss_inv_wait s s0 i op st : ss_inv s → call_at s i op st → st ≠ CWait →
  ss_calls s0 = ss_calls s → ss_of s0 = ss_of s → server_ok (ss_server s0) → ss_owed s0 ≡ₚ i :: ss_owed s →
  sv_accepted (ss_server s0) = sv_accepted (ss_server s) → ss_closed s0 = ss_closed s →
  (if ss_closed s0 then ss_loop s0 = LExited ∧ ss_drain s0 ≠ DNone else ss_loop s0 ≠ LExited ∧ ss_drain s0 = DNone) →
  ss_inv (ss_set_call i op CWait s0).
Proof.
  intros [Ho Hs [Hlen Hof] _ Hr] Hi Hst Hcs Hofs Hv Howed Hacc Hcl Hc. split; [|done| |done|].
  - change (ss_owed (ss_set_call i op CWait s0)) with (ss_owed s0). rewrite Howed. cbn. rewrite Hcs. by eapply (owes_more _ _ Ho).
  - cbn. rewrite length_insert, Hcs, Hofs, Hacc. by split.
  - intros j op' r [(_ & _ & ?)|[_ Hj]]%call_at_set; [done|]. cbn. rewrite Hcl. unfold call_at in Hj. rewrite Hcs in Hj.
    by eapply Hr.
Qed.

(** A sender owes what it sends. *)
Lemma ss_sends_owed s i r s' : ss_sends s i r s' → (∃ op, call_at s i op CWait) →
  ss_owed s ≡ₚ i :: ss_owed s' ∧ ss_calls s' = ss_calls s ∧ ss_of s' = ss_of s ∧ ss_closed s' = ss_closed s ∧
  ss_loop s' = ss_loop s ∧ sv_conns (ss_server s') = sv_conns (ss_server s) ∧
  sv_accepted (ss_server s') = sv_accepted (ss_server s) ∧ sv_offers (ss_server s') = sv_offers (ss_server s) ∧
  (ss_drain s' = DNone ↔ ss_drain s = DNone) ∧ ss_closers s' = ss_closers s.
Proof.
  intros [rest Hl Hs|Hd|op Hc] [op' Hw]; unfold ss_owed, server_owed.
  - split_and!; try done. cbn. by rewrite Hs.
  - split_and!; try done; [|cbn; by rewrite Hd]. cbn. rewrite Hd. cbn. symmetry. apply Permutation_middle.
  - by destruct (call_at_inj _ _ _ _ _ _ Hc Hw).
Qed.

Lemma server_ok_accept v before k after c : server_ok v → sv_offers v = before ++ k :: after →
  sv_conns v !! k = Some c → connectedClosed c = true →
  server_ok (MkServer (sv_s v) (sv_conns v) (before ++ after) (sv_accepted v ++ [k]) (sv_sending v)).
Proof.
  intros (Hn & Hall & Hup) Hoff Hk Hc.
  assert ((sv_accepted v ++ [k]) ++ before ++ after ≡ₚ sv_accepted v ++ sv_offers v) as Hp by (rewrite Hoff; solve_Permutation).
  split_and!; cbn; [by rewrite Hp|intros j; by rewrite Hp|].
  intros j [Hj| ->%list_elem_of_singleton]%elem_of_app; [by apply Hup|by exists c].
Qed.

(** A call of the library, and a receiver of a stream. *)
Lemma ss_inv_library s (f : S → serverRun S M) v : ss_inv s → callServer f (ss_server s) = (Ok tt, v) → ss_inv (ss_set_server v s).
Proof.
  intros Hinv Hrun. pose proof (serves_callServer f (ss_server s) (ssi_server s Hinv)) as Hserve. rewrite Hrun in Hserve.
  destruct Hserve as (Hv' & Howed & Hacc). apply ss_inv_server; [done|done|done|by rewrite Hacc].
Qed.

Lemma ss_inv_remote s k c ss rs : ss_inv s → sv_conns (ss_server s) !! k = Some c →
  ss_inv (ss_set_server (collect k (set_remote ss rs c) (ss_server s)) s).
Proof.
  intros Hinv Hk. apply ss_inv_server; [done|eapply collect_ok; [apply Hinv|exact Hk|done]| |done].
  rewrite (collect_owed _ _ _ _ Hk). unfold server_owed. by rewrite (conns_owed_lookup _ _ _ Hk).
Qed.

Lemma server_step_inv s s' : ss_inv s → server_step s (Some s') → ss_inv s'.
Proof.
  intros Hinv Hs. pose proof Hinv as [Ho Hv [Hlen Hof] Hc Hr]. remember (Some s') as w eqn:Hw.
  destruct Hs as [s k op Hk|s i op Hi Hcl|s i op k c Hi Hcl Hk|s i op k c [Hl Hq] Hi Hk|s addr p [Hl Hq]|s [Hl Hq]|s
    |s j [Hl Hq] Hj|s i r s1 op Hsend Hi|s i op k c _ _ _|s before k after c Hoff Hk Hc'|s k c x rest Hk Hx|s k c x rest Hk Hx
    |s i op k c Hd Hi Hk].
  - injection Hw as <-. split; [by apply owes_new|done| |done|].
    + cbn. rewrite !length_app, Hlen. split; [done|]. by apply Forall_app; split; [|constructor].
    + intros i op' r Hi. apply (Hr i op' r). unfold call_at in *. cbn in Hi.
      by apply lookup_app_Some in Hi as [Hi|[_ [_ Hi]%list_lookup_singleton_Some]].
  - injection Hw as <-. by eapply ss_inv_call.
  - destruct (report _ _ _) as [r|]; [|done]. injection Hw as <-. by eapply ss_inv_call.
  - apply ss_after_Some in Hw as (b & v & Hrun & <-).
    pose proof (serves_Handle k i op (ss_server s) Hv) as Hserve. rewrite Hrun in Hserve. destruct Hserve as (Hv' & Howed & Hacc).
    eapply ss_inv_wait; [exact Hinv|exact Hi|done..| |exact Hacc|done|].
    + unfold ss_owed. cbn. rewrite Howed, Hl. destruct b; cbn; [done|]. rewrite app_nil_r, (assoc_L (++)). symmetry.
      apply Permutation_cons_append.
    + cbn. rewrite Hl in Hc. destruct (ss_closed s), Hc; [done|]. by destruct b.
  - apply ss_after_Some in Hw as ([] & v & Hrun & <-). by eapply ss_inv_library.
  - apply ss_after_Some in Hw as ([] & v & Hrun & <-). by eapply ss_inv_library.
  - injection Hw as <-. by split.
  - injection Hw as <-. rewrite Hl in Hc. destruct (ss_closed s), Hc as [Hc Hd]; [done|]. split; [|done|done|done|done].
    unfold ss_owed in *. cbn. by rewrite Hl, Hd in Ho.
  - injection Hw as <-. destruct (ss_sends_owed s i r s1) as (Howed & Hcs & Hofs & Hcl & Hloop & Hconns & Hacc & Hoffs & Hd & _);
      [done|by exists op|].
    rewrite Howed in Ho. split.
    + change (ss_owed (ss_set_call i op (CReturned r) s1)) with (ss_owed s1). cbn. rewrite Hcs. by eapply owes_less.
    + cbn. unfold server_ok in *. by rewrite Hconns, Hacc, Hoffs.
    + cbn. by rewrite length_insert, Hcs, Hofs, Hacc.
    + cbn. rewrite Hcl, Hloop. destruct (ss_closed s), Hc; tauto.
    + intros j op' r' [(_ & _ & ?)|[_ Hj]]%call_at_set; [done|]. cbn. rewrite Hcl. unfold call_at in Hj. rewrite Hcs in Hj. by eapply Hr.
  - done.
  - injection Hw as <-. apply ss_inv_server; [done|by eapply server_ok_accept|done|].
    intros j Hj. cbn. apply elem_of_app. by left.
  - injection Hw as <-. by apply ss_inv_remote.
  - injection Hw as <-. by apply ss_inv_remote.
  - destruct (report _ _ _) as [r|]; [|done]. injection Hw as <-.
    eapply ss_inv_wait; [exact Hinv|exact Hi|done..| |done|done|].
    + unfold ss_owed. cbn. rewrite Hd. symmetry. apply Permutation_middle.
    + cbn. destruct (ss_closed s), Hc; [done|congruence].
Qed.

Lemma server_steps_inv s s' : ss_inv s → server_steps s s' → ss_inv s'.
Proof. intros Hi. induction 1 as [|s1 s2 s3 _ IH Hs]; [done|]. by eapply server_step_inv; [apply IH|]. Qed.

Lemma server_reachable_inv s : server_reachable s → ss_inv s.
Proof. intros [x Hx]. eapply server_steps_inv; [apply startServer_inv|done]. Qed.

(** ** Results are final *)

Lemma call_at_insert s i op st0 st j op' st' : call_at s i op st0 → call_at s j op' st' →
  (<[i := MkCall op st]> (ss_calls s)) !! j = Some (MkCall op' st') ∨ (j = i ∧ op' = op ∧ st' = st0).
Proof.
  unfold call_at. intros Hi Hj. destruct (decide (j = i)) as [->|Hne].
  - rewrite Hi in Hj. injection Hj as <- <-. by right.
  - left. by rewrite list_lookup_insert_ne.
Qed.

(** What a step does to a call: it goes on, or another one does. *)
Lemma server_step_call s s' j op st : server_step s (Some s') → call_at s j op st →
  call_at s' j op st ∨ (st = CAdd ∧ (ss_closed s = true → ∃ r, call_at s' j op (CReport r))) ∨ st = CSend ∨
  (st = CWait ∧ ∃ r s1, ss_sends s j r s1).
Proof.
  intros Hs Hj. remember (Some s') as w eqn:Hw.
  destruct Hs as [s k op' Hk|s i op' Hi Hcl|s i op' k c Hi Hcl Hk|s i op' k c [Hl Hq] Hi Hk|s addr p _|s _|s
    |s x _ _|s i r s1 op' Hsend Hi|s i op' k c _ _ _|s before k after c Hoff Hk Hc'|s k c x rest Hk Hx|s k c x rest Hk Hx
    |s i op' k c Hd Hi Hk].
  - injection Hw as <-. left. unfold call_at. cbn. by apply lookup_app_l_Some.
  - injection Hw as <-. destruct (call_at_insert s i op' CAdd CSend j op st Hi Hj) as [?|(-> & -> & ->)]; [by left|].
    right; left. split; [done|congruence].
  - destruct (report _ _ _) as [r|]; [|done]. injection Hw as <-.
    destruct (call_at_insert s i op' CAdd (CReport r) j op st Hi Hj) as [?|(-> & -> & ->)]; [by left|].
    right; left. split; [done|]. intros _. exists r. apply list_lookup_insert_eq. by eapply lookup_lt_Some.
  - apply ss_after_Some in Hw as (b & v & _ & <-).
    destruct (call_at_insert s i op' CSend CWait j op st Hi Hj) as [?|(-> & -> & ->)]; [by left|]. by right; right; left.
  - apply ss_after_Some in Hw as ([] & v & _ & <-). by left.
  - apply ss_after_Some in Hw as ([] & v & _ & <-). by left.
  - injection Hw as <-. by left.
  - injection Hw as <-. by left.
  - injection Hw as <-. destruct (ss_sends_owed s i r s1) as (_ & Hcs & _); [done|by exists op'|].
    destruct (call_at_insert s i op' CWait (CReturned r) j op st Hi Hj) as [Hat|(-> & -> & ->)].
    + left. unfold call_at. cbn. by rewrite Hcs.
    + do 3 right. split; [done|]. by exists r, s1.
  - done.
  - injection Hw as <-. by left.
  - injection Hw as <-. by left.
  - injection Hw as <-. by left.
  - destruct (report _ _ _) as [r|]; [|done]. injection Hw as <-.
    destruct (call_at_insert s i op' CSend CWait j op st Hi Hj) as [?|(-> & -> & ->)]; [by left|]. by right; right; left.
Qed.

Lemma server_returned s s' i op r : server_steps s s' → call_at s i op (CReturned r) → call_at s' i op (CReturned r).
Proof.
  intros Hs Hi. induction Hs as [|s1 s2 s3 _ IH Hstep]; [done|].
  by destruct (server_step_call s2 s3 i op (CReturned r) Hstep (IH Hi)) as [?|[[? _]|[?|[? _]]]].
Qed.

(** ** After [Close] *)

(** The loop does not come back: nothing returns from [Close], and no read is
    answered. *)
Lemma exited_step s s' : ss_loop s = LExited → server_step s (Some s') →
  ss_loop s' = LExited ∧ (ss_closed s = true → ss_closed s' = true) ∧
  (∀ j, ss_closers s' !! j = Some ClReturned → ss_closers s !! j = Some ClReturned) ∧
  ∀ k c, sv_conns (ss_server s) !! k = Some c → ∃ c', sv_conns (ss_server s') !! k = Some c' ∧ readState c' = readState c.
Proof.
  assert (∀ s k c c0 ss rs, sv_conns (ss_server s) !! k = Some c → sv_conns (ss_server s) !! c0.1 = Some c0.2 →
    ∃ c', sv_conns (collect c0.1 (set_remote ss rs c0.2) (ss_server s)) !! k = Some c' ∧ readState c' = readState c) as Hremote.
  { intros s0 k c [k0 c0] ss rs Hk Hk0. cbn in *. destruct (decide (k0 = k)) as [->|Hne].
    - rewrite Hk in Hk0. injection Hk0 as <-. eexists. split; [apply list_lookup_insert_eq; by eapply lookup_lt_Some|done].
    - exists c. by rewrite list_lookup_insert_ne. }
  intros Hl Hs. remember (Some s') as w eqn:Hw.
  destruct Hs as [s k op' Hk|s i op' Hi Hcl|s i op' k c Hi Hcl Hk|s i op' k c [? _] Hi Hk|s addr p [? _]|s [? _]|s
    |s x [? _] _|s i r s1 op' Hsend Hi|s i op' k c _ _ _|s before k after c Hoff Hk Hc'|s k c x rest Hk Hx|s k c x rest Hk Hx
    |s i op' k c Hd Hi Hk]; try congruence; try (destruct (report _ _ _) as [r|]; [|done]); injection Hw as <-.
  1-3,6,9: by (split_and!; [done|done|done|]; intros k0 c0 Hk0; exists c0).
  - split_and!; [done|done| |intros k0 c0 Hk0; by exists c0].
    intros j Hj. cbn in Hj. apply lookup_app_Some in Hj as [Hj|[_ [_ ?]%list_lookup_singleton_Some]]; done.
  - destruct (ss_sends_owed s i r s1) as (_ & _ & _ & Hcl & Hloop & Hconns & _ & _ & _ & Hclosers); [done|by exists op'|].
    cbn. rewrite Hloop, Hcl, Hconns, Hclosers. split_and!; [done|done|done|]. intros k0 c0 Hk0. by exists c0.
  - split_and!; [done|done|done|]. intros k0 c0 Hk0. by apply (Hremote s k0 c0 (k, c)).
  - split_and!; [done|done|done|]. intros k0 c0 Hk0. by apply (Hremote s k0 c0 (k, c)).
Qed.

Lemma closers_stay s s' : ss_loop s = LExited → server_steps s s' →
  ss_loop s' = LExited ∧ ∀ j, ss_closers s' !! j = Some ClReturned → ss_closers s !! j = Some ClReturned.
Proof.
  intros Hl Hs. induction Hs as [|s1 s2 s3 _ IH Hstep]; [done|]. destruct (IH Hl) as [Hl2 Hj2].
  destruct (exited_step s2 s3 Hl2 Hstep) as (Hl3 & _ & Hj3 & _). split; [done|]. intros j Hj. by apply Hj2, Hj3.
Qed.

(** A call that begins later. *)
Lemma late_stays s s' i op : ss_loop s = LExited → ss_closed s = true → server_steps s s' →
  (call_at s i op CAdd ∨ ∃ r, call_at s i op (CReport r)) → call_at s' i op CAdd ∨ ∃ r, call_at s' i op (CReport r).
Proof.
  intros Hl Hcl Hs Hi. assert (ss_loop s' = LExited ∧ ss_closed s' = true ∧ (call_at s' i op CAdd ∨ ∃ r, call_at s' i op (CReport r))) as (_ & _ & ?);
    [|done]. induction Hs as [|s1 s2 s3 _ IH Hstep]; [done|]. destruct (IH Hl Hcl Hi) as (Hl2 & Hcl2 & Hi2).
  destruct (exited_step s2 s3 Hl2 Hstep) as (Hl3 & Hcl3 & _). split_and!; [done|by apply Hcl3|].
  destruct Hi2 as [Hi2|[r Hi2]]; destruct (server_step_call s2 s3 i op _ Hstep Hi2) as [?|[[? Hr]|[?|[? _]]]]; try done;
    [by left|right; by apply Hr|right; by exists r].
Qed.

(** A read that waits. *)
Lemma pending_stays s s' i k c st n : ss_inv s → ss_loop s = LExited → sv_conns (ss_server s) !! k = Some c →
  readState c !! st = Some (i, n) → server_steps s s' → ∃ op, call_at s' i op CWait.
Proof.
  intros Hi Hl Hk Hr Hs. assert (ss_loop s' = LExited ∧ ∃ c', sv_conns (ss_server s') !! k = Some c' ∧ readState c' !! st = Some (i, n)) as
    (Hl' & c' & Hk' & Hr').
  { induction Hs as [|s1 s2 s3 _ IH Hstep]; [by split; [|exists c]|]. destruct (IH Hi Hl Hk) as (Hl2 & c2 & Hk2 & Hr2).
    destruct (exited_step s2 s3 Hl2 Hstep) as (Hl3 & _ & _ & Hreads). destruct (Hreads k c2 Hk2) as (c3 & Hk3 & Hr3).
    split; [done|]. exists c3. by rewrite Hr3. }
  apply (ssi_owes s' (server_steps_inv s s' Hi Hs)). unfold ss_owed, server_owed. apply elem_of_app. left. apply elem_of_app. right.
  rewrite (conns_owed_lookup _ _ _ Hk'). apply elem_of_app. left. unfold conn_owed. rewrite (readers_delete _ _ _ _ Hr').
  apply elem_of_app. right. by left.
Qed.

(** ** Schedules are steps *)

Lemma ss_is_selecting_true s : ss_is_selecting s = true → ss_selecting s.
Proof.
  unfold ss_is_selecting, ss_selecting. destruct (ss_loop s); [|done..]. by destruct (sv_sending (ss_server s)).
Qed.

Lemma server_perform_step a s w : server_perform a s = Some w → server_step s w.
Proof.
  destruct a as [k op|i|i|addr p| |j|]; cbn [server_perform].
  - destruct (decide _); [|done]. intros [= <-]. by apply ss_call.
  - destruct (ss_calls s !! i) as [[op []]|] eqn:Hi; try done. destruct (ss_closed s) eqn:Hc; [done|]. intros [= <-]. by apply ss_add.
  - destruct (ss_calls s !! i) as [[op []]|] eqn:Hi; try done. destruct (ss_of s !! i) as [k|] eqn:Hof; [|done].
    destruct (sv_conns (ss_server s) !! k) as [c|] eqn:Hk; [|done].
    destruct (ss_is_selecting s) eqn:Hsel; [|done]. intros [= <-]. by apply (ss_handle s i op k c); [apply ss_is_selecting_true|..].
  - destruct (ss_is_selecting s) eqn:Hsel; [|done]. intros [= <-]. by apply ss_input, ss_is_selecting_true.
  - intros [= <-]. apply ss_close.
  - destruct (ss_closers s !! j) as [[]|] eqn:Hj; try done. destruct (ss_is_selecting s) eqn:Hsel; [|done]. intros [= <-].
    by apply ss_shutdown; [apply ss_is_selecting_true|].
  - destruct (sv_offers (ss_server s)) as [|k offers] eqn:Hoff; [done|].
    destruct (sv_conns (ss_server s) !! k) as [c|] eqn:Hk; [|done]. destruct (connectedClosed c) eqn:Hc; [|done].
    intros [= <-]. by apply (ss_accept s [] k offers c).
Qed.

Lemma server_steps_trans s1 s2 s3 : server_steps s1 s2 → server_steps s2 s3 → server_steps s1 s3.
Proof. intros H12 H23. revert H12. induction H23; intros H12; [done|]. eapply ss_step; [by apply IHserver_steps|done]. Qed.

Lemma server_schedule_steps l s s' : server_schedule l s = Some s' → server_steps s s'.
Proof.
  revert s. induction l as [|a l IH]; intros s; cbn [server_schedule]; [intros [= ->]; apply ss_refl|].
  destruct (server_perform a s) as [[s1|]|] eqn:Ha; [|done..]. intros Hl.
  eapply server_steps_trans; [|by apply IH]. eapply ss_step; [apply ss_refl|by apply (server_perform_step a)].
Qed.
End system.
