(* ===== verification/Headers.v ===== *)
(** * Header lists of messages (message.go)

    Lookups in a header list, the status of a response, the method and target of a
    request, and the fields a request starts with. URLs are Go's [net/url]: a
    class of the operations that are called. *)

From S2P Require Import Prelude Bits GoIo HuffmanTable Huffman HcString StaticTable Table Codec QpackTable QpackEncoder.

(** ** [net/url] *)

Class UrlLib := {
  URL : Type;
  url_Parse : string → outcome URL;                  (* url.Parse *)
  url_ParseRef : URL → string → outcome URL;         (* base.Parse *)
  url_Make : string → string → URL;                  (* url.URL{Scheme, Host} *)
  url_Scheme : URL → string;
  url_Host : URL → string;
  url_EscapedPath : URL → string;
}.

(** ** [strconv.Atoi] *)

Definition is_digit (b : Z) : bool := (48 <=? b) && (b <=? 57).

Definition digits_value (bs : list Z) : Z := foldl (λ n b, 10 * n + (b - 48)) 0 bs.

(** An optional sign, at least one digit and nothing else, in the range of [int]. *)
Definition Atoi (s : string) : option Z :=
  let bs := bytes_of_string s in
  let '(sign, ds) := match bs with
                     | 43 :: ds => (1, ds)
                     | 45 :: ds => (-1, ds)
                     | _ => (1, bs)
                     end in
  match ds with
  | [] => None
  | _ =>
      if forallb is_digit ds then
        let v := sign * digits_value ds in
        if (- 2 ^ 63 <=? v) && (v <=? intMax) then Some v else None
      else None
  end.

(** [HeaderField.String] and [headerFieldArray.String]; the width of the names, which
    the latter works out first, is not used. *)
Definition HeaderField_String (h : HeaderField) : string := (h_Name h ++ ": " ++ h_Value h)%string.
Definition headerFieldArray_String (a : list HeaderField) : string :=
  foldl (λ s h, s ++ (HeaderField_String h ++ String (Ascii.ascii_of_nat 10) ""))%string ""%string a.

Section headers.
Context `{UrlLib} (unicodeLower : string → string).

(** [headerFieldArray.GetHeader]. *)
Definition GetHeader (a : list HeaderField) (n : string) : string :=
  foldl (λ v h,
    if decide (h_Name h = ToLower unicodeLower n)
    then if 0 <? slen v then (v ++ "," ++ h_Value h)%string else h_Value h
    else v) ""%string a.

Definition GetStatus (a : list HeaderField) : Z :=
  match Atoi (GetHeader a ":status") with Some status => status | None => 0 end.

Definition getMethodAndTarget (a : list HeaderField) : outcome (string * URL) :=
  let method := GetHeader a ":method" in
  if decide (method = ""%string) then Err (ErrText "Missing :method from request") else
  let scheme := GetHeader a ":scheme" in
  let host := GetHeader a ":authority" in
  if decide (scheme = ""%string) then Err (ErrText "Missing :scheme from request") else
  let host := if decide (host = ""%string) then GetHeader a "Host" else host in
  if decide (host = ""%string) then Err (ErrText "Missing :authority/Host from request") else
  let p := GetHeader a ":path" in
  if decide (p = ""%string) then Err (ErrText "Missing :path from request") else
  match url_ParseRef (url_Make scheme host) p with
  | Ok u => Ok (method, u)
  | Err e => Err e
  | Panic => Panic
  | NoFuel => NoFuel
  end.

(** The fields are those of the source, in its order; [base] is nil for requests
    of a client. *)
Definition buildRequestHeaderFields (method : string) (base : option URL) (target : string)
    (headers : list HeaderField) : outcome (URL * list HeaderField) :=
  match match base with Some b => url_ParseRef b target | None => url_Parse target end with
  | Ok u =>
      if decide (url_Scheme u = "https"%string) then
        Ok (u, [ MkHeaderField ":authority" (url_Host u) false;
                 MkHeaderField ":path" (url_EscapedPath u) false;
                 MkHeaderField ":method" method false;
                 MkHeaderField ":scheme" (url_Scheme u) false ]%string ++ headers)
      else Err (ErrText "No support for non-https URLs")
  | Err e => Err e
  | Panic => Panic
  | NoFuel => NoFuel
  end.

(** ** Lookups *)

(** The values of a name, in order. *)
Definition values_of (a : list HeaderField) (n : string) : list string :=
  h_Value <$> filter (λ h, h_Name h = n) a.

(** Comma-separated, empty values at the front left out. *)
Definition join_values (v : string) (vs : list string) : string :=
  foldl (λ v w, if 0 <? slen v then (v ++ "," ++ w)%string else w) v vs.

Lemma GetHeader_values a n : GetHeader a n = join_values "" (values_of a (ToLower unicodeLower n)).
Proof.
  unfold GetHeader. match goal with |- foldl ?f _ _ = _ => set (F := f) end.
  enough (∀ v, foldl F v a = join_values v (values_of a (ToLower unicodeLower n))) as Hall by apply Hall.
  induction a as [|h a IH]; intros v; [done|]. unfold values_of in *. cbn [foldl]. rewrite IH, filter_cons.
  unfold F. by destruct (decide (h_Name h = ToLower unicodeLower n)).
Qed.

Lemma slen_pos v : 0 < slen v ↔ v ≠ ""%string.
Proof.
  destruct v as [|c v]; [by split|]. unfold slen. split; [done|]. intros _. cbn.
  rewrite zlen_cons. pose proof (zlen_nonneg (bytes_of_string v)). unfold bytes_of_string in *. lia.
Qed.

Lemma values_of_app a b n : values_of (a ++ b) n = values_of a n ++ values_of b n.
Proof. unfold values_of. by rewrite filter_app, fmap_app. Qed.

(** No ordinary field has the name of a pseudo-header field. *)
Lemma values_of_ordinary headers n : Forall (λ h, pseudo_name h = false) headers →
  is_pseudo n = Ok true → values_of headers n = [].
Proof.
  intros Hh Hn. unfold values_of. induction Hh as [|h headers Hp _ IH]; [done|].
  rewrite filter_cons, decide_False; [done|]. intros <-. unfold pseudo_name in Hp. by rewrite Hn in Hp.
Qed.

(** The fields a request starts with say its method and target. *)
Lemma request_fields method base target headers u fields :
  buildRequestHeaderFields method base target headers = Ok (u, fields) →
  Forall (λ h, pseudo_name h = false) headers →
  GetHeader fields ":method" = method ∧ GetHeader fields ":scheme" = "https"%string ∧
  GetHeader fields ":authority" = url_Host u ∧ GetHeader fields ":path" = url_EscapedPath u.
Proof.
  intros Hb Hh. unfold buildRequestHeaderFields in Hb.
  destruct (match base with Some _ => _ | None => _ end) as [u'|e| |]; [|done..].
  destruct (decide _) as [Hs|]; [|done]. injection Hb as -> <-. rewrite Hs.
  assert (∀ n, is_pseudo n = Ok true → ToLower unicodeLower n = n → 
    GetHeader ([MkHeaderField ":authority" (url_Host u) false; MkHeaderField ":path" (url_EscapedPath u) false;
      MkHeaderField ":method" method false; MkHeaderField ":scheme" "https" false]%string ++ headers) n =
    join_values "" (values_of [MkHeaderField ":authority" (url_Host u) false;
      MkHeaderField ":path" (url_EscapedPath u) false; MkHeaderField ":method" method false;
      MkHeaderField ":scheme" "https" false]%string n)) as Hget.
  { intros n Hn Hl. rewrite GetHeader_values, Hl, values_of_app, (values_of_ordinary headers n Hh Hn).
    by rewrite app_nil_r. }
  rewrite !Hget by done. split_and!; done.
Qed.

(** A request is understood as its method and target, as far as the target can be
    told from its host and path. *)
Lemma getMethodAndTarget_fields method base target headers u fields :
  buildRequestHeaderFields method base target headers = Ok (u, fields) →
  Forall (λ h, pseudo_name h = false) headers → method ≠ ""%string → url_Host u ≠ ""%string →
  getMethodAndTarget fields =
    if decide (url_EscapedPath u = ""%string) then Err (ErrText "Missing :path from request") else
    match url_ParseRef (url_Make "https" (url_Host u)) (url_EscapedPath u) with
    | Ok v => Ok (method, v)
    | Err e => Err e
    | Panic => Panic
    | NoFuel => NoFuel
    end.
Proof.
  intros Hb Hh Hm Hhost. destruct (request_fields method base target headers u fields Hb Hh) as (H1 & H2 & H3 & H4).
  unfold getMethodAndTarget. rewrite H1, H2, H3, H4. rewrite (decide_False _ _ Hm).
  rewrite decide_False by done. do 2 rewrite (decide_False _ _ Hhost). done.
Qed.
End headers.
