(* ===== verification/Qif.v ===== *)
(** * The QPACK interop tool (hc/qif)

    The tool encodes a QIF file, a text of header blocks, to a file of chunks and
    decodes such a file to text. Files are a reader and a writer, opened by [Files].
    [check(err)] prints a non-nil error and exits: the run of the tool ends with that
    error. Logging and the closing of files are left out. *)

From S2P Require Import Prelude Bits GoIo BitWriter BitReader Streams HcInt HuffmanTable Huffman HcString StaticTable Table Codec QpackTable QpackEncoder QpackDecoder Headers.

Definition lineFeed : Z := 10.
Definition carriageReturn : Z := 13.
Definition tab : Z := 9.
Definition numberSign : Z := 35.

(** ** Reading QIF (qif_parse.go) *)

Record Reader (R : Type) := MkReader { qr_r : R; qr_eol : bool }.
Arguments MkReader {R}.
Arguments qr_r {R}.
Arguments qr_eol {R}.

Definition NewReader {R} (r : R) : Reader R := MkReader r false.

(** [bytes.SplitN(line, tab, 2)]: what is before the first tab, and after it if
    there is one. *)
Fixpoint splitTab (line : list Z) : list Z * option (list Z) :=
  match line with
  | [] => ([], None)
  | b :: line' => if b =? tab then ([], Some line') else let '(n, v) := splitTab line' in (b :: n, v)
  end.

Section parse.
Context {R : Type} `{IoReader R}.

Definition on_r {A} (m : go R A) : go (Reader R) A := zoom qr_r (λ r qr, MkReader r (qr_eol qr)) m.
Definition set_eol (eol : bool) : go (Reader R) unit := modS (λ qr, MkReader (qr_r qr) eol).

Definition reallyReadByte : go (Reader R) Z :=
  match io_ReadByte with
  | Some f => on_r f
  | None =>
      '(bs, err) ← on_r (io_Read 1);
      match err, bs with
      | Some err, _ => fail err
      | None, [b] => mret b
      | None, _ => fail ErrNoProgress
      end
  end.

(** A line feed after a carriage return is skipped. The byte that comes with an
    error is zero. *)
Definition readByte : go (Reader R) Z :=
  qr ← getS;
  r ← catch (b ← reallyReadByte; if qr_eol qr && (b =? lineFeed) then reallyReadByte else mret b);
  match r with
  | inl b => set_eol (b =? carriageReturn);; mret b
  | inr err => set_eol false;; fail err
  end.

(** Loops over the bytes of the reader: one round a byte. *)
Fixpoint readLine (fuel : nat) (buf : list Z) : go (Reader R) (list Z) :=
  match fuel with
  | O => nofuel
  | S fuel' =>
      b ← readByte;
      if (b =? carriageReturn) || (b =? lineFeed) then mret buf else readLine fuel' (buf ++ [b])
  end.

(** Not used by the tool. *)
Fixpoint ignoreUntilEol (fuel : nat) : go (Reader R) unit :=
  match fuel with
  | O => nofuel
  | S fuel' =>
      b ← readByte;
      if (b =? carriageReturn) || (b =? lineFeed) then mret tt else ignoreUntilEol fuel'
  end.

(** The loop over comments; [line[0]] of an empty line panics. *)
Fixpoint skipComments (fuel : nat) (line : list Z) : go (Reader R) (list Z) :=
  match line with
  | [] => panic
  | b :: _ =>
      if b =? numberSign then
        match fuel with
        | O => nofuel
        | S fuel' => line ← readLine fuel []; skipComments fuel' line
        end
      else mret line
  end.

(** [None] for an empty line. [splitLine[1]] of a line with no tab panics. *)
Definition readHeaderField (fuel : nat) : go (Reader R) (option HeaderField) :=
  line ← readLine fuel [];
  match line with
  | [] => mret None
  | _ =>
      line ← skipComments fuel line;
      match splitTab line with
      | (n, Some v) => mret (Some (MkHeaderField (string_of_bytes n) (string_of_bytes v) false))
      | (_, None) => panic
      end
  end.

Fixpoint ReadHeaderBlock_loop (fuel : nat) (block : list HeaderField) : go (Reader R) (list HeaderField) :=
  match fuel with
  | O => nofuel
  | S fuel' =>
      hf ← readHeaderField fuel;
      match hf with
      | None => mret block
      | Some h => ReadHeaderBlock_loop fuel' (block ++ [h])
      end
  end.

Definition ReadHeaderBlock (fuel : nat) : go (Reader R) (list HeaderField) := ReadHeaderBlock_loop fuel [].
End parse.

(** ** Encoding (encoder.go) *)

Record encoder (R W : Type) := MkEncoder {
  en_input : Reader R;
  en_output : bitWriter W;
  en_acknowledge : bool;
  en_stream : Z;                        (* uint64 *)
  en_updateStream : bitWriter Buffer;   (* the buffer, under the writer of [qpack] *)
  en_qpack : QpackEncoder;
}.
Arguments MkEncoder {R W}.
Arguments en_input {R W}.
Arguments en_output {R W}.
Arguments en_acknowledge {R W}.
Arguments en_stream {R W}.
Arguments en_updateStream {R W}.
Arguments en_qpack {R W}.

Section encode.
Context {R W : Type} `{IoReader R} `{IoWriter W} (unicodeLower : string → string).

Definition on_input {A} (m : go (Reader R) A) : go (encoder R W) A :=
  zoom en_input (λ r s, MkEncoder r (en_output s) (en_acknowledge s) (en_stream s) (en_updateStream s) (en_qpack s)) m.
Definition on_output {A} (m : go (bitWriter W) A) : go (encoder R W) A :=
  zoom en_output (λ w s, MkEncoder (en_input s) w (en_acknowledge s) (en_stream s) (en_updateStream s) (en_qpack s)) m.
Definition on_qpack {A} (m : go QpackEncoder A) : go (encoder R W) A :=
  zoom en_qpack (λ q s, MkEncoder (en_input s) (en_output s) (en_acknowledge s) (en_stream s) (en_updateStream s) q) m.
Definition set_updateStream (b : list Z) : go (encoder R W) unit :=
  modS (λ s, MkEncoder (en_input s) (en_output s) (en_acknowledge s) (en_stream s)
    (BitWriter (MkBuffer b) (bw_saved (en_updateStream s)) (bw_savedBits (en_updateStream s))
       (bw_written (en_updateStream s))) (en_qpack s)).

(** [NewQpackEncoder(&enc.updateStream, 4096, 3072)]. *)
Definition newEncoder (input : R) (output : W) : outcome (encoder R W) :=
  match NewQpackEncoder 4096 3072 with
  | Ok q => Ok (MkEncoder (NewReader input) (NewBitWriter output) false 0 (NewBitWriter (MkBuffer [])) q)
  | Err e => Err e
  | Panic => Panic
  | NoFuel => NoFuel
  end.

(** [writeBlock] returns what is left in the buffer. [io.Copy] empties it, so that
    the second look at its length finds nothing. *)
Definition writeBlock (id : Z) (block : list Z) : go (encoder R W) (list Z) :=
  if zlen block <=? 0 then mret block else
  on_output (WriteBits id 64);;
  on_output (WriteBits (u64 (zlen block)) 32);;
  '(n, err) ← on_output (CopyBytes Write block);
  let block := zdrop n block in
  match err with
  | Some err => fail err
  | None => if n <? zlen block then fail ErrShortWrite else mret []
  end.

(** [WriteHeaderBlock(&headerStream, enc.stream, block...)]. *)
Definition encodeBlock (id : Z) (block : list HeaderField) : go (encoder R W) (list Z) := λ s,
  let '(o, (q, u, h)) := WriteHeaderBlock unicodeLower id block (en_qpack s, en_updateStream s, MkBuffer []) in
  let s' := MkEncoder (en_input s) (en_output s) (en_acknowledge s) (en_stream s) u q in
  match o with
  | Ok _ => (Ok (buf_bytes h), s')
  | Err e => (Err e, s')
  | Panic => (Panic, s')
  | NoFuel => (NoFuel, s')
  end.

(** The loop of [Encode] after the block is read. *)
Definition encodeNext (block : list HeaderField) : go (encoder R W) unit :=
  modS (λ s, MkEncoder (en_input s) (en_output s) (en_acknowledge s) (u64 (en_stream s + 1)) (en_updateStream s) (en_qpack s));;
  s ← getS;
  headerStream ← encodeBlock (en_stream s) block;
  s ← getS;
  updates ← writeBlock 0 (buf_bytes (bw_writer (en_updateStream s)));
  set_updateStream updates;;
  writeBlock (en_stream s) headerStream;;
  if en_acknowledge s then _ ← catch (on_qpack (AcknowledgeHeader (en_stream s))); mret tt else mret tt.

(** One round a block, and every block takes a byte of the input. *)
Fixpoint Encode (fuel : nat) : go (encoder R W) unit :=
  match fuel with
  | O => nofuel
  | S fuel' =>
      r ← catch (on_input (ReadHeaderBlock fuel));
      match r with
      | inr EOF => mret tt
      | inr err => fail err
      | inl block => encodeNext block;; Encode fuel'
      end
  end.
End encode.

(** ** Decoding (decoder.go) *)

(** The update stream and the goroutine that reads it are [de_qpack]: its reader has
    what was added and is not used yet. [acknowledgments] go to [devnull]. *)
Record decoder (R W : Type) := MkDecoder {
  de_input : bitReader R;
  de_output : W;
  de_qpack : decoding bytesReader;
}.
Arguments MkDecoder {R W}.
Arguments de_input {R W}.
Arguments de_output {R W}.
Arguments de_qpack {R W}.

(** A chunk goes to the update stream. *)
Definition addChunk (chunk : list Z) (d : decoding bytesReader) : decoding bytesReader :=
  let br := qd_reader d in
  Decoding (qd_table d)
    (BitReader (MkBytesReader (rest (br_reader br) ++ chunk)) (br_saved br) (br_savedBits br)) (qd_sent d).

(** The goroutine of [ReadTableUpdates] until it waits for the next chunk. The stream
    is never closed while it reads, so that the end of what was added, in the middle
    of an instruction or not, makes the read wait; the instruction has changed
    nothing then, and the model reads it again from its start. Each round takes a
    bit. *)
Fixpoint serviceUpdates (fuel : nat) : go (decoding bytesReader) unit := λ d,
  match fuel with
  | O => (NoFuel, d)
  | S fuel' =>
      match (t ← getTable; b ← on_reader ReadBit; readUpdate (tbase t) b) d with
      | (Ok _, d') => serviceUpdates fuel' d'
      | (Err EOF, _) | (Err ErrUnexpectedEOF, _) => (Ok tt, d)
      | (o, d') => (o, d')
      end
  end.

(** [updateStream.AddReader(reader)], which returns when the goroutine has drained the
    chunk and comes for the next. *)
Definition AddUpdates (chunk : list Z) : go (decoding bytesReader) unit := λ d,
  let d := addChunk chunk d in
  serviceUpdates (8 * length (rest (br_reader (qd_reader d))) + 65) d.

(** [dec.qpack.ReadHeaderBlock(reader, stream)] on the bytes of a chunk. *)
Definition readHeaders (chunk : list Z) (stream : Z) : go (decoding bytesReader) (list HeaderField) := λ d,
  let '(o, d') := QpackDecoder.ReadHeaderBlock (8 * length chunk + 1) stream
    (Decoding (qd_table d) (NewBitReader (MkBytesReader chunk)) (qd_sent d)) in
  (o, Decoding (qd_table d') (qd_reader d) (qd_sent d')).

Section decode.
Context {R W : Type} `{IoReader R} `{IoWriter W}.

Definition on_chunks {A} (m : go (bitReader R) A) : go (decoder R W) A :=
  zoom de_input (λ r s, MkDecoder r (de_output s) (de_qpack s)) m.
Definition on_text {A} (m : go W A) : go (decoder R W) A :=
  zoom de_output (λ w s, MkDecoder (de_input s) w (de_qpack s)) m.
Definition on_decoder {A} (m : go (decoding bytesReader) A) : go (decoder R W) A :=
  zoom de_qpack (λ q s, MkDecoder (de_input s) (de_output s) q) m.

(** [NewQpackDecoder(&devnull, 4096)]. *)
Definition newDecoder (input : R) (output : W) : decoder R W :=
  MkDecoder (NewBitReader input) output (Decoding (NewQpackDecoderTable 4096) (NewBitReader (MkBytesReader [])) []).

(** [io.Copy(&blockBytes, reader)] of the limited reader that [readBlock] makes.
    [bytes.Buffer] reads with room for 512 bytes or more. *)
Definition copyLimited (fuel : nat) (N : Z) : go (bitReader R) (list Z) := λ br,
  let '(o, l) := Drain (R := LimitedReader (bitReader R)) fuel 512 [] (MkLimitedReader br N) in
  (match o with
   | Ok (bs, None) => Ok bs
   | Ok (_, Some e) => Err e
   | Err e => Err e
   | Panic => Panic
   | NoFuel => NoFuel
   end, lim_R l).

(** [readBlock] and the copy: [None] at the end of the file. *)
Definition readChunk (fuel : nat) : go (bitReader R) (option (Z * list Z)) :=
  r ← catch (ReadBits 64);
  match r with
  | inr EOF => mret None
  | inr err => fail err
  | inl stream =>
      length ← ReadBits 32;
      chunk ← copyLimited fuel length;
      mret (Some (stream, chunk))
  end.

Definition fieldText (h : HeaderField) : list Z :=
  bytes_of_string (h_Name h) ++ [tab] ++ bytes_of_string (h_Value h) ++ [lineFeed].

(** [writeBlock]: the error of the last write is dropped. *)
Fixpoint writeText (block : list HeaderField) : go W unit :=
  match block with
  | [] => '(_, _) ← io_Write [lineFeed]; mret tt
  | h :: block' =>
      '(_, err) ← io_Write (fieldText h);
      match err with
      | Some err => fail err
      | None => writeText block'
      end
  end.

(** One round a chunk. *)
Fixpoint Decode (fuel : nat) : go (decoder R W) unit :=
  match fuel with
  | O => nofuel
  | S fuel' =>
      r ← on_chunks (readChunk fuel);
      match r with
      | None => mret tt
      | Some (stream, chunk) =>
          (if stream =? 0 then on_decoder (AddUpdates chunk) else
           headers ← on_decoder (readHeaders chunk stream);
           on_text (writeText headers));;
          Decode fuel'
      end
  end.
End decode.
