(* ===== verification/QifSpec.v ===== *)
(** * The QPACK interop tool: its text

    What the parser reads of a text and what the decoder prints, for every kind of
    line ending. *)

From S2P Require Import Prelude Bits GoIo BitWriter BitReader Streams HcInt HuffmanTable Huffman HcString StaticTable Table Codec QpackTable QpackEncoder QpackDecoder Headers Qif.

(** ** Texts *)

Definition ends_line (b : Z) : bool := (b =? carriageReturn) || (b =? lineFeed).

Definition plain_line (line : list Z) : Prop := Forall (λ b, ends_line b = false) line.

(** The line endings. *)
Definition line_end (nl : list Z) : Prop := nl = [lineFeed] ∨ nl = [carriageReturn; lineFeed] ∨ nl = [carriageReturn].

Definition field_line (h : HeaderField) : list Z :=
  bytes_of_string (h_Name h) ++ tab :: bytes_of_string (h_Value h).

Definition block_text (nl : list Z) (block : list HeaderField) : list Z :=
  mjoin ((λ h, field_line h ++ nl) <$> block) ++ nl.

Definition qif_text (nl : list Z) (blocks : list (list HeaderField)) : list Z :=
  mjoin (block_text nl <$> blocks).

(** A block with the comments in front of each field, and a text of such blocks. *)
Definition source : Type := list (list (list Z) * HeaderField).

Definition comment_lines (nl : list Z) (cs : list (list Z)) : list Z := mjoin ((λ c, c ++ nl) <$> cs).

Definition source_fields (nl : list Z) (src : source) : list Z :=
  mjoin ((λ x, comment_lines nl x.1 ++ field_line x.2 ++ nl) <$> src).

Definition qif_source (nl : list Z) (srcs : list source) : list Z :=
  mjoin ((λ src, source_fields nl src ++ nl) <$> srcs).

Definition fields (srcs : list source) : list (list HeaderField) := (λ src : source, src.*2) <$> srcs.

(** Fields that a line can hold: the name has no tab, the line no end of line, and it
    is no comment. *)
Definition printable (h : HeaderField) : Prop :=
  (tab ∉ bytes_of_string (h_Name h)) ∧ plain_line (field_line h) ∧
  (head (bytes_of_string (h_Name h)) ≠ Some numberSign).

Definition comment (c : list Z) : Prop := plain_line c ∧ head c = Some numberSign.

Definition source_ok (src : source) : Prop := Forall (λ x, Forall comment x.1 ∧ printable x.2) src.

(** A field as the parser gives it: nothing in a text is sensitive. *)
Definition plain (h : HeaderField) : HeaderField := MkHeaderField (h_Name h) (h_Value h) false.

(** ** What is left to read *)

(** The text after a carriage return. *)
Definition skip_lf (eol : bool) (l : list Z) : list Z :=
  match l with b :: l' => if eol && (b =? lineFeed) then l' else l | [] => [] end.

Section parse.
Context {R : Type} `{IoReaderSpec R}.

Definition unread (qr : Reader R) (l : list Z) : Prop := rd_wf (qr_r qr) ∧ skip_lf (qr_eol qr) (content (qr_r qr)) = l.

Lemma reallyReadByte_spec (qr : Reader R) : rd_wf (qr_r qr) → ∃ r', rd_wf r' ∧
  match content (qr_r qr) with
  | [] => reallyReadByte qr = (Err EOF, MkReader r' (qr_eol qr)) ∧ content r' = []
  | b :: l => reallyReadByte qr = (Ok b, MkReader r' (qr_eol qr)) ∧ content r' = l
  end.
Proof.
  intros Hwf. unfold reallyReadByte. destruct io_ReadByte as [f|] eqn:Hf.
  - destruct (ReadByte_spec f (qr_r qr) Hf Hwf) as (r' & Hwf' & _ & Hr). exists r'. split; [done|].
    unfold on_r, zoom. destruct (content (qr_r qr)); destruct Hr as [-> ?]; by split.
  - destruct (Read_spec 1 (qr_r qr) Hwf ltac:(lia)) as (bs & e & r' & Hr & Hwf' & Hc & _ & Hlen & He).
    exists r'. split; [done|]. rewrite bind_unfold. unfold on_r, zoom. rewrite Hr.
    destruct He as [[-> Hbs]|(-> & Hnil & Hlt)].
    + destruct bs as [|b [|]]; [done| |zlen_simpl; pose proof (zlen_nonneg l); lia]. rewrite Hc. by split.
    + assert (bs = []) as -> by (apply zlen_0; pose proof (zlen_nonneg bs); lia). by rewrite Hc, Hnil.
Qed.

Lemma readByte_end qr : unread qr [] → ∃ qr', readByte qr = (Err EOF, qr') ∧ unread qr' [].
Proof.
  intros [Hwf Hl]. unfold readByte. rewrite bind_unfold. cbn [getS]. rewrite bind_unfold. unfold catch. rewrite bind_unfold.
  destruct (reallyReadByte_spec qr Hwf) as (r1 & Hwf1 & Hr). destruct (content (qr_r qr)) as [|b l].
  { destruct Hr as [-> Hc]. eexists. split; [done|]. split; [done|]. cbn. by rewrite Hc. }
  destruct Hr as [-> Hc]. cbn in Hl. destruct (qr_eol qr && (b =? lineFeed)); [|done]. subst.
  destruct (reallyReadByte_spec (MkReader r1 (qr_eol qr)) Hwf1) as (r2 & Hwf2 & Hr). cbn [qr_r] in Hr. rewrite Hc in Hr.
  destruct Hr as [-> Hc2]. eexists. split; [done|]. split; [done|]. cbn. by rewrite Hc2.
Qed.

Lemma readByte_next qr b l : unread qr (b :: l) →
  ∃ qr', readByte qr = (Ok b, qr') ∧ unread qr' (skip_lf (b =? carriageReturn) l).
Proof.
  intros [Hwf Hl]. unfold readByte. rewrite bind_unfold. cbn [getS]. rewrite bind_unfold. unfold catch. rewrite bind_unfold.
  destruct (reallyReadByte_spec qr Hwf) as (r1 & Hwf1 & Hr). destruct (content (qr_r qr)) as [|b0 l0]; [done|].
  destruct Hr as [-> Hc]. cbn in Hl. destruct (qr_eol qr && (b0 =? lineFeed)).
  - subst l0. destruct (reallyReadByte_spec (MkReader r1 (qr_eol qr)) Hwf1) as (r2 & Hwf2 & Hr). cbn [qr_r] in Hr.
    rewrite Hc in Hr. destruct Hr as [-> Hc2]. eexists. split; [done|]. split; [done|]. cbn. by rewrite Hc2.
  - injection Hl as -> ->. eexists. split; [done|]. split; [done|]. cbn. by rewrite Hc.
Qed.

(** ** Lines *)

(** The end of a line, when what follows does not begin with a line feed after a lone
    carriage return. *)
Definition separated (nl l : list Z) : Prop := nl = [carriageReturn] → (head l ≠ Some lineFeed).

Lemma readByte_line_end qr nl l : line_end nl → separated nl l → unread qr (nl ++ l) →
  ∃ b qr', readByte qr = (Ok b, qr') ∧ ends_line b = true ∧ unread qr' l.
Proof.
  intros [->|[->| ->]] Hsep Hl; destruct (readByte_next _ _ _ Hl) as (qr' & Hr & Hl'); eexists _, qr'; (split; [exact Hr|]);
    (split; [done|]).
  - by destruct l.
  - exact Hl'.
  - revert Hl'. destruct l as [|b l]; [done|]. cbn. destruct (Z.eqb_spec b lineFeed) as [->|]; [|done].
    exfalso. by apply Hsep.
Qed.

Lemma readLine_loop qr line nl l buf fuel : Forall (λ b, ends_line b = false) line → line_end nl → separated nl l →
  unread qr (line ++ nl ++ l) → (length line < fuel)%nat →
  ∃ qr', readLine fuel buf qr = (Ok (buf ++ line), qr') ∧ unread qr' l.
Proof.
  intros Hline Hnl Hsep. revert qr buf fuel. induction Hline as [|b line Hb Hline IH]; intros qr buf fuel Hl Hf;
    (destruct fuel as [|fuel]; [cbn [length] in Hf; lia|]); cbn [readLine].
  - destruct (readByte_line_end qr nl l Hnl Hsep Hl) as (b & qr' & Hr & Hb & Hl'). exists qr'.
    rewrite (bind_Ok _ _ _ _ _ Hr). unfold ends_line in Hb. by rewrite Hb, app_nil_r.
  - destruct (readByte_next qr b _ Hl) as (qr1 & Hr & Hl1). rewrite (bind_Ok _ _ _ _ _ Hr).
    unfold ends_line in Hb. rewrite Hb. apply orb_false_elim in Hb as [Hcr _]. rewrite Hcr in Hl1.
    destruct (IH qr1 (buf ++ [b]) fuel) as (qr2 & Hrun & Hl2); [|cbn [length] in Hf; lia|].
    { change (unread qr1 (skip_lf false (line ++ nl ++ l))) in Hl1. by destruct (line ++ nl ++ l). }
    exists qr2. by rewrite Hrun, <- (assoc_L (++)).
Qed.

Lemma readLine_end qr fuel : unread qr [] → (0 < fuel)%nat → ∃ qr', readLine fuel [] qr = (Err EOF, qr') ∧ unread qr' [].
Proof.
  intros Hl Hf. destruct fuel; [lia|]. cbn [readLine]. destruct (readByte_end qr Hl) as (qr' & Hr & Hl').
  exists qr'. by rewrite (bind_Err _ _ _ _ _ Hr).
Qed.

Lemma readLine_unterminated qr line buf fuel : plain_line line → unread qr line → (length line < fuel)%nat →
  ∃ qr', readLine fuel buf qr = (Err EOF, qr').
Proof.
  intros Hline. revert qr buf fuel. induction Hline as [|b line Hb Hline IH]; intros qr buf fuel Hl Hf;
    (destruct fuel as [|fuel]; [cbn [length] in Hf; lia|]); cbn [readLine].
  - destruct (readByte_end qr Hl) as (qr1 & Hr & _). exists qr1. by rewrite (bind_Err _ _ _ _ _ Hr).
  - destruct (readByte_next qr b _ Hl) as (qr1 & Hr & Hl1). rewrite (bind_Ok _ _ _ _ _ Hr).
    unfold ends_line in Hb. rewrite Hb. apply orb_false_elim in Hb as [Hcr _]. rewrite Hcr in Hl1.
    apply IH; [|cbn [length] in Hf; lia]. change (unread qr1 (skip_lf false line)) in Hl1. by destruct line.
Qed.

(** ** Fields and blocks *)

Lemma splitTab_field n v : tab ∉ n → splitTab (n ++ tab :: v) = (n, Some v).
Proof.
  induction n as [|b n IH]; [done|]. intros [Hb Hn]%not_elem_of_cons. cbn.
  rewrite (proj2 (Z.eqb_neq _ _)) by done. by rewrite IH.
Qed.

(** ** Comments, and lines that are no fields *)

Lemma separated_nl nl l : line_end nl → separated nl (nl ++ l).
Proof. by intros _ ->. Qed.

Lemma separated_line nl line l : plain_line line → separated nl (line ++ nl ++ l).
Proof. intros Hl ->. destruct Hl as [|b line Hb _]; [done|]. cbn. intros [= ->]. done. Qed.

Lemma comment_lines_cons nl c cs l : comment_lines nl (c :: cs) ++ l = c ++ nl ++ comment_lines nl cs ++ l.
Proof. unfold comment_lines. cbn [fmap list_fmap mjoin list_join]. by rewrite <- !(assoc_L (++)). Qed.

Lemma separated_comments nl cs line l : Forall comment cs → plain_line line →
  separated nl (comment_lines nl cs ++ line ++ nl ++ l).
Proof.
  intros Hcs Hline. destruct Hcs as [|c cs [Hc _] _]; [change (separated nl (line ++ nl ++ l)); by apply separated_line|].
  rewrite comment_lines_cons. by apply separated_line.
Qed.

(** After a comment the parser goes to the first line that is none, which must not be
    empty. *)
Lemma skipComments_spec qr c cs line nl l fuel : comment c → Forall comment cs → plain_line line →
  (head line ≠ Some numberSign) → line_end nl → separated nl l → unread qr (comment_lines nl cs ++ line ++ nl ++ l) →
  (length (comment_lines nl cs ++ line) < fuel)%nat →
  ∃ qr', unread qr' l ∧ skipComments fuel c qr = (match line with [] => Panic | _ => Ok line end, qr').
Proof.
  intros Hc Hcs Hline Hno Hnl Hsep. revert c Hc qr fuel. induction Hcs as [|c' cs Hc' Hcs IH]; intros c [_ Hc] qr fuel Hl Hf;
    (destruct c as [|b c]; [done|]); injection Hc as ->; (destruct fuel as [|fuel]; [lia|]); cbn [skipComments]; rewrite Z.eqb_refl.
  - destruct (readLine_loop qr line nl l [] (S fuel) Hline Hnl Hsep Hl ltac:(done)) as (qr1 & Hr & Hl1).
    exists qr1. split; [done|]. rewrite (bind_Ok _ _ _ _ _ Hr). cbn [app]. destruct line as [|b' line]; [by destruct fuel|].
    destruct fuel; cbn [skipComments]; rewrite (proj2 (Z.eqb_neq _ _)) by (intros ->; by apply Hno); done.
  - rewrite comment_lines_cons in Hl, Hf. rewrite !length_app in Hf.
    assert (0 < length nl)%nat as Hpos by (destruct Hnl as [->|[->| ->]]; cbn; lia).
    destruct (readLine_loop qr c' nl _ [] (S fuel) (proj1 Hc') Hnl (separated_comments nl cs line l Hcs Hline) Hl ltac:(lia))
      as (qr1 & Hr & Hl1).
    rewrite (bind_Ok _ _ _ _ _ Hr). apply IH; [done|done|]. rewrite length_app. lia.
Qed.

Lemma splitTab_none line : tab ∉ line → splitTab line = (line, None).
Proof.
  induction line as [|b line IH]; [done|]. intros [Hb Hn]%not_elem_of_cons. cbn.
  rewrite (proj2 (Z.eqb_neq _ _)) by done. by rewrite IH.
Qed.

(** A line after comments. *)
Lemma readHeaderField_line qr cs line nl l fuel : Forall comment cs → plain_line line → (head line ≠ Some numberSign) →
  line_end nl → separated nl l → unread qr (comment_lines nl cs ++ line ++ nl ++ l) →
  (length (comment_lines nl cs ++ line) < fuel)%nat →
  ∃ qr', unread qr' l ∧ readHeaderField fuel qr =
    (match line, splitTab line with
     | [], _ => match cs with [] => Ok None | _ => Panic end
     | _, (n, Some v) => Ok (Some (MkHeaderField (string_of_bytes n) (string_of_bytes v) false))
     | _, (_, None) => Panic
     end, qr').
Proof.
  intros Hcs Hline Hno Hnl Hsep Hl Hf. unfold readHeaderField. destruct Hcs as [|c cs Hc Hcs].
  - destruct (readLine_loop qr line nl l [] fuel Hline Hnl Hsep Hl ltac:(done)) as (qr1 & Hr & Hl1).
    exists qr1. split; [done|]. rewrite (bind_Ok _ _ _ _ _ Hr). cbn [app]. destruct line as [|b line]; [done|].
    rewrite (bind_Ok _ _ _ (b :: line) qr1).
    + by destruct (splitTab (b :: line)) as [n [v|]].
    + destruct fuel; cbn [skipComments]; rewrite (proj2 (Z.eqb_neq _ _)) by (intros ->; by apply Hno); done.
  - rewrite comment_lines_cons in Hl, Hf. rewrite !length_app in Hf.
    destruct (readLine_loop qr c nl _ [] fuel (proj1 Hc) Hnl (separated_comments nl cs line l Hcs Hline) Hl ltac:(lia))
      as (qr1 & Hr & Hl1).
    destruct (skipComments_spec qr1 c cs line nl l fuel Hc Hcs Hline Hno Hnl Hsep Hl1) as (qr2 & Hl2 & Hs);
      [rewrite length_app; lia|].
    exists qr2. split; [done|]. rewrite (bind_Ok _ _ _ _ _ Hr). cbn [app]. destruct c as [|b c]; [by destruct Hc|].
    rewrite bind_unfold, Hs. destruct line as [|b' line]; [done|]. by destruct (splitTab (b' :: line)) as [n [v|]].
Qed.
(** ** Blocks *)

Lemma line_end_pos nl : line_end nl → (0 < length nl)%nat.
Proof. intros [->|[->| ->]]; cbn; lia. Qed.

Lemma field_line_plain h : printable h → plain_line (field_line h) ∧ (head (field_line h) ≠ Some numberSign) ∧
  field_line h ≠ [] ∧ splitTab (field_line h) = (bytes_of_string (h_Name h), Some (bytes_of_string (h_Value h))).
Proof.
  intros (Htab & Hline & Hcomment). split_and!; [done| | |by apply splitTab_field].
  - unfold field_line. by destruct (bytes_of_string (h_Name h)).
  - by intros [_ ?]%app_eq_nil.
Qed.

Lemma readHeaderField_field qr cs h nl l fuel : Forall comment cs → printable h → line_end nl → separated nl l →
  unread qr (comment_lines nl cs ++ field_line h ++ nl ++ l) → (length (comment_lines nl cs ++ field_line h) < fuel)%nat →
  ∃ qr', readHeaderField fuel qr = (Ok (Some (plain h)), qr') ∧ unread qr' l.
Proof.
  intros Hcs Hh Hnl Hsep Hl Hf. destruct (field_line_plain h Hh) as (Hline & Hno & Hne & Hsplit).
  destruct (readHeaderField_line qr cs (field_line h) nl l fuel) as (qr' & Hl' & Hr); [done..|].
  exists qr'. split; [|done]. rewrite Hr. destruct (field_line h); [done|].
  by rewrite Hsplit, !string_of_bytes_of_string.
Qed.

Lemma source_fields_cons nl cs h src l :
  source_fields nl ((cs, h) :: src) ++ l = comment_lines nl cs ++ field_line h ++ nl ++ source_fields nl src ++ l.
Proof. unfold source_fields. cbn [fmap list_fmap mjoin list_join fst snd]. by rewrite <- !(assoc_L (++)). Qed.

Lemma separated_fields nl src tail : source_ok src → separated nl tail → separated nl (source_fields nl src ++ tail).
Proof.
  intros Hsrc Htail. destruct Hsrc as [|[cs h] src [Hcs Hh] _]; [done|].
  rewrite source_fields_cons. apply separated_comments; [done|by apply field_line_plain].
Qed.

(** The loop goes over the fields and comes to the line after them. *)
Lemma ReadHeaderBlock_fields qr src tail done nl fuel : source_ok src → separated nl tail →
  line_end nl → unread qr (source_fields nl src ++ tail) → (length (source_fields nl src) < fuel)%nat →
  ∃ qr' fuel', (fuel ≤ length (source_fields nl src) + fuel')%nat ∧ unread qr' tail ∧
    ReadHeaderBlock_loop fuel done qr = ReadHeaderBlock_loop fuel' (done ++ (plain <$> src.*2)) qr'.
Proof.
  intros Hsrc Htail Hnl. pose proof (line_end_pos nl Hnl) as Hpos.
  revert qr done fuel. induction Hsrc as [|[cs' h] src [Hcs' Hh] Hsrc IH]; intros qr done fuel Hl Hf.
  - exists qr, fuel. split_and!; [lia|exact Hl|by rewrite app_nil_r].
  - rewrite source_fields_cons in Hl. rewrite <- (app_nil_r (source_fields nl ((cs', h) :: src))) in *.
    rewrite source_fields_cons, app_nil_r in *. rewrite !length_app in *. destruct fuel as [|fuel]; [lia|]. cbn [ReadHeaderBlock_loop].
    destruct (readHeaderField_field qr cs' h nl _ (S fuel) Hcs' Hh Hnl (separated_fields nl src tail Hsrc Htail) Hl)
      as (qr1 & Hr & Hl1); [rewrite length_app; lia|].
    rewrite (bind_Ok _ _ _ _ _ Hr). destruct (IH qr1 (done ++ [plain h]) fuel Hl1) as (qr2 & fuel' & Hf' & Hl2 & ->); [lia|].
    exists qr2, fuel'. split_and!; [lia|done|]. cbn [fmap list_fmap snd]. by rewrite <- (assoc_L (++)).
Qed.

Lemma ReadHeaderBlock_block qr src nl l fuel : source_ok src → line_end nl → separated nl l →
  unread qr ((source_fields nl src ++ nl) ++ l) → (length (source_fields nl src ++ nl) < fuel)%nat →
  ∃ qr', ReadHeaderBlock fuel qr = (Ok (plain <$> src.*2), qr') ∧ unread qr' l.
Proof.
  intros Hsrc Hnl Hsep Hl Hf. rewrite length_app in Hf. rewrite <- (assoc_L (++)) in Hl.
  destruct (ReadHeaderBlock_fields qr src (nl ++ l) [] nl fuel) as (qr1 & fuel' & Hf' & Hl1 & Hr);
    [done|by apply separated_nl|done|done|lia|].
  pose proof (line_end_pos nl Hnl). destruct fuel' as [|fuel']; [lia|].
  destruct (readHeaderField_line qr1 [] [] nl l (S fuel')) as (qr2 & Hl2 & Hr2); [done|constructor|done|done|done|done|cbn; lia|].
  exists qr2. split; [|done]. unfold ReadHeaderBlock. rewrite Hr. cbn [ReadHeaderBlock_loop]. by rewrite (bind_Ok _ _ _ _ _ Hr2).
Qed.

Lemma separated_source nl srcs : line_end nl → Forall source_ok srcs → separated nl (qif_source nl srcs).
Proof.
  intros Hnl. destruct 1 as [|src srcs Hsrc _]; [done|]. unfold qif_source. cbn [fmap list_fmap mjoin list_join].
  rewrite <- (assoc_L (++)). by apply separated_fields, separated_nl.
Qed.

Lemma qif_source_cons nl src srcs : qif_source nl (src :: srcs) = (source_fields nl src ++ nl) ++ qif_source nl srcs.
Proof. done. Qed.

Lemma block_text_cons nl h block : block_text nl (h :: block) = field_line h ++ nl ++ block_text nl block.
Proof. unfold block_text. cbn [fmap list_fmap mjoin list_join]. by rewrite <- !(assoc_L (++)). Qed.

Lemma qif_text_cons nl block blocks : qif_text nl (block :: blocks) = block_text nl block ++ qif_text nl blocks.
Proof. done. Qed.

Lemma ReadHeaderBlock_end qr fuel : unread qr [] → (0 < fuel)%nat →
  ∃ qr', ReadHeaderBlock fuel qr = (Err EOF, qr') ∧ unread qr' [].
Proof.
  intros Hl Hf. unfold ReadHeaderBlock. destruct fuel as [|fuel]; [lia|]. cbn [ReadHeaderBlock_loop].
  destruct (readLine_end qr (S fuel) Hl Hf) as (qr' & Hr & Hl'). exists qr'. split; [|done].
  apply bind_Err. unfold readHeaderField. by rewrite (bind_Err _ _ _ _ _ Hr).
Qed.

End parse.
