(* ===== verification/QifStream.v ===== *)
(** * The QPACK interop tool: its chunks

    The encoder writes a file of chunks and the decoder reads it: what the chunks of a
    block are, and that the decoder gets the block from them. *)

From S2P Require Import Prelude Bits GoIo BitWriter BitReader Streams HcInt HuffmanTable Huffman HcString StaticTable Table Codec QpackTable QpackEncoder QpackDecoder QpackTableSpec QpackUsageSpec QpackDecoderSpec QpackEncoderSpec QpackReach QpackLink QpackSizes Headers Qif QifSpec.

(** ** Chunks *)

Definition chunk : Type := Z * list Z.

Definition chunk_bits (c : chunk) : list bool := zbits 64 c.1 ++ zbits 32 (zlen c.2) ++ bits_of_bytes c.2.

Definition chunks_bits (cs : list chunk) : list bool := mjoin (chunk_bits <$> cs).

Lemma zlen_chunks_bits cs : ∃ k, zlen (chunks_bits cs) = 8 * k.
Proof.
  apply zlen_mjoin. intros [id p]. unfold chunk_bits. exists (12 + zlen p). cbn [fst snd]. zlen_simpl.
  lia.
Qed.

Definition chunk_ok (c : chunk) : Prop := is_u64 c.1 ∧ zlen c.2 < 2 ^ 32 ∧ Forall is_byte c.2.

Section write.
Context {R W : Type} `{IoReader R} `{IoWriterSpec W} `{!IoWriterTotal W} (lower : string → string).

(** The encoder beside its output. *)
Definition en_at (s : encoder R W) (w : bitWriter W) : encoder R W :=
  MkEncoder (en_input s) w (en_acknowledge s) (en_stream s) (en_updateStream s) (en_qpack s).

#[local] Abbreviation ewrites := (swrites en_at).

Lemma chunk_writes_on {A} (m : go (bitWriter W) A) a bits s : writes m a bits → ewrites (on_output m) s bits a s.
Proof. by apply swrites_zoom. Qed.

(** An empty buffer makes no chunk. *)
Definition chunk_of (id : Z) (p : list Z) : list chunk := match p with [] => [] | _ => [(id, p)] end.

Lemma writeBlock_writes id p s : chunk_ok (id, p) →
  ewrites (writeBlock id p) s (chunks_bits (chunk_of id p)) [] s.
Proof.
  intros (Hid & Hlen & Hp). cbn [fst snd] in *. unfold writeBlock. pose proof (zlen_nonneg p) as Hn.
  destruct p as [|b p]; [apply swrites_ret|].
  rewrite (proj2 (Z.leb_gt _ _)) by (rewrite zlen_cons; pose proof (zlen_nonneg p); lia).
  set (q := b :: p) in *. change (chunk_of id q) with [(id, q)]. unfold chunks_bits. cbn [fmap list_fmap mjoin list_join].
  rewrite app_nil_r. unfold chunk_bits. cbn [fst snd].
  eapply swrites_bind; [by apply chunk_writes_on, WriteBits_writes|].
  rewrite (u64_small (zlen q)) by lia.
  eapply swrites_bind; [by apply chunk_writes_on, WriteBits_writes|].
  eapply swrites_bind_r; [by apply chunk_writes_on, CopyBytes_writes|]. cbv beta iota.
  rewrite (zdrop_all (zlen q) q) by lia. rewrite zlen_nil, (proj2 (Z.ltb_ge _ _)) by lia. apply swrites_ret.
Qed.
End write.

Section read.
Context {R : Type} `{IoReaderSpec R}.

Lemma copyLimited_reads fuel p : Forall is_byte p → (length p < fuel)%nat →
  reads (R := R) (copyLimited fuel (zlen p)) p (bits_of_bytes p).
Proof.
  intros Hp Hf br l Hwf Hl. unfold copyLimited.
  assert (ztake (zlen p) (bytes_of_bits (rbits br)) = p) as Htake
    by (rewrite Hl, bytes_of_bits_of_bytes by done; by apply ztake_app).
  destruct (Drain_spec (H0 := LimitedReader_spec br (zlen p)) fuel 512 [] (MkLimitedReader br (zlen p))
    (limited_init br (zlen p) Hwf)) as (lim & Hr & Hlim & Hnil & _); [lia|cbn; by rewrite Htake|].
  cbn [content LimitedReader_spec bitReader_spec lim_N lim_R] in Hr. rewrite Htake in Hr. rewrite Hr.
  destruct (limited_bits br (zlen p) lim Hlim) as (Hwf' & pre & Hbits & Hpre).
  rewrite Hnil, app_nil_r, Htake in Hpre. subst pre. exists (lim_R lim). split_and!; [done|done|].
  rewrite Hl in Hbits. by apply app_inv_head in Hbits.
Qed.

Lemma readChunk_reads fuel c : chunk_ok c → (length c.2 < fuel)%nat →
  reads (R := R) (readChunk fuel) (Some c) (chunk_bits c).
Proof.
  destruct c as [id p]. intros (Hid & Hlen & Hp) Hf. cbn [fst snd] in *. unfold chunk_bits. cbn [fst snd].
  pose proof (zlen_nonneg p).   assert (reads (R := R) (length ← ReadBits 32; p' ← copyLimited fuel length; mret (Some (id, p')))
    (Some (id, p)) (zbits 32 (zlen p) ++ bits_of_bytes p)) as Hrest.
  { eapply reads_bind; [by apply ReadBits_reads|]. rewrite <- (app_nil_r (bits_of_bytes p)).
    eapply reads_bind; [by apply copyLimited_reads|apply reads_ret]. }
  intros br l Hwf Hl. rewrite <- (assoc_L (++)) in Hl.
  destruct (ReadBits_reads 64 id ltac:(lia) Hid br _ Hwf Hl) as (br1 & Hr1 & Hwf1 & Hl1).
  unfold readChunk. rewrite bind_unfold. unfold catch. rewrite Hr1. by apply Hrest.
Qed.

Lemma readChunk_end fuel (br : bitReader R) : br_wf br → rbits br = [] →
  ∃ br', readChunk fuel br = (Ok None, br') ∧ br_wf br' ∧ rbits br' = [].
Proof.
  intros Hwf Hl. destruct (ReadBits_eof 64 br Hwf) as (br' & Hr & Hwf' & Hl'); [lia|by rewrite Hl|].
  exists br'. unfold readChunk. rewrite bind_unfold. unfold catch. rewrite Hr, Hl' in *. done.
Qed.
End read.

(** ** What an encoder sends *)

(** The table updates [updates] and the header block [header] of the fields [hs]: from
    the table [t], they lead to the table [t'] and are decoded there to [hs]. *)
Record block_sent (pref : HuffmanCodingChoice) (t : qpackTableCommon) (hs : list HeaderField)
    (t' : qpackTableCommon) (updates header : list Z) : Prop := {
  bs_updates : ∃ us evs, bits_of_bytes updates = updates_bits pref us ∧ Forall (update_ok pref) us ∧
    Forall (update_short (2 ^ 16)) us ∧ updates_apply t us = Ok (t', evs) ∧ tbase t + zlen us < intMax;
  bs_header : ∃ raw ls largest, bits_of_bytes header = block_bits pref raw false 0 ls ∧
    Forall (line_ok pref) ls ∧ Forall backward ls ∧ is_u64 raw ∧ 0 ≤ largest ≤ tbase t' ∧
    encodeLargestReference (capacity t') largest = Ok raw ∧ decodeLargestBase t' raw = Ok largest ∧
    mapM (line_value t' largest) ls = Some hs;
  bs_bytes : Forall is_byte updates ∧ Forall is_byte header;
  bs_short : zlen updates < 2 ^ 32 ∧ zlen header < 2 ^ 32;
  bs_tables : table_wf t ∧ table_wf t' ∧ capacity t' = capacity t ∧ tbase t ≤ tbase t' < 2 ^ 60;
}.

(** The chunks of a block. *)
Definition block_chunks (id : Z) (updates header : list Z) : list chunk := chunk_of 0 updates ++ [(id, header)].

(** The chunks of a list of blocks, after the stream [id]. *)
Inductive sent (pref : HuffmanCodingChoice) : qpackTableCommon → Z → list (list HeaderField) → list chunk →
  qpackTableCommon → Prop :=
| sent_nil t id : sent pref t id [] [] t
| sent_cons t id hs t1 updates header blocks cs t2 :
    block_sent pref t hs t1 updates header → id + 1 < 2 ^ 64 → sent pref t1 (id + 1) blocks cs t2 →
    sent pref t id (hs :: blocks) (block_chunks (id + 1) updates header ++ cs) t2.

Lemma header_nonempty pref raw ls p : bits_of_bytes p = block_bits pref raw false 0 ls → p ≠ [].
Proof.
  intros Hbits ->. apply (f_equal zlen) in Hbits. unfold block_bits in Hbits. cbn [bits_of_bytes] in Hbits.
  zlen_simpl. pose proof (zlen_nonneg (int_bits 8 raw)). pose proof (zlen_nonneg (int_bits 7 0)).
  pose proof (zlen_nonneg (mjoin (line_bits pref <$> ls))). lia.
Qed.

Section encode.
Context {R W : Type} `{IoReaderSpec R} `{IoWriterSpec W} `{!IoWriterTotal W} (lower : string → string).

#[local] Abbreviation ewrites := (swrites (en_at (R := R) (W := W))).

(** The fields of a block with their names in lower case. *)
Definition lower_block (block : list HeaderField) : list HeaderField := ws_headers (initHeaders lower block).

(** Between two blocks. *)
Record en_ok (s : encoder R W) : Prop := {
  ek_qpack : enc_inv (en_qpack s);
  ek_updates : at_byte (en_updateStream s);
  ek_empty : buf_bytes (bw_writer (en_updateStream s)) = [];
  ek_stream : 0 ≤ en_stream s;
}.

(** The names that the block [id] refers to are in the table when it is written. *)
Definition block_live (id : Z) (block : list HeaderField) (e : QpackEncoder) : bool :=
  match writeTableChanges id (Changing e (NewBitWriter (MkBuffer [])) (initHeaders lower block)) with
  | (Ok _, s) => names_live (qe_common_table (ch_encoder s)) (ch_state s)
  | _ => false
  end.

(** The run that the definition looks at is any run. *)
Lemma block_live_run id block e (w : bitWriter Buffer) s : enc_ok e → qe_base e + zlen block ≤ 2 ^ 60 →
  Forall (field_ok (enc_pref e)) (lower_block block) → bw_ok w →
  writeTableChanges id (Changing e w (initHeaders lower block)) = (Ok tt, s) →
  block_live id block e = names_live (qe_common_table (ch_encoder s)) (ch_state s).
Proof.
  intros Hok Hb Hf Hw Hrun.
  destruct (writeTableChanges_writes (W := Buffer) lower id block e Hok Hb Hf) as (us & e1 & st1 & Hcw & _).
  destruct (Hcw w Hw) as (w1 & Hr & _). unfold chg in Hr. cbn [fst snd] in Hr. rewrite Hrun in Hr. injection Hr as ->.
  destruct (Hcw (NewBitWriter (MkBuffer []))) as (w2 & Hr & _); [split; [done|constructor]|].
  unfold chg in Hr. cbn [fst snd] in Hr. unfold block_live. by rewrite Hr.
Qed.

Lemma block_live_unacked id block e : enc_ok e → qe_base e + zlen block ≤ 2 ^ 60 →
  Forall (field_ok (enc_pref e)) (lower_block block) → highestAcknowledged e = 0 → block_live id block e = true.
Proof.
  intros Hok Hb Hf Hack.
  destruct (writeTableChanges_writes (W := Buffer) lower id block e Hok Hb Hf) as (us & e1 & st1 & Hcw & Hp).
  destruct (Hcw (NewBitWriter (MkBuffer []))) as (w2 & Hr & _); [split; [done|constructor]|].
  unfold chg in Hr. cbn [fst snd] in Hr. unfold block_live. rewrite Hr. cbn [ch_encoder ch_state].
  apply unacked_live; [apply enc_table_wf, Hp|apply Hp|].
  pose proof (eo_held _ (pp_enc _ _ _ _ _ Hp)) as Hheld. unfold unacked in Hheld.
  rewrite (pp_acked _ _ _ _ _ Hp), Hack in Hheld. change (tbase (qe_common_table e1)) with (qe_base e1).
  change (dynamic (qe_common_table e1)) with (qe_dynamic e1). lia.
Qed.

(** The encoder after the block [id], acknowledged or not, and whether every block of
    a file finds its names. *)
Definition next_qpack (acknowledge : bool) (id : Z) (block : list HeaderField) (e : QpackEncoder) : QpackEncoder :=
  let q := (WriteHeaderBlock lower id block (e, NewBitWriter (MkBuffer []), MkBuffer [])).2.1.1 in
  if acknowledge then (AcknowledgeHeader id q).2 else q.

Fixpoint blocks_live (acknowledge : bool) (id : Z) (blocks : list (list HeaderField)) (e : QpackEncoder) : bool :=
  match blocks with
  | [] => true
  | block :: blocks' =>
      block_live (id + 1) block e && blocks_live acknowledge (id + 1) blocks' (next_qpack acknowledge (id + 1) block e)
  end.

Lemma WriteHeaderBlock_writer id block e (w w' : bitWriter Buffer) : enc_ok e → qe_base e + zlen block ≤ 2 ^ 60 →
  Forall (field_ok (enc_pref e)) (lower_block block) → bw_ok w → bw_ok w' →
  (WriteHeaderBlock lower id block (e, w, MkBuffer [])).2.1.1 = (WriteHeaderBlock lower id block (e, w', MkBuffer [])).2.1.1.
Proof.
  intros Hok Hb Hf Hw Hw'.
  destruct (writeTableChanges_writes (W := Buffer) lower id block e Hok Hb Hf) as (us & e1 & st1 & Hcw & _).
  destruct (Hcw w Hw) as (w1 & Hr & _). destruct (Hcw w' Hw') as (w1' & Hr' & _). unfold chg in Hr, Hr'. cbn [fst snd] in Hr, Hr'.
  unfold WriteHeaderBlock. rewrite Hr, Hr'. cbn [ch_encoder ch_updates ch_state fst snd].
  by destruct (writeHeaderBlock _).
Qed.

(** The bytes of a block. *)
Lemma encodeBlock_run s id block : en_ok s → qe_base (en_qpack s) + zlen block < 2 ^ 60 →
  Forall (field_ok (enc_pref (en_qpack s))) (lower_block block) → block_short (lower_block block) →
  block_live id block (en_qpack s) = true →
  ∃ header u q, (∀ w, encodeBlock lower id block (en_at s w) =
      (Ok header, MkEncoder (en_input s) w (en_acknowledge s) (en_stream s) u q)) ∧
    q = next_qpack false id block (en_qpack s) ∧
    at_byte u ∧ enc_inv q ∧ enc_pref q = enc_pref (en_qpack s) ∧ highestAcknowledged q = highestAcknowledged (en_qpack s) ∧
    qe_base q ≤ qe_base (en_qpack s) + zlen block ∧
    block_sent (enc_pref q) (qe_common_table (en_qpack s)) (lower_block block) (qe_common_table q)
      (buf_bytes (bw_writer u)) header.
Proof.
  intros [[Hok Hus] Hat Hempty _] Hb Hf Hshort Hlive. set (e := en_qpack s) in *.
  pose proof (enc_base_nonneg e Hok) as Hb0.
  destruct (WriteHeaderBlock_bytes lower id block e (en_updateStream s) [] Hok Hat ltac:(constructor) Hb Hf) as
    (us & e1 & st1 & u & updates & Hrun & Hu & Hac & Hbs & Hbits & Hp & Hblock).
  rewrite (block_live_run id block e _ _ Hok ltac:(lia) Hf (proj1 Hat) Hrun) in Hlive.
  destruct (Hblock Hlive) as (raw & ls & e2 & header & Hr2 & Hok2 & Ht2 & Hbb & Hbits2 & Hls & Hraw & Hval & Hback & Henc & Hdec).
  destruct (WriteHeaderBlock_keeps lower id block e (en_updateStream s) (MkBuffer []) (conj Hok Hus) ltac:(lia)) as [Hinv2 [u2 Heq]].
  { eapply Forall_impl; [exact Hf|]. intros h [Hn Hv]. by apply (Size_new_entry (enc_pref e)). }
  rewrite Hr2 in Hinv2, Heq. rewrite Hrun in Heq. cbn [fst snd ch_encoder] in Hinv2, Heq.
  assert (enc_pref e1 = enc_pref e) as Hpref by (unfold enc_pref; by rewrite (pp_common _ _ _ _ _ Hp)).
  rewrite Hempty in Hac. cbn [app] in Hac.
  pose proof (initHeaders_length lower block) as Hlen. change (ws_headers _) with (lower_block block) in Hlen, Hp.
  pose proof (pp_length _ _ _ _ _ Hp). pose proof (pp_base _ _ _ _ _ Hp) as Hbase.
  exists header, u, e2. rewrite Ht2, Hac. split_and!; try done.
  - intros w. unfold encodeBlock, en_at. cbn [en_qpack en_updateStream en_input en_output en_acknowledge en_stream].
    fold e. by rewrite Hr2.
  - unfold next_qpack. rewrite (WriteHeaderBlock_writer id block e _ (en_updateStream s)) by
      (done || lia || apply Hat || by split; [|constructor]). by rewrite Hr2.
  - by subst e2.
  - subst e2. apply (pp_acked _ _ _ _ _ Hp).
  - subst e2. change (qe_base e1 ≤ qe_base e + zlen block). lia.
  - assert (enc_pref e2 = enc_pref e) as Hpref2 by (subst e2; exact Hpref). rewrite Hpref2, Hpref in *.
    pose proof (Hval id) as Hv. unfold block_value in Hv. rewrite Hdec in Hv.
    destruct (tbase _ <? _); [done|]. cbn [andb block_base] in Hv. rewrite Z.add_0_r in Hv.
    destruct (mapM _ ls) as [hs|] eqn:Hm; [|done]. injection Hv as Hv. rewrite Hv in Hm.
    split; [| |done| |].
    + destruct (pp_apply _ _ _ _ _ Hp) as [evs Hap]. exists us, evs.
      split_and!; [done|apply Hp|apply (pp_short _ _ _ _ _ Hp), Hshort|done|].
      change (tbase (qe_common_table e)) with (qe_base e). unfold intMax. lia.
    + exists raw, ls, (largestBase st1). split_and!; try done; apply (si_largest _ _ (pp_inv _ _ _ _ _ Hp)).
    + destruct Hshort as [Hn Hfs]. split; [|by eapply (block_fits (enc_pref e))].
      eapply (updates_fit (enc_pref e) us (lower_block block)); [done|done|done|]. by apply (pp_short _ _ _ _ _ Hp).
    + split_and!; [by apply enc_table_wf|apply enc_table_wf, Hp|apply Hp|apply Hbase|].
      change (tbase (qe_common_table e1)) with (qe_base e1). lia.
Qed.

(** The encoder after a block. *)
Record encoded (s : encoder R W) (block : list HeaderField) (s' : encoder R W) : Prop := {
  ed_ok : en_ok s';
  ed_input : en_input s' = en_input s;
  ed_acknowledge : en_acknowledge s' = en_acknowledge s;
  ed_stream : en_stream s' = en_stream s + 1;
  ed_pref : enc_pref (en_qpack s') = enc_pref (en_qpack s);
  ed_next : en_qpack s' = next_qpack (en_acknowledge s) (en_stream s') block (en_qpack s);
  ed_base : qe_base (en_qpack s') ≤ qe_base (en_qpack s) + zlen block;
  ed_acked : en_acknowledge s = false → highestAcknowledged (en_qpack s') = highestAcknowledged (en_qpack s);
}.

(** An acknowledgment changes the encoder and not its table. *)
Lemma acknowledge_step s id : enc_inv (en_qpack s) → ∃ q,
  ewrites (if en_acknowledge s then _ ← catch (on_qpack (AcknowledgeHeader id)); mret tt else mret tt) s [] tt
    (MkEncoder (en_input s) (en_output s) (en_acknowledge s) (en_stream s) (en_updateStream s) q) ∧
  enc_inv q ∧ qe_table q = qe_table (en_qpack s) ∧ enc_pref q = enc_pref (en_qpack s) ∧
  q = if en_acknowledge s then (AcknowledgeHeader id (en_qpack s)).2 else en_qpack s.
Proof.
  intros Hinv. destruct (en_acknowledge s) eqn:Hack.
  2: { exists (en_qpack s). split_and!; [|done..]. rewrite <- Hack. apply swrites_step. done. }
  destruct (AcknowledgeHeader_spec id (en_qpack s) Hinv) as (o & q & Hr & Ho & Hinv' & Ht & _).
  pose proof (AcknowledgeHeader_common id (en_qpack s)) as Hc. rewrite Hr in Hc. cbn [snd] in Hc.
  exists q. split_and!; [|done|done|unfold enc_pref; by rewrite Hc|by rewrite Hr].
  apply swrites_step. intros bw. rewrite bind_unfold. unfold catch, on_qpack, zoom. cbn [en_at en_qpack]. rewrite Hr.
  by destruct Ho as [-> | ->]; cbn; rewrite Hack.
Qed.

Lemma encodeNext_writes s block : en_ok s → qe_base (en_qpack s) + zlen block < 2 ^ 60 → en_stream s + 1 < 2 ^ 64 →
  Forall (field_ok (enc_pref (en_qpack s))) (lower_block block) → block_short (lower_block block) →
  block_live (en_stream s + 1) block (en_qpack s) = true →
  ∃ s' updates header,
    ewrites (encodeNext lower block) s (chunks_bits (block_chunks (en_stream s + 1) updates header)) tt s' ∧
    encoded s block s' ∧
    block_sent (enc_pref (en_qpack s)) (qe_common_table (en_qpack s)) (lower_block block)
      (qe_common_table (en_qpack s')) updates header.
Proof.
  intros Hok Hb Hid Hf Hshort Hlive. pose proof Hok as [Hinv Hat Hempty Hst].
  set (id := en_stream s + 1) in *.
  set (s0 := MkEncoder (en_input s) (en_output s) (en_acknowledge s) id (en_updateStream s) (en_qpack s)).
  assert (en_ok s0) as Hok0 by (split; cbn; [done..|lia]).
  destruct (encodeBlock_run s0 id block Hok0 Hb Hf Hshort Hlive) as
    (header & u & q & Hrun & Hnext & Hu & Hq & Hpref & Hacked & Hbase & Hsent).
  cbn [s0 en_input en_output en_acknowledge en_stream en_updateStream en_qpack] in *.
  set (updates := buf_bytes (bw_writer u)) in *.
  set (u' := BitWriter (MkBuffer []) (bw_saved u) (bw_savedBits u) (bw_written u)).
  set (s1 := MkEncoder (en_input s) (en_output s) (en_acknowledge s) id u q).
  set (s2 := MkEncoder (en_input s) (en_output s) (en_acknowledge s) id u' q).
  destruct (acknowledge_step s2 id Hq) as (q' & Hack & Hq' & Htq & Hpq & Hnoack).
  cbn [s2 en_input en_output en_acknowledge en_stream en_updateStream en_qpack] in *.
  exists (MkEncoder (en_input s) (en_output s) (en_acknowledge s) id u' q'), updates, header.
  destruct (bs_bytes _ _ _ _ _ _ Hsent) as [Hub Hhb]. destruct (bs_short _ _ _ _ _ _ Hsent) as [Hul Hhl].
  split_and!.
  - unfold encodeNext. eapply (swrites_bind_l _ _ _ _ _ _ s0).
    { apply swrites_step. intros bw. unfold modS, en_at, s0. cbn. by rewrite u64_small by lia. }
    apply swrites_get. intros w0. cbn [en_at en_stream s0].
    eapply (swrites_bind_l _ _ _ _ _ _ s1); [apply swrites_step; exact Hrun|].
    apply swrites_get. intros w1. cbn [en_at en_stream en_updateStream en_acknowledge s1]. fold updates.
    unfold block_chunks, chunks_bits. rewrite fmap_app, join_app.
    eapply swrites_bind; [apply writeBlock_writes; split_and!; [done|done|done]|].
    eapply (swrites_bind_l _ _ _ _ _ _ s2); [by apply swrites_step|].
    eapply swrites_bind_r; [|exact Hack].
    destruct (bs_header _ _ _ _ _ _ Hsent) as (raw & ls & largest & Hbits & _).
    replace [(id, header)] with (chunk_of id header) by (by destruct header; [destruct (header_nonempty _ _ _ _ Hbits)|]).
    apply writeBlock_writes. split_and!; [cbn; unfold is_u64; lia|done|done].
  - split; cbn; [|done|done|done|by rewrite Hpq| | |intros Hno; by rewrite Hnoack, Hno].
    + split; cbn; [done| |done|lia]. destruct Hu as [[Hsb _] H0']. by split; [split; [done|constructor]|].
    + rewrite Hnoack, Hnext. unfold next_qpack. by destruct (en_acknowledge s).
    + unfold qe_base. rewrite Htq. done.
  - unfold qe_common_table at 2. cbn [en_qpack]. rewrite Htq, <- Hpref. done.
Qed.

(** ** A whole file *)

(** A block of a file that the tool can encode: printable fields, not too many and not
    too long, as the parser gives them. *)
Definition block_fine (pref : HuffmanCodingChoice) (src : source) : Prop :=
  source_ok src ∧ Forall (field_ok pref) (lower_block (plain <$> src.*2)) ∧
  block_short (lower_block (plain <$> src.*2)).

Definition plain_blocks (blocks : list (list HeaderField)) : list (list HeaderField) :=
  (λ block : list HeaderField, (plain <$> block : list HeaderField)) <$> blocks.

Definition lower_blocks (blocks : list (list HeaderField)) : list (list HeaderField) :=
  lower_block <$> plain_blocks blocks.

(** No name is gone when it is referred to: nothing is acknowledged, or the run shows it. *)
Definition names_stay (s : encoder R W) (blocks : list (list HeaderField)) : Prop :=
  (en_acknowledge s = false ∧ highestAcknowledged (en_qpack s) = 0) ∨
  blocks_live (en_acknowledge s) (en_stream s) (plain_blocks blocks) (en_qpack s) = true.

Lemma names_stay_first s block blocks : en_ok s → qe_base (en_qpack s) + zlen block ≤ 2 ^ 60 →
  Forall (field_ok (enc_pref (en_qpack s))) (lower_block (plain <$> block)) → names_stay s (block :: blocks) →
  block_live (en_stream s + 1) (plain <$> block) (en_qpack s) = true ∧
  ∀ s', encoded s (plain <$> block) s' → names_stay s' blocks.
Proof.
  intros Hok Hb Hf [[Hack Hzero]|Hlive].
  - split.
    + apply block_live_unacked; [apply Hok|unfold zlen in *; by rewrite length_fmap|done|done].
    + intros s' Hs'. left. by rewrite (ed_acknowledge _ _ _ Hs'), (ed_acked _ _ _ Hs' Hack).
  - cbn in Hlive. apply andb_prop in Hlive as [Hfirst Hrest]. split; [done|]. intros s' Hs'. right.
    by rewrite (ed_acknowledge _ _ _ Hs'), (ed_next _ _ _ Hs'), (ed_stream _ _ _ Hs').
Qed.

Lemma Encode_end s fuel : unread (en_input s) [] → (0 < fuel)%nat →
  ∃ qr, ewrites (Encode lower fuel) s [] tt
    (MkEncoder qr (en_output s) (en_acknowledge s) (en_stream s) (en_updateStream s) (en_qpack s)).
Proof.
  intros Hl Hf. destruct fuel as [|fuel]; [lia|].
  destruct (ReadHeaderBlock_end (en_input s) (S fuel) Hl Hf) as (qr & Hr & _). exists qr. apply swrites_step.
  intros bw. cbn [Encode]. rewrite bind_unfold. unfold catch, on_input, zoom. cbn [en_at en_input]. by rewrite Hr.
Qed.

Lemma Encode_blocks nl srcs s fuel : line_end nl → en_ok s → unread (en_input s) (qif_source nl srcs) →
  Forall (block_fine (enc_pref (en_qpack s))) srcs → qe_base (en_qpack s) + zlen (mjoin (fields srcs)) < 2 ^ 60 →
  en_stream s + zlen srcs < 2 ^ 64 → names_stay s (fields srcs) → (length (qif_source nl srcs) < fuel)%nat →
  ∃ s' cs, ewrites (Encode lower fuel) s (chunks_bits cs) tt s' ∧
    sent (enc_pref (en_qpack s)) (qe_common_table (en_qpack s)) (en_stream s) (lower_blocks (fields srcs)) cs
      (qe_common_table (en_qpack s')) ∧
    en_ok s' ∧ qe_base (en_qpack s') < 2 ^ 60 ∧
    (en_acknowledge s = false → highestAcknowledged (en_qpack s') = highestAcknowledged (en_qpack s)).
Proof.
  intros Hnl. revert s fuel. induction srcs as [|src srcs IH]; intros s fuel Hok Hl Hfine Hb Hst Hlive Hf.
  { destruct (Encode_end s fuel Hl ltac:(cbn in Hf; lia)) as [qr Hrun]. eexists _, [].
    split_and!; [exact Hrun|apply sent_nil|by destruct Hok|change (mjoin (fields [])) with (@nil HeaderField) in Hb; change (zlen []) with 0 in Hb; cbn; lia|done]. }
  rewrite qif_source_cons in Hl, Hf. change (mjoin (fields (src :: srcs))) with (src.*2 ++ mjoin (fields srcs)) in Hb.
  apply Forall_cons in Hfine as [(Hprint & Hfield & Hshort) Hfine]. zlen_simpl. rewrite length_app in Hf.
  pose proof (zlen_nonneg srcs). pose proof (zlen_nonneg (mjoin (fields srcs))). pose proof (line_end_pos nl Hnl).
  assert (Forall source_ok srcs) as Hprints by (eapply Forall_impl; [exact Hfine|]; by intros ? [? _]).
  destruct fuel as [|fuel]; [lia|]. cbn [Encode].
  destruct (ReadHeaderBlock_block (en_input s) src nl (qif_source nl srcs) (S fuel)) as (qr & Hr & Hl');
    [done|done|by apply separated_source|done|lia|].
  set (s1 := MkEncoder qr (en_output s) (en_acknowledge s) (en_stream s) (en_updateStream s) (en_qpack s)).
  assert (en_ok s1) as Hok1 by (destruct Hok; by split).
  destruct (names_stay_first s1 (src.*2) (fields srcs) Hok1) as [Hfirst Hrest]; [cbn; lia|done|done|].
  assert (zlen (plain <$> src.*2) = zlen src.*2) as Hlen by (unfold zlen; by rewrite length_fmap).
  destruct (encodeNext_writes s1 (plain <$> src.*2) Hok1) as (s2 & updates & header & Hw & Hed & Hsent);
    [cbn; lia|cbn; lia|done|done|done|].
  pose proof (ed_base _ _ _ Hed) as Hbase. pose proof (ed_stream _ _ _ Hed) as Hstream. cbn [s1 en_qpack en_stream] in Hbase, Hstream.
  destruct (IH s2 fuel) as (s3 & cs & Hw' & Hsent' & Hok3 & Hb3 & Hack3); [apply Hed| | |lia|lia|by apply Hrest| |].
  - by rewrite (ed_input _ _ _ Hed).
  - by rewrite (ed_pref _ _ _ Hed).
  - rewrite length_app in Hf. lia.
  - exists s3, (block_chunks (en_stream s + 1) updates header ++ cs). split_and!; [| |done|done|].
    + unfold chunks_bits. rewrite fmap_app, join_app.
      eapply (swrites_bind_l _ _ _ _ _ (inl (plain <$> src.*2)) s1).
      { apply swrites_step. intros bw. unfold catch, on_input, zoom. cbn [en_at en_input]. by rewrite Hr. }
      eapply swrites_bind; [exact Hw|exact Hw'].
    + apply (sent_cons _ _ _ _ (qe_common_table (en_qpack s2))); [done|lia|].
      pose proof (ed_pref _ _ _ Hed) as Hpref. cbn [s1 en_qpack] in Hpref. by rewrite <- Hpref, <- Hstream.
    + pose proof (ed_acknowledge _ _ _ Hed) as Ha. cbn [s1 en_acknowledge] in Ha. intros Hno. rewrite Hack3 by congruence.
      by apply (ed_acked _ _ _ Hed).
Qed.
End encode.

(** ** What a decoder reads *)

(** The update stream is drained. *)
Definition drained (d : decoding bytesReader) (t : qpackTableCommon) : Prop :=
  ∃ evs br, d = qdec (t, evs) br ∧ br_wf br ∧ rbits br = [].

Section updates.
Variable pref : HuffmanCodingChoice.

#[local] Abbreviation qreads := (sreads (R := bytesReader) qdec).

(** One round of the goroutine. *)
Lemma update_reads (x : qpackTableCommon * list ackEvent) u t' evs : table_wf x.1 → tbase x.1 < intMax → update_ok pref u →
  update_apply x.1 u = Ok (t', evs) →
  qreads (t ← getTable; b ← on_reader ReadBit; readUpdate (tbase t) b) x (update_bits pref u) tt (t', x.2 ++ evs).
Proof.
  intros Hwf Hb Hok Hap. apply qreads_table.
  destruct (readUpdate_implements (R := bytesReader) pref x u Hwf Hb Hok) as (b & bits & -> & Him). rewrite Hap in Him.
  change (b :: bits) with ([b] ++ bits). eapply sreads_bind; [apply qreads_on, ReadBit_reads|exact Him].
Qed.

Lemma serviceUpdates_reads us t sent fuel br t' evs : table_wf t → tbase t + zlen us < intMax →
  Forall (update_ok pref) us → updates_apply t us = Ok (t', evs) →
  br_wf br → rbits br = updates_bits pref us → (length us < fuel)%nat →
  ∃ d', serviceUpdates fuel (qdec (t, sent) br) = (Ok tt, d') ∧ drained d' t'.
Proof.
  revert t sent fuel br evs. induction us as [|u us IH]; intros t sent fuel br evs Hwf Hb Hok Hap Hbr Hl Hf;
    (destruct fuel as [|fuel]; [cbn in Hf; lia|]); cbn [serviceUpdates].
  - injection Hap as <- <-. destruct (ReadBits_eof 1 br Hbr ltac:(lia)) as (br' & _ & _ & _); [by rewrite Hl|].
    destruct (ReadBit_spec br Hbr) as (br1 & _ & Hr). rewrite Hl in Hr. destruct Hr as [Hr _].
    exists (qdec (t, sent) br). split; [|by exists sent, br].
    rewrite getTable_bind, bind_unfold. unfold on_reader, zoom. cbn [qdec qd_reader]. by rewrite Hr.
  - apply Forall_cons in Hok as [Hu Hus]. pose proof (zlen_nonneg us). zlen_simpl. cbn [updates_apply] in Hap.
    destruct (update_apply t u) as [[t1 evs1]| | |] eqn:Hu1; [|done..].
    destruct (updates_apply t1 us) as [[t2 evs2]| | |] eqn:Hus1; [|done..]. injection Hap as -> <-.
    change (updates_bits pref (u :: us)) with (update_bits pref u ++ updates_bits pref us) in Hl.
    destruct (update_reads (t, sent) u t1 evs1 Hwf ltac:(cbn; lia) Hu Hu1 br _ Hbr Hl) as (br1 & Hr & Hbr1 & Hl1).
    rewrite Hr. destruct (update_apply_wf pref _ _ _ _ Hwf ltac:(lia) Hu Hu1) as [Hwf1 Hb1].
    apply (IH t1 _ _ _ evs2); try done; [lia|cbn in Hf; lia].
Qed.

Lemma addChunk_bits d chunk : Forall is_byte chunk → br_wf (qd_reader d) →
  br_wf (qd_reader (addChunk chunk d)) ∧ rbits (qd_reader (addChunk chunk d)) = rbits (qd_reader d) ++ bits_of_bytes chunk.
Proof.
  intros Hc [Hr Hs]. split; [split; [by apply Forall_app|done]|].
  unfold rbits, addChunk. cbn [qd_reader br_reader br_saved br_savedBits content bytesReader_spec rest].
  by rewrite bits_of_bytes_app, (assoc_L (++)).
Qed.

(** A chunk of updates takes the table where the encoder's is. *)
Lemma AddUpdates_reads t hs t' updates header d : block_sent pref t hs t' updates header → drained d t →
  ∃ d', AddUpdates updates d = (Ok tt, d') ∧ drained d' t'.
Proof.
  intros [(us & evs & Hbits & Hok & _ & Hap & Hb) _ [Hbytes _] _ (Hwf & _)] (sent & br & -> & Hbr & Hnil).
  destruct (addChunk_bits (qdec (t, sent) br) updates Hbytes Hbr) as [Hbr' Hl']. unfold AddUpdates.
  set (d' := addChunk updates (qdec (t, sent) br)) in *. cbn [qdec qd_reader] in Hl'. rewrite Hnil, Hbits in Hl'. cbn [app] in Hl'.
  apply (serviceUpdates_reads us t sent _ (qd_reader d') t' evs); try done.
  pose proof (zlen_rbits _ Hbr') as Hlen. rewrite Hl' in Hlen.
  assert (length us ≤ length (updates_bits pref us))%nat by (apply mjoin_length; by intros []).
  destruct Hbr' as [_ Hsb]. change (content (br_reader (qd_reader d'))) with (rest (br_reader (qd_reader d'))) in Hlen.
  unfold zlen in Hlen. lia.
Qed.

(** With no updates the table is the same. *)
Lemma no_updates t hs t' header : block_sent pref t hs t' [] header → t' = t.
Proof.
  intros [(us & evs & Hbits & _ & _ & Hap & _) _ _ _ _]. destruct us as [|u us]; [by injection Hap|].
  exfalso. assert (length (u :: us) ≤ length (updates_bits pref (u :: us)))%nat as Hle by (apply mjoin_length; by intros []).
  rewrite <- Hbits in Hle. change (bits_of_bytes []) with (@nil bool) in Hle. cbn [length] in Hle. lia.
Qed.

(** The header block of a drained decoder. *)
Lemma readHeaders_reads t hs t' updates header id d : block_sent pref t hs t' updates header → drained d t' →
  ∃ d', readHeaders header id d = (Ok hs, d') ∧ drained d' t'.
Proof.
  intros [_ (raw & ls & largest & Hbits & Hls & _ & Hraw & Hlargest & _ & Hdec & Hvals) [_ Hbytes] _ (_ & Hwf & _ & Hb)]
    (sent & br & -> & Hbr & Hnil). pose proof (wf_tbase _ Hwf). pose proof (zlen_nonneg (dynamic t')).
  destruct (read_block pref raw false 0 ls t' sent id (MkBytesReader header) (8 * length header + 1)) as (x' & br' & Hread);
    [done|done|lia|by rewrite Hdec; intros ? [= <-]; lia|done|done|done|cbn; lia|].
  unfold block_value in Hread. rewrite Hdec, (proj2 (Z.ltb_ge _ _)) in Hread by lia. cbn [andb block_base] in Hread.
  rewrite Z.add_0_r, Hvals in Hread. destruct Hread as [Hread ->]. unfold readHeaders.
  change (Decoding _ (NewBitReader _) _) with (decoder_at t' sent (MkBytesReader header)). rewrite Hread.
  eexists. split; [done|]. eexists _, br. by split_and!.
Qed.
End updates.

Section decode.
Context {R W : Type} `{IoReaderSpec R} `{IoWriterSpec W} `{!IoWriterTotal W}.

Lemma writeText_writes block (w : W) : ∃ w', writeText block w = (Ok tt, w') ∧
  accepted w' = accepted w ++ block_text [lineFeed] block.
Proof.
  assert (∀ p w, p ≠ [] → ∃ w', io_Write p w = (Ok (zlen p, None), w') ∧ accepted w' = accepted w ++ p) as Hwrite.
  { intros p w0 Hp. destruct (Write_total p w0 Hp) as [w' Hr]. exists w'. split; [done|].
    pose proof (Write_spec p w0 Hp) as Hs. rewrite Hr in Hs. destruct Hs as (_ & Hac & _).
    by rewrite Hac, ztake_all by lia. }
  revert w. induction block as [|h block IH]; intros w; cbn [writeText].
  - destruct (Hwrite [lineFeed] w ltac:(done)) as (w' & Hr & Hac). exists w'. by rewrite (bind_Ok _ _ _ _ _ Hr).
  - destruct (Hwrite (fieldText h) w) as (w1 & Hr & Hac).
    { unfold fieldText. by intros [_ ?]%app_eq_nil. }
    rewrite (bind_Ok _ _ _ _ _ Hr). cbv beta iota. destruct (IH w1) as (w' & Hrun & Hac'). exists w'. split; [done|].
    assert (fieldText h = field_line h ++ [lineFeed]) as Hline by (unfold fieldText, field_line; by rewrite <- (assoc_L (++))).
    by rewrite Hac', Hac, block_text_cons, Hline, <- !(assoc_L (++)).
Qed.

(** The decoder beside its input. *)
Definition de_at (x : W * decoding bytesReader) (br : bitReader R) : decoder R W := MkDecoder br x.1 x.2.

#[local] Abbreviation dreads := (sreads de_at).

Lemma chunk_reads_on {A} (m : go (bitReader R) A) a bits x : reads m a bits → dreads (on_chunks m) x bits a x.
Proof. by apply sreads_zoom. Qed.

Lemma chunk_bits_length c : length (chunk_bits c) = (96 + 8 * length c.2)%nat.
Proof.
  destruct c as [id p]. unfold chunk_bits. rewrite !length_app. cbn [fst snd].
  pose proof (zlen_bits_of_bytes p) as Hp. unfold zlen in Hp.
  pose proof (zlen_zbits 64 id) as H64. pose proof (zlen_zbits 32 (zlen p)) as H32. unfold zlen in *. lia.
Qed.

(** What [Decode] does with a chunk. *)
Definition handleChunk (c : chunk) : go (decoder R W) unit :=
  if c.1 =? 0 then on_decoder (AddUpdates c.2) else
  headers ← on_decoder (readHeaders c.2 c.1);
  on_text (writeText headers).

Lemma Decode_round fuel c l x x' br : chunk_ok c → (length (chunk_bits c ++ l) < fuel)%nat →
  (∀ br, handleChunk c (de_at x br) = (Ok tt, de_at x' br)) → br_wf br → rbits br = chunk_bits c ++ l →
  ∃ fuel' br', Decode fuel (de_at x br) = Decode fuel' (de_at x' br') ∧ (length l < fuel')%nat ∧
    br_wf br' ∧ rbits br' = l.
Proof.
  intros Hc Hf Hrun Hbr Hl. pose proof (chunk_bits_length c). rewrite length_app in Hf. destruct fuel as [|fuel]; [lia|].
  destruct (chunk_reads_on _ _ _ x (readChunk_reads (S fuel) c Hc ltac:(lia)) br l Hbr Hl) as (br1 & Hr & Hbr1 & Hl1).
  exists fuel, br1. split_and!; [|lia|done|done]. cbn [Decode]. rewrite (bind_Ok _ _ _ _ _ Hr).
  destruct c as [id p]. cbv beta iota. by rewrite (bind_Ok _ _ _ _ _ (Hrun br1)).
Qed.

(** The chunks of a block print it. *)
Lemma Decode_block pref t hs t' id updates header fuel l w d br :
  block_sent pref t hs t' updates header → 0 < id < 2 ^ 64 → drained d t →
  (length (chunks_bits (block_chunks id updates header) ++ l) < fuel)%nat →
  br_wf br → rbits br = chunks_bits (block_chunks id updates header) ++ l →
  ∃ fuel' w' d' br', Decode fuel (de_at (w, d) br) = Decode fuel' (de_at (w', d') br') ∧ (length l < fuel')%nat ∧
    br_wf br' ∧ rbits br' = l ∧ accepted w' = accepted w ++ block_text [lineFeed] hs ∧ drained d' t'.
Proof.
  intros Hsent Hid Hd Hf Hbr Hl.
  destruct (bs_bytes _ _ _ _ _ _ Hsent) as [Hub Hhb]. destruct (bs_short _ _ _ _ _ _ Hsent) as [Hul Hhl].
  assert (∃ fuel1 d1 br1, Decode fuel (de_at (w, d) br) = Decode fuel1 (de_at (w, d1) br1) ∧
    (length (chunk_bits (id, header) ++ l) < fuel1)%nat ∧ br_wf br1 ∧ rbits br1 = chunk_bits (id, header) ++ l ∧
    drained d1 t') as (fuel1 & d1 & br1 & -> & Hf1 & Hbr1 & Hl1 & Hd1).
  { unfold block_chunks, chunks_bits in Hf, Hl. rewrite fmap_app, join_app, <- (assoc_L (++)) in Hf, Hl.
    assert (mjoin (chunk_bits <$> [(id, header)]) ++ l = chunk_bits (id, header) ++ l) as Heq
      by (cbn [fmap list_fmap mjoin list_join]; by rewrite app_nil_r).
    rewrite Heq in Hf, Hl. destruct updates as [|b updates]; cbn [chunk_of] in Hf, Hl.
    { exists fuel, d, br. split_and!; try done. by rewrite (no_updates _ _ _ _ _ Hsent). }
    set (us := b :: updates) in *. destruct (AddUpdates_reads pref t hs t' us header d Hsent Hd) as (d1 & Hr & Hd1).
    cbn [fmap list_fmap mjoin list_join] in Hf, Hl. rewrite app_nil_r in Hf, Hl.
    destruct (Decode_round fuel (0, us) (chunk_bits (id, header) ++ l) (w, d) (w, d1) br) as (fuel1 & br1 & Hrun & Hf1 & Hbr1 & Hl1);
      [by split_and!|done| |done|done|by exists fuel1, d1, br1].
    intros br0. unfold handleChunk, on_decoder, zoom. cbn [fst snd Z.eqb de_at de_qpack]. by rewrite Hr. }
  destruct (readHeaders_reads pref t hs t' updates header id d1 Hsent Hd1) as (d2 & Hr & Hd2).
  destruct (writeText_writes hs w) as (w2 & Hw & Hac).
  destruct (Decode_round fuel1 (id, header) l (w, d1) (w2, d2) br1) as (fuel2 & br2 & -> & Hf2 & Hbr2 & Hl2);
    [split_and!; [cbn; unfold is_u64; lia|done|done]|done| |done|done|by exists fuel2, w2, d2, br2].
  intros br0. unfold handleChunk. cbn [fst snd]. rewrite (proj2 (Z.eqb_neq _ _)), bind_unfold by lia.
  unfold on_decoder, on_text, zoom. cbn [de_at de_qpack de_output fst snd].
  rewrite Hr. cbn [de_output]. by rewrite Hw.
Qed.

Lemma Decode_sent pref t id blocks cs t' : sent pref t id blocks cs t' → 0 ≤ id →
  ∀ fuel w d br, drained d t → br_wf br → rbits br = chunks_bits cs → (length (chunks_bits cs) < fuel)%nat →
  ∃ w' d' br', Decode fuel (de_at (w, d) br) = (Ok tt, de_at (w', d') br') ∧
    accepted w' = accepted w ++ qif_text [lineFeed] blocks ∧ drained d' t'.
Proof.
  induction 1 as [t id|t id hs t1 updates header blocks cs t2 Hsent Hid Hs IH]; intros Hpos fuel w d br Hd Hbr Hl Hf.
  - destruct fuel as [|fuel]; [lia|]. destruct (readChunk_end (S fuel) br Hbr Hl) as (br' & Hr & _).
    exists w, d, br'. cbn [Decode]. rewrite bind_unfold. unfold on_chunks, zoom. cbn [de_at de_input]. rewrite Hr.
    unfold qif_text. cbn. by rewrite app_nil_r.
  - unfold chunks_bits in Hl, Hf. rewrite fmap_app, join_app in Hl, Hf.
    fold (chunks_bits (block_chunks (id + 1) updates header)) (chunks_bits cs) in Hl, Hf.
    destruct (Decode_block pref t hs t1 (id + 1) updates header fuel (chunks_bits cs) w d br Hsent ltac:(lia) Hd Hf Hbr Hl)
      as (fuel1 & w1 & d1 & br1 & -> & Hf1 & Hbr1 & Hl1 & Hac & Hd1).
    destruct (IH ltac:(lia) fuel1 w1 d1 br1 Hd1 Hbr1 Hl1 Hf1) as (w' & d' & br' & -> & Hac' & Hd').
    exists w', d', br'. split_and!; [done| |done]. by rewrite Hac', Hac, qif_text_cons, (assoc_L (++)).
Qed.
End decode.
