(* ===== verification/QifMain.v ===== *)
(** * The QPACK interop tool: its commands (hc/qif/qif.go)

    The flags of [encode] and [decode], and what the two commands run. *)

From S2P Require Import Prelude Bits GoIo BitWriter BitReader Streams HcInt HuffmanTable Huffman HcString StaticTable Table Codec QpackTable QpackEncoder QpackDecoder Headers Qif.

(** The files of the operating system: [os.Open], [os.OpenFile] for appending, and
    the standard streams. *)
Class Files (R W : Type) := {
  os_Open : string → outcome R;
  os_OpenFile : string → outcome W;
  os_Stdin : R;
  os_Stdout : W;
}.

(** The error of [strconv.Atoi]. *)
Definition ErrAtoi : goerr := ErrText "strconv.Atoi: parsing".

Record flags := Flags {
  fl_ack : bool;             (* -a: [ack] of encode, [async] of decode *)
  fl_capacity : Z;           (* uint *)
  fl_referenceable : Z;      (* uint *)
  fl_maxBlocked : Z;         (* int *)
}.

(** [args[0][0:1] == "-"]; the slice of an empty argument panics. *)
Definition isFlag (arg : string) : outcome bool :=
  match bytes_of_string arg with
  | [] => Panic
  | b :: _ => Ok (b =? 45)
  end.

(** The loop over the flags of [encode]. A flag that it does not know stays where it
    is, and the loop goes around. *)
Fixpoint encodeFlags (fuel : nat) (f : flags) (args : list string) : outcome (flags * list string) :=
  match fuel with
  | O => NoFuel
  | S fuel' =>
      match args with
      | arg :: value :: rest =>
          match isFlag arg with
          | Ok true =>
              let number (set : Z → flags) : outcome (flags * list string) :=
                match Atoi value with
                | None => Err ErrAtoi
                | Some sz => encodeFlags fuel' (set sz) rest
                end in
              if decide (arg = "-a"%string)
              then encodeFlags fuel' (Flags true (fl_capacity f) (fl_referenceable f) (fl_maxBlocked f)) (value :: rest)
              else if decide (arg = "-v"%string) then encodeFlags fuel' f (value :: rest)
              else if decide (arg = "-b"%string)
              then number (λ sz, Flags (fl_ack f) (fl_capacity f) (fl_referenceable f) sz)
              else if decide (arg = "-t"%string)
              then number (λ sz, Flags (fl_ack f) (u64 sz) (u64 sz) (fl_maxBlocked f))
              else if decide (arg = "-r"%string)
              then number (λ sz, Flags (fl_ack f) (fl_capacity f) (u64 sz) (fl_maxBlocked f))
              else encodeFlags fuel' f args
          | Ok false => Ok (f, args)
          | Err e => Err e
          | Panic => Panic
          | NoFuel => NoFuel
          end
      | _ => Ok (f, args)
      end
  end.

Fixpoint decodeFlags (fuel : nat) (f : flags) (args : list string) : outcome (flags * list string) :=
  match fuel with
  | O => NoFuel
  | S fuel' =>
      match args with
      | arg :: value :: rest =>
          match isFlag arg with
          | Ok true =>
              if decide (arg = "-a"%string)
              then decodeFlags fuel' (Flags true (fl_capacity f) (fl_referenceable f) (fl_maxBlocked f)) (value :: rest)
              else if decide (arg = "-v"%string) then decodeFlags fuel' f (value :: rest)
              else if decide (arg = "-t"%string) then
                match Atoi value with
                | None => Err ErrAtoi
                | Some sz => decodeFlags fuel' (Flags (fl_ack f) (u64 sz) (fl_referenceable f) (fl_maxBlocked f)) rest
                end
              else decodeFlags fuel' f args
          | Ok false => Ok (f, args)
          | Err e => Err e
          | Panic => Panic
          | NoFuel => NoFuel
          end
      | _ => Ok (f, args)
      end
  end.

Definition defaultFlags : flags := Flags false 4096 4096 0.

(** The names of the input and the output; none is a standard stream. *)
Definition fileNames (args : list string) : string * string :=
  match args with
  | [] => (""%string, ""%string)
  | [i] => (i, ""%string)
  | i :: o :: _ => (i, o)
  end.

Section commands.
Context {R W : Type} `{IoReader R} `{IoWriter W} `{Files R W} (unicodeLower : string → string).

Definition openInput (name : string) : outcome R :=
  if decide (name = ""%string) then Ok os_Stdin else os_Open name.
Definition openOutput (name : string) : outcome W :=
  if decide (name = ""%string) then Ok os_Stdout else os_OpenFile name.

Definition outcome_bind {A B} (o : outcome A) (k : A → outcome B) : outcome B :=
  match o with
  | Ok a => k a
  | Err e => Err e
  | Panic => Panic
  | NoFuel => NoFuel
  end.

(** What [encode] does to the encoder before it runs. *)
Definition configure (f : flags) : go (encoder R W) unit :=
  modS (λ s, MkEncoder (en_input s) (en_output s) (fl_ack f) (en_stream s) (en_updateStream s) (en_qpack s));;
  on_qpack (Encoder_SetCapacity (fl_capacity f));;
  on_qpack (Encoder_SetReferenceableLimit (fl_referenceable f));;
  on_qpack (SetMaxBlockedStreams (fl_maxBlocked f)).

(** The encoder for the flags [f] and its run. *)
Definition runEncoder (fuel : nat) (f : flags) (input : R) (output : W) : outcome (outcome unit * encoder R W) :=
  outcome_bind (newEncoder input output) (λ s, Ok ((configure f;; Encode unicodeLower fuel) s)).

(** [encode(args)]. *)
Definition encode (fuel : nat) (args : list string) : outcome (outcome unit * encoder R W) :=
  outcome_bind (encodeFlags (S (length args)) defaultFlags args) (λ '(f, args),
  let '(i, o) := fileNames args in
  outcome_bind (openInput i) (λ input,
  outcome_bind (openOutput o) (λ output, runEncoder fuel f input output))).

(** The decoder with the table of [-t]. *)
Definition setTable (c : Z) (s : decoder R W) : decoder R W :=
  MkDecoder (de_input s) (de_output s)
    (Decoding (SetCapacity (qd_table (de_qpack s)) c) (qd_reader (de_qpack s)) (qd_sent (de_qpack s))).

Definition runDecoder (fuel : nat) (f : flags) (input : R) (output : W) : outcome unit * decoder R W :=
  Decode fuel (setTable (fl_capacity f) (newDecoder input output)).

(** [decode(args)]: the decoder of [DecodeAsync] with [-a], which then runs from
    [QifAsync.startAsync], or the run of [Decode]; the output's name gets an
    extension. *)
Definition decode (fuel : nat) (args : list string) : outcome (decoder R W + outcome unit * decoder R W) :=
  outcome_bind (decodeFlags (S (length args)) defaultFlags args) (λ '(f, args),
  let '(i, o) := fileNames args in
  outcome_bind (openInput i) (λ input,
  outcome_bind (if decide (o = ""%string) then Ok os_Stdout else os_OpenFile (o ++ ".hq")) (λ output,
  Ok (if fl_ack f then inl (setTable (fl_capacity f) (newDecoder input output))
      else inr (runDecoder fuel f input output))))).
End commands.
