(* ===== verification/QifAsync.v ===== *)
(** * The QPACK interop tool: asynchronous decoding (decoder.go, [DecodeAsync])

    One goroutine reads the chunks, one the table updates, and one is started for every
    header block; the results are collected, sorted by stream and printed. A step of
    the relation is one read of a chunk, one table update or one field line, in any
    order that the waits of the code allow. *)

From stdpp Require Import sorting.
From S2P Require Import Prelude Bits GoIo BitWriter BitReader Streams HcInt HuffmanTable Huffman HcString StaticTable Table Codec QpackTable QpackEncoder QpackDecoder Headers Qif.

(** ** One header block *)

(** A goroutine of a header block: started, in [WaitForEntry], or among its lines. *)
Inductive headerRead : Type :=
| Started (stream : Z) (chunk : list Z)
| Waiting (stream largestBase : Z) (br : bitReader bytesReader)
| Lines (stream largestBase base : Z) (br : bitReader bytesReader) (headers : list HeaderField).

(** [result] of the source. *)
Definition result : Type := Z * list HeaderField.

(** What a step of it comes to. *)
Inductive headerStep : Type :=
| Goes (g : headerRead)
| Finished (r : result) (ev : list ackEvent).

(** The table only changes between steps, so that a step runs on the table it finds;
    [None] while it waits. *)
Definition stepHeader (t : qpackTableCommon) (g : headerRead) : option (outcome headerStep) :=
  match g with
  | Started stream chunk =>
      Some match readLargestBase (Decoding t (NewBitReader (MkBytesReader chunk)) []) with
           | (Ok largestBase, d) => Ok (Goes (Waiting stream largestBase (qd_reader d)))
           | (Err e, _) => Err e
           | (Panic, _) => Panic
           | (NoFuel, _) => NoFuel
           end
  | Waiting stream largestBase br =>
      if entryAvailable t largestBase then
        Some match readBase largestBase (Decoding t br []) with
             | (Ok base, d) => Ok (Goes (Lines stream largestBase base (qd_reader d) []))
             | (Err e, _) => Err e
             | (Panic, _) => Panic
             | (NoFuel, _) => NoFuel
             end
      else None
  | Lines stream largestBase base br headers =>
      Some match on_reader ReadBit (Decoding t br []) with
           | (Ok b, d) =>
               match readField base b d with
               | (Ok h, d) => Ok (Goes (Lines stream largestBase base (qd_reader d) (headers ++ [h])))
               | (Err e, _) => Err e
               | (Panic, _) => Panic
               | (NoFuel, _) => NoFuel
               end
           | (Err EOF, _) =>
               Ok (Finished (stream, headers) (if 0 <? largestBase then [EvAcknowledged stream largestBase] else []))
           | (Err e, _) => Err e
           | (Panic, _) => Panic
           | (NoFuel, _) => NoFuel
           end
  end.

(** ** The goroutines together *)

(** The main goroutine reads chunks, waits in [AddReader], or waits for the others. *)
Inductive mainState : Type := Reading | Adding | Ended.

Section async.
Context {R : Type} `{IoReader R}.

Record async := MkAsync {
  as_main : mainState;
  as_input : bitReader R;
  as_qpack : decoding bytesReader;      (* the table and the update stream *)
  as_blocks : list headerRead;
  as_results : list result;             (* in the order they arrive *)
}.

(** [updateStream.Close()] comes after the last chunk. *)
Definition closed (m : mainState) : bool := match m with Ended => true | _ => false end.

(** One table update; [None] while the goroutine waits for the next chunk, or when the
    stream was closed and it is done. The end of the stream
    in the middle of an instruction fails only then. *)
Definition stepUpdates (closed : bool) (d : decoding bytesReader) : option (outcome unit * decoding bytesReader) :=
  match on_reader ReadBit d with
  | (Err EOF, _) => None
  | _ =>
      match (t ← getTable; b ← on_reader ReadBit; readUpdate (tbase t) b) d with
      | (Err EOF, _) as r | (Err ErrUnexpectedEOF, _) as r => if closed then Some r else None
      | r => Some r
      end
  end.

(** The messages to the goroutine of acknowledgments, which writes to [devnull]. *)
Definition sendAll (evs : list ackEvent) (d : decoding bytesReader) : decoding bytesReader :=
  Decoding (qd_table d) (qd_reader d) (qd_sent d ++ evs).

(** A step to a new state, or to the end of the process by [check] or a panic; [fuel]
    bounds the copy of a chunk. *)
Inductive async_step (fuel : nat) : async → outcome async → Prop :=
| async_read input input' qpack blocks results o :
    readChunk fuel input = (o, input') →
    async_step fuel (MkAsync Reading input qpack blocks results)
      (match o with
       | Ok (Some (stream, chunk)) =>
           Ok (if stream =? 0 then MkAsync Adding input' (addChunk chunk qpack) blocks results
               else MkAsync Reading input' qpack (blocks ++ [Started stream chunk]) results)
       | Ok None => Ok (MkAsync Ended input' qpack blocks results)
       | Err e => Err e
       | Panic => Panic
       | NoFuel => NoFuel
       end)
| async_update main input qpack qpack' blocks results o :
    stepUpdates (closed main) qpack = Some (o, qpack') →
    async_step fuel (MkAsync main input qpack blocks results)
      (match o with
       | Ok _ => Ok (MkAsync main input qpack' blocks results)
       | Err e => Err e
       | Panic => Panic
       | NoFuel => NoFuel
       end)
| async_drained input qpack blocks results :
    stepUpdates false qpack = None →
    async_step fuel (MkAsync Adding input qpack blocks results) (Ok (MkAsync Reading input qpack blocks results))
| async_header main input qpack before g after results o :
    stepHeader (qd_table qpack) g = Some o →
    async_step fuel (MkAsync main input qpack (before ++ g :: after) results)
      (match o with
       | Ok (Goes g') => Ok (MkAsync main input qpack (before ++ g' :: after) results)
       | Ok (Finished r evs) => Ok (MkAsync main input (sendAll evs qpack) (before ++ after) (results ++ [r]))
       | Err e => Err e
       | Panic => Panic
       | NoFuel => NoFuel
       end).

(** A run of [n] steps. *)
Inductive async_run (fuel : nat) (s : async) : nat → async → Prop :=
| run_start : async_run fuel s 0 s
| run_step n s1 s2 : async_run fuel s n s1 → async_step fuel s1 (Ok s2) → async_run fuel s (S n) s2.

(** [wg.Wait()] returns here, and the results are complete. *)
Definition finished (s : async) : Prop := as_main s = Ended ∧ as_blocks s = [].
End async.
Arguments async : clear implicits.

(** [sort.Slice] by stream, which may put equal streams in any order; [sortResults] is
    one such order. *)
Definition by_stream (r1 r2 : result) : Prop := r1.1 ≤ r2.1.
#[export] Instance by_stream_dec r1 r2 : Decision (by_stream r1 r2).
Proof. unfold by_stream. apply _. Defined.

Definition sorts (rs sorted : list result) : Prop := sorted ≡ₚ rs ∧ StronglySorted by_stream sorted.

Definition sortResults (rs : list result) : list result := merge_sort by_stream rs.

(** The printing at the end. *)
Fixpoint writeResults {W} `{IoWriter W} (rs : list result) : go W unit :=
  match rs with
  | [] => mret tt
  | r :: rs' => writeText r.2;; writeResults rs'
  end.

(** The state [DecodeAsync] starts in. *)
Definition startAsync {R W} (s : decoder R W) : async R :=
  MkAsync Reading (de_input s) (de_qpack s) [] [].
