(* ===== verification/QifAsyncSpec.v ===== *)
(** * Asynchronous decoding: tables that only grow

    As long as nothing is evicted a header block means the same for every table that
    has its entries, which is why the order of the goroutines does not matter. The
    invariant of the step relation says where every goroutine is in the chunks of the
    encoder, and a measure that every step decreases bounds the runs. *)

From stdpp Require Import sorting.
From S2P Require Import Prelude Bits GoIo BitWriter BitReader Streams HcInt HuffmanTable Huffman HcString StaticTable Table Codec QpackTable QpackEncoder QpackDecoder QpackTableSpec QpackUsageSpec QpackDecoderSpec QpackEncoderSpec QpackReach QpackLink Headers Qif QifSpec QifStream QifAsync.

(** ** Growth *)

(** Nothing was evicted. *)
Definition full (t : qpackTableCommon) : Prop := zlen (dynamic t) = tbase t.

Record grows (t t' : qpackTableCommon) : Prop := {
  gr_entries : ∃ l, dynamic t' = l ++ dynamic t;
  gr_base : tbase t ≤ tbase t';
  gr_capacity : capacity t' = capacity t;
}.

#[export] Instance grows_preorder : PreOrder grows.
Proof.
  split; [intros t; split; [by exists []|done..]|].
  intros t1 t2 t3 [[l1 E1] B1 C1] [[l2 E2] B2 C2]. split; [|lia|congruence].
  exists (l2 ++ l1). by rewrite E2, E1, (assoc_L (++)).
Qed.

Lemma inserted_grows t e : table_wf t → Size e ≤ capacity t → full (inserted t e) → full t ∧ grows t (inserted t e).
Proof.
  intros Hwf He. unfold inserted. rewrite (proj2 (Z.ltb_ge _ _)) by done. unfold full, evicted. cbn [dynamic tbase].
  destruct (fit_prefix (capacity t - Size e) (dynamic t)) as [l Hl]. rewrite Hl. intros Hfull.
  pose proof (wf_tbase _ Hwf). rewrite zlen_cons in Hfull. unfold zlen in *. rewrite length_take in Hfull.
  assert (take l (dynamic t) = dynamic t) as -> by (apply take_ge; lia).
  split; [lia|]. split; cbn; [by eexists [_]|lia|done].
Qed.

Lemma insert_grows t n v t' evs : table_wf t → insert_apply t n v = Ok (t', evs) → full t' → full t ∧ grows t t'.
Proof.
  intros Hwf. unfold insert_apply. destruct (Z.ltb_spec (capacity t) (Size (new_entry n v))) as [|Hs]; [done|].
  intros [= <- _]. by apply inserted_grows.
Qed.

Lemma update_grows M t u t' evs : table_wf t → update_short M u → update_apply t u = Ok (t', evs) → full t' →
  full t ∧ grows t t'.
Proof.
  intros Hwf. destruct u as [s i v|n v|c|i]; cbn [update_short update_apply]; [..|done|].
  - intros _. destruct (entry_at _ _ _ _); [|done]. by apply insert_grows.
  - intros _. by apply insert_grows.
  - intros _. destruct (GetDynamic _ _ _); [|done]. by apply insert_grows.
Qed.

Lemma updates_grow pref M us t t' evs : table_wf t → tbase t + zlen us < intMax → Forall (update_ok pref) us →
  Forall (update_short M) us → updates_apply t us = Ok (t', evs) → full t' → full t ∧ grows t t'.
Proof.
  intros Hwf Hb Hok Hshort. revert t evs Hwf Hb. induction us as [|u us IH]; intros t evs Hwf Hb; cbn [updates_apply].
  { intros [= <- _]. by split. }
  apply Forall_cons in Hok as [Hu Hok], Hshort as [Hus Hshort]. pose proof (zlen_nonneg us). zlen_simpl.
  destruct (update_apply t u) as [[t1 evs1]| | |] eqn:H1'; [|done..].
  destruct (updates_apply t1 us) as [[t2 evs2]| | |] eqn:H2'; [|done..]. intros [= <- _] Hfull.
  destruct (update_apply_wf pref t u t1 evs1 Hwf ltac:(lia) Hu H1') as [Hwf1 Hb1].
  destruct (IH Hok Hshort t1 evs2 Hwf1 ltac:(lia) H2' Hfull) as [Hf1 Hg1].
  destruct (update_grows M t u t1 evs1 Hwf Hus H1' Hf1) as [Hf Hg]. split; [done|]. by etransitivity.
Qed.

(** An index that finds an entry is small. *)
Lemma GetDynamic_small (t : qpackTableCommon) i base d : table_wf t → index_ok i → 0 ≤ base ≤ tbase t → tbase t < 2 ^ 60 →
  GetDynamic t i base = Some d → i < 2 ^ 60.
Proof.
  intros Hwf [Hi0 Hi] Hbase Hb. pose proof (wf_tbase _ Hwf). unfold GetDynamic, intMax in *.
  rewrite (i64_small (_ - _)) by lia. rewrite (proj2 (Z.ltb_ge _ 0)) by lia.
  destruct (Z.lt_ge_cases (i + (tbase t - base)) (2 ^ 63)) as [Hlt|Hge].
  - rewrite i64_small by lia. destruct (Z.leb_spec (zlen (dynamic t)) (i + (tbase t - base))); [done|]. lia.
  - assert (i64 (i + (tbase t - base)) < 0) as Hneg.
    { unfold i64. rewrite <- (Z_mod_plus_full _ (-1)), Z.mod_small by lia. lia. }
    rewrite (proj2 (Z.ltb_lt _ 0)), orb_true_r by lia. done.
Qed.

(** A relative index finds the same entry in every earlier table that reaches the base
    it counts from. *)
Lemma GetDynamic_grows t t' i base d : table_wf t → table_wf t' → full t → grows t t' → index_ok i →
  0 ≤ base ≤ tbase t → tbase t' < 2 ^ 60 → GetDynamic t' i base = Some d → GetDynamic t i base = Some d.
Proof.
  intros Hwf Hwf' Hfull [[l Hl] Hb _] Hi Hbase Hb' Hd.
  pose proof (GetDynamic_small t' i base d Hwf' Hi ltac:(lia) Hb' Hd) as Hsmall. destruct Hi as [Hi _].
  apply GetDynamic_spec in Hd as [Hd HB]; [|done|lia..]. apply GetDynamic_spec; [done|lia..|]. split; [|done].
  rewrite Hl in Hd. apply elem_of_app in Hd as [Hd|]; [|done]. exfalso.
  apply list_elem_of_lookup in Hd as [j Hj]. pose proof (lookup_lt_Some _ _ _ Hj) as Hlt.
  assert (dynamic t' !! j = Some d) as Hj' by (rewrite Hl; by apply lookup_app_l_Some).
  pose proof (wf_bases _ Hwf' _ _ Hj') as HB'. pose proof (wf_tbase _ Hwf') as Htb'.
  rewrite Hl, zlen_app in Htb'. unfold full, zlen in *. lia.
Qed.

(** And in every later table. *)
Lemma GetDynamic_grown t t' i base d : table_wf t → table_wf t' → grows t t' → index_ok i →
  0 ≤ base ≤ tbase t → tbase t' < 2 ^ 60 → GetDynamic t i base = Some d → GetDynamic t' i base = Some d.
Proof.
  intros Hwf Hwf' [[l Hl] Hb _] Hi Hbase Hb' Hd.
  pose proof (GetDynamic_small t i base d Hwf Hi Hbase ltac:(lia) Hd) as Hsmall. destruct Hi as [Hi _].
  apply GetDynamic_spec in Hd as [Hd HB]; [|done|lia..]. apply GetDynamic_spec; [done|lia..|]. split; [|done].
  rewrite Hl. apply elem_of_app. by right.
Qed.

(** The lines of an encoder mean the same where its entries are the same. *)
Lemma line_transfer t t' base pref l h :
  (∀ i d, index_ok i → GetDynamic t i base = Some d → GetDynamic t' i base = Some d) →
  line_ok pref l → backward l → line_value t base l = Some h → line_value t' base l = Some h.
Proof.
  intros Hget Hok Hback.
  assert (∀ s i e, index_ok i → entry_at t s i base = Some e → entry_at t' s i base = Some e) as Hentry.
  { intros [] i e Hi; [done|]. unfold entry_at. destruct (GetDynamic t i base) as [d|] eqn:Hd; [|done]. by rewrite (Hget i d). }
  destruct l as [s i|i|se s i v|se i v|se n v]; cbn [line_value line_ok backward] in *; [|done| |done|done].
  - destruct (entry_at t s i base) as [e|] eqn:He; [|done]. by rewrite (Hentry s i e Hok He).
  - destruct (entry_at t s i base) as [e|] eqn:He; [|done]. by rewrite (Hentry s i e (proj1 Hok) He).
Qed.

Lemma largest_grows t t' raw largest : full t' → Forall sized (dynamic t') → table_wf t → table_wf t' → grows t t' →
  capacity t' < 2 ^ 60 → 0 ≤ largest ≤ tbase t' → encodeLargestReference (capacity t') largest = Ok raw →
  decodeLargestBase t raw = Ok largest.
Proof.
  intros Hfull Hsz Hwf Hwf' [_ Hb Hc] Hcap Hl Henc. pose proof (wf_tbase _ Hwf).  pose proof (zlen_nonneg (dynamic t)).
  destruct (Z.eq_dec largest 0) as [->|Hne]; [by injection Henc as <-|].
  pose proof (sized_count _ Hsz). pose proof (wf_fits _ Hwf'). unfold full in Hfull.
  rewrite Hc in *. assert (tbase t' ≤ capacity t / 32) by (Z.to_euclidean_division_equations; lia).
  destruct (largest_base_window t largest) as (raw' & Henc' & _ & Hdec); [lia..|].
  rewrite Henc in Henc'. by injection Henc' as <-.
Qed.

(** ** Where a goroutine is *)

Section reads.
Variables (pref : HuffmanCodingChoice) (tf : qpackTableCommon).
Hypothesis Hwf_f : table_wf tf.
Hypothesis Hfull_f : full tf.
Hypothesis Hsized_f : Forall sized (dynamic tf).
Hypothesis Hcap_f : capacity tf < 2 ^ 60.
Hypothesis Hbase_f : tbase tf < 2 ^ 60.

(** A table on the way to the last one. *)
Definition table_ok (t : qpackTableCommon) : Prop := table_wf t ∧ full t ∧ grows t tf.

(** The lines [ls] mean [hs]. *)
Definition lines_mean (largest : Z) (ls : list line) (hs : list HeaderField) : Prop :=
  Forall (line_ok pref) ls ∧ Forall backward ls ∧ mapM (line_value tf largest) ls = Some hs.

(** The bytes [header] mean [hs], for a table with [b] insertions or more. *)
Definition header_means (b : Z) (header : list Z) (hs : list HeaderField) : Prop :=
  ∃ raw ls largest, bits_of_bytes header = block_bits pref raw false 0 ls ∧ Forall is_byte header ∧ is_u64 raw ∧
    0 ≤ largest ≤ b ∧ encodeLargestReference (capacity tf) largest = Ok raw ∧ lines_mean largest ls hs.

(** What a goroutine will give; the table has all it waits for. *)
Inductive will_read (t : qpackTableCommon) : headerRead → result → Prop :=
| will_start stream header hs :
    header_means (tbase t) header hs → will_read t (Started stream header) (stream, hs)
| will_wait stream largest br ls hs :
    br_wf br → rbits br = (false :: int_bits 7 0) ++ lines_bits pref ls → 0 ≤ largest ≤ tbase t →
    lines_mean largest ls hs → will_read t (Waiting stream largest br) (stream, hs)
| will_line stream largest br ls done hs :
    br_wf br → rbits br = lines_bits pref ls → 0 ≤ largest ≤ tbase t →
    lines_mean largest ls hs → will_read t (Lines stream largest largest br done) (stream, done ++ hs).

Lemma will_read_grows t t' g r : tbase t ≤ tbase t' → will_read t g r → will_read t' g r.
Proof.
  intros Hb. destruct 1 as [stream header hs (raw & ls & largest & ? & ? & ? & ? & ? & ?)| |].
  - constructor. exists raw, ls, largest. split_and!; (done || lia).
  - econstructor; try done. lia.
  - econstructor; try done. lia.
Qed.

(** How many bits a goroutine has still to read, and a little for its states. *)
Definition weight (g : headerRead) : nat :=
  match g with
  | Started _ chunk => 8 * length chunk + 3
  | Waiting _ _ br => length (rbits br) + 2
  | Lines _ _ _ br _ => length (rbits br) + 1
  end.

Lemma start_steps t stream header hs : table_ok t → header_means (tbase t) header hs → ∃ g',
  stepHeader t (Started stream header) = Some (Ok (Goes g')) ∧ will_read t g' (stream, hs) ∧
  (weight g' < weight (Started stream header))%nat.
Proof using Hwf_f Hfull_f Hsized_f Hcap_f Hbase_f.
  intros (Hwf & Hfull & Hg) (raw & ls & largest & Hbits & Hbytes & Hraw & Hl & Henc & Hls).
  destruct (reader_start (MkBytesReader header)) as [Hbr Hrb]; [exact Hbytes|]. cbn [content bytesReader_spec rest] in Hrb.
  rewrite Hbits in Hrb.
  destruct (readLargestBase_spec (t, []) raw (NewBitReader (MkBytesReader header)) _ Hraw Hbr Hrb) as (br' & Hr & Hbr' & Hl').
  pose proof (gr_base _ _ Hg).
  assert (decodeLargestBase t raw = Ok largest) as Hdec by (apply (largest_grows t tf); try done; lia).
  cbn [fst] in Hr. rewrite Hdec in Hr. unfold qdec in Hr. cbn [fst snd] in Hr. unfold stepHeader. rewrite Hr.
  eexists. split; [done|]. split; [by econstructor|]. cbn [weight qd_reader]. rewrite Hl'.
  pose proof (bytes_length _ _ Hbits) as Hlen. unfold block_bits in Hlen. rewrite length_app in Hlen. cbn [app]. lia.
Qed.

Lemma wait_steps t stream largest br ls hs : table_ok t → br_wf br →
  rbits br = (false :: int_bits 7 0) ++ lines_bits pref ls → 0 ≤ largest ≤ tbase t → lines_mean largest ls hs → ∃ g',
  stepHeader t (Waiting stream largest br) = Some (Ok (Goes g')) ∧ will_read t g' (stream, hs) ∧
  (weight g' < weight (Waiting stream largest br))%nat.
Proof using Hbase_f.
  intros (Hwf & Hfull & Hg) Hbr Hl Hlargest Hls. pose proof (gr_base _ _ Hg).
  unfold stepHeader, entryAvailable. rewrite (proj2 (Z.leb_le _ _)) by lia.
  destruct (readBase_reads (R := bytesReader) (t, []) largest false 0 ltac:(lia) ltac:(lia) br _ Hbr Hl) as (br' & Hr & Hbr' & Hl').
  cbn [block_base] in Hr. rewrite Z.add_0_r in Hr. unfold qdec in Hr. cbn [fst snd] in Hr. rewrite Hr.
  eexists. split; [done|]. split; [by apply (will_line t stream largest br' ls [] hs)|]. cbn [weight qd_reader].
  rewrite Hl', Hl. cbn [app length]. rewrite length_app. lia.
Qed.

Lemma line_steps t stream largest br ls done hs : table_ok t → br_wf br → rbits br = lines_bits pref ls →
  0 ≤ largest ≤ tbase t → lines_mean largest ls hs → ∃ o,
  stepHeader t (Lines stream largest largest br done) = Some (Ok o) ∧
  match o with
  | Goes g' => will_read t g' (stream, done ++ hs) ∧ (weight g' < weight (Lines stream largest largest br done))%nat
  | Finished r _ => r = (stream, done ++ hs)
  end.
Proof using Hwf_f Hfull_f Hbase_f.
  intros (Hwf & Hfull & Hg) Hbr Hl Hlargest (Hok & Hback & Hvals). unfold stepHeader. destruct ls as [|l ls].
  - destruct (ReadBit_spec br Hbr) as (br1 & _ & Hr). rewrite Hl in Hr. cbn in Hr. destruct Hr as [Hr _].
    unfold on_reader, zoom. cbn [qd_reader]. rewrite Hr. cbn in Hvals. injection Hvals as <-.
    eexists. split; [done|]. by rewrite app_nil_r.
  - apply Forall_cons in Hok as [Hlok Hok], Hback as [Hlb Hback]. apply mapM_Some in Hvals.
    inversion Hvals as [|? h ? hs' Hv Hvs]; subst. apply mapM_Some in Hvs.
    assert (line_value t largest l = Some h) as Hv'
      by (apply (line_transfer tf t largest pref); [intros; by apply (GetDynamic_grows t tf)|done..]).
    destruct (readField_answers (R := bytesReader) pref (t, []) largest l Hlok) as (b & bits & Hbits & Ha).
    change (lines_bits pref (l :: ls)) with (line_bits pref l ++ lines_bits pref ls) in Hl. rewrite Hbits in Hl.
    cbn [fst] in Ha. rewrite Hv' in Ha. cbn [answers] in Ha.
    destruct (qreads_on ReadBit (Z.b2z b) [b] (t, []) (ReadBit_reads b) br (bits ++ lines_bits pref ls) Hbr Hl) as (br1 & Hr1 & Hbr1 & Hl1).
    destruct (Ha br1 _ Hbr1 Hl1) as (br2 & Hr2 & Hbr2 & Hl2). unfold qdec in Hr1, Hr2. cbn [fst snd] in Hr1, Hr2.
    rewrite Hr1, Hr2. eexists. split; [done|]. split.
    + replace (done ++ h :: hs') with ((done ++ [h]) ++ hs') by by rewrite <- (assoc_L (++)).
      by apply (will_line t stream largest br2 ls (done ++ [h]) hs').
    + cbn [weight qd_reader]. rewrite Hl2, Hl. cbn [app length]. rewrite length_app. lia.
Qed.

(** A goroutine never waits or fails, and gives what it should. *)
Lemma stepHeader_will t g r : table_ok t → will_read t g r → ∃ o, stepHeader t g = Some (Ok o) ∧
  match o with
  | Goes g' => will_read t g' r ∧ (weight g' < weight g)%nat
  | Finished r' _ => r' = r
  end.
Proof using Hwf_f Hfull_f Hsized_f Hcap_f Hbase_f.
  intros Hok. destruct 1 as [stream header hs Hh|stream largest br ls hs Hbr Hl Hlg Hls|stream largest br ls done hs Hbr Hl Hlg Hls].
  - destruct (start_steps t stream header hs Hok Hh) as (g' & Hr & ?). by exists (Goes g').
  - destruct (wait_steps t stream largest br ls hs Hok Hbr Hl Hlg Hls) as (g' & Hr & ?). by exists (Goes g').
  - by eapply line_steps.
Qed.

(** ** Where the main goroutine is *)

Fixpoint results_of (id : Z) (blocks : list (list HeaderField)) : list result :=
  match blocks with
  | [] => []
  | hs :: blocks' => (id + 1, hs) :: results_of (id + 1) blocks'
  end.

(** The input that is left, and the results that will come of it. *)
Inductive plan : mainState → decoding bytesReader → list bool → list result → Prop :=
| plan_blocks d t id blocks cs :
    drained d t → 0 ≤ id → sent pref t id blocks cs tf → plan Reading d (chunks_bits cs) (results_of id blocks)
| plan_header d t id header hs blocks cs :
    drained d t → 0 < id < 2 ^ 64 → header_means (tbase t) header hs → zlen header < 2 ^ 32 → sent pref t id blocks cs tf →
    plan Reading d (chunk_bits (id, header) ++ chunks_bits cs) ((id, hs) :: results_of id blocks)
| plan_updates t msgs br us t1 evs id header hs blocks cs :
    br_wf br → rbits br = updates_bits pref us → Forall (update_ok pref) us → Forall (update_short (2 ^ 16)) us →
    updates_apply t us = Ok (t1, evs) → tbase t + zlen us < intMax → table_ok t1 →
    0 < id < 2 ^ 64 → header_means (tbase t1) header hs → zlen header < 2 ^ 32 → sent pref t1 id blocks cs tf →
    plan Adding (qdec (t, msgs) br) (chunk_bits (id, header) ++ chunks_bits cs) ((id, hs) :: results_of id blocks)
| plan_end d : drained d tf → plan Ended d [] [].

(** A block of the encoder, for the last table. *)
Lemma block_means t hs t1 updates header : block_sent pref t hs t1 updates header → table_ok t1 →
  header_means (tbase t1) header hs.
Proof using Hwf_f Hfull_f Hbase_f.
  intros [_ (raw & ls & largest & Hbits & Hls & Hback & Hraw & Hl & Henc & _ & Hvals) [_ Hbytes] _ _] (Hwf & Hfull & Hg).
  exists raw, ls, largest. rewrite (gr_capacity _ _ Hg). split_and!; [done|done|done|lia|lia|done|]. split_and!; [done|done|].
  apply mapM_Some. apply mapM_Some in Hvals. clear Hbits Henc. revert Hls Hback.
  induction Hvals as [|l h ls hs Hv _ IH]; [done|]. intros [Hlok Hok]%Forall_cons [Hlb Hback]%Forall_cons.
  constructor; [|by apply IH]. apply (line_transfer t1 tf largest pref); [intros; by apply (GetDynamic_grown t1 tf)|done..].
Qed.

Lemma sent_ok t id blocks cs t2 : sent pref t id blocks cs t2 → t2 = tf → table_ok t.
Proof using Hwf_f Hfull_f.
  induction 1 as [t id|t id hs t1 updates header blocks cs t2 Hsent _ _ IH]; [intros ->; by split_and!|].
  intros (Hwf1 & Hfull1 & Hg1)%IH. destruct Hsent as [(us & evs & _ & Hok & Hshort & Hap & Hb) _ _ _ (Hwf & _)].
  destruct (updates_grow pref _ us t t1 evs Hwf Hb Hok Hshort Hap Hfull1) as [Hfull Hg].
  split_and!; [done|done|by etransitivity].
Qed.

(** What the main goroutine can find in the file. *)
Lemma plan_cases d bits future : plan Reading d bits future →
  (bits = [] ∧ future = [] ∧ drained d tf) ∨
  (∃ t id header hs blocks cs, bits = chunk_bits (id, header) ++ chunks_bits cs ∧ future = (id, hs) :: results_of id blocks ∧
     drained d t ∧ 0 < id < 2 ^ 64 ∧ header_means (tbase t) header hs ∧ zlen header < 2 ^ 32 ∧ sent pref t id blocks cs tf) ∨
  (∃ updates rest, bits = chunk_bits (0, updates) ++ rest ∧ chunk_ok (0, updates) ∧ plan Adding (addChunk updates d) rest future).
Proof using Hwf_f Hfull_f Hbase_f.
  inversion 1 as [? t id blocks cs Hd Hid Hs|? t id header hs blocks cs Hd Hid Hh Hlen Hs| |]; subst.
  2: { right; left. by exists t, id, header, hs, blocks, cs. }
  inversion Hs as [|? ? hs t1 updates header blocks' cs' ? Hsent Hid' Hs']; subst; [by left|right].
  pose proof (sent_ok _ _ _ _ _ Hs' eq_refl) as Hok1. pose proof (block_means t hs t1 updates header Hsent Hok1) as Hh.
  destruct (bs_bytes _ _ _ _ _ _ Hsent) as [Hub _]. destruct (bs_short _ _ _ _ _ _ Hsent) as [Hul Hhl].
  assert (chunks_bits (block_chunks (id + 1) updates header ++ cs') =
    mjoin (chunk_bits <$> chunk_of 0 updates) ++ chunk_bits (id + 1, header) ++ chunks_bits cs') as ->.
  { unfold chunks_bits, block_chunks. rewrite !fmap_app, !join_app, <- (assoc_L (++)). do 2 f_equal.
    cbn [fmap list_fmap mjoin list_join]. by rewrite app_nil_r. }
  destruct updates as [|b us].
  { left. pose proof (no_updates _ _ _ _ _ Hsent) as ->. exists t, (id + 1), header, hs, blocks', cs'. split_and!; (done || lia). }
  right. exists (b :: us), (chunk_bits (id + 1, header) ++ chunks_bits cs'). set (updates := b :: us) in *.
  change (chunk_of 0 updates) with [(0, updates)].
  split; [cbn [fmap list_fmap mjoin list_join]; by rewrite app_nil_r|]. split; [by split_and!|].
  destruct Hsent as [(ups & evs & Hbits & Huok & Hshort & Hap & Hb) _ _ _ _]. destruct Hd as (msgs & br & -> & Hbr & Hnil).
  destruct (addChunk_bits (qdec (t, msgs) br) updates Hub Hbr) as [Hbr' Hl']. cbn [qdec qd_reader] in Hl'. rewrite Hnil, Hbits in Hl'.
  change (addChunk updates (qdec (t, msgs) br)) with (qdec (t, msgs) (qd_reader (addChunk updates (qdec (t, msgs) br)))).
  cbn [results_of]. by apply (plan_updates t msgs _ ups t1 evs (id + 1) header hs blocks' cs'); try done; lia.
Qed.

Lemma drained_waits d t c : drained d t → stepUpdates c d = None.
Proof.
  intros (msgs & br & -> & Hbr & Hnil). unfold stepUpdates, on_reader, zoom. cbn [qdec qd_reader].
  destruct (ReadBit_spec br Hbr) as (br1 & _ & Hr). rewrite Hnil in Hr. destruct Hr as [Hr _]. by rewrite Hr.
Qed.

(** A table update, or none is left. *)
Lemma plan_update d bits future : plan Adding d bits future → table_ok (qd_table d) →
  (stepUpdates false d = None ∧ plan Reading d bits future) ∨
  (∃ d', stepUpdates false d = Some (Ok tt, d') ∧ plan Adding d' bits future ∧ table_ok (qd_table d') ∧
     tbase (qd_table d) ≤ tbase (qd_table d') ∧ (length (rbits (qd_reader d')) < length (rbits (qd_reader d)))%nat).
Proof.
  inversion 1 as [| |t msgs br us t1 evs id header hs blocks cs Hbr Hl Hok Hshort Hap Hb Hok1 Hid Hh Hlen Hs|]; subst.
  intros (Hwf & _). cbn [qdec qd_table fst] in Hwf. destruct us as [|u us].
  { left. injection Hap as <- <-. assert (drained (qdec (t, msgs) br) t) as Hd by (by exists msgs, br).
    split; [by eapply drained_waits|]. by apply (plan_header _ t). }
  right. apply Forall_cons in Hok as [Hu Hok], Hshort as [Hus Hshort]. pose proof (zlen_nonneg us). zlen_simpl.
  cbn [updates_apply] in Hap. destruct (update_apply t u) as [[t0 evs0]| | |] eqn:Hu1; [|done..].
  destruct (updates_apply t0 us) as [[t2 evs2]| | |] eqn:Hus1; [|done..]. injection Hap as -> <-.
  change (updates_bits pref (u :: us)) with (update_bits pref u ++ updates_bits pref us) in Hl.
  destruct (update_reads pref (t, msgs) u t0 evs0 Hwf ltac:(cbn; lia) Hu Hu1 br _ Hbr Hl) as (br1 & Hr & Hbr1 & Hl1).
  destruct (update_apply_wf pref _ _ _ _ Hwf ltac:(lia) Hu Hu1) as [Hwf0 Hb0]. cbn [snd] in Hr.
  destruct Hok1 as (Hwf1 & Hfull1 & Hg1).
  destruct (updates_grow pref _ us t0 t1 evs2 Hwf0 ltac:(lia) Hok Hshort Hus1 Hfull1) as [Hfull0 Hg0].
  assert (∃ b bits, update_bits pref u = b :: bits) as (b0 & bits0 & Hbits) by (destruct u; by eexists _, _).
  rewrite Hbits in Hl.
  destruct (ReadBit_spec br Hbr) as (br2 & _ & Hr2). rewrite Hl in Hr2. cbn [app] in Hr2. destruct Hr2 as [Hr2 _].
  exists (qdec (t0, msgs ++ evs0) br1). split; [|split; [|split; [|split]]].
  - unfold stepUpdates. unfold on_reader at 1, zoom at 1. cbn [qdec qd_reader fst snd]. rewrite Hr2.
    by rewrite Hr.
  - apply (plan_updates t0 _ br1 us t1 evs2); try done; lia.
  - split_and!; [done|done|by etransitivity].
  - cbn. lia.
  - cbn [qdec qd_reader]. rewrite Hl, Hl1. cbn [app length]. rewrite length_app. lia.
Qed.

Lemma plan_table d bits future main c : plan main d bits future → main ≠ Adding → stepUpdates c d = None.
Proof. destruct 1; intros Hm; [by eapply drained_waits..|done|by eapply drained_waits]. Qed.

Lemma plan_reader d bits future main : plan main d bits future → br_wf (qd_reader d).
Proof. destruct 1 as [? ? ? ? ? (?&?&->&?&?)|? ? ? ? ? ? ? (?&?&->&?&?)| |? (?&?&->&?&?)]; done. Qed.

Lemma plan_send evs main d bits future : plan main d bits future → plan main (sendAll evs d) bits future.
Proof.
  assert (∀ d t, drained d t → drained (sendAll evs d) t) as Hd
    by (intros d0 t0 (msgs & br & -> & ? & ?); by exists (msgs ++ evs), br).
  destruct 1; [by eapply plan_blocks; eauto|by eapply plan_header; eauto|by eapply (plan_updates t (msgs ++ evs) br); eauto|by apply plan_end, Hd].
Qed.

(** ** The invariant *)

Section inv.
Context {R : Type} `{IoReaderSpec R} (fuel : nat) (all : list result).

Record async_inv (s : async R) : Prop := {
  ai_input : br_wf (as_input s);
  ai_fuel : (length (rbits (as_input s)) < fuel)%nat;
  ai_table : table_ok (qd_table (as_qpack s));
  ai_plan : ∃ pending future, plan (as_main s) (as_qpack s) (rbits (as_input s)) future ∧
    Forall2 (will_read (qd_table (as_qpack s))) (as_blocks s) pending ∧ as_results s ++ pending ++ future ≡ₚ all;
}.

Definition main_weight (m : mainState) : nat := match m with Reading => 1 | Adding => 2 | Ended => 0 end.

(** What is left to do. *)
Definition measure (s : async R) : nat :=
  4 * length (rbits (as_input s)) + length (rbits (qd_reader (as_qpack s))) + main_weight (as_main s) +
  sum_list (weight <$> as_blocks s).

Lemma will_grow t t' blocks pending : tbase t ≤ tbase t' → Forall2 (will_read t) blocks pending →
  Forall2 (will_read t') blocks pending.
Proof. intros Hb HF. eapply Forall2_impl; [exact HF|]. intros g r. by apply will_read_grows. Qed.

Lemma sum_list_app (l k : list nat) : sum_list (l ++ k) = (sum_list l + sum_list k)%nat.
Proof. induction l as [|n l IH]; cbn; [done|]. rewrite IH. lia. Qed.

(** The main goroutine reads the file. *)
Lemma read_step_inv input qpack blocks results o input' : async_inv (MkAsync Reading input qpack blocks results) →
  readChunk fuel input = (o, input') →
  ∃ s', (match o with
       | Ok (Some (stream, chunk)) =>
           Ok (if stream =? 0 then MkAsync Adding input' (addChunk chunk qpack) blocks results
               else MkAsync Reading input' qpack (blocks ++ [Started stream chunk]) results)
       | Ok None => Ok (MkAsync Ended input' qpack blocks results)
       | Err e => Err e
       | Panic => Panic
       | NoFuel => NoFuel
       end) = Ok s' ∧ async_inv s' ∧ (measure s' < measure (MkAsync Reading input qpack blocks results))%nat.
Proof using Hwf_f Hfull_f Hbase_f.
  intros [Hin Hfuel Hok (pending & future & Hplan & Hpend & Hperm)] Hr. cbn [as_main as_input as_qpack as_blocks as_results] in *.
  destruct (plan_cases qpack _ future Hplan) as
    [(Hbits & -> & Hd)|[(t & id & header & hs & bs & cs & Hbits & -> & Hd & Hid & Hh & Hlen & Hs)|(updates & rest & Hbits & Hc & Hp)]].
  - destruct (readChunk_end fuel input Hin Hbits) as (br' & Hr' & Hbr' & Hl'). rewrite Hr in Hr'. injection Hr' as -> ->.
    eexists. split; [done|]. split.
    + split; cbn; [done|rewrite Hl'; cbn; lia|done|]. exists pending, []. by rewrite Hl'; split_and!; [apply plan_end|..].
    + unfold measure. cbn. rewrite Hl', Hbits. cbn. lia.
  - pose proof (chunk_bits_length (id, header)) as Hcl. cbn [snd] in Hcl. rewrite Hbits, length_app in Hfuel.
    assert (chunk_ok (id, header)) as Hc.
    { destruct Hh as (raw & ls & largest & _ & Hbytes & _). split_and!; [cbn; unfold is_u64; lia|done|done]. }
    destruct (readChunk_reads fuel (id, header) Hc ltac:(cbn; lia) input _ Hin Hbits) as (br' & Hr' & Hbr' & Hl').
    rewrite Hr in Hr'. injection Hr' as -> ->. rewrite (proj2 (Z.eqb_neq _ _)) by lia.
    destruct Hd as (msgs & br & -> & Hbr & Hnil).
    eexists. split; [done|]. split.
    + split; cbn [as_main as_input as_qpack as_blocks as_results]; [done|rewrite Hl'; lia|done|].
      exists (pending ++ [(id, hs)]), (results_of id bs). rewrite Hl'. split_and!.
      * apply (plan_blocks _ t id bs cs); [by exists msgs, br|lia|done].
      * apply Forall2_app; [done|]. constructor; [by constructor|done].
      * rewrite <- Hperm, <- !(assoc_L (++)). done.
    + unfold measure. cbn [as_main as_input as_qpack as_blocks main_weight].
      rewrite Hl', Hbits, fmap_app, sum_list_app, length_app. cbn [fmap list_fmap sum_list weight].
      unfold Datatypes.id. lia.
  - pose proof (chunk_bits_length (0, updates)) as Hcl. cbn [snd] in Hcl. rewrite Hbits, length_app in Hfuel.
    destruct (readChunk_reads fuel (0, updates) Hc ltac:(cbn; lia) input _ Hin Hbits) as (br' & Hr' & Hbr' & Hl').
    rewrite Hr in Hr'. injection Hr' as -> ->. cbn [Z.eqb].
    pose proof (plan_reader _ _ _ _ Hplan) as Hq.
    destruct (addChunk_bits qpack updates (proj2 (proj2 Hc)) Hq) as [_ Hla].
    eexists. split; [done|]. split.
    + split; cbn [as_main as_input as_qpack as_blocks as_results]; [done|rewrite Hl'; lia|done|].
      exists pending, future. by rewrite Hl'.
    + unfold measure. cbn [as_main as_input as_qpack as_blocks main_weight]. rewrite Hla, Hl', Hbits, !length_app.
      pose proof (zlen_bits_of_bytes updates) as H8. unfold zlen in H8. lia.
Qed.

(** A header block goes on, or gives its result. *)
Lemma header_step_inv main input qpack before g after results o : async_inv (MkAsync main input qpack (before ++ g :: after) results) →
  stepHeader (qd_table qpack) g = Some o →
  ∃ s', (match o with
       | Ok (Goes g') => Ok (MkAsync main input qpack (before ++ g' :: after) results)
       | Ok (Finished r evs) => Ok (MkAsync main input (sendAll evs qpack) (before ++ after) (results ++ [r]))
       | Err e => Err e
       | Panic => Panic
       | NoFuel => NoFuel
       end) = Ok s' ∧ async_inv s' ∧ (measure s' < measure (MkAsync main input qpack (before ++ g :: after) results))%nat.
Proof using Hwf_f Hfull_f Hsized_f Hcap_f Hbase_f.
  intros [Hin Hfuel Hok (pending & future & Hplan & Hpend & Hperm)] Hr. cbn [as_main as_input as_qpack as_blocks as_results] in *.
  apply Forall2_app_inv_l in Hpend as (p1 & p2 & Hb & Hp & ->).
  apply Forall2_cons_inv_l in Hp as (r & p3 & Hg & Ha & ->).
  destruct (stepHeader_will _ g r Hok Hg) as (o' & Hr' & Ho). rewrite Hr in Hr'. injection Hr' as ->.
  destruct o' as [g'|r' evs].
  - destruct Ho as [Hg' Hw]. eexists. split; [done|]. split.
    + split; [done..|]. cbn [as_main as_input as_qpack as_blocks as_results]. exists (p1 ++ r :: p3), future.
      split_and!; [done| |done]. by apply Forall2_app; [|constructor].
    + unfold measure. cbn [as_main as_input as_qpack as_blocks main_weight]. rewrite !fmap_app, !sum_list_app, !fmap_cons. cbn. lia.
  - subst r'. eexists. split; [done|]. split.
    + split; [done..|]. cbn [as_main as_input as_qpack as_blocks as_results]. exists (p1 ++ p3), future.
      split_and!; [by apply plan_send|by apply Forall2_app|]. rewrite <- Hperm. solve_Permutation.
    + unfold measure. cbn [as_main as_input as_qpack as_blocks main_weight sendAll qd_reader].
      rewrite !fmap_app, !sum_list_app, !fmap_cons. cbn. destruct g; cbn; lia.
Qed.

(** A step never fails, keeps the invariant, and comes closer to the end. *)
Lemma async_step_inv s o : async_inv s → async_step fuel s o → ∃ s', o = Ok s' ∧ async_inv s' ∧ (measure s' < measure s)%nat.
Proof using Hwf_f Hfull_f Hsized_f Hcap_f Hbase_f.
  intros Hinv Hstep. destruct Hstep as [input input' qpack blocks results o Hr|main input qpack qpack' blocks results o Hr
    |input qpack blocks results Hr|main input qpack before g after results o Hr].
  - by apply (read_step_inv input).
  - destruct Hinv as [Hin Hfuel Hok (pending & future & Hplan & Hpend & Hperm)].
    cbn [as_main as_input as_qpack as_blocks as_results] in *.
    destruct main; [by rewrite (plan_table _ _ _ _ _ Hplan) in Hr| |by rewrite (plan_table _ _ _ _ _ Hplan) in Hr].
    destruct (plan_update qpack _ future Hplan Hok) as [[Hn _]|(d' & Hu & Hp & Hok' & Hb & Hlt)]; cbn [closed] in Hr; [congruence|].
    rewrite Hr in Hu. injection Hu as -> ->. eexists. split; [done|]. split.
    + split; [done..|]. cbn [as_main as_input as_qpack as_blocks as_results]. exists pending, future.
      split_and!; [done| |done]. by apply (will_grow (qd_table qpack)).
    + unfold measure. cbn [as_main as_input as_qpack as_blocks main_weight]. lia.
  - destruct Hinv as [Hin Hfuel Hok (pending & future & Hplan & Hpend & Hperm)].
    cbn [as_main as_input as_qpack as_blocks as_results] in *.
    destruct (plan_update qpack _ future Hplan Hok) as [[_ Hp]|(d' & Hu & _)]; [|congruence].
    eexists. split; [done|]. split; [split; [done..|by exists pending, future]|].
    unfold measure. cbn [as_main as_input as_qpack as_blocks main_weight]. lia.
  - by apply (header_step_inv main input qpack before g after).
Qed.

(** There is a step until all is done. *)
Lemma async_progress s : async_inv s → finished s ∨ ∃ o, async_step fuel s o.
Proof using Hwf_f Hfull_f Hsized_f Hcap_f Hbase_f.
  intros [_ _ Hok (pending & future & Hplan & Hpend & _)]. destruct s as [main input qpack blocks results].
  cbn [as_main as_input as_qpack as_blocks as_results] in *. destruct main.
  - right. destruct (readChunk fuel input) as [o input'] eqn:Hr. eexists. by eapply async_read.
  - right. destruct (plan_update qpack _ future Hplan Hok) as [[Hn _]|(d' & Hu & _)]; eexists; [by apply async_drained|by eapply async_update].
  - destruct Hpend as [|g r blocks pending Hg Hpend]; [by left|right].
    destruct (stepHeader_will _ g r Hok Hg) as (o & Hr & _). eexists.
    by apply (async_header fuel Ended input qpack [] g blocks results (Ok o)).
Qed.

Lemma async_run_inv s n s' : async_inv s → async_run fuel s n s' → async_inv s' ∧ (n + measure s' ≤ measure s)%nat.
Proof using Hwf_f Hfull_f Hsized_f Hcap_f Hbase_f.
  intros Hinv. induction 1 as [|n s1 s2 _ [Hinv1 Hm] Hstep]; [by split; [|lia]|].
  destruct (async_step_inv s1 _ Hinv1 Hstep) as (s' & [= <-] & Hinv2 & Hlt). split; [done|lia].
Qed.

(** The invariant holds when the decoder starts on a file. *)
Lemma async_start t blocks cs (input : bitReader R) d : sent pref t 0 blocks cs tf → drained d t → br_wf input →
  rbits input = chunks_bits cs → (length (chunks_bits cs) < fuel)%nat → all = results_of 0 blocks →
  async_inv (MkAsync Reading input d [] []).
Proof using Hwf_f Hfull_f.
  intros Hs Hd Hbr Hl Hf Hall. split; cbn [as_main as_input as_qpack as_blocks as_results]; [done|by rewrite Hl| |].
  - destruct Hd as (msgs & br & -> & _). by eapply sent_ok.
  - exists [], (results_of 0 blocks). split_and!; [rewrite Hl; by apply (plan_blocks _ t)|by apply Forall2_nil|by rewrite Hall].
Qed.

(** The results in the end. *)
Lemma async_finished s : async_inv s → finished s → as_results s ≡ₚ all.
Proof using.
  intros [_ _ _ (pending & future & Hplan & Hpend & Hperm)] [Hm Hb]. rewrite Hb in Hpend. inversion Hpend; subst.
  rewrite Hm in Hplan. inversion Hplan; subst. by rewrite app_nil_r in Hperm.
Qed.
End inv.
End reads.

(** ** The results in order *)

Lemma results_above id blocks r : r ∈ results_of id blocks → id < r.1.
Proof.
  revert id. induction blocks as [|hs blocks IH]; intros id; cbn; [by intros ?%not_elem_of_nil|].
  intros [->|Hr]%elem_of_cons; [cbn; lia|]. specialize (IH _ Hr). lia.
Qed.

Lemma results_sorted id blocks : StronglySorted by_stream (results_of id blocks).
Proof.
  revert id. induction blocks as [|hs blocks IH]; intros id; cbn; [constructor|]. constructor; [done|].
  apply Forall_forall. intros r Hr%results_above. unfold by_stream. cbn. lia.
Qed.

(** Sorted by its numbers there is only one order. *)
Lemma sorted_unique (l k : list result) : StronglySorted by_stream l → StronglySorted by_stream k → NoDup l.*1 → l ≡ₚ k → l = k.
Proof.
  intros Hl. revert k. induction Hl as [|x l Hl IH Hx]; intros k Hk Hn Hp; [by apply Permutation_nil_l in Hp|].
  destruct Hk as [|y k Hk Hy]; [by symmetry in Hp; apply Permutation_nil_cons in Hp|].
  rewrite fmap_cons in Hn. apply NoDup_cons in Hn as [Hnot Hn].
  assert (x = y) as ->.
  { assert (y ∈ x :: l) as [->|Hyl]%elem_of_cons by (rewrite Hp; left); [done|].
    assert (x ∈ y :: k) as [->|Hxk]%elem_of_cons by (rewrite <- Hp; left); [done|].
    rewrite Forall_forall in Hx, Hy. specialize (Hx y Hyl). specialize (Hy x Hxk). unfold by_stream in *.
    destruct Hnot. replace x.1 with y.1 by lia. by apply list_elem_of_fmap_2. }
  f_equal. apply IH; [done|done|]. by apply (Permutation_cons_inv (a := y)).
Qed.

Lemma results_nodup id blocks : NoDup (results_of id blocks).*1.
Proof.
  revert id. induction blocks as [|hs blocks IH]; intros id; cbn; constructor; [|apply IH].
  intros (r & Hr & Hin)%list_elem_of_fmap. apply results_above in Hin. cbn in *. lia.
Qed.

Lemma sort_results id blocks rs sorted : rs ≡ₚ results_of id blocks → sorts rs sorted → sorted = results_of id blocks.
Proof.
  intros Hp [Hp' Hs]. symmetry. apply sorted_unique; [apply results_sorted|done|apply results_nodup|].
  by rewrite Hp', Hp.
Qed.

Lemma sortResults_sorts rs : sorts rs (sortResults rs).
Proof.
  split; [apply merge_sort_Permutation|].
  apply StronglySorted_merge_sort; [intros ???; unfold by_stream; lia|intros ??; unfold by_stream; lia].
Qed.

(** They print as the blocks. *)
Lemma writeResults_writes {W} `{IoWriterSpec W} `{!IoWriterTotal W} id blocks (w : W) : ∃ w',
  writeResults (results_of id blocks) w = (Ok tt, w') ∧ accepted w' = accepted w ++ qif_text [lineFeed] blocks.
Proof.
  revert id w. induction blocks as [|hs blocks IH]; intros id w; [exists w; split; [done|by rewrite app_nil_r]|].
  cbn [results_of writeResults snd]. rewrite bind_unfold.
  destruct (writeText_writes hs w) as (w1 & Hr & Hac). rewrite Hr.
  destruct (IH (id + 1) w1) as (w2 & Hr2 & Hac2). exists w2. split; [done|].
  by rewrite Hac2, Hac, qif_text_cons, (assoc_L (++)).
Qed.

(** An encoder that nothing was acknowledged to has evicted nothing. *)
Lemma unacked_full e : enc_inv e → highestAcknowledged e = 0 → full (qe_common_table e).
Proof.
  intros [Hok _] Ha. pose proof (eo_held _ Hok) as Hheld. pose proof (wf_tbase _ (enc_table_wf e Hok)).
  unfold full, unacked in *. change (qe_dynamic e) with (dynamic (qe_common_table e)) in Hheld.
  change (qe_base e) with (tbase (qe_common_table e)) in Hheld. lia.
Qed.
