(* ===== verification/Message.v ===== *)
(** * Messages (message.go)

    An incoming message is a stream of frames handled by one loop; its headers,
    body and trailers are handed to the application. An outgoing message writes
    such a stream. The application is taken to read the body to its end, which is
    what [AddReader] waits for (see [Concat]). *)

From S2P Require Import Prelude Bits GoIo BitWriter BitReader Streams Frame HcInt HuffmanTable Huffman HcString StaticTable Table Codec QpackTable QpackEncoder QpackDecoder QpackDecoderSpec Headers.

(** ** Incoming messages *)

(** What the application receives besides the headers, in order. *)
Inductive delivery : Type :=
| DBody (bs : list Z)                     (* one DATA frame, through the concatenating reader *)
| DTrailers (headers : list HeaderField).

(** The connection's decoder, the stream of the message, what was delivered and
    the state of the handlers. *)
Record incoming (R T : Type) := Incoming {
  in_table : qpackTableCommon;
  in_sent : list ackEvent;
  in_stream : bitReader R;
  in_log : list delivery;
  in_handler : T;
}.
Arguments Incoming {R T}.
Arguments in_table {R T}.
Arguments in_sent {R T}.
Arguments in_stream {R T}.
Arguments in_log {R T}.
Arguments in_handler {R T}.

Section incoming.
Context {R : Type} `{IoReader R} {T : Type}.

Definition on_stream {A} (m : go (bitReader R) A) : go (incoming R T) A :=
  zoom in_stream (λ r s, Incoming (in_table s) (in_sent s) r (in_log s) (in_handler s)) m.

(** A call of the decoder on the payload of a frame of [len] bytes. *)
Definition on_block {A} (len : Z) (m : go (decoding (LimitedReader (bitReader R))) A) : go (incoming R T) A :=
  zoom (λ s, Decoding (in_table s) (NewBitReader (MkLimitedReader (in_stream s) (i64 len))) (in_sent s))
    (λ d s, Incoming (qd_table d) (qd_sent d) (lim_R (br_reader (qd_reader d))) (in_log s) (in_handler s)) m.

Definition on_handler {A} (m : go T A) : go (incoming R T) A :=
  zoom in_handler (λ h s, Incoming (in_table s) (in_sent s) (in_stream s) (in_log s) h) m.

Definition deliver (d : delivery) : go (incoming R T) unit :=
  modS (λ s, Incoming (in_table s) (in_sent s) (in_stream s) (in_log s ++ [d]) (in_handler s)).

(** [msg.decoder.Cancelled(msg.s.Id())]. *)
Definition cancelled (id : Z) : go (incoming R T) unit :=
  modS (λ s, Incoming (in_table s) (in_sent s ++ [EvCancelled id]) (in_stream s) (in_log s) (in_handler s)).

(** [msg.reader.AddReader(r)], which returns when the application has read the
    payload to its end; it reads [bufSize] bytes at a time, and the concatenating
    reader drops what comes together with [io.EOF]. *)
Definition AddReader (fuel : nat) (bufSize len : Z) : go (incoming R T) unit :=
  bs ← on_stream (on_Limited len (CatDrain fuel bufSize []));
  deliver (DBody bs).

Variables (bufSize id : Z).
Variable headersHandler : list HeaderField → go T bool.
Variable frameHandler : Z → Z → go (incoming R T) unit.   (* type and length *)

(** The loop of [handleMessage]: every round takes a frame's header; [skip] bounds
    the loops within a frame. *)
Fixpoint handleMessage_loop (fuel skip : nat) (gotFirstHeaders afterTrailers : bool)
  : go (incoming R T) unit :=
  match fuel with
  | O => nofuel
  | S fuel' =>
      r ← catch (on_stream ReadFrame);
      match r with
      | inr EOF => mret tt
      | inr err => fail err
      | inl (t, len) =>
          if afterTrailers then fail ErrInvalidFrame else
          if t =? frameData then
            if negb gotFirstHeaders then fail ErrInvalidFrame else
            AddReader skip bufSize len;;
            handleMessage_loop fuel' skip gotFirstHeaders false
          else if t =? frameHeaders then
            headers ← on_block len (ReadHeaderBlock skip id);
            lift (ValidatePseudoHeaders headers);;
            if gotFirstHeaders then
              deliver (DTrailers headers);;
              handleMessage_loop fuel' skip gotFirstHeaders true
            else
              got ← on_handler (headersHandler headers);
              handleMessage_loop fuel' skip got false
          else
            frameHandler t len;;
            handleMessage_loop fuel' skip gotFirstHeaders false
      end
  end.

(** An error cancels the stream at the decoder. [ErrWouldBlock] is no error: the
    decoder is still waiting for a table update. *)
Definition handleMessage (fuel : nat) : go (incoming R T) unit :=
  r ← catch (handleMessage_loop fuel fuel false false);
  match r with
  | inl _ => mret tt
  | inr ErrWouldBlock => fail ErrWouldBlock
  | inr err => cancelled id;; fail err
  end.
End incoming.

(** ** Outgoing messages *)

(** The connection's encoder with its stream of updates, and the message's stream. *)
Record outgoing (U W : Type) := Outgoing {
  og_encoder : QpackEncoder;
  og_updates : bitWriter U;
  og_stream : bitWriter W;
  og_closed : bool;
}.
Arguments Outgoing {U W}.
Arguments og_encoder {U W}.
Arguments og_updates {U W}.
Arguments og_stream {U W}.
Arguments og_closed {U W}.

Section outgoing.
Context {U W : Type} `{IoWriter U} `{IoWriter W} (unicodeLower : string → string) (id : Z).

(** [encoder.WriteHeaderBlock(&headerBuf, id, headers...)] *)
Definition headerBlock (headers : list HeaderField) : go (outgoing U W) (list Z) := λ s,
  let '(o, (e, w, h)) := WriteHeaderBlock unicodeLower id headers (og_encoder s, og_updates s, MkBuffer []) in
  (match o with Ok _ => Ok (buf_bytes h) | Err e => Err e | Panic => Panic | NoFuel => NoFuel end,
   Outgoing e w (og_stream s) (og_closed s)).

(** A frame on the message's stream, and its error. *)
Definition sendFrame (t : Z) (p : list Z) : go (outgoing U W) (option goerr) :=
  '(_, err) ← zoom og_stream (λ w s, Outgoing (og_encoder s) (og_updates s) w (og_closed s)) (WriteFrame t p);
  mret err.

Definition writeHeaderBlock (headers : list HeaderField) : go (outgoing U W) unit :=
  block ← headerBlock headers;
  err ← sendFrame frameHeaders block;
  match err with Some e => fail e | None => mret tt end.

(** [OutgoingMessage.Write]: one DATA frame. *)
Definition Write (p : list Z) : go (outgoing U W) (Z * option goerr) :=
  err ← sendFrame frameData p;
  match err with Some e => mret (0, Some e) | None => mret (zlen p, None) end.

(** [closing] is what the QUIC library answers to the stream's [Close]. *)
Definition Close (closing : option goerr) : go (outgoing U W) unit :=
  modS (λ s, Outgoing (og_encoder s) (og_updates s) (og_stream s) true);;
  match closing with Some e => fail e | None => mret tt end.

(** [End]; nil trailers are left out. *)
Definition End_ (closing : option goerr) (trailers : option (list HeaderField)) : go (outgoing U W) unit :=
  (match trailers with Some headers => writeHeaderBlock headers | None => mret tt end);;
  Close closing.
End outgoing.
