(* ===== verification/MessageSpec.v ===== *)
(** * Incoming messages: an abstract machine and its refinement

    What [handleMessage] (see [Message]) is to do, as a machine over whole frames
    and three phases, and the proof that on the bytes of any frames, ended or cut
    short, it does just that. *)

From S2P Require Import Prelude Bits GoIo BitWriter BitReader Streams Frame HcInt HuffmanTable Huffman HcString StaticTable Table Codec QpackTable QpackEncoder QpackDecoder QpackDecoderSpec QpackLink Headers Message.

(** ** The machine *)

(** A frame of a message: a header block is given by its prefix and field lines
    and by its bytes. *)
Inductive frame :=
| FData (p : list Z)
| FBlock (raw : Z) (sign : bool) (delta : Z) (ls : list line) (p : list Z)
| FOther (ft : Z) (p : list Z).

Definition frame_type (f : frame) : Z :=
  match f with FData _ => frameData | FBlock _ _ _ _ _ => frameHeaders | FOther ft _ => ft end.
Definition frame_payload (f : frame) : list Z :=
  match f with FData p | FBlock _ _ _ _ p | FOther _ p => p end.

(** How the stream ends: within the header of a frame (or before it), or within
    the payload of a DATA frame of [len] bytes. *)
Inductive ending :=
| CutHeader (bits : list bool)
| CutData (len : Z) (p : list Z).

Definition ending_bits (e : ending) : list bool :=
  match e with
  | CutHeader bits => bits
  | CutData len p => varint_bits len ++ zbits 8 frameData ++ bits_of_bytes p
  end.

Definition frames_bits (fs : list frame) : list bool :=
  mjoin ((λ f, frame_bits (frame_type f) (frame_payload f)) <$> fs).

Inductive phase := Awaiting | InBody | AfterTrailers.

(** What the message has done: the events for the encoder of the peer, what was
    delivered and the state of the handlers. *)
Record progress (T : Type) := Progress {
  pr_sent : list ackEvent;
  pr_log : list delivery;
  pr_handler : T;
}.
Arguments Progress {T}.
Arguments pr_sent {T}.
Arguments pr_log {T}.
Arguments pr_handler {T}.

Section machine.
Context {T : Type} (t : qpackTableCommon) (id : Z).
Variable headersHandler : list HeaderField → go T bool.
Variable other : Z → list Z → go (progress T) unit.

Definition note (evs : list ackEvent) : go (progress T) unit :=
  modS (λ m, Progress (pr_sent m ++ evs) (pr_log m) (pr_handler m)).
Definition delivered (d : delivery) : go (progress T) unit :=
  modS (λ m, Progress (pr_sent m) (pr_log m ++ [d]) (pr_handler m)).
Definition handled {A} (h : go T A) : go (progress T) A :=
  zoom pr_handler (λ h m, Progress (pr_sent m) (pr_log m) h) h.

(** The fields of a block, which is acknowledged before they are checked. *)
Definition block_fields (raw : Z) (sign : bool) (delta : Z) (ls : list line) : go (progress T) (list HeaderField) :=
  '(hs, evs) ← lift (block_value t id raw sign delta ls);
  note evs;;
  mret hs.

Definition message_end (ph : phase) (e : ending) : go (progress T) unit :=
  match e, ph with
  | CutHeader _, _ => mret tt
  | CutData _ p, InBody => delivered (DBody p)
  | CutData _ _, _ => fail ErrInvalidFrame
  end.

Fixpoint message_run (ph : phase) (fs : list frame) (e : ending) : go (progress T) unit :=
  match fs with
  | [] => message_end ph e
  | f :: fs =>
      match ph, f with
      | AfterTrailers, _ | Awaiting, FData _ => fail ErrInvalidFrame
      | InBody, FData p => delivered (DBody p);; message_run InBody fs e
      | Awaiting, FBlock raw sign delta ls _ =>
          hs ← block_fields raw sign delta ls;
          lift (ValidatePseudoHeaders hs);;
          got ← handled (headersHandler hs);
          message_run (if got : bool then InBody else Awaiting) fs e
      | InBody, FBlock raw sign delta ls _ =>
          hs ← block_fields raw sign delta ls;
          lift (ValidatePseudoHeaders hs);;
          delivered (DTrailers hs);;
          message_run AfterTrailers fs e
      | _, FOther ft p => other ft p;; message_run ph fs e
      end
  end.

(** The whole message; what fails cancels the stream. *)
Definition message (fs : list frame) (e : ending) : go (progress T) unit :=
  r ← catch (message_run Awaiting fs e);
  match r with
  | inl _ => mret tt
  | inr ErrWouldBlock => fail ErrWouldBlock
  | inr err => note [EvCancelled id];; fail err
  end.
End machine.

(** ** Frames on the wire *)

Definition frame_ok (pref : HuffmanCodingChoice) (t : qpackTableCommon) (f : frame) : Prop :=
  Forall is_byte (frame_payload f) ∧ zlen (frame_payload f) < 2 ^ 62 ∧
  match f with
  | FData _ => True
  | FBlock raw sign delta ls p =>
      bits_of_bytes p = block_bits pref raw sign delta ls ∧ is_u64 raw ∧ 0 ≤ delta < 2 ^ 62 ∧
      (∀ largest, decodeLargestBase t raw = Ok largest → - 2 ^ 61 ≤ largest) ∧ Forall (line_ok pref) ls
  | FOther ft _ => is_byte ft ∧ ft ≠ frameData ∧ ft ≠ frameHeaders
  end.

Definition ending_ok (e : ending) : Prop :=
  match e with
  | CutHeader bits => header_cut bits
  | CutData len p => Forall is_byte p ∧ zlen p < len < 2 ^ 62
  end.

(** What the application may hear of an ending: when a DATA frame is cut short, all of
    it but what the stream returns together with [io.EOF], less than [n] bytes. *)
Definition hears (n : Z) (e e' : ending) : Prop :=
  match e, e' with
  | CutHeader bits, CutHeader bits' => bits' = bits
  | CutData len p, CutData len' heard => len' = len ∧ ∃ lost, p = heard ++ lost ∧ zlen lost < n
  | _, _ => False
  end.

Lemma hears_all n e : 0 < n → hears n e e.
Proof. intros Hn. destruct e as [|len p]; [done|]. split; [done|]. exists []. by rewrite app_nil_r. Qed.

Lemma hears_header n bits e : hears n (CutHeader bits) e → e = CutHeader bits.
Proof. by destruct e as [bits'|]; [intros ->|]. Qed.

(** The stream ends after a whole number of frames. *)
Lemma ending_clean : ending_ok (CutHeader []).
Proof. apply header_cut_nil. Qed.

(** A frame takes more bytes than its payload, so a fuel for the bits of the stream
    is enough for the frames and for what they hold. *)
Definition ending_payload (e : ending) : list Z := match e with CutHeader _ => [] | CutData _ p => p end.

Lemma frames_fuel pref t fs e fuel : Forall (frame_ok pref t) fs →
  (length (frames_bits fs ++ ending_bits e) + 1 < fuel)%nat →
  (S (length fs) < fuel)%nat ∧ Forall (λ f, 8 * length (frame_payload f) < fuel)%nat fs ∧
  (8 * length (ending_payload e) < fuel)%nat.
Proof.
  intros Hfs. rewrite length_app. intros Hf.
  enough (16 * length fs ≤ length (frames_bits fs) ∧
    Forall (λ f, 8 * length (frame_payload f) ≤ length (frames_bits fs)) fs)%nat as [Hl Hall].
  { split_and!; [lia|by apply (Forall_impl _ _ _ Hall); lia|].
    destruct e as [bits|len p]; cbn [ending_payload length]; [lia|]. cbn [ending_bits] in Hf.
    rewrite !length_app in Hf. pose proof (zlen_bits_of_bytes p) as Hp. unfold zlen in Hp. lia. }
  clear Hf. induction Hfs as [|f fs (_ & Hlen & _) _ [IH1 IH2]]; [done|].
  pose proof (frame_bits_length (frame_type f) (frame_payload f) Hlen) as Hf.
  change (frames_bits (f :: fs)) with (frame_bits (frame_type f) (frame_payload f) ++ frames_bits fs).
  rewrite length_app. split; [cbn [length]; lia|]. constructor; [lia|].
  apply (Forall_impl _ _ _ IH2). lia.
Qed.

(** ** Payloads *)

Section payloads.
Context {R : Type} `{IoReaderSpec R}.

(** A bit reader at a byte boundary passes a read on. *)
Lemma Read_aligned {R' : Type} `{IoReader R'} n (r : R') saved :
  io_Read (IoReader := bitReader_reader) n (BitReader r saved 0) =
  ((io_Read n r).1, BitReader (io_Read n r).2 saved 0).
Proof. cbn. unfold Read. rewrite bind_unfold. cbn. unfold BitReader.on_reader, zoom. cbn. by destruct (io_Read n r). Qed.

(** Reading a limited reader that has all its bytes: none of them comes together with
    [io.EOF]. *)
Lemma CatDrain_whole fuel n acc saved (r : R) N : rd_wf r → 0 < n → 0 ≤ N ≤ zlen (content r) → (Z.to_nat N < fuel)%nat →
  ∃ r', CatDrain (R := bitReader (LimitedReader R)) fuel n acc (BitReader (MkLimitedReader r N) saved 0) =
      (Ok (acc ++ ztake N (content r)), BitReader (MkLimitedReader r' 0) saved 0) ∧
    rd_wf r' ∧ content r = ztake N (content r) ++ content r' ∧ residue r' = residue r.
Proof.
  revert acc r N. induction fuel as [|fuel IH]; intros acc r N Hwf Hn HN Hf; [lia|]. cbn [CatDrain].
  rewrite bind_unfold, Read_aligned. cbn [io_Read LimitedReader_reader]. unfold LimitedReader_Read. cbn [lim_N lim_R].
  destruct (Z.leb_spec N 0).
  { cbn [fst snd]. rewrite decide_True by done. rewrite (ztake_0 N), app_nil_r by lia. replace N with 0 by lia. by exists r. }
  set (p := if N <? n then N else n).
  assert (0 < p ≤ N ∧ p ≤ n) as (?&?) by (unfold p; destruct (Z.ltb_spec N n); lia).
  destruct (Read_spec p r Hwf) as (bs & e & r1 & -> & Hwf1 & Hc & Hres & Hlen & He); [lia|]. cbn [fst snd]. rewrite Hc, zlen_app in HN.
  destruct He as [[-> Hbs]|(-> & Hnil & ?)]; [|rewrite Hnil, (zlen_nil (A:=Z)) in HN; lia]. rewrite decide_False by done.
  assert (0 < zlen bs) by (destruct bs; [done|rewrite zlen_cons; pose proof (zlen_nonneg bs); lia]).
  destruct (IH (acc ++ bs) r1 (N - zlen bs) Hwf1 Hn) as (r2 & -> & Hwf2 & Hc2 & Hres2); [lia|lia|].
  exists r2. rewrite Hc, ztake_app_split, <- !(assoc_L (++)) by lia. split_and!; [done|done| |congruence].
  by rewrite <- Hc2.
Qed.
End payloads.

(** ** The refinement *)

Section refinement.
Context {R : Type} `{IoReaderSpec R} {T : Type} (t : qpackTableCommon).
Implicit Types (m : progress T) (br : bitReader R).

(** The state of [handleMessage] for a state of the machine. *)
Definition conc m br : incoming R T := Incoming t (pr_sent m) br (pr_log m) (pr_handler m).

#[local] Abbreviation consumes := (consumes conc).
#[local] Abbreviation follows := (follows conc).

Lemma consumes_deliver d : consumes (deliver d) (delivered d) [].
Proof. by apply consumes_here. Qed.

Lemma consumes_handler {A} (h : go T A) : consumes (on_handler h) (handled h) [].
Proof.
  apply consumes_here. intros m br. unfold on_handler, handled, zoom. cbn. by destruct (h (pr_handler m)).
Qed.

(** Calls that only read the stream. *)
Lemma on_stream_run {A} (f : go (bitReader R) A) m br o br' : f br = (o, br') →
  on_stream f (conc m br) = (o, conc m br').
Proof. intros Hf. unfold on_stream, zoom. cbn. by rewrite Hf. Qed.

Lemma on_stream_catch {A B} (f : go (bitReader R) A) (k : A + goerr → go (incoming R T) B) m br a br' :
  f br = (Ok a, br') → (catch (on_stream f) ≫= k) (conc m br) = k (inl a) (conc m br').
Proof. intros Hf. rewrite bind_unfold. unfold catch. by rewrite (on_stream_run _ _ _ _ _ Hf). Qed.

Lemma on_stream_catch_err {A B} (f : go (bitReader R) A) (k : A + goerr → go (incoming R T) B) m br e br' :
  f br = (Err e, br') → (catch (on_stream f) ≫= k) (conc m br) = k (inr e) (conc m br').
Proof. intros Hf. rewrite bind_unfold. unfold catch. by rewrite (on_stream_run _ _ _ _ _ Hf). Qed.

(** [AddReader] on a payload: of one that is cut, less than [bufSize] bytes may be
    lost. *)
Lemma AddReader_cut skip bufSize n p m br : Forall is_byte p → payload_at br n p [] →
  0 < bufSize → (length p < skip)%nat →
  ∃ heard lost br', p = heard ++ lost ∧ zlen lost < bufSize ∧
    AddReader skip bufSize n (conc m br) = ((delivered (DBody heard) m).1, conc (delivered (DBody heard) m).2 br') ∧
    br_wf br' ∧ rbits br' = [].
Proof.
  intros Hp Hat Hbuf Hf. pose proof Hat as (Hwf & Hn & _).
  destruct (limited_start br n Hwf Hn) as [Hfr Hfl]. rewrite (payload_take br n p [] Hp Hat) in Hfl.
  set (fr := NewBitReader _) in *. set (I := LimitedReader_spec br n) in *.
  assert (content (IoReaderSpec := bitReader_spec) fr = p) as Hc by (change (bytes_of_bits (rbits fr) = p); by rewrite Hfl, bytes_of_bits_of_bytes_nil).
  destruct (CatDrain_spec (H0 := bitReader_spec) skip bufSize [] fr Hfr Hbuf)
    as (heard & lost & fr' & Hr & Hcl & Hlost & Hwf' & Hnil & Hres); [by rewrite Hc|].
  assert (rbits fr' = []) as Hend.
  { cbn in Hnil, Hres. rewrite (bits_split_trailing (rbits fr')), Hnil, Hres, Hfl.
    rewrite <- (app_nil_r (bits_of_bytes p)). by rewrite trailing_app. }
  destruct (limited_end br n p [] fr' Hp Hat Hwf' Hend) as [Hbr' Hl'].
  exists heard, lost, (lim_R (br_reader fr')). split_and!; [by rewrite <- Hc|done| |done|done].
  unfold AddReader. erewrite bind_Ok; [|apply on_stream_run; unfold on_Limited, zoom; fold fr; rewrite Hr; reflexivity]. done.
Qed.

Lemma AddReader_consumes skip bufSize p : Forall is_byte p → zlen p < 2 ^ 62 → 0 < bufSize → (length p < skip)%nat →
  consumes (AddReader skip bufSize (zlen p)) (delivered (DBody p)) (bits_of_bytes p).
Proof.
  intros Hp Hlen Hbuf Hf m br l Hwf Hl. pose proof (zlen_nonneg p).
  assert (ztake (zlen p) (content br) = p) as Htake
    by (cbn; rewrite Hl, bytes_of_bits_of_bytes by done; by apply ztake_app).
  destruct (CatDrain_whole (R := bitReader R) (H0 := bitReader_spec) skip bufSize [] 0 br (zlen p) Hwf Hbuf) as (br' & Hr & Hwf' & Hc & Hres).
  { split; [done|]. cbn. rewrite Hl, bytes_of_bits_of_bytes, zlen_app by done. pose proof (zlen_nonneg (bytes_of_bits l)). lia. }
  { unfold zlen. lia. }
  rewrite Htake in Hr, Hc. exists br'. split.
  - unfold AddReader. erewrite bind_Ok; [|apply on_stream_run; unfold on_Limited, zoom, NewBitReader].
    2: { rewrite i64_small by lia. rewrite Hr. reflexivity. } done.
  - split; [done|]. cbn in Hc, Hres. rewrite Hl, bytes_of_bits_of_bytes in Hc by done. apply app_inv_head in Hc.
    rewrite (bits_split_trailing (rbits br')), <- Hc, Hres, Hl, trailing_app by done. by rewrite <- bits_split_trailing.
Qed.

Lemma qdec_result {R' A} (o o' : outcome A) x x' (fr fr' : bitReader R') :
  (o, qdec x fr) = (o', qdec x' fr') → (o = o' ∧ x = x') ∧ fr = fr'.
Proof. destruct x, x'. by intros [= -> -> -> ->]. Qed.

(** The decoder on a block. *)
Lemma on_block_consumes pref id skip raw sign delta ls p : frame_ok pref t (FBlock raw sign delta ls p) →
  0 ≤ tbase t < 2 ^ 61 → (8 * length p < skip)%nat →
  consumes (on_block (zlen p) (ReadHeaderBlock skip id)) (block_fields t id raw sign delta ls) (bits_of_bytes p).
Proof.
  intros (Hp & Hlen & Hbits & Hraw & Hdelta & Hlow & Hls) Hb Hf m br l Hwf Hl. cbn [frame_payload] in *.
  pose proof (zlen_nonneg p).
  assert (payload_at br (zlen p) p l) as Hat by (split_and!; [done|lia|lia|done|by left]).
  destruct (limited_start br (zlen p) Hwf ltac:(lia)) as [Hfr Hfl]. rewrite (payload_take br _ p l Hp Hat) in Hfl.
  set (fr := NewBitReader _) in *. set (I := LimitedReader_spec br (zlen p)) in *.
  destruct (ReadHeaderBlock_safe (H0 := I) skip id (t, pr_sent m) fr Hfr) as (o & x & fr' & Hr & _ & Ht & Hx).
  { rewrite Hfl, zlen_bits_of_bytes. unfold zlen. lia. }
  exists (lim_R (br_reader fr')). unfold on_block, zoom.
  change (Decoding _ (NewBitReader _) _) with (qdec (t, pr_sent m) fr). rewrite Hr.
  destruct (ReadHeaderBlock_answers (H0 := I) pref (t, pr_sent m) id raw sign delta ls skip fr)
    as (x' & fr'' & Hrun); try done; [by rewrite Hfl|by eapply block_lines_fuel|].
  rewrite Hr in Hrun. unfold block_fields, lift. rewrite bind_unfold. cbn [fst] in Hrun.
  destruct (block_value t id raw sign delta ls) as [[hs evs]|e| |]; [|..|done].
  - destruct Hrun as (([-> ->] & ->)%qdec_result & -> & Hend).
    split; [done|]. exact (limited_end br (zlen p) p l _ Hp Hat (proj1 Hend) (proj2 Hend)).
  - apply qdec_result in Hrun as [[-> _] _]. by rewrite Hx.
  - apply qdec_result in Hrun as [[-> _] _]. by rewrite Hx.
Qed.

(** ** The loop *)

Section loop.
Context (pref : HuffmanCodingChoice) (bufSize id : Z) (skip : nat).
Variable headersHandler : list HeaderField → go T bool.
Variable frameHandler : Z → Z → go (incoming R T) unit.
Variable other : Z → list Z → go (progress T) unit.
Hypothesis Hbuf : 0 < bufSize.
Hypothesis Hbase : 0 ≤ tbase t < 2 ^ 61.
(** A frame that the message leaves to its owner. *)
Definition other_ok (f : frame) : Prop :=
  match f with
  | FOther ft p => consumes (frameHandler ft (zlen p)) (other ft p) (bits_of_bytes p)
  | _ => True
  end.

#[local] Abbreviation loop := (handleMessage_loop bufSize id headersHandler frameHandler).

(** What a round does with the header of a frame. *)
Definition round (fuel : nat) (got after : bool) (r : Z * Z + goerr) : go (incoming R T) unit :=
  match r with
  | inr EOF => mret tt
  | inr err => fail err
  | inl (ft, len) =>
      if after then fail ErrInvalidFrame else
      if ft =? frameData then
        if negb got then fail ErrInvalidFrame else
        AddReader skip bufSize len;; loop fuel skip got false
      else if ft =? frameHeaders then
        headers ← on_block len (ReadHeaderBlock skip id);
        lift (ValidatePseudoHeaders headers);;
        if got then deliver (DTrailers headers);; loop fuel skip got true
        else g ← on_handler (headersHandler headers); loop fuel skip g false
      else frameHandler ft len;; loop fuel skip got false
  end.

Lemma loop_round fuel got after s :
  loop (S fuel) skip got after s = (catch (on_stream ReadFrame) ≫= round fuel got after) s.
Proof. done. Qed.

Definition flags (ph : phase) : bool * bool :=
  match ph with Awaiting => (false, false) | InBody => (true, false) | AfterTrailers => (true, true) end.

(** The ending as it is heard decides between the runs of the machine. *)
Variable e : ending.
#[local] Abbreviation follows := (follows_some conc (hears bufSize e)).

Lemma hears_some : ∃ e', hears bufSize e e'.
Proof. exists e. by apply hears_all. Qed.

Lemma fails_follow {A} err bits : follows (fail err) (λ _, fail err : go (progress T) A) bits.
Proof. intros m br _ _. destruct hears_some as [e' ?]. by exists e', br. Qed.

Lemma frame_follows fuel ph f l a : frame_ok pref t f →
  follows (round fuel (flags ph).1 (flags ph).2 (inl (frame_type f, zlen (frame_payload f)))) a
    (bits_of_bytes (frame_payload f) ++ l) →
  follows (loop (S fuel) skip (flags ph).1 (flags ph).2) a
    (frame_bits (frame_type f) (frame_payload f) ++ l).
Proof.
  intros (Hp & Hlen & Hf) Hround m br Hwf Hl. pose proof (zlen_nonneg (frame_payload f)).
  assert (is_byte (frame_type f)) as Hft by (destruct f; [done|done|apply Hf]).
  unfold frame_bits in Hl. rewrite (assoc_L (++)), <- (assoc_L (++)) in Hl.
  destruct (ReadFrame_reads (R := R) (frame_type f) (zlen (frame_payload f)) Hft ltac:(lia) br _ Hwf Hl)
    as (br1 & Hr & Hwf1 & Hl1).
  rewrite loop_round. rewrite (on_stream_catch _ _ m _ _ _ Hr). by apply Hround.
Qed.

#[local] Abbreviation run := (message_run t id headersHandler other).

Lemma round_end fuel got after bits : ending_ok (CutHeader bits) → ∀ m br, br_wf br → rbits br = bits →
  ∃ br', loop (S fuel) skip got after (conc m br) = (Ok tt, conc m br').
Proof.
  intros He m br Hwf <-. destruct (ReadFrame_end br Hwf He) as (br1 & Hr).
  exists br1. rewrite loop_round. by rewrite (on_stream_catch_err _ _ m _ _ _ Hr).
Qed.

Lemma ending_follows fuel ph : ending_ok e → (1 < fuel)%nat →
  (∀ len p, e = CutData len p → (length p < skip)%nat) →
  follows (loop fuel skip (flags ph).1 (flags ph).2) (message_end ph) (ending_bits e).
Proof using Hbuf.
  intros He Hf Hskip m br Hwf Hl. destruct fuel as [|[|fuel]]; [lia..|].
  destruct e as [bits|len p]; [|destruct He as [Hp Hlen]].
  { destruct (round_end (S fuel) (flags ph).1 (flags ph).2 bits He m br Hwf Hl) as (br' & Hr). by exists (CutHeader bits), br'. }
  specialize (Hskip len p eq_refl). pose proof (zlen_nonneg p). cbn [ending_bits] in Hl. rewrite (assoc_L (++)) in Hl.
  destruct (ReadFrame_reads (R := R) frameData len ltac:(done) ltac:(lia) br _ Hwf Hl) as (br1 & Hr & Hwf1 & Hl1).
  rewrite loop_round, (on_stream_catch _ _ m _ _ _ Hr).
  destruct ph; cbn [flags fst snd round]; try (exists (CutData len p), br1; split; [by apply hears_all|done]).
  cbn [negb]. change (frameData =? frameData) with true. cbv beta iota.
  destruct (AddReader_cut skip bufSize len p m br1 Hp) as (heard & lost & br2 & Heard & Hlost & Hr2 & Hwf2 & Hl2);
    [split_and!; [done|lia|lia|by rewrite app_nil_r|right; split; [lia|done]]|done|done|].
  rewrite (bind_Ok _ _ _ _ _ Hr2).
  destruct (round_end fuel true false [] ending_clean (delivered (DBody heard) m).2 br2 Hwf2 Hl2) as (br3 & Hr3).
  exists (CutData len heard), br3. rewrite Hr3. split; [|done]. split; [done|]. by exists lost.
Qed.

Lemma block_follows fuel got raw sign delta ls p l (k : ending → list HeaderField → go (progress T) unit) :
  frame_ok pref t (FBlock raw sign delta ls p) → (8 * length p < skip)%nat →
  (∀ hs, follows (if got : bool then deliver (DTrailers hs);; loop fuel skip got true
                  else g ← on_handler (headersHandler hs); loop fuel skip g false) (λ e', k e' hs) l) →
  follows (round fuel got false (inl (frameHeaders, zlen p)))
    (λ e', hs ← block_fields t id raw sign delta ls; lift (ValidatePseudoHeaders hs);; k e' hs) (bits_of_bytes p ++ l).
Proof.
  intros Hok Hf Hk. unfold round. change (frameHeaders =? frameData) with false.
  change (frameHeaders =? frameHeaders) with true. cbv beta iota.
  eapply follows_some_bind; [apply hears_some|by eapply on_block_consumes|]. intros hs.
  apply (follows_some_bind _ _ _ _ _ _ [] l); [apply hears_some|apply consumes_lift|]. intros _. apply Hk.
Qed.

Lemma other_follows fuel got ft p l a k : frame_ok pref t (FOther ft p) → (8 * length p < skip)%nat →
  other_ok (FOther ft p) → other ft p = a → follows (loop fuel skip got false) k l →
  follows (round fuel got false (inl (ft, zlen p))) (λ e', a;; k e') (bits_of_bytes p ++ l).
Proof.
  intros Hok Hf Ho <- Hk. pose proof Hok as (_ & _ & _ & Hd & Hh). unfold round.
  rewrite (proj2 (Z.eqb_neq ft frameData)), (proj2 (Z.eqb_neq ft frameHeaders)) by done.
  eapply follows_some_bind; [apply hears_some|exact Ho|]. by intros _.
Qed.

Lemma loop_follows ph fs fuel : Forall (frame_ok pref t) fs → Forall other_ok fs → ending_ok e → (S (length fs) < fuel)%nat →
  Forall (λ f, 8 * length (frame_payload f) < skip)%nat fs →
  (∀ len p, e = CutData len p → (length p < skip)%nat) →
  follows (loop fuel skip (flags ph).1 (flags ph).2) (run ph fs) (frames_bits fs ++ ending_bits e).
Proof.
  intros Hfs Hoth He Hf Hskip Hend. revert ph fuel Hf. induction fs as [|f fs IH]; intros ph fuel Hf.
  { apply ending_follows; [done|cbn in Hf; lia|done]. }
  destruct fuel as [|fuel]; [lia|]. inversion Hfs as [|?? Hok Hfs']; subst. inversion Hskip as [|?? Hsk Hskip']; subst.
  apply Forall_cons in Hoth as [Ho Hoth]. specialize (IH Hfs' Hoth Hskip'). assert (S (length fs) < fuel)%nat as Hf' by (cbn in Hf; lia).
  change (frames_bits (f :: fs)) with (frame_bits (frame_type f) (frame_payload f) ++ frames_bits fs).
  rewrite <- (assoc_L (++)). apply frame_follows; [done|].
  destruct ph; [| |apply fails_follow]; cbn [flags fst snd].
  - destruct f as [p|raw sign delta ls p|ft p]; [apply fails_follow| |].
    + apply block_follows; [done..|]. intros hs.
      apply (follows_some_bind _ _ _ _ _ _ [] _); [apply hears_some|apply consumes_handler|].
      intros []; [apply (IH InBody)|apply (IH Awaiting)]; done.
    + apply (other_follows fuel false _ _ _ _ _ Hok Hsk Ho eq_refl). by apply (IH Awaiting).
  - destruct f as [p|raw sign delta ls p|ft p].
    + destruct Hok as (? & ? & _). cbn [frame_payload] in Hsk.
      eapply follows_some_bind; [apply hears_some|apply AddReader_consumes; [done..|cbn [frame_payload]; lia]|]. intros _. by apply (IH InBody).
    + apply block_follows; [done..|]. intros hs.
      apply (follows_some_bind _ _ _ _ _ _ [] _); [apply hears_some|apply consumes_deliver|]. intros _. by apply (IH AfterTrailers).
    + apply (other_follows fuel true _ _ _ _ _ Hok Hsk Ho eq_refl). by apply (IH InBody).
Qed.

(** The whole of [handleMessage]. *)
Lemma handleMessage_follows fs : Forall (frame_ok pref t) fs → Forall other_ok fs → ending_ok e →
  (length (frames_bits fs ++ ending_bits e) + 1 < skip)%nat →
  follows (handleMessage bufSize id headersHandler frameHandler skip) (message t id headersHandler other fs)
    (frames_bits fs ++ ending_bits e).
Proof using Hbuf Hbase.
  intros Hfs Hoth He Hfuel m br Hwf Hl. destruct (frames_fuel pref t fs e skip Hfs Hfuel) as (Hf & Hskip & Hend').
  assert (∀ len p, e = CutData len p → (length p < skip)%nat) as Hend by (intros len p ->; cbn in Hend'; lia).
  destruct (loop_follows Awaiting fs skip Hfs Hoth He Hf Hskip Hend m br Hwf Hl) as (e' & br' & He' & Hr). exists e', br'.
  split; [done|]. unfold handleMessage, message. rewrite !bind_unfold. unfold catch at 1. cbn [flags fst snd] in Hr. rewrite Hr.
  unfold catch. destruct (run Awaiting fs e' m) as [[[]|err| |] m']; [done| |done..]. by destruct err.
Qed.
End loop.

(** A stream that ends between frames, or within the header of one. *)
Lemma handleMessage_whole pref bufSize id skip headersHandler frameHandler other bits fs :
  0 < bufSize → 0 ≤ tbase t < 2 ^ 61 → Forall (frame_ok pref t) fs → Forall (other_ok frameHandler other) fs →
  header_cut bits → (length (frames_bits fs ++ bits) + 1 < skip)%nat →
  Streams.follows conc (handleMessage bufSize id headersHandler frameHandler skip)
    (message t id headersHandler other fs (CutHeader bits)) (frames_bits fs ++ bits).
Proof.
  intros Hbuf Hbase Hfs Hoth Hbits Hf m br Hwf Hl.
  destruct (handleMessage_follows pref bufSize id skip headersHandler frameHandler other Hbuf Hbase (CutHeader bits) fs
    Hfs Hoth Hbits Hf m br Hwf Hl) as (e' & br' & ->%hears_header & Hr). by exists br'.
Qed.
End refinement.

(** ** What is accepted *)

(** No frames but DATA and HEADERS, as for requests and for pushed responses. *)
Definition unsupported {S} (ft len : Z) : go S unit := fail ErrUnsupportedFrame.
Definition no_others {T} (ft : Z) (p : list Z) : go (progress T) unit := fail ErrUnsupportedFrame.

Lemma unsupported_consumes {R} `{IoReaderSpec R} {T} t ft p :
  consumes (R := R) (conc (T := T) t) (unsupported ft (zlen p)) (no_others ft p) (bits_of_bytes p).
Proof. intros m br l Hwf Hl. by exists br. Qed.

Lemma unsupported_ok {R} `{IoReaderSpec R} {T} t (fs : list frame) :
  Forall (other_ok (R := R) (T := T) t unsupported no_others) fs.
Proof. apply Forall_true. intros []; [done|done|]. apply unsupported_consumes. Qed.

Definition is_block (f : frame) : bool := match f with FBlock _ _ _ _ _ => true | _ => false end.

(** The bodies in a message's DATA frames. *)
Definition bodies (ps : list (list Z)) : list delivery := DBody <$> ps.

(** The body of a message: DATA frames and perhaps a header block after them, and
    what of it is delivered. *)
Inductive body_shape : list frame → ending → list delivery → Prop :=
| shape_body ps bits : body_shape (FData <$> ps) (CutHeader bits) (bodies ps)
| shape_cut ps len p : body_shape (FData <$> ps) (CutData len p) (bodies (ps ++ [p]))
| shape_trailers ps f bits hs : is_block f = true →
    body_shape ((FData <$> ps) ++ [f]) (CutHeader bits) (bodies ps ++ [DTrailers hs]).

(** A message: header blocks, of which only the last may begin a body. *)
Inductive message_shape : list frame → ending → list delivery → Prop :=
| shape_interim fs bits : forallb is_block fs = true → message_shape fs (CutHeader bits) []
| shape_final fs f body e ds : forallb is_block fs = true → is_block f = true → body_shape body e ds →
    message_shape (fs ++ f :: body) e ds.

Section accepted.
Context {T : Type} (t : qpackTableCommon) (id : Z) (headersHandler : list HeaderField → go T bool).
Implicit Types (m : progress T).
#[local] Abbreviation run := (message_run t id headersHandler no_others).

Lemma body_shape_data p fs e ds : body_shape fs e ds → body_shape (FData p :: fs) e (DBody p :: ds).
Proof.
  intros []; [apply (shape_body (p :: ps))|apply (shape_cut (p :: ps))|by apply (shape_trailers (p :: ps))].
Qed.

Lemma message_shape_block f fs e ds : is_block f = true → message_shape fs e ds → message_shape (f :: fs) e ds.
Proof.
  intros Hf [fs' bits Hfs|fs' g body e' ds' Hfs Hg Hb].
  - constructor. cbn. by rewrite Hf.
  - apply (shape_final (f :: fs')); [|done..]. cbn. by rewrite Hf.
Qed.

Lemma after_accepts fs e m m' : run AfterTrailers fs e m = (Ok tt, m') →
  fs = [] ∧ (∃ bits, e = CutHeader bits) ∧ m' = m.
Proof. destruct fs as [|f fs], e; try done. intros [= ->]. split_and!; [done|by eexists|done]. Qed.

Lemma run_block_log raw sign delta ls m hs m1 : block_fields t id raw sign delta ls m = (Ok hs, m1) →
  pr_log m1 = pr_log m.
Proof.
  unfold block_fields, lift. rewrite bind_unfold. by destruct (block_value _ _ _ _ _ _) as [[]| | |]; try done; intros [= _ <-].
Qed.

Lemma body_accepts fs e m m' : run InBody fs e m = (Ok tt, m') →
  ∃ ds, body_shape fs e ds ∧ pr_log m' = pr_log m ++ ds.
Proof.
  revert m. induction fs as [|[p|raw sign delta ls p|ft p] fs IH]; intros m Hr; cbn [message_run] in Hr; [| | |done].
  - destruct e as [bits|len p]; injection Hr as <-.
    + exists []. split; [apply (shape_body [])|]. by rewrite app_nil_r.
    + exists [DBody p]. split; [apply (shape_cut [])|done].
  - apply bind_Ok_inv in Hr as ([] & m1 & [= <-] & Hr). destruct (IH _ Hr) as (ds & Hds & Hlog).
    exists (DBody p :: ds). split; [by apply body_shape_data|]. rewrite Hlog. cbn. by rewrite <- (assoc_L (++)).
  - apply bind_Ok_inv in Hr as (hs & m1 & Hb%run_block_log & Hr).
    apply bind_Ok_inv in Hr as ([] & m2 & [= _ <-] & Hr).
    apply bind_Ok_inv in Hr as ([] & m3 & [= <-] & Hr).
    apply after_accepts in Hr as (-> & [bits ->] & ->). exists [DTrailers hs].
    split; [by apply (shape_trailers [])|]. cbn. by rewrite Hb.
Qed.

Lemma run_accepts fs e m m' : run Awaiting fs e m = (Ok tt, m') →
  ∃ ds, message_shape fs e ds ∧ pr_log m' = pr_log m ++ ds.
Proof.
  revert m. induction fs as [|[p|raw sign delta ls p|ft p] fs IH]; intros m Hr; cbn [message_run] in Hr; [|done| |done].
  - destruct e as [bits|len p]; [|done]. injection Hr as <-. exists []. split; [by constructor|by rewrite app_nil_r].
  - apply bind_Ok_inv in Hr as (hs & m1 & Hb%run_block_log & Hr).
    apply bind_Ok_inv in Hr as ([] & m2 & [= _ <-] & Hr).
    apply bind_Ok_inv in Hr as (got & m3 & Hh & Hr).
    assert (pr_log m3 = pr_log m) as Hlog.
    { unfold handled, zoom in Hh. destruct (headersHandler hs (pr_handler m1)). by injection Hh as _ <-. }
    destruct got.
    + apply body_accepts in Hr as (ds & Hds & ->). exists ds. split; [|by rewrite Hlog].
      by apply (shape_final [] (FBlock raw sign delta ls p) fs).
    + destruct (IH _ Hr) as (ds & Hds & ->). exists ds. split; [by apply message_shape_block|by rewrite Hlog].
Qed.
End accepted.
