(* ===== verification/MessageLink.v ===== *)
(** * Messages: the two ends together

    The bytes an outgoing message writes, and what an incoming message makes of
    them. *)

From S2P Require Import Prelude Bits GoIo BitWriter BitReader Streams Frame HcInt HuffmanTable Huffman HcString StaticTable Table Codec QpackTable QpackEncoder QpackDecoder QpackTableSpec QpackDecoderSpec QpackEncoderSpec QpackReach QpackIdle QpackLink QpackSizes QpackAck Headers Message MessageSpec.

(** ** Writing *)

Section writing.
Context {U : Type}.
Implicit Types (s : outgoing U Buffer).

(** What the message's stream has received. *)
Definition og_bytes s : list Z := buf_bytes (bw_writer (og_stream s)).

(** A frame reaches the stream whole. *)
Lemma sendFrame_bytes ft p s : is_byte ft → Forall is_byte p → zlen p < 2 ^ 62 → at_byte (og_stream s) →
  ∃ w bs, sendFrame ft p s = (Ok None, Outgoing (og_encoder s) (og_updates s) w (og_closed s)) ∧ at_byte w ∧
    buf_bytes (bw_writer w) = og_bytes s ++ bs ∧ Forall is_byte bs ∧ bits_of_bytes bs = frame_bits ft p.
Proof.
  intros Hft Hp Hlen Hat. destruct (WriteFrame_bytes ft p (og_stream s) Hft Hp Hlen Hat) as (n & w & bs & Hr & Hrest).
  exists w, bs. split; [|done]. unfold sendFrame, zoom. rewrite bind_unfold, Hr. done.
Qed.

(** The chunks of a body, one [Write] each. *)
Definition writeBody (chunks : list (list Z)) : go (outgoing U Buffer) unit :=
  foldr (λ p k, _ ← Write p; k) (mret tt) chunks.

Definition chunk_ok (p : list Z) : Prop := Forall is_byte p ∧ zlen p < 2 ^ 62.

Lemma writeBody_bytes chunks s : Forall chunk_ok chunks → at_byte (og_stream s) →
  ∃ w bs, writeBody chunks s = (Ok tt, Outgoing (og_encoder s) (og_updates s) w (og_closed s)) ∧ at_byte w ∧
    buf_bytes (bw_writer w) = og_bytes s ++ bs ∧ Forall is_byte bs ∧
    bits_of_bytes bs = frames_bits (FData <$> chunks).
Proof.
  intros Hc. revert s. induction Hc as [|p chunks [Hp Hlen] _ IH]; intros s Hat.
  { exists (og_stream s), []. rewrite app_nil_r. by destruct s. }
  destruct (sendFrame_bytes frameData p s ltac:(done) Hp Hlen Hat) as (w1 & b1 & Hr1 & Hw1 & Hac1 & Hb1 & Hf1).
  destruct (IH (Outgoing (og_encoder s) (og_updates s) w1 (og_closed s)) Hw1)
    as (w2 & b2 & Hr2 & Hw2 & Hac2 & Hb2 & Hf2).
  exists w2, (b1 ++ b2). cbn [writeBody foldr]. unfold Write. rewrite bind_assoc, (bind_Ok _ _ _ _ _ Hr1).
  split_and!; [exact Hr2|done| |by apply Forall_app|].
  - rewrite Hac2. unfold og_bytes at 1. cbn [og_stream]. by rewrite Hac1, (assoc_L (++)).
  - rewrite bits_of_bytes_app, Hf1, Hf2. done.
Qed.
End writing.

(** ** A message without trailers *)

(** A header block and a body on a stream that closes without an error. *)
Definition sendMessage (lower : string → string) (id : Z) (headers : list HeaderField) (chunks : list (list Z))
  : go (outgoing Buffer Buffer) unit :=
  writeHeaderBlock lower id headers;;
  writeBody chunks;;
  End_ lower id None None.

(** The message is written as its header block and one frame a chunk. *)
Lemma sendMessage_bytes lower id headers chunks e w ws : enc_ok e → at_byte w → at_byte ws →
  qe_base e + zlen headers < 2 ^ 60 →
  let st0 := initHeaders lower headers in Forall (field_ok (enc_pref e)) (ws_headers st0) → Forall chunk_ok chunks →
  ∃ us e1 st1 w1 updates, writeTableChanges id (Changing e w st0) = (Ok tt, Changing e1 w1 st1) ∧
    at_byte w1 ∧ buf_bytes (bw_writer w1) = buf_bytes (bw_writer w) ++ updates ∧ Forall is_byte updates ∧
    bits_of_bytes updates = updates_bits (enc_pref e) us ∧ prepared e (ws_headers st0) us e1 st1 ∧
    (names_live (qe_common_table e1) st1 = true →
     ∃ f e2, WriteHeaderBlock lower id headers (e, w, MkBuffer []) = (Ok tt, (e2, w1, MkBuffer (frame_payload f))) ∧
      (zlen (frame_payload f) < 2 ^ 62 →
       ∃ w2 bs, sendMessage lower id headers chunks (Outgoing e w ws false) = (Ok tt, Outgoing e2 w1 w2 true) ∧
         at_byte w2 ∧ buf_bytes (bw_writer w2) = buf_bytes (bw_writer ws) ++ bs ∧ Forall is_byte bs ∧
         bits_of_bytes bs = frames_bits (f :: (FData <$> chunks)) ∧
         frame_ok (enc_pref e1) (qe_common_table e1) f) ∧
      enc_ok e2 ∧ qe_common_table e2 = qe_common_table e1 ∧ is_block f = true ∧
      ∀ T (m : progress T), match f with
        | FBlock raw sign delta ls _ => block_fields (qe_common_table e1) id raw sign delta ls m =
            (Ok (ws_headers st0), (note (if 0 <? largestBase st1 then [EvAcknowledged id (largestBase st1)] else []) m).2)
        | _ => False
        end).
Proof.
  intros Hok Hw Hws Hb st0 Hf Hc.
  destruct (WriteHeaderBlock_bytes lower id headers e w [] Hok Hw ltac:(constructor) Hb Hf) as
    (us & e1 & st1 & w1 & updates & Hrun & Hw1 & Hac & Hbs & Hbits & Hp & Hblock).
  fold st0 in Hrun, Hp, Hblock. exists us, e1, st1, w1, updates. split_and!; try done.
  intros (raw & ls & e2 & block & Hr2 & Hok2 & Ht2 & Hbb & Hbits2 & Hls & Hraw & Hval & _ & _ & Hdec)%Hblock.
  exists (FBlock raw false 0 ls block), e2. split_and!; try done.
  - cbn [frame_payload]. intros Hlen.
    destruct (sendFrame_bytes frameHeaders block (Outgoing e2 w1 ws false) ltac:(done) Hbb Hlen Hws)
      as (w2 & b1 & Hs1 & Hw2 & Hac1 & Hb1 & Hf1).
    destruct (writeBody_bytes chunks (Outgoing e2 w1 w2 false) Hc Hw2) as (w3 & b2 & Hs2 & Hw3 & Hac2 & Hb2 & Hf2).
    exists w3, (b1 ++ b2). split_and!; [|done| |by apply Forall_app| |].
    + unfold sendMessage, writeHeaderBlock. rewrite bind_assoc, bind_unfold. unfold headerBlock. cbn [og_encoder og_updates].
      rewrite Hr2. cbn [buf_bytes og_stream og_closed]. rewrite bind_assoc, (bind_Ok _ _ _ _ _ Hs1).
      cbn [og_encoder og_updates og_closed]. rewrite bind_unfold, ret_unfold. rewrite (bind_Ok _ _ _ _ _ Hs2). done.
    + rewrite Hac2. unfold og_bytes in *. cbn [og_stream] in *. by rewrite Hac1, (assoc_L (++)).
    + by rewrite bits_of_bytes_app, Hf1, Hf2.
    + split_and!; try done. intros l. rewrite Hdec. intros [= <-].
      pose proof (si_largest _ _ (pp_inv _ _ _ _ _ Hp)). lia.
  - intros T m. unfold block_fields, lift. rewrite bind_unfold, Hval. done.
Qed.

(** ** Reading it *)

Lemma run_bodies {T} t id (handler : list HeaderField → go T bool) chunks bits (m : progress T) :
  message_run t id handler no_others InBody (FData <$> chunks) (CutHeader bits) m =
  (Ok tt, Progress (pr_sent m) (pr_log m ++ bodies chunks) (pr_handler m)).
Proof.
  revert m. induction chunks as [|p chunks IH]; intros m; cbn [fmap list_fmap message_run].
  - cbn. rewrite app_nil_r. by destruct m.
  - rewrite bind_unfold. cbn [delivered modS]. rewrite IH. cbn. by rewrite <- (assoc_L (++)).
Qed.

(** A header block that begins a body, and the body. *)
Lemma message_bodies {T} t id (handler : list HeaderField → go T bool) f hs evs chunks (m : progress T) h' :
  match f with
  | FBlock raw sign delta ls _ => block_fields t id raw sign delta ls m = (Ok hs, (note evs m).2)
  | _ => False
  end → ValidatePseudoHeaders hs = Ok tt → handler hs (pr_handler m) = (Ok true, h') →
  message t id handler no_others (f :: (FData <$> chunks)) (CutHeader []) m =
  (Ok tt, Progress (pr_sent m ++ evs) (pr_log m ++ bodies chunks) h').
Proof.
  intros Hf Hv Hh. destruct f as [|raw sign delta ls p|]; [done| |done].
  unfold message, catch. rewrite bind_unfold. cbn [message_run]. rewrite (bind_Ok _ _ _ _ _ Hf).
  unfold lift. rewrite bind_unfold, Hv, bind_unfold. unfold handled, zoom. cbn [note modS snd pr_handler]. rewrite Hh.
  by rewrite run_bodies.
Qed.

(** ** From one end to the other *)

(** What a header block of [n] fields on the stream [id] leaves behind: the encoder
    [e] becomes [e2] with the table [t], its stream [w], and the decoder has the
    messages [evs] for the goroutine that acknowledges. *)
Record carried (n id : Z) (e e2 : QpackEncoder) (w : bitWriter Buffer) (t : qpackTableCommon) (evs : list ackEvent) : Prop := {
  cd_inv : enc_inv e2;
  cd_table : qe_common_table e2 = t;
  cd_common : qe_common e2 = qe_common e;
  cd_base : qe_base e2 ≤ qe_base e + n;
  cd_writer : at_byte w;
  cd_events : is_u64 id → Forall event_ok evs;
  cd_idle : idle e → idle e2;
}.

(** The message about a block that refers to the table. *)
Definition block_events (id : Z) (st : qpackWriterState) : list ackEvent :=
  if 0 <? largestBase st then [EvAcknowledged id (largestBase st)] else [].

Lemma block_carried lower id headers e (w : bitWriter Buffer) b us e1 st1 w1 e2 block : enc_inv e →
  qe_base e + zlen headers < 2 ^ 60 →
  let fields := ws_headers (initHeaders lower headers) in Forall (field_ok (enc_pref e)) fields →
  writeTableChanges id (Changing e w (initHeaders lower headers)) = (Ok tt, Changing e1 w1 st1) → at_byte w1 →
  prepared e fields us e1 st1 → WriteHeaderBlock lower id headers (e, w, MkBuffer b) = (Ok tt, (e2, w1, block)) →
  carried (zlen headers) id e e2 w1 (qe_common_table e1) (block_events id st1).
Proof.
  intros Hinv Hb fields Hf Hrun Hw1 Hp Hwr. pose proof (initHeaders_length lower headers) as Hlen. fold fields in Hlen.
  destruct (WriteHeaderBlock_keeps lower id headers e w (MkBuffer b) Hinv ltac:(lia)) as [Hinv2 [u Heq]].
  { eapply Forall_impl; [exact Hf|]. intros h [Hn Hv]. by apply (Size_new_entry (enc_pref e)). }
  rewrite Hwr in Hinv2, Heq. rewrite Hrun in Heq. cbn [fst snd ch_encoder] in Hinv2, Heq. subst e2.
  pose proof (pp_base _ _ _ _ _ Hp). split; try done.
  - apply (pp_common _ _ _ _ _ Hp).
  - change (qe_base e1 ≤ qe_base e + zlen headers). lia.
  - intros Hid. unfold block_events. destruct (0 <? _) eqn:Hl; [|constructor]. apply Forall_singleton. split; [done|].
    apply Z.ltb_lt in Hl. pose proof (si_largest _ _ (pp_inv _ _ _ _ _ Hp)) as Hmax.
    change (tbase (qe_common_table e1)) with (qe_base e1) in Hmax. lia.
  - intros Hi. apply (idle_table e); [|exact Hi].
    pose proof (writeTableChanges_none (enc_pref e) id e w (initHeaders lower headers) (proj1 Hinv) Hi Hf) as Ht.
    by rewrite Hrun in Ht.
Qed.

(** A header block crosses, written after the bytes [b]: the encoder's table updates take a decoder with the same
    table to the new one, [t]; and if the names the block refers to are still there,
    it is written, and if its frame can be written, [P] holds of the encoder and its stream
    afterwards, of [t] and of the events the block gives. *)
Definition block_crosses (lower : string → string) (id : Z) (headers : list HeaderField) (b : list Z) (e : QpackEncoder) (w : bitWriter Buffer)
    (P : QpackEncoder → bitWriter Buffer → qpackTableCommon → list ackEvent → Prop) : Prop :=
  ∃ e1 st1 w1 updates, writeTableChanges id (Changing e w (initHeaders lower headers)) = (Ok tt, Changing e1 w1 st1) ∧
    buf_bytes (bw_writer w1) = buf_bytes (bw_writer w) ++ updates ∧
    (∀ sent fuel, (8 * length updates < fuel)%nat → ∃ evs br',
      ReadTableUpdates fuel (decoder_at (qe_common_table e) sent (MkBytesReader updates)) =
        (Ok tt, qdec (qe_common_table e1, sent ++ evs) br') ∧ Forall (available (qe_base e1)) evs) ∧
    (names_live (qe_common_table e1) st1 = true →
     ∃ block e2, WriteHeaderBlock lower id headers (e, w, MkBuffer b) = (Ok tt, (e2, w1, MkBuffer (b ++ block))) ∧
     (enc_inv e → carried (zlen headers) id e e2 w1 (qe_common_table e1) (block_events id st1)) ∧
     (zlen (b ++ block) < 2 ^ 62 → P e2 w1 (qe_common_table e1) (block_events id st1))).

Lemma block_crosses_mono lower id headers b e w (P Q : _ → _ → _ → _ → Prop) :
  (∀ e2 w1 t evs, P e2 w1 t evs → Q e2 w1 t evs) →
  block_crosses lower id headers b e w P → block_crosses lower id headers b e w Q.
Proof.
  intros HPQ (e1 & st1 & w1 & updates & Hrun & Hac & Hread & Hblock). exists e1, st1, w1, updates.
  split_and!; [done..|]. intros (block & e2 & Hwr & Hcd & HP)%Hblock. exists block, e2. split; [done|].
  split; [done|]. intros Hlen. apply HPQ, HP, Hlen.
Qed.

(** That the names are there and the frame can be written, by evaluation. *)
Definition crossable lower id headers b e (w : bitWriter Buffer) : bool :=
  let '(_, c) := writeTableChanges id (Changing e w (initHeaders lower headers)) in
  let '(_, (_, _, h)) := WriteHeaderBlock lower id headers (e, w, MkBuffer b) in
  names_live (qe_common_table (ch_encoder c)) (ch_state c) && (zlen (buf_bytes h) <? 2 ^ 62).

(** An encoder that may refer to nothing can always write a block of ordinary size. *)
Lemma crossable_idle lower id headers e (w : bitWriter Buffer) : enc_inv e → idle e → at_byte w →
  qe_base e + zlen headers < 2 ^ 60 →
  let fields := ws_headers (initHeaders lower headers) in Forall (field_ok (enc_pref e)) fields → block_short fields →
  crossable lower id headers [] e w = true.
Proof.
  intros [Hok _] Hi Hw Hb fields Hf Hshort.
  destruct (WriteHeaderBlock_bytes lower id headers e w [] Hok Hw ltac:(constructor) Hb Hf) as
    (us & e1 & st1 & w1 & updates & Hrun & _ & _ & _ & _ & Hp & Hblock).
  pose proof (writeTableChanges_none (enc_pref e) id e w (initHeaders lower headers) Hok Hi Hf) as Ht.
  rewrite Hrun in Ht. cbn [snd ch_encoder] in Ht. pose proof (idle_table _ _ Ht Hi) as Hi1.
  assert (names_live (qe_common_table e1) st1 = true) as Hlive.
  { apply unacked_live; [apply enc_table_wf, Hp|apply Hp|]. change (tbase (qe_common_table e1)) with (qe_base e1).
    rewrite (id_base _ Hi1). apply zlen_nonneg. }
  destruct (Hblock Hlive) as (raw & ls & e2 & block & Hr2 & _ & _ & _ & Hbits & _ & _ & Hval & _).
  pose proof (block_value_fits _ _ _ _ _ _ _ _ Hbits (Hval id) Hshort).
  unfold crossable. rewrite Hrun, Hr2. cbn [ch_encoder ch_state]. rewrite Hlive. apply Z.ltb_lt. cbn. lia.
Qed.

Lemma block_crosses_run lower id headers b e w P : crossable lower id headers b e w = true →
  block_crosses lower id headers b e w P → ∃ e2 w1 t evs updates, P e2 w1 t evs ∧
    (enc_inv e → carried (zlen headers) id e e2 w1 t evs) ∧
    buf_bytes (bw_writer w1) = buf_bytes (bw_writer w) ++ updates ∧
    ∀ sent fuel, (8 * length updates < fuel)%nat → ∃ evs br',
      ReadTableUpdates fuel (decoder_at (qe_common_table e) sent (MkBytesReader updates)) =
        (Ok tt, qdec (t, sent ++ evs) br') ∧ Forall (available (tbase t)) evs.
Proof.
  intros Hok (e1 & st1 & w1 & updates & Hrun & Hac & Hread & Hblock). unfold crossable in Hok. rewrite Hrun in Hok.
  destruct (WriteHeaderBlock lower id headers (e, w, MkBuffer b)) as [o [[e2 w2] h]] eqn:Hwr.
  apply andb_prop in Hok as [Hnames Hlen%Z.ltb_lt]. destruct (Hblock Hnames) as (block & e3 & [= _ _ _ ->] & Hcd & HP).
  exists e3, w1, (qe_common_table e1), (block_events id st1), updates. split_and!; [by apply HP|done..].
Qed.

Lemma block_crosses_elim lower id headers b e w P : crossable lower id headers b e w = true →
  block_crosses lower id headers b e w P → ∃ e2 w1 t evs, P e2 w1 t evs.
Proof.
  intros Hok Hcross. destruct (block_crosses_run _ _ _ _ _ _ _ Hok Hcross) as (e2 & w1 & t & evs & _ & HP & _).
  by exists e2, w1, t, evs.
Qed.

(** A message crosses, whatever the frames that its reader could also take. *)
Lemma message_crosses lower id headers chunks e w ws :
  enc_ok e → at_byte w → at_byte ws → qe_base e + zlen headers < 2 ^ 60 →
  let fields := ws_headers (initHeaders lower headers) in
  Forall (field_ok (enc_pref e)) fields → ValidatePseudoHeaders fields = Ok tt → Forall chunk_ok chunks →
  block_crosses lower id headers [] e w (λ e2 w1 t evs,
    ∃ w2 bs, sendMessage lower id headers chunks (Outgoing e w ws false) = (Ok tt, Outgoing e2 w1 w2 true) ∧
      at_byte w2 ∧ buf_bytes (bw_writer w2) = buf_bytes (bw_writer ws) ++ bs ∧
      ∀ T bufSize headersHandler frameHandler fuel sent log (h h' : T), 0 < bufSize →
        headersHandler fields h = (Ok true, h') → (8 * length bs + 1 < fuel)%nat →
        ∃ br', handleMessage bufSize id headersHandler frameHandler fuel
          (Incoming t sent (NewBitReader (MkBytesReader bs)) log h) =
          (Ok tt, Incoming t (sent ++ evs) br' (log ++ bodies chunks) h')).
Proof.
  intros Hok Hw Hws Hb fields Hf Hv Hc.
  destruct (sendMessage_bytes lower id headers chunks e w ws Hok Hw Hws Hb Hf Hc) as
    (us & e1 & st1 & w1 & updates & Hrun & Hw1 & Hac & Hbs & Hbits & Hp & Hblock).
  fold fields in Hp, Hblock. pose proof (initHeaders_length lower headers) as Hlen. fold fields in Hlen.
  exists e1, st1, w1, updates. split_and!; [done|done|by eapply (updates_read _ fields); [..|exact Hp]; rewrite ?Hlen|].
  intros (f & e2 & Hwr & Hsend & Hok2 & Ht2 & Hfb & Hfields)%Hblock. exists (frame_payload f), e2. split; [done|].
  split; [intros Hinv; by eapply block_carried|].
  intros (w2 & bs & Hs & Hw2 & Hac2 & Hbb & Hbits2 & Hfok)%Hsend. exists w2, bs. split_and!; [done..|].
  intros T bufSize headersHandler frameHandler fuel sent log h h' Hbuf Hh Hfuel.
  destruct (reader_start (MkBytesReader bs)) as [Hbr Hl]; [exact Hbb|]. cbn [content bytesReader_spec rest] in Hl.
  pose proof (enc_base_nonneg e1 (pp_enc _ _ _ _ _ Hp)). pose proof (pp_base _ _ _ _ _ Hp).
  destruct (handleMessage_whole (qe_common_table e1) (enc_pref e1) bufSize id fuel headersHandler frameHandler no_others [])
    with (f :: (FData <$> chunks)) (Progress sent log h) (NewBitReader (MkBytesReader bs)) as (br' & Hr); [exact Hbuf|..].
  - change (tbase (qe_common_table e1)) with (qe_base e1). lia.
  - apply Forall_cons. split; [done|]. apply Forall_fmap, (Forall_impl _ _ _ Hc). by intros p [Hpb Hpl].
  - apply Forall_cons. split; [by destruct f|]. by apply Forall_fmap, Forall_true.
  - apply ending_clean.
  - rewrite app_nil_r, <- Hbits2. pose proof (bytes_length bs _ eq_refl). lia.
  - exact Hbr.
  - by rewrite app_nil_r, Hl.
  - exists br'. specialize (Hfields T (Progress sent log h)).
    erewrite message_bodies in Hr; [exact Hr|exact Hfields|done|exact Hh].
Qed.
