(* ===== verification/Connection.v ===== *)
(** * Connections (connection.go)

    What the two ends of a connection share: starting it, the control stream and
    the dispatch of unidirectional streams. Each stream is served by a goroutine of
    its own; here a stream is served to its end, and what a goroutine waits for is
    [ErrWouldBlock]. The frames that only one end understands go to a
    [ConnectionHandler]. *)

From S2P Require Import Prelude Bits GoIo BitWriter BitReader Streams Frame HcInt HuffmanTable Huffman HcString StaticTable Table Codec QpackTable QpackEncoder QpackDecoder Settings.

(** ** Codes *)

Definition ErrHttpStopping : Z := 0x0.
Definition ErrHttpNoError : Z := 0x1.
Definition ErrHttpPushRefused : Z := 0x2.
Definition ErrHttpInternalError : Z := 0x3.
Definition ErrHttpPushAlreadyInCache : Z := 0x4.
Definition ErrHttpRequestCancelled : Z := 0x5.
Definition ErrHttpDecompressionFailed : Z := 0x6.
Definition ErrHttpUnknownStreamType : Z := 0xd.

Definition HTTPError_String (e : Z) : string :=
  if e =? ErrHttpStopping then "STOPPING"%string
  else if e =? ErrHttpNoError then "NO_ERROR"%string
  else if e =? ErrHttpPushRefused then "PUSH_REFUSED"%string
  else if e =? ErrHttpInternalError then "INTERNAL_ERROR"%string
  else if e =? ErrHttpPushAlreadyInCache then "PUSH_ALREADY_IN_CACHE"%string
  else if e =? ErrHttpRequestCancelled then "REQUEST_CANCELLED"%string
  else if e =? ErrHttpDecompressionFailed then "HTTP_HPACK_DECOMPRESSION_FAILED"%string
  else if e =? ErrHttpUnknownStreamType then "HTTP_UNKNOWN_STREAM_TYPE"%string
  else "Too lazy to do this right now"%string.

Definition ErrWtf : Z := 3.

Definition unidirectionalStreamControl : Z := 0x43.
Definition unidirectionalStreamPush : Z := 0x50.
Definition unidirectionalStreamQpackEncoder : Z := 0x48.
Definition unidirectionalStreamQpackDecoder : Z := 0x68.

Definition unidirectionalStreamType_String (ut : Z) : string :=
  if ut =? unidirectionalStreamControl then "Control"%string
  else if ut =? unidirectionalStreamPush then "Push"%string
  else if ut =? unidirectionalStreamQpackEncoder then "QPACK Encoder"%string
  else if ut =? unidirectionalStreamQpackDecoder then "QPACK Decoder"%string
  else "Unknown"%string.

(** ** The connection *)

(** [c_acks] are the messages for the goroutine that acknowledges, and
    [c_fatal] the codes the connection was closed with. *)
Record connection (W : Type) := Connection {
  c_config : Config;
  c_decoder : qpackTableCommon;
  c_acks : list ackEvent;
  c_decoderClosed : bool;
  c_encoder : QpackEncoder;
  c_updates : bitWriter W;        (* the encoder's stream *)
  c_controlStream : bitWriter W;
  c_ready : bool;                 (* the channel [ready] is closed *)
  c_fatal : list Z;
}.
Arguments Connection {W}.
Arguments c_config {W}.
Arguments c_decoder {W}.
Arguments c_acks {W}.
Arguments c_decoderClosed {W}.
Arguments c_encoder {W}.
Arguments c_updates {W}.
Arguments c_controlStream {W}.
Arguments c_ready {W}.
Arguments c_fatal {W}.

Section connection.
Context {W : Type} `{IoWriter W}.
Implicit Types (c : connection W).

Definition set_decoder (t : qpackTableCommon) (acks : list ackEvent) c : connection W :=
  Connection (c_config c) t acks (c_decoderClosed c) (c_encoder c) (c_updates c) (c_controlStream c) (c_ready c) (c_fatal c).
Definition set_encoder (e : QpackEncoder) c : connection W :=
  Connection (c_config c) (c_decoder c) (c_acks c) (c_decoderClosed c) e (c_updates c) (c_controlStream c) (c_ready c) (c_fatal c).
Definition set_updates (w : bitWriter W) c : connection W :=
  Connection (c_config c) (c_decoder c) (c_acks c) (c_decoderClosed c) (c_encoder c) w (c_controlStream c) (c_ready c) (c_fatal c).
Definition set_control (w : bitWriter W) c : connection W :=
  Connection (c_config c) (c_decoder c) (c_acks c) (c_decoderClosed c) (c_encoder c) (c_updates c) w (c_ready c) (c_fatal c).
Definition set_ready c : connection W :=
  Connection (c_config c) (c_decoder c) (c_acks c) (c_decoderClosed c) (c_encoder c) (c_updates c) (c_controlStream c) true (c_fatal c).
Definition set_decoderClosed c : connection W :=
  Connection (c_config c) (c_decoder c) (c_acks c) true (c_encoder c) (c_updates c) (c_controlStream c) (c_ready c) (c_fatal c).
Definition add_fatal (e : Z) c : connection W :=
  Connection (c_config c) (c_decoder c) (c_acks c) (c_decoderClosed c) (c_encoder c) (c_updates c) (c_controlStream c)
    (c_ready c) (c_fatal c ++ [e]).

Definition on_control {A} (m : go (bitWriter W) A) : go (connection W) A := zoom c_controlStream set_control m.

(** [FatalError]; the answer of the QUIC library is never looked at. *)
Definition FatalError (e : Z) : go (connection W) unit := modS (add_fatal e).

(** ** Starting *)

(** The SETTINGS payload in a buffer of its own. *)
Definition settingsBuffer (config : Config) : outcome (Z * option goerr * list Z) :=
  match WriteTo config (NewBitWriter (MkBuffer [])) with
  | (Ok (n, e), w) => Ok (n, e, buf_bytes (bw_writer w))
  | (Err e, _) => Err e
  | (Panic, _) => Panic
  | (NoFuel, _) => NoFuel
  end.

Definition sendSettings (config : Config) : go (bitWriter W) unit :=
  WriteByte unidirectionalStreamControl;;
  '(n, err, buf) ← lift (settingsBuffer config);
  match err with
  | Some e => fail e
  | None =>
      if n =? zlen buf then
        '(_, err) ← WriteFrame frameSettings buf;
        match err with Some e => fail e | None => mret tt end
      else fail ErrStreamBlocked
  end.

(** [stream.Write] of one byte, and its error. *)
Definition writeStreamType (t : Z) : go W unit :=
  '(_, err) ← io_Write [t];
  match err with Some e => fail e | None => mret tt end.

(** The streams [connect] creates, in order: control, table updates and
    acknowledgments. *)
Record streams := Streams {
  st_control : bitWriter W;
  st_updates : W;
  st_acks : W;
}.

(** [connect], once the transport is connected. The settings of the peer may take
    away the capacity of 0; the encoder may refer to nothing either way. *)
Definition connect (config : Config) : go streams (connection W) :=
  zoom st_control (λ w s, Streams w (st_updates s) (st_acks s)) (sendSettings config);;
  zoom st_updates (λ w s, Streams (st_control s) w (st_acks s)) (writeStreamType unidirectionalStreamQpackEncoder);;
  encoder ← lift (NewQpackEncoder 0 0);
  zoom st_acks (λ w s, Streams (st_control s) (st_updates s) w) (writeStreamType unidirectionalStreamQpackDecoder);;
  s ← getS;
  mret (Connection config (NewQpackDecoderTable (DecoderTableCapacity config)) [] false encoder
          (NewBitWriter (st_updates s)) (st_control s) false []).
End connection.

(** ** Handlers *)

(** [connectionHandler]: what clients and servers do with the frames and streams
    that only they handle. [S] is their state, which contains the connection. A
    frame's payload and a stream are readers. *)
Class ConnectionHandler (W S : Type) := {
  base : S → connection W;
  set_base : connection W → S → S;
  HandleFrame : ∀ {R} `{IoReader R}, Z → go (S * bitReader R) unit;
  HandleUnidirectionalStream : ∀ {R} `{IoReader R}, nat → Z → go (S * bitReader R) unit;
}.

Section serving.
Context {W S R : Type} `{ConnectionHandler W S} `{IoReader R}.

Definition on_base {A T} (m : go (connection W) A) : go (S * T) A :=
  zoom (λ s, base s.1) (λ c s, (set_base c s.1, s.2)) m.
Definition on_recv {A T} (m : go T A) : go (S * T) A := zoom snd (λ r s, (s.1, r)) m.

(** A call that is given the payload of a frame. *)
Definition on_payload {A} (len : Z) (m : go (S * bitReader (LimitedReader (bitReader R))) A)
  : go (S * bitReader R) A :=
  zoom (λ s, (s.1, NewBitReader (MkLimitedReader s.2 (i64 len)))) (λ s _, (s.1, lim_R (br_reader s.2))) m.

(** ** The control stream *)

Definition handlePriority {T} `{IoReader T} (fuel : nat) : go (S * bitReader T) unit :=
  err ← on_recv (CopyDiscard fuel);
  match err with
  | Some e => on_base (FatalError ErrWtf);; fail e
  | None => mret tt
  end.

Definition readSettingsFrame {T} `{IoReader T} (fuel : nat) : go (S * bitReader T) unit :=
  zoom (λ s, (c_encoder (base s.1), s.2)) (λ x s, (set_base (set_encoder x.1 (base s.1)) s.1, x.2)) (readSettings fuel).

(** [close(ready)]; closing twice panics. *)
Definition closeReady : go (connection W) unit :=
  c ← getS;
  if c_ready c then panic else modS set_ready.

Fixpoint controlFrames (fuel skip : nat) : go (S * bitReader R) unit :=
  match fuel with
  | O => nofuel
  | Datatypes.S fuel' =>
      '(t, len) ← on_recv ReadFrame;
      on_payload len (if t =? framePriority then handlePriority skip else HandleFrame t);;
      controlFrames fuel' skip
  end.

(** A first frame of another type ends the service without an error. *)
Definition serviceControlStream (fuel : nat) : go (S * bitReader R) unit :=
  '(t, len) ← on_recv ReadFrame;
  if t =? frameSettings then
    on_payload len (readSettingsFrame fuel);;
    on_base closeReady;;
    controlFrames fuel fuel
  else mret tt.

(** ** Unidirectional streams *)

(** [decoder.Close()]; closing its channel twice panics. *)
Definition closeDecoder : go (connection W) unit :=
  c ← getS;
  if c_decoderClosed c then panic else modS set_decoderClosed.

Definition serviceTableUpdates (fuel : nat) : go (S * bitReader R) unit :=
  zoom (λ s, Decoding (c_decoder (base s.1)) s.2 (c_acks (base s.1)))
    (λ d s, (set_base (set_decoder (qd_table d) (qd_sent d) (base s.1)) s.1, qd_reader d)) (ReadTableUpdates fuel).

Definition serviceAcknowledgments (fuel : nat) : go (S * bitReader R) unit :=
  zoom (λ s, (c_encoder (base s.1), s.2)) (λ x s, (set_base (set_encoder x.1 (base s.1)) s.1, x.2))
    (ServiceAcknowledgments_loop fuel).

(** The goroutine of [serviceUnidirectionalStreams] for one stream. The error of
    the control stream is dropped. *)
Definition serviceUnidirectionalStream (fuel : nat) : go (S * bitReader R) unit :=
  r ← catch (on_recv ReadByte);
  match r with
  | inr _ => on_base (FatalError ErrWtf)
  | inl t =>
      r ← (if t =? unidirectionalStreamControl then
             _ ← catch (serviceControlStream fuel);
             mret (inl tt)
           else if t =? unidirectionalStreamQpackDecoder then
             catch (serviceAcknowledgments fuel)
           else if t =? unidirectionalStreamQpackEncoder then
             r ← catch (serviceTableUpdates fuel);
             on_base closeDecoder;;
             mret r
           else catch (HandleUnidirectionalStream fuel t));
      match r with
      | inr _ => on_base (FatalError ErrWtf)
      | inl _ => mret tt
      end
  end.
End serving.
