(* ===== verification/ConnectionSpec.v ===== *)
(** * The control stream: an abstract service and its refinement

    What a control stream does to a connection, frame by frame, for any handler
    that keeps the contract [HandlerSpec]; and that [serviceControlStream] (see
    [Connection]) does it. *)

From S2P Require Import Prelude Bits GoIo BitWriter BitReader Streams Frame HcInt HuffmanTable Huffman HcString StaticTable Table Codec QpackTable QpackEncoder QpackDecoder Settings Connection.

(** ** Identifiers in payloads *)

(** What [ReadVarint] and [CheckForEOF] make of a payload. *)
Definition parse_id (p : list Z) : outcome Z :=
  match take_varint (bits_of_bytes p) with
  | None => Err EOF
  | Some (v, l) => if zlen l <? 8 then Ok v else Err ErrExtraData
  end.

Lemma take_varint_whole l v l' : take_varint l = Some (v, l') → ∃ k, zlen l = zlen l' + 8 * k.
Proof.
  unfold take_varint. destruct (Z.ltb_spec (zlen l) 2); [done|]. destruct (Z.ltb_spec (zlen (zdrop 2 l)) (8 * 2 ^ val_of (ztake 2 l) - 2)); [done|].
  intros [= _ <-]. pose proof (val_of_bound (ztake 2 l)) as Hb.
  assert (1 ≤ 2 ^ val_of (ztake 2 l)) by (pose proof (Z.pow_pos_nonneg 2 (val_of (ztake 2 l))); lia).
  exists (2 ^ val_of (ztake 2 l)). rewrite zlen_zdrop by lia. rewrite zlen_zdrop by lia. lia.
Qed.

Section ids.
Context {R : Type} `{IoReaderSpec R}.

Lemma readID_exact p (br : bitReader R) : br_wf br → rbits br = bits_of_bytes p →
  ∃ br', (id ← ReadVarint; CheckForEOF;; mret id) br = (parse_id p, br') ∧
    match parse_id p with Ok _ => br_wf br' ∧ rbits br' = [] | _ => True end.
Proof.
  intros Hwf Hl. destruct (ReadVarint_exact br Hwf) as (br1 & Hwf1 & Hr). rewrite Hl in Hr. unfold parse_id.
  destruct (take_varint (bits_of_bytes p)) as [[v l]|] eqn:Hv.
  - destruct Hr as [Hr Hl1]. rewrite (bind_Ok _ _ _ _ _ Hr).
    destruct (CheckForEOF_exact br1 Hwf1) as (br2 & Hwf2 & Hr2). rewrite Hl1 in Hr2. exists br2.
    destruct (Z.ltb_spec (zlen l) 8).
    + destruct Hr2 as [Hr2 Hl2]. rewrite (bind_Ok _ _ _ _ _ Hr2). split; [done|split; [done|]]. rewrite Hl2.
      apply zlen_0. destruct (take_varint_whole _ _ _ Hv) as [k Hk]. rewrite zlen_bits_of_bytes in Hk.
      pose proof (zlen_nonneg l). lia.
    + by rewrite (bind_Err _ _ _ _ _ Hr2).
  - exists br1. by rewrite (bind_Err _ _ _ _ _ Hr).
Qed.
End ids.

(** ** The contract of a handler *)

(** [frame_effect t p] is what a frame of type [t] with payload [p] does; the
    handler does it, and takes the whole payload unless it fails. *)
Class HandlerSpec (W S : Type) `{ConnectionHandler W S} := {
  frame_effect : Z → list Z → go S unit;
  HandleFrame_spec : ∀ {R} `{IoReaderSpec R} t p, Forall is_byte p →
    exhausts (R := R) pair (HandleFrame t) (frame_effect t p) (bits_of_bytes p);
}.

Section service.
Context {W S : Type} `{HandlerSpec W S}.

(** A method of the connection. *)
Definition at_base {A} (m : go (connection W) A) : go S A := zoom base set_base m.

Definition control_effect (t : Z) (p : list Z) : go S unit :=
  if t =? framePriority then mret tt else frame_effect t p.

(** Frames as type and payload; the service ends with the stream. *)
Fixpoint control_run (fs : list (Z * list Z)) : go S unit :=
  match fs with
  | [] => fail EOF
  | (t, p) :: fs => control_effect t p;; control_run fs
  end.

(** A control stream: its settings, then its frames. *)
Definition control_service (xs : list setting) (fs : list (Z * list Z)) : go S unit :=
  at_base (zoom c_encoder set_encoder (settings_apply xs));;
  at_base closeReady;;
  control_run fs.

Definition control_ok (f : Z * list Z) : Prop := is_byte f.1 ∧ Forall is_byte f.2 ∧ zlen f.2 < 2 ^ 62.

Definition control_bits (fs : list (Z * list Z)) : list bool := mjoin ((λ f, frame_bits f.1 f.2) <$> fs).

Context {R : Type} `{IoReaderSpec R}.
#[local] Abbreviation pr := (@pair S (bitReader R)).

Lemma on_payload_consumes {A} (m : go (S * bitReader (LimitedReader (bitReader R))) A) a p :
  Forall is_byte p → zlen p < 2 ^ 62 →
  (∀ br, exhausts (H0 := LimitedReader_spec br (zlen p)) pair m a (bits_of_bytes p)) →
  consumes pr (on_payload (zlen p) m) a (bits_of_bytes p).
Proof.
  intros Hp Hlen Hm x br l Hwf Hl. pose proof (zlen_nonneg p).
  assert (payload_at br (zlen p) p l) as Hat by (split_and!; [done|lia|lia|done|by left]).
  destruct (limited_start br (zlen p) Hwf ltac:(lia)) as [Hfr Hfl]. rewrite (payload_take br _ p l Hp Hat) in Hfl.
  destruct (Hm br x _ Hfr Hfl) as (fr' & Hr & Hend). exists (lim_R (br_reader fr')).
  unfold on_payload, zoom. cbn [fst snd]. rewrite Hr. split; [done|].
  destruct (a x) as [[]]; cbn in Hend |- *; try done. destruct Hend as [Hwf' Hnil].
  exact (limited_end br (zlen p) p l fr' Hp Hat Hwf' Hnil).
Qed.

Lemma ReadFrame_follows {B} t len (kc : Z * Z → go (S * bitReader R) B) ka l : is_byte t → 0 ≤ len < 2 ^ 62 →
  follows pr (kc (t, len)) ka l →
  follows pr (on_recv ReadFrame ≫= kc) ka ((varint_bits len ++ zbits 8 t) ++ l).
Proof.
  intros Ht Hlen Hk. apply (follows_reads pr (on_recv ReadFrame) ReadFrame (t, len)); [|by apply ReadFrame_reads|done].
  intros x br. unfold on_recv, zoom. cbn [fst snd]. by destruct (ReadFrame br).
Qed.
End service.

Section priority.
Context {W S : Type} `{ConnectionHandler W S} {R : Type} `{IoReaderSpec R}.

Lemma handlePriority_exhausts fuel p : Forall is_byte p → (length p < fuel)%nat →
  exhausts (R := R) pair (handlePriority (W := W) (S := S) fuel) (mret tt) (bits_of_bytes p).
Proof.
  intros Hp Hf x br Hwf Hl. destruct (CopyDiscard_drains fuel p Hp Hf br Hwf Hl) as (br' & Hr & Hend).
  exists br'. unfold handlePriority. rewrite bind_unfold. unfold on_recv, zoom. cbn [snd]. by rewrite Hr.
Qed.

Lemma readSettingsFrame_exhausts xs p fuel : Forall setting_ok xs → bits_of_bytes p = mjoin (setting_bits <$> xs) →
  (length p < fuel)%nat →
  exhausts (R := R) pair (readSettingsFrame (W := W) (S := S) fuel)
    (zoom base set_base (zoom c_encoder set_encoder (settings_apply xs))) (bits_of_bytes p).
Proof.
  intros Hxs Hbits Hf x br Hwf Hl. rewrite Hbits in Hl.
  pose proof (zlen_bits_of_bytes p) as Hlen. rewrite Hbits in Hlen. unfold zlen in Hlen.
  assert (Forall (λ y, 8 * length (setting_bytes y) + 16 ≤ length (mjoin (setting_bits <$> xs)))%nat xs) as Hall.
  { apply Forall_forall. intros y Hy. pose proof (mjoin_elem_length setting_bits xs y Hy). pose proof (setting_bits_length y). lia. }
  destruct (readSettings_applies xs (c_encoder (base x)) br fuel fuel Hxs) as (br' & Hr & Hend); [..|exact Hwf|exact Hl|].
  - apply (Forall_impl _ _ _ Hall). lia.
  - enough (8 * length xs ≤ length (mjoin (setting_bits <$> xs)))%nat by lia. clear -xs.
    induction xs as [|y xs IH]; [done|]. change (mjoin (setting_bits <$> y :: xs)) with (setting_bits y ++ mjoin (setting_bits <$> xs)).
    rewrite length_app. pose proof (setting_bits_length y). cbn [length]. lia.
  - exists br'. unfold readSettingsFrame, readSettings, zoom. cbn [fst snd]. rewrite Hr.
    destruct (settings_apply xs (c_encoder (base x))) as [o e']. by destruct o.
Qed.
End priority.

(** ** The service *)

Section control.
Context {W S : Type} `{HandlerSpec W S} {R : Type} `{IoReaderSpec R}.
#[local] Abbreviation pr := (@pair S (bitReader R)).

Lemma frame_consumes skip t p : control_ok (t, p) → (length p < skip)%nat →
  consumes pr (on_payload (zlen p) (if t =? framePriority then handlePriority skip else HandleFrame t))
    (control_effect t p) (bits_of_bytes p).
Proof.
  intros (Ht & Hp & Hlen) Hs. apply on_payload_consumes; [done..|]. intros br. unfold control_effect.
  destruct (t =? framePriority).
  - by apply (handlePriority_exhausts (H1 := LimitedReader_spec br (zlen p))).
  - by apply (@HandleFrame_spec W S _ _ _ _ (LimitedReader_spec br (zlen p)) t p Hp).
Qed.

Lemma controlFrames_follows skip fs e fuel : Forall control_ok fs → Forall (λ f, length f.2 < skip)%nat fs →
  header_cut e → (length fs < fuel)%nat →
  follows pr (controlFrames fuel skip) (control_run fs) (control_bits fs ++ e).
Proof.
  intros Hfs Hsk He. revert fuel. induction Hfs as [|[t p] fs Hf _ IH]; intros [|fuel] Hfuel; cbn [length] in Hfuel; try lia.
  - intros x br Hwf Hl. change (rbits br = e) in Hl. subst e. destruct (ReadFrame_end br Hwf He) as (br' & Hr). exists br'.
    cbn [controlFrames control_run]. rewrite bind_unfold. unfold on_recv, zoom. cbn [snd]. by rewrite Hr.
  - apply Forall_cons in Hsk as [Hs Hsk]. pose proof Hf as (Ht & Hp & Hlen). cbn [fst snd] in *. pose proof (zlen_nonneg p).
    change (control_bits ((t, p) :: fs)) with (frame_bits t p ++ control_bits fs). unfold frame_bits.
    rewrite <- !(assoc_L (++)), (assoc_L (++)). cbn [controlFrames].
    apply ReadFrame_follows; [done|lia|]. cbv beta iota. cbn [control_run].
    apply (follows_bind pr); [by apply frame_consumes|]. intros _. apply IH; [done|lia].
Qed.

Lemma control_fuel fs e fuel : Forall control_ok fs → (length (control_bits fs ++ e) < fuel)%nat →
  (length fs < fuel)%nat ∧ Forall (λ f, length f.2 < fuel)%nat fs.
Proof.
  intros Hfs. rewrite length_app. intros Hf. assert (length (control_bits fs) < fuel)%nat as Hlt by lia. clear Hf.
  induction Hfs as [|[t p] fs (_ & _ & Hlen) _ IH]; [by cbn in Hlt |- *|].
  change (control_bits ((t, p) :: fs)) with (frame_bits t p ++ control_bits fs) in Hlt. rewrite length_app in Hlt.
  pose proof (frame_bits_length t p Hlen). destruct IH as [IH1 IH2]; [lia|].
  split; [|constructor; [cbn; lia|done]]. cbn [length].
  enough (length fs ≤ length (control_bits fs))%nat by lia. clear. induction fs as [|[t p] fs IH]; [done|].
  change (control_bits ((t, p) :: fs)) with (frame_bits t p ++ control_bits fs). rewrite length_app. cbn [length].
  enough (1 ≤ length (frame_bits t p))%nat by lia. unfold frame_bits. rewrite !length_app.
  change (length (zbits 8 t)) with 8%nat. lia.
Qed.

Lemma closeReady_consumes : consumes pr (on_base closeReady) (at_base closeReady) [].
Proof. apply consumes_here. intros x br. unfold on_base, at_base, zoom. cbn [fst snd]. by destruct (closeReady (base x)). Qed.

Lemma serviceControlStream_follows xs p fs e fuel : Forall setting_ok xs → Forall is_byte p → zlen p < 2 ^ 62 →
  bits_of_bytes p = mjoin (setting_bits <$> xs) → Forall control_ok fs → header_cut e →
  (length (frame_bits frameSettings p ++ control_bits fs ++ e) < fuel)%nat →
  follows pr (serviceControlStream fuel) (control_service xs fs) (frame_bits frameSettings p ++ control_bits fs ++ e).
Proof.
  intros Hxs Hp Hlen Hbits Hfs He Hf. rewrite length_app in Hf. pose proof (frame_bits_length frameSettings p Hlen).
  pose proof (zlen_nonneg p). destruct (control_fuel fs e fuel Hfs) as [Hf1 Hf2]; [lia|].
  unfold frame_bits. rewrite <- !(assoc_L (++)), (assoc_L (++)). unfold serviceControlStream.
  apply ReadFrame_follows; [done|lia|]. change (frameSettings =? frameSettings) with true. cbv beta iota.
  unfold control_service. apply (follows_bind pr).
  { apply on_payload_consumes; [done..|]. intros br.
    apply (readSettingsFrame_exhausts (H1 := LimitedReader_spec br (zlen p)) xs p fuel Hxs Hbits). lia. }
  intros _. apply (follows_bind pr _ _ _ _ []); [apply closeReady_consumes|]. intros _. by apply controlFrames_follows.
Qed.

End control.

(** A control stream, once it is ready, of one frame. *)
Lemma one_frame_follows {W S} `{HandlerSpec W S} t p bs fuel (x : S) : control_ok (t, p) → Forall is_byte bs →
  bits_of_bytes bs = frame_bits t p → (8 * length bs < fuel)%nat →
  ∃ br', controlFrames fuel fuel (x, NewBitReader (MkBytesReader bs)) =
    (match (control_effect t p x).1 with Ok _ => Err EOF | o => o end, ((control_effect t p x).2, br')).
Proof.
  intros Hok Hbs Hbits Hf. assert (Forall control_ok [(t, p)]) as Hfs by by constructor.
  assert (control_bits [(t, p)] = frame_bits t p) as Hcb by (unfold control_bits; cbn; by rewrite app_nil_r).
  destruct (control_fuel [(t, p)] [] fuel Hfs) as [Hf1 Hf2].
  { rewrite app_nil_r, Hcb, <- Hbits. pose proof (zlen_bits_of_bytes bs) as Hl. unfold zlen in Hl. lia. }
  destruct (controlFrames_follows (H2 := bytesReader_spec) fuel [(t, p)] [] fuel Hfs Hf2 header_cut_nil Hf1 x (NewBitReader (MkBytesReader bs)))
    as (br' & Hr); [by split|by rewrite Hcb, app_nil_r, <- Hbits|].
  exists br'. rewrite Hr. cbn [control_run]. rewrite bind_unfold. by destruct (control_effect t p x) as [[]].
Qed.
