(* ===== verification/Push.v ===== *)
(** * The two ends of a connection (client_connection.go, server_connection.go)

    Push identifiers on the server, push promises on the client (client_request.go)
    and the frames that carry them on the control streams. Locks make the
    operations atomic, except for [getNextPushID], which changes its state under a
    read lock and whose reads and writes are steps of their own: [push_reachable] in
    [PushSpec] lets the steps of several calls alternate. *)

From S2P Require Import Prelude Bits GoIo BitWriter BitReader Streams Frame HcInt HuffmanTable Huffman HcString StaticTable Table Codec QpackTable QpackEncoder QpackDecoder Settings Headers Message Connection.

(** A frame of one identifier: its bytes are written to a buffer first. [checked]
    says whether the error of that is looked at. *)
Definition writeIDFrame {W} `{IoWriter W} (checked : bool) (t id : Z) : go (connection W) (option goerr) :=
  '(buf, err) ← lift (varintBuffer id);
  match err with
  | Some e =>
      if checked then mret (Some e)
      else '(_, err) ← on_control (WriteFrame t buf); mret err
  | None => '(_, err) ← on_control (WriteFrame t buf); mret err
  end.

(** An identifier that is all of a payload. *)
Definition readID {R} `{IoReader R} : go (bitReader R) Z :=
  id ← ReadVarint;
  CheckForEOF;;
  mret id.

(** ** The server *)

Record ServerConnection (W : Type) := MkServerConnection {
  sc_connection : connection W;
  nextPushID : Z;
  maxPushID : Z;
  cancelledPushes : gset Z;
}.
Arguments MkServerConnection {W}.
Arguments sc_connection {W}.
Arguments nextPushID {W}.
Arguments maxPushID {W}.
Arguments cancelledPushes {W}.

Section server.
Context {W : Type} `{IoWriter W}.
Implicit Types (c : ServerConnection W).

Definition newServerConnection (conn : connection W) : ServerConnection W := MkServerConnection conn 0 0 ∅.

Definition set_connection (conn : connection W) c : ServerConnection W :=
  MkServerConnection conn (nextPushID c) (maxPushID c) (cancelledPushes c).

Definition on_server {A} (m : go (connection W) A) : go (ServerConnection W) A := zoom sc_connection set_connection m.

(** A state of the server and a payload. *)
Definition srv {A T} (m : go (ServerConnection W) A) : go (ServerConnection W * T) A := zoom fst (λ c s, (c, s.2)) m.

Definition raiseMaxPushID (n : Z) : go (ServerConnection W) unit :=
  modS (λ c, if maxPushID c <? n then MkServerConnection (sc_connection c) (nextPushID c) n (cancelledPushes c) else c).

Definition handleMaxPushID {R} `{IoReader R} : go (ServerConnection W * bitReader R) unit :=
  r ← catch (zoom snd (λ r s, (s.1, r)) readID);
  match r with
  | inr err => srv (on_server (FatalError ErrWtf));; fail err
  | inl n => srv (raiseMaxPushID n)
  end.

(** A call of [getNextPushID] between two accesses to the state. It holds a read lock
    only, and so may others: it tests the limit, reads the identifier, loads it again
    for the increment, and stores. *)
Inductive pushCall :=
| PTest
| PRead
| PLoad (id : Z)
| PStore (id v : Z)
| PReturned (id : option Z).

Definition callStep (call : pushCall) : go (ServerConnection W) pushCall :=
  match call with
  | PTest => c ← getS; mret (if maxPushID c <=? nextPushID c then PReturned None else PRead)
  | PRead => c ← getS; mret (PLoad (nextPushID c))
  | PLoad id => c ← getS; mret (PStore id (nextPushID c))
  | PStore id v =>
      modS (λ c, MkServerConnection (sc_connection c) (u64 (v + 1)) (maxPushID c) (cancelledPushes c));;
      mret (PReturned (Some id))
  | PReturned id => mret (PReturned id)
  end.

(** [getNextPushID], when no other call is in between. *)
Definition getNextPushID : go (ServerConnection W) Z :=
  call ← callStep PTest;
  call ← callStep call;
  call ← callStep call;
  call ← callStep call;
  match call with
  | PReturned (Some id) => mret id
  | _ => fail (ErrText "No push IDs available")
  end.

Definition addCancelled (pushID : Z) : go (ServerConnection W) unit :=
  modS (λ c, MkServerConnection (sc_connection c) (nextPushID c) (maxPushID c) ({[pushID]} ∪ cancelledPushes c)).

Definition Server_handleCancelPush {R} `{IoReader R} : go (ServerConnection W * bitReader R) unit :=
  pushID ← zoom snd (λ r s, (s.1, r)) readID;
  srv (addCancelled pushID).

Definition cancelPush (pushID : Z) : go (ServerConnection W) unit :=
  err ← on_server (writeIDFrame true frameCancelPush pushID);
  match err with
  | Some e => fail e
  | None => addCancelled pushID
  end.

Definition pushCancelled (pushID : Z) c : bool := bool_decide (pushID ∈ cancelledPushes c).

Definition Server_HandleFrame {R} `{IoReader R} (t : Z) : go (ServerConnection W * bitReader R) unit :=
  if t =? frameMaxPushID then handleMaxPushID
  else if t =? frameCancelPush then Server_handleCancelPush
  else fail ErrInvalidFrame.

(** What [StopSending] answers is a value of the QUIC library. *)
Variable stopSending : option goerr.

Definition Server_HandleUnidirectionalStream {R} `{IoReader R} (fuel : nat) (t : Z)
  : go (ServerConnection W * bitReader R) unit :=
  match stopSending with Some e => fail e | None => mret tt end.

#[export] Instance ServerConnection_handler : ConnectionHandler W (ServerConnection W) := {
  base := sc_connection;
  set_base := set_connection;
  HandleFrame := @Server_HandleFrame;
  HandleUnidirectionalStream := @Server_HandleUnidirectionalStream;
}.
End server.

(** ** The client *)

(** A response as its stream and what [setHeaders] has stored. *)
Record ClientResponse := MkClientResponse {
  rs_stream : Z;
  rs_Headers : list HeaderField;
  rs_Status : Z;
}.

(** [setHeaders]. *)
Definition setResponseHeaders (unicodeLower : string → string) (headers : list HeaderField) (resp : ClientResponse)
  : ClientResponse :=
  MkClientResponse (rs_stream resp) headers (GetStatus unicodeLower headers).

(** [pp_closed] says that [responseChannel] is closed. The pointer [c] to the
    connection is never set. *)
Record PushPromise `{UrlLib} := MkPushPromise {
  pp_headers : list HeaderField;
  pp_method : string;
  pp_target : option URL;
  pp_pushID : Z;
  pp_closed : bool;
  pp_response : option ClientResponse;
  pp_cancelled : bool;
}.

Arguments MkPushPromise {_}.

Definition newPushPromise `{UrlLib} (pushID : Z) : PushPromise := MkPushPromise [] "" None pushID false None false.

Section promise.
Context `{UrlLib} (unicodeLower : string → string).

(** [setHeaders]: on an error, method and target become zero values. *)
Definition setPromiseHeaders (h : list HeaderField) : go PushPromise unit := λ pp,
  match getMethodAndTarget unicodeLower h with
  | Ok (method, target) =>
      (Ok tt, MkPushPromise h method (Some target) (pp_pushID pp) (pp_closed pp) (pp_response pp) (pp_cancelled pp))
  | Err e => (Err e, MkPushPromise h "" None (pp_pushID pp) (pp_closed pp) (pp_response pp) (pp_cancelled pp))
  | Panic => (Panic, pp)
  | NoFuel => (NoFuel, pp)
  end.

(** [fulfill], once [Response] has received: a send on the closed channel panics. *)
Definition fulfill (resp : option ClientResponse) (cancelled : bool) : go PushPromise unit :=
  pp ← getS;
  if pp_closed pp then panic else
  modS (λ pp, MkPushPromise (pp_headers pp) (pp_method pp) (pp_target pp) (pp_pushID pp) true resp cancelled).

Definition isFulfilled (pp : PushPromise) : bool :=
  bool_decide (is_Some (pp_response pp)) || pp_cancelled pp.

(** [Cancel]: the response's stream is stopped, which dereferences nil for a
    cancelled promise, or the connection is dereferenced, which is nil. *)
Definition Cancel (stopSending : option goerr) (pp : PushPromise) : outcome unit :=
  if isFulfilled pp then
    match pp_response pp with
    | None => Panic
    | Some _ => match stopSending with Some e => Err e | None => Ok tt end
    end
  else
    match varintBuffer (pp_pushID pp) with
    | Ok (_, Some e) => Err e
    | Ok (_, None) => Panic
    | Err e => Err e
    | Panic => Panic
    | NoFuel => NoFuel
    end.
End promise.

Record ClientConnection `{UrlLib} (W : Type) := MkClientConnection {
  cc_connection : connection W;
  cc_maxPushID : Z;
  promises : gmap Z PushPromise;
}.
Arguments MkClientConnection {_ W}.
Arguments cc_connection {_ W}.
Arguments cc_maxPushID {_ W}.
Arguments promises {_ W}.

Section client.
Context `{UrlLib} (unicodeLower : string → string) {W : Type} `{IoWriter W}.
Implicit Types (c : ClientConnection W).

Definition NewClientConnection (conn : connection W) : ClientConnection W := MkClientConnection conn 0 ∅.

Definition set_client_connection (conn : connection W) c : ClientConnection W :=
  MkClientConnection conn (cc_maxPushID c) (promises c).

Definition on_client {A} (m : go (connection W) A) : go (ClientConnection W) A :=
  zoom cc_connection set_client_connection m.

(** [getPushPromise]: the promise of an identifier is made when it is first
    needed. *)
Definition promise_of (pushID : Z) c : PushPromise := default (newPushPromise pushID) (promises c !! pushID).

Definition set_promise (pushID : Z) (pp : PushPromise) c : ClientConnection W :=
  MkClientConnection (cc_connection c) (cc_maxPushID c) (<[pushID := pp]> (promises c)).

Definition getPushPromise (pushID : Z) : go (ClientConnection W) PushPromise :=
  modS (λ c, set_promise pushID (promise_of pushID c) c);;
  c ← getS;
  mret (promise_of pushID c).

(** A method of the promise of [pushID]. *)
Definition on_promise {A} (pushID : Z) (m : go PushPromise A) : go (ClientConnection W) A :=
  zoom (promise_of pushID) (set_promise pushID) m.

(** The error of writing the identifier is not looked at. *)
Definition creditPushes (incr : Z) : go (ClientConnection W) unit :=
  modS (λ c, MkClientConnection (cc_connection c) (u64 (cc_maxPushID c + incr)) (promises c));;
  c ← getS;
  err ← on_client (writeIDFrame false frameMaxPushID (cc_maxPushID c));
  match err with Some e => fail e | None => mret tt end.

Definition Client_handleCancelPush {R} `{IoReader R} : go (ClientConnection W * bitReader R) unit :=
  pushID ← zoom snd (λ r s, (s.1, r)) readID;
  zoom fst (λ c s, (c, s.2)) (
    _ ← getPushPromise pushID;
    on_promise pushID (fulfill None true)).

Definition Client_HandleFrame {R} `{IoReader R} (t : Z) : go (ClientConnection W * bitReader R) unit :=
  if t =? frameCancelPush then Client_handleCancelPush else fail ErrInvalidFrame.

(** The header handler of a push: 1xx blocks are dropped, because nothing sets the
    promise's channel for them; any other status but one that counts as 0
    fulfills the promise. *)
Definition pushHeaders (pushID : Z) (resp : ClientResponse) (headers : list HeaderField)
  : go (ClientConnection W) bool :=
  let resp := setResponseHeaders unicodeLower headers resp in
  let class := Z.quot (GetStatus unicodeLower headers) 100 in
  if class =? 0 then fail (ErrText "invalid or missing status")
  else if class =? 1 then mret false
  else on_promise pushID (fulfill (Some resp) false);; mret true.

(** The state of the stream of a push, for [handleMessage]; what was delivered is
    read through the response. *)
Definition on_message {R A} (m : go (incoming R (ClientConnection W)) A) : go (ClientConnection W * bitReader R) A :=
  zoom (λ s, Incoming (c_decoder (cc_connection s.1)) (c_acks (cc_connection s.1)) s.2 [] s.1)
    (λ x _, (set_client_connection (set_decoder (in_table x) (in_sent x) (cc_connection (in_handler x))) (in_handler x),
             in_stream x)) m.

(** [bufSize] is how the application reads the body, and [id] the stream. *)
Definition handlePushStream {R} `{IoReader R} (bufSize id : Z) (fuel : nat)
  : go (ClientConnection W * bitReader R) unit :=
  pushID ← zoom snd (λ r s, (s.1, r)) ReadVarint;
  promise ← zoom fst (λ c s, (c, s.2)) (getPushPromise pushID);
  if isFulfilled promise then fail (ErrText "double fulfilment of promise") else
  on_message (handleMessage bufSize id (pushHeaders pushID (MkClientResponse id [] 0))
    (λ _ _, fail ErrUnsupportedFrame) fuel);;
  _ ← catch (zoom fst (λ c s, (c, s.2)) (creditPushes 1));
  mret tt.

Variables (stopSending : option goerr) (bufSize id : Z).

Definition Client_HandleUnidirectionalStream {R} `{IoReader R} (fuel : nat) (t : Z)
  : go (ClientConnection W * bitReader R) unit :=
  if t =? unidirectionalStreamPush then handlePushStream bufSize id fuel
  else match stopSending with Some e => fail e | None => mret tt end.

#[export] Instance ClientConnection_handler : ConnectionHandler W (ClientConnection W) := {
  base := cc_connection;
  set_base := set_client_connection;
  HandleFrame := @Client_HandleFrame;
  HandleUnidirectionalStream := @Client_HandleUnidirectionalStream;
}.

(** [Connect]; [connected] is the connection that [connect] makes. *)
Definition Client_Connect (config : Config) (connected : connection W) : ClientConnection W :=
  (catch (creditPushes (MaxConcurrentPushes config)) (NewClientConnection connected)).2.
End client.
