(* ===== verification/PushSpec.v ===== *)
(** * Server push: contracts and invariants

    The handlers of both ends keep the contract of a control stream's handler; the
    identifiers a server hands out; the promises of a client. *)

From S2P Require Import Prelude Bits GoIo BitWriter BitReader Streams Frame HcInt HuffmanTable Huffman HcString StaticTable Table Codec QpackTable QpackEncoder QpackDecoder Settings Headers Message Connection ConnectionSpec Push.

(** ** Handlers *)

Section ids.
Context {S R : Type} `{IoReaderSpec R}.

(** A payload that is an identifier, and what is done with it. *)
Lemma readID_exhausts {A} (k : Z → go (S * bitReader R) A) (a : outcome Z → go S A) p :
  (∀ id, consumes pair (k id) (a (Ok id)) []) →
  (∀ e x, a (Err e) x = (Err e, x)) →
  exhausts pair (zoom snd (λ r s, (s.1, r)) readID ≫= k) (a (parse_id p)) (bits_of_bytes p).
Proof.
  intros Hk Ha x br Hwf Hl. destruct (readID_exact p br Hwf Hl) as (br' & Hr & Hend).
  rewrite bind_unfold. unfold zoom. cbn [fst snd]. unfold readID. rewrite Hr.
  destruct (parse_id p) as [id|e| |] eqn:Hp; [|by exists br'; rewrite Ha| |].
  - destruct Hend as [Hwf' Hnil]. by apply (Hk id x br' [] Hwf').
  - unfold parse_id in Hp. by repeat case_match.
  - unfold parse_id in Hp. by repeat case_match.
Qed.
End ids.

Section server.
Context {W : Type} `{IoWriter W} (stopSending : option goerr).

Definition server_effect (t : Z) (p : list Z) : go (ServerConnection W) unit :=
  if t =? frameMaxPushID then
    match parse_id p with
    | Ok n => raiseMaxPushID n
    | o => on_server (FatalError ErrWtf);; (_ ← lift o; mret tt)
    end
  else if t =? frameCancelPush then
    pushID ← lift (parse_id p);
    addCancelled pushID
  else fail ErrInvalidFrame.

Lemma srv_consumes {A} {R} `{IoReaderSpec R} (m : go (ServerConnection W) A) :
  consumes (R := R) pair (srv m) m [].
Proof. apply consumes_here. intros c br. unfold srv, zoom. cbn [fst snd]. by destruct (m c). Qed.

#[export] Program Instance ServerConnection_spec :
  @HandlerSpec W (ServerConnection W) (ServerConnection_handler stopSending) := {
  frame_effect := server_effect;
}.
Next Obligation.
  intros R ? ? t p Hp. cbn [HandleFrame ServerConnection_handler]. unfold Server_HandleFrame, server_effect.
  destruct (t =? frameMaxPushID); [|destruct (t =? frameCancelPush); [|apply exhausts_fail]].
  - intros c br Hwf Hl. destruct (readID_exact p br Hwf Hl) as (br' & Hr & Hend). exists br'.
    unfold handleMaxPushID. rewrite bind_unfold. unfold catch, zoom. cbn [fst snd]. unfold readID. rewrite Hr.
    destruct (parse_id p) as [id|e| |] eqn:Hid; [done|done|unfold parse_id in Hid; by repeat case_match..].
  - unfold Server_handleCancelPush.
    apply (readID_exhausts _ (λ o, pushID ← lift o; addCancelled pushID)); [|done].
    intros id. apply (srv_consumes (addCancelled id)).
Qed.
End server.

Section client.
Context `{UrlLib} (unicodeLower : string → string) {W : Type} `{IoWriter W}.
Variables (stopSending : option goerr) (bufSize id : Z).

Definition cancel_effect (pushID : Z) : go (ClientConnection W) unit :=
  _ ← getPushPromise pushID;
  on_promise pushID (fulfill None true).

Definition client_effect (t : Z) (p : list Z) : go (ClientConnection W) unit :=
  if t =? frameCancelPush then
    pushID ← lift (parse_id p);
    cancel_effect pushID
  else fail ErrInvalidFrame.

#[export] Program Instance ClientConnection_spec :
  @HandlerSpec W (ClientConnection W) (ClientConnection_handler unicodeLower stopSending bufSize id) := {
  frame_effect := client_effect;
}.
Next Obligation.
  intros R ? ? t p Hp. cbn [HandleFrame ClientConnection_handler]. unfold Client_HandleFrame, client_effect.
  destruct (t =? frameCancelPush); [|apply exhausts_fail].
  unfold Client_handleCancelPush.
  apply (readID_exhausts _ (λ o, pushID ← lift o; cancel_effect pushID)); [|done].
  intros pushID. apply consumes_here. intros c br.
  unfold lift. rewrite bind_unfold.
  change (zoom fst (λ c s, (c, s.2)) (cancel_effect pushID) (c, br) =
    ((cancel_effect pushID c).1, ((cancel_effect pushID c).2, br))).
  unfold zoom. cbn [fst snd]. by destruct (cancel_effect pushID c).
Qed.
End client.

(** ** The identifiers of a server *)

Section push_ids.
Context {W : Type} `{IoWriter W}.
Implicit Types (c : ServerConnection W) (ids : list Z).

Lemma getNextPushID_run c : getNextPushID c =
  if maxPushID c <=? nextPushID c then (Err (ErrText "No push IDs available"), c)
  else (Ok (nextPushID c), MkServerConnection (sc_connection c) (u64 (nextPushID c + 1)) (maxPushID c) (cancelledPushes c)).
Proof.
  unfold getNextPushID. rewrite bind_unfold. cbn [callStep]. rewrite bind_unfold. cbn [getS].
  by destruct (maxPushID c <=? nextPushID c).
Qed.

(** The states of a server in which at most [k] calls of [getNextPushID] are under way
    at a time, with these calls and the identifiers that were returned. Their steps
    alternate in any way; [handleMaxPushID] takes the write lock, so that it waits
    until no call is left. *)
Inductive push_reachable (k : nat) : ServerConnection W → list pushCall → list Z → Prop :=
| pr_new conn : push_reachable k (newServerConnection conn) [] []
| pr_call c calls ids : push_reachable k c calls ids → (length calls < k)%nat → push_reachable k c (calls ++ [PTest]) ids
| pr_step c l call r ids call' c' : push_reachable k c (l ++ call :: r) ids → callStep call c = (Ok call', c') →
    push_reachable k c' (l ++ call' :: r) ids
| pr_return c l id r ids : push_reachable k c (l ++ PReturned id :: r) ids → push_reachable k c (l ++ r) (ids ++ option_list id)
| pr_max c ids n c' : push_reachable k c [] ids → is_u64 n → raiseMaxPushID n c = (Ok tt, c') → push_reachable k c' [] ids
| pr_cancelled c calls ids id c' : push_reachable k c calls ids → addCancelled id c = (Ok tt, c') → push_reachable k c' calls ids
| pr_cancel c calls ids id o c' : push_reachable k c calls ids → cancelPush id c = (o, c') → push_reachable k c' calls ids.

(** Identifiers are handed out in order, within the peer's limit. *)
Definition ids_ok c ids : Prop :=
  nextPushID c = zlen ids ∧ nextPushID c ≤ maxPushID c ∧ is_u64 (maxPushID c) ∧
  ids = Z.of_nat <$> seq 0 (length ids).

Lemma cancelPush_ids id c o c' : cancelPush id c = (o, c') →
  nextPushID c' = nextPushID c ∧ maxPushID c' = maxPushID c.
Proof.
  unfold cancelPush, on_server, zoom. rewrite bind_unfold.
  destruct (writeIDFrame _ _ _ _) as [[[e|]|e| |] conn]; by intros [= <- <-].
Qed.

Lemma ids_ok_same c c' ids : nextPushID c' = nextPushID c → maxPushID c' = maxPushID c → ids_ok c ids → ids_ok c' ids.
Proof. intros Hn Hm. unfold ids_ok. by rewrite Hn, Hm. Qed.

(** What a call that is alone knows between two steps. *)
Definition call_ok (call : pushCall) c ids : Prop :=
  match call with
  | PTest | PReturned None => ids_ok c ids
  | PRead => ids_ok c ids ∧ nextPushID c < maxPushID c
  | PLoad id => ids_ok c ids ∧ nextPushID c < maxPushID c ∧ id = nextPushID c
  | PStore id v => ids_ok c ids ∧ nextPushID c < maxPushID c ∧ id = nextPushID c ∧ v = nextPushID c
  | PReturned (Some id) => ids_ok c (ids ++ [id])
  end.

Definition alone_ok c (calls : list pushCall) ids : Prop :=
  match calls with [] => ids_ok c ids | [call] => call_ok call c ids | _ => False end.

Lemma call_ok_same call c c' ids : nextPushID c' = nextPushID c → maxPushID c' = maxPushID c → call_ok call c ids → call_ok call c' ids.
Proof.
  intros Hn Hm. pose proof (λ ids, ids_ok_same c c' ids Hn Hm) as Hsame.
  destruct call as [| | | |[]]; cbn [call_ok]; rewrite ?Hn, ?Hm; try (intros [??]; split; [by apply Hsame|done]); by apply Hsame.
Qed.

Lemma callStep_alone call c ids call' c' : call_ok call c ids → callStep call c = (Ok call', c') → call_ok call' c' ids.
Proof.
  destruct call as [| |id|id v|o]; cbn [callStep]; rewrite ?bind_unfold; cbn [getS modS].
  - intros Hids [= <- <-]. by destruct (Z.leb_spec (maxPushID c) (nextPushID c)).
  - intros [Hids Hlt] [= <- <-]. done.
  - intros (Hids & Hlt & ->) [= <- <-]. done.
  - intros ((H1 & H2 & H3 & H4) & Hlt & -> & ->) [= <- <-]. pose proof (zlen_nonneg ids).
    cbn [call_ok]. unfold ids_ok. cbn. unfold is_u64 in *. rewrite u64_small by lia. zlen_simpl. split_and!; [lia|lia|lia|lia|].
    rewrite length_app, seq_app, fmap_app, <- H4. cbn. by rewrite H1.
  - by intros Ho [= <- <-].
Qed.

Lemma push_reachable_alone c calls ids : push_reachable 1 c calls ids → alone_ok c calls ids.
Proof.
  induction 1 as [conn|c calls ids _ IH Hk|c l call r ids call' c' _ IH Hr|c l id r ids _ IH|c ids n c' _ (H1 & H2 & H3 & H4) Hn Hr
    |c calls ids id c' _ IH Hr|c calls ids id o c' _ IH Hr].
  - split_and!; done || by split.
  - destruct calls; [exact IH|cbn in Hk; lia].
  - destruct l as [|call0 [|]]; [|by destruct IH..]. destruct r; [|by destruct IH]. exact (callStep_alone _ _ _ _ _ IH Hr).
  - destruct l as [|call0 [|]]; [|by destruct IH..]. destruct r; [|by destruct IH]. cbn in IH.
    destruct id as [id|]; cbn; [exact IH|by rewrite app_nil_r].
  - injection Hr as <-. destruct (Z.ltb_spec (maxPushID c) n); split_and!; cbn; done || lia.
  - injection Hr as <-. destruct calls as [|call []]; cbn [alone_ok] in *; [exact IH|by apply (call_ok_same _ c)|done].
  - apply cancelPush_ids in Hr as [Hn Hm]. destruct calls as [|call []]; cbn [alone_ok] in *;
      [by apply (ids_ok_same c)|by apply (call_ok_same _ c)|done].
Qed.

(** The steps of the calls [schedule], one after the other. *)
Fixpoint run_calls (schedule : list nat) (calls : list pushCall) : go (ServerConnection W) (list pushCall) :=
  match schedule with
  | [] => mret calls
  | i :: schedule =>
      match calls !! i with
      | Some call => call' ← callStep call; run_calls schedule (<[i := call']> calls)
      | None => run_calls schedule calls
      end
  end.

Lemma run_calls_reachable k schedule calls c ids calls' c' : push_reachable k c calls ids →
  run_calls schedule calls c = (Ok calls', c') → push_reachable k c' calls' ids.
Proof.
  revert calls c. induction schedule as [|i schedule IH]; intros calls c Hc; cbn [run_calls]; [by intros [= <- <-]|].
  destruct (calls !! i) as [call|] eqn:Hi; [|by apply IH]. intros Hr. apply bind_Ok_inv in Hr as (call' & c1 & Hs & Hr).
  eapply IH; [|exact Hr]. rewrite <- (take_drop_middle _ _ _ Hi) in Hc. rewrite insert_take_drop by (by eapply lookup_lt_Some).
  by eapply pr_step.
Qed.
End push_ids.

(** ** The promises of a client *)

Section promises.
Context `{UrlLib} (unicodeLower : string → string) {W : Type} `{IoWriter W}.
Implicit Types (c : ClientConnection W).

(** What happens to promises: a frame or the application asks for one, PUSH_PROMISE
    sets its headers, CANCEL_PUSH cancels it, a push stream fulfills it; credit
    goes to the server. *)
Inductive client_step c c' : Prop :=
| cs_get id o : getPushPromise id c = (o, c') → client_step c c'
| cs_headers id h o : on_promise id (setPromiseHeaders unicodeLower h) c = (o, c') → client_step c c'
| cs_cancel id o : cancel_effect id c = (o, c') → client_step c c'
| cs_fulfill id resp o : on_promise id (fulfill (Some resp) false) c = (o, c') → client_step c c'
| cs_credit n o : creditPushes n c = (o, c') → client_step c c'.

Definition client_reachable c : Prop := ∃ conn, rtc client_step (NewClientConnection conn) c.

Definition promise_ok (id : Z) (pp : PushPromise) : Prop :=
  pp_pushID pp = id ∧ pp_closed pp = isFulfilled pp ∧ (pp_cancelled pp = true → pp_response pp = None).

Definition promises_ok c : Prop := map_Forall promise_ok (promises c).

Lemma promise_of_ok c id : promises_ok c → promise_ok id (promise_of id c).
Proof. intros Hc. unfold promise_of. destruct (promises c !! id) as [pp|] eqn:Hpp; [by apply Hc|done]. Qed.

Lemma promise_of_set id pp c : promise_of id (set_promise id pp c) = pp.
Proof. unfold promise_of. cbn. by rewrite lookup_insert_eq. Qed.

Lemma set_promise_ok id pp c : promises_ok c → promise_ok id pp → promises_ok (set_promise id pp c).
Proof. intros Hc Hp. by apply map_Forall_insert_2. Qed.

Lemma on_promise_ok {A} id (m : go PushPromise A) c : promises_ok c →
  (∀ pp, promise_ok id pp → promise_ok id (m pp).2) → promises_ok (on_promise id m c).2.
Proof.
  intros Hc Hm. unfold on_promise, zoom. pose proof (Hm _ (promise_of_ok c id Hc)) as Hpp.
  destruct (m (promise_of id c)) as [o pp]. by apply set_promise_ok.
Qed.

Lemma getPushPromise_run id c :
  getPushPromise id c = (Ok (promise_of id c), set_promise id (promise_of id c) c).
Proof. unfold getPushPromise, mbind, go_bind, modS, getS, mret, go_ret. by rewrite promise_of_set. Qed.

(** [fulfill] on a promise in order: it panics on the second time. *)
Lemma fulfill_run id resp cancelled pp : promise_ok id pp →
  fulfill resp cancelled pp =
    if isFulfilled pp then (Panic, pp)
    else (Ok tt, MkPushPromise (pp_headers pp) (pp_method pp) (pp_target pp) (pp_pushID pp) true resp cancelled).
Proof. intros (_ & Hcl & _). unfold fulfill. rewrite bind_unfold. cbn [getS]. rewrite Hcl. by destruct (isFulfilled pp). Qed.

Lemma fulfill_ok id resp cancelled pp : promise_ok id pp → cancelled = negb (bool_decide (is_Some resp)) →
  promise_ok id (fulfill resp cancelled pp).2.
Proof.
  intros Hpp Hres. rewrite (fulfill_run id) by done. destruct (isFulfilled pp); [done|]. destruct Hpp as (Hid & _ & _).
  split_and!; [done|..]; cbn; unfold isFulfilled; cbn; subst cancelled; by destruct resp.
Qed.

Lemma setPromiseHeaders_ok id h pp : promise_ok id pp → promise_ok id (setPromiseHeaders unicodeLower h pp).2.
Proof. intros Hpp. unfold setPromiseHeaders. by destruct (getMethodAndTarget unicodeLower h) as [[]| | |]. Qed.

Lemma creditPushes_promises n c : promises (creditPushes n c).2 = promises c.
Proof.
  unfold creditPushes, on_client, zoom, mbind, go_bind, modS, getS. cbn [cc_connection cc_maxPushID].
  by destruct (writeIDFrame false frameMaxPushID (u64 (cc_maxPushID c + n)) (cc_connection c)) as [[[e|]|e| |] conn].
Qed.

Lemma cancel_effect_run id c : promises_ok c →
  cancel_effect id c =
    let pp := promise_of id c in
    if isFulfilled pp then (Panic, set_promise id pp (set_promise id pp c))
    else (Ok tt, set_promise id (MkPushPromise (pp_headers pp) (pp_method pp) (pp_target pp) (pp_pushID pp) true None true)
                   (set_promise id pp c)).
Proof.
  intros Hc. unfold cancel_effect. rewrite bind_unfold, getPushPromise_run. unfold on_promise, zoom. rewrite promise_of_set.
  rewrite (fulfill_run id) by by apply promise_of_ok. cbv zeta. by destruct (isFulfilled (promise_of id c)).
Qed.

(** How a promise was settled. *)
Definition outcome_of id c : bool * option ClientResponse := (pp_cancelled (promise_of id c), pp_response (promise_of id c)).

Lemma promise_of_set_other id id' pp c : id ≠ id' → promise_of id (set_promise id' pp c) = promise_of id c.
Proof. intros Hne. unfold promise_of. cbn. by rewrite lookup_insert_ne by done. Qed.

Lemma isFulfilled_outcome id c c' : outcome_of id c' = outcome_of id c → isFulfilled (promise_of id c') = isFulfilled (promise_of id c).
Proof. intros [= Hc Hr]. unfold isFulfilled. by rewrite Hc, Hr. Qed.

(** A settled promise is known, so that asking for it changes nothing. *)
Lemma set_promise_settled id c : isFulfilled (promise_of id c) = true → set_promise id (promise_of id c) c = c.
Proof.
  intros Hs. destruct c as [cn m ps]. unfold set_promise. cbn. f_equal. apply insert_id. unfold promise_of in *. cbn in *.
  by destruct (ps !! id).
Qed.

Lemma on_promise_outcome {A} id id' (m : go PushPromise A) c :
  (∀ pp, promise_ok id' pp → isFulfilled pp = true → pp_cancelled (m pp).2 = pp_cancelled pp ∧ pp_response (m pp).2 = pp_response pp) →
  promises_ok c → isFulfilled (promise_of id c) = true → outcome_of id (on_promise id' m c).2 = outcome_of id c.
Proof.
  intros Hm Hc Hs. unfold on_promise, zoom. destruct (m (promise_of id' c)) as [o pp'] eqn:Hr. cbn [snd]. unfold outcome_of.
  destruct (decide (id = id')) as [<-|Hne]; [|by rewrite !promise_of_set_other].
  rewrite promise_of_set. destruct (Hm _ (promise_of_ok c id Hc) Hs) as [H1 H2]. rewrite Hr in H1, H2. cbn in *. by rewrite H1, H2.
Qed.

Lemma fulfill_settled id resp cancelled pp : promise_ok id pp → isFulfilled pp = true →
  pp_cancelled (fulfill resp cancelled pp).2 = pp_cancelled pp ∧ pp_response (fulfill resp cancelled pp).2 = pp_response pp.
Proof. intros Hpp Hs. by rewrite (fulfill_run id), Hs by done. Qed.

Lemma outcome_get id id' c : outcome_of id (set_promise id' (promise_of id' c) c) = outcome_of id c.
Proof.
  unfold outcome_of. destruct (decide (id = id')) as [<-|Hne]; [by rewrite promise_of_set|by rewrite promise_of_set_other].
Qed.

(** Every operation keeps the promises in order, and what is settled as it is. *)
Lemma client_step_ok c c' : promises_ok c → client_step c c' →
  promises_ok c' ∧ ∀ id, isFulfilled (promise_of id c) = true → outcome_of id c' = outcome_of id c.
Proof.
  intros Hc [id o Hr|id h o Hr|id o Hr|id resp o Hr|n o Hr].
  - rewrite getPushPromise_run in Hr. injection Hr as _ <-. split; [by apply set_promise_ok, promise_of_ok|].
    intros. apply outcome_get.
  - replace c' with (on_promise id (setPromiseHeaders unicodeLower h) c).2 by by rewrite Hr. split.
    + apply on_promise_ok; [done|]. intros pp. apply setPromiseHeaders_ok.
    + intros id' Hs. apply on_promise_outcome; [|done..]. intros pp _ _. unfold setPromiseHeaders.
      by destruct (getMethodAndTarget unicodeLower h) as [[]| | |].
  - replace c' with (cancel_effect id c).2 by by rewrite Hr. unfold cancel_effect. rewrite bind_unfold, getPushPromise_run. split.
    + apply on_promise_ok; [by apply set_promise_ok, promise_of_ok|]. intros pp Hpp. by apply fulfill_ok.
    + intros id' Hs. rewrite <- (outcome_get id' id c). apply on_promise_outcome; [intros pp; apply fulfill_settled| |].
      * by apply set_promise_ok, promise_of_ok.
      * by rewrite (isFulfilled_outcome _ _ _ (outcome_get id' id c)).
  - replace c' with (on_promise id (fulfill (Some resp) false) c).2 by by rewrite Hr. split.
    + apply on_promise_ok; [done|]. intros pp Hpp. by apply fulfill_ok.
    + intros id' Hs. apply on_promise_outcome; [intros pp; apply fulfill_settled|done..].
  - assert (promises c' = promises c) as Heq by (rewrite <- (creditPushes_promises n c); by rewrite Hr).
    unfold promises_ok, outcome_of, promise_of. by rewrite Heq.
Qed.

Lemma client_steps_ok c c' : promises_ok c → rtc client_step c c' →
  promises_ok c' ∧ ∀ id, isFulfilled (promise_of id c) = true → outcome_of id c' = outcome_of id c.
Proof.
  intros Hc Hs. revert Hc. induction Hs as [c|c c1 c' Hs _ IH]; intros Hc; [done|].
  destruct (client_step_ok _ _ Hc Hs) as [Hc1 Ho1]. destruct (IH Hc1) as [Hc' Ho']. split; [done|]. intros id Hid.
  rewrite Ho'; [by apply Ho1|]. by rewrite (isFulfilled_outcome _ _ _ (Ho1 id Hid)).
Qed.

Lemma client_reachable_ok c : client_reachable c → promises_ok c.
Proof. intros [conn Hs]. apply (client_steps_ok _ _ (map_Forall_empty _) Hs). Qed.
End promises.

(** ** Identifiers on the wire *)

Lemma parse_id_varint v : 0 ≤ v < 2 ^ 62 → parse_id (varint_bytes v) = Ok v.
Proof.
  intros Hv. unfold parse_id. destruct (varint_whole v Hv) as [-> _].
  rewrite <- (app_nil_r (varint_bits v)). by rewrite take_varint_bits.
Qed.

Lemma varint_bytes_short v : 0 ≤ v < 2 ^ 62 → zlen (varint_bytes v) ≤ 8.
Proof.
  intros Hv. destruct (varint_whole v Hv) as [Hbits _]. pose proof (zlen_varint_bits v Hv) as Hl.
  rewrite <- Hbits, zlen_bits_of_bytes in Hl. pose proof (varint_len_range v Hv). lia.
Qed.

(** A frame of one identifier is written whole to the control stream. *)
Lemma writeIDFrame_bytes checked t id (conn : connection Buffer) : is_byte t → 0 ≤ id < 2 ^ 62 →
  at_byte (c_controlStream conn) →
  ∃ w bs, writeIDFrame checked t id conn = (Ok None, set_control w conn) ∧ at_byte w ∧
    buf_bytes (bw_writer w) = buf_bytes (bw_writer (c_controlStream conn)) ++ bs ∧ Forall is_byte bs ∧
    bits_of_bytes bs = frame_bits t (varint_bytes id).
Proof.
  intros Ht Hid Hat. destruct (varint_whole id Hid) as [_ Hb]. pose proof (varint_bytes_short id Hid).
  destruct (WriteFrame_bytes t (varint_bytes id) (c_controlStream conn) Ht Hb) as (n & w & bs & Hr & Hrest); [lia|done|].
  exists w, bs. split; [|done]. unfold writeIDFrame, lift. rewrite bind_unfold, varintBuffer_spec by done.
  unfold on_control, zoom. rewrite bind_unfold, Hr. done.
Qed.

(** Credit for pushes as a frame, and what a server does with it. *)
Lemma creditPushes_bytes `{UrlLib} n (c : ClientConnection Buffer) :
  0 ≤ cc_maxPushID c → 0 ≤ n → cc_maxPushID c + n < 2 ^ 62 → at_byte (c_controlStream (cc_connection c)) →
  ∃ w bs, creditPushes n c = (Ok tt, MkClientConnection (set_control w (cc_connection c)) (cc_maxPushID c + n) (promises c)) ∧
    at_byte w ∧ buf_bytes (bw_writer w) = buf_bytes (bw_writer (c_controlStream (cc_connection c))) ++ bs ∧
    Forall is_byte bs ∧ bits_of_bytes bs = frame_bits frameMaxPushID (varint_bytes (cc_maxPushID c + n)).
Proof.
  intros Hc Hn Hlt Hat.
  destruct (writeIDFrame_bytes false frameMaxPushID (cc_maxPushID c + n) (cc_connection c)) as (w & bs & Hr & Hrest);
    [done|lia|done|]. exists w, bs. split; [|done].
  unfold creditPushes, on_client, zoom, mbind, go_bind, modS, getS. cbn [cc_connection cc_maxPushID].
  rewrite u64_small by lia. by rewrite Hr.
Qed.

Lemma cancelPush_bytes id (c : ServerConnection Buffer) : 0 ≤ id < 2 ^ 62 → at_byte (c_controlStream (sc_connection c)) →
  ∃ w bs c', cancelPush id c = (Ok tt, c') ∧ sc_connection c' = set_control w (sc_connection c) ∧
    cancelledPushes c' = {[id]} ∪ cancelledPushes c ∧ at_byte w ∧
    buf_bytes (bw_writer w) = buf_bytes (bw_writer (c_controlStream (sc_connection c))) ++ bs ∧
    Forall is_byte bs ∧ bits_of_bytes bs = frame_bits frameCancelPush (varint_bytes id).
Proof.
  intros Hid Hat. destruct (writeIDFrame_bytes true frameCancelPush id (sc_connection c)) as (w & bs & Hr & Hrest); [done..|].
  exists w, bs, (addCancelled id (set_connection (set_control w (sc_connection c)) c)).2. split_and!; try apply Hrest; try done.
  unfold cancelPush, on_server, zoom. rewrite bind_unfold, Hr. done.
Qed.

Lemma server_effect_max {W} `{IoWriter W} v (c : ServerConnection W) : 0 ≤ v < 2 ^ 62 →
  server_effect frameMaxPushID (varint_bytes v) c = raiseMaxPushID v c.
Proof. intros Hv. unfold server_effect. change (frameMaxPushID =? frameMaxPushID) with true. cbv beta iota. by rewrite parse_id_varint. Qed.

Lemma client_effect_cancel `{UrlLib} {W} `{IoWriter W} v (c : ClientConnection W) : 0 ≤ v < 2 ^ 62 →
  client_effect frameCancelPush (varint_bytes v) c = cancel_effect v c.
Proof.
  intros Hv. unfold client_effect. change (frameCancelPush =? frameCancelPush) with true. cbv beta iota.
  unfold lift. rewrite bind_unfold. by rewrite parse_id_varint.
Qed.

Lemma varint_frame_ok t v : is_byte t → 0 ≤ v < 2 ^ 62 → control_ok (t, varint_bytes v).
Proof.
  intros Ht Hv. pose proof (varint_bytes_short v Hv). destruct (varint_whole v Hv) as [_ Hb]. split_and!; [done|done|cbn; lia].
Qed.
