(* ===== verification/PushStream.v ===== *)
(** * Push streams at a client

    A push stream as a message whose header handler fulfills a promise. *)

From S2P Require Import Prelude Bits GoIo BitWriter BitReader Streams Frame HcInt HuffmanTable Huffman HcString StaticTable Table Codec QpackTable QpackEncoder QpackDecoder QpackDecoderSpec Settings Headers Message MessageSpec MessageLink Connection Push PushSpec.

Section push_stream.
Context `{UrlLib} (lower : string → string) {W : Type} `{IoWriter W} (t : qpackTableCommon) (id : Z).
Implicit Types (c : ClientConnection W).

(** The message of a push stream, as a machine on the client's state. *)
Definition push_message (pushID : Z) (fs : list frame) (e : ending) : go (ClientConnection W) unit :=
  zoom (λ c, Progress (c_acks (cc_connection c)) [] c)
    (λ m _, set_client_connection (set_decoder t (pr_sent m) (cc_connection (pr_handler m))) (pr_handler m))
    (message t id (pushHeaders lower pushID (MkClientResponse id [] 0)) no_others fs e).

Definition push_stream (pushID : Z) (fs : list frame) (e : ending) : go (ClientConnection W) unit :=
  promise ← getPushPromise pushID;
  if isFulfilled promise then fail (ErrText "double fulfilment of promise") else
  push_message pushID fs e;;
  _ ← catch (creditPushes 1);
  mret tt.

Context {R : Type} `{IoReaderSpec R}.
#[local] Abbreviation pr := (@pair (ClientConnection W) (bitReader R)).

Lemma on_message_follows pref bufSize fuel pushID fs bits c (br : bitReader R) : 0 < bufSize →
  c_decoder (cc_connection c) = t → 0 ≤ tbase t < 2 ^ 61 →
  Forall (frame_ok pref t) fs → header_cut bits → (length (frames_bits fs ++ bits) + 1 < fuel)%nat →
  br_wf br → rbits br = frames_bits fs ++ bits →
  ∃ br', on_message (handleMessage bufSize id (pushHeaders lower pushID (MkClientResponse id [] 0))
      (λ _ _, fail ErrUnsupportedFrame) fuel) (c, br) = ((push_message pushID fs (CutHeader bits) c).1, ((push_message pushID fs (CutHeader bits) c).2, br')).
Proof.
  intros Hbuf Ht Hb Hfs He Hf Hwf Hl.
  destruct (handleMessage_whole t pref bufSize id fuel (pushHeaders lower pushID (MkClientResponse id [] 0)) unsupported no_others bits fs
    Hbuf Hb Hfs (unsupported_ok t fs) He Hf (Progress (c_acks (cc_connection c)) [] c) br Hwf Hl) as (br' & Hr).
  exists br'. unfold on_message, zoom, push_message. cbn [fst snd]. rewrite Ht.
  change (Incoming t ?a br ?l ?h) with (conc t (Progress a l h) br). unfold zoom.
  change (λ _ _ : Z, fail ErrUnsupportedFrame) with (unsupported (S := incoming R (ClientConnection W))). rewrite Hr.
  destruct (message t id _ no_others fs (CutHeader bits) _) as [o m']. done.
Qed.

(** A push stream from its identifier on. *)
Lemma handlePushStream_follows pref bufSize fuel pushID fs bits c (br : bitReader R) : 0 < bufSize →
  c_decoder (cc_connection c) = t → 0 ≤ tbase t < 2 ^ 61 → 0 ≤ pushID < 2 ^ 62 →
  Forall (frame_ok pref t) fs → header_cut bits → (length (frames_bits fs ++ bits) + 1 < fuel)%nat →
  br_wf br → rbits br = varint_bits pushID ++ frames_bits fs ++ bits →
  ∃ br', handlePushStream lower bufSize id fuel (c, br) =
    ((push_stream pushID fs (CutHeader bits) c).1, ((push_stream pushID fs (CutHeader bits) c).2, br')).
Proof.
  intros Hbuf Ht Hb Hid Hfs He Hf Hwf Hl. destruct (ReadVarint_reads (R := R) pushID Hid br _ Hwf Hl) as (br1 & Hr1 & Hwf1 & Hl1).
  unfold handlePushStream, push_stream. rewrite bind_unfold. unfold zoom at 1. cbn [fst snd]. rewrite Hr1.
  rewrite !bind_unfold. unfold zoom at 1. cbn [fst snd]. rewrite getPushPromise_run.
  destruct (isFulfilled (promise_of pushID c)); [by exists br1|].
  set (c1 := set_promise pushID (promise_of pushID c) c).
  destruct (on_message_follows pref bufSize fuel pushID fs bits c1 br1) as (br' & Hr); [done..|]. exists br'.
  rewrite !bind_unfold, Hr. destruct (push_message pushID fs (CutHeader bits) c1) as [[[]|er| |] c2]; [|done..]. cbn [fst snd].
  rewrite !bind_unfold. unfold catch, zoom. cbn [fst snd]. by destruct (creditPushes 1 c2) as [[]].
Qed.

(** A response with a final status. *)
Definition final_status (hs : list HeaderField) : Prop :=
  Z.quot (GetStatus lower hs) 100 ≠ 0 ∧ Z.quot (GetStatus lower hs) 100 ≠ 1.

Lemma pushHeaders_final pushID hs c : promises_ok c → isFulfilled (promise_of pushID c) = false → final_status hs →
  ∃ c', pushHeaders lower pushID (MkClientResponse id [] 0) hs c = (Ok true, c') ∧
    cc_connection c' = cc_connection c ∧ cc_maxPushID c' = cc_maxPushID c ∧
    pp_response (promise_of pushID c') = Some (MkClientResponse id hs (GetStatus lower hs)) ∧
    (∀ other, other ≠ pushID → promise_of other c' = promise_of other c) ∧
    pp_cancelled (promise_of pushID c') = false.
Proof.
  intros Hok Hopen [Hs0 Hs1]. unfold pushHeaders. rewrite (proj2 (Z.eqb_neq _ _)), (proj2 (Z.eqb_neq _ _)) by done.
  rewrite bind_unfold. unfold on_promise, zoom.
  rewrite (fulfill_run pushID) by by apply promise_of_ok. rewrite Hopen. eexists. split; [done|].
  split_and!; [done|done|by rewrite promise_of_set| |by rewrite promise_of_set].
  intros other Hne. unfold promise_of. cbn. by rewrite lookup_insert_ne.
Qed.
End push_stream.
