(* ===== verification/Request.v ===== *)
(** * Requests and responses (client_request.go, server_request.go)

    Both directions of an exchange on one stream: what a server does with a request
    and how it answers and pushes, how a client makes a request and takes the
    response with its promises. The application is taken to receive from the
    channels it is given. *)

From stdpp Require Import pretty.
From S2P Require Import Prelude Bits GoIo BitWriter BitReader Streams Frame HcInt HuffmanTable Huffman HcString StaticTable Table Codec QpackTable QpackEncoder QpackDecoder Settings Headers Message Connection Push.

(** [strconv.Itoa]. *)
Definition Itoa (n : Z) : string := pretty n.

Definition statusField (statusCode : Z) : HeaderField := MkHeaderField ":status" (Itoa statusCode) false.

(** Streams that the QUIC library creates, or nil. *)
Section outgoing_stream.
Context {W : Type} `{IoWriter W}.

(** A method of an outgoing message: the connection's encoder and the stream. *)
Definition on_outgoing {A} (m : go (outgoing W W) A) : go (connection W * bitWriter W) A :=
  zoom (λ s, Outgoing (c_encoder s.1) (c_updates s.1) s.2 false)
    (λ o s, (set_updates (og_updates o) (set_encoder (og_encoder o) s.1), og_stream o)) m.

(** [<-ready] *)
Definition waitReady {T} : go (connection W * T) unit :=
  s ← getS;
  if c_ready s.1 then mret tt else fail ErrWouldBlock.

End outgoing_stream.

(** ** The server *)

Record ServerRequest `{UrlLib} := MkServerRequest {
  rq_Headers : list HeaderField;
  rq_method : string;
  rq_target : option URL;
  rq_announced : bool;      (* sent to the channel of requests *)
  rq_aborted : bool;        (* the stream was reset in both directions *)
}.

Record ServerPushRequest `{UrlLib} := MkServerPushRequest {
  pr_Target : URL;
  pr_PushID : Z;
  pr_Headers : list HeaderField;
}.

Arguments MkServerRequest {_}.
Arguments MkServerPushRequest {_}.

Section server.
Context `{UrlLib} (unicodeLower : string → string).

Definition newServerRequest : ServerRequest := MkServerRequest [] "" None false false.

(** [setHeaders]; its error is dropped by its caller, so a request without a
    method or a target is announced. *)
Definition setRequestHeaders (headers : list HeaderField) : go ServerRequest unit := λ req,
  match getMethodAndTarget unicodeLower headers with
  | Ok (method, target) => (Ok tt, MkServerRequest headers method (Some target) (rq_announced req) (rq_aborted req))
  | Err e => (Err e, MkServerRequest headers "" None (rq_announced req) (rq_aborted req))
  | Panic => (Panic, req)
  | NoFuel => (NoFuel, req)
  end.

Definition requestHeaders (headers : list HeaderField) : go ServerRequest bool :=
  _ ← catch (setRequestHeaders headers);
  modS (λ req, MkServerRequest (rq_Headers req) (rq_method req) (rq_target req) true (rq_aborted req));;
  mret true.

Definition abortRequest : go ServerRequest unit :=
  modS (λ req, MkServerRequest (rq_Headers req) (rq_method req) (rq_target req) (rq_announced req) true).

(** [handle] *)
Definition handle {R} `{IoReader R} (bufSize id : Z) (fuel : nat) : go (incoming R ServerRequest) unit :=
  r ← catch (handleMessage bufSize id requestHeaders (λ _ _, fail ErrUnsupportedFrame) fuel);
  match r with
  | inl _ => mret tt
  | inr ErrWouldBlock => fail ErrWouldBlock
  | inr _ => on_handler abortRequest
  end.

Context {W : Type} `{IoWriter W}.

(** [sendResponse] on the stream [id]: the header list of the response, or nothing
    for a 1xx response. *)
Definition sendResponse (id statusCode : Z) (headers : list HeaderField)
  : go (connection W * bitWriter W) (option (list HeaderField)) :=
  lift (ValidatePseudoHeaders headers);;
  waitReady;;
  let allHeaders := statusField statusCode :: headers in
  on_outgoing (writeHeaderBlock unicodeLower id allHeaders);;
  mret (if Z.quot statusCode 100 =? 1 then None else Some allHeaders).

Definition Respond (id statusCode : Z) (headers : list HeaderField) := sendResponse id statusCode headers.

(** The payload of a promise: its identifier and a header block. *)
Definition promiseBuffer (id : Z) (push : ServerPushRequest) : go (outgoing W W) (list Z) := λ s,
  match varintBuffer (pr_PushID push) with
  | Ok (_, Some e) => (Err e, s)
  | Ok (buf, None) =>
      let '(o, (e, w, h)) := WriteHeaderBlock unicodeLower id (pr_Headers push) (og_encoder s, og_updates s, MkBuffer buf) in
      (match o with Ok _ => Ok (buf_bytes h) | Err e => Err e | Panic => Panic | NoFuel => NoFuel end,
       Outgoing e w (og_stream s) (og_closed s))
  | Err e => (Err e, s)
  | Panic => (Panic, s)
  | NoFuel => (NoFuel, s)
  end.

Definition writePushPromise (id : Z) (push : ServerPushRequest) : go (connection W * bitWriter W) unit :=
  waitReady;;
  on_outgoing (
    buf ← promiseBuffer id push;
    err ← sendFrame framePushPromise buf;
    match err with Some e => fail e | None => mret tt end).

Definition ReferencePush (id : Z) (push : ServerPushRequest) := writePushPromise id push.

(** A call on the connection of the server and the request's stream. *)
Definition on_stream_of {A} (m : go (connection W * bitWriter W) A) : go (ServerConnection W * bitWriter W) A :=
  zoom (λ s, (sc_connection s.1, s.2)) (λ x s, (set_connection x.1 s.1, x.2)) m.

(** [Push]; [target] is the target of the request. The error of
    [writePushPromise] is not returned. *)
Definition Push (id : Z) (base : option URL) (method target : string) (headers : list HeaderField)
  : go (ServerConnection W * bitWriter W) ServerPushRequest :=
  lift (ValidatePseudoHeaders headers);;
  '(url, allHeaders) ← lift (buildRequestHeaderFields method base target headers);
  pushID ← srv getNextPushID;
  let push := MkServerPushRequest url pushID allHeaders in
  r ← catch (on_stream_of (writePushPromise id push));
  match r with
  | inr ErrWouldBlock => fail ErrWouldBlock
  | _ => mret push
  end.

(** [ServerPushRequest.Respond] on the stream [id] that [CreateSendStream] gives. *)
Definition PushRespond (send : option (Z * W)) (push : ServerPushRequest) (statusCode : Z) (headers : list HeaderField)
  : go (ServerConnection W) (bitWriter W * option (list HeaderField)) := λ c,
  match ValidatePseudoHeaders headers with
  | Ok _ =>
      if pushCancelled (pr_PushID push) c then (Err ErrPushCancelled, c) else
      match send with
      | None => (Err (ErrText "No avaliable send streams for push response"), c)
      | Some (id, w) =>
          let '(o, s) := (
            zoom snd (λ w s, (s.1, w)) (WriteByte unidirectionalStreamPush);;
            '(_, err) ← zoom snd (λ w s, (s.1, w)) (WriteVarint (pr_PushID push));
            match err with
            | Some e => fail e
            | None => on_stream_of (sendResponse id statusCode headers)
            end) (c, NewBitWriter w) in
          (match o with Ok r => Ok (s.2, r) | Err e => Err e | Panic => Panic | NoFuel => NoFuel end, s.1)
      end
  | Err e => (Err e, c)
  | Panic => (Panic, c)
  | NoFuel => (NoFuel, c)
  end.

(** [ServerPushRequest.Cancel] *)
Definition PushCancel (push : ServerPushRequest) : go (ServerConnection W) unit := cancelPush (pr_PushID push).
End server.

(** ** The client *)

Record ClientRequest `{UrlLib} := MkClientRequest {
  cq_method : string;
  cq_target : URL;
  cq_headers : list HeaderField;
}.
Arguments MkClientRequest {_}.

(** What has come back for a request: informational responses (as status and
    header list), the response and the identifiers of the promises, and how the
    stream ended. *)
Record answers := MkAnswers {
  an_current : ClientResponse;
  an_informational : list (Z * list HeaderField);
  an_response : option ClientResponse;
  an_pushes : list Z;
  an_pushesClosed : bool;
  an_aborted : bool;
}.

Section client.
Context `{UrlLib} (unicodeLower : string → string) {W : Type} `{IoWriter W}.

(** [Fetch] on the stream [CreateStream] gives, with its identifier. The test for a
    nil stream comes after it was wrapped, so that nil is dereferenced. *)
Definition Fetch (established : bool) (stream : option (Z * W)) (method target : string) (headers : list HeaderField)
  : go (ClientConnection W) (ClientRequest * bitWriter W) := λ c,
  match ValidatePseudoHeaders headers with
  | Ok _ =>
      if negb (c_ready (cc_connection c)) then (Err ErrWouldBlock, c) else
      if negb established then (Err (ErrText "connection not open"), c) else
      match buildRequestHeaderFields method None target headers with
      | Ok (url, allHeaders) =>
          match stream with
          | None => (Panic, c)
          | Some (id, w) =>
              let '(o, s) := on_outgoing (writeHeaderBlock unicodeLower id allHeaders) (cc_connection c, NewBitWriter w) in
              (match o with
               | Ok _ => Ok (MkClientRequest method url allHeaders, s.2)
               | Err e => Err e | Panic => Panic | NoFuel => NoFuel
               end, set_client_connection s.1 c)
          end
      | Err e => (Err e, c) | Panic => (Panic, c) | NoFuel => (NoFuel, c)
      end
  | Err e => (Err e, c) | Panic => (Panic, c) | NoFuel => (NoFuel, c)
  end.

(** The state of a response that is being read. *)
Definition reading : Type := ClientConnection W * answers.

Definition on_answers {A} (m : go answers A) : go reading A := zoom snd (λ a s, (s.1, a)) m.

Definition setHeaders (headers : list HeaderField) : go answers unit :=
  modS (λ a, MkAnswers (setResponseHeaders unicodeLower headers (an_current a)) (an_informational a) (an_response a)
    (an_pushes a) (an_pushesClosed a) (an_aborted a)).

(** The header handler of [readResponse]; [informational] says whether the
    request has a channel for 1xx responses. *)
Definition responseHeaders (informational : bool) (headers : list HeaderField) : go answers bool :=
  setHeaders headers;;
  let status := GetStatus unicodeLower headers in
  let class := Z.quot status 100 in
  if class =? 0 then fail (ErrText "invalid or missing status")
  else if class =? 1 then
    (if informational then
       modS (λ a, MkAnswers (an_current a) (an_informational a ++ [(status, headers)]) (an_response a)
         (an_pushes a) (an_pushesClosed a) (an_aborted a))
     else mret tt);;
    mret false
  else
    modS (λ a, MkAnswers (an_current a) (an_informational a) (Some (an_current a)) (an_pushes a) (an_pushesClosed a) (an_aborted a));;
    mret true.

(** The payload of a promise: its identifier and its header list. *)
Definition readPromise {R} `{IoReader R} (fuel : nat) (id : Z) : go (decoding R) (Z * list HeaderField) :=
  pushID ← on_reader ReadVarint;
  headers ← ReadHeaderBlock fuel id;
  lift (ValidatePseudoHeaders headers);;
  on_reader CheckForEOF;;
  mret (pushID, headers).

Definition promised (pushID : Z) (headers : list HeaderField) : go reading unit :=
  zoom fst (λ c s, (c, s.2)) (
    _ ← getPushPromise pushID;
    on_promise pushID (setPromiseHeaders unicodeLower headers));;
  on_answers (modS (λ a, MkAnswers (an_current a) (an_informational a) (an_response a) (an_pushes a ++ [pushID])
    (an_pushesClosed a) (an_aborted a))).

Definition handlePushPromise {R} `{IoReader R} (fuel : nat) (id len : Z) : go (incoming R reading) unit :=
  '(pushID, headers) ← on_block len (readPromise fuel id);
  on_handler (promised pushID headers).

Definition responseFrames {R} `{IoReader R} (fuel : nat) (id t len : Z) : go (incoming R reading) unit :=
  if t =? framePushPromise then handlePushPromise fuel id len else fail ErrUnsupportedFrame.

Definition endPushes (aborted : bool) : go reading unit :=
  on_answers (modS (λ a, MkAnswers (an_current a) (an_informational a) (an_response a) (an_pushes a)
    (negb aborted || an_pushesClosed a) (aborted || an_aborted a))).

(** [readResponse] *)
Definition readResponse {R} `{IoReader R} (informational : bool) (bufSize id : Z) (fuel : nat) : go (incoming R reading) unit :=
  r ← catch (handleMessage bufSize id (λ h, on_answers (responseHeaders informational h)) (responseFrames fuel id) fuel);
  match r with
  | inl _ => on_handler (endPushes false)
  | inr ErrWouldBlock => fail ErrWouldBlock
  | inr _ => on_handler (endPushes true)
  end.
End client.
