(* ===== verification/RequestSpec.v ===== *)
(** * Requests and responses: lemmas

    Status codes as text, the header lists of responses, and an exchange on one
    stream from one end to the other. *)

From stdpp Require Import pretty.
From S2P Require Import Prelude Bits GoIo BitWriter BitReader Streams Frame HcInt HuffmanTable Huffman HcString StaticTable Table Codec QpackTable QpackEncoder QpackDecoder QpackTableSpec QpackDecoderSpec QpackEncoderSpec QpackLink Settings Headers Message MessageSpec MessageLink Connection Push PushSpec PushStream Request.

(** ** [Atoi] undoes [Itoa] *)

Lemma bytes_of_string_cons c s : bytes_of_string (String c s) = Z.of_N (Ascii.N_of_ascii c) :: bytes_of_string s.
Proof. done. Qed.

Lemma pretty_N_char_byte x : (x < 10)%N → Z.of_N (Ascii.N_of_ascii (pretty_N_char x)) = 48 + Z.of_N x.
Proof.
  intros Hx. assert (x = 0 ∨ x = 1 ∨ x = 2 ∨ x = 3 ∨ x = 4 ∨ x = 5 ∨ x = 6 ∨ x = 7 ∨ x = 8 ∨ x = 9)%N as Hc by lia.
  by destruct Hc as [->|[->|[->|[->|[->|[->|[->|[->|[->| ->]]]]]]]]].
Qed.

(** The digits of a number, before a string; a number has no leading zero. *)
Lemma pretty_N_digits x s : ∃ ds, bytes_of_string (pretty_N_go x s) = ds ++ bytes_of_string s ∧
  Forall (λ b, 48 ≤ b ≤ 57) ds ∧ digits_value ds = Z.of_N x ∧
  if decide (x = 0)%N then ds = [] else ∃ d ds', ds = d :: ds' ∧ d ≠ 48.
Proof.
  revert s. induction (N.lt_wf_0 x) as [x _ IH]; intros s.
  destruct (decide (x = 0)%N) as [->|Hx]; [by exists []|].
  rewrite pretty_N_go_step by lia. pose proof (N.mod_lt x 10 ltac:(done)) as Hm. pose proof (N.div_mod x 10 ltac:(done)) as Hdm.
  destruct (IH (x / 10)%N ltac:(by apply N.div_lt; lia) (String (pretty_N_char (x mod 10)) s)) as (ds & Hds & Hd & Hv & Hlead).
  exists (ds ++ [48 + Z.of_N (x mod 10)]). split_and!.
  - rewrite Hds, bytes_of_string_cons, pretty_N_char_byte by done. by rewrite <- (assoc_L (++)).
  - apply Forall_app. split; [done|]. constructor; [|done]. revert Hm. generalize (x mod 10)%N. lia.
  - unfold digits_value in *. rewrite foldl_app, Hv. cbn [foldl].
    revert Hdm. generalize (x / 10)%N (x mod 10)%N. lia.
  - destruct (decide (x / 10 = 0)%N) as [Hz|_].
    + subst ds. eexists _, []. split; [done|]. rewrite Hz in Hdm. revert Hx Hdm. generalize (x mod 10)%N. lia.
    + destruct Hlead as (d & ds' & -> & Hne). by exists d, (ds' ++ [48 + Z.of_N (x mod 10)]).
Qed.

Lemma digits_no_sign (b : Z) ds : 48 ≤ b ≤ 57 →
  match b :: ds with 43 :: ds => (1, ds) | 45 :: ds => (-1, ds) | _ => (1, b :: ds) end = (1, b :: ds).
Proof.
  intros Hb. assert (b = 48 ∨ b = 49 ∨ b = 50 ∨ b = 51 ∨ b = 52 ∨ b = 53 ∨ b = 54 ∨ b = 55 ∨ b = 56 ∨ b = 57) as Hc by lia.
  by destruct Hc as [->|[->|[->|[->|[->|[->|[->|[->|[->| ->]]]]]]]]].
Qed.

Lemma Atoi_digits sign (ds : list Z) s : Forall (λ b, 48 ≤ b ≤ 57) ds → ds ≠ [] →
  bytes_of_string s = (if sign : bool then 45 :: ds else ds) →
  - 2 ^ 63 ≤ (if sign then - digits_value ds else digits_value ds) ≤ intMax →
  Atoi s = Some (if sign then - digits_value ds else digits_value ds).
Proof.
  intros Hds Hne Hs Hr. unfold Atoi. rewrite Hs.
  assert (forallb is_digit ds = true) as Hall.
  { apply Is_true_eq_true, forallb_True, (Forall_impl _ _ _ Hds). intros b Hb. unfold is_digit.
    by rewrite !(proj2 (Z.leb_le _ _)) by lia. }
  assert (∀ v, - 2 ^ 63 ≤ v ≤ intMax → (if (- 2 ^ 63 <=? v) && (v <=? intMax) then Some v else None) = Some v) as Hrange.
  { intros v Hv. by rewrite !(proj2 (Z.leb_le _ _)) by lia. }
  destruct ds as [|b ds]; [done|]. destruct sign.
  - cbv beta iota. rewrite Hall. replace (-1 * digits_value (b :: ds)) with (- digits_value (b :: ds)) by lia. by apply Hrange.
  - apply Forall_cons in Hds as [Hb _]. rewrite digits_no_sign by done. rewrite Hall, Z.mul_1_l. by apply Hrange.
Qed.

Lemma Atoi_Itoa n : - 2 ^ 63 ≤ n ≤ intMax → Atoi (Itoa n) = Some n.
Proof.
  intros Hn. destruct n as [|x|x]; [done|..];
    destruct (pretty_N_digits (N.pos x) "") as (ds & Hds & Hd & Hv & Hlead); rewrite app_nil_r in Hds;
    assert (ds ≠ []) as Hne by (by destruct Hlead as (d & ds' & -> & _)).
  - pose proof (Atoi_digits false ds (Itoa (Z.pos x)) Hd Hne Hds) as Ha.
    rewrite Hv in Ha. by apply Ha.
  - pose proof (Atoi_digits true ds (Itoa (Z.neg x)) Hd Hne) as Ha.
    rewrite Hv in Ha. apply Ha; [|done]. rewrite <- Hds. exact (bytes_of_string_cons (Ascii.ascii_of_nat 45) (pretty_N_go (N.pos x) "")).
Qed.

(** ** Header lists *)

Section lists.
Context `{UrlLib} (lower : string → string).

(** The names in lower case, as [WriteHeaderBlock] sends them. *)
Definition lowered (headers : list HeaderField) : list HeaderField := ws_headers (initHeaders lower headers).

Lemma lowered_app l1 l2 : lowered (l1 ++ l2) = lowered l1 ++ lowered l2.
Proof. apply fmap_app. Qed.

Lemma values_of_lowered headers n : Forall (λ h, ToLower lower (h_Name h) ≠ n) headers → values_of (lowered headers) n = [].
Proof.
  unfold values_of, lowered. cbn [ws_headers initHeaders]. induction 1 as [|h headers Hh _ IH]; [done|].
  rewrite fmap_cons, filter_cons. cbn [h_Name]. by rewrite decide_False by done.
Qed.

(** The status of a response is what its first field says, if no other says it. *)
Lemma GetStatus_response status headers : - 2 ^ 63 ≤ status ≤ intMax →
  Forall (λ h, ToLower lower (h_Name h) ≠ ":status"%string) headers →
  GetStatus lower (lowered (statusField status :: headers)) = status.
Proof.
  intros Hs Hh. unfold GetStatus. rewrite GetHeader_values.
  change (ToLower lower ":status") with ":status"%string. change (statusField status :: headers) with ([statusField status] ++ headers).
  rewrite lowered_app. unfold values_of. rewrite filter_app, fmap_app. fold (values_of (lowered headers) ":status").
  rewrite values_of_lowered, app_nil_r by done. change (h_Value <$> filter _ (lowered [statusField status])) with [Itoa status].
  change (join_values "" [Itoa status]) with (Itoa status). by rewrite Atoi_Itoa.
Qed.

(** Sending the fields of a request in lower case only changes the names of the
    headers that are added to it. *)
Lemma lowered_request method base target headers u fields :
  buildRequestHeaderFields method base target headers = Ok (u, fields) →
  buildRequestHeaderFields method base target (lowered headers) = Ok (u, lowered fields).
Proof.
  unfold buildRequestHeaderFields. destruct (match base with Some _ => _ | None => _ end) as [v|e| |]; [|done..].
  destruct (decide _); [|done]. by intros [= <- <-].
Qed.
End lists.

(** ** Messages on a connection *)

Section on_connection.
Context (lower : string → string) (id : Z).
Implicit Types (c : connection Buffer).

(** The body of a message that has begun, and its end. *)
Definition finishMessage (chunks : list (list Z)) : go (connection Buffer * bitWriter Buffer) unit :=
  on_outgoing (writeBody chunks;; End_ lower id None None).

Lemma sendFrame_open t p (s : outgoing Buffer Buffer) : og_closed (sendFrame t p s).2 = og_closed s.
Proof.
  unfold sendFrame, zoom. rewrite bind_unfold. by destruct (WriteFrame t p (og_stream s)) as [[[]|e| |] w].
Qed.

Lemma writeHeaderBlock_open headers (s : outgoing Buffer Buffer) :
  og_closed (writeHeaderBlock lower id headers s).2 = og_closed s.
Proof.
  unfold writeHeaderBlock, headerBlock. rewrite bind_unfold.
  destruct (WriteHeaderBlock lower id headers _) as [o [[e w] h]]. destruct o as [[]|er| |]; [|done..].
  rewrite bind_unfold. pose proof (sendFrame_open frameHeaders (buf_bytes h) (Outgoing e w (og_stream s) (og_closed s))) as Hs.
  destruct (sendFrame _ _ _) as [[[er|]|er| |] s']; exact Hs.
Qed.

(** A message sent in two calls on a connection is [sendMessage]. *)
Lemma connection_message headers chunks c w e2 w1 w2 :
  sendMessage lower id headers chunks (Outgoing (c_encoder c) (c_updates c) w false) = (Ok tt, Outgoing e2 w1 w2 true) →
  ∃ c1 w', on_outgoing (writeHeaderBlock lower id headers) (c, w) = (Ok tt, (c1, w')) ∧
    finishMessage chunks (c1, w') = (Ok tt, (set_updates w1 (set_encoder e2 c), w2)).
Proof.
  unfold sendMessage, finishMessage, on_outgoing, zoom. rewrite bind_unfold. cbn [fst snd].
  pose proof (writeHeaderBlock_open headers (Outgoing (c_encoder c) (c_updates c) w false)) as Hopen.
  destruct (writeHeaderBlock lower id headers _) as [[[]|e| |] [e' u' w' cl]]; [|done..].
  cbn [og_closed snd] in Hopen. subst cl. intros Hr. eexists _, _. split; [done|].
  cbn [fst snd c_encoder set_updates set_encoder c_updates og_encoder og_updates og_stream]. by rewrite Hr.
Qed.
End on_connection.

(** ** Responses *)

Section responses.
Context `{UrlLib} (lower : string → string).
Implicit Types (c : connection Buffer).

(** A response with its body. *)
Definition respondWith (id status : Z) (headers : list HeaderField) (chunks : list (list Z))
  : go (connection Buffer * bitWriter Buffer) unit :=
  _ ← sendResponse lower id status headers;
  finishMessage lower id chunks.

Lemma respondWith_run id status headers chunks c w e2 w1 w2 :
  c_ready c = true → ValidatePseudoHeaders headers = Ok tt →
  sendMessage lower id (statusField status :: headers) chunks (Outgoing (c_encoder c) (c_updates c) w false) =
    (Ok tt, Outgoing e2 w1 w2 true) →
  respondWith id status headers chunks (c, w) = (Ok tt, (set_updates w1 (set_encoder e2 c), w2)).
Proof.
  intros Hready Hv Hs. destruct (connection_message lower id _ _ _ _ _ _ _ Hs) as (c1 & w' & Hb & Hf).
  assert (waitReady (c, w) = (Ok tt, (c, w))) as Hwait by (unfold waitReady; rewrite bind_unfold; cbn; by rewrite Hready).
  assert (lift (ValidatePseudoHeaders headers) (c, w) = (Ok tt, (c, w))) as Hlift by (unfold lift; by rewrite Hv).
  unfold respondWith, sendResponse. rewrite bind_assoc, (bind_Ok _ _ _ _ _ Hlift), bind_assoc, (bind_Ok _ _ _ _ _ Hwait).
  cbv zeta. by rewrite bind_assoc, (bind_Ok _ _ _ _ _ Hb).
Qed.

(** What a final response leaves at the client. *)
Definition answered (headers : list HeaderField) (status : Z) (an : answers) : answers :=
  let resp := setResponseHeaders lower headers (an_current an) in
  MkAnswers resp (an_informational an) (Some resp) (an_pushes an) (an_pushesClosed an) (an_aborted an).

(** What is left of it at the end of the stream: the response was handed out, and the
    feed of promises is closed. *)
Definition responded (headers : list HeaderField) (status : Z) (an : answers) : answers :=
  let resp := MkClientResponse (rs_stream (an_current an)) headers status in
  MkAnswers resp (an_informational an) (Some resp) (an_pushes an) true (an_aborted an).

Lemma responseHeaders_final {W} informational headers status (c : ClientConnection W) an :
  GetStatus lower headers = status → Z.quot status 100 ≠ 0 → Z.quot status 100 ≠ 1 →
  on_answers (responseHeaders lower informational headers) (c, an) = (Ok true, (c, answered headers status an)).
Proof.
  intros <- H0 H1. unfold on_answers, zoom, responseHeaders, setHeaders. rewrite !bind_unfold. cbn [modS fst snd].
  rewrite !(proj2 (Z.eqb_neq _ _)) by done. done.
Qed.
End responses.

(** ** Requests *)

Section requests.
Context `{UrlLib} (lower : string → string).

(** A request with its body. *)
Definition finishRequest (id : Z) (chunks : list (list Z)) (req : ClientRequest) (w : bitWriter Buffer)
  : go (ClientConnection Buffer) (ClientRequest * bitWriter Buffer) := λ c,
  let '(o, (conn, w')) := finishMessage lower id chunks (cc_connection c, w) in
  (match o with Ok _ => Ok (req, w') | Err e => Err e | Panic => Panic | NoFuel => NoFuel end,
   set_client_connection conn c).

Definition fetchWith (id : Z) (w : Buffer) (method target : string) (headers : list HeaderField) (chunks : list (list Z))
  : go (ClientConnection Buffer) (ClientRequest * bitWriter Buffer) :=
  '(req, w) ← Fetch lower true (Some (id, w)) method target headers;
  finishRequest id chunks req w.

Lemma fetchWith_run id w method target headers chunks (c : ClientConnection Buffer) u fields e2 w1 w2 :
  c_ready (cc_connection c) = true → ValidatePseudoHeaders headers = Ok tt →
  buildRequestHeaderFields method None target headers = Ok (u, fields) →
  sendMessage lower id fields chunks
    (Outgoing (c_encoder (cc_connection c)) (c_updates (cc_connection c)) (NewBitWriter w) false) =
    (Ok tt, Outgoing e2 w1 w2 true) →
  fetchWith id w method target headers chunks c =
    (Ok (MkClientRequest method u fields, w2), set_client_connection (set_updates w1 (set_encoder e2 (cc_connection c))) c).
Proof.
  intros Hready Hv Hb Hs. destruct (connection_message lower id _ _ _ _ _ _ _ Hs) as (c1 & w' & Hw & Hf).
  unfold fetchWith. rewrite bind_unfold. unfold Fetch. rewrite Hv, Hready, Hb, Hw. cbn [fst snd negb].
  unfold finishRequest. cbn [set_client_connection cc_connection]. by rewrite Hf.
Qed.
End requests.

(** ** From one end to the other *)

Lemma request_crosses `{UrlLib} lower id w method target headers chunks (c : ClientConnection Buffer) u fields v :
  let e := c_encoder (cc_connection c) in
  enc_ok e → at_byte (c_updates (cc_connection c)) → at_byte (NewBitWriter w) → qe_base e + zlen fields < 2 ^ 60 →
  c_ready (cc_connection c) = true → ValidatePseudoHeaders headers = Ok tt →
  buildRequestHeaderFields method None target headers = Ok (u, fields) →
  Forall (λ h, pseudo_name h = false) (lowered lower headers) → method ≠ ""%string → url_Host u ≠ ""%string →
  url_EscapedPath u ≠ ""%string → url_ParseRef (url_Make "https" (url_Host u)) (url_EscapedPath u) = Ok v →
  Forall (field_ok (enc_pref e)) (lowered lower fields) → ValidatePseudoHeaders (lowered lower fields) = Ok tt →
  Forall chunk_ok chunks →
  block_crosses lower id fields [] e (c_updates (cc_connection c)) (λ e2 w1 t evs,
    ∃ w2 bs, fetchWith lower id w method target headers chunks c =
        (Ok (MkClientRequest method u fields, w2), set_client_connection (set_updates w1 (set_encoder e2 (cc_connection c))) c) ∧
      buf_bytes (bw_writer w2) = buf_bytes w ++ bs ∧
      ∀ bufSize fuel sent log req, 0 < bufSize → (8 * length bs + 1 < fuel)%nat →
      ∃ br', handle lower bufSize id fuel (Incoming t sent (NewBitReader (MkBytesReader bs)) log req) =
        (Ok tt, Incoming t (sent ++ evs) br' (log ++ bodies chunks)
                  (MkServerRequest (lowered lower fields) method (Some v) true (rq_aborted req)))).
Proof.
  intros e Hok Hw Hws Hb Hready Hv Hbuild Hplain Hm Hhost Hpath Hparse Hf Hvf Hc.
  eapply block_crosses_mono; [|by apply (message_crosses lower id fields chunks e _ (NewBitWriter w))].
  intros e2 w1 t evs (w2 & bs & Hs & _ & Hbytes & Hmsg). exists w2, bs.
  split; [by eapply fetchWith_run|]. split; [exact Hbytes|].
  intros bufSize fuel sent log req Hbuf Hfuel.
  destruct (Hmsg _ bufSize (requestHeaders lower) (λ _ _, fail ErrUnsupportedFrame) fuel sent log req
    (MkServerRequest (lowered lower fields) method (Some v) true (rq_aborted req)) Hbuf) as (br' & Hr); [|exact Hfuel|].
  - unfold requestHeaders, setRequestHeaders, catch. rewrite bind_unfold. fold (lowered lower fields).
    rewrite (getMethodAndTarget_fields lower _ _ _ _ _ _ (lowered_request lower _ _ _ _ _ _ Hbuild)) by done.
    by rewrite decide_False, Hparse by done.
  - exists br'. unfold handle, catch. by rewrite bind_unfold, Hr.
Qed.

Lemma response_crosses `{UrlLib} lower id status headers chunks (c : connection Buffer) (w : bitWriter Buffer) :
  let e := c_encoder c in let fields := lowered lower (statusField status :: headers) in
  enc_ok e → at_byte (c_updates c) → at_byte w → qe_base e + zlen (statusField status :: headers) < 2 ^ 60 →
  c_ready c = true → ValidatePseudoHeaders headers = Ok tt → - 2 ^ 63 ≤ status ≤ intMax →
  Z.quot status 100 ≠ 0 → Z.quot status 100 ≠ 1 →
  Forall (λ h, ToLower lower (h_Name h) ≠ ":status"%string) headers →
  Forall (field_ok (enc_pref e)) fields → ValidatePseudoHeaders fields = Ok tt → Forall chunk_ok chunks →
  block_crosses lower id (statusField status :: headers) [] e (c_updates c) (λ e2 w1 t evs,
    ∃ w2 bs, respondWith lower id status headers chunks (c, w) = (Ok tt, (set_updates w1 (set_encoder e2 c), w2)) ∧
      at_byte w2 ∧ buf_bytes (bw_writer w2) = buf_bytes (bw_writer w) ++ bs ∧
      ∀ informational bufSize fuel sent log (cc : ClientConnection Buffer) an, 0 < bufSize → (8 * length bs + 1 < fuel)%nat →
      ∃ br', readResponse lower informational bufSize id fuel
          (Incoming t sent (NewBitReader (MkBytesReader bs)) log (cc, an)) =
        (Ok tt, Incoming t (sent ++ evs) br' (log ++ bodies chunks) (cc, responded fields status an))).
Proof.
  intros e fields Hok Hw Hws Hb Hready Hv Hrange H0 H1 Hplain Hf Hvf Hc.
  pose proof (GetStatus_response lower status headers Hrange Hplain) as Hstatus.
  eapply block_crosses_mono; [|by apply (message_crosses lower id (statusField status :: headers) chunks e _ w)].
  intros e2 w1 t evs (w2 & bs & Hs & Hw2 & Hbytes & Hmsg). exists w2, bs.
  split; [by apply respondWith_run|]. split; [exact Hw2|]. split; [exact Hbytes|].
  intros informational bufSize fuel sent log cc an Hbuf Hfuel.
  destruct (Hmsg _ bufSize (λ h, on_answers (responseHeaders lower informational h)) (responseFrames lower fuel id) fuel sent log
    (cc, an) (cc, answered lower fields status an) Hbuf) as (br' & Hr); [by apply responseHeaders_final|exact Hfuel|].
  exists br'. unfold readResponse, catch. rewrite bind_unfold.
  change (ClientConnection Buffer * answers)%type with (reading (W := Buffer)). rewrite Hr.
  fold fields in Hstatus. unfold answered, setResponseHeaders. by rewrite Hstatus.
Qed.
