(* ===== verification/Conversation.v ===== *)
(** * Conversations

    A client and a server with the streams of one connection between them. Requests
    and responses are sent one after the other, each on a stream of its own; the
    table updates they need travel on the streams of the two encoders, and the
    acknowledgments on the streams of the two decoders, whenever the goroutines that
    write them get to run. What arrives is given to the goroutine of its stream, as
    [serviceRequests], [Fetch] and [serviceUnidirectionalStreams] start them. *)

From S2P Require Import Prelude Bits GoIo BitWriter BitReader Streams Frame HcInt HuffmanTable Huffman HcString StaticTable Table Codec QpackTable QpackEncoder QpackDecoder QpackDecoderSpec QpackEncoderSpec QpackReach QpackLink QpackAck Settings Headers Message MessageSpec MessageLink Connection Push PushSpec PushStream Request RequestSpec.

(** ** Bytes on their way *)

(** What a writer has passed on since it was [w]. *)
Definition since (w w' : bitWriter Buffer) : list Z :=
  drop (length (buf_bytes (bw_writer w))) (buf_bytes (bw_writer w')).

Lemma since_app w w' bs : buf_bytes (bw_writer w') = buf_bytes (bw_writer w) ++ bs → since w w' = bs.
Proof. intros Heq. unfold since. by rewrite Heq, drop_app_length. Qed.

Definition arrived (bs : list Z) : bitReader bytesReader := NewBitReader (MkBytesReader bs).

(** A fuel for any loop over these bytes. *)
Definition enough (bs : list Z) : nat := (8 * length bs + 2)%nat.

Section arriving.
Context {S : Type} `{ConnectionHandler Buffer S}.

(** A goroutine of the connection takes what arrived on its stream. *)
Definition arrive (bs : list Z) (m : nat → go (S * bitReader bytesReader) unit) : go S unit :=
  zoom (λ s, (s, arrived bs)) (λ x _, x.1) (m (enough bs)).

Definition updatesArrive (bs : list Z) : go S unit := arrive bs serviceTableUpdates.

(** The loop has no end but the error at the end of what arrived. *)
Definition acksArrive (bs : list Z) : go S unit :=
  _ ← catch (arrive bs serviceAcknowledgments); mret tt.

(** The goroutine of the decoder takes the messages that wait for it, and its timer
    fires or does not; the bytes that it writes. *)
Definition sendAcks (timer : bool) : go (S * acking Buffer) (list Z) :=
  s ← getS;
  let c := base s.1 in
  zoom snd (λ a s, (s.1, a)) (writeAcknowledgements (c_acks c ++ if timer then [EvTimer] else []));;
  modS (λ s, (set_base (set_decoder (c_decoder c) [] c) s.1, s.2));;
  s' ← getS;
  mret (since (ak_writer s.2) (ak_writer s'.2)).
End arriving.

(** ** The two ends *)

Section conversation.
Context `{UrlLib} (lower : string → string) (bufSize : Z).

(** The streams that arrive here are not pushes, which the handlers are also for. *)
#[local] Instance client_handler : ConnectionHandler Buffer (ClientConnection Buffer) := ClientConnection_handler lower None bufSize 0.
#[local] Instance server_handler : ConnectionHandler Buffer (ServerConnection Buffer) := ServerConnection_handler None.

(** [serviceRequests] on the stream [id], once all of it arrived: a new request and
    the goroutine of its [handle]. *)
Definition serviceRequest (id : Z) (bs : list Z) : go (ServerConnection Buffer) (ServerRequest * list delivery) :=
  zoom (λ c, Incoming (c_decoder (sc_connection c)) (c_acks (sc_connection c)) (arrived bs) [] newServerRequest)
    (λ x c, set_connection (set_decoder (in_table x) (in_sent x) (sc_connection c)) c)
    (handle lower bufSize id (enough bs);;
     x ← getS;
     mret (in_handler x, in_log x)).

(** What a request has before anything came back. *)
Definition noAnswers (id : Z) : answers := MkAnswers (MkClientResponse id [] 0) [] None [] false false.

(** The goroutine of [Fetch] that reads the response. *)
Definition receiveResponse (id : Z) (bs : list Z) : go (ClientConnection Buffer) (answers * list delivery) :=
  zoom (λ c, Incoming (c_decoder (cc_connection c)) (c_acks (cc_connection c)) (arrived bs) [] (c, noAnswers id))
    (λ x _, let c := (in_handler x).1 in
       set_client_connection (set_decoder (in_table x) (in_sent x) (cc_connection c)) c)
    (x ← getS;
     readResponse lower (InformationalResponses (c_config (cc_connection (in_handler x).1))) bufSize id (enough bs);;
     x ← getS;
     mret ((in_handler x).2, in_log x)).

(** The connections and the goroutines that write their acknowledgments. *)
Record ends := Ends {
  en_client : ClientConnection Buffer;
  en_server : ServerConnection Buffer;
  en_clientAcks : acking Buffer;
  en_serverAcks : acking Buffer;
}.

Definition at_client {A} (m : go (ClientConnection Buffer) A) : go ends A :=
  zoom en_client (λ c s, Ends c (en_server s) (en_clientAcks s) (en_serverAcks s)) m.
Definition at_server {A} (m : go (ServerConnection Buffer) A) : go ends A :=
  zoom en_server (λ c s, Ends (en_client s) c (en_clientAcks s) (en_serverAcks s)) m.

Definition client_updates (s : ends) : bitWriter Buffer := c_updates (cc_connection (en_client s)).
Definition server_updates (s : ends) : bitWriter Buffer := c_updates (sc_connection (en_server s)).

(** What the applications do, and when the goroutines of the decoders run. *)
Inductive act : Type :=
| Ask (id : Z) (method target : string) (headers : list HeaderField) (chunks : list (list Z))
| Answer (id status : Z) (headers : list HeaderField) (chunks : list (list Z))
| AcksToClient (timer : bool)
| AcksToServer (timer : bool).

(** What reaches an application. *)
Inductive heard : Type :=
| HeardRequest (id : Z) (req : ServerRequest) (body : list delivery)
| HeardResponse (id : Z) (an : answers) (body : list delivery)
| HeardNothing.

Definition ask (id : Z) (method target : string) (headers : list HeaderField) (chunks : list (list Z)) : go ends heard :=
  s ← getS;
  '(_, w) ← at_client (fetchWith lower id (MkBuffer []) method target headers chunks);
  s' ← getS;
  at_server (updatesArrive (since (client_updates s) (client_updates s')));;
  '(req, body) ← at_server (serviceRequest id (buf_bytes (bw_writer w)));
  mret (HeardRequest id req body).

(** [Respond] and the writes after it, on the stream of the request. *)
Definition respondOn (id status : Z) (headers : list HeaderField) (chunks : list (list Z))
  : go (ServerConnection Buffer) (list Z) :=
  zoom (λ c, (sc_connection c, NewBitWriter (MkBuffer []))) (λ x c, set_connection x.1 c)
    (respondWith lower id status headers chunks;;
     x ← getS;
     mret (buf_bytes (bw_writer x.2))).

Definition answer (id status : Z) (headers : list HeaderField) (chunks : list (list Z)) : go ends heard :=
  s ← getS;
  bs ← at_server (respondOn id status headers chunks);
  s' ← getS;
  at_client (updatesArrive (since (server_updates s) (server_updates s')));;
  '(an, body) ← at_client (receiveResponse id bs);
  mret (HeardResponse id an body).

Definition acksToClient (timer : bool) : go ends heard :=
  bs ← zoom (λ s, (en_server s, en_serverAcks s)) (λ x s, Ends (en_client s) x.1 (en_clientAcks s) x.2) (sendAcks timer);
  at_client (acksArrive bs);;
  mret HeardNothing.

Definition acksToServer (timer : bool) : go ends heard :=
  bs ← zoom (λ s, (en_client s, en_clientAcks s)) (λ x s, Ends x.1 (en_server s) x.2 (en_serverAcks s)) (sendAcks timer);
  at_server (acksArrive bs);;
  mret HeardNothing.

Definition perform (a : act) : go ends heard :=
  match a with
  | Ask id method target headers chunks => ask id method target headers chunks
  | Answer id status headers chunks => answer id status headers chunks
  | AcksToClient timer => acksToClient timer
  | AcksToServer timer => acksToServer timer
  end.

Fixpoint converse (acts : list act) : go ends (list heard) :=
  match acts with
  | [] => mret []
  | a :: acts' =>
      h ← perform a;
      hs ← converse acts';
      mret (h :: hs)
  end.
End conversation.
