(* ===== verification/Server.v ===== *)
(** * The HTTP server (server.go)

    What [Listen] puts together: a socket, a certificate, the server of the QUIC
    library with its loop ([ServerLoop]), and the goroutines that take connections and
    requests from it. The goroutines are a step relation around that of the loop. *)

From S2P Require Import Prelude EventLoop ServerLoop Bits GoIo BitWriter BitReader Streams Frame HcInt HuffmanTable Huffman HcString StaticTable Table Codec QpackTable QpackEncoder QpackDecoder Settings Headers Message Connection Push Request Conversation.

(** ** The socket *)

Record Packet := MkPacket {
  DestAddr : string;
  SrcAddr : string;
  Data : list Z;
}.

(** [serviceUdpSocket] reads a datagram, or is in its send to the loop, or has called
    [Close] of the resource that the socket is for. [ud_read] is what came in, with the
    address it came from, and [ud_sent] what the loop received. *)
Inductive udpState :=
| UdpReading
| UdpSending (p : Packet)
| UdpClosing.

Record udp := MkUdp {
  ud_state : udpState;
  ud_read : list (string * list Z);
  ud_sent : list Packet;
}.

(** A read into the buffer of 4096 bytes: the rest of a longer datagram is lost. *)
Definition readPacket (localAddr : string) (d : string * list Z) : Packet := MkPacket localAddr d.1 (take 4096 d.2).

Inductive udp_step (localAddr : string) : udp → udp → Prop :=
| udp_read d s : ud_state s = UdpReading →
    udp_step localAddr s (MkUdp (UdpSending (readPacket localAddr d)) (ud_read s ++ [d]) (ud_sent s))
| udp_send p s : ud_state s = UdpSending p → udp_step localAddr s (MkUdp UdpReading (ud_read s) (ud_sent s ++ [p]))
| udp_error s : ud_state s = UdpReading → udp_step localAddr s (MkUdp UdpClosing (ud_read s) (ud_sent s)).

(** [serviceUdpSocket] starts once it has its own address. *)
Definition serviceUdpSocket (localAddr : outcome string) : outcome (string * udp) :=
  match localAddr with
  | Ok a => Ok (a, MkUdp UdpReading [] [])
  | _ => Panic          (* can't get UDP address of UDP socket *)
  end.

(** ** [Listen] *)

(** Go's certificates and sockets: the chain and the key of a pair of files, the
    parser of a certificate, and the key as a [crypto.Signer] if it is one. *)
Class TlsLib := {
  Certificate : Type;
  PrivateKey : Type;
  Signer : Type;
  tls_LoadX509KeyPair : string → string → outcome (list (list Z) * PrivateKey);
  x509_ParseCertificate : list Z → outcome Certificate;
  as_Signer : PrivateKey → option Signer;
}.

Class ListenNet := {
  lsn_SplitHostPort : string → outcome (string * string);
  lsn_ResolveUDPAddr : string → outcome string;
  lsn_ListenUDP : string → outcome unit;
}.

Section listen.
Context `{TlsLib} `{ListenNet}.

(** [minq.TlsConfig]; a certificate that was not parsed yet is nil. *)
Record TlsConfig := MkTlsConfig {
  tc_ServerName : string;
  CertificateChain : list (option Certificate);
  Key : option Signer;
}.

(** The loop over the certificates, at the index [i]. *)
Fixpoint parseChain (i : nat) (certs : list (list Z)) : go TlsConfig unit :=
  match certs with
  | [] => mret tt
  | b :: certs' =>
      c ← lift (x509_ParseCertificate b);
      modS (λ config, MkTlsConfig (tc_ServerName config) (<[i := Some c]> (CertificateChain config)) (Key config));;
      parseChain (S i) certs'
  end.

Definition loadCert (certfile keyfile : string) : go TlsConfig unit :=
  '(certs, key) ← lift (tls_LoadX509KeyPair certfile keyfile);
  modS (λ config, MkTlsConfig (tc_ServerName config) (replicate (length certs) None) (Key config));;
  parseChain 0 certs;;
  match as_Signer key with
  | None => fail (ErrText "Private key isn't suitable for signing")
  | Some k => modS (λ config, MkTlsConfig (tc_ServerName config) (CertificateChain config) (Some k))
  end.

(** [Listen]: what the server of the QUIC library is made with. The state is the
    sockets that listen. *)
Definition Listen (host certfile keyfile : string) : go (list string) (string * TlsConfig) :=
  '(serverName, _) ← lift (lsn_SplitHostPort host);
  addr ← lift (lsn_ResolveUDPAddr host);
  lift (lsn_ListenUDP addr);;
  modS (λ socks, socks ++ [addr]);;
  minqConfig ← lift (let '(o, config) := loadCert certfile keyfile (MkTlsConfig serverName [] None) in
                     match o with Ok _ => Ok config | Err e => Err e | Panic => Panic | NoFuel => NoFuel end);
  mret (addr, minqConfig).
End listen.

(** ** The goroutines *)

Section http.
Context `{UrlLib} (lower : string → string) (bufSize : Z).

(** A goroutine of [handle], for a stream: before its run, in its send to the channel
    of requests, after it, or ended without one. *)
Inductive handlerState :=
| HReading
| HSending (req : ServerRequest) (body : list delivery)
| HServed (req : ServerRequest) (body : list delivery)
| HFailed.

(** The goroutine of [serviceConnections] for a connection: in [Connect], in its send
    to the channel of connections, or ended. *)
Inductive workerPhase :=
| WConnecting
| WOffering
| WReturned.

(** A connection that was wrapped: its number in the loop, and, when [Connect]
    succeeded, its state and the goroutines that its [serviceRequests] started. *)
Record worker := Worker {
  wk_conn : nat;
  wk_phase : workerPhase;
  wk_base : option (ServerConnection Buffer);
  wk_handlers : list (Z * handlerState);
}.

Context {S M : Type} `{Minq M} `{MinqServer S M}.

(** [hs_connections] and [hs_requests] are what the application received, by the
    numbers of the connection and of its handler. *)
Record httpServer := HttpServer {
  hs_mw : serverSystem S M;
  hs_config : Config;
  hs_workers : list worker;
  hs_connections : list nat;
  hs_requests : list (nat * nat * ServerRequest);
}.
Implicit Types (s : httpServer) (w : worker).

(** [RunServer] *)
Definition RunServer (ms : S) (config : Config) : httpServer := HttpServer (startServer ms) config [] [] [].

Definition hs_set_mw (l : serverSystem S M) s : httpServer :=
  HttpServer l (hs_config s) (hs_workers s) (hs_connections s) (hs_requests s).
Definition hs_set_worker (j : nat) w s : httpServer :=
  HttpServer (hs_mw s) (hs_config s) (<[j := w]> (hs_workers s)) (hs_connections s) (hs_requests s).
Definition set_phase (p : workerPhase) w : worker := Worker (wk_conn w) p (wk_base w) (wk_handlers w).
Definition set_wbase (c : ServerConnection Buffer) w : worker := Worker (wk_conn w) (wk_phase w) (Some c) (wk_handlers w).
Definition set_handlers (hs : list (Z * handlerState)) w : worker := Worker (wk_conn w) (wk_phase w) (wk_base w) hs.

(** Steps of the loop below that take nothing from the channels served here. *)
Definition takes_nothing (l l' : serverSystem S M) : Prop :=
  sv_accepted (ss_server l') = sv_accepted (ss_server l) ∧
  ∀ k c c', sv_conns (ss_server l) !! k = Some c → sv_conns (ss_server l') !! k = Some c' →
    remoteStreams c `prefix_of` remoteStreams c'.

(** [Connect] of a worker on the streams it makes, and the [if] after it: its error is
    dropped. *)
Definition connectWorker (config : Config) (st : streams (W := Buffer)) w : option worker :=
  let phase := if TrackConnections config then WOffering else WReturned in
  match (connect config st).1 with
  | Ok c => Some (Worker (wk_conn w) phase (Some (newServerConnection c)) [])
  | Err _ => Some (Worker (wk_conn w) phase None [])
  | _ => None
  end.

(** The goroutine of a stream after the run of [handle]. The send of the request comes
    in the middle of that run, and what follows is taken to come first. *)
Definition afterHandle (req : ServerRequest) (body : list delivery) : handlerState :=
  if rq_announced req then HSending req body else HFailed.

#[local] Existing Instance server_handler.

(** What other goroutines do to the connection of a worker: those of its unidirectional
    streams, with all of a stream or with what has come of an encoder's or a decoder's
    so far, and the application that responds. *)
Inductive service : Type :=
| AStream (bs : list Z)
| AUpdates (bs : list Z)
| AAcks (bs : list Z)
| ARespond (id status : Z) (headers : list HeaderField) (chunks : list (list Z)).

Definition serves (a : service) : go (ServerConnection Buffer) unit :=
  match a with
  | AStream bs => arrive bs serviceUnidirectionalStream
  | AUpdates bs => updatesArrive bs
  | AAcks bs => acksArrive bs
  | ARespond id status headers chunks => respondOn lower id status headers chunks;; mret tt
  end.

(** A step by the goroutine that takes it: the loop of the QUIC server; [serviceConnections],
    with the number of the connection in the loop; and, for a worker, its [Connect], its
    send to the channel of connections, its [serviceRequests], its handler with what came
    on the stream, the send of a request, and its other goroutines. *)
Inductive goroutine : Type :=
| Loops
| Wraps (k : nat)
| Connects (j : nat)
| Offers (j : nat)
| TakesStream (j : nat)
| Handles (j i : nat) (bs : list Z)
| Delivers (j i : nat)
| Serves (j : nat) (a : service).
#[global] Arguments Wraps k%_nat_scope.
#[global] Arguments Connects j%_nat_scope.
#[global] Arguments Offers j%_nat_scope.
#[global] Arguments TakesStream j%_nat_scope.
#[global] Arguments Handles (j i)%_nat_scope bs.
#[global] Arguments Delivers (j i)%_nat_scope.
#[global] Arguments Serves j%_nat_scope a.

(** The receive from the channel of the QUIC server's connections, of one that is up. *)
Definition acceptConnection (before after : list nat) (k : nat) (l : serverSystem S M) : serverSystem S M :=
  ss_set_server (MkServer (sv_s (ss_server l)) (sv_conns (ss_server l)) (before ++ after)
    (sv_accepted (ss_server l) ++ [k]) (sv_sending (ss_server l))) l.

(** The receive of a stream from a connection of the loop. *)
Definition acceptStream (k : nat) (c : EventLoop.Connection M) (rest : list Z) (l : serverSystem S M) : serverSystem S M :=
  ss_set_server (collect k (set_remote rest (remoteRecvStreams c) c) (ss_server l)) l.

(** [None] when the process ends. *)
Inductive http_step : goroutine → httpServer → option httpServer → Prop :=
| hs_loop s l : server_step (hs_mw s) (Some l) → takes_nothing (hs_mw s) l → http_step Loops s (Some (hs_set_mw l s))
| hs_loop_ends s : server_step (hs_mw s) None → http_step Loops s None
| hs_wrap s before k after c : sv_offers (ss_server (hs_mw s)) = before ++ k :: after →
    sv_conns (ss_server (hs_mw s)) !! k = Some c → connectedClosed c = true →
    http_step (Wraps k) s (Some (HttpServer (acceptConnection before after k (hs_mw s)) (hs_config s)
      (hs_workers s ++ [Worker k WConnecting None []]) (hs_connections s) (hs_requests s)))
| hs_connect s j w st : hs_workers s !! j = Some w → wk_phase w = WConnecting →
    http_step (Connects j) s ((λ w', hs_set_worker j w' s) <$> connectWorker (hs_config s) st w)
| hs_offer s j w : hs_workers s !! j = Some w → wk_phase w = WOffering →
    http_step (Offers j) s (Some (HttpServer (hs_mw s) (hs_config s) (<[j := set_phase WReturned w]> (hs_workers s))
      (hs_connections s ++ [j]) (hs_requests s)))
| hs_stream s j w c x rest : hs_workers s !! j = Some w → is_Some (wk_base w) →
    sv_conns (ss_server (hs_mw s)) !! wk_conn w = Some c → remoteStreams c = x :: rest →
    http_step (TakesStream j) s (Some (hs_set_worker j (set_handlers (wk_handlers w ++ [(x, HReading)]) w)
      (hs_set_mw (acceptStream (wk_conn w) c rest (hs_mw s)) s)))
| hs_handle s j w c i id bs req body c' : hs_workers s !! j = Some w → wk_base w = Some c →
    wk_handlers w !! i = Some (id, HReading) → serviceRequest lower bufSize id bs c = (Ok (req, body), c') →
    http_step (Handles j i bs) s
      (Some (hs_set_worker j (set_handlers (<[i := (id, afterHandle req body)]> (wk_handlers w)) (set_wbase c' w)) s))
| hs_handle_ends s j w c i id bs c' : hs_workers s !! j = Some w → wk_base w = Some c →
    wk_handlers w !! i = Some (id, HReading) → serviceRequest lower bufSize id bs c = (Panic, c') →
    http_step (Handles j i bs) s None
| hs_request s j w i id req body : hs_workers s !! j = Some w → wk_handlers w !! i = Some (id, HSending req body) →
    http_step (Delivers j i) s (Some (HttpServer (hs_mw s) (hs_config s)
      (<[j := set_handlers (<[i := (id, HServed req body)]> (wk_handlers w)) w]> (hs_workers s)) (hs_connections s)
      (hs_requests s ++ [(j, i, req)])))
| hs_serviced s j w a c r c' : hs_workers s !! j = Some w → wk_base w = Some c → serves a c = (r, c') →
    http_step (Serves j a) s (match r with Panic => None | _ => Some (hs_set_worker j (set_wbase c' w) s) end).

(** The steps of these goroutines, one after the other. *)
Inductive http_run : list goroutine → httpServer → httpServer → Prop :=
| run_nil s : http_run [] s s
| run_cons g gs s1 s2 s3 : http_step g s1 (Some s2) → http_run gs s2 s3 → http_run (g :: gs) s1 s3.

Definition http_steps s s' : Prop := ∃ gs, http_run gs s s'.

Definition http_reachable s : Prop := ∃ ms config, http_steps (RunServer ms config) s.
End http.
