(* ===== verification/ServerSpec.v ===== *)
(** * The HTTP server: its invariant

    Connections of the loop are wrapped in the order in which they come, one goroutine
    each; what the application received from the two channels is what the goroutines
    have sent, each once. *)

From S2P Require Import Prelude EventLoop EventLoopSpec ServerLoop ServerLoopSpec Bits GoIo BitWriter BitReader Streams Frame HcInt HuffmanTable Huffman HcString StaticTable Table Codec QpackTable QpackEncoder QpackDecoder Settings Headers Message Connection Push Request Conversation Server.

(** What holds of an element of a list that was changed at one place. *)
Lemma insert_at {A} (l : list A) j x y (P : A → Prop) k : l !! j = Some x →
  (∃ z, <[j := y]> l !! k = Some z ∧ P z) ↔ (k = j ∧ P y) ∨ (k ≠ j ∧ ∃ z, l !! k = Some z ∧ P z).
Proof.
  intros Hj. pose proof (lookup_lt_Some _ _ _ Hj). destruct (decide (k = j)) as [->|Hne].
  - rewrite list_lookup_insert_eq by done. split; [intros (z & [= <-] & ?); by left|intros [[_ ?]|[? _]]; [by exists y|done]].
  - rewrite list_lookup_insert_ne by done. split; [by right|by intros [[? _]|[_ ?]]].
Qed.

(** A change that [P] does not see. *)
Lemma insert_at_same {A} (l : list A) j x y (P : A → Prop) k : l !! j = Some x → (P y ↔ P x) →
  (∃ z, <[j := y]> l !! k = Some z ∧ P z) ↔ ∃ z, l !! k = Some z ∧ P z.
Proof. intros Hj HP. rewrite (insert_at l j x) by done. split.
  - intros [[-> ?]|[_ ?]]; [exists x; by rewrite <- HP|done].
  - intros (z & Hz & Hp). destruct (decide (k = j)) as [->|]; [left|right; split; [done|by exists z]].
    rewrite Hj in Hz. injection Hz as <-. by rewrite HP.
Qed.

Lemma snoc_at {A} (l : list A) x (P : A → Prop) k : ¬ P x →
  (∃ z, (l ++ [x]) !! k = Some z ∧ P z) ↔ ∃ z, l !! k = Some z ∧ P z.
Proof.
  intros HP. split; intros (z & Hz & Hp); exists z; (split; [|done]).
  - apply lookup_app_Some in Hz as [?|[_ [_ ->]%list_lookup_singleton_Some]]; done.
  - by apply lookup_app_l_Some.
Qed.

Section http.
Context `{UrlLib} (lower : string → string) (bufSize : Z) {S M : Type} `{Minq M} `{MinqServer S M}.
Implicit Types (s : httpServer (S := S) (M := M)) (w : worker).

Definition handed_out (config : Config) w : Prop := TrackConnections config = true ∧ wk_phase w = WReturned.
Definition served_at (i : nat) (req : ServerRequest) w : Prop := ∃ p, wk_handlers w !! i = Some p ∧ ∃ body, p.2 = HServed req body.

(** What the goroutines of a connection and its application make of it. *)
Definition worked (c c' : ServerConnection Buffer) : Prop :=
  (∃ a r, serves lower a c = (r, c')) ∨ ∃ id bs r, serviceRequest lower bufSize id bs c = (r, c').

(** A request that was announced is what [handle] read from its stream, at some time
    between [c0] and [c]. *)
Definition read_between (c0 c : ServerConnection Buffer) (id : Z) (req : ServerRequest) (body : list delivery) : Prop :=
  rq_announced req = true ∧ ∃ c1 bs c2, rtc worked c0 c1 ∧ serviceRequest lower bufSize id bs c1 = (Ok (req, body), c2) ∧ rtc worked c2 c.

Definition handler_ok (c0 c : ServerConnection Buffer) (p : Z * handlerState) : Prop :=
  match p.2 with
  | HSending req body | HServed req body => read_between c0 c p.1 req body
  | HReading | HFailed => True
  end.

(** The connection that [connect] made, and what became of it. *)
Definition history_ok (config : Config) w : Prop :=
  ∀ c, wk_base w = Some c → ∃ st cn st', connect config st = (Ok cn, st') ∧ rtc worked (newServerConnection cn) c ∧
    Forall (handler_ok (newServerConnection cn) c) (wk_handlers w).

(** Only a connection that is connected has streams that are served. *)
Record worker_ok (config : Config) w : Prop := {
  wo_offering : wk_phase w = WOffering → TrackConnections config = true;
  wo_connecting : wk_phase w = WConnecting → wk_base w = None;
  wo_handlers : wk_base w = None → wk_handlers w = [];
  wo_history : history_ok config w;
}.

Record http_inv s : Prop := {
  hi_mw : server_reachable (hs_mw s);
  hi_workers : wk_conn <$> hs_workers s = sv_accepted (ss_server (hs_mw s));
  hi_ok : Forall (worker_ok (hs_config s)) (hs_workers s);
  hi_once : NoDup (hs_connections s);
  hi_connections : ∀ j, j ∈ hs_connections s ↔ ∃ w, hs_workers s !! j = Some w ∧ handed_out (hs_config s) w;
  hi_requests_once : NoDup (hs_requests s).*1;
  hi_requests : ∀ j i req, (j, i, req) ∈ hs_requests s ↔ ∃ w, hs_workers s !! j = Some w ∧ served_at i req w;
}.

Lemma RunServer_inv ms config : http_inv (RunServer ms config).
Proof.
  split; cbn; try done; try (by constructor); [by exists ms; apply ss_refl|..].
  - intros j. split; [by intros ?%elem_of_nil|by intros (w & ? & _)].
  - intros j i req. split; [by intros ?%elem_of_nil|by intros (w & ? & _)].
Qed.

(** A change of one worker that nothing was sent for. *)
Lemma worker_inv s l j w w' : http_inv s → hs_workers s !! j = Some w → server_reachable l →
  sv_accepted (ss_server l) = sv_accepted (ss_server (hs_mw s)) → wk_conn w' = wk_conn w → worker_ok (hs_config s) w' →
  (handed_out (hs_config s) w' ↔ handed_out (hs_config s) w) → (∀ i req, served_at i req w' ↔ served_at i req w) →
  http_inv (hs_set_worker j w' (hs_set_mw l s)).
Proof.
  intros [Hm Hw Hok Hn Hc Hrn Hr] Hj Hl Hacc Hconn Hw' Hout Hserved. split; cbn; try done.
  - rewrite list_fmap_insert, Hconn, Hacc, <- Hw. apply list_insert_id. by rewrite list_lookup_fmap, Hj.
  - by apply Forall_insert.
  - intros k. rewrite Hc. symmetry. by apply (insert_at_same _ _ w).
  - intros k i req. rewrite Hr. symmetry. by apply (insert_at_same _ _ w).
Qed.

Lemma worker_inv_same s j w w' : http_inv s → hs_workers s !! j = Some w → wk_conn w' = wk_conn w → worker_ok (hs_config s) w' →
  (handed_out (hs_config s) w' ↔ handed_out (hs_config s) w) → (∀ i req, served_at i req w' ↔ served_at i req w) →
  http_inv (hs_set_worker j w' s).
Proof.
  intros Hs Hj Hconn Hok Hout Hserved. pose proof (worker_inv s (hs_mw s) j w w' Hs Hj (hi_mw s Hs) eq_refl Hconn Hok Hout Hserved) as Hi.
  by destruct s.
Qed.

Lemma accepted_grows s l l' : server_reachable l → server_step l (Some l') → server_reachable l'.
Proof. intros [x Hx] Hstep. exists x. by eapply ss_step. Qed.

(** Handlers before and after a change that serves no request. *)
Lemma served_insert i id h h' w k req : wk_handlers w !! i = Some (id, h) →
  (∀ req body, h ≠ HServed req body) → (∀ req body, h' ≠ HServed req body) →
  ∀ w', wk_handlers w' = <[i := (id, h')]> (wk_handlers w) → served_at k req w' ↔ served_at k req w.
Proof.
  intros Hi Hh Hh' w' Hw'. unfold served_at. rewrite Hw'. apply (insert_at_same _ _ (id, h)); [done|]. cbn.
  split; intros [body Hb]; [by destruct (Hh' req body)|by destruct (Hh req body)].
Qed.

Lemma served_same w w' i req : wk_handlers w' = wk_handlers w → served_at i req w' ↔ served_at i req w.
Proof. unfold served_at. by intros ->. Qed.

Lemma handler_worked c0 c c' p : handler_ok c0 c p → worked c c' → handler_ok c0 c' p.
Proof.
  destruct p as [id [|req body|req body|]]; cbn; [done| | |done]; intros (Ha & c1 & bs & c2 & Hb1 & Hb2 & Hb3) Hc;
    (split; [done|]; exists c1, bs, c2; split_and!; [done..|]; by eapply rtc_r).
Qed.

(** The history goes on, with a change of one handler at most. *)
Lemma history_worked config w w' c c' : history_ok config w → wk_base w = Some c → wk_base w' = Some c' → worked c c' →
  (∀ c0, rtc worked c0 c → Forall (handler_ok c0 c') (wk_handlers w) → Forall (handler_ok c0 c') (wk_handlers w')) →
  history_ok config w'.
Proof.
  intros Hw Hc Hc' Hstep Hh x Hx. assert (x = c') as -> by congruence. destruct (Hw c Hc) as (st & cn & st' & Hconn & Hrtc & Hall).
  exists st, cn, st'. split_and!; [done|by eapply rtc_r|]. apply Hh; [done|]. eapply Forall_impl; [exact Hall|]. intros p Hp.
  by eapply handler_worked.
Qed.

Lemma history_same config w w' : history_ok config w → wk_base w' = wk_base w →
  (∀ c0 c, wk_base w = Some c → Forall (handler_ok c0 c) (wk_handlers w) → Forall (handler_ok c0 c) (wk_handlers w')) → history_ok config w'.
Proof.
  intros Hw Hb Hh c Hc. rewrite Hb in Hc. destruct (Hw c Hc) as (st & cn & st' & Hconn & Hrtc & Hall).
  exists st, cn, st'. split_and!; [done|done|by apply Hh].
Qed.

Lemma history_none config w : wk_base w = None → history_ok config w.
Proof. intros Hb c Hc. congruence. Qed.

Lemma connectWorker_ok config st w w' : connectWorker config st w = Some w' → wk_handlers w = [] →
  wk_conn w' = wk_conn w ∧ worker_ok config w' ∧ wk_handlers w' = [] ∧
  (handed_out config w' ↔ False).
Proof.
  intros Hc Hw. unfold connectWorker in Hc. unfold handed_out. destruct (connect config st) as [o st'] eqn:Hconn. cbn [fst] in Hc.
  destruct o as [c|e| |]; [| |done..]; injection Hc as <-; cbn; destruct (TrackConnections config) eqn:Ht; cbn;
    (split_and!; [done|split; cbn; rewrite ?Ht; try done; try by apply history_none|done|split; [by intros []|done]]);
    intros x [= <-]; exists st, c, st'; (split_and!; [done|done|constructor]).
Qed.

(** *** The steps *)

Lemma step_wrap s before k after c : http_inv s → sv_offers (ss_server (hs_mw s)) = before ++ k :: after →
  sv_conns (ss_server (hs_mw s)) !! k = Some c → connectedClosed c = true →
  http_inv (HttpServer (acceptConnection before after k (hs_mw s)) (hs_config s) (hs_workers s ++ [Worker k WConnecting None []])
    (hs_connections s) (hs_requests s)).
Proof.
  intros [Hm Hw Hok Hn Hc Hrn Hr] Ho Hk Hup. split; cbn; try done.
  - apply (accepted_grows s (hs_mw s)); [exact Hm|by eapply ss_accept].
  - by rewrite fmap_app, Hw.
  - apply Forall_app. split; [done|]. apply Forall_singleton. by split.
  - intros j. rewrite Hc. symmetry. apply snoc_at. by intros [_ ?].
  - intros j i req. rewrite Hr. symmetry. apply snoc_at. by intros (p & ? & _).
Qed.

Lemma step_offer s j w : http_inv s → hs_workers s !! j = Some w → wk_phase w = WOffering →
  http_inv (HttpServer (hs_mw s) (hs_config s) (<[j := set_phase WReturned w]> (hs_workers s)) (hs_connections s ++ [j])
    (hs_requests s)).
Proof.
  intros [Hm Hw Hok Hn Hc Hrn Hr] Hj Hp. pose proof (proj1 (Forall_lookup _ _) Hok j w Hj) as [Ho Hcn Hh Hhist]. split; cbn; try done.
  - rewrite list_fmap_insert, <- Hw. apply list_insert_id. by rewrite list_lookup_fmap, Hj.
  - apply Forall_insert; [done|]. by split.
  - apply NoDup_app. split_and!; [done| |apply NoDup_singleton]. intros x (w' & Hx & _ & Hx')%Hc ->%list_elem_of_singleton.
    rewrite Hj in Hx. injection Hx as <-. congruence.
  - intros x. rewrite elem_of_app, list_elem_of_singleton, Hc, (insert_at _ _ w) by done. split.
    + intros [(w' & Hx & Hout)|Heq]; [|subst x; left; split; [done|split; [by apply Ho|done]]].
      right. split; [|by exists w']. intros ->. rewrite Hj in Hx. injection Hx as <-. destruct Hout. congruence.
    + intros [[-> _]|[_ Hx]]; [by right|by left].
  - intros x i req. rewrite Hr. symmetry. by apply (insert_at_same _ _ w).
Qed.

Lemma step_request s j w i id req body : http_inv s → hs_workers s !! j = Some w → wk_handlers w !! i = Some (id, HSending req body) →
  http_inv (HttpServer (hs_mw s) (hs_config s)
    (<[j := set_handlers (<[i := (id, HServed req body)]> (wk_handlers w)) w]> (hs_workers s)) (hs_connections s)
    (hs_requests s ++ [(j, i, req)])).
Proof.
  intros [Hm Hw Hok Hn Hc Hrn Hr] Hj Hi. pose proof (proj1 (Forall_lookup _ _) Hok j w Hj) as [Ho Hcn Hh Hhist].
  assert (∀ r, served_at i r w → False) as Hnot.
  { intros r (p & Hp & body' & Hb). rewrite Hi in Hp. injection Hp as <-. done. }
  split; cbn; try done.
  - rewrite list_fmap_insert, <- Hw. apply list_insert_id. by rewrite list_lookup_fmap, Hj.
  - apply Forall_insert; [done|]. split; cbn; try done; [intros Hb; by rewrite (Hh Hb) in Hi|].
    apply (history_same _ w); [done..|]. intros c0 c _ Hall. apply Forall_insert; [done|]. exact (proj1 (Forall_lookup _ _) Hall i _ Hi).
  - intros x. rewrite Hc. symmetry. by apply (insert_at_same _ _ w).
  - rewrite fmap_app. apply NoDup_app. split_and!; [done| |apply NoDup_singleton].
    intros [j' i'] ([[j0 i0] r] & [= -> ->] & (w' & Hw' & Hserved)%Hr)%list_elem_of_fmap [= -> ->]%list_elem_of_singleton.
    rewrite Hj in Hw'. injection Hw' as <-. by eapply Hnot.
  - intros x k r. rewrite elem_of_app, list_elem_of_singleton, Hr, (insert_at _ _ w) by done. unfold served_at at 2. cbn.
    rewrite (insert_at _ _ (id, HSending req body)) by done. cbn. split.
    + intros [(w' & Hx & Hs)|[= -> -> ->]]; [|left; split; [done|left; split; [done|by exists body]]].
      destruct (decide (x = j)) as [->|]; [left|right; split; [done|by exists w']]. split; [done|]. rewrite Hj in Hx. injection Hx as <-.
      right. split; [|done]. intros ->. by eapply Hnot.
    + intros [(-> & [(-> & body' & [= -> ->])|[_ Hs]])|[_ Hx]]; [by right|left; by exists w|by left].
Qed.

Lemma http_step_inv g s s' : http_inv s → http_step lower bufSize g s (Some s') → http_inv s'.
Proof.
  intros Hs Hstep. remember (Some s') as r eqn:Hr.
  destruct Hstep as [s l Hl [Hacc _]|s Hl|s before k after m Ho Hk Hup|s j w st Hj Hp|s j w Hj Hp|s j w m x rest Hj Hb Hk Hx
    |s j w c i id bs req body c' Hj Hb Hi Hrun|s j w c i id bs c' Hj Hb Hi Hrun|s j w i id req body Hj Hi|s j w a c r' c' Hj Hb Hserv]; try done;
    try (pose proof (proj1 (Forall_lookup _ _) (hi_ok s Hs) j w Hj) as [Ho Hcn Hh Hhist]).
  - injection Hr as <-. destruct Hs as [Hm Hw Hok Hn Hc Hrn Hrq]. split; cbn; try done; [by eapply accepted_grows|by rewrite Hacc].
  - injection Hr as <-. by apply (step_wrap _ _ _ _ m).
  - destruct (connectWorker (hs_config s) st w) as [w'|] eqn:Hc; [|done]. injection Hr as <-.
    destruct (connectWorker_ok _ _ _ _ Hc (Hh (Hcn Hp))) as (Hconn & Hok & Hh' & Hout).
    apply (worker_inv_same s j w); try done; [|intros i req; apply served_same; by rewrite Hh', (Hh (Hcn Hp))].
    rewrite Hout. split; [done|]. intros [_ ?]. congruence.
  - injection Hr as <-. by apply step_offer.
  - injection Hr as <-. apply (worker_inv s _ j w); try done.
    + apply (accepted_grows s (hs_mw s)); [apply Hs|]. by eapply ss_accept_stream.
    + split; cbn; try done; [intros Hb'; rewrite Hb' in Hb; by destruct Hb|]. apply (history_same _ w); [done..|].
      intros c0 c _ Hall. apply Forall_app. split; [done|]. by apply Forall_singleton.
    + intros i req. unfold served_at. cbn. apply snoc_at. by intros [body ?].
  - injection Hr as <-. assert (worked c c') as Hw by (right; by eexists _, _, _). apply (worker_inv_same s j w); try done.
    + split; cbn; try done; [intros Hp; specialize (Hcn Hp); congruence|]. eapply (history_worked _ w _ c c'); try done.
      intros c0 Hc0 Hall. apply Forall_insert; [done|]. unfold handler_ok, afterHandle. cbn. destruct (rq_announced req) eqn:Ha; [|done].
      split; [done|]. exists c, bs, c'. split_and!; [done|exact Hrun|apply rtc_refl].
    + intros k r. apply (served_insert i id HReading (afterHandle req body)); try done. intros r' b. unfold afterHandle.
      by destruct (rq_announced req).
  - injection Hr as <-. by apply step_request.
  - assert (s' = hs_set_worker j (set_wbase c' w) s) as -> by (destruct r'; [..|done|]; congruence). clear Hr.
    apply (worker_inv_same s j w); try done. split; cbn; try done; [intros Hp; specialize (Hcn Hp); congruence|].
    eapply (history_worked _ w _ c c'); try done. left. by eexists _, _.
Qed.

Lemma http_steps_ind' (P : httpServer → Prop) : (∀ g s s', P s → http_step lower bufSize g s (Some s') → P s') →
  ∀ s s', P s → http_steps lower bufSize s s' → P s'.
Proof. intros Hstep s s' Hs [gs Hrun]. revert Hs. induction Hrun as [|g gs s1 s2 s3 Hg _ IH]; intros Hs; [done|]. by eapply IH, Hstep. Qed.

Lemma http_steps_inv s s' : http_inv s → http_steps lower bufSize s s' → http_inv s'.
Proof. apply http_steps_ind'. intros g s1 s2. apply http_step_inv. Qed.

Lemma http_reachable_inv s : http_reachable lower bufSize s → http_inv s.
Proof. intros (ms & config & Hs). eapply http_steps_inv; [apply RunServer_inv|exact Hs]. Qed.

(** ** What is handed out stays so, and streams are served in their order *)

(** The streams of a connection that have come, those that are served first. *)
Definition streams_of w (c : EventLoop.Connection M) : list Z := (wk_handlers w).*1 ++ remoteStreams c.

Record grows s s' : Prop := {
  gr_connections : hs_connections s `prefix_of` hs_connections s';
  gr_requests : hs_requests s `prefix_of` hs_requests s';
  gr_streams : ∀ j w c, hs_workers s !! j = Some w → sv_conns (ss_server (hs_mw s)) !! wk_conn w = Some c →
    ∃ w', hs_workers s' !! j = Some w' ∧ wk_conn w' = wk_conn w ∧
      ∀ c', sv_conns (ss_server (hs_mw s')) !! wk_conn w = Some c' → streams_of w c `prefix_of` streams_of w' c';
}.

Lemma grows_refl s : grows s s.
Proof. split; [done|done|]. intros j w c Hj Hc. exists w. split_and!; [done|done|]. intros c' Hc'. by rewrite Hc in Hc'; injection Hc' as <-. Qed.

(** A change of one worker that keeps its streams. *)
Lemma grows_worker s l j w w' conns reqs : hs_workers s !! j = Some w → wk_conn w' = wk_conn w →
  hs_connections s `prefix_of` conns → hs_requests s `prefix_of` reqs →
  (∀ k, k ≠ wk_conn w → sv_conns (ss_server l) !! k = sv_conns (ss_server (hs_mw s)) !! k) →
  (∀ c c', sv_conns (ss_server (hs_mw s)) !! wk_conn w = Some c → sv_conns (ss_server l) !! wk_conn w = Some c' →
    streams_of w c `prefix_of` streams_of w' c') →
  NoDup (wk_conn <$> hs_workers s) →
  grows s (HttpServer l (hs_config s) (<[j := w']> (hs_workers s)) conns reqs).
Proof.
  intros Hj Hconn Hcs Hrs Hother Hw Hnd. split; [done|done|]. cbn. intros j0 w0 c Hj0 Hc.
  destruct (decide (j0 = j)) as [->|Hne].
  - rewrite Hj in Hj0. injection Hj0 as <-. exists w'. split_and!; [|done|intros c' Hc'; by apply Hw].
    apply list_lookup_insert_eq. by eapply lookup_lt_Some.
  - exists w0. rewrite list_lookup_insert_ne by done. split_and!; [done|done|]. rewrite Hother.
    + intros c' Hc'. by rewrite Hc in Hc'; injection Hc' as <-.
    + intros Heq. apply Hne. apply (NoDup_lookup (wk_conn <$> hs_workers s) j0 j (wk_conn w)); [done|..]; rewrite list_lookup_fmap;
        [by rewrite Hj0, <- Heq|by rewrite Hj].
Qed.

Lemma http_step_grows g s s' : http_inv s → http_step lower bufSize g s (Some s') → grows s s'.
Proof.
  intros Hs Hstep. remember (Some s') as r eqn:Hr.
  assert (NoDup (wk_conn <$> hs_workers s)) as Hnd.
  { destruct Hs as [Hm -> _ _ _ _ _]. destruct (server_reachable_inv _ Hm) as [_ (Hacc & _) _ _ _]. by apply NoDup_app in Hacc as [? _]. }
  destruct Hstep as [s l Hl [Hacc Hgrow]|s Hl|s before k after m Ho Hk Hup|s j w st Hj Hp|s j w Hj Hp|s j w m x rest Hj Hb Hk Hx
    |s j w c i id bs req body c' Hj Hb Hi Hrun|s j w c i id bs c' Hj Hb Hi Hrun|s j w i id req body Hj Hi|s j w a c r' c' Hj Hb Hserv]; try done;
    try (pose proof (proj1 (Forall_lookup _ _) (hi_ok s Hs) j w Hj) as [Ho Hcn Hh Hhist]).
  - injection Hr as <-. split; [done|done|]. intros j w c Hj Hc. exists w. split_and!; [done|done|]. cbn. intros c' Hc'.
    apply prefix_app. by apply (Hgrow (wk_conn w)).
  - injection Hr as <-. split; [done|done|]. cbn. intros j w c Hj Hc. exists w. split_and!; [by apply lookup_app_l_Some|done|].
    intros c' Hc'. by rewrite Hc in Hc'; injection Hc' as <-.
  - destruct (connectWorker (hs_config s) st w) as [w'|] eqn:Hc; [|done]. injection Hr as <-. pose proof (Hh (Hcn Hp)) as Hnil.
    destruct (connectWorker_ok _ _ _ _ Hc Hnil) as (Hconn & _ & Hh' & _). apply (grows_worker s _ j w); try done.
    intros m m' Hm Hm'. unfold streams_of. rewrite Hnil, Hh'. by rewrite Hm in Hm'; injection Hm' as <-.
  - injection Hr as <-. apply (grows_worker s _ j w); try done; [by apply prefix_app_r|].
    intros m m' Hm Hm'. by rewrite Hm in Hm'; injection Hm' as <-.
  - injection Hr as <-. apply (grows_worker s _ j w); try done; cbn.
    + intros k Hne. by rewrite list_lookup_insert_ne.
    + intros c c' Hc Hc'. rewrite Hk in Hc. injection Hc as <-. rewrite list_lookup_insert_eq in Hc' by by eapply lookup_lt_Some.
      injection Hc' as <-. unfold streams_of. cbn. by rewrite Hx, fmap_app, <- (assoc_L (++)).
  - injection Hr as <-. apply (grows_worker s _ j w); try done.
    intros m m' Hm Hm'. rewrite Hm in Hm'. injection Hm' as <-. unfold streams_of. cbn. rewrite list_fmap_insert. cbn.
    by rewrite list_insert_id by (by rewrite list_lookup_fmap, Hi).
  - injection Hr as <-. apply (grows_worker s _ j w); try done; [by apply prefix_app_r|].
    intros m m' Hm Hm'. rewrite Hm in Hm'. injection Hm' as <-. unfold streams_of. cbn. rewrite list_fmap_insert. cbn.
    by rewrite list_insert_id by (by rewrite list_lookup_fmap, Hi).
  - assert (s' = hs_set_worker j (set_wbase c' w) s) as -> by (destruct r'; [..|done|]; congruence). clear Hr.
    apply (grows_worker s _ j w); try done. intros m m' Hm Hm'. by rewrite Hm in Hm'; injection Hm' as <-.
Qed.

(** A wrapped connection is one of the loop. *)
Lemma worker_conn s j w : http_inv s → hs_workers s !! j = Some w → ∃ c, sv_conns (ss_server (hs_mw s)) !! wk_conn w = Some c.
Proof.
  intros [Hm Hw _ _ _ _ _] Hj. destruct (server_reachable_inv _ Hm) as [_ (_ & _ & Hup) _ _ _].
  destruct (Hup (wk_conn w)) as (c & Hc & _); [|by exists c]. rewrite <- Hw. apply list_elem_of_fmap_2. by eapply list_elem_of_lookup_2.
Qed.

Lemma grows_trans s1 s2 s3 : http_inv s2 → grows s1 s2 → grows s2 s3 → grows s1 s3.
Proof.
  intros Hs [Hc1 Hr1 Hs1] [Hc2 Hr2 Hs2]. split; [by etrans|by etrans|]. intros j w c Hj Hc.
  destruct (Hs1 j w c Hj Hc) as (w2 & Hj2 & Hw2 & Hp2). destruct (worker_conn s2 j w2 Hs Hj2) as [c2 Hc2'].
  destruct (Hs2 j w2 c2 Hj2 Hc2') as (w3 & Hj3 & Hw3 & Hp3). rewrite Hw2 in *. exists w3. split_and!; [done|done|].
  intros c3 Hc3. etrans; [by apply Hp2|by apply Hp3].
Qed.

Lemma http_steps_grow s s' : http_inv s → http_steps lower bufSize s s' → grows s s'.
Proof.
  intros Hs [gs Hrun]. revert Hs. induction Hrun as [|g gs s1 s2 s3 Hg _ IH]; intros Hs; [apply grows_refl|].
  assert (http_inv s2) as Hs2 by (by eapply http_step_inv). eapply (grows_trans _ s2); [done|by eapply http_step_grows|by apply IH].
Qed.

(** ** What the goroutines can always do *)

Lemma http_run_app gs1 gs2 s1 s2 s3 : http_run lower bufSize gs1 s1 s2 → http_run lower bufSize gs2 s2 s3 →
  http_run lower bufSize (gs1 ++ gs2) s1 s3.
Proof. intros H12 H23. induction H12; [done|]. eapply run_cons; [done|by apply IHhttp_run]. Qed.

Lemma http_run_one g s s' : http_step lower bufSize g s (Some s') → http_run lower bufSize [g] s s'.
Proof. intros Hg. eapply run_cons; [exact Hg|apply run_nil]. Qed.

Lemma http_steps_trans s1 s2 s3 : http_steps lower bufSize s1 s2 → http_steps lower bufSize s2 s3 → http_steps lower bufSize s1 s3.
Proof. intros [gs1 H12] [gs2 H23]. eexists. by eapply http_run_app. Qed.

Lemma connects s j w st w' : hs_workers s !! j = Some w → wk_phase w = WConnecting → connectWorker (hs_config s) st w = Some w' →
  http_step lower bufSize (Connects j) s (Some (hs_set_worker j w' s)).
Proof. intros Hj Hp Hc. pose proof (hs_connect lower bufSize s j w st Hj Hp) as Hs. by rewrite Hc in Hs. Qed.

Lemma connectWorker_Ok config st st' w c : connect config st = (Ok c, st') →
  connectWorker config st w = Some (Worker (wk_conn w) (if TrackConnections config then WOffering else WReturned)
    (Some (newServerConnection c)) []).
Proof. intros Hc. unfold connectWorker. by rewrite Hc. Qed.

Lemma connectWorker_Err config st st' w e : connect config st = (Err e, st') →
  connectWorker config st w = Some (Worker (wk_conn w) (if TrackConnections config then WOffering else WReturned) None []).
Proof. intros Hc. unfold connectWorker. by rewrite Hc. Qed.

(** The goroutines of a connection run one after the other, with no panic. *)
Inductive serve_run : list service → ServerConnection Buffer → ServerConnection Buffer → Prop :=
| serve_nil c : serve_run [] c c
| serve_cons a l c r c1 c2 : serves lower a c = (r, c1) → r ≠ Panic → serve_run l c1 c2 → serve_run (a :: l) c c2.

Lemma serve_steps l s j w c c' : hs_workers s !! j = Some w → wk_base w = Some c → serve_run l c c' →
  http_run lower bufSize (Serves j <$> l) s (hs_set_worker j (set_wbase c' w) s).
Proof.
  intros Hj Hb Hs. revert s w Hj Hb. induction Hs as [c|a l c r c1 c2 Hc Hr _ IH]; intros s w Hj Hb.
  - replace (hs_set_worker j (set_wbase c w) s) with s; [apply run_nil|].
    destruct s, w. unfold hs_set_worker, set_wbase. cbn in *. subst. by rewrite list_insert_id.
  - rewrite fmap_cons. apply run_cons with (hs_set_worker j (set_wbase c1 w) s).
    + pose proof (hs_serviced lower bufSize s j w a c r c1 Hj Hb Hc) as Hstep. by destruct r.
    + replace (hs_set_worker j (set_wbase c2 w) s) with
        (hs_set_worker j (set_wbase c2 (set_wbase c1 w)) (hs_set_worker j (set_wbase c1 w) s)).
      * apply IH; [|done]. cbn. apply list_lookup_insert_eq. by eapply lookup_lt_Some.
      * unfold hs_set_worker. cbn. by rewrite list_insert_insert_eq.
Qed.

(** A request whose stream has come reaches the application, by its own goroutine. *)
Lemma handler_delivers s j w c i id bs req body c' : hs_workers s !! j = Some w → wk_base w = Some c →
  wk_handlers w !! i = Some (id, HReading) → serviceRequest lower bufSize id bs c = (Ok (req, body), c') → rq_announced req = true →
  http_run lower bufSize [Handles j i bs; Delivers j i] s
    (HttpServer (hs_mw s) (hs_config s)
      (<[j := Worker (wk_conn w) (wk_phase w) (Some c') (<[i := (id, HServed req body)]> (wk_handlers w))]> (hs_workers s))
      (hs_connections s) (hs_requests s ++ [(j, i, req)])).
Proof.
  intros Hj Hb Hi Hrun Hann. pose proof (lookup_lt_Some _ _ _ Hj). pose proof (lookup_lt_Some _ _ _ Hi).
  eapply run_cons; [by eapply hs_handle|]. set (s1 := hs_set_worker j _ s). set (w1 := set_handlers _ _) in s1.
  assert (hs_workers s1 !! j = Some w1) as Hj1 by (by apply list_lookup_insert_eq).
  assert (wk_handlers w1 !! i = Some (id, HSending req body)) as Hi1
    by (cbn; rewrite list_lookup_insert_eq by done; unfold afterHandle; by rewrite Hann).
  pose proof (hs_request lower bufSize s1 j w1 i id req body Hj1 Hi1) as Hstep.
  cbn [hs_workers hs_mw hs_config hs_connections hs_requests s1 hs_set_worker] in Hstep. rewrite list_insert_insert_eq in Hstep.
  cbn [w1 set_handlers set_wbase wk_handlers wk_conn wk_phase wk_base] in Hstep. rewrite list_insert_insert_eq in Hstep.
  by apply http_run_one.
Qed.

(** From the handshake to the first request of the connection, by its own goroutines
    alone: the goroutine that wraps it, its [Connect], the goroutines of its
    unidirectional streams, and those of the request. *)
Definition requestRun (k j : nat) (l : list service) (bs : list Z) : list goroutine :=
  [Wraps k; Connects j] ++ (Serves j <$> l) ++ [TakesStream j; Handles j 0 bs; Delivers j 0].

Lemma first_request s before k after m x rest st cn st' l c bs req body c' :
  sv_offers (ss_server (hs_mw s)) = before ++ k :: after → sv_conns (ss_server (hs_mw s)) !! k = Some m →
  connectedClosed m = true → remoteStreams m = x :: rest → connect (hs_config s) st = (Ok cn, st') →
  serve_run l (newServerConnection cn) c → serviceRequest lower bufSize x bs c = (Ok (req, body), c') → rq_announced req = true →
  let j := length (hs_workers s) in
  ∃ mw, http_run lower bufSize (requestRun k j l bs) s
    (HttpServer mw (hs_config s) (hs_workers s ++ [Worker k (if TrackConnections (hs_config s) then WOffering else WReturned) (Some c')
        [(x, HServed req body)]]) (hs_connections s) (hs_requests s ++ [(j, 0%nat, req)])).
Proof.
  intros Ho Hk Hup Hx Hc Hserv Hrun Hann j. pose proof (hs_wrap lower bufSize s before k after m Ho Hk Hup) as Hst1.
  set (s1 := HttpServer (acceptConnection _ _ _ _) _ _ _ _) in Hst1. set (w0 := Worker k WConnecting None []) in *.
  assert (∀ w, <[j := w]> (hs_workers s ++ [w0]) = hs_workers s ++ [w]) as Hins by (intros w; by rewrite insert_app_r_alt, Nat.sub_diag by lia).
  set (phase := if TrackConnections (hs_config s) then WOffering else WReturned).
  set (w1 := Worker k phase (Some (newServerConnection cn)) []).
  assert (hs_workers s1 !! j = Some w0) as Hj by by apply list_lookup_middle.
  assert (http_step lower bufSize (Connects j) s1 (Some (hs_set_worker j w1 s1))) as Hst2
    by (apply (connects s1 j w0 st); [done|done|exact (connectWorker_Ok _ _ _ w0 cn Hc)]). set (s2 := hs_set_worker j w1 s1) in *.
  assert (j < length (hs_workers s1))%nat as Hlen by by eapply lookup_lt_Some.
  assert (hs_workers s2 !! j = Some w1) as Hj2 by by apply list_lookup_insert_eq.
  pose proof (serve_steps l s2 j w1 _ c Hj2 eq_refl Hserv) as Hst3. set (s3 := hs_set_worker j (set_wbase c w1) s2) in *.
  assert (hs_workers s3 !! j = Some (set_wbase c w1)) as Hj3
    by (apply list_lookup_insert_eq; by eapply lookup_lt_Some).
  pose proof (hs_stream lower bufSize s3 j _ m x rest Hj3 (mk_is_Some _ _ eq_refl) Hk Hx) as Hst4. set (s4 := hs_set_worker j _ _) in Hst4.
  assert (hs_workers s4 !! j = Some (set_handlers [(x, HReading)] (set_wbase c w1))) as Hj4
    by (apply list_lookup_insert_eq; by eapply lookup_lt_Some).
  pose proof (handler_delivers s4 j _ c 0 x bs req body c' Hj4 eq_refl eq_refl Hrun Hann) as Hst5.
  exists (hs_mw s4). unfold requestRun.
  apply run_cons with s1; [exact Hst1|]. apply run_cons with s2; [exact Hst2|]. apply http_run_app with s3; [exact Hst3|].
  apply run_cons with s4; [exact Hst4|]. cbn in Hst5. rewrite !list_insert_insert_eq, Hins in Hst5. exact Hst5.
Qed.

(** ** After a [Connect] that failed *)

Definition dead w : Prop := wk_phase w ≠ WConnecting ∧ wk_base w = None ∧ wk_handlers w = [].

Lemma dead_insert (ws : list worker) i j w w' v : ws !! i = Some w → dead w → ws !! j = Some v → (dead v → dead w') →
  ∃ w, <[j := w']> ws !! i = Some w ∧ dead w.
Proof.
  intros Hi Hd Hj Hdead. apply (insert_at ws j v w' dead); [done|]. destruct (decide (i = j)) as [->|]; [left|right; by split; [|exists w]].
  split; [done|]. rewrite Hj in Hi. injection Hi as ->. by apply Hdead.
Qed.

Lemma dead_step g s s' i w : hs_workers s !! i = Some w → dead w → http_step lower bufSize g s (Some s') →
  ∃ w', hs_workers s' !! i = Some w' ∧ dead w'.
Proof.
  intros Hi Hd Hstep. remember (Some s') as r eqn:Hr.
  destruct Hstep as [s l Hl _|s Hl|s before k after m Ho Hk Hup|s j v st Hj Hp|s j v Hj Hp|s j v c x rest Hj Hb Hk Hx
    |s j v c h id bs req body c' Hj Hb Hh Hrun|s j v c h id bs c' Hj Hb Hh Hrun|s j v h id req body Hj Hh|s j v a c r' c' Hj Hb Hserv]; try done.
  3: destruct (connectWorker (hs_config s) st v) as [v'|]; [|done].
  8: assert (s' = hs_set_worker j (set_wbase c' v) s) as -> by (destruct r'; [..|done|]; congruence); clear Hr.
  1-7: injection Hr as <-; cbn.
  - by exists w.
  - exists w. split; [by apply lookup_app_l_Some|done].
  - apply (dead_insert _ i j w v' v); try done. by intros [? _].
  - apply (dead_insert _ i j w _ v); try done. intros (_ & ? & ?). by split.
  - apply (dead_insert _ i j w _ v); try done. intros (_ & Hn & _). rewrite Hn in Hb. by destruct Hb.
  - apply (dead_insert _ i j w _ v); try done. intros (_ & Hn & _). congruence.
  - apply (dead_insert _ i j w _ v); try done. intros (_ & _ & Hn). by rewrite Hn in Hh.
  - apply (dead_insert _ i j w _ v); try done. intros (_ & Hn & _). congruence.
Qed.

Lemma dead_steps s s' i w : hs_workers s !! i = Some w → dead w → http_steps lower bufSize s s' →
  ∃ w', hs_workers s' !! i = Some w' ∧ dead w'.
Proof.
  intros Hi Hd Hs. apply (http_steps_ind' (λ s, ∃ w, hs_workers s !! i = Some w ∧ dead w)) with s; [|by exists w|done].
  intros g s1 s2 (w1 & Hw1 & Hd1) Hg. by eapply dead_step.
Qed.

Lemma failed_connection s before k after m st e st' :
  sv_offers (ss_server (hs_mw s)) = before ++ k :: after → sv_conns (ss_server (hs_mw s)) !! k = Some m →
  connectedClosed m = true → connect (hs_config s) st = (Err e, st') → TrackConnections (hs_config s) = true →
  ∃ s', http_steps lower bufSize s s' ∧ hs_connections s' = hs_connections s ++ [length (hs_workers s)] ∧
    ∃ w, hs_workers s' !! length (hs_workers s) = Some w ∧ wk_conn w = k ∧ dead w.
Proof.
  intros Ho Hk Hup Hc Ht. pose proof (hs_wrap lower bufSize s before k after m Ho Hk Hup) as Hst1.
  set (s1 := HttpServer (acceptConnection _ _ _ _) _ _ _ _) in *.
  set (w0 := Worker k WConnecting None []). set (j := length (hs_workers s)).
  assert (hs_workers s1 !! j = Some w0) as Hj by by apply list_lookup_middle.
  pose proof (connectWorker_Err (hs_config s1) st st' w0 e Hc) as Hw. cbn [hs_config s1] in Hw. rewrite Ht in Hw.
  assert (http_step lower bufSize (Connects j) s1 (Some (hs_set_worker j (Worker k WOffering None []) s1))) as Hst2
    by (apply (connects s1 j w0 st); done).
  set (s2 := hs_set_worker j _ s1) in *.
  assert (hs_workers s2 !! j = Some (Worker k WOffering None [])) as Hj2 by (apply list_lookup_insert_eq; by eapply lookup_lt_Some).
  pose proof (hs_offer lower bufSize s2 j _ Hj2 eq_refl) as Hst3. eexists. split.
  { exists [Wraps k; Connects j; Offers j]. eapply run_cons; [exact Hst1|]. eapply run_cons; [exact Hst2|]. apply http_run_one, Hst3. }
  split; [done|]. exists (Worker k WReturned None []). split; [|done]. cbn. apply list_lookup_insert_eq. by eapply lookup_lt_Some.
Qed.
End http.

(** ** The socket *)

(** The loop gets the datagrams in their order, each cut at the size of the buffer. *)
Lemma udp_in_order localAddr s : rtc (udp_step localAddr) (MkUdp UdpReading [] []) s →
  readPacket localAddr <$> ud_read s = ud_sent s ++ match ud_state s with UdpSending p => [p] | _ => [] end.
Proof.
  intros Hs. apply rtc_nsteps in Hs as [n Hs]. revert s Hs. induction n as [|n IH]; intros s Hs; [by inversion Hs|].
  apply nsteps_inv_r in Hs as (s1 & Hs1 & Hstep). specialize (IH s1 Hs1).
  destruct Hstep as [d s1 Hst|p s1 Hst|s1 Hst]; cbn; rewrite Hst in IH.
  - rewrite app_nil_r in IH. by rewrite fmap_app, IH.
  - by rewrite app_nil_r.
  - done.
Qed.

(** ** [Listen] *)

Section listen.
Context `{TlsLib} `{ListenNet}.

(** A call that did not return a value, and what its caller makes of it. *)
Definition failed {A B} (o : outcome A) (o' : outcome B) : Prop :=
  match o, o' with
  | Err e, Err e' => e = e'
  | Panic, Panic | NoFuel, NoFuel => True
  | _, _ => False
  end.

Definition parsed_as (b : list Z) (c : option Certificate) : Prop := ∃ x, x509_ParseCertificate b = Ok x ∧ c = Some x.

(** What a pair of files is good for: the parsed chain and the signer, or the first
    thing that is wrong with it. *)
Inductive certifies (name certfile keyfile : string) : outcome TlsConfig → Prop :=
| ce_load f o : tls_LoadX509KeyPair certfile keyfile = f → failed f o → certifies name certfile keyfile o
| ce_parse before b after k cs f o : tls_LoadX509KeyPair certfile keyfile = Ok (before ++ b :: after, k) →
    Forall2 parsed_as before cs → x509_ParseCertificate b = f → failed f o → certifies name certfile keyfile o
| ce_key certs k cs : tls_LoadX509KeyPair certfile keyfile = Ok (certs, k) → Forall2 parsed_as certs cs → as_Signer k = None →
    certifies name certfile keyfile (Err (ErrText "Private key isn't suitable for signing"))
| ce_ok certs k cs signer : tls_LoadX509KeyPair certfile keyfile = Ok (certs, k) → Forall2 parsed_as certs cs → as_Signer k = Some signer →
    certifies name certfile keyfile (Ok (MkTlsConfig name cs (Some signer))).

(** What [Listen] returns, and the sockets that it opened: the steps in their order, up
    to the first that fails. *)
Inductive listens (host certfile keyfile : string) : outcome (string * TlsConfig) → list string → Prop :=
| li_split f o : lsn_SplitHostPort host = f → failed f o → listens host certfile keyfile o []
| li_resolve name port f o : lsn_SplitHostPort host = Ok (name, port) → lsn_ResolveUDPAddr host = f → failed f o →
    listens host certfile keyfile o []
| li_listen name port addr f o : lsn_SplitHostPort host = Ok (name, port) → lsn_ResolveUDPAddr host = Ok addr →
    lsn_ListenUDP addr = f → failed f o → listens host certfile keyfile o []
| li_cert name port addr f o : lsn_SplitHostPort host = Ok (name, port) → lsn_ResolveUDPAddr host = Ok addr →
    lsn_ListenUDP addr = Ok tt → certifies name certfile keyfile f → failed f o → listens host certfile keyfile o [addr]
| li_ok name port addr config : lsn_SplitHostPort host = Ok (name, port) → lsn_ResolveUDPAddr host = Ok addr →
    lsn_ListenUDP addr = Ok tt → certifies name certfile keyfile (Ok config) → listens host certfile keyfile (Ok (addr, config)) [addr].

Lemma failed_functional {A B} (f : outcome A) (o o' : outcome B) : failed f o → failed f o' → o = o'.
Proof. destruct f, o, o'; cbn; congruence || done. Qed.

(** Two parses of a chain agree on what both have parsed. *)
Lemma parsed_functional l cs cs' : Forall2 parsed_as l cs → Forall2 parsed_as l cs' → cs = cs'.
Proof.
  intros Hcs. revert cs'. induction Hcs as [|b c l cs (x & Hx & ->) _ IH]; intros cs' Hcs'; inversion Hcs' as [|? ? ? ? (y & Hy & ->) Hrest]; [done|].
  subst. rewrite Hx in Hy. injection Hy as ->. f_equal. by apply IH.
Qed.

Lemma parse_first before b after before' b' after' cs cs' : before ++ b :: after = before' ++ b' :: after' →
  Forall2 parsed_as before cs → Forall2 parsed_as before' cs' →
  (∀ x, x509_ParseCertificate b ≠ Ok x) → (∀ x, x509_ParseCertificate b' ≠ Ok x) → b = b'.
Proof.
  intros Heq Hb. revert before' cs' Heq. induction Hb as [|c x l xs (y & Hy & _) _ IH]; intros [|c' l'] cs' Heq Hb' Hn Hn'; cbn in Heq.
  - by injection Heq.
  - injection Heq as -> _. inversion Hb' as [|? ? ? ? (z & Hz & _) _]. by destruct (Hn z).
  - injection Heq as -> _. by destruct (Hn' y).
  - injection Heq as -> Heq. inversion Hb'. subst. by eapply IH.
Qed.

Lemma parse_all before b after cs cs' : Forall2 parsed_as before cs → Forall2 parsed_as (before ++ b :: after) cs' →
  ∃ x, x509_ParseCertificate b = Ok x.
Proof.
  intros _ Hall. apply Forall2_app_inv_l in Hall as (l1 & l2 & _ & Hl2 & _). inversion Hl2 as [|? ? ? ? (x & Hx & _) _]. by exists x.
Qed.

Lemma failed_Ok {A B} (f : outcome A) (o : outcome B) : failed f o → ∀ x, f ≠ Ok x.
Proof. by destruct f. Qed.

Lemma certifies_functional name certfile keyfile o o' : certifies name certfile keyfile o → certifies name certfile keyfile o' → o = o'.
Proof.
  intros [f o1 Hf Ho|before b after k cs f o1 Hl Hb Hf Ho|certs k cs Hl Hc Hk|certs k cs sg Hl Hc Hk]
    [f' o2 Hf' Ho'|before' b' after' k' cs' f' o2 Hl' Hb' Hf' Ho'|certs' k' cs' Hl' Hc' Hk'|certs' k' cs' sg' Hl' Hc' Hk'];
    try rewrite Hl in Hl'; try rewrite Hl in Hf'; try rewrite Hl' in Hf; try (by subst f); try (by subst f'); simplify_eq.
  - by eapply failed_functional.
  - assert (b = b') as <-; [|by eapply failed_functional].
    eapply parse_first; [eassumption|done|done|by eapply failed_Ok|by eapply failed_Ok].
  - destruct (parse_all _ _ _ _ _ Hb Hc') as [x Hx]. by rewrite Hx in Ho.
  - destruct (parse_all _ _ _ _ _ Hb Hc') as [x Hx]. by rewrite Hx in Ho.
  - destruct (parse_all _ _ _ _ _ Hb' Hc) as [x Hx]. by rewrite Hx in Ho'.
  - done.
  - destruct (parse_all _ _ _ _ _ Hb' Hc) as [x Hx]. by rewrite Hx in Ho'.
  - by rewrite (parsed_functional _ _ _ Hc Hc').
Qed.

Lemma listens_functional host certfile keyfile o o' opened opened' :
  listens host certfile keyfile o opened → listens host certfile keyfile o' opened' → o = o' ∧ opened = opened'.
Proof.
  intros [f o1 Hf Ho|name port f o1 Hs Hf Ho|name port addr f o1 Hs Hr Hf Ho|name port addr f o1 Hs Hr Hu Hf Ho|name port addr config Hs Hr Hu Hf]
    [f' o2 Hf' Ho'|name' port' f' o2 Hs' Hf' Ho'|name' port' addr' f' o2 Hs' Hr' Hf' Ho'|name' port' addr' f' o2 Hs' Hr' Hu' Hf' Ho'
    |name' port' addr' config' Hs' Hr' Hu' Hf']; simplify_eq; try done;
    repeat match goal with H : ?f = Ok _, H' : ?f = Ok _ |- _ => rewrite H in H'; simplify_eq end;
    repeat match goal with H : ?f = Ok _, H' : failed ?f _ |- _ => rewrite H in H' end; try done;
    try (split; [by eapply failed_functional|done]).
  - pose proof (certifies_functional _ _ _ _ _ Hf Hf') as <-. split; [by eapply failed_functional|done].
  - by pose proof (certifies_functional _ _ _ _ _ Hf Hf') as ->.
  - by pose proof (certifies_functional _ _ _ _ _ Hf Hf') as <-.
  - by pose proof (certifies_functional _ _ _ _ _ Hf Hf') as [= <-].
Qed.

(** The certificates from the index [length before] on. *)
Lemma parseChain_run certs before config : CertificateChain config = before ++ replicate (length certs) None →
  (∃ cs, Forall2 parsed_as certs cs ∧
    parseChain (length before) certs config = (Ok tt, MkTlsConfig (tc_ServerName config) (before ++ cs) (Key config))) ∨
  ∃ l b r cs o config', certs = l ++ b :: r ∧ Forall2 parsed_as l cs ∧ failed (x509_ParseCertificate b) (o : outcome unit) ∧
    parseChain (length before) certs config = (o, config').
Proof.
  revert before config. induction certs as [|b certs IH]; intros before config Hc; cbn [parseChain].
  - left. exists []. split; [constructor|]. destruct config. cbn in *. by rewrite Hc.
  - rewrite bind_unfold. unfold lift. destruct (x509_ParseCertificate b) as [x|e| |] eqn:Hx;
      [|right; eexists [], b, certs, [], _, _; (split; [done|]); (split; [by apply Forall2_nil_2|]); (split; [|reflexivity]); by rewrite Hx..].
    rewrite bind_unfold. cbn [modS].
    destruct (IH (before ++ [Some x]) (MkTlsConfig (tc_ServerName config) (<[length before := Some x]> (CertificateChain config)) (Key config)))
      as [(cs & Hcs & Hr)|(l & b' & r & cs & o & config' & -> & Hl & Ho & Hr)].
    { cbn [CertificateChain]. rewrite Hc. cbn [length replicate]. replace (length before) with (length before + 0)%nat at 1 by lia. by rewrite insert_app_r, <- (assoc_L (++)). }
    all: rewrite length_app, Nat.add_1_r in Hr.
    + left. exists (Some x :: cs). split; [constructor; [by exists x|done]|]. rewrite Hr, <- (assoc_L (++)). done.
    + right. exists (b :: l), b', r, (Some x :: cs), o, config'. split_and!; [done|constructor; [by exists x|done]|done|exact Hr].
Qed.

Lemma loadCert_certifies name certfile keyfile :
  ∃ o config, loadCert certfile keyfile (MkTlsConfig name [] None) = (o, config) ∧
    certifies name certfile keyfile match o with Ok _ => Ok config | Err e => Err e | Panic => Panic | NoFuel => NoFuel end.
Proof.
  unfold loadCert. rewrite bind_unfold. unfold lift. destruct (tls_LoadX509KeyPair certfile keyfile) as [[certs k]|e| |] eqn:Hl;
    [|by eexists _, _; split; [done|eapply ce_load; [exact Hl|]]..].
  rewrite bind_unfold. cbn [modS tc_ServerName Key]. rewrite bind_unfold.
  destruct (parseChain_run certs [] (MkTlsConfig name (replicate (length certs) None) None) eq_refl)
    as [(cs & Hcs & Hr)|(l & b & r & cs & o & config' & -> & Hb & Ho & Hr)]; cbn [length app] in Hr; rewrite Hr.
  - destruct (as_Signer k) as [sg|] eqn:Hk; eexists _, _; (split; [done|]); [by eapply ce_ok|by eapply ce_key].
  - destruct o as [[]|e| |] eqn:Heq; [by destruct (x509_ParseCertificate b)|..]; eexists _, _; (split; [done|]);
      (eapply ce_parse; [exact Hl|exact Hb|done|]); by destruct (x509_ParseCertificate b).
Qed.

Lemma Listen_listens host certfile keyfile socks :
  ∃ o opened, Listen host certfile keyfile socks = (o, socks ++ opened) ∧ listens host certfile keyfile o opened.
Proof.
  unfold Listen. rewrite bind_unfold. unfold lift at 1. destruct (lsn_SplitHostPort host) as [[name port]|e| |] eqn:Hs;
    [|eexists _, []; (split; [by rewrite app_nil_r|]); by eapply li_split; [exact Hs|]..].
  rewrite bind_unfold. unfold lift at 1. destruct (lsn_ResolveUDPAddr host) as [addr|e| |] eqn:Hr;
    [|eexists _, []; (split; [by rewrite app_nil_r|]); by eapply li_resolve; [exact Hs|exact Hr|]..].
  rewrite bind_unfold. unfold lift at 1. destruct (lsn_ListenUDP addr) as [[]|e| |] eqn:Hu;
    [|eexists _, []; (split; [by rewrite app_nil_r|]); by eapply li_listen; [exact Hs|exact Hr|exact Hu|]..].
  rewrite bind_unfold. cbn [modS]. rewrite bind_unfold. unfold lift. destruct (loadCert_certifies name certfile keyfile) as (o & config & -> & Hc).
  destruct o as [[]|e| |]; eexists _, [addr]; (split; [reflexivity|]); [by eapply li_ok|by eapply li_cert..].
Qed.
End listen.
