(* ===== verification/ConversationSpec.v ===== *)
(** * Conversations: what is heard

    What each act of a conversation should reach the other application as, when it
    can be performed, and the invariant between two acts: each encoder and the
    decoder of its peer have the same table. *)

From S2P Require Import Prelude Bits GoIo BitWriter BitReader Streams Frame HcInt HuffmanTable Huffman HcString StaticTable Table Codec QpackTable QpackEncoder QpackDecoder QpackTableSpec QpackDecoderSpec QpackEncoderSpec QpackReach QpackIdle QpackLink QpackAck Settings Headers Message MessageSpec MessageLink Connection Push PushSpec PushStream Request RequestSpec Conversation.

(** ** One direction *)

(** The encoder of [from] and the decoder of [to], with the goroutine [a] that writes
    its acknowledgments. *)
Record half_ok (pref : HuffmanCodingChoice) (from to : connection Buffer) (a : acking Buffer) : Prop := {
  hf_enc : enc_inv (c_encoder from);
  hf_pref : enc_pref (c_encoder from) = pref;
  hf_updates : at_byte (c_updates from);
  hf_ready : c_ready from = true;
  hf_table : c_decoder to = qe_common_table (c_encoder from);
  hf_events : Forall event_ok (c_acks to);
  hf_writer : at_byte (ak_writer a);
  hf_acking : 0 ≤ ak_largest a < 2 ^ 62 ∧ 0 ≤ ak_sync a < 2 ^ 62;
}.

Lemma available_ok b ev : b < 2 ^ 62 → available b ev → event_ok ev.
Proof. intros Hb (entry & -> & ?). cbn. lia. Qed.

(** After a block and its messages. *)
Lemma half_sent pref from to a n id e2 w t evs events :
  half_ok pref from to a → carried n id (c_encoder from) e2 w t events → is_u64 id → qe_base e2 < 2 ^ 62 →
  Forall (available (tbase t)) evs →
  half_ok pref (set_updates w (set_encoder e2 from)) (set_decoder t ((c_acks to ++ evs) ++ events) to) a.
Proof.
  intros [Henc Hpref Hup Hready Htab Hev Hwr Hak] [Hinv Ht Hcommon Hbase Hw Hevents _] Hid Hb Hav. split; cbn; try done.
  - unfold enc_pref in *. by rewrite Hcommon.
  - apply Forall_app. split; [apply Forall_app; split; [done|]|by apply Hevents].
    eapply Forall_impl; [exact Hav|]. intros ev. apply available_ok. subst t. done.
Qed.

(** The other direction does not notice. *)
Lemma half_other pref from to a e w t acks :
  half_ok pref from to a → half_ok pref (set_decoder t acks from) (set_updates w (set_encoder e to)) a.
Proof. intros []. by split. Qed.

Lemma buffer_start : at_byte (NewBitWriter (MkBuffer [])).
Proof. split; [split; [done|constructor]|done]. Qed.

Section arriving.
Context {S : Type} `{ConnectionHandler Buffer S}.
Implicit Types (s : S).

Lemma updatesArrive_run updates t s :
  (∀ sent fuel, (8 * length updates < fuel)%nat → ∃ evs br',
    ReadTableUpdates fuel (decoder_at (c_decoder (base s)) sent (MkBytesReader updates)) =
      (Ok tt, qdec (t, sent ++ evs) br') ∧ Forall (available (tbase t)) evs) →
  ∃ evs, updatesArrive updates s = (Ok tt, set_base (set_decoder t (c_acks (base s) ++ evs) (base s)) s) ∧
    Forall (available (tbase t)) evs.
Proof.
  intros Hread. destruct (Hread (c_acks (base s)) (enough updates)) as (evs & br' & Hr & Hav); [unfold enough; lia|].
  exists evs. split; [|done]. unfold updatesArrive, arrive, zoom, serviceTableUpdates, zoom. cbn [fst snd].
  change (Decoding _ _ _) with (decoder_at (c_decoder (base s)) (c_acks (base s)) (MkBytesReader updates)).
  by rewrite Hr.
Qed.

(** The acknowledgments that were written are those of the waiting messages. *)
Lemma sendAcks_run pref from timer s (a : acking Buffer) : half_ok pref from (base s) a →
  ∃ acks bs a', sendAcks timer (s, a) = (Ok bs, (set_base (set_decoder (c_decoder (base s)) [] (base s)) s, a')) ∧
    Forall ack_ok acks ∧ Forall is_byte bs ∧ bits_of_bytes bs = acks_bits acks ∧
    half_ok pref from (set_decoder (c_decoder (base s)) [] (base s)) a'.
Proof.
  intros [Henc Hpref Hup Hready Htab Hev Hwr [Hl Hs]]. set (evs := c_acks (base s) ++ if timer then [EvTimer] else []).
  assert (Forall event_ok evs) as Hevs by (apply Forall_app; split; [done|]; by destruct timer; repeat constructor).
  destruct a as [w l y d]. cbn in Hwr, Hl, Hs. pose proof (acks_of_ok evs l y Hevs Hl Hs) as Hacks.
  pose proof (writeAcknowledgements_writes (W := Buffer) evs l y d Hevs Hl Hs) as Hw.
  destruct (acks_of l y evs) as [[acks l'] y']. destruct Hw as [d' Hw]. destruct Hacks as (Hacks & Hl' & Hy').
  destruct (zlen_mjoin ack_bits acks zlen_ack_bits) as [k Hk].
  destruct (swrites_whole ackst _ _ _ _ _ _ w Hw Hk Hwr) as (w' & bs & Hr & Hw' & Hac & Hbs & Hbits).
  exists acks, bs, (Acking w' l' y' d'). split_and!; try done.
  unfold sendAcks. rewrite bind_unfold. cbn [getS fst]. cbv zeta. fold evs. rewrite bind_unfold. unfold zoom. cbn [fst snd].
  change (Acking w l y d) with (ackst (l, y, d) w). rewrite Hr. rewrite !bind_unfold. cbn [modS getS fst snd ackst ak_writer].
  rewrite bind_unfold. unfold ackst. cbn [getS ak_writer fst snd]. rewrite ret_unfold. by rewrite (since_app w w' bs Hac).
Qed.

Lemma acksArrive_run pref to a acks bs s : half_ok pref (base s) to a → qe_base (c_encoder (base s)) < 2 ^ 62 →
  Forall ack_ok acks → Forall is_byte bs → bits_of_bytes bs = acks_bits acks →
  ∃ e, acksArrive bs s = (Ok tt, set_base (set_encoder e (base s)) s) ∧
    half_ok pref (set_encoder e (base s)) to a ∧ qe_table e = qe_table (c_encoder (base s)).
Proof.
  intros [Henc Hpref Hup Hready Htab Hev Hwr Hak] Hb Hacks Hbs Hbits. set (e := c_encoder (base s)) in *.
  destruct (ack_steps acks e Henc Hb Hacks) as (Hinv & Ht & Hc). set (e' := foldl ack_step e acks) in *.
  exists e'. split_and!.
  - destruct (Service_acks acks e (enough bs) (arrived bs) Henc Hb Hacks) as (br' & Hr & _);
      [apply (reader_start (MkBytesReader bs)); exact Hbs|exact Hbits| |].
    { unfold enough. rewrite <- (bytes_length _ _ Hbits).
      enough (length acks ≤ length (acks_bits acks))%nat by lia. apply mjoin_length. by intros []. }
    unfold acksArrive, arrive. rewrite bind_unfold. unfold catch, zoom, serviceAcknowledgments, zoom. cbn [fst snd]. fold e.
    by rewrite Hr.
  - split; cbn; try done; [unfold enc_pref in *; by rewrite Hc|]. unfold qe_common_table in *. by rewrite Ht.
  - exact Ht.
Qed.
End arriving.

(** ** What should be heard *)

Section conversation.
Context `{UrlLib} (lower : string → string) (bufSize : Z).
Implicit Types (s : ends).

(** The header list of a request for [u], as RFC 7540 lays it out: the pseudo-header
    fields, and then what the caller adds. It is stated here on its own, and not by the
    code that builds it. *)
Definition request_list (u : URL) (method : string) (headers : list HeaderField) : list HeaderField :=
  [MkHeaderField ":authority" (url_Host u) false; MkHeaderField ":path" (url_EscapedPath u) false;
   MkHeaderField ":method" method false; MkHeaderField ":scheme" "https" false]%string ++ headers.

Definition response_list (status : Z) (headers : list HeaderField) : list HeaderField :=
  MkHeaderField ":status" (Itoa status) false :: headers.

(** Names travel in lower case; values and sensitivity as they are. *)
Definition lower_names (headers : list HeaderField) : list HeaderField :=
  (λ h, MkHeaderField (ToLower lower (h_Name h)) (h_Value h) (h_Sensitive h)) <$> headers.

(** What an application should hear of what the other one said: the method, the very
    URL that was asked for, all fields and the whole body; the status, all fields and
    the whole body. *)
Definition said (a : act) : heard :=
  match a with
  | Ask id method target headers chunks =>
      match url_Parse target with
      | Ok u => HeardRequest id (MkServerRequest (lower_names (request_list u method headers)) method (Some u) true false) (DBody <$> chunks)
      | _ => HeardNothing
      end
  | Answer id status headers chunks =>
      let resp := MkClientResponse id (lower_names (response_list status headers)) status in
      HeardResponse id (MkAnswers resp [] (Some resp) [] true false) (DBody <$> chunks)
  | AcksToClient _ | AcksToServer _ => HeardNothing
  end.

(** A URL that its host and its path say all about: it has no query, no fragment and no
    user, which are not sent (see [query_lost]). *)
Definition plain_url (u : URL) : Prop :=
  url_Scheme u = "https"%string ∧ url_Host u ≠ ""%string ∧ url_EscapedPath u ≠ ""%string ∧
  url_ParseRef (url_Make "https" (url_Host u)) (url_EscapedPath u) = Ok u.

(** A request that [Fetch] sends and a server understands; [pref] is the choice of
    Huffman coding of the client. *)
Definition request_ok (pref : HuffmanCodingChoice) (method target : string) (headers : list HeaderField) : Prop :=
  ValidatePseudoHeaders headers = Ok tt ∧ Forall (λ h, pseudo_name h = false) (lower_names headers) ∧ method ≠ ""%string ∧
  match url_Parse target with
  | Ok u =>
      let fields := lower_names (request_list u method headers) in
      plain_url u ∧ Forall (field_ok pref) fields ∧ ValidatePseudoHeaders fields = Ok tt
  | _ => False
  end.

(** A final response that [Respond] sends and a client understands. *)
Definition response_ok (pref : HuffmanCodingChoice) (status : Z) (headers : list HeaderField) : Prop :=
  let fields := lower_names (response_list status headers) in
  ValidatePseudoHeaders headers = Ok tt ∧ - 2 ^ 63 ≤ status ≤ intMax ∧ Z.quot status 100 ≠ 0 ∧ Z.quot status 100 ≠ 1 ∧
  Forall (λ h, ToLower lower (h_Name h) ≠ ":status"%string) headers ∧
  Forall (field_ok pref) fields ∧ ValidatePseudoHeaders fields = Ok tt.

Definition act_ok (cp sp : HuffmanCodingChoice) (a : act) : Prop :=
  match a with
  | Ask id method target headers chunks => is_u64 id ∧ request_ok cp method target headers ∧ Forall chunk_ok chunks
  | Answer id status headers chunks => is_u64 id ∧ response_ok sp status headers ∧ Forall chunk_ok chunks
  | AcksToClient _ | AcksToServer _ => True
  end.

(** The fields an act makes the encoders of the two ends write. *)
Definition act_fields (a : act) : Z * Z :=
  match a with
  | Ask _ _ _ headers _ => (4 + zlen headers, 0)
  | Answer _ _ headers _ => (0, 1 + zlen headers)
  | AcksToClient _ | AcksToServer _ => (0, 0)
  end.

Fixpoint acts_fields (acts : list act) : Z * Z :=
  match acts with
  | [] => (0, 0)
  | a :: acts' => ((act_fields a).1 + (acts_fields acts').1, (act_fields a).2 + (acts_fields acts').2)
  end.

(** The names that the block of an act refers to are there when it is written. *)
Definition act_live (a : act) s : bool :=
  match a with
  | Ask id method target headers _ =>
      match url_Parse target with
      | Ok u => crossable lower id (request_list u method headers) [] (c_encoder (cc_connection (en_client s))) (client_updates s)
      | _ => false
      end
  | Answer id status headers _ =>
      crossable lower id (response_list status headers) [] (c_encoder (sc_connection (en_server s))) (server_updates s)
  | AcksToClient _ | AcksToServer _ => true
  end.

(** It is so at every act of a conversation. *)
Fixpoint acts_live (acts : list act) s : bool :=
  match acts with
  | [] => true
  | a :: acts' => act_live a s && acts_live acts' (perform lower bufSize a s).2
  end.

Record ends_ok (cp sp : HuffmanCodingChoice) (n : Z * Z) s : Prop := {
  eo_requests : half_ok cp (cc_connection (en_client s)) (sc_connection (en_server s)) (en_serverAcks s);
  eo_responses : half_ok sp (sc_connection (en_server s)) (cc_connection (en_client s)) (en_clientAcks s);
  eo_client_room : qe_base (c_encoder (cc_connection (en_client s))) + n.1 < 2 ^ 60;
  eo_server_room : qe_base (c_encoder (sc_connection (en_server s))) + n.2 < 2 ^ 60;
}.

(** Both encoders may refer to nothing, and have inserted nothing. *)
Definition ends_idle s : Prop :=
  idle (c_encoder (cc_connection (en_client s))) ∧ idle (c_encoder (sc_connection (en_server s))).

(** An act does what it should, if there is room for [n] more fields. *)
Definition act_runs (cp sp : HuffmanCodingChoice) (a : act) : Prop :=
  ∀ n s, 0 ≤ n.1 → 0 ≤ n.2 → ends_ok cp sp ((act_fields a).1 + n.1, (act_fields a).2 + n.2) s → act_live a s = true →
  ∃ s', perform lower bufSize a s = (Ok (said a), s') ∧ ends_ok cp sp n s' ∧ (ends_idle s → ends_idle s').

Lemma serviceRequest_run id bs t evs log req (c : ServerConnection Buffer) :
  (∃ br', handle lower bufSize id (enough bs) (Incoming (c_decoder (sc_connection c)) (c_acks (sc_connection c))
      (arrived bs) [] newServerRequest) = (Ok tt, Incoming t evs br' log req)) →
  serviceRequest lower bufSize id bs c = (Ok (req, log), set_connection (set_decoder t evs (sc_connection c)) c).
Proof. intros [br' Hr]. unfold serviceRequest, zoom. rewrite bind_unfold, Hr. done. Qed.

Lemma receiveResponse_run id bs t evs log an (c : ClientConnection Buffer) :
  (∃ br', readResponse lower (InformationalResponses (c_config (cc_connection c))) bufSize id (enough bs)
      (Incoming (c_decoder (cc_connection c)) (c_acks (cc_connection c)) (arrived bs) [] (c, noAnswers id)) =
      (Ok tt, Incoming t evs br' log (c, an))) →
  receiveResponse lower bufSize id bs c = (Ok (an, log), set_client_connection (set_decoder t evs (cc_connection c)) c).
Proof. intros [br' Hr]. unfold receiveResponse, zoom. rewrite bind_unfold. cbn [getS in_handler fst]. by rewrite bind_unfold, Hr. Qed.

(** The code builds that list. *)
Lemma buildRequestHeaderFields_list method target headers u : url_Parse target = Ok u → url_Scheme u = "https"%string →
  buildRequestHeaderFields method None target headers = Ok (u, request_list u method headers).
Proof. intros Hu Hs. unfold buildRequestHeaderFields. by rewrite Hu, decide_True, Hs. Qed.

Lemma ask_runs cp sp id method target headers chunks : 0 < bufSize →
  act_ok cp sp (Ask id method target headers chunks) → act_runs cp sp (Ask id method target headers chunks).
Proof.
  intros Hbuf (Hid & (Hv & Hplain & Hm & Hbuild) & Hc) n s Hn1 Hn2 [Hreq Hresp Hroom1 Hroom2]. cbn [act_live act_fields said] in *.
  destruct s as [cc sc ca sa]. unfold client_updates in *.
  cbn [en_client en_server en_clientAcks en_serverAcks fst snd] in *. destruct (url_Parse target) as [u|er| |] eqn:Hu; [|done..].
  destruct Hbuild as ((Hs & Hhost & Hpath & Hparse) & Hf & Hvf). intros Hlive.
  pose proof (buildRequestHeaderFields_list method target headers u Hu Hs) as Hb. set (fields := request_list u method headers) in *.
  assert (zlen fields = 4 + zlen headers) as Hlen by (unfold fields, request_list; by rewrite zlen_app).
  pose proof Hreq as [Henc Hpref Hup Hready Htab Hev Hwr Hak]. set (e := c_encoder (cc_connection cc)) in *.
  destruct (block_crosses_run _ _ _ _ _ _ _ Hlive (request_crosses lower id (MkBuffer []) method target headers chunks cc u fields u
    (proj1 Henc) Hup buffer_start ltac:(fold e; lia) Hready Hv Hb Hplain Hm Hhost Hpath Hparse ltac:(fold e; by rewrite Hpref) Hvf Hc))
    as (e2 & w1 & t & evs & updates & (w2 & bs & Hsent & Hbytes & Hread) & Hcd & Hac & Hupd).
  specialize (Hcd Henc). change (buf_bytes (MkBuffer []) ++ bs) with bs in Hbytes.
  destruct (@updatesArrive_run _ server_handler updates t sc) as (evs' & Hua & Hav).
  { intros sent fuel Hf'. change (base sc) with (sc_connection sc). rewrite Htab. by apply Hupd. }
  eexists. split.
  - unfold perform, ask. rewrite bind_unfold. cbn [getS]. rewrite bind_unfold. unfold at_client, zoom. cbn [en_client].
    rewrite Hsent. cbn [en_server en_clientAcks en_serverAcks]. rewrite bind_unfold. cbn [getS].
    unfold client_updates. cbn [en_client set_client_connection cc_connection set_updates c_updates]. rewrite (since_app _ w1 updates Hac). rewrite bind_unfold. unfold at_server, zoom. cbn [en_server].
    rewrite Hua. rewrite bind_unfold. cbn [en_server en_client en_clientAcks en_serverAcks].
    rewrite Hbytes. erewrite serviceRequest_run; [done|]. apply Hread; [done|unfold enough; lia].
  - pose proof (cd_base _ _ _ _ _ _ _ Hcd). split; [|by intros [Hi1%(cd_idle _ _ _ _ _ _ _ Hcd) Hi2]].
    split; [|exact (half_other _ _ _ _ _ _ _ _ Hresp)|cbn; lia|exact Hroom2].
    eapply (half_sent _ _ _ _ _ _ _ _ _ _ _ Hreq Hcd); [done|lia|done].
Qed.

Lemma respondOn_run id status headers chunks c2 w2 (c : ServerConnection Buffer) :
  respondWith lower id status headers chunks (sc_connection c, NewBitWriter (MkBuffer [])) = (Ok tt, (c2, w2)) →
  respondOn lower id status headers chunks c = (Ok (buf_bytes (bw_writer w2)), set_connection c2 c).
Proof. intros Hr. unfold respondOn, zoom. by rewrite bind_unfold, Hr. Qed.

Lemma answer_runs cp sp id status headers chunks : 0 < bufSize →
  act_ok cp sp (Answer id status headers chunks) → act_runs cp sp (Answer id status headers chunks).
Proof.
  intros Hbuf (Hid & (Hv & Hrange & H0 & H1 & Hplain & Hf & Hvf) & Hc) n s Hn1 Hn2 [Hreq Hresp Hroom1 Hroom2].
  cbn [act_live act_fields said] in *. change (response_list status headers) with (statusField status :: headers) in *. destruct s as [cc sc ca sa]. unfold server_updates in *.
  cbn [en_client en_server en_clientAcks en_serverAcks fst snd] in *. intros Hlive.
  assert (zlen (statusField status :: headers) = 1 + zlen headers) as Hlen by (rewrite zlen_cons; lia).
  pose proof Hresp as [Henc Hpref Hup Hready Htab Hev Hwr Hak]. set (e := c_encoder (sc_connection sc)) in *.
  destruct (block_crosses_run _ _ _ _ _ _ _ Hlive (response_crosses lower id status headers chunks (sc_connection sc)
    (NewBitWriter (MkBuffer [])) (proj1 Henc) Hup buffer_start ltac:(fold e; rewrite Hlen; lia) Hready Hv Hrange H0 H1 Hplain
    ltac:(fold e; by rewrite Hpref) Hvf Hc))
    as (e2 & w1 & t & evs & updates & (w2 & bs & Hs & _ & Hbytes & Hread) & Hcd & Hac & Hupd).
  specialize (Hcd Henc). change (buf_bytes (bw_writer (NewBitWriter (MkBuffer []))) ++ bs) with bs in Hbytes.
  destruct (@updatesArrive_run _ (client_handler lower bufSize) updates t cc) as (evs' & Hu & Hav).
  { intros sent fuel Hf'. change (base cc) with (cc_connection cc). rewrite Htab. by apply Hupd. }
  eexists. split.
  - unfold perform, answer. rewrite bind_unfold. cbn [getS]. rewrite bind_unfold. unfold at_server at 1, zoom at 1. cbn [en_server].
    rewrite (respondOn_run _ _ _ _ _ _ _ Hs). cbn [en_client en_clientAcks en_serverAcks]. rewrite bind_unfold. cbn [getS].
    unfold server_updates. cbn [en_server set_connection sc_connection set_updates c_updates]. rewrite (since_app _ w1 updates Hac).
    rewrite bind_unfold. unfold at_client, zoom. cbn [en_client].
    rewrite Hu. rewrite bind_unfold. cbn [en_server en_client en_clientAcks en_serverAcks].
    rewrite Hbytes. erewrite receiveResponse_run; [done|]. apply Hread; [done|unfold enough; lia].
  - pose proof (cd_base _ _ _ _ _ _ _ Hcd) as Hb2. rewrite Hlen in Hb2. split; [|by intros [Hi1 Hi2%(cd_idle _ _ _ _ _ _ _ Hcd)]].
    split; [exact (half_other _ _ _ _ _ _ _ _ Hreq)| |exact Hroom1|cbn; lia].
    eapply (half_sent _ _ _ _ _ _ _ _ _ _ _ Hresp Hcd); [done|lia|done].
Qed.

(** The acknowledgments of one direction do not disturb the other. *)
Lemma half_acked pref from to a e t acks :
  half_ok pref from to a → half_ok pref (set_decoder t acks from) (set_encoder e to) a.
Proof. intros []. by split. Qed.

Lemma acksToClient_runs cp sp timer : act_runs cp sp (AcksToClient timer).
Proof.
  intros n s Hn1 Hn2 [Hreq Hresp Hroom1 Hroom2] _. cbn [act_fields said fst snd] in *. destruct s as [cc sc ca sa].
  cbn [en_client en_server en_clientAcks en_serverAcks fst snd] in *.
  destruct (@sendAcks_run _ server_handler cp (cc_connection cc) timer sc sa Hreq) as (acks & bs & sa' & Hs & Hacks & Hbs & Hbits & Hreq').
  destruct (@acksArrive_run _ (client_handler lower bufSize) cp (set_decoder (c_decoder (sc_connection sc)) [] (sc_connection sc)) sa'
    acks bs cc Hreq') as (e & Hr & Hreq'' & Hb); [change (base cc) with (cc_connection cc); lia|done..|].
  eexists. split.
  - unfold perform, acksToClient. rewrite bind_unfold. unfold zoom at 1. cbn [en_server en_serverAcks]. rewrite Hs.
    rewrite bind_unfold. unfold at_client, zoom. cbn [en_client fst snd]. rewrite Hr. done.
  - change (base cc) with (cc_connection cc) in Hb. split; [|by intros [Hi1%(idle_table _ _ Hb) Hi2]].
    split; [exact Hreq''|exact (half_acked _ _ _ _ _ _ _ Hresp)| |exact Hroom2]. unfold qe_base in *. cbn. by rewrite Hb.
Qed.

Lemma acksToServer_runs cp sp timer : act_runs cp sp (AcksToServer timer).
Proof.
  intros n s Hn1 Hn2 [Hreq Hresp Hroom1 Hroom2] _. cbn [act_fields said fst snd] in *. destruct s as [cc sc ca sa].
  cbn [en_client en_server en_clientAcks en_serverAcks fst snd] in *.
  destruct (@sendAcks_run _ (client_handler lower bufSize) sp (sc_connection sc) timer cc ca Hresp) as (acks & bs & ca' & Hs & Hacks & Hbs & Hbits & Hresp').
  destruct (@acksArrive_run _ server_handler sp (set_decoder (c_decoder (cc_connection cc)) [] (cc_connection cc)) ca'
    acks bs sc Hresp') as (e & Hr & Hresp'' & Hb); [change (base sc) with (sc_connection sc); lia|done..|].
  eexists. split.
  - unfold perform, acksToServer. rewrite bind_unfold. unfold zoom at 1. cbn [en_client en_clientAcks]. rewrite Hs.
    rewrite bind_unfold. unfold at_server, zoom. cbn [en_server fst snd]. rewrite Hr. done.
  - change (base sc) with (sc_connection sc) in Hb. split; [|by intros [Hi1 Hi2%(idle_table _ _ Hb)]].
    split; [exact (half_acked _ _ _ _ _ _ _ Hreq)|exact Hresp''|exact Hroom1|]. unfold qe_base in *. cbn. by rewrite Hb.
Qed.

Lemma act_runs_ok cp sp a : 0 < bufSize → act_ok cp sp a → act_runs cp sp a.
Proof.
  destruct a; [by apply ask_runs|by apply answer_runs|intros; apply acksToClient_runs|intros; apply acksToServer_runs].
Qed.

Lemma act_fields_nonneg a : 0 ≤ (act_fields a).1 ∧ 0 ≤ (act_fields a).2.
Proof.
  destruct a as [id method target headers chunks|id status headers chunks|timer|timer]; cbn [act_fields fst snd];
    try pose proof (zlen_nonneg headers); lia.
Qed.

Lemma acts_fields_nonneg acts : 0 ≤ (acts_fields acts).1 ∧ 0 ≤ (acts_fields acts).2.
Proof.
  induction acts as [|a acts IH]; cbn [acts_fields fst snd]; [lia|]. pose proof (act_fields_nonneg a). lia.
Qed.

Lemma converse_runs cp sp acts s : 0 < bufSize → Forall (act_ok cp sp) acts → ends_ok cp sp (acts_fields acts) s →
  acts_live acts s = true →
  ∃ s', converse lower bufSize acts s = (Ok (said <$> acts), s') ∧ ends_ok cp sp (0, 0) s' ∧ (ends_idle s → ends_idle s').
Proof.
  intros Hbuf Hacts. revert s. induction Hacts as [|a acts Ha _ IH]; intros s Hs Hlive; [by exists s|].
  cbn [acts_live] in Hlive. apply andb_prop in Hlive as [Ha_live Hlive]. destruct (acts_fields_nonneg acts).
  destruct (act_runs_ok cp sp a Hbuf Ha (acts_fields acts) s) as (s1 & Hr & Hs1 & Hi1); [done..|].
  rewrite Hr in Hlive. destruct (IH s1 Hs1 Hlive) as (s' & Hrs & Hs' & Hi'). exists s'. split_and!; [|done|by auto].
  cbn [converse]. rewrite (bind_Ok _ _ _ _ _ Hr), (bind_Ok _ _ _ _ _ Hrs). done.
Qed.
End conversation.
