(* ===== verification/StartUp.v ===== *)
(** * How two ends start

    Both ends connect: each writes its settings, the client also its credit for
    pushes, and each serves the control stream of the other. *)

From S2P Require Import Prelude Bits GoIo BitWriter BitReader Streams Frame HcInt HuffmanTable Huffman HcString StaticTable Table Codec QpackTable QpackEncoder QpackDecoder QpackTableSpec QpackDecoderSpec QpackEncoderSpec QpackReach QpackIdle QpackLink QpackSizes QpackAck Settings Headers Message MessageSpec MessageLink Connection ConnectionSpec Push PushSpec PushStream Request RequestSpec Conversation ConversationSpec.

(** ** Connecting *)

(** The streams that [connect] is given, and what is written to them so far. *)
Definition newStreams : streams (W := Buffer) := Streams (NewBitWriter (MkBuffer [])) (MkBuffer []) (MkBuffer []).

Section start.
Context `{UrlLib} (lower : string → string) (bufSize : Z).

(** The goroutine of [serviceUnidirectionalStreams] for the control stream of the
    peer, as far as it has arrived. *)
Definition controlArrives {S} `{ConnectionHandler Buffer S} (w : bitWriter Buffer) : go S unit :=
  arrive (buf_bytes (bw_writer w)) serviceUnidirectionalStream.

(** [Connect] at the client and at the server. *)
Definition connectBoth (clientConfig serverConfig : Config) : go (streams * streams) ends :=
  c ← zoom fst (λ x s, (x, s.2)) (connect clientConfig);
  s ← zoom snd (λ x s, (s.1, x)) (connect serverConfig);
  x ← getS;
  mret (Ends (Client_Connect clientConfig c) (newServerConnection s) (newAcking (st_acks x.1)) (newAcking (st_acks x.2))).

(** Both control streams. *)
Definition serveControls : go ends unit :=
  s ← getS;
  at_server (@controlArrives _ server_handler (c_controlStream (cc_connection (en_client s))));;
  at_client (@controlArrives _ (client_handler lower bufSize) (c_controlStream (sc_connection (en_server s)))).
End start.

(** ** What [connect] makes *)

(** The connection, and what it has written: a stream type and its settings. *)
Lemma connect_run config : 0 ≤ DecoderTableCapacity config < 2 ^ 62 → 0 ≤ ConcurrentDecoders config < 2 ^ 16 →
  ∃ e control p bs, NewQpackEncoder 0 0 = Ok e ∧
    connect config newStreams =
      (Ok (Connection config (NewQpackDecoderTable (DecoderTableCapacity config)) [] false e
             (NewBitWriter (MkBuffer [unidirectionalStreamQpackEncoder])) control false []),
       Streams control (MkBuffer [unidirectionalStreamQpackEncoder]) (MkBuffer [unidirectionalStreamQpackDecoder])) ∧
    at_byte control ∧ buf_bytes (bw_writer control) = unidirectionalStreamControl :: bs ∧ Forall is_byte bs ∧
    bits_of_bytes bs = frame_bits frameSettings p ∧ Forall is_byte p ∧ zlen p < 2 ^ 62 ∧
    bits_of_bytes p = mjoin (setting_bits <$> config_settings config).
Proof.
  intros Hc Hd. destruct (WriteTo_bytes config (NewBitWriter (MkBuffer [])) buffer_start Hc Hd)
    as (w & p & Hw & _ & Hac & Hp & Hbits & Hlen). change (buf_bytes (bw_writer w) = p) in Hac.
  set (w0 := BitWriter (MkBuffer [unidirectionalStreamControl]) unidirectionalStreamControl 0 1).
  destruct (WriteFrame_bytes frameSettings p w0) as (n & control & bs & Hf & Hcontrol & Hbytes & Hbs & Hfbits);
    [done|done|lia|by split; [split; [|repeat constructor]|]|].
  eexists _, control, p, bs. split_and!; try done; [|lia].
  unfold connect. rewrite bind_unfold. unfold zoom at 1. unfold sendSettings. rewrite bind_unfold.
  change (WriteByte unidirectionalStreamControl (st_control newStreams)) with (Ok tt, w0). cbv beta iota.
  unfold settingsBuffer, lift. rewrite bind_unfold, Hw, Hac. cbv beta iota. rewrite Z.eqb_refl, bind_unfold, Hf. done.
Qed.

(** ** The encoders after the settings of the peer *)

(** The capacity of the peer's table, nothing in it, and the peer's limit. *)
Lemma configured_encoder config e : NewQpackEncoder 0 0 = Ok e → 0 ≤ DecoderTableCapacity config < 2 ^ 30 →
  0 ≤ ConcurrentDecoders config < 2 ^ 16 →
  ∃ e', settings_apply (config_settings config) e = (Ok tt, e') ∧ enc_inv e' ∧ qe_base e' = 0 ∧
    qe_common_table e' = NewQpackDecoderTable (DecoderTableCapacity config) ∧ enc_pref e' = HuffmanCodingAuto ∧
    maxBlockedStreams e' = ConcurrentDecoders config ∧ idle e'.
Proof.
  intros He Hc Hd. pose proof (NewQpackEncoder_inv 0 0 e ltac:(done) ltac:(done) He) as Hinv.
  pose proof (Encoder_SetCapacity_settled (DecoderTableCapacity config) e ltac:(lia) Hinv) as (Hinv1 & _ & _).
  pose proof (SetMaxBlockedStreams_settled (ConcurrentDecoders config) _ Hinv1) as (Hinv2 & _ & _).
  injection He as <-. set (e0 := MkQpackEncoder _ _ _ _ _ _ _) in *.
  set (qt := MkQpackEncoderTable (NewQpackDecoderTable (DecoderTableCapacity config)) 0 0 0).
  assert (Encoder_SetCapacity (DecoderTableCapacity config) e0 = (Ok tt, set_qe_table qt e0)) as H1.
  { unfold Encoder_SetCapacity, lift, EncoderTable_SetCapacity. rewrite !bind_unfold. cbn.
    by rewrite (proj2 (Z.ltb_ge _ 0)) by lia. }
  set (e2 := MkQpackEncoder (qe_common e0) qt (qe_usage e0) (ConcurrentDecoders config) 0 0 0).
  assert (SetMaxBlockedStreams (ConcurrentDecoders config) (set_qe_table qt e0) = (Ok tt, e2)) as H2.
  { unfold SetMaxBlockedStreams. rewrite bind_unfold. cbn [getS]. by rewrite (proj2 (Z.ltb_ge _ _)) by (cbn; lia). }
  rewrite H1 in Hinv2. cbn [snd] in Hinv2. rewrite H2 in Hinv2.
  exists e2. split; [|split_and!; [exact Hinv2|reflexivity..|by split]].
  unfold config_settings. cbn [settings_apply setting_apply]. change (settingTableSize =? settingTableSize) with true.
  change (settingMaxQpackBlockedStreams =? settingTableSize) with false. cbv beta iota.
  rewrite (proj2 (Z.leb_gt (2 ^ 30) _)), (proj2 (Z.leb_gt (2 ^ 16) _)) by lia.
  by rewrite (bind_Ok _ _ _ _ _ H1), (bind_Ok _ _ _ _ _ H2).
Qed.

(** ** Both ends *)

Section started.
Context `{UrlLib} (lower : string → string) (bufSize : Z).

(** A control stream, type, settings and frames, is served to its end. *)
Lemma control_served {S} `{HandlerSpec Buffer S} config p fs bs (w : bitWriter Buffer) s s' :
  0 ≤ DecoderTableCapacity config < 2 ^ 62 → 0 ≤ ConcurrentDecoders config < 2 ^ 16 →
  buf_bytes (bw_writer w) = unidirectionalStreamControl :: bs → Forall is_byte bs →
  bits_of_bytes bs = frame_bits frameSettings p ++ control_bits fs → Forall is_byte p → zlen p < 2 ^ 62 →
  bits_of_bytes p = mjoin (setting_bits <$> config_settings config) → Forall control_ok fs →
  control_service (config_settings config) fs s = (Err EOF, s') →
  controlArrives w s = (Ok tt, s').
Proof.
  intros Hc Hd Hw Hbs Hbits Hp Hlen Hpbits Hfs Hrun. unfold controlArrives, arrive, zoom. rewrite Hw.
  set (all := unidirectionalStreamControl :: bs). unfold serviceUnidirectionalStream.
  destruct (reader_start (MkBytesReader all)) as [Hwf Hl]; [by apply Forall_cons|].
  destruct (ReadByte_reads (R := bytesReader) unidirectionalStreamControl ltac:(done) (arrived all) (bits_of_bytes bs) Hwf) as (br1 & Hr1 & Hwf1 & Hl1);
    [done|]. rewrite bind_unfold. unfold catch at 1, on_recv at 1, zoom at 1. cbn [fst snd]. rewrite Hr1.
  change (unidirectionalStreamControl =? unidirectionalStreamControl) with true. cbv beta iota. rewrite bind_unfold.
  destruct (serviceControlStream_follows (config_settings config) p fs [] (enough all)) with s br1 as (br2 & Hr2);
    [by apply config_settings_ok|done..|apply header_cut_nil| |done|by rewrite Hl1, app_nil_r, Hbits|].
  { rewrite app_nil_r, <- Hbits. rewrite (bytes_length bs _ eq_refl). unfold enough, all. cbn [length]. lia. }
  rewrite bind_unfold. unfold catch at 1. rewrite Hr2, Hrun. done.
Qed.
(** A control stream of settings alone, and what is left once it is served. *)
Lemma control_service_run {S} `{HandlerSpec Buffer S} config fs e' (s : S) :
  settings_apply (config_settings config) (c_encoder (base s)) = (Ok tt, e') →
  (∀ c, base (set_base c s) = c) → c_ready (base s) = false →
  (∀ c c', set_base c' (set_base c s) = set_base c' s) →
  control_service (config_settings config) fs s =
    control_run fs (set_base (set_ready (set_encoder e' (base s))) s).
Proof.
  intros Hset Hbase Hready Hsame. unfold control_service. rewrite bind_unfold. unfold at_base at 1, zoom at 1.
  unfold zoom. rewrite Hset. rewrite bind_unfold. unfold at_base, zoom. rewrite Hbase.
  assert (closeReady (set_encoder e' (base s)) = (Ok tt, set_ready (set_encoder e' (base s)))) as ->
    by (unfold closeReady; rewrite bind_unfold; cbn [getS set_encoder c_ready]; by rewrite Hready).
  by rewrite Hsame.
Qed.

Definition config_ok (config : Config) : Prop :=
  0 ≤ DecoderTableCapacity config < 2 ^ 30 ∧ 0 ≤ ConcurrentDecoders config < 2 ^ 16 ∧ 0 ≤ MaxConcurrentPushes config < 2 ^ 62.

(** A started encoder at one end and the decoder at the other. *)
Lemma half_started config from to e : enc_inv e → enc_pref e = HuffmanCodingAuto →
  qe_common_table e = NewQpackDecoderTable (DecoderTableCapacity config) →
  c_encoder from = e → c_updates from = NewBitWriter (MkBuffer [unidirectionalStreamQpackEncoder]) → c_ready from = true →
  c_decoder to = NewQpackDecoderTable (DecoderTableCapacity config) → c_acks to = [] →
  half_ok HuffmanCodingAuto from to (newAcking (MkBuffer [unidirectionalStreamQpackDecoder])).
Proof.
  intros He Hp Ht <- Hu Hr Hd Ha. split; [done|done| |done|by rewrite Hd|by rewrite Ha| |done];
    rewrite ?Hu; (split; [split; [done|by repeat constructor]|done]).
Qed.

(** The server and the control stream of the client. *)
Lemma client_control_served config e se control p bs w credit (sc : connection Buffer) : config_ok config →
  c_encoder sc = e → c_ready sc = false → settings_apply (config_settings config) e = (Ok tt, se) →
  buf_bytes (bw_writer control) = unidirectionalStreamControl :: bs → Forall is_byte bs →
  bits_of_bytes bs = frame_bits frameSettings p → Forall is_byte p → zlen p < 2 ^ 62 →
  bits_of_bytes p = mjoin (setting_bits <$> config_settings config) →
  buf_bytes (bw_writer w) = buf_bytes (bw_writer control) ++ credit → Forall is_byte credit →
  bits_of_bytes credit = frame_bits frameMaxPushID (varint_bytes (MaxConcurrentPushes config)) →
  @controlArrives _ server_handler w (newServerConnection sc) =
    (Ok tt, MkServerConnection (set_ready (set_encoder se sc)) 0 (MaxConcurrentPushes config) ∅).
Proof.
  intros (Hc & Hd & Hn) <- Hready Hset Hcb Hbs Hbits Hp Hlen Hpbits Hwb Hcrb Hcrbits. set (n := MaxConcurrentPushes config) in *.
  rewrite Hcb in Hwb.
  eapply (@control_served _ server_handler (ServerConnection_spec None) config p [(frameMaxPushID, varint_bytes n)]); try done;
    [lia|by apply Forall_app| |..].
  - rewrite bits_of_bytes_app, Hbits, Hcrbits. unfold control_bits. cbn. by rewrite app_nil_r.
  - apply Forall_singleton. by apply varint_frame_ok.
  - rewrite (control_service_run _ _ se); [|done..]. cbn [control_run]. rewrite bind_unfold.
    change (control_effect frameMaxPushID (varint_bytes n)) with (server_effect (W := Buffer) frameMaxPushID (varint_bytes n)).
    rewrite server_effect_max by done. unfold raiseMaxPushID, modS. cbn. destruct (Z.ltb_spec 0 n); [done|].
    by replace n with 0 by lia.
Qed.

(** The client and the control stream of the server. *)
Lemma server_control_served config e ce w p bs (cl : ClientConnection Buffer) : config_ok config →
  c_encoder (cc_connection cl) = e → c_ready (cc_connection cl) = false →
  settings_apply (config_settings config) e = (Ok tt, ce) →
  buf_bytes (bw_writer w) = unidirectionalStreamControl :: bs → Forall is_byte bs →
  bits_of_bytes bs = frame_bits frameSettings p → Forall is_byte p → zlen p < 2 ^ 62 →
  bits_of_bytes p = mjoin (setting_bits <$> config_settings config) →
  @controlArrives _ (client_handler lower bufSize) w cl =
    (Ok tt, set_client_connection (set_ready (set_encoder ce (cc_connection cl))) cl).
Proof.
  intros (Hc & Hd & _) <- Hready Hset Hwb Hbs Hbits Hp Hlen Hpbits.
  eapply (@control_served _ (client_handler lower bufSize) (ClientConnection_spec lower None bufSize 0) config p []); try done; [lia| |].
  - by rewrite Hbits, app_nil_r.
  - by rewrite (control_service_run _ _ ce).
Qed.

Lemma starts clientConfig serverConfig : config_ok clientConfig → config_ok serverConfig →
  ∃ s0 st s, connectBoth clientConfig serverConfig (newStreams, newStreams) = (Ok s0, st) ∧
    serveControls lower bufSize s0 = (Ok tt, s) ∧
    maxPushID (en_server s) = MaxConcurrentPushes clientConfig ∧
    maxBlockedStreams (c_encoder (cc_connection (en_client s))) = ConcurrentDecoders serverConfig ∧
    maxBlockedStreams (c_encoder (sc_connection (en_server s))) = ConcurrentDecoders clientConfig ∧
    ends_idle s ∧ ∀ n, n.1 < 2 ^ 60 → n.2 < 2 ^ 60 → ends_ok HuffmanCodingAuto HuffmanCodingAuto n s.
Proof.
  intros Hcok Hsok. pose proof Hcok as (Hcc & Hcd & Hcp). pose proof Hsok as (Hsc & Hsd & _).
  destruct (connect_run clientConfig) as (e & cctl & cp & cbs & He & Hcr & Hcat & Hcb & Hcbs & Hcbits & Hcpb & Hcpl & Hcpbits); [lia|done|].
  destruct (connect_run serverConfig) as (e' & sctl & sp & sbs & He' & Hsr & Hsat & Hsb & Hsbs & Hsbits & Hspb & Hspl & Hspbits); [lia|done|].
  rewrite He in He'. injection He' as <-.
  destruct (configured_encoder serverConfig e He Hsc Hsd) as (ce & Hcset & Hcinv & Hcbase & Hctab & Hcpref & Hcmax & Hcidle).
  destruct (configured_encoder clientConfig e He Hcc Hcd) as (se & Hsset & Hsinv & Hsbase & Hstab & Hspref & Hsmax & Hsidle).
  set (cc := Connection clientConfig _ [] false e _ cctl false []) in *. set (sc := Connection serverConfig _ [] false e _ sctl false []) in *.
  destruct (creditPushes_bytes (MaxConcurrentPushes clientConfig) (NewClientConnection cc))
    as (w & credit & Hcredit & Hwat & Hwb & Hcrb & Hcrbits); [done|lia|cbn; lia|done|].
  cbn [cc_connection NewClientConnection cc_maxPushID c_controlStream cc promises] in Hcredit, Hwb, Hcrbits. rewrite Z.add_0_l in Hcredit, Hcrbits.
  set (cl := MkClientConnection _ _ ∅) in *. set (acks := newAcking (MkBuffer [unidirectionalStreamQpackDecoder])).
  pose proof (client_control_served clientConfig e se cctl cp cbs w credit sc Hcok eq_refl eq_refl Hsset Hcb Hcbs Hcbits Hcpb Hcpl Hcpbits
    Hwb Hcrb Hcrbits) as Hserver.
  pose proof (server_control_served serverConfig e ce sctl sp sbs cl Hsok eq_refl eq_refl Hcset Hsb Hsbs Hsbits Hspb Hspl Hspbits) as Hclient.
  set (sv' := MkServerConnection _ _ _ _) in *. set (cl' := set_client_connection _ _) in *.
  eexists (Ends cl (newServerConnection sc) acks acks), _, (Ends cl' sv' acks acks). split_and!; try done.
  - unfold connectBoth. rewrite bind_unfold. unfold zoom at 1. cbn [fst]. rewrite Hcr, bind_unfold. unfold zoom at 1. cbn [snd].
    rewrite Hsr, bind_unfold. cbn [getS fst snd st_acks]. unfold Client_Connect, catch. fold cc. rewrite Hcredit. done.
  - unfold serveControls. rewrite bind_unfold. cbn [getS]. rewrite bind_unfold. unfold at_server, zoom. cbn [en_client en_server].
    change (c_controlStream (cc_connection cl)) with w. rewrite Hserver. unfold at_client, zoom. cbn [en_client].
    change (c_controlStream (sc_connection (newServerConnection sc))) with sctl. by rewrite Hclient.
  - intros m Hm1 Hm2. split; [apply (half_started serverConfig _ _ ce); done|apply (half_started clientConfig _ _ se); done|..];
      [by cbn; rewrite Hcbase|by cbn; rewrite Hsbase].
Qed.

(** ** Conversations of idle encoders *)

(** The blocks of an act are of ordinary size. *)
Definition act_short (a : act) : Prop :=
  match a with
  | Ask _ method target headers _ =>
      match url_Parse target with
      | Ok u => block_short (lower_names lower (request_list u method headers))
      | _ => True
      end
  | Answer _ status headers _ => block_short (lower_names lower (response_list status headers))
  | AcksToClient _ | AcksToServer _ => True
  end.

Lemma idle_act_live cp sp a n s : act_ok lower cp sp a → act_short a → 0 ≤ n.1 → 0 ≤ n.2 →
  ends_ok cp sp ((act_fields a).1 + n.1, (act_fields a).2 + n.2) s → ends_idle s → act_live lower a s = true.
Proof.
  intros Ha Hshort Hn1 Hn2 [[Hc1 Hc2 Hc3 _ _ _ _ _] [Hs1 Hs2 Hs3 _ _ _ _ _] Hr1 Hr2] [Hi1 Hi2].
  destruct a as [id method target headers chunks|id status headers chunks|timer|timer]; cbn [act_ok act_short act_live act_fields fst snd] in *;
    [| |done..].
  - destruct Ha as (_ & (_ & _ & _ & Hbuild) & _). destruct (url_Parse target) as [u|er| |]; [|done..].
    destruct Hbuild as (_ & Hf & _). apply crossable_idle; [done..| |by rewrite Hc2|done].
    unfold request_list. rewrite zlen_app. change (zlen [_; _; _; _]) with 4. lia.
  - destruct Ha as (_ & (_ & _ & _ & _ & _ & Hf & _) & _). apply crossable_idle; [done..| |by rewrite Hs2|done].
    unfold response_list. rewrite zlen_cons. lia.
Qed.

Lemma idle_acts_live cp sp acts s : 0 < bufSize → Forall (act_ok lower cp sp) acts → Forall act_short acts →
  ends_ok cp sp (acts_fields acts) s → ends_idle s → acts_live lower bufSize acts s = true.
Proof.
  intros Hbuf Hacts. revert s. induction Hacts as [|a acts Ha _ IH]; intros s Hshort Hs Hi; [done|].
  apply Forall_cons in Hshort as [Hsa Hshort]. destruct (acts_fields_nonneg acts) as [Hn1 Hn2]. cbn [acts_live acts_fields] in *.
  pose proof (idle_act_live cp sp a _ s Ha Hsa Hn1 Hn2 Hs Hi) as Hlive. rewrite Hlive.
  destruct (act_runs_ok lower bufSize cp sp a Hbuf Ha (acts_fields acts) s Hn1 Hn2 Hs Hlive) as (s1 & Hr & Hs1 & Hi1).
  rewrite Hr. apply IH; [done|exact Hs1|by apply Hi1].
Qed.


(** From the start to the end of a conversation, whatever is said. *)
Lemma started_converses clientConfig serverConfig acts : 0 < bufSize → config_ok clientConfig → config_ok serverConfig →
  Forall (act_ok lower HuffmanCodingAuto HuffmanCodingAuto) acts → Forall act_short acts →
  (acts_fields acts).1 < 2 ^ 60 → (acts_fields acts).2 < 2 ^ 60 →
  ∃ s0 st s s', connectBoth clientConfig serverConfig (newStreams, newStreams) = (Ok s0, st) ∧
    serveControls lower bufSize s0 = (Ok tt, s) ∧ converse lower bufSize acts s = (Ok (said lower <$> acts), s') ∧
    maxPushID (en_server s) = MaxConcurrentPushes clientConfig ∧
    maxBlockedStreams (c_encoder (cc_connection (en_client s))) = ConcurrentDecoders serverConfig ∧
    maxBlockedStreams (c_encoder (sc_connection (en_server s))) = ConcurrentDecoders clientConfig ∧
    qe_base (c_encoder (cc_connection (en_client s'))) = 0 ∧ qe_base (c_encoder (sc_connection (en_server s'))) = 0.
Proof.
  intros Hbuf Hc Hs Hacts Hshort Hr1 Hr2.
  destruct (starts clientConfig serverConfig Hc Hs) as (s0 & st & s & Hconnect & Hserve & Hmax & Hb1 & Hb2 & Hidle & Hok).
  specialize (Hok (acts_fields acts) Hr1 Hr2).
  destruct (converse_runs lower bufSize _ _ acts s Hbuf Hacts Hok) as (s' & Hrun & _ & Hidle').
  { by eapply idle_acts_live. }
  destruct (Hidle' Hidle) as [Hi1 Hi2]. exists s0, st, s, s'. split_and!; try done; by apply id_base.
Qed.
End started.
