(* ===== verification/Client.v ===== *)
(** * The client with its connections (client.go)

    A client keeps its connections by the name of their host, makes those it lacks and
    passes requests on. Names and sockets are Go's [net], a class of the calls that are
    made. The goroutine that feeds packets from the socket to the loop of the
    connection is in Server. *)

From S2P Require Import Prelude Bits GoIo BitWriter BitReader Streams Frame HcInt HuffmanTable Huffman HcString StaticTable Table Codec QpackTable QpackEncoder QpackDecoder Settings Headers Message Connection Push Request.

Class Net := {
  net_SplitHostPort : string → outcome (string * string);
  net_ResolveUDPAddr : string → outcome string;
  net_ListenUDP : outcome unit;      (* an ephemeral port *)
}.

(** [strings.ContainsRune(host, ':')] *)
Definition hasColon (host : string) : bool := existsb (Z.eqb 58) (bytes_of_string host).

(** A [ClientConnection]: made by [NewClientConnection], where [ready] is open and
    there are no streams, or after its method [Connect]. *)
Inductive clientConn `{UrlLib} (W : Type) :=
| Made
| Connected (c : ClientConnection W).
Arguments Made {_ W}.
Arguments Connected {_ W}.

(** [Connections] points into [conns], since [Connect] also returns the connection. *)
Record Client `{UrlLib} (W : Type) := MkClient {
  Connections : gmap string nat;
  conns : list (clientConn W);
  dialled : list (string * string);      (* the name for TLS and the address of each *)
  closed : list nat;
}.
Arguments MkClient {_ W}.
Arguments Connections {_ W}.
Arguments conns {_ W}.
Arguments dialled {_ W}.
Arguments closed {_ W}.

Section client.
Context `{UrlLib} `{Net} (unicodeLower : string → string) {W : Type} `{IoWriter W}.

Definition newClient : Client W := MkClient ∅ [] [] [].

(** [Connect], which waits for the handshake; the connection's own [Connect] is not
    called. *)
Definition Connect (host : string) : go (Client W) nat :=
  '(serverName, host) ← (if hasColon host
    then '(name, _) ← lift (net_SplitHostPort host); mret (name, host)
    else mret (host, host +:+ ":443"));
  addr ← lift (net_ResolveUDPAddr host);
  lift net_ListenUDP;;
  c ← getS;
  modS (λ c, MkClient (<[host := length (conns c)]> (Connections c)) (conns c ++ [Made]) (dialled c ++ [(serverName, addr)]) (closed c));;
  mret (length (conns c)).

(** [ClientConnection.Connect] of the connection [i], by the application;
    [connected] is what [connect] makes. *)
Definition connectConn (i : nat) (config : Config) (connected : connection W) : go (Client W) unit :=
  modS (λ c, MkClient (Connections c) (<[i := Connected (Client_Connect config connected)]> (conns c)) (dialled c) (closed c)).

(** [ClientConnection.Fetch] of the connection [i]; before its [Connect] it waits for
    [ready]. [established] and [stream] are the answers of the QUIC library. *)
Definition fetchConn (i : nat) (established : bool) (stream : option (Z * W)) (method target : string) (headers : list HeaderField)
  : go (Client W) (ClientRequest * bitWriter W) := λ c,
  match conns c !! i with
  | Some (Connected cc) =>
      let '(o, cc') := Fetch unicodeLower established stream method target headers cc in
      (o, MkClient (Connections c) (<[i := Connected cc']> (conns c)) (dialled c) (closed c))
  | Some Made => match ValidatePseudoHeaders headers with Ok _ => (Err ErrWouldBlock, c) | Err e => (Err e, c) | Panic => (Panic, c) | NoFuel => (NoFuel, c) end
  | None => (Panic, c)
  end.

(** [Fetch] of the client. *)
Definition Client_Fetch (established : bool) (stream : option (Z * W)) (method target : string) (headers : list HeaderField)
  : go (Client W) (ClientRequest * bitWriter W) :=
  u ← lift (url_Parse target);
  if decide (url_Scheme u ≠ "https"%string) then fail (ErrText "only the 'https' scheme is supported") else
  c ← getS;
  i ← match Connections c !! url_Host u with
      | Some i => mret i
      | None => Connect (url_Host u)
      end;
  fetchConn i established stream method target headers.

(** [Close] closes every connection of the map; their errors are dropped. *)
Definition Client_Close : go (Client W) unit :=
  modS (λ c, MkClient (Connections c) (conns c) (dialled c) (closed c ++ (map_to_list (Connections c)).*2)).

(** What an application does with a client. *)
Inductive client_step : Client W → Client W → Prop :=
| client_connect host c : client_step c (Connect host c).2
| client_fetch established stream method target headers c :
    client_step c (Client_Fetch established stream method target headers c).2
| client_close c : client_step c (Client_Close c).2.

Inductive client_reachable : Client W → Prop :=
| client_new : client_reachable newClient
| client_next c c' : client_reachable c → client_step c c' → client_reachable c'.
End client.
