(* ===== verification/ClientProps.v ===== *)
(** * The client: what becomes of its requests *)

From S2P Require Import Prelude Bits GoIo BitWriter BitReader Streams Frame HcInt HuffmanTable Huffman HcString StaticTable Table Codec QpackTable QpackEncoder QpackDecoder Settings Headers Message Connection Push Request Client.

Lemma hasColon_port host : hasColon (host +:+ ":443") = true.
Proof. unfold hasColon. rewrite bytes_of_string_app, existsb_app. by rewrite orb_comm. Qed.

Section client.
Context `{UrlLib} `{Net} (lower : string → string) {W : Type} `{IoWriter W}.
Implicit Types (c : Client W).

(** No connection was connected, every entry of the map is one of them, and its name
    has a port. *)
Record client_inv c : Prop := {
  cli_made : Forall (λ x, x = Made) (conns c);
  cli_map host i : Connections c !! host = Some i → (i < length (conns c))%nat ∧ hasColon host = true;
}.

Lemma Connect_inv host c : client_inv c → client_inv (Connect host c).2 ∧
  ∀ i, (Connect host c).1 = Ok i → (i < length (conns (Connect host c).2))%nat ∧ length (conns (Connect host c).2) = S (length (conns c)).
Proof.
  intros Hinv. unfold Connect. rewrite bind_unfold.
  assert (∀ name host, hasColon host = true →
    let r := (addr ← lift (net_ResolveUDPAddr host); lift net_ListenUDP;; c ← getS;
      modS (λ c, MkClient (<[host := length (conns c)]> (Connections c)) (conns c ++ [Made]) (dialled c ++ [(name, addr)]) (closed c));;
      mret (length (conns c))) c in
    client_inv r.2 ∧ ∀ i, r.1 = Ok i → (i < length (conns r.2))%nat ∧ length (conns r.2) = S (length (conns c))) as Hdial.
  { intros name host' Hcolon. rewrite bind_unfold. unfold lift at 1. destruct (net_ResolveUDPAddr host'); [|by split..].
    rewrite bind_unfold. unfold lift. destruct net_ListenUDP; [|by split..]. rewrite bind_unfold. cbn [getS]. rewrite bind_unfold. cbn.
    assert (length (conns c ++ [Made]) = S (length (conns c))) as Hlen by (rewrite length_app; cbn; lia).
    split.
    - destruct Hinv as [Hm Hmap]. split; cbn; [apply Forall_app; by split; [|constructor]|].
      intros host0 i [[<- <-]|[_ Hi%Hmap]]%lookup_insert_Some; rewrite Hlen; [by split; [lia|]|]. split; [lia|apply Hi].
    - intros i [= <-]. rewrite Hlen. by split; [lia|]. }
  destruct (hasColon host) eqn:Hc.
  - rewrite bind_unfold. unfold lift at 1. destruct (net_SplitHostPort host) as [[name port]|e| |]; [|by split..]. by apply Hdial.
  - apply Hdial, hasColon_port.
Qed.

Lemma fetchConn_waits i established stream method target headers c : client_inv c → (i < length (conns c))%nat →
  fetchConn lower i established stream method target headers c =
    (match ValidatePseudoHeaders headers with Ok _ => Err ErrWouldBlock | Err e => Err e | Panic => Panic | NoFuel => NoFuel end, c).
Proof.
  intros [Hm _] Hi. apply lookup_lt_is_Some in Hi as [x Hx]. unfold fetchConn. rewrite Hx.
  rewrite Forall_lookup in Hm. rewrite (Hm i x Hx). by destruct (ValidatePseudoHeaders headers).
Qed.

Lemma Client_Fetch_inv established stream method target headers c : client_inv c →
  client_inv (Client_Fetch lower established stream method target headers c).2.
Proof.
  intros Hinv. unfold Client_Fetch. rewrite bind_unfold. unfold lift. destruct (url_Parse target) as [u|e| |]; [|done..].
  destruct (decide _); [done|]. rewrite bind_unfold. cbn [getS]. rewrite bind_unfold.
  destruct (Connections c !! url_Host u) as [i|] eqn:Hu.
  - unfold mret, go_ret. by rewrite fetchConn_waits by (done || by eapply cli_map).
  - destruct (Connect_inv (url_Host u) c Hinv) as [Hinv' Hi]. destruct (Connect (url_Host u) c) as [[i|e| |] c']; [|done..].
    cbn in *. by rewrite fetchConn_waits by (done || by apply Hi).
Qed.

Lemma client_reachable_inv c : client_reachable lower c → client_inv c.
Proof.
  induction 1 as [|c c' _ IH Hs]; [split; [constructor|by intros ???]|]. destruct Hs as [host c|established stream method target headers c|c].
  - by apply Connect_inv.
  - by apply Client_Fetch_inv.
  - by destruct IH.
Qed.

(** A client that only uses itself never gets a request through: [Connect] does not
    call the [Connect] of the connection, so that [Fetch] waits for settings that
    nobody reads. When the URL has no port it also makes a new connection each time,
    since connections are kept under a name with the port. *)
Theorem client_fetch_waits established stream method target headers c u : client_reachable lower c →
  url_Parse target = Ok u → url_Scheme u = "https"%string → ValidatePseudoHeaders headers = Ok tt →
  match Connect (url_Host u) c with (Ok _, _) => True | _ => False end →
  ∃ c', Client_Fetch lower established stream method target headers c = (Err ErrWouldBlock, c') ∧
    (hasColon (url_Host u) = false → length (conns c') = S (length (conns c))).
Proof.
  intros Hinv%client_reachable_inv Hu Hs Hv Hc. unfold Client_Fetch. rewrite bind_unfold. unfold lift. rewrite Hu.
  rewrite decide_False by (by intros ?). rewrite bind_unfold. cbn [getS]. rewrite bind_unfold.
  destruct (Connections c !! url_Host u) as [i|] eqn:Hi.
  - destruct (cli_map c Hinv _ _ Hi) as [Hlt Hcolon]. unfold mret, go_ret. exists c.
    split; [|congruence]. rewrite fetchConn_waits by done. by rewrite Hv.
  - destruct (Connect_inv (url_Host u) c Hinv) as [Hinv' Hi']. destruct (Connect (url_Host u) c) as [[i|e| |] c']; [|done..].
    destruct (Hi' i eq_refl) as [Hlt Hlen]. cbn in Hlt, Hlen, Hinv'. exists c'. split; [|done].
    rewrite fetchConn_waits by done. by rewrite Hv.
Qed.
End client.
