(* ===== verification/Hq.v ===== *)
(** * The command hq (hq/hq.go)

    Its command line, by Go's [flag] and [strconv] of the version the project is built
    with (1.10), its client and its server. What it prints to the standard error is
    left out. *)

From S2P Require Import Prelude Bits GoIo BitWriter BitReader Streams Frame HcInt HuffmanTable Huffman HcString StaticTable Table Codec QpackTable QpackEncoder QpackDecoder Settings Headers Message Connection Push Request Conversation Server Client.

(** A process goes on, exits with a status, or panics. *)
Inductive process (A : Type) :=
| Returns (a : A)
| Exits (status : Z)
| Panics.
Arguments Returns {A}.
Arguments Exits {A}.
Arguments Panics {A}.

Definition process_bind {A B} (p : process A) (k : A → process B) : process B :=
  match p with
  | Returns a => k a
  | Exits n => Exits n
  | Panics => Panics
  end.

(** ** [strconv.ParseUint(s, 0, 64)] *)

(** The value of a digit or a letter. *)
Definition digit_of (b : Z) : option Z :=
  if (48 <=? b) && (b <=? 57) then Some (b - 48)
  else if (97 <=? b) && (b <=? 122) then Some (b - 97 + 10)
  else if (65 <=? b) && (b <=? 90) then Some (b - 65 + 10)
  else None.

(** The loop over the digits; a syntax error and a value out of range are [None]. *)
Fixpoint ParseUint_loop (base n : Z) (bs : list Z) : option Z :=
  match bs with
  | [] => Some n
  | b :: bs' =>
      match digit_of b with
      | None => None
      | Some d =>
          if base <=? d then None
          else if (2 ^ 64 - 1) / base + 1 <=? n then None
          else let n := u64 (n * base) in
               let n1 := u64 (n + d) in
               if n1 <? n then None else ParseUint_loop base n1 bs'
      end
  end.

(** A prefix gives the base. *)
Definition ParseUint (s : string) : option Z :=
  match bytes_of_string s with
  | [] => None
  | 48 :: x :: bs => if (x =? 120) || (x =? 88) then match bs with [] => None | _ => ParseUint_loop 16 0 bs end
                     else ParseUint_loop 8 0 (x :: bs)
  | 48 :: bs => ParseUint_loop 8 0 bs
  | bs => ParseUint_loop 10 0 bs
  end.

(** ** [flag.FlagSet.Parse] *)

Inductive flagValue :=
| FUint64 (v : Z)
| FString (s : string).

(** [Value.Set]. *)
Definition setFlag (v : flagValue) (s : string) : option flagValue :=
  match v with
  | FUint64 _ => FUint64 <$> ParseUint s
  | FString _ => Some (FString s)
  end.

(** What [parseOne] ends with: no more flags, one flag that was set, or an error, which
    makes the process exit with status 2. *)
Inductive flagStep :=
| FlagsEnd (args : list string)
| FlagSet (formal : gmap string flagValue) (args : list string)
| FlagError.

(** The name, up to an equals sign that is not its first byte, and the value after it. *)
Fixpoint splitEquals (bs : list Z) : list Z * option (list Z) :=
  match bs with
  | [] => ([], None)
  | b :: bs' => if b =? 61 then ([], Some bs') else let '(n, v) := splitEquals bs' in (b :: n, v)
  end.

(** A flag without its dashes, with the arguments after it. *)
Definition parseNamed (formal : gmap string flagValue) (name : list Z) (rest : list string) : flagStep :=
  match name with
  | [] => FlagError
  | b :: name' =>
      if (b =? 45) || (b =? 61) then FlagError else
      let '(name', value) := splitEquals name' in
      let name := string_of_bytes (b :: name') in
      match formal !! name with
      | None => FlagError
      | Some v =>
          let set (s : string) (rest : list string) :=
            match setFlag v s with
            | Some v' => FlagSet (<[name := v']> formal) rest
            | None => FlagError
            end in
          match value, rest with
          | Some s, _ => set (string_of_bytes s) rest
          | None, s :: rest' => set s rest'
          | None, [] => FlagError
          end
      end
  end.

Definition parseOne (formal : gmap string flagValue) (args : list string) : flagStep :=
  match args with
  | [] => FlagsEnd []
  | s :: rest =>
      match bytes_of_string s with
      | [45; 45] => FlagsEnd rest
      | 45 :: 45 :: name => parseNamed formal name rest
      | 45 :: b :: name => parseNamed formal (b :: name) rest
      | _ => FlagsEnd args
      end
  end.

Fixpoint parseFlags (fuel : nat) (formal : gmap string flagValue) (args : list string)
  : process (gmap string flagValue * list string) :=
  match fuel with
  | O => Panics
  | S fuel' =>
      match parseOne formal args with
      | FlagsEnd rest => Returns (formal, rest)
      | FlagSet formal' rest => parseFlags fuel' formal' rest
      | FlagError => Exits 2
      end
  end.

(** Each round takes an argument. *)
Definition flag_Parse (formal : gmap string flagValue) (args : list string) := parseFlags (S (length args)) formal args.

Definition uint64Flag (formal : gmap string flagValue) (name : string) : Z :=
  match formal !! name with Some (FUint64 v) => v | _ => 0 end.
Definition stringFlag (formal : gmap string flagValue) (name : string) : string :=
  match formal !! name with Some (FString s) => s | _ => ""%string end.

(** ** The command line *)

Inductive commandArgs :=
| clientArguments (URLs : list string) (File : string)
| serverArguments (Address CertFile KeyFile : string).

(** [commandLine], without what it prints. *)
Record commandLine := CommandLine {
  TableSize : Z;
  ConcurrentDecodersFlag : Z;
  cl_args : commandArgs;
}.

(** Arguments beyond the third are left alone. *)
Definition parseServer (params : list string) : process commandArgs :=
  match params with
  | address :: cert :: key :: _ => Returns (serverArguments address cert key)
  | _ => Exits 2
  end.

Definition parseClient (params : list string) : process commandArgs :=
  match params with
  | [] => Exits 2
  | _ => process_bind (flag_Parse {["d"%string := FString ""]} params) (λ '(formal, urls),
           Returns (clientArguments urls (stringFlag formal "d")))
  end.

Definition parseCommand (positional : list string) : process commandArgs :=
  match positional with
  | [] => Exits 2
  | cmd :: params =>
      if decide (cmd = "server" ∨ cmd = "s")%string then parseServer params
      else if decide (cmd = "client" ∨ cmd = "c")%string then parseClient params
      else Exits 2
  end.

Definition commonFlags : gmap string flagValue := <["t"%string := FUint64 (2 ^ 12)]> {["b"%string := FUint64 100]}.

(** [commandLine.Parse] of [os.Args[1:]]. *)
Definition Parse (args : list string) : process commandLine :=
  process_bind (flag_Parse commonFlags args) (λ '(formal, positional),
  process_bind (parseCommand positional) (λ a,
  Returns (CommandLine (uint64Flag formal "t") (uint64Flag formal "b") a))).

Definition boundsCheck (v limit : Z) : process unit := if limit <? v then Panics else Returns tt.

(** [main], up to the run of the command: the configuration and the arguments. An
    [uint] has 64 bits. *)
Definition main (args : list string) : process (Config * commandArgs) :=
  process_bind (Parse args) (λ c,
  process_bind (boundsCheck (TableSize c) (2 ^ 64 - 1)) (λ _,
  process_bind (boundsCheck (ConcurrentDecodersFlag c) (2 ^ 16 - 1)) (λ _,
  Returns (MkConfig (TableSize c) (ConcurrentDecodersFlag c mod 2 ^ 16) 0 false false, cl_args c)))).

(** ** Copies and files *)

(** [die]: the process exits with status 1, so that nothing after it runs. *)
Definition exitError : goerr := ErrText "exit 1".
Definition die {S A} : go S A := fail exitError.

(** What the reads of a source return until its end, or until an error. *)
Definition source : Type := list (list Z) * option goerr.

(** [os.Open], and the reads of the file. *)
Class HqFiles := { hq_Open : string → outcome source }.

(** [io.Copy]: a write for each read that returned something, until an error. *)
Fixpoint copyChunks {S} (write : list Z → go S (option goerr)) (err : option goerr) (chunks : list (list Z)) : go S (option goerr) :=
  match chunks with
  | [] => mret err
  | [] :: chunks' => copyChunks write err chunks'
  | p :: chunks' =>
      e ← write p;
      match e with
      | Some e => mret (Some e)
      | None => copyChunks write err chunks'
      end
  end.

Definition Copy {S} (write : list Z → go S (option goerr)) (src : source) : go S (option goerr) := copyChunks write src.2 src.1.

(** The bytes of a line. *)
Definition line (s : string) : list Z := bytes_of_string s ++ [10].

(** The header fields of a response of the server. *)
Definition hqHeaders : list HeaderField := [MkHeaderField "Server" "hq" false]%string.

Section hq.
Context `{UrlLib} `{HqFiles} (lower : string → string).

(** [sendFile]; [closing] is the answer to the stream's [Close], which is deferred and
    does not run when the process dies. *)
Definition sendFile {U W} `{IoWriter U} `{IoWriter W} (closing : option goerr) (fname : string) : go (outgoing U W) unit :=
  let close : go (outgoing U W) unit := _ ← catch (Close closing); mret tt in
  if decide (fname ≠ ""%string) then close else
  match hq_Open fname with
  | Ok src =>
      err ← Copy (λ p, '(_, err) ← Write p; mret err) src;
      match err with Some _ => die | None => close end
  | _ => die
  end.

(** ** The client *)

Section client.
Context `{Net} {W : Type} `{IoWriter W}.

(** The client, what was printed, and the goroutines of [sendFile] that were started,
    each with the stream of its request. *)
Record hqClient := HqClient {
  hc_client : Client W;
  hc_stdout : list Z;
  hc_sends : list (bitWriter W * string);
}.

Definition on_client {A} (m : go (Client W) A) : go hqClient A :=
  zoom hc_client (λ c s, HqClient c (hc_stdout s) (hc_sends s)) m.
Definition print (bs : list Z) : go hqClient unit := modS (λ s, HqClient (hc_client s) (hc_stdout s ++ bs) (hc_sends s)).

(** [lib] has the answers of the QUIC library to the requests, and [answer] what comes
    back for them: the wait of [Response], the header list and the body. *)
Context (lib : string → bool * option (Z * W)) (answer : string → outcome (list HeaderField * source)).

(** [runClient] *)
Fixpoint runClient (file : string) (urls : list string) : go hqClient unit :=
  match urls with
  | [] => on_client Client_Close
  | url :: urls' =>
      r ← catch (on_client (Client_Fetch lower (lib url).1 (lib url).2 "GET" url []));
      match r with
      | inr ErrWouldBlock => fail ErrWouldBlock
      | inr _ => die
      | inl (_, w) =>
          modS (λ s, HqClient (hc_client s) (hc_stdout s) (hc_sends s ++ [(w, file)]));;
          '(headers, body) ← lift (answer url);
          print (line (headerFieldArray_String headers));;
          print (line "[[[");;
          err ← Copy (λ p, print p;; mret None) body;
          match err with
          | Some _ => die
          | None => print (line "]]]");; runClient file urls'
          end
      end
  end.
End client.

(** ** The server *)

(** [runServer] before its loop: the server that [Listen] makes, or the end. Nobody sends
    to its channel of connections, which is nil, so the goroutine that receives from it
    waits for ever. *)
Definition runServer_start `{TlsLib} `{ListenNet} (address cert key : string) : go (list string) (string * TlsConfig) :=
  r ← catch (Listen address cert key);
  match r with
  | inl server => mret server
  | inr _ => die
  end.

(** [fmt.Fprintf] without operands: [formatted] is what it makes of a format with verbs,
    for which operands are missing. *)
Definition hasVerb (s : string) : bool := existsb (Z.eqb 37) (bytes_of_string s).
Definition Sprintf (formatted : string → string) (s : string) : string := if hasVerb s then formatted s else s.

Section server.
Context {W : Type} `{IoWriter W} (formatted : string → string).

(** A request that is answered: its connection and the stream of the response, what was
    printed, and whether the connection was closed. *)
Record answering := Answering {
  an_stream : connection W * bitWriter W;
  an_stdout : list Z;
  an_closed : bool;
}.

Definition on_response {A} (m : go (connection W * bitWriter W) A) : go answering A :=
  zoom an_stream (λ x s, Answering x (an_stdout s) (an_closed s)) m.

(** [req.C.Close()] *)
Definition closeConnection : go answering unit := modS (λ s, Answering (an_stream s) (an_stdout s) true).

(** A write of [io.MultiWriter(os.Stdout, resp)]; the standard output takes everything. *)
Definition multiWrite (p : list Z) : go answering (option goerr) :=
  modS (λ s, Answering (an_stream s) (an_stdout s ++ p) (an_closed s));;
  '(n, err) ← on_response (on_outgoing (Write p));
  match err with
  | Some e => mret (Some e)
  | None => mret (if n =? zlen p then None else Some ErrShortWrite)
  end.

(** One round of the loop of [runServer]: [text] is the [String] of the request, [body]
    what is read from it, and [closing] the answer to the stream's [Close]. *)
Definition serveOne (closing : option goerr) (id : Z) (text : string) (body : source) : go answering unit :=
  r ← catch (on_response (Respond lower id 200 hqHeaders));
  match r with
  | inr ErrWouldBlock => fail ErrWouldBlock
  | inr _ => closeConnection
  | inl _ =>
      _ ← multiWrite (bytes_of_string (Sprintf formatted text));
      _ ← multiWrite (line "");
      _ ← multiWrite (line "[[[");
      err ← Copy multiWrite body;
      match err with
      | Some _ => closeConnection
      | None =>
          _ ← multiWrite (line "]]]");
          r ← catch (on_response (on_outgoing (Close closing)));
          match r with inr _ => closeConnection | inl _ => mret tt end
      end
  end.
End server.
End hq.
