(* ===== verification/HqSpec.v ===== *)
(** * The command hq: what its parts do

    Numbers and flags are read back as they are spelled, whatever the spelling; an
    answer of the server is the message with the request's text and body in it. *)

From stdpp Require Import pretty.
From S2P Require Import Prelude Bits GoIo BitWriter BitReader Streams Frame HcInt HuffmanTable Huffman HcString StaticTable Table Codec QpackTable QpackEncoder QpackDecoder QpackEncoderSpec Settings Headers Message MessageSpec MessageLink QpackDecoderSpec QpackReach QpackLink QpackAck Connection Push PushSpec PushStream Request RequestSpec Conversation ConversationSpec Client ClientProps Hq.

(** ** Numbers *)

Lemma digit_of_digit b : 48 ≤ b ≤ 57 → digit_of b = Some (b - 48).
Proof. intros Hb. unfold digit_of. by rewrite !(proj2 (Z.leb_le _ _)) by lia. Qed.

Definition digits_from (n : Z) (ds : list Z) : Z := foldl (λ n b, 10 * n + (b - 48)) n ds.

Lemma digits_from_grows n ds : 0 ≤ n → Forall (λ b, 48 ≤ b ≤ 57) ds → n ≤ digits_from n ds.
Proof.
  intros Hn Hds. revert n Hn. induction Hds as [|b ds Hb _ IH]; intros n Hn; [done|].
  change (n ≤ digits_from (10 * n + (b - 48)) ds). specialize (IH (10 * n + (b - 48)) ltac:(lia)). lia.
Qed.

Lemma ParseUint_loop_digits n ds : 0 ≤ n → Forall (λ b, 48 ≤ b ≤ 57) ds → digits_from n ds < 2 ^ 64 →
  ParseUint_loop 10 n ds = Some (digits_from n ds).
Proof.
  intros Hn Hds. revert n Hn. induction Hds as [|b ds Hb Hds IH]; intros n Hn Hmax; [done|].
  change (digits_from n (b :: ds)) with (digits_from (10 * n + (b - 48)) ds) in *.
  pose proof (digits_from_grows (10 * n + (b - 48)) ds ltac:(lia) Hds) as Hgrow.
  cbn [ParseUint_loop]. rewrite digit_of_digit by done. rewrite (proj2 (Z.leb_gt _ _)) by lia.
  change ((2 ^ 64 - 1) / 10 + 1) with 1844674407370955162. rewrite (proj2 (Z.leb_gt _ _)) by lia.
  unfold u64. rewrite (Z.mod_small (n * 10)) by lia. rewrite Z.mod_small by lia. rewrite (proj2 (Z.ltb_ge _ _)) by lia.
  replace (n * 10 + (b - 48)) with (10 * n + (b - 48)) by lia. by apply IH; [lia|].
Qed.

Lemma ParseUint_Itoa n : 0 ≤ n < 2 ^ 64 → ParseUint (Itoa n) = Some n.
Proof.
  intros Hn. destruct n as [|x|x]; [done| |lia].
  destruct (pretty_N_digits (N.pos x) "") as (ds & Hds & Hd & Hv & Hlead). rewrite app_nil_r in Hds.
  rewrite decide_False in Hlead by done. destruct Hlead as (d & ds' & -> & Hne).
  unfold ParseUint. change (Itoa (Z.pos x)) with (pretty_N_go (N.pos x) ""). rewrite Hds.
  assert (ParseUint_loop 10 0 (d :: ds') = Some (Z.pos x)) as Hloop.
  { change (Z.pos x) with (Z.of_N (N.pos x)). rewrite <- Hv. apply (ParseUint_loop_digits 0); [done|done|].
    change (digits_from 0 (d :: ds')) with (digits_value (d :: ds')). rewrite Hv. apply Hn. }
  apply Forall_cons in Hd as [Hd _].
  assert (d = 49 ∨ d = 50 ∨ d = 51 ∨ d = 52 ∨ d = 53 ∨ d = 54 ∨ d = 55 ∨ d = 56 ∨ d = 57) as Hc by lia.
  by destruct Hc as [->|[->|[->|[->|[->|[->|[->|[->| ->]]]]]]]].
Qed.

Lemma ParseUint_loop_range base n bs v : 0 ≤ n < 2 ^ 64 → ParseUint_loop base n bs = Some v → 0 ≤ v < 2 ^ 64.
Proof.
  revert n. induction bs as [|b bs IH]; intros n Hn; cbn [ParseUint_loop]; [by intros [= <-]|].
  destruct (digit_of b) as [d|]; [|done]. destruct (base <=? d); [done|]. destruct (_ <=? n); [done|].
  destruct (_ <? _); [done|]. apply IH. unfold u64. by apply Z.mod_pos_bound.
Qed.

Lemma ParseUint_range s v : ParseUint s = Some v → 0 ≤ v < 2 ^ 64.
Proof. unfold ParseUint. intros Hs. repeat case_match; try done; by eapply ParseUint_loop_range. Qed.

(** ** Flags *)

(** A flag is spelled with one dash or two, and its value is the next argument or comes
    after an equals sign. *)
Record spelling := Spelling { sp_double : bool; sp_equals : bool }.

Definition spell (sp : spelling) (name value : string) : list string :=
  let dashes := if sp_double sp then "--"%string else "-"%string in
  if sp_equals sp then [dashes +:+ (name +:+ ("=" +:+ value))]%string else [dashes +:+ name; value]%string.

Lemma parseOne_spell formal sp name v v' value rest : name ∈ ["t"; "b"; "d"]%string → formal !! name = Some v →
  setFlag v value = Some v' → parseOne formal (spell sp name value ++ rest) = FlagSet (<[name := v']> formal) rest.
Proof.
  intros Hname Hv Hset. assert (string_of_bytes (bytes_of_string value) = value) as Hvalue by apply string_of_bytes_of_string.
  assert (∀ b, string_of_bytes [b] = name → b = 116 ∨ b = 98 ∨ b = 100 →
    parseNamed formal (b :: 61 :: bytes_of_string value) rest = FlagSet (<[name := v']> formal) rest ∧
    parseNamed formal [b] (value :: rest) = FlagSet (<[name := v']> formal) rest) as Hparse.
  { intros b Hb [->|[->| ->]]; unfold parseNamed; cbn [splitEquals Z.eqb Pos.eqb orb]; rewrite Hb, Hv, ?Hvalue, Hset; done. }
  repeat (apply elem_of_cons in Hname as [->|Hname]); try by apply elem_of_nil in Hname.
  all: destruct sp as [[] []]; first
    [ exact (proj1 (Hparse 116 eq_refl (or_introl eq_refl))) | exact (proj2 (Hparse 116 eq_refl (or_introl eq_refl)))
    | exact (proj1 (Hparse 98 eq_refl (or_intror (or_introl eq_refl)))) | exact (proj2 (Hparse 98 eq_refl (or_intror (or_introl eq_refl))))
    | exact (proj1 (Hparse 100 eq_refl (or_intror (or_intror eq_refl)))) | exact (proj2 (Hparse 100 eq_refl (or_intror (or_intror eq_refl)))) ].
Qed.

(** The options in front of the command. *)
Inductive hqOption :=
| TableOption (n : Z)
| BlockedOption (n : Z).

Definition optionText (o : spelling * hqOption) : list string :=
  match o.2 with
  | TableOption n => spell o.1 "t" (Itoa n)
  | BlockedOption n => spell o.1 "b" (Itoa n)
  end.

Definition option_ok (o : spelling * hqOption) : Prop :=
  match o.2 with
  | TableOption n => 0 ≤ n < 2 ^ 64
  | BlockedOption n => 0 ≤ n < 2 ^ 64
  end.

(** Later options replace earlier ones. *)
Definition applyOption (c : Z * Z) (o : spelling * hqOption) : Z * Z :=
  match o.2 with
  | TableOption n => (n, c.2)
  | BlockedOption n => (c.1, n)
  end.

Definition optionsOf (opts : list (spelling * hqOption)) : Z * Z := foldl applyOption (2 ^ 12, 100) opts.

Definition formal_has (c : Z * Z) (formal : gmap string flagValue) : Prop :=
  formal !! "t"%string = Some (FUint64 c.1) ∧ formal !! "b"%string = Some (FUint64 c.2).

Lemma parseFlags_options opts c formal fuel rest rest' : Forall option_ok opts → formal_has c formal →
  (length opts < fuel)%nat → (∀ f, parseOne f rest = FlagsEnd rest') →
  ∃ formal', parseFlags fuel formal (mjoin (optionText <$> opts) ++ rest) = Returns (formal', rest') ∧
    formal_has (foldl applyOption c opts) formal'.
Proof.
  intros Hopts. revert c formal fuel. induction Hopts as [|[sp o] opts Ho _ IH]; intros c formal fuel [Ht Hb] Hfuel Hend;
    (destruct fuel as [|fuel]; [cbn in Hfuel; lia|]).
  - exists formal. cbn. by rewrite Hend.
  - assert (∃ formal', parseOne formal (optionText (sp, o) ++ (mjoin (optionText <$> opts) ++ rest)) =
        FlagSet formal' (mjoin (optionText <$> opts) ++ rest) ∧ formal_has (applyOption c (sp, o)) formal') as (formal' & Hone & Hf).
    { destruct o as [n|n]; cbn [option_ok snd optionText applyOption fst] in *; eexists; (split;
        [eapply parseOne_spell; [repeat constructor|by first [exact Ht|exact Hb]|by cbn; rewrite ParseUint_Itoa]|]);
        split; by rewrite ?lookup_insert_eq, ?lookup_insert_ne. }
    destruct (IH (applyOption c (sp, o)) formal' fuel Hf) as (f' & Hrun & Hf'); [cbn in Hfuel; lia|done|].
    exists f'. split; [|done]. change (mjoin (optionText <$> (sp, o) :: opts)) with (optionText (sp, o) ++ mjoin (optionText <$> opts)).
    rewrite <- (assoc_L (++)). cbn [parseFlags]. by rewrite Hone.
Qed.

(** An argument that is not a flag. *)
Definition positional (s : string) : Prop := ∀ b bs, bytes_of_string s ≠ 45 :: b :: bs.

Lemma parseOne_positional formal s rest : positional s → parseOne formal (s :: rest) = FlagsEnd (s :: rest).
Proof.
  intros Hs. unfold parseOne. destruct (bytes_of_string s) as [|b [|b' bs]] eqn:Hb; [done|by repeat case_match|].
  destruct (decide (b = 45)) as [->|Hne]; [by destruct (Hs b' bs)|]. by repeat case_match.
Qed.

Lemma parseOne_end formal rest : parseOne formal ("--"%string :: rest) = FlagsEnd rest.
Proof. done. Qed.

Lemma parseOne_positionals formal rest : match rest with [] => True | s :: _ => positional s end → parseOne formal rest = FlagsEnd rest.
Proof. destruct rest; [done|]. apply parseOne_positional. Qed.

Lemma positional_command s : s ∈ ["client"; "c"; "server"; "s"]%string → positional s.
Proof. intros Hs. by repeat (apply elem_of_cons in Hs as [->|Hs]); [..|apply elem_of_nil in Hs]. Qed.

(** A command and its arguments: the word in full or its first letter; the flag -d of
    the client; and two dashes where an URL looks like a flag. *)
Inductive hqCommand :=
| ClientCommand (short : bool) (file : option (spelling * string)) (dashes : bool) (urls : list string)
| ServerCommand (short : bool) (address cert key : string) (more : list string).

Definition commandText (c : hqCommand) : list string :=
  match c with
  | ClientCommand short file dashes urls =>
      (if short then "c"%string else "client"%string) ::
      (match file with Some (sp, name) => spell sp "d" name | None => [] end) ++
      (if dashes then ["--"%string] else []) ++ urls
  | ServerCommand short address cert key more => (if short then "s"%string else "server"%string) :: address :: cert :: key :: more
  end.

Definition command_ok (c : hqCommand) : Prop :=
  match c with
  | ClientCommand _ file dashes urls => urls ≠ [] ∧ (dashes = true ∨ match urls with [] => True | u :: _ => positional u end)
  | ServerCommand _ _ _ _ _ => True
  end.

Definition commandOf (c : hqCommand) : commandArgs :=
  match c with
  | ClientCommand _ file _ urls => clientArguments urls (match file with Some (_, name) => name | None => "" end)
  | ServerCommand _ address cert key _ => serverArguments address cert key
  end.

Lemma parseClient_text file dashes urls : urls ≠ [] → (dashes = true ∨ match urls with [] => True | u :: _ => positional u end) →
  parseClient ((match file with Some (sp, name) => spell sp "d" name | None => [] end) ++ (if dashes : bool then ["--"%string] else []) ++ urls) =
    Returns (clientArguments urls (match file with Some (_, name) => name | None => "" end)).
Proof.
  intros Hne Hpos. set (rest := (if dashes : bool then ["--"%string] else []) ++ urls).
  assert (∀ f, parseOne f rest = FlagsEnd urls) as Hrest.
  { intros f. unfold rest. destruct dashes; [done|]. apply parseOne_positionals. by destruct Hpos. }
  assert (rest ≠ []) as Hrne by (unfold rest; by destruct dashes).
  assert (∀ params r, params ≠ [] → flag_Parse {["d"%string := FString ""]} params = r → parseClient params =
    process_bind r (λ '(formal, urls), Returns (clientArguments urls (stringFlag formal "d")))) as Hclient by by intros [] r ? <-.
  destruct file as [[sp name]|].
  - set (formal := <["d"%string := FString name]> {["d"%string := FString ""]} : gmap string flagValue).
    rewrite (Hclient _ (Returns (formal, urls))); [| |].
    + cbn [process_bind]. unfold stringFlag, formal. by rewrite lookup_insert_eq.
    + by destruct sp as [? []].
    + unfold flag_Parse. assert (∃ n, S (length (spell sp "d" name ++ rest)) = S (S n)) as [n ->].
      { rewrite length_app. destruct sp as [? []]; cbn; by eexists. }
      cbn [parseFlags]. rewrite (parseOne_spell _ sp "d" (FString "") (FString name) name rest); [|by repeat constructor|done|done].
      by rewrite Hrest.
  - cbn [app]. rewrite (Hclient rest (Returns ({["d"%string := FString ""]}, urls))); [done|done|].
    unfold flag_Parse. cbn [parseFlags]. by rewrite Hrest.
Qed.

Lemma parseCommand_text c : command_ok c → parseCommand (commandText c) = Returns (commandOf c).
Proof.
  intros Hc. destruct c as [short file dashes urls|short address cert key more]; cbn [commandText parseCommand commandOf].
  - destruct Hc as [Hne Hpos]. rewrite decide_False by (by destruct short; intros [?|?]). rewrite decide_True by (destruct short; tauto).
    by apply parseClient_text.
  - rewrite decide_True by (destruct short; tauto). done.
Qed.

Lemma commonFlags_has : formal_has (2 ^ 12, 100) commonFlags.
Proof. by split. Qed.

Lemma Parse_text opts c : Forall option_ok opts → command_ok c →
  Parse (mjoin (optionText <$> opts) ++ commandText c) = Returns (CommandLine (optionsOf opts).1 (optionsOf opts).2 (commandOf c)).
Proof.
  intros Hopts Hc. unfold Parse, flag_Parse.
  destruct (parseFlags_options opts (2 ^ 12, 100) commonFlags (S (length (mjoin (optionText <$> opts) ++ commandText c)))
    (commandText c) (commandText c)) as (formal & -> & Ht & Hb); [done|apply commonFlags_has| | |].
  - rewrite length_app. enough (length opts ≤ length (mjoin (optionText <$> opts)))%nat by lia.
    clear. induction opts as [|o opts IH]; [done|].
    change (mjoin (optionText <$> o :: opts)) with (optionText o ++ mjoin (optionText <$> opts)). rewrite length_app. cbn [length].
    assert (1 ≤ length (optionText o))%nat by (destruct o as [[? []] []]; cbn; lia). lia.
  - intros f. destruct c as [short ? ? ?|short ? ? ? ?]; apply parseOne_positional, positional_command; destruct short; by repeat constructor.
  - cbn [process_bind]. rewrite parseCommand_text by done. cbn [process_bind]. unfold uint64Flag. by rewrite Ht, Hb.
Qed.

(** ** Any arguments *)

Definition in_range (formal : gmap string flagValue) : Prop := ∀ name v, formal !! name = Some (FUint64 v) → 0 ≤ v < 2 ^ 64.

Lemma parseNamed_range formal name rest : in_range formal →
  match parseNamed formal name rest with
  | FlagSet formal' rest' => in_range formal' ∧ (length rest' ≤ length rest)%nat
  | FlagsEnd _ => False
  | FlagError => True
  end.
Proof.
  intros Hr. assert (∀ key v s rest', formal !! key = Some v → (length rest' ≤ length rest)%nat →
    match (match setFlag v s with Some v' => FlagSet (<[key := v']> formal) rest' | None => FlagError end) with
    | FlagSet formal' rest' => in_range formal' ∧ (length rest' ≤ length rest)%nat | FlagsEnd _ => False | FlagError => True end) as Hset.
  { intros key v s rest' Hk Hlen. destruct (setFlag v s) as [v'|] eqn:Hv; [|done]. split; [|done].
    intros key' n [[<- Hn]|[_ Hn]]%lookup_insert_Some; [|by eapply Hr]. subst v'.
    destruct v; cbn in Hv; [|done]. destruct (ParseUint s) eqn:Hs; [|done]. injection Hv as <-. by eapply ParseUint_range. }
  unfold parseNamed. destruct name as [|b name]; [done|]. destruct (_ || _); [done|]. destruct (splitEquals name) as [name' value].
  destruct (formal !! _) as [v|] eqn:Hv; [|done]. destruct value as [s|]; [by apply Hset|].
  destruct rest as [|s rest]; [done|]. apply Hset; [done|cbn; lia].
Qed.

Lemma parseOne_range formal args : in_range formal →
  match parseOne formal args with
  | FlagSet formal' rest => in_range formal' ∧ (length rest < length args)%nat
  | FlagsEnd _ | FlagError => True
  end.
Proof.
  intros Hr. destruct args as [|s rest]; [done|]. cbn [parseOne length].
  assert (∀ name, match parseNamed formal name rest with
    | FlagSet formal' rest' => in_range formal' ∧ (length rest' < S (length rest))%nat | FlagsEnd _ | FlagError => True end) as Hn.
  { intros name. pose proof (parseNamed_range formal name rest Hr) as Hp. destruct (parseNamed _ _ _); try done. split; [apply Hp|lia]. }
  repeat case_match; try done; match goal with H : parseNamed _ ?n _ = _ |- _ => specialize (Hn n); by rewrite H in Hn end.
Qed.

(** The loop ends within its fuel, and numbers are within 64 bits. *)
Lemma parseFlags_range fuel formal args : in_range formal → (length args < fuel)%nat →
  match parseFlags fuel formal args with
  | Returns (formal', _) => in_range formal'
  | Exits n => n = 2
  | Panics => False
  end.
Proof.
  revert formal args. induction fuel as [|fuel IH]; intros formal args Hr Hlen; [lia|]. cbn [parseFlags].
  pose proof (parseOne_range formal args Hr) as Hone. destruct (parseOne formal args) as [rest|formal' rest|]; [done| |done].
  destruct Hone as [Hr' Hlen']. apply IH; [done|lia].
Qed.

Lemma flag_Parse_range formal args : in_range formal →
  match flag_Parse formal args with Returns (formal', _) => in_range formal' | Exits n => n = 2 | Panics => False end.
Proof. intros Hr. apply parseFlags_range; [done|lia]. Qed.

Lemma uint64Flag_range formal name : in_range formal → 0 ≤ uint64Flag formal name < 2 ^ 64.
Proof. intros Hr. unfold uint64Flag. destruct (formal !! name) as [[]|] eqn:Hn; [by eapply Hr|done..]. Qed.

Lemma parseCommand_exits params : match parseCommand params with Returns _ => True | Exits n => n = 2 | Panics => False end.
Proof.
  unfold parseCommand, parseServer, parseClient. destruct params as [|cmd params]; [done|].
  destruct (decide _); [by destruct params as [|? [|? [|? ?]]]|]. destruct (decide _); [|done].
  destruct params as [|p params]; [done|]. pose proof (flag_Parse_range {["d"%string := FString ""]} (p :: params)) as Hp.
  destruct (flag_Parse _ _) as [[formal urls]|k|]; cbn; [done|apply Hp|apply Hp];
    intros key v [<- [=]]%lookup_singleton_Some.
Qed.

Lemma Parse_range args :
  match Parse args with
  | Returns c => 0 ≤ TableSize c < 2 ^ 64 ∧ 0 ≤ ConcurrentDecodersFlag c < 2 ^ 64
  | Exits n => n = 2
  | Panics => False
  end.
Proof.
  unfold Parse. pose proof (flag_Parse_range commonFlags args) as Hp.
  assert (in_range commonFlags) as Hr.
  { intros key v. unfold commonFlags. intros [[<- [= <-]]|[_ [<- [= <-]]%lookup_singleton_Some]]%lookup_insert_Some; done. }
  specialize (Hp Hr). destruct (flag_Parse commonFlags args) as [[formal params]|n|]; [|done..]. cbn [process_bind].
  pose proof (parseCommand_exits params) as Hc. destruct (parseCommand params); [|done..]. cbn.
  by split; apply uint64Flag_range.
Qed.

(** ** The client *)

Section client.
Context `{UrlLib} `{HqFiles} `{Net} (lower : string → string) {W : Type} `{IoWriter W}.

(** A client whose connections were never connected gets no request. *)
Lemma Client_Fetch_never established stream method target headers (c : Client W) : client_inv c →
  ∀ r, (Client_Fetch lower established stream method target headers c).1 ≠ Ok r.
Proof.
  intros Hinv r. unfold Client_Fetch. rewrite bind_unfold. unfold lift. destruct (url_Parse target) as [u|e| |]; [|done..].
  destruct (decide _); [done|]. rewrite bind_unfold. cbn [getS]. rewrite bind_unfold.
  assert (∀ i c', client_inv c' → (i < length (conns c'))%nat → (fetchConn lower i established stream method target headers c').1 ≠ Ok r) as Hfetch.
  { intros i c' Hc Hi. rewrite fetchConn_waits by done. cbn. by destruct (ValidatePseudoHeaders headers). }
  destruct (Connections c !! url_Host u) as [i|] eqn:Hu.
  - unfold mret, go_ret. apply Hfetch; [done|]. by eapply cli_map.
  - destruct (Connect_inv (url_Host u) c Hinv) as [Hinv' Hi]. destruct (Connect (url_Host u) c) as [[i|e| |] c']; [|done..].
    apply Hfetch; [done|by apply Hi].
Qed.

Lemma runClient_stuck lib answer file url urls (c : Client W) out sends : client_inv c →
  ∃ o c', runClient lower lib answer file (url :: urls) (HqClient c out sends) = (o, HqClient c' out sends) ∧ o ≠ Ok tt ∧
    ((Client_Fetch lower (lib url).1 (lib url).2 "GET" url [] c).1 = Err ErrWouldBlock → o = Err ErrWouldBlock).
Proof.
  intros Hc. pose proof (Client_Fetch_never (lib url).1 (lib url).2 "GET" url [] c Hc) as Hnever. cbn [runClient].
  rewrite bind_unfold. unfold catch, on_client, zoom. cbn [hc_client hc_stdout hc_sends].
  destruct (Client_Fetch lower _ _ "GET" url [] c) as [[r|e| |] c']; [by destruct (Hnever r)| |by eexists _, _..].
  destruct (decide (e = ErrWouldBlock)) as [->|Hne]; [by eexists _, _|].
  exists (Err exitError), c'. split_and!; [by destruct e|done|]. by intros [= ->].
Qed.
End client.

(** ** Bodies from files *)

Section files.
Context `{HqFiles} {U W : Type} `{IoWriter U} `{IoWriter W}.

Lemma sendFile_run closing fname (s : outgoing U W) e : hq_Open "" = Err e →
  sendFile closing fname s =
    if decide (fname = ""%string) then (Err exitError, s)
    else (Ok tt, Outgoing (og_encoder s) (og_updates s) (og_stream s) true).
Proof.
  intros Hopen. unfold sendFile. destruct (decide (fname = ""%string)) as [->|Hne].
  - rewrite decide_False by tauto. by rewrite Hopen.
  - rewrite decide_True by done. by destruct closing.
Qed.
End files.

(** ** The server *)

(** The chunks of an answer: one for each write. *)
Definition echo (text : string) (chunks : list (list Z)) : list (list Z) :=
  [bytes_of_string text; line ""; line "[[["] ++ filter (λ p, p ≠ []) chunks ++ [line "]]]"].

Lemma chunk_ok_string s : slen s < 2 ^ 62 → chunk_ok (bytes_of_string s).
Proof. intros Hs. split; [apply bytes_of_string_bytes|done]. Qed.

Lemma echo_ok text chunks : slen text < 2 ^ 62 → Forall chunk_ok chunks → Forall chunk_ok (echo text chunks).
Proof.
  intros Ht Hc. unfold echo. assert (∀ s, bytes_of_string s ++ [10] = bytes_of_string (s +:+ String (Ascii.ascii_of_nat 10) "")) as Hline
    by (intros s; by rewrite bytes_of_string_app). unfold line. rewrite !Hline. cbn [app].
  repeat (apply Forall_cons; split; [by apply chunk_ok_string|]). apply Forall_app. split; [rewrite Forall_forall in *; by intros p [_ ?%Hc]%list_elem_of_filter|].
  by apply Forall_singleton, chunk_ok_string.
Qed.

Lemma Write_run p (s : outgoing Buffer Buffer) : chunk_ok p → at_byte (og_stream s) →
  ∃ w, Write p s = (Ok (zlen p, None), Outgoing (og_encoder s) (og_updates s) w (og_closed s)) ∧ at_byte w.
Proof.
  intros [Hp Hlen] Hat. destruct (sendFrame_bytes frameData p s ltac:(done) Hp Hlen Hat) as (w & bs & Hr & Hw & _).
  exists w. split; [|done]. unfold Write. by rewrite (bind_Ok _ _ _ _ _ Hr).
Qed.

Lemma writeBody_app a b (s : outgoing Buffer Buffer) : writeBody (a ++ b) s = (writeBody a;; writeBody b) s.
Proof.
  revert s. induction a as [|p a IH]; intros s; [done|]. cbn [app writeBody foldr].
  change (foldr (λ (p : list Z) (k : go (outgoing Buffer Buffer) unit), _ ← Write p; k) (mret tt) (a ++ b)) with (writeBody (U := Buffer) (a ++ b)).
  change (foldr (λ (p : list Z) (k : go (outgoing Buffer Buffer) unit), _ ← Write p; k) (mret tt) a) with (writeBody (U := Buffer) a).
  rewrite bind_assoc, !bind_unfold. destruct (Write p s) as [[] s']; first [apply IH|done].
Qed.

Lemma copyChunks_filter {S} (write : list Z → go S (option goerr)) err chunks s :
  copyChunks write err chunks s = copyChunks write err (filter (λ p, p ≠ []) chunks) s.
Proof.
  revert s. induction chunks as [|[|b p] chunks IH]; intros s; [done| |].
  { rewrite filter_cons_False by tauto. apply IH. }
  rewrite filter_cons_True by done. cbn [copyChunks]. rewrite !bind_unfold. destruct (write (b :: p) s) as [[[e|]|e| |] s']; first [apply IH|done].
Qed.

Section server.
Context `{UrlLib} (lower formatted : string → string).
Implicit Types (c : connection Buffer).

Definition body_from c (w : bitWriter Buffer) : outgoing Buffer Buffer := Outgoing (c_encoder c) (c_updates c) w false.

Lemma multiWrite_run p c w out b : chunk_ok p → at_byte w →
  ∃ w', Write p (body_from c w) = (Ok (zlen p, None), body_from c w') ∧ at_byte w' ∧
    multiWrite p (Answering (c, w) out b) = (Ok None, Answering (c, w') (out ++ p) b).
Proof.
  intros Hp Hw. destruct (Write_run p (body_from c w) Hp Hw) as (w' & Hr & Hw'). exists w'. split_and!; [exact Hr|done|].
  unfold multiWrite. rewrite bind_unfold. cbn [modS an_stream an_stdout an_closed]. rewrite bind_unfold.
  unfold on_response, on_outgoing, zoom. cbn [an_stream an_stdout an_closed fst snd]. fold (body_from c w). rewrite Hr.
  cbn [og_updates og_encoder og_stream body_from fst snd]. rewrite Z.eqb_refl. by destruct c.
Qed.

Lemma multiWrites_run ps c w out b : Forall chunk_ok ps → Forall (λ p, p ≠ []) ps → at_byte w →
  ∃ w', writeBody ps (body_from c w) = (Ok tt, body_from c w') ∧ at_byte w' ∧
    copyChunks multiWrite None ps (Answering (c, w) out b) = (Ok None, Answering (c, w') (out ++ mjoin ps) b).
Proof.
  intros Hps. revert w out. induction Hps as [|p ps Hp _ IH]; intros w out Hne Hw.
  - exists w. cbn. by rewrite app_nil_r.
  - apply Forall_cons in Hne as [Hnp Hne]. destruct (multiWrite_run p c w out b Hp Hw) as (w1 & Hr1 & Hw1 & Hm1).
    destruct (IH w1 (out ++ p) Hne Hw1) as (w2 & Hr2 & Hw2 & Hm2). exists w2. split_and!; [|done|].
    + cbn [writeBody foldr]. by rewrite (bind_Ok _ _ _ _ _ Hr1).
    + destruct p as [|x p]; [done|]. cbn [copyChunks]. rewrite (bind_Ok _ _ _ _ _ Hm1), Hm2. cbn. by rewrite <- !(assoc_L (++)).
Qed.

Lemma serveOne_runs id c w r c1 w1 text chunks out b :
  Respond lower id 200 hqHeaders (c, w) = (Ok r, (c1, w1)) → at_byte w1 → hasVerb text = false → Forall chunk_ok (echo text chunks) →
  ∃ w2, finishMessage lower id (echo text chunks) (c1, w1) = (Ok tt, (c1, w2)) ∧
    serveOne lower formatted None id text (chunks, None) (Answering (c, w) out b) =
      (Ok tt, Answering (c1, w2) (out ++ mjoin (echo text chunks)) b).
Proof.
  intros Hr Hw1 Hverb Hok. unfold echo in Hok. cbn [app] in Hok.
  apply Forall_cons in Hok as [Ht Hok]. apply Forall_cons in Hok as [Hn Hok]. apply Forall_cons in Hok as [Ho Hok].
  apply Forall_app in Hok as [Hc Hend]. apply Forall_cons in Hend as [Hend _].
  destruct (multiWrite_run _ c1 w1 out b Ht Hw1) as (u1 & Hb1 & Hu1 & Hm1).
  destruct (multiWrite_run _ c1 u1 (out ++ bytes_of_string text) b Hn Hu1) as (u2 & Hb2 & Hu2 & Hm2).
  destruct (multiWrite_run _ c1 u2 ((out ++ bytes_of_string text) ++ line "") b Ho Hu2) as (u3 & Hb3 & Hu3 & Hm3).
  destruct (multiWrites_run _ c1 u3 (((out ++ bytes_of_string text) ++ line "") ++ line "[[[") b Hc) as (u4 & Hb4 & Hu4 & Hm4);
    [apply Forall_forall; by intros p [? _]%list_elem_of_filter|done|].
  destruct (multiWrite_run _ c1 u4 ((((out ++ bytes_of_string text) ++ line "") ++ line "[[[") ++ mjoin (filter (λ p, p ≠ []) chunks)) b Hend Hu4)
    as (u5 & Hb5 & Hu5 & Hm5).
  exists u5. split.
  - unfold finishMessage, on_outgoing, zoom. cbn [fst snd]. fold (body_from c1 w1). rewrite bind_unfold.
    assert (writeBody (echo text chunks) (body_from c1 w1) = (Ok tt, body_from c1 u5)) as ->.
    { unfold echo. cbn [app writeBody foldr]. rewrite (bind_Ok _ _ _ _ _ Hb1), (bind_Ok _ _ _ _ _ Hb2), (bind_Ok _ _ _ _ _ Hb3).
      match goal with |- foldr ?f ?x ?l ?s = _ => change (writeBody (U := Buffer) l s = (Ok tt, body_from c1 u5)) end.
      rewrite writeBody_app, (bind_Ok _ _ _ _ _ Hb4). cbn [writeBody foldr]. by rewrite (bind_Ok _ _ _ _ _ Hb5). }
    cbn. by destruct c1.
  - unfold serveOne. rewrite bind_unfold. unfold catch at 1, on_response at 1, zoom. cbn [an_stream an_stdout an_closed]. rewrite Hr.
    unfold Sprintf. rewrite Hverb. rewrite (bind_Ok _ _ _ _ _ Hm1), (bind_Ok _ _ _ _ _ Hm2), (bind_Ok _ _ _ _ _ Hm3).
    unfold Copy. cbn [fst snd]. rewrite bind_unfold, copyChunks_filter, Hm4, (bind_Ok _ _ _ _ _ Hm5).
    rewrite bind_unfold. unfold catch, on_response, on_outgoing, zoom. cbn [an_stream an_stdout an_closed fst snd].
    unfold echo. rewrite !join_app. cbn -[line]. rewrite !app_nil_r, <- !(assoc_L (++)). by destruct c1.
Qed.
End server.

(** ** An exchange with the server *)

Section exchange.
Context `{UrlLib} (lower formatted : string → string) (bufSize : Z).

(** [serveOne] on the stream of the request: the bytes it sends and what it prints. *)
Definition hqRespondOn (id : Z) (text : string) (chunks : list (list Z)) : go (ServerConnection Buffer) (list Z * list Z) :=
  zoom (λ c, Answering (sc_connection c, NewBitWriter (MkBuffer [])) [] false) (λ x c, set_connection (an_stream x).1 c)
    (serveOne lower formatted None id text (chunks, None);;
     x ← getS;
     mret (buf_bytes (bw_writer (an_stream x).2), an_stdout x)).

(** [answer], by the server of hq; and what it prints. *)
Definition hqAnswer (id : Z) (text : string) (chunks : list (list Z)) : go ends (heard * list Z) :=
  s ← getS;
  '(bs, printed) ← at_server (hqRespondOn id text chunks);
  s' ← getS;
  at_client (@updatesArrive _ (client_handler lower bufSize) (since (server_updates s) (server_updates s')));;
  '(an, body) ← at_client (receiveResponse lower bufSize id bs);
  mret (HeardResponse id an body, printed).

(** It sends what an ordinary response with these chunks sends. *)
Lemma hqRespondOn_run sp id text chunks (sc : ServerConnection Buffer) from a :
  half_ok sp (sc_connection sc) from a → qe_base (c_encoder (sc_connection sc)) + 2 < 2 ^ 60 →
  response_ok lower sp 200 hqHeaders → hasVerb text = false → Forall chunk_ok (echo text chunks) →
  crossable lower id (statusField 200 :: hqHeaders) [] (c_encoder (sc_connection sc)) (c_updates (sc_connection sc)) = true →
  ∃ bs sc', respondOn lower id 200 hqHeaders (echo text chunks) sc = (Ok bs, sc') ∧
    hqRespondOn id text chunks sc = (Ok (bs, mjoin (echo text chunks)), sc').
Proof.
  intros [Henc Hpref Hup Hready _ _ _ _] Hroom (Hv & Hrange & H0 & H1 & Hplain & Hf & Hvf) Hverb Hc Hlive.
  set (c := sc_connection sc) in *. set (w := NewBitWriter (MkBuffer [])).
  destruct (block_crosses_run _ _ _ _ _ _ _ Hlive (response_crosses lower id 200 hqHeaders [] c w (proj1 Henc) Hup buffer_start Hroom
    Hready Hv Hrange H0 H1 Hplain ltac:(by rewrite Hpref) Hvf ltac:(constructor)))
    as (e2 & w1 & t & evs & updates & (w2 & bs & Hs & Hw2 & _) & _).
  unfold respondWith in Hs. apply bind_Ok_inv in Hs as (r & [c1 w1'] & Hr & Hfin).
  assert (w1' = w2) as -> by (unfold finishMessage, on_outgoing, zoom in Hfin; by injection Hfin).
  destruct (serveOne_runs lower formatted id c w r c1 w2 text chunks [] false Hr Hw2 Hverb Hc) as (w3 & Hfinish & Hserve).
  exists (buf_bytes (bw_writer w3)), (set_connection c1 sc). split.
  - unfold respondOn, zoom, respondWith. fold c w. rewrite bind_assoc. unfold Respond in Hr. rewrite (bind_Ok _ _ _ _ _ Hr).
    by rewrite (bind_Ok _ _ _ _ _ Hfinish).
  - unfold hqRespondOn, zoom. fold c w. by rewrite (bind_Ok _ _ _ _ _ Hserve).
Qed.

Lemma hqAnswer_run id text chunks s bs sc' h s' :
  respondOn lower id 200 hqHeaders (echo text chunks) (en_server s) = (Ok bs, sc') →
  hqRespondOn id text chunks (en_server s) = (Ok (bs, mjoin (echo text chunks)), sc') →
  answer lower bufSize id 200 hqHeaders (echo text chunks) s = (Ok h, s') →
  hqAnswer id text chunks s = (Ok (h, mjoin (echo text chunks)), s').
Proof.
  intros Hr Hq. unfold answer, hqAnswer. rewrite !bind_unfold. cbn [getS]. rewrite !bind_unfold. unfold at_server, zoom. rewrite Hr, Hq.
  rewrite !bind_unfold. cbn [getS]. rewrite !bind_unfold. destruct (at_client _ _) as [[[]|e| |] s1]; [|done..].
  rewrite !bind_unfold. destruct (at_client _ s1) as [[[an body]|e| |] s2]; [|done..]. by intros [= <- <-].
Qed.
End exchange.

(** ** The page *)

(** A header list as text, one line a field, with the names aligned on the right to
    [width], as the README of hq shows it; [width] 0 aligns nothing. *)
Definition linefeed : Ascii.ascii := Ascii.ascii_of_nat 10.
Definition blank : Ascii.ascii := Ascii.ascii_of_nat 32.

Fixpoint blanks (n : nat) : string := match n with O => "" | S n => String blank (blanks n) end.

Definition page_line (width : nat) (h : HeaderField) : string :=
  (blanks (width - String.length (h_Name h)) ++ h_Name h ++ ": " ++ h_Value h ++ String linefeed "")%string.

Fixpoint page (width : nat) (fields : list HeaderField) : string :=
  match fields with [] => "" | h :: fields => (page_line width h ++ page width fields)%string end.

(** The text without the blanks that its lines begin with. *)
Fixpoint unindented (start : bool) (s : string) : string :=
  match s with
  | EmptyString => ""
  | String c s =>
      if start && Ascii.eqb c blank then unindented true s else String c (unindented (Ascii.eqb c linefeed) s)
  end.

#[local] Arguments String.append : simpl nomatch.

Lemma string_app_assoc (a b c : string) : ((a ++ b) ++ c = a ++ (b ++ c))%string.
Proof. induction a as [|x a IH]; [done|]. exact (f_equal (String x) IH). Qed.

Lemma foldl_text (f : HeaderField → string) fields s :
  (foldl (λ s h, s ++ f h) s fields = s ++ foldr (λ h t, f h ++ t) "" fields)%string.
Proof.
  revert s. induction fields as [|h fields IH]; intros s; cbn [foldl foldr]; [|by rewrite IH, string_app_assoc].
  induction s as [|c s IH]; [done|]. exact (f_equal (String c) IH).
Qed.

(** What the code writes is aligned to nothing. *)
Lemma headerFieldArray_String_page fields : headerFieldArray_String fields = page 0 fields.
Proof.
  unfold headerFieldArray_String. rewrite foldl_text. cbn [String.append].
  induction fields as [|h fields IH]; [done|]. cbn [foldr page]. rewrite IH. f_equal.
  unfold HeaderField_String, page_line. cbn [Nat.sub blanks String.append]. by rewrite !string_app_assoc.
Qed.

Lemma unindented_blanks n s : unindented true (blanks n ++ s) = unindented true s.
Proof. induction n as [|n IH]; [done|]. exact IH. Qed.

Lemma unindented_line start s t :
  unindented start (s ++ String linefeed t) = (unindented start (s ++ String linefeed "") ++ unindented true t)%string.
Proof.
  revert start. induction s as [|c s IH]; intros start; cbn [String.append unindented].
  - by destruct start.
  - destruct (start && Ascii.eqb c blank); [apply IH|]. cbn [String.append]. by rewrite IH.
Qed.

Lemma page_cons width h fields : page width (h :: fields) =
  (blanks (width - String.length (h_Name h)) ++ HeaderField_String h ++ String linefeed (page width fields))%string.
Proof. cbn [page]. unfold page_line, HeaderField_String. by rewrite !string_app_assoc. Qed.

(** However it is aligned, the page is the same but for the blanks in front. *)
Lemma page_unindented width fields : unindented true (page width fields) = unindented true (page 0 fields).
Proof.
  induction fields as [|h fields IH]; [done|]. rewrite !page_cons, !unindented_blanks, !(unindented_line _ _ (page _ _)).
  by rewrite IH.
Qed.
