(* ===== verification/PromiseSpec.v ===== *)
(** * Promises and responses at a client

    The PUSH_PROMISE frame from one end to the other, and a response with its
    promises as an abstract machine (see [MessageSpec]) that [readResponse] refines. *)

From S2P Require Import Prelude Bits GoIo BitWriter BitReader Streams Frame HcInt HuffmanTable Huffman HcString StaticTable Table Codec QpackTable QpackEncoder QpackDecoder QpackDecoderSpec QpackEncoderSpec QpackLink Settings Headers Message MessageSpec MessageLink Connection Push PushSpec Request RequestSpec.

(** ** The payload of a promise *)

(** An identifier and a header block. *)
Record promise_block := PromiseBlock {
  pb_id : Z;
  pb_raw : Z;
  pb_sign : bool;
  pb_delta : Z;
  pb_lines : list line;
}.

Definition promise_frame_ok (pref : HuffmanCodingChoice) (t : qpackTableCommon) (p : list Z) (b : promise_block) : Prop :=
  Forall is_byte p ∧ zlen p < 2 ^ 62 ∧ 0 ≤ pb_id b < 2 ^ 62 ∧
  bits_of_bytes p = varint_bits (pb_id b) ++ block_bits pref (pb_raw b) (pb_sign b) (pb_delta b) (pb_lines b) ∧
  is_u64 (pb_raw b) ∧ 0 ≤ pb_delta b < 2 ^ 62 ∧
  (∀ largest, decodeLargestBase t (pb_raw b) = Ok largest → - 2 ^ 61 ≤ largest) ∧ Forall (line_ok pref) (pb_lines b).

Section reading.
Context {R : Type} `{IoReaderSpec R} {T : Type} (t : qpackTableCommon) (id : Z).

(** What the decoder gives for a promise. *)
Definition checked (pushID : Z) (hs : list HeaderField) : outcome (Z * list HeaderField) :=
  match ValidatePseudoHeaders hs with
  | Ok _ => Ok (pushID, hs)
  | Err e => Err e
  | Panic => Panic
  | NoFuel => NoFuel
  end.

Definition promise_fields (b : promise_block) : go (progress T) (Z * list HeaderField) :=
  hs ← block_fields t id (pb_raw b) (pb_sign b) (pb_delta b) (pb_lines b);
  lift (checked (pb_id b) hs).

Lemma readPromise_run pref skip b p sent (br : bitReader R) :
  promise_frame_ok pref t p b → 0 ≤ tbase t < 2 ^ 61 → (8 * length p < skip)%nat →
  br_wf br → rbits br = bits_of_bytes p →
  ∃ br', match block_value t id (pb_raw b) (pb_sign b) (pb_delta b) (pb_lines b) with
  | Ok (hs, evs) => readPromise skip id (qdec (t, sent) br) = (checked (pb_id b) hs, qdec (t, sent ++ evs) br') ∧
      match checked (pb_id b) hs with Ok _ => br_wf br' ∧ rbits br' = [] | _ => True end
  | Err e => readPromise skip id (qdec (t, sent) br) = (Err e, qdec (t, sent) br')
  | Panic => readPromise skip id (qdec (t, sent) br) = (Panic, qdec (t, sent) br')
  | NoFuel => False
  end.
Proof.
  intros (Hp & Hlen & Hid & Hbits & Hraw & Hdelta & Hlow & Hls) Hb Hf Hwf Hl. rewrite Hbits in Hl.
  destruct (ReadVarint_reads (R := R) (pb_id b) Hid br _ Hwf Hl) as (br1 & Hr1 & Hwf1 & Hl1).
  assert (length (block_bits pref (pb_raw b) (pb_sign b) (pb_delta b) (pb_lines b)) < skip)%nat as Hskip.
  { pose proof (bytes_length p _ eq_refl) as Hbl. rewrite Hbits, length_app in Hbl. lia. }
  pose proof (block_lines_length pref (pb_raw b) (pb_sign b) (pb_delta b) (pb_lines b)).
  assert (readPromise skip id (qdec (t, sent) br) = (ReadHeaderBlock skip id ≫= λ headers,
    lift (ValidatePseudoHeaders headers);; on_reader CheckForEOF;; mret (pb_id b, headers)) (qdec (t, sent) br1)) as ->.
  { unfold readPromise. rewrite bind_unfold. unfold on_reader at 1, zoom at 1. cbn [qdec qd_reader qd_table qd_sent fst snd].
    by rewrite Hr1. }
  destruct (ReadHeaderBlock_safe skip id (t, sent) br1 Hwf1) as (o & x & br2 & Hr & _ & Ht & Hx).
  { rewrite Hl1. unfold zlen. lia. }
  destruct (ReadHeaderBlock_answers pref (t, sent) id (pb_raw b) (pb_sign b) (pb_delta b) (pb_lines b) skip br1)
    as (x' & br3 & Hrun); try done; [lia|].
  rewrite bind_unfold. cbn [fst snd] in Hrun.
  destruct (block_value t id _ _ _ _) as [[hs evs]|e| |]; [| | |done].
  - destruct Hrun as (-> & -> & Hwf3 & Hl3). unfold lift. rewrite bind_unfold. unfold checked.
    destruct (ValidatePseudoHeaders hs) as [[]|e| |]; [|by exists br3..].
    destruct (CheckForEOF_exact br3 Hwf3) as (br4 & Hwf4 & Hr4). rewrite Hl3 in Hr4. destruct Hr4 as [Hr4 Hl4].
    exists br4. rewrite bind_unfold. unfold on_reader, zoom. cbn [qdec qd_reader qd_table qd_sent fst snd]. by rewrite Hr4.
  - exists br3. rewrite Hrun in Hr |- *. apply qdec_result in Hr as [[<- <-] _]. by rewrite (Hx ltac:(done)).
  - exists br3. rewrite Hrun in Hr |- *. apply qdec_result in Hr as [[<- <-] _]. by rewrite (Hx ltac:(done)).
Qed.
End reading.

(** ** A response with promises *)

Section responses.
Context `{UrlLib} (lower : string → string) {W : Type} `{IoWriter W} (t : qpackTableCommon) (id : Z).
Implicit Types (m : progress (reading (W := W))).

(** What a promise does: its block is acknowledged, then its fields are checked and
    become those of the promise, which is handed to the application. *)
Definition promise_effect (b : promise_block) : go (progress (reading (W := W))) unit :=
  '(pushID, headers) ← promise_fields t id b;
  handled (promised lower pushID headers).

(** The frames besides DATA and HEADERS, for promises given by their payloads. *)
Definition response_other (promises : list Z → option promise_block) (ft : Z) (p : list Z)
  : go (progress (reading (W := W))) unit :=
  if ft =? framePushPromise then
    match promises p with Some b => promise_effect b | None => fail ErrUnsupportedFrame end
  else fail ErrUnsupportedFrame.

Definition response (informational : bool) (promises : list Z → option promise_block) (fs : list frame) (e : ending)
  : go (progress (reading (W := W))) unit :=
  r ← catch (message t id (λ h, on_answers (responseHeaders lower informational h)) (response_other promises) fs e);
  match r with
  | inl _ => handled (endPushes false)
  | inr ErrWouldBlock => fail ErrWouldBlock
  | inr _ => handled (endPushes true)
  end.

Context {R : Type} `{IoReaderSpec R}.
#[local] Abbreviation consumes := (consumes (R := R) (conc t)).

Lemma handlePushPromise_consumes pref skip p b : promise_frame_ok pref t p b → 0 ≤ tbase t < 2 ^ 61 →
  (8 * length p < skip)%nat → consumes (handlePushPromise lower skip id (zlen p)) (promise_effect b) (bits_of_bytes p).
Proof.
  intros Hok Hb Hf. rewrite <- (app_nil_r (bits_of_bytes p)). unfold handlePushPromise, promise_effect.
  apply consumes_bind; [|intros [pushID headers]; apply consumes_handler].
  intros m br l Hwf Hl. pose proof Hok as (Hp & Hlen & _). pose proof (zlen_nonneg p).
  assert (payload_at br (zlen p) p l) as Hat by (split_and!; [done|lia|lia|done|by left]).
  destruct (limited_start br (zlen p) Hwf ltac:(lia)) as [Hfr Hfl]. rewrite (payload_take br _ p l Hp Hat) in Hfl.
  destruct (readPromise_run (H := LimitedReader_reader) (H0 := LimitedReader_spec br (zlen p)) t id pref skip b p (pr_sent m) _ Hok Hb Hf Hfr Hfl)
    as (fr' & Hr).
  exists (lim_R (br_reader fr')). unfold on_block, zoom. cbn [conc in_table in_sent in_stream in_log in_handler].
  change (Decoding t ?fr ?sent) with (qdec (t, sent) fr).
  unfold promise_fields, block_fields, lift. rewrite !bind_unfold.
  destruct (block_value t id _ _ _ _) as [[hs evs]|e| |]; [| | |done].
  - destruct Hr as [-> Hend]. split; [done|].
    change (match checked (pb_id b) hs with Ok _ => br_wf (lim_R (br_reader fr')) ∧ rbits (lim_R (br_reader fr')) = l | _ => True end).
    destruct (checked (pb_id b) hs) as [v|e| |]; [|done..].
    exact (limited_end br (zlen p) p l _ Hp Hat (proj1 Hend) (proj2 Hend)).
  - by rewrite Hr.
  - by rewrite Hr.
Qed.

(** The payloads of the promises among the frames are as [promises] says. *)
Definition promises_frame_ok (pref : HuffmanCodingChoice) (promises : list Z → option promise_block) (f : frame) : Prop :=
  match f with
  | FOther ft p => ft = framePushPromise → ∃ b, promises p = Some b ∧ promise_frame_ok pref t p b
  | _ => True
  end.

Lemma promises_ok_other pref skip promises f : promises_frame_ok pref promises f → 0 ≤ tbase t < 2 ^ 61 →
  (8 * length (frame_payload f) < skip)%nat →
  other_ok t (responseFrames (W := W) lower skip id) (response_other promises) f.
Proof.
  destruct f as [p|raw sign delta ls p|ft p]; [done..|]. intros Hp Hb Hf. cbn [other_ok]. unfold responseFrames, response_other.
  destruct (Z.eqb_spec ft framePushPromise) as [->|Hne].
  - destruct (Hp eq_refl) as (b & -> & Hb'). by eapply handlePushPromise_consumes.
  - intros m br l Hwf Hl. by exists br.
Qed.

(** [readResponse] on any frames. *)
Lemma readResponse_follows pref informational bufSize fuel promises fs e : 0 < bufSize → 0 ≤ tbase t < 2 ^ 61 →
  Forall (frame_ok pref t) fs → Forall (promises_frame_ok pref promises) fs → ending_ok e →
  (length (frames_bits fs ++ ending_bits e) + 1 < fuel)%nat →
  follows_some (R := R) (conc t) (hears bufSize e) (readResponse lower informational bufSize id fuel)
    (response informational promises fs) (frames_bits fs ++ ending_bits e).
Proof.
  intros Hbuf Hb Hfs Hp He Hf m br Hwf Hl. destruct (frames_fuel pref t fs e fuel Hfs Hf) as (_ & Hskip & _).
  destruct (handleMessage_follows t pref bufSize id fuel (λ h, on_answers (responseHeaders lower informational h))
    (responseFrames lower fuel id) (response_other promises) Hbuf Hb e fs Hfs) with m br as (e' & br' & He' & Hr); [|done..|].
  { apply Forall_forall. intros f Hf'. rewrite Forall_forall in Hp, Hskip. eapply promises_ok_other; [by apply Hp|done|by apply Hskip]. }
  exists e', br'. split; [done|]. unfold readResponse, response, catch. rewrite !bind_unfold, Hr.
  destruct (message t id _ _ fs e' m) as [[[]|err| |] m']; [by destruct m'|by destruct err, m'|done..].
Qed.
End responses.

(** ** A promise from one end to the other *)

Section crossing.
Context `{UrlLib} (lower : string → string).
Implicit Types (c : connection Buffer) (w : bitWriter Buffer).

(** What a promise leaves at the client. *)
Definition promised_with (pushID : Z) (headers : list HeaderField) (method : string) (target : URL)
    (s : reading (W := Buffer)) : reading :=
  let pp := promise_of pushID s.1 in
  (set_promise pushID (MkPushPromise headers method (Some target) (pp_pushID pp) (pp_closed pp) (pp_response pp) (pp_cancelled pp)) s.1,
   MkAnswers (an_current s.2) (an_informational s.2) (an_response s.2) (an_pushes s.2 ++ [pushID])
     (an_pushesClosed s.2) (an_aborted s.2)).

Lemma promised_run pushID headers method target (s : reading) : getMethodAndTarget lower headers = Ok (method, target) →
  promised lower pushID headers s = (Ok tt, promised_with pushID headers method target s).
Proof.
  intros Hm. destruct s as [c an]. unfold promised. rewrite bind_unfold. unfold zoom at 1. cbn [fst snd].
  rewrite bind_unfold, getPushPromise_run. unfold on_promise, setPromiseHeaders, zoom. rewrite promise_of_set, Hm.
  unfold on_answers, zoom, modS, promised_with, set_promise. cbn [fst snd promises cc_connection cc_maxPushID].
  by rewrite insert_insert_eq.
Qed.

(** A client at the start of any stream that begins with a promise. *)
Lemma handlePushPromise_reads {R} `{IoReaderSpec R} pref t id skip p b hs evs method target sent log s (br : bitReader R) l :
  promise_frame_ok pref t p b → 0 ≤ tbase t < 2 ^ 61 → (8 * length p < skip)%nat →
  block_value t id (pb_raw b) (pb_sign b) (pb_delta b) (pb_lines b) = Ok (hs, evs) →
  ValidatePseudoHeaders hs = Ok tt → getMethodAndTarget lower hs = Ok (method, target) →
  br_wf br → rbits br = frame_bits framePushPromise p ++ l →
  ∃ len br1 br2, ReadFrame br = (Ok (framePushPromise, len), br1) ∧
    handlePushPromise lower skip id len (Incoming t sent br1 log s) =
      (Ok tt, Incoming t (sent ++ evs) br2 log (promised_with (pb_id b) hs method target s)) ∧
    br_wf br2 ∧ rbits br2 = l.
Proof.
  intros Hok Hb Hskip Hval Hv Hm Hwf Hl. pose proof Hok as (_ & Hlen & _). pose proof (zlen_nonneg p).
  unfold frame_bits in Hl. rewrite (assoc_L (++)), <- (assoc_L (++)) in Hl.
  destruct (ReadFrame_reads (R := R) framePushPromise (zlen p) ltac:(done) ltac:(lia) br _ Hwf Hl) as (br1 & Hr1 & Hwf1 & Hl1).
  destruct (handlePushPromise_consumes (W := Buffer) lower t id pref skip p b Hok Hb Hskip (Progress sent log s) br1 l Hwf1 Hl1)
    as (br2 & Hr2 & Hend).
  assert (promise_effect lower t id b (Progress sent log s) =
    (Ok tt, Progress (sent ++ evs) log (promised_with (pb_id b) hs method target s))) as Heff.
  { unfold promise_effect, promise_fields, block_fields, lift. rewrite !bind_unfold, Hval, bind_unfold. cbn [note modS].
    unfold checked. rewrite ret_unfold, Hv. unfold handled, zoom. cbn [pr_handler]. by rewrite (promised_run _ hs method target s Hm). }
  rewrite Heff in Hr2, Hend. by exists (zlen p), br1, br2.
Qed.

(** The frame of a promise, and the client at the start of any stream that begins
    with it. *)
Lemma promise_crosses id push c w method target :
  let e := c_encoder c in let fields := lowered lower (pr_Headers push) in
  enc_ok e → at_byte (c_updates c) → at_byte w → qe_base e + zlen (pr_Headers push) < 2 ^ 60 → c_ready c = true →
  0 ≤ pr_PushID push < 2 ^ 62 → Forall (field_ok (enc_pref e)) fields → ValidatePseudoHeaders fields = Ok tt →
  getMethodAndTarget lower fields = Ok (method, target) →
  block_crosses lower id (pr_Headers push) (varint_bytes (pr_PushID push)) e (c_updates c) (λ e2 w1 t evs,
    ∃ w2 bs, writePushPromise lower id push (c, w) = (Ok tt, (set_updates w1 (set_encoder e2 c), w2)) ∧
      buf_bytes (bw_writer w2) = buf_bytes (bw_writer w) ++ bs ∧ Forall is_byte bs ∧
      ∀ R (HR : IoReader R) (HS : IoReaderSpec R) skip sent log s (br : bitReader R) l, (8 * length bs < skip)%nat →
        br_wf br → rbits br = bits_of_bytes bs ++ l →
        ∃ len br1 br2, ReadFrame br = (Ok (framePushPromise, len), br1) ∧
          handlePushPromise lower skip id len (Incoming t sent br1 log s) =
            (Ok tt, Incoming t (sent ++ evs) br2 log (promised_with (pr_PushID push) fields method target s)) ∧
          br_wf br2 ∧ rbits br2 = l).
Proof.
  intros e fields Hok Hw Hws Hb Hready Hid Hf Hv Hm. set (pid := pr_PushID push) in *.
  destruct (varint_whole pid Hid) as [Hvbits Hvb].
  destruct (WriteHeaderBlock_bytes lower id (pr_Headers push) e (c_updates c) (varint_bytes pid) Hok Hw Hvb Hb Hf)
    as (us & e1 & st1 & w1 & updates & Hrun & Hw1 & Hac & Hbs & Hbits & Hp & Hblock).
  pose proof (initHeaders_length lower (pr_Headers push)) as Hlen0.
  exists e1, st1, w1, updates. split_and!; [done|done|by eapply (updates_read _ fields); [..|exact Hp]; unfold fields, lowered; rewrite ?Hlen0|].
  intros (raw & ls & e2 & block & Hwr & Hok2 & Ht2 & Hbb & Hbits2 & Hls & Hraw & Hval & _ & _ & Hdec)%Hblock.
  exists block, e2. split; [done|]. split; [intros Hinv; by eapply block_carried|]. intros Hlen. set (p := varint_bytes pid ++ block) in *.
  destruct (sendFrame_bytes framePushPromise p (Outgoing e2 w1 w false)) as (w2 & bs & Hs & Hw2 & Hac2 & Hbs2 & Hbits3);
    [done|by apply Forall_app|done|done|]. exists w2, bs. split; [|split_and!; [exact Hac2|done|]].
  - unfold writePushPromise. rewrite bind_unfold. unfold waitReady. rewrite bind_unfold. cbn [getS fst]. rewrite Hready.
    unfold on_outgoing, zoom. rewrite ret_unfold. cbn [fst snd]. rewrite bind_unfold. unfold promiseBuffer.
    fold pid. rewrite varintBuffer_spec by done. cbn [og_encoder og_updates]. fold e. rewrite Hwr. cbn [buf_bytes og_stream og_closed].
    rewrite bind_unfold, Hs. done.
  - intros R ? ? skip sent log s br l Hskip Hwf Hl. rewrite Hbits3 in Hl.
    pose proof (enc_base_nonneg e1 (pp_enc _ _ _ _ _ Hp)). pose proof (pp_base _ _ _ _ _ Hp).
    apply (handlePushPromise_reads (enc_pref e1) _ _ _ p (PromiseBlock pid raw false 0 ls)); try done.
    + split_and!; cbn [pb_id pb_raw pb_sign pb_delta pb_lines]; try done; [by apply Forall_app|lia|lia|by unfold p; rewrite bits_of_bytes_app, Hvbits, Hbits2|].
      intros largest. rewrite Hdec. intros [= <-]. pose proof (si_largest _ _ (pp_inv _ _ _ _ _ Hp)). lia.
    + change (tbase (qe_common_table e1)) with (qe_base e1). unfold fields, lowered in *. lia.
    + apply (f_equal length) in Hbits3. rewrite (bytes_length bs _ eq_refl) in Hbits3. pose proof (frame_bits_length framePushPromise p Hlen). lia.
Qed.
End crossing.
