(* ===== verification/HttpSamples.v ===== *)
(** * Sample connections and messages

    Concrete values for the witnesses of the HTTP properties. *)

From S2P Require Import Prelude Bits GoIo BitWriter BitReader Streams Frame HcInt HuffmanTable Huffman HcString StaticTable Table Codec QpackTable QpackEncoder QpackDecoder QpackDecoderSpec QpackSamples Settings Headers Message MessageSpec Connection ConnectionSpec Push PushSpec.

(** A URL as scheme, host and path. *)
#[export] Instance sampleUrl : UrlLib := {
  URL := string * string * string;
  url_Parse s := if decide (s = "https://example.com/a"%string)
    then Ok ("https", "example.com", "/a")%string else Err (ErrForeign 1);
  url_ParseRef b p := let '(s, h, _) := b in Ok (s, h, p);
  url_Make s h := (s, h, ""%string);
  url_Scheme u := u.1.1;
  url_Host u := u.1.2;
  url_EscapedPath u := u.2;
}.

Definition exampleConfig : Config := MkConfig 4096 100 10 false true.

(** The encoder of a new connection, [NewQpackEncoder(stream, 0, 0)]. *)
Definition connectionEncoder : QpackEncoder :=
  MkQpackEncoder (EncoderCommon HuffmanCodingAuto ∅) (MkQpackEncoderTable newTable 0 0 0) newUsage 0 0 0 0.

Definition emptyWriter : bitWriter Buffer := NewBitWriter (MkBuffer []).

Definition sampleConnection : connection Buffer :=
  Connection exampleConfig (NewQpackDecoderTable 4096) [] false
    connectionEncoder emptyWriter emptyWriter false [].

Definition sampleServer : ServerConnection Buffer := newServerConnection sampleConnection.
Definition sampleSettings : list setting := [SInt settingTableSize 256; SOther 6 [1; 2]; SInt settingMaxQpackBlockedStreams 3].
Definition samplePayload : list Z := bytes_of_bits (mjoin (setting_bits <$> sampleSettings)).
Definition sampleControl : list (Z * list Z) :=
  [(frameMaxPushID, [5]); (framePriority, [9; 9; 9]); (frameCancelPush, [2]); (frameMaxPushID, [4])].

(** A response in two DATA frames, the second of which is cut short. *)
Definition sampleLines : list line := [LLiteral false ":status" "200"; LNameRef false false 1 "b"]%string.
Definition sampleBlock : list Z := bytes_of_bits (block_bits HuffmanCodingNever 4 false 0 sampleLines).
Definition sampleFrames : list frame := [FBlock 4 false 0 sampleLines sampleBlock; FData [1; 2; 3]].
Definition sampleEnding : ending := CutData 5 [4; 5].
Definition sampleBits : list bool := frames_bits sampleFrames ++ ending_bits sampleEnding.

Lemma sampleBlock_ok : frame_ok HuffmanCodingNever exampleTable (FBlock 4 false 0 sampleLines sampleBlock).
Proof.
  split_and!; [vm_compute; by repeat constructor|by vm_compute|by vm_compute|done|done|done| |].
  - vm_compute. by intros ? [= <-].
  - repeat constructor; try done; right; done.
Qed.

Lemma sampleFrames_ok : Forall (frame_ok HuffmanCodingNever exampleTable) sampleFrames.
Proof.
  apply Forall_cons; split; [apply sampleBlock_ok|]. apply Forall_cons; split; [by repeat constructor|constructor].
Qed.

Lemma sampleEnding_ok : ending_ok sampleEnding.
Proof. split; [by repeat constructor|by vm_compute]. Qed.

(** A handler that keeps the header list and lets the body begin. *)
Definition keepHeaders (hs : list HeaderField) : go (list HeaderField) bool :=
  modS (λ _, hs);;
  mret true.

Definition sampleReader : bitReader bytesReader := NewBitReader (MkBytesReader (bytes_of_bits sampleBits)).

Lemma sampleReader_ok : br_wf sampleReader ∧ rbits sampleReader = sampleBits.
Proof. split; [|by vm_compute]. split; [|done]. vm_compute. by repeat constructor. Qed.
