(* ===== verification/WireProps.v ===== *)
(** * The wire formats: the properties

    Bits, integers, Huffman-coded text, strings and frames: what is written is
    read back, and what each reader and writer does at the end of a stream, on a
    failing writer and on malformed input. *)

From S2P Require Import Prelude Bits GoIo BitWriter BitReader Frame HcInt HuffmanTable Huffman HcString.

(** ** A writer that fails on demand

    It accepts or refuses each byte as its script says; after the script it
    accepts. *)
Record scriptWriter := MkScriptWriter { sw_script : list bool; sw_out : list Z }.

Definition scriptWriter_WriteByte (c : Z) : go scriptWriter unit := λ w,
  match sw_script w with
  | false :: s => (Err (ErrForeign 0), MkScriptWriter s (sw_out w))
  | true :: s => (Ok tt, MkScriptWriter s (sw_out w ++ [c]))
  | [] => (Ok tt, MkScriptWriter [] (sw_out w ++ [c]))
  end.

Definition scriptWriter_Write (p : list Z) : go scriptWriter (Z * option goerr) := λ w,
  match sw_script w with
  | false :: s => (Ok (0, Some (ErrForeign 0)), MkScriptWriter s (sw_out w))
  | _ => (Ok (zlen p, None), MkScriptWriter (tail (sw_script w)) (sw_out w ++ p))
  end.

#[export] Instance scriptWriter_writer : IoWriter scriptWriter := {
  io_Write := scriptWriter_Write;
  io_WriteByte := Some scriptWriter_WriteByte;
}.

#[export] Program Instance scriptWriter_spec : IoWriterSpec scriptWriter := {
  accepted := sw_out;
}.
Next Obligation.
  intros p w Hp. cbn. unfold scriptWriter_Write. pose proof (zlen_nonneg p).
  assert (zlen p ≠ 0) by (by intros ?%zlen_0).
  destruct (sw_script w) as [|[] s]; cbn; rewrite ?(ztake_all (zlen p)), ?(ztake_0 0), ?app_nil_r by lia;
    split_and!; (done || lia).
Qed.
Next Obligation.
  intros f c w [= <-]. unfold scriptWriter_WriteByte. by destruct (sw_script w) as [|[] s].
Qed.

(** C18: over a writer that may fail at any byte, a [WriteBits] either returns nil
    and appends exactly its field to the stream, or returns an error and leaves
    the stream (accepted bytes and saved bits) as it was. The condition [bw_ready] is
    that no earlier flush was refused, so that less than a byte is held back, or that
    the field is of a byte at least; it holds of every writer whose writes succeeded.
    A field of less than a byte after a refused flush is garbled with a nil error, see
    [WriteBits_after_refused_flush]. *)
Theorem WriteBits_atomic {W} `{IoWriterSpec W} v count (bw : bitWriter W) :
  bw_wf bw → bw_ready count bw → 0 ≤ count ≤ 64 → 0 ≤ v < 2 ^ count →
  appended (zbits count v) bw (WriteBits v count bw).
Proof. apply WriteBits_spec. Qed.

Lemma WriteBits_atomic_witness :
  let bw := BitWriter (MkScriptWriter [true; false] []) 5 3 0 in
  (bw_wf bw ∧ bw_ready 13 bw) ∧ appended (zbits 13 100) bw (WriteBits 100 13 bw).
Proof.
  intros bw. assert (bw_wf bw) as Hwf by (unfold bw_wf; cbn; lia).
  assert (bw_ready 13 bw) as Hr by (left; cbn; lia).
  split; [by split|]. apply (WriteBits_atomic 100 13 bw Hwf Hr); lia.
Defined.

(** The condition [bw_ready] is needed. After a write of 64 bits of which the
    writer below refused all but the first byte, the next write of one bit
    returns nil but puts 40 bytes on the wire for the 65 bits written: the count
    of leftover bits is computed before, not after, the saved bits are flushed,
    and wraps below zero. *)
Theorem WriteBits_after_refused_flush :
  let '(o1, bw1) := WriteBits (2 ^ 64 - 1) 64 (NewBitWriter (MkScriptWriter [true; false] [])) in
  let '(o2, bw2) := WriteBits 1 1 bw1 in
  o1 = Ok tt ∧ bw_savedBits bw1 = 56 ∧ o2 = Ok tt ∧
  zlen (sw_out (bw_writer bw2)) = 40 ∧ bw_savedBits bw2 = 1.
Proof. vm_compute. split_and!; reflexivity. Qed.

(** [Pad], which is documented to flush as well, adds a whole byte of padding
    when the flush leaves no bit to complete. *)
Theorem Pad_after_refused_flush :
  let '(o1, bw1) := WriteBits 0xabcd 16 (NewBitWriter (MkScriptWriter [true; false] [])) in
  let '(o2, bw2) := Pad 0xff bw1 in
  o1 = Ok tt ∧ o2 = Ok tt ∧ sw_out (bw_writer bw2) = [0xab; 0xcd; 0xff].
Proof. vm_compute. split_and!; reflexivity. Qed.

(** ** Bit fields *)

(** Writing fields given as width and value, and reading them back. *)
Fixpoint writeFieldsOf {W} `{IoWriter W} (fs : list (Z * Z)) : go (bitWriter W) unit :=
  match fs with
  | [] => mret tt
  | (n, v) :: fs' => WriteBits v n;; writeFieldsOf fs'
  end.

Fixpoint readFieldsOf {R} `{IoReader R} (ns : list Z) : go (bitReader R) (list Z) :=
  match ns with
  | [] => mret []
  | n :: ns' => v ← ReadBits n; vs ← readFieldsOf ns'; mret (v :: vs)
  end.

Definition fields_bits (fs : list (Z * Z)) : list bool := mjoin ((λ f, zbits f.1 f.2) <$> fs).

Definition fits (f : Z * Z) : Prop := 0 ≤ f.1 ≤ 64 ∧ 0 ≤ f.2 < 2 ^ f.1.

Lemma writeFieldsOf_writes {W} `{IoWriterSpec W} `{!IoWriterTotal W} fs : Forall fits fs →
  writes (writeFieldsOf (W := W) fs) tt (fields_bits fs).
Proof.
  induction 1 as [|[n v] fs [Hn Hv] _ IH]; [apply writes_ret|].
  eapply writes_bind; [by apply WriteBits_writes|exact IH].
Qed.

Lemma readFieldsOf_reads {R} `{IoReaderSpec R} fs : Forall fits fs →
  reads (readFieldsOf (R := R) fs.*1) fs.*2 (fields_bits fs).
Proof.
  induction 1 as [|[n v] fs [Hn Hv] _ IH]; [apply reads_ret|].
  eapply reads_bind; [by apply ReadBits_reads|]. cbn. rewrite <- (app_nil_r (mjoin _)).
  eapply reads_bind; [exact IH|apply reads_ret].
Qed.

Lemma buffer_ok : bw_ok (NewBitWriter (MkBuffer [])).
Proof. split; [done|constructor]. Qed.

(** Fields of any widths up to 64 bits, written one after the other and
    padded with any byte, are read back with their values, whatever bytes
    follow. *)
Theorem bit_fields_roundtrip fs pad rest : Forall fits fs → is_byte pad → Forall is_byte rest →
  ∃ bw', (writeFieldsOf fs;; Pad pad) (NewBitWriter (MkBuffer [])) = (Ok tt, bw') ∧
    ∃ br', readFieldsOf fs.*1 (NewBitReader (MkBytesReader (buf_bytes (bw_writer bw') ++ rest))) =
      (Ok fs.*2, br').
Proof.
  intros Hfs Hpad Hrest.
  destruct (writeFieldsOf_writes fs Hfs _ buffer_ok) as (bw1 & Hr1 & Hok1 & Hw1).
  destruct (Pad_writes pad bw1 Hok1 Hpad) as (bw2 & Hr2 & Hsb & Hbytes & Hw2).
  exists bw2. rewrite (bind_Ok _ _ _ _ _ Hr1), Hr2. split; [done|].
  set (acc := buf_bytes (bw_writer bw2)). set (n := (8 - _) mod 8) in *.
  edestruct (readFieldsOf_reads (R := bytesReader) fs Hfs (NewBitReader (MkBytesReader (acc ++ rest))))
    as (br' & Hr & _); [| |by exists br'].
  - split; [|done]. by apply Forall_app.
  - unfold rbits. cbn. rewrite zbits_0, bits_of_bytes_app.
    unfold wbits at 1 in Hw2. rewrite Hsb, zbits_0, app_nil_r in Hw2.
    change (accepted (bw_writer bw2)) with acc in Hw2.
    rewrite app_nil_l, Hw2, Hw1, <- !(assoc_L (++)). done.
Qed.

Lemma bit_fields_roundtrip_witness :
  let fs := [(3, 5); (64, 2 ^ 64 - 1); (7, 0); (1, 1)] in
  Forall fits fs ∧ ∃ bw', (writeFieldsOf fs;; Pad 0xff) (NewBitWriter (MkBuffer [])) = (Ok tt, bw') ∧
    ∃ br', readFieldsOf fs.*1 (NewBitReader (MkBytesReader (buf_bytes (bw_writer bw') ++ [7]))) =
      (Ok fs.*2, br').
Proof.
  intros fs. assert (Forall fits fs) as Hfs by (repeat constructor; done).
  split; [exact Hfs|]. apply (bit_fields_roundtrip fs 0xff [7] Hfs); [done|by repeat constructor].
Defined.

(** [ReadBits] on any stream: the next [count] bits as a number when they are
    there; otherwise [io.EOF], and no bit is lost. *)
Theorem ReadBits_exact {R} `{IoReaderSpec R} count (br : bitReader R) : br_wf br → 0 ≤ count ≤ 64 →
  ∃ br', br_wf br' ∧
    if count <=? zlen (rbits br) then
      ReadBits count br = (Ok (val_of (ztake count (rbits br))), br') ∧
      rbits br' = zdrop count (rbits br)
    else ReadBits count br = (Err EOF, br') ∧ rbits br' = rbits br.
Proof. apply ReadBits_spec. Qed.

Lemma ReadBits_exact_witness :
  let br := BitReader (MkBytesReader [0xab; 0xcd]) 5 3 in
  ∃ br', br_wf br' ∧
    if 12 <=? zlen (rbits br) then
      ReadBits 12 br = (Ok (val_of (ztake 12 (rbits br))), br') ∧
      rbits br' = zdrop 12 (rbits br)
    else ReadBits 12 br = (Err EOF, br') ∧ rbits br' = rbits br.
Proof.
  intros br. apply (ReadBits_exact 12 br); [|lia].
  split; [by repeat constructor|cbn; lia].
Defined.

(** As an [io.Reader], a bit reader at any bit offset delivers exactly the
    whole bytes that are left, in order, and ends with [io.EOF]. *)
Theorem bitReader_Read_bytes {R} `{IoReaderSpec R} n (br : bitReader R) : br_wf br → 0 < n →
  ∃ bs e br', Read n br = (Ok (bs, e), br') ∧ br_wf br' ∧
    bytes_of_bits (rbits br) = bs ++ bytes_of_bits (rbits br') ∧
    trailing (rbits br') = trailing (rbits br) ∧ zlen bs ≤ n ∧
    (e = None ∧ bs ≠ [] ∨ e = Some EOF ∧ bytes_of_bits (rbits br') = [] ∧ zlen bs < n).
Proof. apply (Read_spec (IoReaderSpec := bitReader_spec)). Qed.

Lemma bitReader_Read_bytes_witness :
  let br := BitReader (MkBytesReader [0xab; 0xcd]) 5 3 in
  ∃ bs e br', Read 10 br = (Ok (bs, e), br') ∧ br_wf br' ∧
    bytes_of_bits (rbits br) = bs ++ bytes_of_bits (rbits br') ∧
    trailing (rbits br') = trailing (rbits br) ∧ zlen bs ≤ 10 ∧
    (e = None ∧ bs ≠ [] ∨ e = Some EOF ∧ bytes_of_bits (rbits br') = [] ∧ zlen bs < 10).
Proof.
  intros br. apply (bitReader_Read_bytes 10 br); [|lia].
  split; [by repeat constructor|cbn; lia].
Defined.

(** ** Integers *)

(** For every 64-bit value and prefix of 1 to 8 bits, what [WriteInt] appends
    to any stream, [ReadInt] reads back from any stream that goes on with it,
    taking no bit more. *)
Theorem int_roundtrip {W R} `{IoWriterSpec W} `{!IoWriterTotal W} `{IoReaderSpec R}
    p prefix (bw : bitWriter W) : is_u64 p → 1 ≤ prefix ≤ 8 → bw_ok bw →
  ∃ bits bw', WriteInt p prefix bw = (Ok tt, bw') ∧ wbits bw' = wbits bw ++ bits ∧
    ∀ (br : bitReader R) l, br_wf br → rbits br = bits ++ l →
    ∃ br', ReadInt prefix br = (Ok p, br') ∧ rbits br' = l.
Proof.
  intros Hp Hpre Hok. destruct (WriteInt_writes p prefix Hp Hpre bw Hok) as (bw' & Hw & _ & Hbits).
  exists (int_bits prefix p), bw'. split_and!; [done|done|]. intros br l Hbr Hl.
  destruct (ReadInt_reads p prefix Hp Hpre br l Hbr Hl) as (br' & ? & _ & ?). by exists br'.
Qed.

Lemma int_roundtrip_witness :
  ∃ bits bw', WriteInt (2 ^ 64 - 1) 5 (NewBitWriter (MkBuffer [])) = (Ok tt, bw') ∧
    wbits bw' = wbits (NewBitWriter (MkBuffer [])) ++ bits ∧
    ∀ (br : bitReader bytesReader) l, br_wf br → rbits br = bits ++ l →
    ∃ br', ReadInt 5 br = (Ok (2 ^ 64 - 1), br') ∧ rbits br' = l.
Proof. apply int_roundtrip; [done|done|apply buffer_ok]. Defined.

(** C19: on any stream, [ReadInt] never wraps around: it returns the exact value
    of the prefix and the groups it took, below 2^64, or [ErrIntegerOverflow]
    after ten groups, or [io.EOF]. *)
Theorem ReadInt_exact {R} `{IoReaderSpec R} prefix (br : bitReader R) : br_wf br → 1 ≤ prefix ≤ 8 →
  let ones := 2 ^ prefix - 1 in
  (∃ v br', ReadInt prefix br = (Ok v, br') ∧ v < ones ∧ rbits br = zbits prefix v ++ rbits br') ∨
  (∃ bs w br', ReadInt prefix br = (Ok (ones + w), br') ∧ groups bs w ∧ ones + w < 2 ^ 64 ∧
     rbits br = zbits prefix ones ++ bits_of_bytes bs ++ rbits br') ∨
  (∃ bs br', ReadInt prefix br = (Err ErrIntegerOverflow, br') ∧ length bs = 10%nat ∧
     rbits br = zbits prefix ones ++ bits_of_bytes bs ++ rbits br') ∨
  (∃ br', ReadInt prefix br = (Err EOF, br')).
Proof.
  intros Hwf Hp ones. unfold ReadInt.
  assert (2 ≤ 2 ^ prefix ≤ 256) as Hpow.
  { split; [apply (Z.pow_le_mono_r 2 1)|apply (Z.pow_le_mono_r 2 _ 8)]; lia. }
  rewrite Z.shiftl_1_l, u64_small by lia. fold ones.
  destruct (ReadBits_spec prefix br Hwf) as (br1 & Hwf1 & Hr); [lia|]. rewrite bind_unfold.
  destruct (Z.leb_spec prefix (zlen (rbits br))) as [Hle|]; destruct Hr as [-> Hr].
  2: { right; right; right. by exists br1. }
  set (v := val_of _). pose proof (val_of_bound (ztake prefix (rbits br))) as Hv. fold v in Hv.
  rewrite zlen_ztake, Z.min_l in Hv by lia.
  assert (rbits br = zbits prefix v ++ rbits br1) as Hsplit.
  { rewrite Hr, <- (ztake_zdrop prefix (rbits br)) at 1. f_equal. unfold v.
    rewrite <- (bits_of_val_of (ztake prefix (rbits br))) at 1. f_equal. rewrite zlen_ztake; lia. }
  destruct (Z.ltb_spec v ones) as [|Hge].
  { left. by exists v, br1. }
  assert (v = ones) as Hones by lia. clearbody v. subst v. right.
  destruct (ReadInt_loop_sound 10 ones 0 br1)
    as [(bs & w & br2 & Hrun & _ & Hl & Hg & Hlt)|[(bs & br2 & Hrun & _ & Hl & Hlen)|(br2 & Hrun & _)]];
    [lia|done|lia|done|..]; rewrite Hrun, Hsplit.
  - left. exists bs, w, br2. rewrite Hl. rewrite Z.pow_0_r, Z.mul_1_r in *. done.
  - right; left. exists bs, br2. by rewrite Hl.
  - right; right. by exists br2.
Qed.

Lemma ReadInt_exact_witness :
  let br := NewBitReader (MkBytesReader [0xff; 0xff; 0xff; 0xff; 0xff; 0xff; 0xff; 0xff; 0xff; 0xff; 0x02]) in
  (∃ v br', ReadInt 7 br = (Ok v, br') ∧ v < 2 ^ 7 - 1 ∧ rbits br = zbits 7 v ++ rbits br') ∨
  (∃ bs w br', ReadInt 7 br = (Ok (2 ^ 7 - 1 + w), br') ∧ groups bs w ∧ 2 ^ 7 - 1 + w < 2 ^ 64 ∧
     rbits br = zbits 7 (2 ^ 7 - 1) ++ bits_of_bytes bs ++ rbits br') ∨
  (∃ bs br', ReadInt 7 br = (Err ErrIntegerOverflow, br') ∧ length bs = 10%nat ∧
     rbits br = zbits 7 (2 ^ 7 - 1) ++ bits_of_bytes bs ++ rbits br') ∨
  (∃ br', ReadInt 7 br = (Err EOF, br')).
Proof.
  intros br. apply (ReadInt_exact 7 br); [|lia]. split; [by repeat constructor|cbn; lia].
Defined.

(** ** Huffman coding *)

(** Text that was compressed and padded is decompressed by one read into any
    larger buffer. *)
Theorem huffman_roundtrip s n : Forall is_byte s → zlen s < n →
  ∃ bs d', compress s = Ok bs ∧
    HuffmanDecompressor_Read n (NewHuffmanDecompressor (MkBytesReader bs)) = (Ok (s, Some EOF), d').
Proof.
  intros Hs Hn. exists (huffman_bytes s). set (d := NewHuffmanDecompressor _).
  assert (br_wf (hd_reader d)) as Hd by (split; [apply huffman_bytes_bytes|done]).
  pose proof (HuffmanDecompressor_Read_all n d Hd eq_refl) as Hread.
  assert (hd_bits d = huffman_bits s) as Hbits.
  { unfold hd_bits, rbits. cbn. by rewrite zbits_0, huffman_bytes_bits. }
  rewrite Hbits in Hread. unfold huffman_bits in Hread. rewrite decode_codes in Hread by done.
  destruct (decode_padding ((8 - zlen (codes s) mod 8) mod 8)) as [Hp1 Hp2];
    [apply Z.mod_pos_bound; lia|]. unfold ones_pad in Hread. rewrite Hp1, app_nil_r in Hread.
  destruct (Hread Hp2 Hn) as (d' & Hr & _). exists d'. split; [by apply compress_spec|exact Hr].
Qed.

Lemma huffman_roundtrip_witness :
  ∃ bs d', compress [0; 255; 97; 33] = Ok bs ∧
    HuffmanDecompressor_Read 5 (NewHuffmanDecompressor (MkBytesReader bs)) =
      (Ok ([0; 255; 97; 33], Some EOF), d').
Proof. apply huffman_roundtrip; [by repeat constructor|done]. Defined.

(** C20: on any bits, a read of the decompressor agrees with the reference decoder:
    it fills the buffer with a prefix of the text, or delivers all of it with
    [io.EOF] at the end of the bits or an error at an invalid code. *)
Theorem HuffmanDecompressor_Read_decodes {R} `{IoReaderSpec R} n (d : HuffmanDecompressor R) :
  br_wf (hd_reader d) → hd_cursor d = decompressorTree → 0 ≤ n →
  let '(s, c) := decode decompressorTree (hd_bits d) in
  ∃ bs e d', HuffmanDecompressor_Read n d = (Ok (bs, e), d') ∧
    (e = None ∧ zlen bs = n ∧ (∃ s', s = bs ++ s') ∨
     zlen bs < n ∧ bs = s ∧ e = Some (if is_nil c then ErrInvalidHuffman else EOF)).
Proof.
  intros Hwf Hcur Hn. destruct (decode _ _) as [s c] eqn:Hdec.
  destruct (HuffmanDecompressor_loop_spec (Z.to_nat (32 * n)) n [] d)
    as (bs & e & d' & Hrun & _ & Hres); rewrite ?Hcur, ?height_tree, ?zlen_nil;
    [done|apply decompressorTree_not_nil|lia..|].
  rewrite Hcur, Hdec in Hres. cbn [fst snd] in Hres. rewrite app_nil_l in *.
  exists bs, e, d'. split; [exact Hrun|].
  destruct Hres as [(? & ? & ?)|(? & ? & [(-> & _ & ->)|(-> & ->)])]; [left|right|right]; done.
Qed.

Lemma HuffmanDecompressor_Read_decodes_witness :
  let d := NewHuffmanDecompressor (MkBytesReader [0x1c; 0x64; 0xff; 0xff; 0xff; 0xff]) in
  let '(s, c) := decode decompressorTree (hd_bits d) in
  ∃ bs e d', HuffmanDecompressor_Read 9 d = (Ok (bs, e), d') ∧
    (e = None ∧ zlen bs = 9 ∧ (∃ s', s = bs ++ s') ∨
     zlen bs < 9 ∧ bs = s ∧ e = Some (if is_nil c then ErrInvalidHuffman else EOF)).
Proof.
  intros d. apply (HuffmanDecompressor_Read_decodes 9 d); [|reflexivity|lia].
  split; [by repeat constructor|cbn; lia].
Defined.

(** Every byte's code leads from the root of the tree that [makeLayer] builds
    through inner nodes to the leaf of that byte: decoding the code, whatever
    bits follow, gives the byte first, so no code is a prefix of another. *)
Theorem huffman_codes_decode c rest : is_byte c →
  makeLayer 32 0 0 = Ok decompressorTree ∧
  decode decompressorTree (code c ++ rest) =
    (c :: (decode decompressorTree rest).1, (decode decompressorTree rest).2).
Proof.
  intros Hc. split; [apply makeLayer_total|]. by apply walk_to_decode, walk_to_code.
Qed.

Lemma huffman_codes_decode_witness :
  makeLayer 32 0 0 = Ok decompressorTree ∧
  decode decompressorTree (code 10 ++ [true; false]) =
    (10 :: (decode decompressorTree [true; false]).1, (decode decompressorTree [true; false]).2).
Proof. by apply huffman_codes_decode. Defined.

(** ** Strings *)

(** A string written with any choice of coding is read back from any stream
    that goes on with what was written, unless it is the empty string forced
    through the compressor. *)
Theorem string_roundtrip {W R} `{IoWriterSpec W} `{!IoWriterTotal W} `{IoReaderSpec R}
    str prefix choice (bw : bitWriter W) :
  1 ≤ prefix ≤ 8 → slen str < 2 ^ 36 → str ≠ ""%string ∨ choice ≠ HuffmanCodingAlways → bw_ok bw →
  ∃ bits bw', WriteStringRaw str prefix choice bw = (Ok tt, bw') ∧ wbits bw' = wbits bw ++ bits ∧
    ∀ (br : bitReader R) l, br_wf br → rbits br = bits ++ l →
    ∃ br', ReadString prefix br = (Ok str, br') ∧ rbits br' = l.
Proof.
  intros Hp Hlen Hne Hok. pose proof (zlen_nonneg (bytes_of_string str)).
  assert (slen str = zlen (bytes_of_string str)) as Hsl by done.
  pose proof (zlen_nonneg (huffman_bytes (bytes_of_string str))).
  pose proof (zlen_huffman_bytes_le _ (bytes_of_string_bytes str)).
  destruct (WriteStringRaw_writes (W := W) str prefix choice Hp) with bw as (bw' & Hw & _ & Hbits);
    [unfold is_u64; lia|unfold is_u64; lia|done|].
  exists (string_bits str prefix choice), bw'. split_and!; [done|done|]. intros br l Hbr Hl.
  destruct (ReadString_reads (R := R) str prefix choice Hp) with br l as (br' & ? & _ & ?);
    [lia|lia|done..|]. by exists br'.
Qed.

Lemma string_roundtrip_witness :
  ∃ bits bw', WriteStringRaw "www.example.com" 7 HuffmanCodingAuto (NewBitWriter (MkBuffer [])) = (Ok tt, bw') ∧
    wbits bw' = wbits (NewBitWriter (MkBuffer [])) ++ bits ∧
    ∀ (br : bitReader bytesReader) l, br_wf br → rbits br = bits ++ l →
    ∃ br', ReadString 7 br = (Ok "www.example.com"%string, br') ∧ rbits br' = l.
Proof. apply string_roundtrip; [done|vm_compute; reflexivity|by left|apply buffer_ok]. Defined.

(** What [ReadString] does with any bytes after a length: it decodes what is
    there of the announced bytes, in the announced coding, and leaves the stream
    after them; an error only for invalid Huffman codes or when nothing is there. *)
Theorem ReadString_exact {R} `{IoReaderSpec R} prefix h len l (br : bitReader R) :
  br_wf br → 1 ≤ prefix ≤ 8 → 0 ≤ len < 2 ^ 38 → rbits br = h :: int_bits prefix len ++ l →
  ∃ taken br', ReadString prefix br = (string_result h len (string_payload len l), br') ∧
    br_wf br' ∧ l = bits_of_bytes taken ++ rbits br' ∧
    (string_result h len (string_payload len l) ≠ Err ErrInvalidHuffman →
     taken = string_payload len l).
Proof. apply ReadString_spec. Qed.

Lemma ReadString_exact_witness :
  let br := NewBitReader (MkBytesReader [0x03; 0x61; 0x62]) in
  ∃ taken br', ReadString 7 br =
      (string_result false 3 (string_payload 3 (bits_of_bytes [0x61; 0x62])), br') ∧
    br_wf br' ∧ bits_of_bytes [0x61; 0x62] = bits_of_bytes taken ++ rbits br' ∧
    (string_result false 3 (string_payload 3 (bits_of_bytes [0x61; 0x62])) ≠ Err ErrInvalidHuffman →
     taken = string_payload 3 (bits_of_bytes [0x61; 0x62])).
Proof.
  intros br. apply (ReadString_exact 7 false 3 (bits_of_bytes [0x61; 0x62]) br);
    [|lia|lia|reflexivity]. split; [by repeat constructor|cbn; lia].
Defined.

(** [ReadString] drops errors. At the end of the stream it returns the empty
    string and no error; a string cut short is returned as if it were complete;
    and an empty string that was written compressed is an error. *)
Theorem ReadString_lenient :
  (ReadString 7 (NewBitReader (MkBytesReader []))).1 = Ok ""%string ∧
  (ReadString 7 (NewBitReader (MkBytesReader [0x7f]))).1 = Ok ""%string ∧
  (ReadString 7 (NewBitReader (MkBytesReader [0x05; 0x61]))).1 = Ok "a"%string ∧
  let '(o, bw) := WriteStringRaw "" 7 HuffmanCodingAlways (NewBitWriter (MkBuffer [])) in
  o = Ok tt ∧ (ReadString 7 (NewBitReader (MkBytesReader (buf_bytes (bw_writer bw))))).1 = Err EOF.
Proof. vm_compute. split_and!; reflexivity. Qed.

(** ** Frames *)

(** A value below 2^62 is written in the shortest of the four forms, with the
    number of bytes as the result, and read back; a larger one is refused with
    nothing written. *)
Theorem varint_roundtrip {W R} `{IoWriterSpec W} `{!IoWriterTotal W} `{IoReaderSpec R}
    v (bw : bitWriter W) : is_u64 v → bw_ok bw →
  if v <? 2 ^ 62 then
    ∃ bits bw', WriteVarint v bw = (Ok (varint_len v, None), bw') ∧ wbits bw' = wbits bw ++ bits ∧
      zlen bits = 8 * varint_len v ∧
      (∀ k, 0 ≤ k → v < 2 ^ (8 * 2 ^ k - 2) → varint_len v ≤ 2 ^ k) ∧
      ∀ (br : bitReader R) l, br_wf br → rbits br = bits ++ l →
      ∃ br', ReadVarint br = (Ok v, br') ∧ rbits br' = l
  else WriteVarint v bw = (Ok (0, Some ErrTooLarge), bw).
Proof.
  intros Hv Hok. unfold is_u64 in Hv. destruct (Z.ltb_spec v (2 ^ 62)).
  - assert (0 ≤ v < 2 ^ 62) as Hv' by lia.
    destruct (WriteVarint_writes (W := W) v Hv' bw Hok) as (bw' & Hw & _ & Hbits).
    exists (varint_bits v), bw'. split_and!; [done|done|by apply zlen_varint_bits| |].
    + intros k Hk Hlt. unfold varint_len.
      destruct (varintSize_spec v Hv') as (size & -> & Hs & _ & Hmin).
      apply Z.pow_le_mono_r; [done|]. destruct (Z.le_gt_cases size k); [done|].
      assert (2 ^ (8 * 2 ^ k - 2) ≤ 2 ^ (8 * 2 ^ (size - 1) - 2)); [|lia].
      apply Z.pow_le_mono_r; [done|].
      assert (2 ^ k ≤ 2 ^ (size - 1)) by (apply Z.pow_le_mono_r; lia). lia.
    + intros br l Hbr Hl. destruct (ReadVarint_reads (R := R) v Hv' br l Hbr Hl) as (br' & ? & _ & ?).
      by exists br'.
  - unfold WriteVarint, varintSize. by rewrite (proj2 (Z.leb_le _ _)).
Qed.

Lemma varint_roundtrip_witness :
  let bw := NewBitWriter (MkBuffer []) in
  if 16384 <? 2 ^ 62 then
    ∃ bits bw', WriteVarint 16384 bw = (Ok (varint_len 16384, None), bw') ∧
      wbits bw' = wbits bw ++ bits ∧ zlen bits = 8 * varint_len 16384 ∧
      (∀ k, 0 ≤ k → 16384 < 2 ^ (8 * 2 ^ k - 2) → varint_len 16384 ≤ 2 ^ k) ∧
      ∀ (br : bitReader bytesReader) l, br_wf br → rbits br = bits ++ l →
      ∃ br', ReadVarint br = (Ok 16384, br') ∧ rbits br' = l
  else WriteVarint 16384 bw = (Ok (0, Some ErrTooLarge), bw).
Proof. intros bw. apply (varint_roundtrip 16384 bw); [done|apply buffer_ok]. Defined.

(** A frame that was written is read back: first its type and length, then,
    by whatever reads the whole payload from the limited reader, the payload, and
    the stream goes on right after it. *)
Theorem frame_roundtrip {W R} `{IoWriterSpec W} `{!IoWriterTotal W} `{IoReaderSpec R}
    t p (bw : bitWriter W) A (m : go (bitReader (LimitedReader (bitReader R))) A) a :
  is_byte t → Forall is_byte p → zlen p < 2 ^ 62 → bw_ok bw →
  (∀ br, reads (H0 := LimitedReader_spec br (zlen p)) m a (bits_of_bytes p)) →
  ∃ n bits bw', WriteFrame t p bw = (Ok (n, None), bw') ∧ wbits bw' = wbits bw ++ bits ∧
    ∀ (br : bitReader R) l, br_wf br → rbits br = bits ++ l →
    ∃ br' br'', ReadFrame br = (Ok (t, zlen p), br') ∧
      on_Limited (zlen p) m br' = (Ok a, br'') ∧ rbits br'' = l.
Proof.
  intros Ht Hp Hlen Hok Hm. pose proof (zlen_nonneg p).
  destruct (WriteFrame_writes (W := W) t p Ht Hp Hlen bw Hok) as (bw' & Hw & _ & Hbits).
  eexists _, (frame_bits t p), bw'. split_and!; [exact Hw|exact Hbits|]. intros br l Hbr Hl.
  unfold frame_bits in Hl. rewrite <- !(assoc_L (++)) in Hl. rewrite (assoc_L (++)) in Hl.
  destruct (ReadFrame_reads (R := R) t (zlen p) Ht) with br (bits_of_bytes p ++ l)
    as (br1 & Hr1 & Hbr1 & Hl1); [lia|done|done|].
  destruct (on_Limited_reads m a p Hp ltac:(lia) Hm br1 l Hbr1 Hl1) as (br2 & Hr2 & _ & Hl2).
  by exists br1, br2.
Qed.

Lemma frame_roundtrip_witness :
  ∃ n bits bw', WriteFrame frameHeaders [1; 2] (NewBitWriter (MkBuffer [])) = (Ok (n, None), bw') ∧
    wbits bw' = wbits (NewBitWriter (MkBuffer [])) ++ bits ∧
    ∀ (br : bitReader bytesReader) l, br_wf br → rbits br = bits ++ l →
    ∃ br' br'', ReadFrame br = (Ok (frameHeaders, zlen [1; 2]), br') ∧
      on_Limited (zlen [1; 2]) (ReadBits 16) br' = (Ok 258, br'') ∧ rbits br'' = l.
Proof.
  apply (frame_roundtrip frameHeaders [1; 2] (NewBitWriter (MkBuffer [])) Z (ReadBits 16) 258);
    [done|by repeat constructor|done|apply buffer_ok|].
  intros br. by apply ReadBits_reads.
Defined.
