(* ===== verification/TableProps.v ===== *)
(** * The header table and the order of fields: the properties *)

From S2P Require Import Prelude Bits GoIo HuffmanTable Huffman HcString StaticTable Table Codec.

(** A table with two entries for the witnesses. *)
Definition sampleEntry (n v : string) : BasicDynamicEntry := MkBasicDynamicEntry n v 0.

Definition sampleTable : tableCommon BasicDynamicEntry :=
  inserted (inserted (resized newTable 100) (sampleEntry "a" "b")) (sampleEntry "c" "d").

Lemma sampleTable_wf : table_wf sampleTable.
Proof.
  assert (table_wf (resized (newTable (E := BasicDynamicEntry)) 100)) as Hwf
    by (apply resized_wf; [apply newTable_wf|done]).
  apply inserted_wf; [by apply inserted_wf|done].
Qed.

(** Eviction, with or without a check that may refuse and may keep state. It
    either evicts nothing, because the check refused an entry, or it keeps exactly
    the newest entries that fit the limit: they fit, and every prefix of the old
    entries that fits is among them. *)
Theorem evictTo_exact {E} `{DynamicEntryLaws E} {S} (t : tableCommon E) reduced
    (evict : evictionCheck S) (s : S) : table_wf t → 0 ≤ reduced →
  let '(ok, t', _) := evictTo t reduced evict s in
  if ok then
    (∃ k, dynamic t' = take k (dynamic t)) ∧ total (dynamic t') ≤ reduced ∧
    (∀ l, total (take l (dynamic t)) ≤ reduced → take l (dynamic t) = take l (dynamic t')) ∧
    used t' = total (dynamic t') ∧ capacity t' = capacity t ∧ tbase t' = tbase t
  else t' = t ∧ evict ≠ None.
Proof.
  intros Hwf Hred. pose proof (evictTo_spec (λ _ _, True) t reduced evict s Hwf I) as He.
  destruct (evictTo t reduced evict s) as [[[] t'] s'].
  - destruct He as [-> _]; [by intros; destruct evict|]. cbn.
    split_and!; [apply fit_prefix|by apply fit_total|intros; by apply fit_maximal|done..].
  - destruct He as (-> & ? & _); [by intros; destruct evict|done].
Qed.

Lemma evictTo_exact_witness :
  let '(ok, t', _) := evictTo sampleTable 40 None tt in
  if ok then
    (∃ k, dynamic t' = take k (dynamic sampleTable)) ∧ total (dynamic t') ≤ 40 ∧
    (∀ l, total (take l (dynamic sampleTable)) ≤ 40 →
       take l (dynamic sampleTable) = take l (dynamic t')) ∧
    used t' = total (dynamic t') ∧ capacity t' = capacity sampleTable ∧ tbase t' = tbase sampleTable
  else t' = sampleTable ∧ (None : evictionCheck (E := BasicDynamicEntry) unit) ≠ None.
Proof. apply (evictTo_exact sampleTable 40 None tt); [apply sampleTable_wf|done]. Defined.

(** C21: insertion without a check. An entry larger than the capacity empties the
    table; any other goes in front with the next base, the newest old entries
    that fit beside it stay, and the table stays well-formed. *)
Theorem insert_exact {E} `{DynamicEntryLaws E} {S} (t : tableCommon E) e (s : S) :
  table_wf t → tbase t < intMax →
  let '(ok, t', e', _) := insert t e None s in
  table_wf t' ∧ capacity t' = capacity t ∧ ok = (Size e <=? capacity t) ∧
  if ok then
    e' = setBase (tbase t + 1) e ∧ tbase t' = tbase t + 1 ∧
    dynamic t' = e' :: fit (capacity t - Size e) (dynamic t)
  else dynamic t' = [] ∧ tbase t' = tbase t.
Proof.
  intros Hwf Hb. rewrite insert_inserted by done.
  pose proof (inserted_wf t e Hwf Hb) as Hwf'. unfold inserted in *.
  destruct (Z.ltb_spec (capacity t) (Size e)).
  - split_and!; [done|done|symmetry; apply Z.leb_gt; lia|done|done].
  - split_and!; [done|done|symmetry; apply Z.leb_le; lia|done..].
Qed.

Lemma insert_exact_witness :
  let '(ok, t', e', _) := insert sampleTable (sampleEntry "e" "f") None tt in
  table_wf t' ∧ capacity t' = capacity sampleTable ∧
  ok = (Size (sampleEntry "e" "f") <=? capacity sampleTable) ∧
  if ok then
    e' = setBase (tbase sampleTable + 1) (sampleEntry "e" "f") ∧ tbase t' = tbase sampleTable + 1 ∧
    dynamic t' = e' :: fit (capacity sampleTable - Size (sampleEntry "e" "f")) (dynamic sampleTable)
  else dynamic t' = [] ∧ tbase t' = tbase sampleTable.
Proof. apply (insert_exact sampleTable (sampleEntry "e" "f") tt); [apply sampleTable_wf|done]. Defined.

(** An index relative to a base finds the entry with that absolute position
    and nothing else, and the answer survives insertions as long as the entry is
    not evicted. *)
Theorem GetDynamic_absolute {E} `{DynamicEntryLaws E} (t : tableCommon E) i base e new :
  table_wf t → 0 ≤ base ≤ tbase t → 0 ≤ i < 2 ^ 61 → tbase t < 2 ^ 61 →
  (GetDynamic t i base = Some e ↔ e ∈ dynamic t ∧ Base e = base - i) ∧
  (GetDynamic t i base = Some e → e ∈ dynamic (inserted t new) →
   GetDynamic (inserted t new) i base = Some e).
Proof.
  intros Hwf Hbase Hi Hmax. split; [apply GetDynamic_spec; (done || lia)|].
  intros Hget Hin. apply GetDynamic_spec in Hget as [_ He]; [|done|lia..].
  assert (tbase t ≤ tbase (inserted t new) ≤ tbase t + 1)
    by (unfold inserted; destruct (_ <? _); cbn; lia).
  apply GetDynamic_spec; [apply inserted_wf; [done|unfold intMax; lia]|lia..|done].
Qed.

Lemma GetDynamic_absolute_witness :
  let e := MkBasicDynamicEntry "a" "b" 1 in
  (GetDynamic sampleTable 1 2 = Some e ↔ e ∈ dynamic sampleTable ∧ Base e = 2 - 1) ∧
  (GetDynamic sampleTable 1 2 = Some e → e ∈ dynamic (inserted sampleTable (sampleEntry "" "")) →
   GetDynamic (inserted sampleTable (sampleEntry "" "")) 1 2 = Some e).
Proof.
  intros e. apply (GetDynamic_absolute sampleTable 1 2 e (sampleEntry "" ""));
    [apply sampleTable_wf|done..].
Defined.

(** A lookup over the whole table returns an entry with the name and the value
    if there is one, else an entry with the name if there is one. *)
Theorem lookup_complete {E} `{DynamicEntryLaws E} (t : tableCommon E) statics name value :
  ∃ m nm, lookupImpl t statics name value 0 (zlen (dynamic t)) = Ok (m, nm) ∧
  let all := (Static <$> statics) ++ (Dynamic <$> dynamic t) in
  match m with
  | Some e => e ∈ all ∧ matches2 name value e
  | None => (∀ e, e ∈ all → ¬ matches2 name value e) ∧
      match nm with
      | Some e => e ∈ all ∧ matches name e
      | None => ∀ e, e ∈ all → ¬ matches name e
      end
  end.
Proof.
  destruct (lookupImpl_spec t statics name value) as ([m nm] & Hr & Hs).
  exists m, nm. split; [exact Hr|]. cbv zeta in *. destruct m; [|exact Hs].
  destruct Hs as (? & ? & _). done.
Qed.

Lemma lookup_complete_witness :
  ∃ m nm, lookupImpl sampleTable hpackStaticTable "c" "d" 0 (zlen (dynamic sampleTable)) = Ok (m, nm) ∧
  let all := (Static <$> hpackStaticTable) ++ (Dynamic <$> dynamic sampleTable) in
  match m with
  | Some e => e ∈ all ∧ matches2 "c" "d" e
  | None => (∀ e, e ∈ all → ¬ matches2 "c" "d" e) ∧
      match nm with
      | Some e => e ∈ all ∧ matches "c" e
      | None => ∀ e, e ∈ all → ¬ matches "c" e
      end
  end.
Proof. apply (lookup_complete sampleTable hpackStaticTable "c" "d"). Defined.

(** For named fields, the validation accepts exactly the lists in which the
    pseudo-header fields come first. *)
Theorem ValidatePseudoHeaders_exact headers : Forall named headers →
  ValidatePseudoHeaders headers = Ok tt ∧ pseudo_first headers ∨
  ValidatePseudoHeaders headers = Err ErrPseudoHeaderOrdering ∧ ¬ pseudo_first headers.
Proof. apply validate_spec. Qed.

Lemma ValidatePseudoHeaders_exact_witness :
  let hs := [MkHeaderField "accept" "*" false; MkHeaderField ":path" "/" false] in
  ValidatePseudoHeaders hs = Ok tt ∧ pseudo_first hs ∨
  ValidatePseudoHeaders hs = Err ErrPseudoHeaderOrdering ∧ ¬ pseudo_first hs.
Proof. apply ValidatePseudoHeaders_exact. repeat constructor; done. Defined.
