(* ===== verification/QpackProps.v ===== *)
(** * QPACK: the properties

    Round trips between encoder and decoder, the decoder's refinement of the
    abstract decoder and its safety, insertion into the encoder's table, the limit
    on blocked streams, the invariant of every reachable encoder and the handling
    of acknowledgments. *)

From S2P Require Import Prelude Bits GoIo BitWriter BitReader Streams HcInt HuffmanTable Huffman HcString StaticTable Table Codec QpackTable QpackEncoder QpackDecoder QpackTableSpec QpackUsageSpec QpackDecoderSpec QpackEncoderSpec QpackReach QpackBlocked QpackLink QpackAck QpackSamples.

(** ** Round trips *)

(** C1: the table updates an encoder writes take a decoder whose table equals the
    encoder's to the encoder's new table; and the header block that follows, if no
    name it refers to was evicted meanwhile, is decoded there to exactly the
    fields, their names in lower case, each with its sensitivity. The decoder
    acknowledges the block iff it refers to the dynamic table, with the block's
    largest reference. Neither side fails. *)
Theorem qpack_roundtrip lower id headers e w :
  enc_ok e → at_byte w → qe_base e + zlen headers < 2 ^ 60 →
  let st0 := initHeaders lower headers in
  Forall (field_ok (enc_pref e)) (ws_headers st0) →
  ∃ e1 w1 st1 updates, writeTableChanges id (Changing e w st0) = (Ok tt, Changing e1 w1 st1) ∧
    at_byte w1 ∧ buf_bytes (bw_writer w1) = buf_bytes (bw_writer w) ++ updates ∧ enc_ok e1 ∧
    (∀ sent fuel, (8 * length updates < fuel)%nat → ∃ evs br',
      ReadTableUpdates fuel (decoder_at (qe_common_table e) sent (MkBytesReader updates)) =
        (Ok tt, qdec (qe_common_table e1, sent ++ evs) br')) ∧
    (names_live (qe_common_table e1) st1 = true →
     ∃ block e2, WriteHeaderBlock lower id headers (e, w, MkBuffer []) = (Ok tt, (e2, w1, MkBuffer block)) ∧
      enc_ok e2 ∧ qe_common_table e2 = qe_common_table e1 ∧
      ∀ sent fuel, (8 * length block < fuel)%nat → ∃ br',
      ReadHeaderBlock fuel id (decoder_at (qe_common_table e1) sent (MkBytesReader block)) =
        (Ok (ws_headers st0), qdec (qe_common_table e1, sent ++
           if 0 <? largestBase st1 then [EvAcknowledged id (largestBase st1)] else []) br')).
Proof.
  intros Hok Hw Hb st0 Hf. pose proof (enc_base_nonneg e Hok) as Hb0.
  destruct (WriteHeaderBlock_bytes lower id headers e w [] Hok Hw ltac:(constructor) Hb Hf) as
    (us & e1 & st1 & w1 & updates & Hrun & Hw1 & Hac & Hbs & Hbits & Hp & Hblock).
  fold st0 in Hrun, Hp, Hblock. exists e1, w1, st1, updates. pose proof (pp_enc _ _ _ _ _ Hp) as Hok1.
  pose proof (pp_length _ _ _ _ _ Hp). pose proof (pp_base _ _ _ _ _ Hp) as Hbase.
  pose proof (initHeaders_length lower headers) as Hlen. fold st0 in Hlen. split_and!; try done.
  - intros sent fuel Hfuel. destruct (updates_read e (ws_headers st0) us e1 st1 updates) with (sent := sent) (fuel := fuel)
      as (evs & br' & Hr & _); try done; [by rewrite Hlen|by exists evs, br'].
  - intros (raw & ls & e2 & block & Hr2 & Hok2 & Ht2 & Hbb & Hbits2 & Hls & Hraw & Hval & _ & _ & Hdec)%Hblock.
    pose proof (enc_base_nonneg e1 Hok1). exists block, e2. split_and!; [done..|]. intros sent fuel Hfuel.
    destruct (read_block (enc_pref e1) raw false 0 ls (qe_common_table e1) sent id (MkBytesReader block) fuel) as (x' & br' & Hread);
      try done; [change (tbase (qe_common_table e1)) with (qe_base e1); lia| |].
    { intros l. rewrite Hdec. intros [= <-]. pose proof (si_largest _ _ (pp_inv _ _ _ _ _ Hp)). lia. }
    rewrite Hval in Hread. destruct Hread as [Hread ->]. by exists br'.
Qed.

Lemma qpack_roundtrip_witness :
  ∃ e1 w1 st1 updates,
    writeTableChanges 4 (Changing exampleEncoder (NewBitWriter (MkBuffer [])) (initHeaders noLower exampleHeaders)) =
      (Ok tt, Changing e1 w1 st1) ∧
    at_byte w1 ∧ buf_bytes (bw_writer w1) = [] ++ updates ∧ enc_ok e1 ∧
    (∀ sent fuel, (8 * length updates < fuel)%nat → ∃ evs br',
      ReadTableUpdates fuel (decoder_at (qe_common_table exampleEncoder) sent (MkBytesReader updates)) =
        (Ok tt, qdec (qe_common_table e1, sent ++ evs) br')) ∧
    (names_live (qe_common_table e1) st1 = true →
     ∃ block e2, WriteHeaderBlock noLower 4 exampleHeaders
        (exampleEncoder, NewBitWriter (MkBuffer []), MkBuffer []) = (Ok tt, (e2, w1, MkBuffer block)) ∧
      enc_ok e2 ∧ qe_common_table e2 = qe_common_table e1 ∧
      ∀ sent fuel, (8 * length block < fuel)%nat → ∃ br',
      ReadHeaderBlock fuel 4 (decoder_at (qe_common_table e1) sent (MkBytesReader block)) =
        (Ok (ws_headers (initHeaders noLower exampleHeaders)), qdec (qe_common_table e1, sent ++
           if 0 <? largestBase st1 then [EvAcknowledged 4 (largestBase st1)] else []) br')).
Proof.
  apply (qpack_roundtrip noLower 4 exampleHeaders exampleEncoder (NewBitWriter (MkBuffer []))).
  - apply exampleEncoder_ok.
  - apply buffer_at_byte.
  - vm_compute. done.
  - apply exampleHeaders_ok.
Defined.

(** A block from encoder to decoder, with nothing in between. *)
Definition exchange (fuel : nat) (id : Z) (headers : list HeaderField) (e : QpackEncoder) (t : qpackTableCommon)
  : outcome (list HeaderField * list ackEvent) * QpackEncoder * qpackTableCommon :=
  match WriteHeaderBlock noLower id headers (e, NewBitWriter (MkBuffer []), MkBuffer []) with
  | (Ok _, (e', w, MkBuffer block)) =>
      match ReadTableUpdates fuel (decoder_at t [] (MkBytesReader (buf_bytes (bw_writer w)))) with
      | (Ok _, d) =>
          match ReadHeaderBlock fuel id (decoder_at (qd_table d) (qd_sent d) (MkBytesReader block)) with
          | (Ok hs, d') => (Ok (hs, qd_sent d'), e', qd_table d')
          | (Err er, d') => (Err er, e', qd_table d')
          | (_, d') => (Panic, e', qd_table d')
          end
      | (_, d) => (Panic, e', qd_table d)
      end
  | (_, (e', _, _)) => (Panic, e', t)
  end.

(** The witness by evaluation: the names are live, one entry is inserted and the
    fields come back in lower case. *)
Example example_exchange :
  match exchange 2000 4 exampleHeaders exampleEncoder (NewQpackDecoderTable 256) with
  | (Ok (hs, sent), _, _) =>
      (h_Name <$> hs, sent) =
      ([":method"; ":path"; "custom-key"; "password"; "custom-key"]%string, [EvAvailable 1; EvAcknowledged 4 1])
  | _ => False
  end.
Proof. vm_compute. reflexivity. Qed.

Definition smallEncoder : QpackEncoder :=
  (SetMaxBlockedStreams 10 (get_ok emptyEncoder (NewQpackEncoder 100 100))).2.

Definition longValue : string := "0123456789012345678901234567890123456789012345678901234567890123456789".

(** The condition on names in the round trip is needed. Here the first field of
    the second block refers to the entry [aa] for its name only, because it is too
    large to be inserted; the entry of the second field then evicts [aa], which
    only full matches are protected from, and the decoder fails with
    [ErrIndexError] on a block that the encoder wrote without an error. *)
Example qpack_name_evicted :
  let '(o1, e1, t1) := exchange 2000 4 [MkHeaderField "aa" "b" false] smallEncoder (NewQpackDecoderTable 100) in
  let e1' := (AcknowledgeHeader 4 e1).2 in
  let '(o2, e2, t2) := exchange 2000 8
    [MkHeaderField "aa" longValue false; MkHeaderField "c" "0123456789012345678901234567890123456789" false] e1' t1 in
  o1 = Ok ([MkHeaderField "aa" "b" false], [EvAvailable 1; EvAcknowledged 4 1]) ∧
  highestAcknowledged e1' = 1 ∧ o2 = Err ErrIndexError ∧ dynamic t2 = qe_dynamic e2.
Proof. vm_compute. by split_and!. Qed.

(** ** The decoder *)

Definition exampleUpdates : list update :=
  [ UCapacity 200; UInsert "custom-key" "one"; UInsertName true 1 "/path"; UInsertName false 1 "two";
    UDuplicate 1 ]%string.

(** C8: on the encoding of any sequence of table updates, the decoder does what
    the abstract decoder does: the same table and the same messages about
    available entries, or the same error, [ErrIndexError] for a reference to
    nothing and [ErrTableOverflow] for an entry larger than the table. *)
Theorem qpack_updates_refine {R} `{IoReaderSpec R} pref us t sent (r : R) fuel :
  table_wf t → tbase t + zlen us < intMax → Forall (update_ok pref) us →
  rd_wf r → bits_of_bytes (content r) = updates_bits pref us → (8 * length (content r) < fuel)%nat →
  match updates_apply t us with
  | Ok (t', evs) => ∃ br', ReadTableUpdates fuel (decoder_at t sent r) = (Ok tt, qdec (t', sent ++ evs) br')
  | Err e => ∃ x' br', ReadTableUpdates fuel (decoder_at t sent r) = (Err e, qdec x' br')
  | _ => False
  end.
Proof. apply read_updates. Qed.

Lemma qpack_updates_refine_witness :
  let r := MkBytesReader (bytes_of_bits (updates_bits HuffmanCodingNever exampleUpdates)) in
  match updates_apply (NewQpackDecoderTable 256) exampleUpdates with
  | Ok (t', evs) => Name <$> dynamic t' = [":path"; "custom-key"; ":path"; "custom-key"]%string ∧
      ∃ br', ReadTableUpdates 2000 (decoder_at (NewQpackDecoderTable 256) [] r) = (Ok tt, qdec (t', [] ++ evs) br')
  | _ => False
  end.
Proof.
  set (r := MkBytesReader _). split; [by vm_compute|].
  apply (qpack_updates_refine HuffmanCodingNever exampleUpdates (NewQpackDecoderTable 256) [] r 2000).
  - by split.
  - done.
  - repeat constructor; try done; right; done.
  - vm_compute. repeat constructor; congruence.
  - vm_compute. reflexivity.
  - apply Nat.ltb_lt. by vm_compute.
Defined.

(** C9: on the encoding of any block prefix and any field lines but name references
    beyond the base ([line_ok]), the decoder returns the fields that the lines mean
    for its table and acknowledges the block, or the error of the abstract decoder:
    it waits for entries that have not come, refuses a delta of minus zero and an
    index of nothing. It panics exactly where decoding the largest reference does. A
    name reference beyond the base is read one entry off, see
    [post_base_name_off_by_one]. *)
Theorem qpack_block_refine {R} `{IoReaderSpec R} pref raw sign delta ls t sent id (r : R) fuel :
  is_u64 raw → 0 ≤ delta < 2 ^ 62 → 0 ≤ tbase t < 2 ^ 61 →
  (∀ largest, decodeLargestBase t raw = Ok largest → - 2 ^ 61 ≤ largest) →
  Forall (line_ok pref) ls → rd_wf r → bits_of_bytes (content r) = block_bits pref raw sign delta ls →
  (8 * length (content r) < fuel)%nat →
  ∃ x' br', match block_value t id raw sign delta ls with
  | Ok (hs, evs) => ReadHeaderBlock fuel id (decoder_at t sent r) = (Ok hs, qdec x' br') ∧ x' = (t, sent ++ evs)
  | Err e => ReadHeaderBlock fuel id (decoder_at t sent r) = (Err e, qdec x' br')
  | Panic => ReadHeaderBlock fuel id (decoder_at t sent r) = (Panic, qdec x' br')
  | NoFuel => False
  end.
Proof. apply read_block. Qed.

Lemma qpack_block_refine_witness :
  let r := MkBytesReader (bytes_of_bits (block_bits HuffmanCodingNever 4 true 1 exampleLines)) in
  ∃ x' br', match block_value exampleTable 8 4 true 1 exampleLines with
  | Ok (hs, evs) => ReadHeaderBlock 2000 8 (decoder_at exampleTable [] r) = (Ok hs, qdec x' br') ∧
      x' = (exampleTable, [] ++ evs)
  | Err e => ReadHeaderBlock 2000 8 (decoder_at exampleTable [] r) = (Err e, qdec x' br')
  | Panic => ReadHeaderBlock 2000 8 (decoder_at exampleTable [] r) = (Panic, qdec x' br')
  | NoFuel => False
  end.
Proof.
  set (r := MkBytesReader _).
  apply (qpack_block_refine HuffmanCodingNever 4 true 1 exampleLines exampleTable [] 8 r 2000).
  - done.
  - done.
  - by vm_compute.
  - vm_compute. by intros ? [= <-].
  - repeat constructor; try done; right; done.
  - vm_compute. repeat constructor; congruence.
  - vm_compute. reflexivity.
  - apply Nat.ltb_lt. by vm_compute.
Defined.

(** The block on the stream waits in [WaitForEntry]: [largest] is more than the
    inserts of the table. *)
Definition waits_for {R} `{IoReader R} (t : qpackTableCommon) (r : R) : option Z := awaited t (NewBitReader r).

(** C15: on any bytes the reader of table updates comes back, with a result, an error
    or a panic, and leaves a well-formed table (a fuel of one round a bit is enough).
    The reader of a header block comes back and leaves the table as it was, unless the
    largest reference that it decodes is beyond the inserts of the table: then it
    blocks, having changed nothing, and it blocks for ever if that many inserts never
    come; whatever the table is by the time it goes on, it then comes back. *)
Theorem qpack_decoder_safe {R} `{IoReaderSpec R} t sent id (r : R) fuel :
  table_wf t → rd_wf r → 8 * zlen (content r) < Z.of_nat fuel → tbase t + Z.of_nat fuel ≤ intMax →
  (∃ o x' br', ReadTableUpdates fuel (decoder_at t sent r) = (o, qdec x' br') ∧ returns o ∧ table_wf x'.1) ∧
  match waits_for t r with
  | None => ∃ o x' br', ReadHeaderBlock fuel id (decoder_at t sent r) = (o, qdec x' br') ∧ returns o ∧ x'.1 = t
  | Some largest => tbase t < largest ∧
      ∃ br1, readLargestBase (decoder_at t sent r) = (Ok largest, qdec (t, sent) br1) ∧
        ReadHeaderBlock fuel id (decoder_at t sent r) = (Err ErrWouldBlock, qdec (t, sent) br1) ∧
        ∀ t' sent', ∃ o x' br', readBlock fuel id largest (qdec (t', sent') br1) = (o, qdec x' br') ∧ returns o ∧ x'.1 = t'
  end.
Proof.
  intros Hwf Hr Hf Hb. destruct (reader_start r Hr) as [Hbr Hl].
  assert (zlen (rbits (NewBitReader r)) < Z.of_nat fuel) as Hfuel by (rewrite Hl; by zlen_simpl).
  split; [by apply ReadTableUpdates_safe|].
  pose proof (ReadHeaderBlock_ends fuel id (t, sent) (NewBitReader r) Hbr Hfuel) as Hends.
  unfold waits_for. cbn [fst] in Hends. destruct (awaited t (NewBitReader r)) as [largest|].
  - destruct Hends as (Hlt & br1 & Hbr1 & Hl1 & Hlb & Hblock). split; [done|]. exists br1. split_and!; [done..|].
    intros t' sent'. destruct (readBlock_safe fuel id largest (t', sent') br1 Hbr1) as (o & x' & br' & ? & ? & ? & _); [lia|].
    by exists o, x', br'.
  - destruct Hends as (o & x' & br' & ? & ? & ? & _). by exists o, x', br'.
Qed.

(** A block that is read, one that waits for sixteen inserts more, and updates. *)
Definition exampleBlockBytes : list Z := bytes_of_bits (block_bits HuffmanCodingNever 4 true 1 exampleLines).
Definition waitingBytes : list Z := [0x21; 0x80; 0xff; 0x03].

Lemma qpack_decoder_safe_witness :
  (waits_for exampleTable (MkBytesReader exampleBlockBytes) = None ∧
   ∃ o x' br', ReadHeaderBlock 2000 4 (decoder_at exampleTable [] (MkBytesReader exampleBlockBytes)) = (o, qdec x' br') ∧
     returns o ∧ x'.1 = exampleTable) ∧
  (waits_for exampleTable (MkBytesReader waitingBytes) = Some 20 ∧
   ∃ br1, ReadHeaderBlock 100 4 (decoder_at exampleTable [] (MkBytesReader waitingBytes)) =
     (Err ErrWouldBlock, qdec (exampleTable, []) br1)).
Proof.
  split.
  - pose proof (qpack_decoder_safe exampleTable [] 4 (MkBytesReader exampleBlockBytes) 2000 exampleTable_wf) as Hs.
    destruct Hs as [_ Hs]; [vm_compute; repeat constructor; congruence|by vm_compute..|].
    assert (waits_for exampleTable (MkBytesReader exampleBlockBytes) = None) as Hw by (vm_compute; reflexivity).
    rewrite Hw in Hs. split; [exact Hw|exact Hs].
  - pose proof (qpack_decoder_safe exampleTable [] 4 (MkBytesReader waitingBytes) 100 exampleTable_wf) as Hs.
    destruct Hs as [_ Hs]; [repeat constructor; done|by vm_compute..|].
    assert (waits_for exampleTable (MkBytesReader waitingBytes) = Some 20) as Hw by (vm_compute; reflexivity).
    rewrite Hw in Hs. destruct Hs as (_ & br1 & _ & Hb & _). split; [exact Hw|]. by exists br1.
Defined.

(** A name reference beyond the base: with the index 0 it means the first entry after
    the base, and is read as the entry at the base. *)
Example post_base_name_off_by_one :
  let ls := [LPostNameRef false 0 "v"] in
  let r := MkBytesReader (bytes_of_bits (block_bits HuffmanCodingNever 4 true 1 ls)) in
  Name <$> GetDynamic exampleTable (-1) 2 = Some "custom-key"%string ∧
  option_map (map h_Name) (mapM (line_value exampleTable 2) ls) = Some ["custom-key"%string] ∧
  (ReadHeaderBlock 2000 8 (decoder_at exampleTable [] r)).1 = Ok [MkHeaderField ":path" "v" false].
Proof. vm_compute. by split_and!. Qed.

(** ** The encoder *)

Definition exampleLarge : qpackEntry := setBase 4 (new_entry ":path" "/path").

Definition exampleEncoderTable : QpackEncoderTable :=
  SetReferenceableLimit 200 (MkQpackEncoderTable exampleTable 0 0 0).

Lemma exampleTable_sized : Forall sized (dynamic exampleTable).
Proof. by repeat constructor. Qed.

Lemma exampleEncoderTable_wf : etable_wf exampleEncoderTable.
Proof.
  apply SetReferenceableLimit_wf; [|done]. split; cbn; try done; [apply exampleTable_wf|apply exampleTable_sized].
Qed.

(** The largest reference of a block survives its modular encoding: whenever
    it is the base of an entry still in the encoder's table, a decoder that has
    seen fewer inserts than the encoder, but is no more than a full table behind
    that entry, recovers it exactly. *)
Theorem qpack_largest_reference qt (td : qpackTableCommon) (d : qpackEntry) : etable_wf qt →
  capacity (qt_common qt) < 2 ^ 60 → tbase (qt_common qt) < 2 ^ 60 →
  d ∈ dynamic (qt_common qt) → capacity td = capacity (qt_common qt) →
  0 ≤ tbase td ≤ tbase (qt_common qt) → Base d ≤ tbase td + capacity td / 32 →
  ∃ raw, encodeLargestReference (capacity (qt_common qt)) (Base d) = Ok raw ∧ is_u64 raw ∧
         decodeLargestBase td raw = Ok (Base d).
Proof. apply largest_live. Qed.

Lemma qpack_largest_reference_witness :
  let td := resized (newTable (E := BasicDynamicEntry)) 200 in
  ∃ raw, encodeLargestReference (capacity (qt_common exampleEncoderTable)) (Base exampleLarge) = Ok raw ∧
    is_u64 raw ∧ decodeLargestBase td raw = Ok (Base exampleLarge).
Proof.
  apply (qpack_largest_reference exampleEncoderTable (resized newTable 200) exampleLarge).
  - apply exampleEncoderTable_wf.
  - done.
  - done.
  - left.
  - done.
  - done.
  - done.
Defined.

(** C12: insertion into the encoder's table never fails. If the entry goes in, the
    table is that of a plain insertion and the referenceable part is within its
    limit; if it does not, the table is as it was (or emptied, when the entry is
    larger than the table), because the entry is too large or an entry in its way
    may not go. Either way every entry that is gone was let go by the caller's
    check and is in no block in flight, and the table stays well-formed. *)
Theorem encoder_insert_exact qt u name value evict :
  let e : qpackEntry := MkBasicDynamicEntry name value 0 in
  let t := qt_common qt in
  etable_wf qt → sized e → tbase t < intMax →
  ∃ o qt', EncoderTable_Insert qt u name value evict = Ok (o, qt') ∧ etable_wf qt' ∧
    (∀ d, d ∈ dynamic t → d ∈ dynamic (qt_common qt') ∨ (evict d = true ∧ inUse u (Base d) = false)) ∧
    match o with
    | Some d => Size e ≤ capacity t ∧ d = setBase (tbase t + 1) e ∧ qt_common qt' = inserted t e ∧
        referenceableSize qt' ≤ referenceableLimit qt'
    | None => (qt_common qt' = t ∨ (capacity t < Size e ∧ qt_common qt' = inserted t e)) ∧
        (capacity t < Size e ∨ ∃ d, d ∈ dynamic t ∧ ¬ (evict d = true ∧ inUse u (Base d) = false))
    end.
Proof.
  intros e t Hwf He Hb. destruct (EncoderTable_Insert_spec qt u name value evict Hwf He Hb) as (o & qt' & Hi & Hwf' & _ & Hs & Ho).
  by exists o, qt'.
Qed.

(** The entry that would have to go is in use, so the insertion is refused. *)
Lemma encoder_insert_exact_witness :
  let u := set_count 1 1 newUsage in
  ∃ o qt', EncoderTable_Insert exampleEncoderTable u "n" "v" (λ _, true) = Ok (o, qt') ∧ etable_wf qt' ∧
    (∀ d, d ∈ dynamic exampleTable → d ∈ dynamic (qt_common qt') ∨ (true = true ∧ inUse u (Base d) = false)) ∧
    match o with
    | Some d => Size (new_entry "n" "v") ≤ capacity exampleTable ∧
        d = setBase (tbase exampleTable + 1) (new_entry "n" "v") ∧
        qt_common qt' = inserted exampleTable (new_entry "n" "v") ∧
        referenceableSize qt' ≤ referenceableLimit qt'
    | None => (qt_common qt' = exampleTable ∨
          (capacity exampleTable < Size (new_entry "n" "v") ∧ qt_common qt' = inserted exampleTable (new_entry "n" "v"))) ∧
        (capacity exampleTable < Size (new_entry "n" "v") ∨
         ∃ d, d ∈ dynamic exampleTable ∧ ¬ (true = true ∧ inUse u (Base d) = false))
    end.
Proof.
  apply (encoder_insert_exact exampleEncoderTable _ "n" "v" (λ _, true)).
  - apply exampleEncoderTable_wf.
  - done.
  - done.
Defined.

(** C11: the limit on blocked streams, for calls of the encoder that do not overlap
    ([call_reachable]: any header blocks to writers that may fail, acknowledgments,
    resets and settings, one call after the other). Streams of which a block in flight
    uses an entry that is not acknowledged are never more than [blockedStreams], and
    [blockedStreams] never passes the peer's limit. When an acknowledgment comes
    between the two halves of [WriteHeaderBlock], streams can be missed, see
    [blocked_stream_missed]. *)
Theorem qpack_blocking_limit lower e ids : call_reachable lower e → NoDup ids → Forall (stream_blocked e) ids →
  zlen ids ≤ blockedStreams e ≤ maxBlockedStreams e.
Proof.
  intros Hr Hnd Hids. pose proof (reachable_limits lower e Hr) as Hlim. destruct (limit_low e Hlim) as [Ha _].
  destruct (li_limits _ Hlim) as [Ht Hc Hm]. pose proof (waits_limit _ _ ids Ha Ht Hnd Hids). lia.
Qed.

(** Two streams that use the same new entry, with a limit of two. *)
Definition sharedHeader : list HeaderField := [MkHeaderField "aa" "b" false].
Definition oneBlock (id : Z) (e : QpackEncoder) : QpackEncoder :=
  (WriteHeaderBlock noLower id sharedHeader (e, NewBitWriter (MkBuffer []), MkBuffer [])).2.1.1.
Definition unblocked : QpackEncoder := get_ok emptyEncoder (NewQpackEncoder 100 100).
Definition twoBlocked : QpackEncoder := oneBlock 8 (oneBlock 4 (SetMaxBlockedStreams 2 unblocked).2).

Lemma oneBlock_reachable id e : call_reachable noLower e → qe_base e + 1 ≤ 2 ^ 60 → call_reachable noLower (oneBlock id e).
Proof.
  intros Hr Hb. eapply called_step; [exact Hr|]. apply call_write; [exact Hb|]. repeat constructor; by vm_compute.
Qed.

Lemma twoBlocked_reachable : call_reachable noLower twoBlocked.
Proof.
  apply oneBlock_reachable; [apply oneBlock_reachable|]; [|by vm_compute..].
  eapply called_step; [by apply (called_new _ 100 100 unblocked)|by apply call_max_blocked].
Qed.

Lemma twoBlocked_blocked : Forall (stream_blocked twoBlocked) [4; 8].
Proof.
  repeat constructor; unfold stream_blocked, waits_beyond.
  - exists [0%nat], 0%nat, 1. split_and!; [by vm_compute|by left|vm_compute; by left|by vm_compute].
  - exists [1%nat], 1%nat, 1. split_and!; [by vm_compute|by left|vm_compute; by left|by vm_compute].
Qed.

Lemma qpack_blocking_limit_witness : zlen [4; 8] ≤ blockedStreams twoBlocked ≤ maxBlockedStreams twoBlocked.
Proof.
  apply (qpack_blocking_limit noLower twoBlocked [4; 8]).
  - apply twoBlocked_reachable.
  - repeat constructor; set_solver.
  - apply twoBlocked_blocked.
Defined.

(** An acknowledgment between the two halves of [WriteHeaderBlock]: the block of the
    stream 4 inserts two entries; the first is acknowledged before the block is
    written, and the count is made anew from the uses recorded so far, which are
    none. Then the stream 4 is blocked on the second entry and is not counted. *)
Example blocked_stream_missed :
  let hs := [MkHeaderField "aa" "b" false; MkHeaderField "cc" "d" false]%string in
  let e0 := (SetMaxBlockedStreams 1 unblocked).2 in
  let s := (writeTableChanges 4 (Changing e0 (NewBitWriter (MkBuffer [])) (initHeaders noLower hs))).2 in
  let e1 := (AcknowledgeInsert 1 (ch_encoder s)).2 in
  let e2 := wr_encoder (writeHeaderBlock (Writing e1 (NewBitWriter (MkBuffer [])) (ch_state s))).2 in
  blockedStreams (ch_encoder s) = 1 ∧ blockedStreams e2 = 0 ∧ highestAcknowledged e2 = 1 ∧
  tracker (qe_usage e2) !! 4 = Some [0%nat] ∧ hbu_entries (block_of (qe_usage e2) 0) = [1; 2].
Proof. vm_compute. by split_and!. Qed.

(** The count can also stay too large: when the acknowledgment of a block on the
    stream 4 covers the entry that the stream 8 waits for as well, only one of the two
    is taken off, and the acknowledgment of the stream 8 takes off nothing. *)
Example blocked_stream_kept :
  let e1 := (AcknowledgeHeader 4 twoBlocked).2 in
  let e2 := (AcknowledgeHeader 8 e1).2 in
  blockedStreams twoBlocked = 2 ∧ blockedStreams e1 = 1 ∧ blockedStreams e2 = 1 ∧
  tracker (qe_usage e2) = ∅ ∧ highestAcknowledged e2 = qe_base e2.
Proof. vm_compute. by split_and!. Qed.

(** C5: in every state an encoder can reach, by any interleaving of table changes,
    blocks, acknowledgments and changes of its settings, with writers that may
    fail at any point, the table is well-formed, the acknowledged inserts are among
    those made, the entries that are not acknowledged are all in the table and
    [unacknowledgedSize] is exactly their size, and the use count of every entry
    is the number of its uses in the blocks in flight. *)
Theorem qpack_encoder_invariant lower cf : enc_reachable lower cf →
  let e := cf_encoder cf in
  etable_wf (qe_table e) ∧ 0 ≤ highestAcknowledged e ≤ qe_base e ∧ unacked e ≤ zlen (qe_dynamic e) ∧
  unacknowledgedSize e = total (ztake (unacked e) (qe_dynamic e)) ∧
  (∀ b, count_of (qe_usage e) b = u64 (uses_of (qe_usage e) b)) ∧
  (∀ b, (∀ r, b ∉ hbu_entries (block_of (qe_usage e) r)) → inUse (qe_usage e) b = false).
Proof.
  intros Hr. cbv zeta. destruct (reachable_inv lower cf Hr) as [[Hok Hu] _].
  pose proof (eo_held _ Hok) as Hheld. pose proof (eo_acked _ Hok). split_and!;
    [apply (eo_table _ Hok)|unfold unacked in *; lia..|apply (eo_unack _ Hok)|apply (uo_count _ Hu)|].
  intros b Hb. by apply not_in_use.
Qed.

(** An encoder after the table changes for a block and the acknowledgment of its
    insertion; the block is still to be written. *)
Definition ranChanges : changing Buffer :=
  (writeTableChanges 4 (Changing exampleEncoder (NewBitWriter (MkBuffer [])) (initHeaders noLower exampleHeaders))).2.

Definition ranEncoder : QpackEncoder := (AcknowledgeInsert 1 (ch_encoder ranChanges)).2.

Lemma example_reachable : enc_reachable noLower (Config ranEncoder [ch_state ranChanges]).
Proof.
  assert (enc_reachable noLower (Config exampleEncoder [])) as Hstart.
  { eapply reach_step; [apply (reach_new _ 256 256 (get_ok emptyEncoder (NewQpackEncoder 256 256))); done|].
    by apply (step_max_blocked _ 10 _ _ (Ok tt)). }
  assert (enc_reachable noLower (Config (ch_encoder ranChanges) [ch_state ranChanges])) as Hchanged.
  { eapply reach_step; [exact Hstart|].
    apply (step_changes _ Buffer _ 4 exampleHeaders _ _ (NewBitWriter (MkBuffer [])) (Ok tt) ranChanges); [done| |].
    - eapply Forall_impl; [apply exampleHeaders_ok|]. intros h [Hn Hv].
      by apply (Size_new_entry (enc_pref exampleEncoder)).
    - vm_compute. reflexivity. }
  eapply reach_step; [exact Hchanged|].
  apply (step_ack_insert _ 1 _ _ (Ok tt)); [done|by vm_compute|vm_compute; reflexivity].
Qed.

Lemma qpack_encoder_invariant_witness :
  qe_base ranEncoder = 1 ∧ highestAcknowledged ranEncoder = 1 ∧
  etable_wf (qe_table ranEncoder) ∧ 0 ≤ highestAcknowledged ranEncoder ≤ qe_base ranEncoder ∧
  unacked ranEncoder ≤ zlen (qe_dynamic ranEncoder) ∧
  unacknowledgedSize ranEncoder = total (ztake (unacked ranEncoder) (qe_dynamic ranEncoder)) ∧
  (∀ b, count_of (qe_usage ranEncoder) b = u64 (uses_of (qe_usage ranEncoder) b)) ∧
  (∀ b, (∀ r, b ∉ hbu_entries (block_of (qe_usage ranEncoder) r)) → inUse (qe_usage ranEncoder) b = false).
Proof.
  split; [by vm_compute|split; [by vm_compute|]].
  apply (qpack_encoder_invariant noLower (Config ranEncoder [ch_state ranChanges]) example_reachable).
Defined.

(** C10: acknowledgments in a reachable state. An insert count increment is applied
    exactly when it is positive and does not pass the inserts made; it is
    [ErrIndexError] otherwise with nothing changed, except that it panics when its sum
    with the acknowledged inserts overflows an [int]. The acknowledgment or
    cancellation of any stream is applied or is [ErrIndexError], and never panics. *)
Theorem qpack_acknowledgments lower cf : enc_reachable lower cf →
  let e := cf_encoder cf in
  (∀ increment, - 2 ^ 63 ≤ increment ≤ intMax →
     if intMax <? highestAcknowledged e + increment then (AcknowledgeInsert increment e).1 = Panic
     else if (0 <? increment) && (increment <=? unacked e)
     then ∃ e', AcknowledgeInsert increment e = (Ok tt, e') ∧ qe_table e' = qe_table e ∧
       highestAcknowledged e' = highestAcknowledged e + increment
     else AcknowledgeInsert increment e = (Err ErrIndexError, e)) ∧
  (∀ id, ∃ o e', AcknowledgeHeader id e = (o, e') ∧ (o = Ok tt ∨ o = Err ErrIndexError) ∧
     qe_table e' = qe_table e ∧ highestAcknowledged e ≤ highestAcknowledged e') ∧
  (∀ id, ∃ o e', AcknowledgeReset id e = (o, e') ∧ (o = Ok tt ∨ o = Err ErrIndexError) ∧
     qe_table e' = qe_table e ∧ highestAcknowledged e' = highestAcknowledged e).
Proof.
  intros Hr. cbv zeta. destruct (reachable_inv lower cf Hr) as [Hinv _]. split_and!.
  - intros inc [Hlo Hhi]. destruct (Z.ltb_spec intMax (highestAcknowledged (cf_encoder cf) + inc)) as [Hover|Hsum].
    { apply AcknowledgeInsert_overflow; [apply Hinv|done|done]. }
    pose proof (AcknowledgeInsert_spec inc (cf_encoder cf) (proj1 Hinv) Hsum Hlo) as Hs.
    destruct (_ && _); [|done]. destruct Hs as (e' & ? & _ & ? & _ & ?). by exists e'.
  - intros id. destruct (AcknowledgeHeader_spec id _ Hinv) as (o & e' & ? & ? & _ & ? & _ & ?). by exists o, e'.
  - intros id. destruct (AcknowledgeReset_spec id _ Hinv) as (o & e' & ? & ? & _ & ? & _ & ?). by exists o, e'.
Qed.

Lemma qpack_acknowledgments_witness :
  let e := cf_encoder (Config ranEncoder [ch_state ranChanges]) in
  (∀ increment, - 2 ^ 63 ≤ increment ≤ intMax →
     if intMax <? highestAcknowledged e + increment then (AcknowledgeInsert increment e).1 = Panic
     else if (0 <? increment) && (increment <=? unacked e)
     then ∃ e', AcknowledgeInsert increment e = (Ok tt, e') ∧ qe_table e' = qe_table e ∧
       highestAcknowledged e' = highestAcknowledged e + increment
     else AcknowledgeInsert increment e = (Err ErrIndexError, e)) ∧
  (∀ id, ∃ o e', AcknowledgeHeader id e = (o, e') ∧ (o = Ok tt ∨ o = Err ErrIndexError) ∧
     qe_table e' = qe_table e ∧ highestAcknowledged e ≤ highestAcknowledged e') ∧
  (∀ id, ∃ o e', AcknowledgeReset id e = (o, e') ∧ (o = Ok tt ∨ o = Err ErrIndexError) ∧
     qe_table e' = qe_table e ∧ highestAcknowledged e' = highestAcknowledged e).
Proof. apply (qpack_acknowledgments noLower (Config ranEncoder [ch_state ranChanges]) example_reachable). Defined.

(** ** The stream of acknowledgments *)

(** C13: what the decoder's goroutine writes for any messages is read by the
    encoder's loop as exactly the instructions of these messages, in order: the
    handler of each is called once, its error ignored, and the loop ends with
    [io.EOF] at the end of the stream, leaving the encoder's invariant. *)
Theorem qpack_ack_roundtrip evs l e : Forall event_ok evs → 0 ≤ l < 2 ^ 62 → enc_inv e → qe_base e < 2 ^ 62 →
  let '(acks, l', s') := acks_of l l evs in
  ∃ d w, writeAcknowledgements evs (Acking (NewBitWriter (MkBuffer [])) l l true) = (Ok tt, Acking w l' s' d) ∧
    ∀ fuel, (8 * length (buf_bytes (bw_writer w)) < fuel)%nat → ∃ br',
      ServiceAcknowledgments_loop fuel (e, NewBitReader (MkBytesReader (buf_bytes (bw_writer w)))) =
        (Err EOF, (foldl ack_step e acks, br')) ∧ enc_inv (foldl ack_step e acks).
Proof. apply ack_stream. Qed.

Definition exampleEvents : list ackEvent :=
  [EvAvailable 1; EvAcknowledged 4 1; EvCancelled 8; EvAvailable 3; EvTimer].

Lemma exampleEvents_ok : Forall event_ok exampleEvents.
Proof. by repeat constructor. Qed.

Lemma qpack_ack_roundtrip_witness :
  acks_of 0 0 exampleEvents = ([AckHeader 4; AckReset 8; AckInsert 2], 3, 3) ∧
  let '(acks, l', s') := acks_of 0 0 exampleEvents in
  ∃ d w, writeAcknowledgements exampleEvents (Acking (NewBitWriter (MkBuffer [])) 0 0 true) =
      (Ok tt, Acking w l' s' d) ∧
    ∀ fuel, (8 * length (buf_bytes (bw_writer w)) < fuel)%nat → ∃ br',
      ServiceAcknowledgments_loop fuel (exampleEncoder, NewBitReader (MkBytesReader (buf_bytes (bw_writer w)))) =
        (Err EOF, (foldl ack_step exampleEncoder acks, br')) ∧ enc_inv (foldl ack_step exampleEncoder acks).
Proof.
  split; [done|]. apply (qpack_ack_roundtrip exampleEvents 0 exampleEncoder).
  - apply exampleEvents_ok.
  - done.
  - apply exampleEncoder_inv.
  - by vm_compute.
Defined.

(** C14: inserts do get acknowledged, as long as no header block is acknowledged in the
    meantime. When the decoder's last word agrees with the encoder (its
    [largestAcknowledged] and [syncLargest] are the encoder's [highestAcknowledged]),
    the decoder has seen all inserts, has sent nothing else since, and its timer fires,
    then, once the encoder has read the stream, every insert is acknowledged, nothing
    is counted as in flight any more, and the two agree again. When blocks are
    acknowledged out of order the two disagree, see [acknowledged_regress]. *)
Theorem qpack_inserts_acknowledged bs e : enc_inv e → qe_base e < 2 ^ 62 →
  highestAcknowledged e < qe_base e → Forall (λ b, 0 ≤ b ≤ qe_base e) bs → qe_base e ∈ bs →
  let l := highestAcknowledged e in
  ∃ d w, writeAcknowledgements ((EvAvailable <$> bs) ++ [EvTimer]) (Acking (NewBitWriter (MkBuffer [])) l l true) =
      (Ok tt, Acking w (qe_base e) (qe_base e) d) ∧
    ∀ fuel, (8 * length (buf_bytes (bw_writer w)) < fuel)%nat → ∃ e' br',
      ServiceAcknowledgments_loop fuel (e, NewBitReader (MkBytesReader (buf_bytes (bw_writer w)))) =
        (Err EOF, (e', br')) ∧ enc_inv e' ∧
      highestAcknowledged e' = qe_base e' ∧ unacknowledgedSize e' = 0 ∧ qe_base e' = qe_base e.
Proof.
  intros Hinv Hb Hlt Hbs Hin l. pose proof (eo_acked _ (proj1 Hinv)) as Hl.
  pose proof (acks_of_available bs l l) as Hacks.
  rewrite (foldl_max bs l (qe_base e)) in Hacks; [|unfold l; lia| |by right].
  2: { eapply Forall_impl; [exact Hbs|]. cbn. lia. }
  cbv zeta in Hacks. rewrite (proj2 (Z.leb_gt _ _)) in Hacks by (unfold l; lia).
  pose proof (ack_stream ((EvAvailable <$> bs) ++ [EvTimer]) l e) as Hrun. rewrite Hacks in Hrun.
  destruct Hrun as (d & w & Hw & Hread); [|unfold l; lia|done|done|].
  { apply Forall_app. split; [|by repeat constructor]. apply Forall_fmap.
    eapply Forall_impl; [exact Hbs|]. cbn. lia. }
  exists d, w. split; [exact Hw|]. intros fuel Hf. destruct (Hread fuel Hf) as (br' & Hr & Hinv').
  exists (ack_step e (AckInsert (qe_base e - l))), br'. split; [exact Hr|]. split; [exact Hinv'|].
  cbn [foldl] in Hinv'. pose proof (eo_unack _ (proj1 Hinv')) as Hun. revert Hun.
  unfold ack_step. cbn [ack_call]. rewrite i64_small by (unfold l in *; lia).
  pose proof (AcknowledgeInsert_spec (qe_base e - l) e (proj1 Hinv)) as Hs. unfold intMax, unacked in Hs.
  specialize (Hs ltac:(unfold l; lia) ltac:(unfold l; lia)).
  rewrite (proj2 (Z.ltb_lt _ _)), (proj2 (Z.leb_le _ _)) in Hs by (unfold l; lia). cbn [andb] in Hs.
  destruct Hs as (e' & -> & _ & Htab & _ & Hh). cbn [snd].
  assert (qe_base e' = qe_base e) as Hbase by (unfold qe_base; by rewrite Htab).
  intros Hun. split_and!; [unfold l in *; lia| |done].
  rewrite Hun, ztake_0; [done|]. unfold unacked. rewrite Hbase, Hh. unfold l. lia.
Qed.

Definition changedEncoder : QpackEncoder := ch_encoder ranChanges.

Lemma changedEncoder_inv : enc_inv changedEncoder.
Proof.
  destruct (writeTableChanges_keeps (W := Buffer) noLower 4 exampleHeaders exampleEncoder (NewBitWriter (MkBuffer [])))
    as [Hinv _ _ _ _]; [apply exampleEncoder_inv|by vm_compute| |exact Hinv].
  eapply Forall_impl; [apply exampleHeaders_ok|]. intros h [Hn Hv].
  by apply (Size_new_entry (enc_pref exampleEncoder)).
Qed.

Lemma qpack_inserts_acknowledged_witness :
  let l := highestAcknowledged changedEncoder in
  l = 0 ∧ unacknowledgedSize changedEncoder = 55 ∧
  ∃ d w, writeAcknowledgements ((EvAvailable <$> [1]) ++ [EvTimer]) (Acking (NewBitWriter (MkBuffer [])) l l true) =
      (Ok tt, Acking w (qe_base changedEncoder) (qe_base changedEncoder) d) ∧
    ∀ fuel, (8 * length (buf_bytes (bw_writer w)) < fuel)%nat → ∃ e' br',
      ServiceAcknowledgments_loop fuel (changedEncoder, NewBitReader (MkBytesReader (buf_bytes (bw_writer w)))) =
        (Err EOF, (e', br')) ∧ enc_inv e' ∧
      highestAcknowledged e' = qe_base e' ∧ unacknowledgedSize e' = 0 ∧ qe_base e' = qe_base changedEncoder.
Proof.
  split; [by vm_compute|split; [by vm_compute|]].
  apply (qpack_inserts_acknowledged [1] changedEncoder).
  - apply changedEncoder_inv.
  - by vm_compute.
  - by vm_compute.
  - vm_compute. repeat constructor; congruence.
  - vm_compute. left.
Defined.

(** Two inputs that the code does not expect make it panic. An insert count
    increment of 2^63-1, once an insert is acknowledged, overflows the sum that is
    compared with the inserts made, passes both checks and runs off the table; and
    a block with a non-zero largest reference divides by zero on a decoder whose
    table has room for no entry. *)
Theorem qpack_panics :
  (ServiceAcknowledgments_loop 10
    (ranEncoder, NewBitReader (MkBytesReader (bytes_of_bits (ack_bits (AckInsert intMax)))))).1 = Panic ∧
  forallb (λ c, match ReadHeaderBlock 10 4 (decoder_at (NewQpackDecoderTable c) [] (MkBytesReader [2; 0])) with
    | (Panic, _) => true | _ => false end) (seqZ 0 32) = true.
Proof. split; vm_compute; reflexivity. Qed.

(** A block acknowledged late takes [largestAcknowledged] back, and the next
    increment repeats inserts that the encoder knows of already: it is larger than
    it should be and the encoder refuses it. *)
Example acknowledged_regress :
  let evs := [EvAvailable 2; EvAcknowledged 4 2; EvAcknowledged 8 1; EvTimer] in
  acks_of 0 0 evs = ([AckHeader 4; AckHeader 8; AckInsert 1], 2, 2) ∧
  (AcknowledgeInsert 1 (set_highestAcknowledged 1 ranEncoder)).1 = Err ErrIndexError.
Proof. by vm_compute. Qed.
