(* ===== verification/HttpProps.v ===== *)
(** * HTTP: the properties

    The concatenating reader, settings, and messages: what is accepted, that the
    loop does what the abstract machine does, and the round trip of a message from
    one end to the other. *)

From S2P Require Import Prelude Bits GoIo BitWriter BitReader Streams Concat Frame HcInt HuffmanTable Huffman HcString StaticTable Table Codec QpackTable QpackEncoder QpackDecoder QpackTableSpec QpackDecoderSpec QpackEncoderSpec QpackReach QpackLink QpackSamples Settings Headers Message MessageSpec MessageLink HttpSamples.

(** ** The concatenating reader *)

(** C23: for readers that never return bytes together with [io.EOF] ([CleanEOF]):
    however reads, [AddReader] calls and [Close] interleave, the calls of
    [AddReader] return in the order in which they were made, and what was read is
    the content of the readers of the calls that have returned, in order, and the
    beginning of the next one's. The bytes that other readers return with [io.EOF] are
    lost, see [concat_drops_last]. *)
Theorem concat_in_order {R} `{CleanEOF R} (cfg : concat_config R) : concat_reachable cfg →
  Forall (λ m, rd_wf (cm_r m)) (cfg_added cfg) →
  ∃ done later pre, cfg_added cfg = done ++ later ∧ drained (cfg_cat cfg) = cm_drained <$> done ∧
    cfg_read cfg = left_of done ++ pre ∧ pre `prefix_of` left_of (take 1 later).
Proof.
  intros Hr Hwf. destruct (concat_reachable_ok cfg Hr Hwf) as [_ (done & hd & pre & Hadd & Hdr & Hread & Hh)].
  exists done, (hd ++ pending (cfg_cat cfg)), pre. split_and!; try done.
  destruct (held (cfg_cat cfg)) as [m|].
  - destruct Hh as (m0 & -> & _ & Hpre). cbn [app take]. rewrite left_of_cons, Hpre. exists (content (cm_r m)).
    unfold left_of. cbn. by rewrite app_nil_r.
  - destruct Hh as [-> ->]. apply prefix_nil.
Qed.

(** A step of a concrete reader. *)
Ltac concat_go H step H' :=
  eassert (concat_reachable _) as H' by (eapply concat_more; [exact H|eapply step; reflexivity]).

(** Two readers, of which the first has been read: the second is waited for. *)
Lemma sample_concat_reachable : ∃ cfg : concat_config bytesReader, concat_reachable cfg ∧
  Forall (λ m, rd_wf (cm_r m)) (cfg_added cfg) ∧ drained (cfg_cat cfg) = [0%nat] ∧ cfg_read cfg = [1; 2; 3; 4] ∧
  zlen (cfg_added cfg) = 2.
Proof.
  pose proof (concat_new (R := bytesReader)) as Hr.
  concat_go Hr (cstep_add 0 (MkBytesReader [1; 2; 3])) Hr1.
  concat_go Hr1 (cstep_add 1 (MkBytesReader [4; 5])) Hr2.
  concat_go Hr2 (cstep_read 2) Hr3.
  concat_go Hr3 (cstep_next) Hr4.
  concat_go Hr4 (cstep_read 2) Hr5.
  concat_go Hr5 (cstep_read 1) Hr6.
  concat_go Hr6 (cstep_next) Hr7.
  eexists. split; [exact Hr7|]. split; [by repeat constructor|]. by split_and!.
Qed.

Lemma concat_in_order_witness : ∃ cfg : concat_config bytesReader, cfg_read cfg = [1; 2; 3; 4] ∧
  ∃ done later pre, cfg_added cfg = done ++ later ∧ drained (cfg_cat cfg) = cm_drained <$> done ∧
    cfg_read cfg = left_of done ++ pre ∧ pre `prefix_of` left_of (take 1 later).
Proof.
  destruct sample_concat_reachable as (cfg & Hr & Hwf & _ & Hread & _).
  exists cfg. split; [done|]. by apply concat_in_order.
Defined.

(** A [Read] that waits goes on as soon as there is a reader or the
    concatenating reader is closed, and without a panic. It reports the end exactly
    when it is closed and the content of every reader that was added has been
    returned. *)
Theorem concat_waiting {R} `{CleanEOF R} (cfg : concat_config R) n : concat_reachable cfg →
  Forall (λ m, rd_wf (cm_r m)) (cfg_added cfg) → reading (cfg_cat cfg) = Receiving n →
  match Concat.next (cfg_cat cfg) with
  | None => pending (cfg_cat cfg) = [] ∧ closed (cfg_cat cfg) = false
  | Some (Ok (Some (bs, None), _)) => bs ≠ []
  | Some (Ok (Some (bs, Some e), cat')) => bs = [] ∧ e = EOF ∧ closed (cfg_cat cfg) = true ∧
      cfg_read cfg = left_of (cfg_added cfg) ∧ drained cat' = cm_drained <$> cfg_added cfg
  | Some (Ok (None, cat')) => (length (pending cat') < length (pending (cfg_cat cfg)))%nat
  | Some _ => False
  end.
Proof.
  intros Hr Hwf Hn. destruct (concat_reachable_ok cfg Hr Hwf) as [[_ Hp Hrec] (done & hd & pre & Hadd & Hdr & Hread & Hh)].
  unfold held in Hh. rewrite Hn in Hh. destruct Hh as [-> ->]. destruct (Hrec n Hn) as [Hpos _].
  unfold Concat.next. rewrite Hn. destruct (pending (cfg_cat cfg)) as [|m ms] eqn:Hms.
  - destruct (closed (cfg_cat cfg)) eqn:Hcl; [|done]. rewrite !app_nil_r in *. by subst done.
  - apply Forall_cons in Hp as [Hm Hp].
    destruct (readCurrent_spec n m (MkConcatenatingReader ms (closed (cfg_cat cfg)) (Some m) (Receiving n) (drained (cfg_cat cfg))) Hpos Hm Hp)
      as (res & cat' & r' & -> & _ & Hpend & _ & _ & _ & Hres).
    destruct res as [[bs e]|]; [by destruct Hres as (-> & ? & _)|]. rewrite Hpend. cbn. lia.
Qed.

Lemma concat_waiting_witness : ∃ cfg : concat_config bytesReader, concat_reachable cfg ∧
  match Concat.next (cfg_cat cfg) with
  | None => pending (cfg_cat cfg) = [] ∧ closed (cfg_cat cfg) = false
  | Some (Ok (Some (bs, None), _)) => bs ≠ []
  | Some (Ok (Some (bs, Some e), cat')) => bs = [] ∧ e = EOF ∧ closed (cfg_cat cfg) = true ∧
      cfg_read cfg = left_of (cfg_added cfg) ∧ drained cat' = cm_drained <$> cfg_added cfg
  | Some (Ok (None, cat')) => (length (pending cat') < length (pending (cfg_cat cfg)))%nat
  | Some _ => False
  end.
Proof.
  pose proof (concat_new (R := bytesReader)) as Hr.
  concat_go Hr (cstep_add 0 (MkBytesReader [1; 2; 3])) Hr1.
  concat_go Hr1 (cstep_read 2) Hr2.
  eexists. split; [exact Hr2|]. apply (concat_waiting _ 2 Hr2); [by repeat constructor|done].
Defined.

(** The bytes that a reader returns together with the end of its stream are lost. *)
Example concat_drops_last :
  let cat := MkConcatenatingReader [] true (Some (ConcatMessage (BitReader (MkBytesReader [0x23]) 1 4) 0)) Idle [] in
  content (BitReader (MkBytesReader [0x23]) 1 4) = [0x12] ∧
  ∃ cat', ReadCall 8 cat = Ok (Some ([], Some EOF), cat') ∧ drained cat' = [0%nat].
Proof. split; [done|]. by eexists. Qed.

(** ** Settings *)

(** C24: the settings of a configuration are written without an error, with the
    number of bytes they took; a peer with a fresh encoder that reads them sets its
    capacity and its limit on blocked streams to the configuration's, or refuses a
    capacity of 2^30 and more, which the writer lets pass. *)
Theorem settings_roundtrip config (w : bitWriter Buffer) : at_byte w →
  0 ≤ DecoderTableCapacity config < 2 ^ 62 → 0 ≤ ConcurrentDecoders config < 2 ^ 16 →
  ∃ n w' bs, WriteTo config w = (Ok (n, None), w') ∧ at_byte w' ∧
    buf_bytes (bw_writer w') = buf_bytes (bw_writer w) ++ bs ∧ n = zlen bs ∧
    ∀ e fuel, fresh_encoder e → (2 + length bs < fuel)%nat → ∃ o e' br',
      readSettings fuel (e, NewBitReader (MkBytesReader bs)) = (o, (e', br')) ∧ fresh_encoder e' ∧
      if 2 ^ 30 <=? DecoderTableCapacity config then o = Err ErrSettingValue ∧ e' = e
      else o = Ok tt ∧ qe_capacity e' = DecoderTableCapacity config ∧
           maxBlockedStreams e' = ConcurrentDecoders config ∧ dynamic (qt_common (qe_table e')) = dynamic (qt_common (qe_table e)).
Proof.
  intros Hw Hc Hd. destruct (WriteTo_bytes config w Hw Hc Hd) as (w' & bs & Hr & Hw' & Hac & Hbs & Hbits & _).
  exists (zlen bs), w', bs. split_and!; [exact Hr|done..|].
  intros e fuel He Hf. destruct (reader_start (MkBytesReader bs)) as [Hbr Hl]; [exact Hbs|].
  pose proof (config_settings_ok config Hc Hd) as Hok.
  destruct (readSettings_applies (config_settings config) e (NewBitReader (MkBytesReader bs)) fuel fuel Hok)
    as (br' & Hrun & _); [|cbn; lia|done|by rewrite Hl, <- Hbits|].
  - apply Forall_forall. intros x Hx. enough (length (setting_bytes x) ≤ length bs)%nat by lia.
    pose proof (setting_bits_length x).
    pose proof (mjoin_elem_length setting_bits (config_settings config) x Hx). pose proof (bytes_length _ _ Hbits). lia.
  - exists (settings_apply (config_settings config) e).1, (settings_apply (config_settings config) e).2, br'.
    split; [done|]. pose proof (config_applies config e He ltac:(lia) Hd) as Happ.
    destruct (2 ^ 30 <=? _); [by rewrite Happ|]. destruct Happ as (e' & -> & ? & ? & ? & ?). by split_and!.
Qed.

Lemma settings_roundtrip_witness : NewQpackEncoder 0 0 = Ok connectionEncoder ∧
  ∃ n w' bs, WriteTo exampleConfig (NewBitWriter (MkBuffer [])) = (Ok (n, None), w') ∧ at_byte w' ∧
    buf_bytes (bw_writer w') = [] ++ bs ∧ n = zlen bs ∧
    ∀ e fuel, fresh_encoder e → (2 + length bs < fuel)%nat → ∃ o e' br',
      readSettings fuel (e, NewBitReader (MkBytesReader bs)) = (o, (e', br')) ∧ fresh_encoder e' ∧
      o = Ok tt ∧ qe_capacity e' = 4096 ∧ maxBlockedStreams e' = 100 ∧
      dynamic (qt_common (qe_table e')) = dynamic (qt_common (qe_table e)).
Proof.
  split; [by vm_compute|]. apply (settings_roundtrip exampleConfig (NewBitWriter (MkBuffer []))).
  - by split; [split; [|constructor]|].
  - done.
  - done.
Defined.

(** On any bytes [readSettings] ends, with an error or without, and never
    panics, although [SetCapacity] and [SetMaxBlockedStreams] do on an encoder that
    is in use: the settings come before it is. *)
Theorem settings_safe {R} `{IoReaderSpec R} fuel e (br : bitReader R) : fresh_encoder e → br_wf br →
  zlen (rbits br) < Z.of_nat fuel →
  ∃ o e' br', readSettings fuel (e, br) = (o, (e', br')) ∧ ends_well o ∧ fresh_encoder e'.
Proof. intros He Hwf Hf. by apply readSettings_safe. Qed.

Lemma settings_safe_witness : ∃ o e' br',
  readSettings 200 (connectionEncoder, NewBitReader (MkBytesReader [0; 1; 2; 64; 0; 0; 7; 1; 5; 0; 9; 0; 255])) =
    (o, (e', br')) ∧ ends_well o ∧ fresh_encoder e'.
Proof.
  apply settings_safe; [done|split; [by repeat constructor|done]|by vm_compute].
Defined.

(** What is left of a setting that is not read whole becomes the next setting: the
    value's two spare bytes and the byte after them set the limit on blocked
    streams here. *)
Example settings_leftover :
  let bs := [0; 1; 3; 5; 0; 7] ++ [1; 9] in
  match readSettings 100 (connectionEncoder, NewBitReader (MkBytesReader bs)) with
  | (Ok _, (e, _)) => qe_capacity e = 5 ∧ maxBlockedStreams e = 9
  | _ => False
  end.
Proof. vm_compute. by split. Qed.

(** ** Messages *)

(** C22: on the bytes of any frames, whole or cut short at the end, [handleMessage]
    does what the abstract machine does: it delivers the same header lists, bodies
    and trailers, sends the same events to the peer's encoder, and ends with the
    same error, after cancelling the stream. The bodies of whole DATA frames are
    delivered in full. Of a DATA frame that the stream cuts short, the application
    hears a prefix [e']: what the stream returns together with [io.EOF], less than
    the application's buffer, is dropped by [ConcatenatingReader.Read]. Header blocks
    hold no name reference beyond the base ([line_ok]), and frames of other types are
    the business of their handler, which must take its payload and no more. *)
Theorem handleMessage_refines {R} `{IoReaderSpec R} {T} pref t bufSize id headersHandler frameHandler other
    fs e fuel (m : progress T) (br : bitReader R) :
  0 < bufSize → 0 ≤ tbase t < 2 ^ 61 →
  Forall (frame_ok pref t) fs → Forall (other_ok (R := R) t frameHandler other) fs → ending_ok e → br_wf br → rbits br = frames_bits fs ++ ending_bits e →
  zlen (rbits br) + 1 < Z.of_nat fuel →
  ∃ e' br', hears bufSize e e' ∧
    handleMessage bufSize id headersHandler frameHandler fuel (conc t m br) =
      ((message t id headersHandler other fs e' m).1, conc t (message t id headersHandler other fs e' m).2 br').
Proof.
  intros Hbuf Hb Hfs Hother He Hwf Hl Hf.
  apply (handleMessage_follows t pref bufSize id fuel headersHandler frameHandler other Hbuf Hb e fs);
    [done|done|done|rewrite <- Hl; unfold zlen in Hf; lia|done|done].
Qed.

Lemma handleMessage_refines_witness :
  let final := message exampleTable 4 keepHeaders no_others sampleFrames sampleEnding (Progress [] [] []) in
  final.1 = Ok tt ∧ pr_log final.2 = [DBody [1; 2; 3]; DBody [4; 5]] ∧
  h_Value <$> pr_handler final.2 = ["200"; "b"]%string ∧
  (handleMessage 2 4 keepHeaders unsupported 1000 (conc exampleTable (Progress [] [] []) sampleReader)).1 = Ok tt ∧
  ∃ e' br', hears 2 sampleEnding e' ∧
    let final := message exampleTable 4 keepHeaders no_others sampleFrames e' (Progress [] [] []) in
    handleMessage 2 4 keepHeaders unsupported 1000 (conc exampleTable (Progress [] [] []) sampleReader) =
      (final.1, conc exampleTable final.2 br').
Proof.
  cbv zeta. split; [by vm_compute|]. split; [by vm_compute|]. split; [by vm_compute|]. split; [by vm_compute|].
  apply (handleMessage_refines HuffmanCodingNever exampleTable 2 4 keepHeaders unsupported no_others).
  - done.
  - by vm_compute.
  - apply sampleFrames_ok.
  - apply unsupported_ok.
  - apply sampleEnding_ok.
  - apply sampleReader_ok.
  - apply sampleReader_ok.
  - by vm_compute.
Defined.

(** A message is accepted only if it is header blocks, of which only the last
    may begin a body, then DATA frames, then perhaps trailers and nothing after
    them; and what is delivered is then exactly the bodies of the DATA frames, in
    order, and the trailers. A stream may end within a frame's header or within a
    DATA frame, though: then the message is accepted as complete, with what was
    heard of the frame ([hears]). *)
Theorem handleMessage_accepts {R} `{IoReaderSpec R} {T} pref t bufSize id headersHandler
    fs e fuel (m : progress T) (br : bitReader R) s' :
  0 < bufSize → 0 ≤ tbase t < 2 ^ 61 → Forall (frame_ok pref t) fs → ending_ok e →
  br_wf br → rbits br = frames_bits fs ++ ending_bits e → zlen (rbits br) + 1 < Z.of_nat fuel →
  handleMessage bufSize id headersHandler unsupported fuel (conc t m br) = (Ok tt, s') →
  ∃ e' ds, hears bufSize e e' ∧ message_shape fs e' ds ∧ in_log s' = pr_log m ++ ds.
Proof.
  intros Hbuf Hb Hfs He Hwf Hl Hf Hrun.
  destruct (handleMessage_follows t pref bufSize id fuel headersHandler unsupported no_others Hbuf Hb
    e fs Hfs (unsupported_ok t fs) He) with m br as (e' & br' & He' & Hr); [|done|done|].
  { rewrite <- Hl. unfold zlen in Hf. lia. }
  rewrite Hrun in Hr. unfold message, catch in Hr. rewrite bind_unfold in Hr.
  destruct (message_run t id headersHandler no_others Awaiting fs e' m) as [[[]|er| |] m'] eqn:Hm; [| |done|done].
  - apply run_accepts in Hm as (ds & Hds & Hlog). exists e', ds. injection Hr as ->. by split_and!.
  - by destruct er.
Qed.

Lemma handleMessage_accepts_witness : ∃ s' e' ds,
  handleMessage 2 4 keepHeaders unsupported 1000 (conc exampleTable (Progress [] [] []) sampleReader) = (Ok tt, s') ∧
  hears 2 sampleEnding e' ∧ message_shape sampleFrames e' ds ∧ in_log s' = [] ++ ds.
Proof.
  eexists. enough (∀ s', handleMessage 2 4 keepHeaders unsupported 1000 (conc exampleTable (Progress [] [] []) sampleReader) =
    (Ok tt, s') → ∃ e' ds, hears 2 sampleEnding e' ∧ message_shape sampleFrames e' ds ∧ in_log s' = [] ++ ds) as Hall.
  { edestruct Hall as (e' & ds & Hds); [|exists e', ds; split; [|exact Hds]]; vm_compute; reflexivity. }
  intros s' Hr. revert Hr.
  apply (handleMessage_accepts HuffmanCodingNever exampleTable 2 4 keepHeaders sampleFrames sampleEnding
    1000 (Progress [] [] []) sampleReader s').
  - done.
  - by vm_compute.
  - apply sampleFrames_ok.
  - apply sampleEnding_ok.
  - apply sampleReader_ok.
  - apply sampleReader_ok.
  - by vm_compute.
Defined.

(** A message without trailers crosses from one end to the other. The encoder's
    table updates take a decoder with the same table to the new table; the frames
    of the message, read with that table, give the handler the header list in
    lower case and deliver the chunks of the body in order, and the message ends
    without an error. *)
Theorem message_roundtrip lower id headers chunks e w ws :
  enc_ok e → at_byte w → at_byte ws → qe_base e + zlen headers < 2 ^ 60 →
  let fields := ws_headers (initHeaders lower headers) in
  Forall (field_ok (enc_pref e)) fields → ValidatePseudoHeaders fields = Ok tt → Forall chunk_ok chunks →
  ∃ e1 st1 w1 updates, writeTableChanges id (Changing e w (initHeaders lower headers)) = (Ok tt, Changing e1 w1 st1) ∧
    buf_bytes (bw_writer w1) = buf_bytes (bw_writer w) ++ updates ∧
    (∀ sent fuel, (8 * length updates < fuel)%nat → ∃ evs br',
      ReadTableUpdates fuel (decoder_at (qe_common_table e) sent (MkBytesReader updates)) =
        (Ok tt, qdec (qe_common_table e1, sent ++ evs) br')) ∧
    (names_live (qe_common_table e1) st1 = true →
     ∃ block e2, WriteHeaderBlock lower id headers (e, w, MkBuffer []) = (Ok tt, (e2, w1, MkBuffer block)) ∧
     (zlen block < 2 ^ 62 →
      ∃ w2 bs, sendMessage lower id headers chunks (Outgoing e w ws false) = (Ok tt, Outgoing e2 w1 w2 true) ∧
        buf_bytes (bw_writer w2) = buf_bytes (bw_writer ws) ++ bs ∧
        ∀ T bufSize headersHandler fuel sent log (h h' : T), 0 < bufSize → headersHandler fields h = (Ok true, h') →
          (8 * length bs + 1 < fuel)%nat →
          ∃ br', handleMessage bufSize id headersHandler unsupported fuel
            (Incoming (qe_common_table e1) sent (NewBitReader (MkBytesReader bs)) log h) =
            (Ok tt, Incoming (qe_common_table e1)
               (sent ++ if 0 <? largestBase st1 then [EvAcknowledged id (largestBase st1)] else []) br'
               (log ++ bodies chunks) h'))).
Proof.
  intros Hok Hw Hws Hb fields Hf Hv Hc.
  destruct (message_crosses lower id headers chunks e w ws) as (e1 & st1 & w1 & updates & Hrun & Hac & Hread & Hblock); [done..|].
  exists e1, st1, w1, updates. split_and!; [done|done| |].
  { intros sent fuel Hfuel. destruct (Hread sent fuel Hfuel) as (evs & br' & Hr & _). by exists evs, br'. }
  intros (block & e2 & Hwr & _ & Hsend)%Hblock.
  exists block, e2. split; [done|]. intros (w2 & bs & Hs & _ & Hac2 & Hmsg)%Hsend. exists w2, bs. split_and!; [done..|].
  intros T bufSize headersHandler fuel sent log h h'. apply Hmsg.
Qed.

Lemma message_roundtrip_witness : ∃ t e2 w1 w2 evs br',
  sendMessage noLower 4 exampleHeaders [[1; 2]; [3]] (Outgoing exampleEncoder emptyWriter emptyWriter false) =
    (Ok tt, Outgoing e2 w1 w2 true) ∧
  handleMessage 4 4 keepHeaders unsupported 5000
    (Incoming t [] (NewBitReader (MkBytesReader (buf_bytes (bw_writer w2)))) [] []) =
    (Ok tt, Incoming t evs br' [DBody [1; 2]; DBody [3]] (ws_headers (initHeaders noLower exampleHeaders))).
Proof.
  destruct (message_roundtrip noLower 4 exampleHeaders [[1; 2]; [3]] exampleEncoder emptyWriter emptyWriter)
    as (e1 & st1 & w1 & updates & Hrun & _ & _ & Hblock).
  - apply exampleEncoder_ok.
  - apply buffer_at_byte.
  - apply buffer_at_byte.
  - by vm_compute.
  - apply exampleHeaders_ok.
  - by vm_compute.
  - by repeat constructor.
  - destruct Hblock as (block & e2 & Hwr & Hsend).
    { apply (f_equal (λ r, names_live (qe_common_table (ch_encoder r.2)) (ch_state r.2))) in Hrun.
      etransitivity; [symmetry; exact Hrun|vm_compute; reflexivity]. }
    destruct Hsend as (w2 & bs & Hs & Hac & Hread).
    { apply (f_equal (λ r, zlen (buf_bytes r.2.2))) in Hwr. cbn [snd buf_bytes] in Hwr. rewrite <- Hwr.
      vm_compute. reflexivity. }
    destruct (Hread _ 4 keepHeaders 5000%nat [] [] [] (ws_headers (initHeaders noLower exampleHeaders))) as (br' & Hr);
      [done|done| |].
    { apply (f_equal (λ r, (8 * length (buf_bytes (bw_writer (og_stream r.2))) + 1 <? 5000)%nat)) in Hs.
      cbn [snd og_stream] in Hs. rewrite Hac in Hs. apply Nat.ltb_lt.
      etransitivity; [symmetry; exact Hs|vm_compute; reflexivity]. }
    eexists _, e2, w1, w2, _, br'. split; [exact Hs|]. rewrite Hac. exact Hr.
Defined.

(** The round trip by evaluation. *)
Example example_message :
  let '(o, s) := sendMessage noLower 4 exampleHeaders [[1; 2]; [3]] (Outgoing exampleEncoder emptyWriter emptyWriter false) in
  let '(o', d) := ReadTableUpdates 2000 (decoder_at (qe_common_table exampleEncoder) []
    (MkBytesReader (buf_bytes (bw_writer (og_updates s))))) in
  let '(o'', m) := handleMessage 4 4 keepHeaders unsupported 5000
    (Incoming (qd_table d) [] (NewBitReader (MkBytesReader (og_bytes s))) [] []) in
  (o, o', o'') = (Ok tt, Ok tt, Ok tt) ∧ in_log m = [DBody [1; 2]; DBody [3]] ∧
  h_Name <$> in_handler m = [":method"; ":path"; "custom-key"; "password"; "custom-key"]%string.
Proof. vm_compute. by split_and!. Qed.
