(* ===== verification/ConnProps.v ===== *)
(** * Connections and push: the properties

    The control stream as an abstract service, for any handler that keeps its
    contract; push identifiers and promises; credit for pushes from client to
    server. *)

From S2P Require Import Prelude Bits GoIo BitWriter BitReader Streams Frame HcInt HuffmanTable Huffman HcString StaticTable Table Codec QpackTable QpackEncoder QpackDecoder QpackDecoderSpec QpackLink QpackSamples Settings Headers Message MessageSpec MessageLink Connection ConnectionSpec Push PushSpec PushStream HttpSamples.

(** ** The control stream *)

(** C25: the control stream of a client or server does what the abstract service
    does, for any handler that keeps the contract [HandlerSpec] (both ends do): it
    applies the settings of the peer, marks the connection as ready (and panics if
    it is so already, on a second control stream), handles each frame in turn,
    skips priorities, and ends with the first error or, with [io.EOF], with the
    stream. *)
Theorem control_stream_refines {W S} `{HandlerSpec W S} {R} `{IoReaderSpec R} xs p fs e fuel (s : S) (br : bitReader R) :
  Forall setting_ok xs → Forall is_byte p → zlen p < 2 ^ 62 → bits_of_bytes p = mjoin (setting_bits <$> xs) →
  Forall control_ok fs → header_cut e → br_wf br →
  rbits br = frame_bits frameSettings p ++ control_bits fs ++ e → zlen (rbits br) < Z.of_nat fuel →
  ∃ br', serviceControlStream fuel (s, br) = ((control_service xs fs s).1, ((control_service xs fs s).2, br')).
Proof.
  intros Hxs Hp Hlen Hbits Hfs He Hwf Hl Hf.
  apply (serviceControlStream_follows xs p fs e fuel); [done..| |done|done]. rewrite <- Hl. unfold zlen in Hf. lia.
Qed.

(** [connect] makes the sample connection. *)
Example connect_sample :
  let '(o, st) := connect exampleConfig (Streams (NewBitWriter (MkBuffer [])) (MkBuffer []) (MkBuffer [])) in
  o = Ok (set_updates (NewBitWriter (st_updates st)) (set_control (st_control st) sampleConnection)) ∧
  buf_bytes (st_updates st) = [unidirectionalStreamQpackEncoder] ∧
  buf_bytes (st_acks st) = [unidirectionalStreamQpackDecoder] ∧
  take 3 (buf_bytes (bw_writer (st_control st))) = [unidirectionalStreamControl; 10; frameSettings].
Proof. vm_compute. by split_and!. Qed.

Lemma control_stream_refines_witness :
  let bits := frame_bits frameSettings samplePayload ++ control_bits sampleControl ++ [] in
  let final := control_service (H0 := ServerConnection_spec None) sampleSettings sampleControl sampleServer in
  final.1 = Err EOF ∧ maxPushID final.2 = 5 ∧ cancelledPushes final.2 = {[2]} ∧
  c_ready (sc_connection final.2) = true ∧ maxBlockedStreams (c_encoder (sc_connection final.2)) = 3 ∧
  ∃ br', serviceControlStream (H := ServerConnection_handler None) 1000 (sampleServer, NewBitReader (MkBytesReader (bytes_of_bits bits))) =
    (final.1, (final.2, br')).
Proof.
  cbv zeta. split; [by vm_compute|]. split; [by vm_compute|]. split; [by vm_compute|]. split; [by vm_compute|].
  split; [by vm_compute|].
  apply (control_stream_refines (H0 := ServerConnection_spec None) sampleSettings samplePayload sampleControl [] 1000).
  - apply Forall_cons; split; [by split; [left|]|]. apply Forall_cons; split; [by split_and!; [..|repeat constructor|]|].
    apply Forall_cons; split; [by split; [right|]|constructor].
  - vm_compute. by repeat constructor.
  - by vm_compute.
  - by vm_compute.
  - repeat constructor; done.
  - apply header_cut_nil.
  - split; [|done]. vm_compute. by repeat constructor.
  - by vm_compute.
  - by vm_compute.
Defined.

(** A control stream that begins with another frame is left without an error, and
    the connection never becomes ready. *)
Example control_stream_ignored :
  let bs := bytes_of_bits (control_bits sampleControl) in
  let '(o, (c, _)) := serviceControlStream (H := ServerConnection_handler None) 1000
    (sampleServer, NewBitReader (MkBytesReader bs)) in
  o = Ok tt ∧ c = sampleServer.
Proof. vm_compute. by split. Qed.

(** A second control stream panics. *)
Example second_control_stream :
  let bits := frame_bits frameSettings samplePayload in
  let serve c := serviceUnidirectionalStream (H := ServerConnection_handler None) 1000
    (c, NewBitReader (MkBytesReader (unidirectionalStreamControl :: bytes_of_bits bits))) in
  let '(o, (c, _)) := serve sampleServer in
  o = Ok tt ∧ c_ready (sc_connection c) = true ∧ (serve c).1 = Panic.
Proof. vm_compute. by split_and!. Qed.

(** ** Push identifiers *)

(** C26: as long as calls of [getNextPushID] do not overlap, a server hands out the push
    identifiers 0, 1, 2, ... in order and each only once, and never one at or past the
    limit that the client has set, whatever limits, cancellations and calls come in
    between the reads and writes of a call. Calls that overlap, which the code's read
    lock allows, break this: see [push_ids_race]. *)
Theorem push_ids_in_order {W} `{IoWriter W} (c : ServerConnection W) calls ids : push_reachable 1 c calls ids →
  (∀ i id, ids !! i = Some id → id = Z.of_nat i ∧ id < maxPushID c) ∧
  (∀ id, calls = [PReturned (Some id)] → id = zlen ids ∧ id < maxPushID c) ∧
  (calls = [] → nextPushID c = zlen ids) ∧ nextPushID c ≤ maxPushID c ∧ is_u64 (maxPushID c).
Proof.
  intros Hc%push_reachable_alone. assert (∀ ids, ids_ok c ids → ∀ i id, ids !! i = Some id → id = Z.of_nat i ∧ id < maxPushID c) as Hall.
  { intros ids' (H1 & H2 & _ & H4) i id Hi. pose proof (lookup_lt_Some _ _ _ Hi) as Hlt.
    rewrite H4, list_lookup_fmap, lookup_seq_lt in Hi by done. injection Hi as <-. unfold zlen in H1. lia. }
  assert (∃ ids', ids_ok c (ids ++ ids') ∧ (calls = [] → ids' = []) ∧ ∀ id, calls = [PReturned (Some id)] → ids' = [id])
    as (ids' & Hok & Hnone & Hsome).
  { destruct calls as [|call []]; [exists []; by rewrite app_nil_r| |done].
    destruct call as [| | | |[id|]]; cbn in Hc; [..|exists [id]; split_and!; [done..|by intros ? [= ->]]|];
      exists []; rewrite app_nil_r; by destruct_and?. }
  pose proof (Hall _ Hok) as Hin. destruct Hok as (H1 & H2 & H3 & _). split_and!; [|  | |done|done].
  - intros i id Hi. apply Hin. by apply lookup_app_l_Some.
  - intros id Hid. rewrite (Hsome id Hid) in Hin. unfold zlen. apply Hin. by apply list_lookup_middle.
  - intros Hn. by rewrite (Hnone Hn), app_nil_r in H1.
Qed.

(** Two calls that went through, and one that has its identifier and is about to
    store. *)
Lemma push_ids_in_order_witness : ∃ c : ServerConnection Buffer, maxPushID c = 3 ∧
  (∀ i id, [0; 1] !! i = Some id → id = Z.of_nat i ∧ id < maxPushID c) ∧
  (∀ id, [PStore 2 2] = [PReturned (Some id)] → id = zlen [0; 1] ∧ id < maxPushID c) ∧
  ([PStore 2 2] = [] → nextPushID c = zlen [0; 1]) ∧ nextPushID c ≤ maxPushID c ∧ is_u64 (maxPushID c).
Proof.
  exists (MkServerConnection sampleConnection 2 3 ∅). split; [done|]. apply push_ids_in_order.
  assert (push_reachable 1 (MkServerConnection sampleConnection 0 3 ∅) [] []) as Hstart.
  { eapply (pr_max _ (MkServerConnection sampleConnection 0 0 ∅) [] 3); [apply pr_new|done|done]. }
  assert (∀ n ids, push_reachable 1 (MkServerConnection sampleConnection n 3 ∅) [] ids → 0 ≤ n < 3 →
    push_reachable 1 (MkServerConnection sampleConnection n 3 ∅) [PStore n n] ids) as Hcall.
  { intros n ids Hn Hlt. apply (run_calls_reachable 1 [0; 0; 0]%nat [PTest] _ _ _ _ (pr_call 1 _ [] _ Hn (le_n 1))).
    cbn [run_calls lookup list_lookup callStep]. rewrite bind_unfold, bind_unfold. cbn [getS maxPushID nextPushID].
    by rewrite (proj2 (Z.leb_gt _ _)) by lia. }
  assert (∀ n ids, push_reachable 1 (MkServerConnection sampleConnection n 3 ∅) [PStore n n] ids → 0 ≤ n < 3 →
    push_reachable 1 (MkServerConnection sampleConnection (n + 1) 3 ∅) [] (ids ++ [n])) as Hstore.
  { intros n ids Hn Hlt. apply (pr_return _ _ [] (Some n) []). apply (pr_step _ _ [] (PStore n n) [] _ _ _ Hn).
    cbn [callStep]. rewrite bind_unfold. cbn. by rewrite u64_small by lia. }
  apply Hcall; [|done]. apply (Hstore 1 [0]); [|done]. apply Hcall; [|done]. apply (Hstore 0 []); [|done]. by apply Hcall.
Defined.

(** Two calls that overlap can return the same identifier, and can return one past the
    client's limit. *)
Theorem push_ids_race : ∃ c1 c2 : ServerConnection Buffer,
  push_reachable 2 c1 [PReturned (Some 0); PReturned (Some 0)] [] ∧ maxPushID c1 = 5 ∧
  push_reachable 2 c2 [PReturned (Some 0); PReturned (Some 1)] [] ∧ maxPushID c2 = 1.
Proof.
  exists (MkServerConnection sampleConnection 1 5 ∅), (MkServerConnection sampleConnection 2 1 ∅).
  assert (∀ n, is_u64 n → 0 < n → push_reachable 2 (MkServerConnection sampleConnection 0 n ∅) [PTest; PTest] []) as Hboth.
  { intros n Hn Hpos. apply (pr_call _ _ [PTest]); [|cbn; lia]. apply (pr_call _ _ []); [|cbn; lia].
    eapply (pr_max _ (MkServerConnection sampleConnection 0 0 ∅) [] n); [apply pr_new|done|].
    unfold raiseMaxPushID, modS. cbn. by rewrite (proj2 (Z.ltb_lt _ _)). }
  split_and!; [|done| |done].
  - by apply (run_calls_reachable 2 [0; 1; 0; 1; 0; 1; 0; 1]%nat [PTest; PTest] _ _ _ _ (Hboth 5 ltac:(done) ltac:(done))).
  - by apply (run_calls_reachable 2 [0; 1; 0; 0; 0; 1; 1; 1]%nat [PTest; PTest] _ _ _ _ (Hboth 1 ltac:(done) ltac:(done))).
Qed.

(** ** Push promises *)

(** C27: a promise is settled once, by a CANCEL_PUSH frame or by the header block of a
    push stream, whichever comes first, in any state the client can reach; and it stays
    settled that way whatever follows. What comes later depends on the operation: a
    CANCEL_PUSH frame panics, so that a server makes a client panic with two frames; a
    new push stream is refused with the error "double fulfilment of promise" and
    changes nothing; the header block of a push stream that began before panics. And
    [Cancel] stops the stream of a promise that has its response, and dereferences nil
    for any other. *)
Theorem promise_settled_once `{UrlLib} lower {W} `{IoWriter W} {R} `{IoReaderSpec R} (c : ClientConnection W) id :
  client_reachable lower c → 0 ≤ id < 2 ^ 62 →
  let pp := promise_of id c in
  (isFulfilled pp = false → ∃ c1,
    cancel_effect id c = (Ok tt, c1) ∧ outcome_of id c1 = (true, None) ∧
    ∀ stream hs, final_status lower hs → ∃ c2, pushHeaders lower id (MkClientResponse stream [] 0) hs c = (Ok true, c2) ∧
      outcome_of id c2 = (false, Some (MkClientResponse stream hs (GetStatus lower hs)))) ∧
  (isFulfilled pp = true →
    (cancel_effect id c).1 = Panic ∧
    (∀ bufSize stream fuel (br : bitReader R) l, br_wf br → rbits br = varint_bits id ++ l → ∃ br',
      handlePushStream lower bufSize stream fuel (c, br) = (Err (ErrText "double fulfilment of promise"), (c, br'))) ∧
    (∀ stream hs, final_status lower hs → (pushHeaders lower id (MkClientResponse stream [] 0) hs c).1 = Panic) ∧
    (∀ c', rtc (client_step lower) c c' → outcome_of id c' = outcome_of id c)) ∧
  ∀ stop, Cancel stop pp =
    match pp_response pp with
    | Some _ => match stop with Some e => Err e | None => Ok tt end
    | None => Panic
    end.
Proof.
  intros Hc%client_reachable_ok Hid pp. pose proof (promise_of_ok c id Hc) as Hpp. fold pp in Hpp.
  pose proof (cancel_effect_run id c Hc) as Hcancel. fold pp in Hcancel. cbv zeta in Hcancel. split_and!.
  - intros Hs. rewrite Hs in Hcancel. rewrite Hcancel. eexists. split; [done|]. split; [unfold outcome_of; by rewrite promise_of_set|].
    intros stream hs Hfinal. destruct (pushHeaders_final lower stream id hs c Hc Hs Hfinal) as (c2 & Hr & _ & _ & Hresp & _ & Hcan).
    exists c2. split; [exact Hr|]. unfold outcome_of. by rewrite Hresp, Hcan.
  - intros Hs. rewrite Hs in Hcancel. split_and!.
    + by rewrite Hcancel.
    + intros bufSize stream fuel br l Hwf Hl. destruct (ReadVarint_reads id Hid br l Hwf Hl) as (br' & Hr & _). exists br'.
      unfold handlePushStream. rewrite bind_unfold. unfold zoom at 1. cbn [fst snd]. rewrite Hr.
      rewrite bind_unfold. unfold zoom at 1. cbn [fst snd]. rewrite getPushPromise_run. cbn [fst snd]. fold pp. rewrite Hs.
      unfold pp in *. by rewrite set_promise_settled.
    + intros stream hs [Hs0 Hs1]. unfold pushHeaders. rewrite !(proj2 (Z.eqb_neq _ _)) by done. rewrite bind_unfold.
      unfold on_promise, zoom. fold pp. by rewrite (fulfill_run id), Hs.
    + intros c' Hsteps. by apply (client_steps_ok lower c c' Hc Hsteps).
  - intros stop. destruct Hpp as (Hpid & _ & Hcan). unfold Cancel. destruct (isFulfilled pp) eqn:Hs; [by destruct (pp_response pp)|].
    rewrite Hpid, varintBuffer_spec by done. unfold isFulfilled in Hs. by destruct (pp_response pp).
Qed.

(** A promise that is open, and one that a frame has cancelled. *)
Definition cancelledClient : ClientConnection Buffer := (cancel_effect 3 (NewClientConnection sampleConnection)).2.

Definition finalHeaders : list HeaderField := [MkHeaderField ":status" "200" false]%string.

Lemma promise_settled_once_witness :
  (∃ c1, cancel_effect 4 cancelledClient = (Ok tt, c1) ∧ outcome_of 4 c1 = (true, None)) ∧
  (∃ c2, pushHeaders noLower 4 (MkClientResponse 7 [] 0) finalHeaders cancelledClient = (Ok true, c2) ∧
    outcome_of 4 c2 = (false, Some (MkClientResponse 7 finalHeaders 200))) ∧
  (cancel_effect 3 cancelledClient).1 = Panic ∧
  (∃ br', handlePushStream noLower 10 7 50 (cancelledClient, NewBitReader (MkBytesReader [3; 1; 0])) =
    (Err (ErrText "double fulfilment of promise"), (cancelledClient, br'))) ∧
  (pushHeaders noLower 3 (MkClientResponse 7 [] 0) finalHeaders cancelledClient).1 = Panic ∧
  Cancel None (promise_of 3 cancelledClient) = Panic.
Proof.
  assert (client_reachable noLower cancelledClient) as Hc.
  { exists sampleConnection. eapply rtc_once, (cs_cancel _ _ _ 3). apply surjective_pairing. }
  destruct (promise_settled_once noLower (R := bytesReader) cancelledClient 4 Hc ltac:(done)) as (Hopen & _).
  destruct (promise_settled_once noLower (R := bytesReader) cancelledClient 3 Hc ltac:(done)) as (_ & Hsettled & Hcancel).
  destruct (Hopen ltac:(by vm_compute)) as (c1 & H1 & H2 & H3). destruct (Hsettled ltac:(by vm_compute)) as (H4 & H5 & H6 & _).
  assert (final_status noLower finalHeaders) as Hf by (by vm_compute).
  split_and!; [by exists c1|exact (H3 7 _ Hf)|exact H4| |exact (H6 7 _ Hf)|exact (Hcancel None)].
  apply (H5 10 7 50%nat (NewBitReader (MkBytesReader [3; 1; 0])) (bits_of_bytes [1; 0])); [|by vm_compute].
  apply (reader_start (MkBytesReader [3; 1; 0])). by repeat constructor.
Defined.

(** Two CANCEL_PUSH frames for one identifier. *)
Example cancel_twice :
  let frame := (frameCancelPush, [5]) in
  let run := control_run (H0 := ClientConnection_spec (W := Buffer) noLower None 100 3) in
  (run [frame] (NewClientConnection sampleConnection)).1 = Err EOF ∧
  (run [frame; frame] (NewClientConnection sampleConnection)).1 = Panic.
Proof. vm_compute. by split. Qed.

(** C40: push control crosses the connection. The credit a client writes is a frame
    with which the server's limit becomes at least the client's; the cancellation a
    server writes is a frame that cancels the promise of the same identifier at the
    client. Each frame is taken whole from the control stream, whatever follows. *)
Theorem push_control_roundtrip `{UrlLib} lower bufSize stream stopC stopS (c : ClientConnection Buffer)
    (s : ServerConnection Buffer) n id :
  0 ≤ cc_maxPushID c → 0 ≤ n → cc_maxPushID c + n < 2 ^ 62 → 0 ≤ id < 2 ^ 62 → promises_ok c →
  isFulfilled (promise_of id c) = false →
  at_byte (c_controlStream (cc_connection c)) → at_byte (c_controlStream (sc_connection s)) →
  ∃ c1 s1 credit cancel, creditPushes n c = (Ok tt, c1) ∧ cc_maxPushID c1 = cc_maxPushID c + n ∧
    buf_bytes (bw_writer (c_controlStream (cc_connection c1))) =
      buf_bytes (bw_writer (c_controlStream (cc_connection c))) ++ credit ∧
    cancelPush id s = (Ok tt, s1) ∧ pushCancelled id s1 = true ∧
    buf_bytes (bw_writer (c_controlStream (sc_connection s1))) =
      buf_bytes (bw_writer (c_controlStream (sc_connection s))) ++ cancel ∧
    (∀ fuel, (8 * length credit < fuel)%nat → ∃ s2 br',
      controlFrames (H := ServerConnection_handler stopS) fuel fuel (s, NewBitReader (MkBytesReader credit)) = (Err EOF, (s2, br')) ∧
      maxPushID s2 = Z.max (maxPushID s) (cc_maxPushID c + n)) ∧
    (∀ fuel, (8 * length cancel < fuel)%nat → ∃ c2 br',
      controlFrames (H := ClientConnection_handler lower stopC bufSize stream) fuel fuel (c, NewBitReader (MkBytesReader cancel)) =
        (Err EOF, (c2, br')) ∧
      isFulfilled (promise_of id c2) = true ∧ pp_response (promise_of id c2) = None).
Proof.
  intros Hc Hn Hlt Hid Hok Hopen Hatc Hats.
  destruct (creditPushes_bytes n c Hc Hn Hlt Hatc) as (w1 & credit & Hr1 & Hw1 & Hb1 & Hby1 & Hbits1).
  destruct (cancelPush_bytes id s Hid Hats) as (w2 & cancel & s1 & Hr2 & Hs1 & Hcan & Hw2 & Hb2 & Hby2 & Hbits2).
  eexists _, s1, credit, cancel. split; [exact Hr1|]. split; [done|]. split; [exact Hb1|]. split; [exact Hr2|].
  split; [unfold pushCancelled; rewrite Hcan; by apply bool_decide_eq_true, elem_of_union_l, elem_of_singleton_2|]. split; [by rewrite Hs1|].
  split; intros fuel Hfuel.
  - destruct (one_frame_follows (H0 := ServerConnection_spec stopS) frameMaxPushID (varint_bytes (cc_maxPushID c + n)) credit fuel s)
      as (br' & Hr); [by apply varint_frame_ok; [|lia]|done|done|done|].
    change (control_effect (H0 := ServerConnection_spec stopS) frameMaxPushID ?p) with (server_effect (W := Buffer) frameMaxPushID p) in Hr.
    rewrite server_effect_max in Hr by lia. eexists _, br'. split; [exact Hr|]. cbn.
    destruct (Z.ltb_spec (maxPushID s) (cc_maxPushID c + n)); cbn; lia.
  - destruct (one_frame_follows (H0 := ClientConnection_spec lower stopC bufSize stream) frameCancelPush (varint_bytes id) cancel fuel c)
      as (br' & Hr); [by apply varint_frame_ok|done|done|done|].
    change (control_effect (H0 := ClientConnection_spec lower stopC bufSize stream) frameCancelPush ?p)
      with (client_effect (W := Buffer) frameCancelPush p) in Hr.
    rewrite client_effect_cancel, (cancel_effect_run id c Hok) in Hr by done. cbv zeta in Hr. rewrite Hopen in Hr.
    eexists _, br'. split; [exact Hr|]. cbn [snd]. by rewrite promise_of_set.
Qed.

Lemma push_control_roundtrip_witness :
  let c := NewClientConnection sampleConnection in
  ∃ c1 s1 credit cancel, creditPushes 10 c = (Ok tt, c1) ∧ cc_maxPushID c1 = 10 ∧
    buf_bytes (bw_writer (c_controlStream (cc_connection c1))) = [] ++ credit ∧
    cancelPush 70 sampleServer = (Ok tt, s1) ∧ pushCancelled 70 s1 = true ∧
    buf_bytes (bw_writer (c_controlStream (sc_connection s1))) = [] ++ cancel ∧
    (∀ fuel, (8 * length credit < fuel)%nat → ∃ s2 br',
      controlFrames (H := ServerConnection_handler None) fuel fuel (sampleServer, NewBitReader (MkBytesReader credit)) = (Err EOF, (s2, br')) ∧
      maxPushID s2 = Z.max 0 10) ∧
    (∀ fuel, (8 * length cancel < fuel)%nat → ∃ c2 br',
      controlFrames (H := ClientConnection_handler noLower None 100 3) fuel fuel (c, NewBitReader (MkBytesReader cancel)) =
        (Err EOF, (c2, br')) ∧
      isFulfilled (promise_of 70 c2) = true ∧ pp_response (promise_of 70 c2) = None).
Proof.
  apply (push_control_roundtrip noLower 100 3 None None (NewClientConnection sampleConnection) sampleServer 10 70);
    [done..|apply map_Forall_empty|done|apply buffer_at_byte|apply buffer_at_byte].
Defined.

(** C28: a push stream of a header block with a final status and DATA frames is
    accepted: it fulfills the promise of its identifier with the header list and
    the status, acknowledges the block, and gives the server credit for one more
    push. (The block holds no name reference beyond the base, see [line_ok].) *)
Theorem push_stream_delivered `{UrlLib} lower {R} `{IoReaderSpec R} pref bufSize id pushID raw sign delta ls p hs evs chunks
    (c : ClientConnection Buffer) (br : bitReader R) fuel :
  let t := c_decoder (cc_connection c) in
  let fs := FBlock raw sign delta ls p :: (FData <$> chunks) in
  0 < bufSize → 0 ≤ tbase t < 2 ^ 61 → 0 ≤ pushID < 2 ^ 62 →
  promises_ok c → isFulfilled (promise_of pushID c) = false →
  0 ≤ cc_maxPushID c < 2 ^ 61 → at_byte (c_controlStream (cc_connection c)) →
  frame_ok pref t (FBlock raw sign delta ls p) → Forall chunk_ok chunks →
  block_value t id raw sign delta ls = Ok (hs, evs) → ValidatePseudoHeaders hs = Ok tt → final_status lower hs →
  br_wf br → rbits br = varint_bits pushID ++ frames_bits fs → zlen (rbits br) + 1 < Z.of_nat fuel →
  ∃ c' br' credit, handlePushStream lower bufSize id fuel (c, br) = (Ok tt, (c', br')) ∧
    pp_response (promise_of pushID c') = Some (MkClientResponse id hs (GetStatus lower hs)) ∧
    c_acks (cc_connection c') = c_acks (cc_connection c) ++ evs ∧ cc_maxPushID c' = cc_maxPushID c + 1 ∧
    buf_bytes (bw_writer (c_controlStream (cc_connection c'))) =
      buf_bytes (bw_writer (c_controlStream (cc_connection c))) ++ credit ∧
    bits_of_bytes credit = frame_bits frameMaxPushID (varint_bytes (cc_maxPushID c + 1)).
Proof.
  intros t fs Hbuf Hb Hid Hok Hopen Hmax Hat Hf Hc Hval Hv Hfinal Hwf Hl Hfuel.
  destruct (handlePushStream_follows lower t id pref bufSize fuel pushID fs [] c br) as (br' & Hr);
    [done|done|done|done| |apply ending_clean| |done|by rewrite app_nil_r|].
  { apply Forall_cons. split; [done|]. apply Forall_fmap, (Forall_impl _ _ _ Hc). by intros q [Hq Hql]. }
  { rewrite app_nil_r. rewrite Hl in Hfuel. unfold zlen in Hfuel. rewrite length_app in Hfuel. lia. }
  set (c1 := set_promise pushID (promise_of pushID c) c).
  destruct (pushHeaders_final lower id pushID hs c1) as (c2 & Hh & Hconn & Hm & Hresp & _);
    [by apply set_promise_ok, promise_of_ok|by unfold c1; rewrite promise_of_set|done|].
  assert (push_message lower t id pushID fs (CutHeader []) c1 =
    (Ok tt, set_client_connection (set_decoder t (c_acks (cc_connection c) ++ evs) (cc_connection c2)) c2)) as Hmsg.
  { unfold push_message, zoom.
    erewrite (message_bodies t id _ (FBlock raw sign delta ls p) hs evs chunks _ c2); [done| |done|exact Hh].
    unfold block_fields, lift. by rewrite bind_unfold, Hval. }
  set (c3 := set_client_connection _ _) in Hmsg.
  destruct (creditPushes_bytes 1 c3) as (w & credit & Hcr & Hw & Hbytes & _ & Hbits).
  { change (cc_maxPushID c3) with (cc_maxPushID c2). rewrite Hm. cbn. lia. }
  { done. }
  { change (cc_maxPushID c3) with (cc_maxPushID c2). rewrite Hm. cbn. lia. }
  { unfold c3. cbn. rewrite Hconn. exact Hat. }
  change (cc_maxPushID c3) with (cc_maxPushID c2) in *. rewrite Hm in *. change (cc_maxPushID c1) with (cc_maxPushID c) in *.
  assert (push_stream lower t id pushID fs (CutHeader []) c =
    (Ok tt, MkClientConnection (set_control w (cc_connection c3)) (cc_maxPushID c + 1) (promises c3))) as Hpush.
  { unfold push_stream. rewrite bind_unfold, getPushPromise_run, Hopen. fold c1. rewrite (bind_Ok _ _ _ _ _ Hmsg).
    rewrite bind_unfold. unfold catch. by rewrite Hcr. }
  rewrite Hpush in Hr. eexists _, br', credit. split; [exact Hr|]. split_and!; [exact Hresp|done|done| |exact Hbits].
  cbn [snd cc_connection set_control c_controlStream]. rewrite Hbytes. unfold c3. cbn. by rewrite Hconn.
Qed.

Definition sampleFields : list HeaderField :=
  match block_value exampleTable 11 4 false 0 sampleLines with Ok (hs, _) => hs | _ => [] end.

(** A pushed response with status 200 and a body of one frame. *)
Lemma push_stream_delivered_witness :
  let bits := varint_bits 5 ++ frames_bits sampleFrames in
  let c := set_client_connection (set_decoder exampleTable [] sampleConnection) (NewClientConnection sampleConnection) in
  ∃ hs c' br' credit, handlePushStream noLower 100 11 2000 (c, NewBitReader (MkBytesReader (bytes_of_bits bits))) = (Ok tt, (c', br')) ∧
    pp_response (promise_of 5 c') = Some (MkClientResponse 11 hs 200) ∧
    c_acks (cc_connection c') = [] ++ [EvAcknowledged 11 3] ∧ cc_maxPushID c' = 1 ∧
    buf_bytes (bw_writer (c_controlStream (cc_connection c'))) = [] ++ credit ∧
    bits_of_bytes credit = frame_bits frameMaxPushID (varint_bytes 1).
Proof.
  exists sampleFields.
  apply (push_stream_delivered noLower HuffmanCodingNever 100 11 5 4 false 0 sampleLines sampleBlock
    sampleFields [EvAcknowledged 11 3] [[1; 2; 3]] (set_client_connection (set_decoder exampleTable [] sampleConnection) (NewClientConnection sampleConnection))
    (NewBitReader (MkBytesReader (bytes_of_bits (varint_bits 5 ++ frames_bits sampleFrames))))).
  - done.
  - by vm_compute.
  - done.
  - apply map_Forall_empty.
  - done.
  - done.
  - apply buffer_at_byte.
  - apply sampleBlock_ok.
  - by repeat constructor.
  - vm_compute. reflexivity.
  - done.
  - by vm_compute.
  - split; [|done]. vm_compute. by repeat constructor.
  - by vm_compute.
  - by vm_compute.
Defined.
