(* ===== verification/RequestProps.v ===== *)
(** * Requests and responses: the properties

    A request from a client to a server, a response from a server to a client, and
    the promises that come with it. *)

From S2P Require Import Prelude Bits GoIo BitWriter BitReader Streams Frame HcInt HuffmanTable Huffman HcString StaticTable Table Codec QpackTable QpackEncoder QpackDecoder QpackDecoderSpec QpackEncoderSpec QpackLink QpackSamples Settings Headers Message MessageSpec MessageLink Connection Push PushSpec PushStream Request RequestSpec PromiseSpec HttpSamples.

(** ** Samples *)

Definition sampleHeaders : list HeaderField :=
  [MkHeaderField "Accept" "*/*" false; MkHeaderField "custom-key" "custom-header" false]%string.

(** A client and a server with an encoder that has a table. *)
Definition readyConnection : connection Buffer :=
  Connection exampleConfig (NewQpackDecoderTable 4096) [] false exampleEncoder emptyWriter emptyWriter true [].
Definition readyClient : ClientConnection Buffer := NewClientConnection readyConnection.

Definition noAnswers : answers := MkAnswers (MkClientResponse 8 [] 0) [] None [] false false.

Definition pushingServer : ServerConnection Buffer := MkServerConnection readyConnection 5 7 ∅.

Definition sampleTarget : URL := ("https", "example.com", "/a")%string.

Definition sampleRequest : list HeaderField :=
  [MkHeaderField ":authority" "example.com" false; MkHeaderField ":path" "/a" false;
   MkHeaderField ":method" "POST" false; MkHeaderField ":scheme" "https" false]%string ++ sampleHeaders.

(** ** Responses with promises *)

(** C29: on the bytes of any frames, whole or cut short at the end, [readResponse] does
    what the abstract response does: interim responses, the response, its body and
    trailers, and the promises, each acknowledged, checked and handed to the
    application in order; at the end the feed of promises is closed, or, after an
    error, the stream is aborted. Of a DATA frame that the stream cuts short, the
    application hears a prefix [e'] that lacks less than a buffer ([hears]); whole
    ones are delivered in full. The promises among the frames are well-formed, and
    header blocks hold no name reference beyond the base ([line_ok]). *)
Theorem response_refines `{UrlLib} lower {W} `{IoWriter W} {R} `{IoReaderSpec R} pref t id informational bufSize fuel promises fs e
    (m : progress (reading (W := W))) (br : bitReader R) :
  0 < bufSize → 0 ≤ tbase t < 2 ^ 61 → Forall (frame_ok pref t) fs →
  Forall (promises_frame_ok t pref promises) fs → ending_ok e →
  br_wf br → rbits br = frames_bits fs ++ ending_bits e → zlen (rbits br) + 1 < Z.of_nat fuel →
  ∃ e' br', hears bufSize e e' ∧ readResponse lower informational bufSize id fuel (conc t m br) =
    ((response lower t id informational promises fs e' m).1, conc t (response lower t id informational promises fs e' m).2 br').
Proof.
  intros Hbuf Hb Hfs Hp He Hwf Hl Hf. apply (readResponse_follows lower t id pref); [done..| |done|done].
  rewrite <- Hl. unfold zlen in Hf. lia.
Qed.

(** C30: a pushed request crosses. [Push] hands out the next identifier and writes a
    promise; at the start of any stream that begins with it, the client acknowledges
    its block, records the header list, the method and the target under that
    identifier, and hands the promise to the application once. *)
Theorem push_promise_roundtrip `{UrlLib} lower id base method target headers (s : ServerConnection Buffer) (w : bitWriter Buffer)
    u fields v :
  let c := sc_connection s in let e := c_encoder c in
  enc_ok e → at_byte (c_updates c) → at_byte w → qe_base e + zlen fields < 2 ^ 60 → c_ready c = true →
  ValidatePseudoHeaders headers = Ok tt → buildRequestHeaderFields method base target headers = Ok (u, fields) →
  Forall (λ h, pseudo_name h = false) (lowered lower headers) → method ≠ ""%string → url_Host u ≠ ""%string →
  url_EscapedPath u ≠ ""%string → url_ParseRef (url_Make "https" (url_Host u)) (url_EscapedPath u) = Ok v →
  Forall (field_ok (enc_pref e)) (lowered lower fields) → ValidatePseudoHeaders (lowered lower fields) = Ok tt →
  0 ≤ nextPushID s < maxPushID s → maxPushID s ≤ 2 ^ 62 →
  block_crosses lower id fields (varint_bytes (nextPushID s)) e (c_updates c) (λ e2 w1 t evs,
    ∃ w2 bs, Push lower id base method target headers (s, w) =
        (Ok (MkServerPushRequest u (nextPushID s) fields),
         (MkServerConnection (set_updates w1 (set_encoder e2 c)) (nextPushID s + 1) (maxPushID s) (cancelledPushes s), w2)) ∧
      buf_bytes (bw_writer w2) = buf_bytes (bw_writer w) ++ bs ∧ Forall is_byte bs ∧
      ∀ R (HR : IoReader R) (HS : IoReaderSpec R) skip sent log (x : reading) (br : bitReader R) l,
        (8 * length bs < skip)%nat → br_wf br → rbits br = bits_of_bytes bs ++ l →
        ∃ len br1 br2, ReadFrame br = (Ok (framePushPromise, len), br1) ∧
          handlePushPromise lower skip id len (Incoming t sent br1 log x) =
            (Ok tt, Incoming t (sent ++ evs) br2 log (promised_with (nextPushID s) (lowered lower fields) method v x)) ∧
          br_wf br2 ∧ rbits br2 = l).
Proof.
  intros c e Hok Hw Hws Hb Hready Hv Hbuild Hplain Hm Hhost Hpath Hparse Hf Hvf Hid Hmax.
  set (push := MkServerPushRequest u (nextPushID s) fields).
  eapply block_crosses_mono; [|apply (promise_crosses lower id push c w method v); try done; [cbn; lia|]].
  2: { cbn [push pr_Headers].
    rewrite (getMethodAndTarget_fields lower _ _ _ _ _ _ (lowered_request lower _ _ _ _ _ _ Hbuild)) by done.
    by rewrite decide_False, Hparse by done. }
  intros e2 w1 t evs (w2 & bs & Hs & Hrest). exists w2, bs. split; [|exact Hrest].
  assert (getNextPushID s = (Ok (nextPushID s), MkServerConnection c (nextPushID s + 1) (maxPushID s) (cancelledPushes s))) as Hnext.
  { rewrite getNextPushID_run. rewrite (proj2 (Z.leb_gt _ _)) by lia.
    unfold mbind, go_bind, modS, mret, go_ret. by rewrite u64_small by lia. }
  unfold Push, lift. rewrite bind_unfold, Hv, bind_unfold, Hbuild, bind_unfold.
  unfold srv at 1, zoom at 1. cbn [fst snd]. rewrite Hnext. fold push. rewrite bind_unfold.
  unfold catch, on_stream_of, zoom. cbn [fst snd sc_connection]. by rewrite Hs.
Qed.

Lemma push_promise_roundtrip_witness : ∃ e2 w1 w2 t evs len br1 br2 fuel,
  Push noLower 8 (Some sampleTarget) "POST" "/a" sampleHeaders (pushingServer, emptyWriter) =
    (Ok (MkServerPushRequest sampleTarget 5 sampleRequest),
     (MkServerConnection (set_updates w1 (set_encoder e2 readyConnection)) 6 7 ∅, w2)) ∧
  ReadFrame (NewBitReader (MkBytesReader (buf_bytes (bw_writer w2)))) = (Ok (framePushPromise, len), br1) ∧
  handlePushPromise noLower fuel 8 len (Incoming t [] br1 [] (readyClient, noAnswers)) =
    (Ok tt, Incoming t evs br2 [] (promised_with 5 (lowered noLower sampleRequest) "POST" sampleTarget (readyClient, noAnswers))) ∧
  rbits br2 = [].
Proof.
  destruct (block_crosses_elim noLower 8 sampleRequest (varint_bytes 5) exampleEncoder emptyWriter _ ltac:(vm_compute; reflexivity)
    (push_promise_roundtrip noLower 8 (Some sampleTarget) "POST" "/a" sampleHeaders pushingServer emptyWriter
      sampleTarget sampleRequest sampleTarget exampleEncoder_ok buffer_at_byte buffer_at_byte ltac:(by vm_compute) eq_refl
      eq_refl eq_refl ltac:(by repeat constructor) ltac:(done) ltac:(done) ltac:(done) eq_refl
      (short_fields_ok (lowered noLower sampleRequest) ltac:(vm_compute; reflexivity)) ltac:(by vm_compute) ltac:(done) ltac:(done)))
    as (e2 & w1 & t & evs & w2 & bs & Hs & Hbytes & Hbs & Hread).
  change (buf_bytes (bw_writer emptyWriter) ++ bs) with bs in Hbytes.
  destruct (reader_start (MkBytesReader bs)) as [Hwf Hl0]; [exact Hbs|].
  destruct (Hread bytesReader _ _ (8 * length bs + 1)%nat [] [] (readyClient, noAnswers) (NewBitReader (MkBytesReader bs)) [])
    as (len & br1 & br2 & Hr1 & Hr2 & _ & Hl); [lia|exact Hwf|by rewrite app_nil_r|].
  exists e2, w1, w2, t, ([] ++ evs), len, br1, br2, (8 * length bs + 1)%nat. rewrite Hbytes. by split_and!.
Defined.

(** A promise, a response in two DATA frames of which the second is cut short. *)
Definition samplePromiseLines : list line :=
  [LLiteral false ":method" "GET"; LLiteral false ":scheme" "https"; LLiteral false ":authority" "example.com";
   LLiteral false ":path" "/b"]%string.
Definition samplePromise : promise_block := PromiseBlock 3 0 false 0 samplePromiseLines.
Definition samplePromisePayload : list Z :=
  varint_bytes 3 ++ bytes_of_bits (block_bits HuffmanCodingNever 0 false 0 samplePromiseLines).
Definition samplePromisedFrames : list frame := FOther framePushPromise samplePromisePayload :: sampleFrames.
Definition samplePromisedReader : bitReader bytesReader :=
  NewBitReader (MkBytesReader (bytes_of_bits (frames_bits samplePromisedFrames ++ ending_bits sampleEnding))).

Lemma samplePromise_ok : promise_frame_ok HuffmanCodingNever exampleTable samplePromisePayload samplePromise.
Proof.
  split_and!; [vm_compute; by repeat constructor|by vm_compute|done|done|by vm_compute|done|done|done| |].
  - vm_compute. by intros ? [= <-].
  - repeat constructor; try done; right; done.
Qed.

Lemma response_refines_witness :
  let m := Progress [] [] (readyClient, noAnswers) in
  let final := response noLower exampleTable 8 false (λ _, Some samplePromise) samplePromisedFrames sampleEnding m in
  final.1 = Ok tt ∧ pr_log final.2 = [DBody [1; 2; 3]; DBody [4; 5]] ∧
  (∃ hs, an_response (pr_handler final.2).2 = Some (MkClientResponse 8 hs 200)) ∧ an_pushes (pr_handler final.2).2 = [3] ∧
  pp_method (promise_of 3 (pr_handler final.2).1) = "GET"%string ∧
  pp_target (promise_of 3 (pr_handler final.2).1) = Some ("https", "example.com", "/b")%string ∧
  ∃ e' br', hears 2 sampleEnding e' ∧
    let final := response noLower exampleTable 8 false (λ _, Some samplePromise) samplePromisedFrames e' m in
    readResponse noLower false 2 8 2000 (conc exampleTable m samplePromisedReader) = (final.1, conc exampleTable final.2 br').
Proof.
  cbv zeta. split; [by vm_compute|]. split; [by vm_compute|]. split; [eexists; vm_compute; reflexivity|].
  split; [by vm_compute|]. split; [by vm_compute|]. split; [by vm_compute|].
  apply (response_refines noLower HuffmanCodingNever exampleTable 8 false 2 2000 (λ _, Some samplePromise)).
  - done.
  - by vm_compute.
  - apply Forall_cons; split; [|apply sampleFrames_ok]. by split_and!; [apply samplePromise_ok|vm_compute|..].
  - apply Forall_cons; split; [intros _; exists samplePromise; split; [done|apply samplePromise_ok]|].
    by repeat constructor.
  - apply sampleEnding_ok.
  - split; [|done]. vm_compute. by repeat constructor.
  - by vm_compute.
  - by vm_compute.
Defined.
