(* ===== verification/ConversationProps.v ===== *)
(** * Conversations: the property

    All messages of a conversation, in both directions, with the acknowledgments in
    between. *)

From S2P Require Import Prelude Bits GoIo BitWriter BitReader Streams Frame HcInt HuffmanTable Huffman HcString StaticTable Table Codec QpackTable QpackEncoder QpackDecoder QpackDecoderSpec QpackEncoderSpec QpackReach QpackLink QpackAck QpackSamples Settings Headers Message MessageSpec MessageLink Connection Push PushSpec PushStream Request RequestSpec HttpSamples QpackSizes Conversation ConversationSpec StartUp.

(** C2: a conversation is heard as it was said. From two ends whose encoders have the
    tables of their peers' decoders, any sequence of requests, responses and rounds of
    the goroutines that acknowledge runs without an error: each request is announced
    with its method, the URL that was asked for, its pseudo-header fields and the
    fields of the caller, with their names in lower case, and its body; each response
    is handed out with its status, its fields and its body; and the two ends agree on
    their tables again, whatever was inserted, evicted and acknowledged meanwhile.
    [said] states what should be heard by itself, without the code that builds the
    lists. The claim is for URLs of a host and a path alone ([plain_url]), for the
    code does not send a query ([query_lost]), and for blocks whose referenced names
    are still there when they are written ([acts_live], see [qpack_name_evicted]). *)
Theorem conversation `{UrlLib} lower bufSize cp sp acts s :
  0 < bufSize → Forall (act_ok lower cp sp) acts → ends_ok cp sp (acts_fields acts) s →
  acts_live lower bufSize acts s = true →
  ∃ s', converse lower bufSize acts s = (Ok (said lower <$> acts), s') ∧ ends_ok cp sp (0, 0) s'.
Proof.
  intros Hbuf Hacts Hs Hlive. destruct (converse_runs lower bufSize cp sp acts s Hbuf Hacts Hs Hlive) as (s' & Hr & Hs' & _). by exists s'.
Qed.

(** Two ends with encoders that have a table, and the decoders that go with them. *)
Definition talkingConnection : connection Buffer :=
  Connection exampleConfig (NewQpackDecoderTable 256) [] false exampleEncoder emptyWriter emptyWriter true [].

Definition talkingEnds `{UrlLib} : ends :=
  Ends (NewClientConnection talkingConnection) (newServerConnection talkingConnection)
    (newAcking (MkBuffer [])) (newAcking (MkBuffer [])).

Definition talkedHeaders : list HeaderField :=
  [MkHeaderField "Custom-Key" "custom-value" false; MkHeaderField "another-key" "secret" true]%string.

(** The second request and the second response refer to what the first ones inserted. *)
Definition talk : list act :=
  [Ask 4 "GET" "https://example.com/a" talkedHeaders [];
   AcksToClient true;
   Answer 4 404 talkedHeaders [[1; 2]; [3]];
   Ask 8 "POST" "https://example.com/a" (MkHeaderField "custom-key" "new" false :: talkedHeaders) [[7]];
   AcksToServer false;
   Answer 8 200 talkedHeaders [];
   AcksToServer true;
   AcksToClient true]%string.

(** Fields that are short by evaluation. *)
Ltac short_fields := apply short_fields_ok; vm_compute; reflexivity.

Lemma talk_ok : Forall (act_ok noLower HuffmanCodingAuto HuffmanCodingAuto) talk.
Proof.
  assert (∀ method headers, method ≠ ""%string → ValidatePseudoHeaders headers = Ok tt →
    Forall (λ h, pseudo_name h = false) (lower_names noLower headers) →
    (let fields := lower_names noLower (request_list ("https", "example.com", "/a")%string method headers) in
     Forall (field_ok HuffmanCodingAuto) fields ∧ ValidatePseudoHeaders fields = Ok tt) →
    request_ok noLower HuffmanCodingAuto method "https://example.com/a" headers) as Hrequest.
  { intros method headers Hm Hv Hplain Hf. split_and!; [done..|]. cbv beta zeta in Hf. destruct Hf.
    by split_and!. }
  repeat (apply Forall_cons; split; [|]); try apply Forall_nil; try done.
  - split_and!; [done|apply Hrequest; [done|done|by repeat constructor|]|by repeat constructor]. split; [short_fields|done].
  - split_and!; [done|split_and!; try done; [by repeat constructor|short_fields]|by repeat constructor].
  - split_and!; [done|apply Hrequest; [done|done|by repeat constructor|]|by repeat constructor]. split; [short_fields|done].
  - split_and!; [done|split_and!; try done; [by repeat constructor|short_fields]|by repeat constructor].
Qed.

Lemma talkingEnds_ok n : n.1 < 2 ^ 59 → n.2 < 2 ^ 59 → ends_ok HuffmanCodingAuto HuffmanCodingAuto n talkingEnds.
Proof.
  intros Hn1 Hn2. assert (half_ok HuffmanCodingAuto talkingConnection talkingConnection (newAcking (MkBuffer []))) as Hhalf.
  { split; [apply exampleEncoder_inv|done|apply buffer_start|done|by vm_compute|constructor|apply buffer_start|done]. }
  assert (qe_base exampleEncoder < 2 ^ 59) as Hb by (by vm_compute). split; [exact Hhalf|exact Hhalf|..]; cbn -[qe_base exampleEncoder]; lia.
Qed.

(** Both encoders end up with entries, all of them acknowledged. *)
Lemma conversation_witness :
  acts_live noLower 10 talk talkingEnds = true ∧
  (∃ s', converse noLower 10 talk talkingEnds = (Ok (said noLower <$> talk), s') ∧ ends_ok HuffmanCodingAuto HuffmanCodingAuto (0, 0) s') ∧
  let e := c_encoder (cc_connection (en_client (converse noLower 10 talk talkingEnds).2)) in
  qe_base e = 3 ∧ highestAcknowledged e = 3.
Proof.
  assert (acts_live noLower 10 talk talkingEnds = true) as Hlive by (vm_compute; reflexivity).
  split; [exact Hlive|]. split; [|vm_compute; by split].
  apply (conversation noLower 10); [done|apply talk_ok|by apply talkingEnds_ok|exact Hlive].
Defined.

Example talk_heard : said noLower (Ask 4 "GET" "https://example.com/a" talkedHeaders []) =
  HeardRequest 4 (MkServerRequest
    ([MkHeaderField ":authority" "example.com" false; MkHeaderField ":path" "/a" false;
      MkHeaderField ":method" "GET" false; MkHeaderField ":scheme" "https" false;
      MkHeaderField "custom-key" "custom-value" false; MkHeaderField "another-key" "secret" true])
    "GET" (Some ("https", "example.com", "/a")) true false)%string [].
Proof. by vm_compute. Qed.

(** URLs with a query, which [EscapedPath] leaves out. *)
Definition queryUrl : UrlLib := {|
  URL := string * string * string * string;
  url_Parse s := if decide (s = "https://example.com/a?q"%string)
    then Ok ("https", "example.com", "/a", "q")%string else Err (ErrForeign 1);
  url_ParseRef b p := let '(s, h, _, _) := b in Ok (s, h, p, ""%string);
  url_Make s h := (s, h, "", "")%string;
  url_Scheme u := u.1.1.1;
  url_Host u := u.1.1.2;
  url_EscapedPath u := u.1.2;
|}.

(** The query of a request is not sent: the server hears another URL than the one that
    was asked for. *)
Example query_lost :
  @url_Parse queryUrl "https://example.com/a?q" = Ok ("https", "example.com", "/a", "q")%string ∧
  match (@ask queryUrl noLower 10 4 "GET" "https://example.com/a?q" [] [] (@talkingEnds queryUrl)).1 with
  | Ok (HeardRequest _ req _) => rq_target (H := queryUrl) req = Some ("https", "example.com", "/a", "")%string
  | _ => False
  end.
Proof. by vm_compute. Qed.

(** C3: two ends that start understand each other. [Connect] of the connections at both
    ends writes their settings and the client's credit for pushes; once each has served
    the control stream of the other, the server may push as often as the client says,
    each encoder may block as many streams as its peer says, and every conversation of
    messages of ordinary size is heard as it was said, in the sense of [said] and for
    the same plain URLs. Neither encoder ever inserts anything: [connect] makes it with
    a limit of 0 on what it may refer to, and nothing raises it. (The client of the
    library never calls the [Connect] of its connections, see [client_fetch_waits].) *)
Theorem started_conversation `{UrlLib} lower bufSize clientConfig serverConfig acts :
  0 < bufSize → config_ok clientConfig → config_ok serverConfig →
  Forall (act_ok lower HuffmanCodingAuto HuffmanCodingAuto) acts → Forall (act_short lower) acts →
  (acts_fields acts).1 < 2 ^ 60 → (acts_fields acts).2 < 2 ^ 60 →
  ∃ s0 st s s', connectBoth clientConfig serverConfig (newStreams, newStreams) = (Ok s0, st) ∧
    serveControls lower bufSize s0 = (Ok tt, s) ∧ converse lower bufSize acts s = (Ok (said lower <$> acts), s') ∧
    maxPushID (en_server s) = MaxConcurrentPushes clientConfig ∧
    maxBlockedStreams (c_encoder (cc_connection (en_client s))) = ConcurrentDecoders serverConfig ∧
    maxBlockedStreams (c_encoder (sc_connection (en_server s))) = ConcurrentDecoders clientConfig ∧
    qe_base (c_encoder (cc_connection (en_client s'))) = 0 ∧ qe_base (c_encoder (sc_connection (en_server s'))) = 0.
Proof. apply started_converses. Qed.

Lemma started_conversation_witness :
  ∃ s0 st s s', connectBoth exampleConfig exampleConfig (newStreams, newStreams) = (Ok s0, st) ∧
    serveControls noLower 10 s0 = (Ok tt, s) ∧ converse noLower 10 talk s = (Ok (said noLower <$> talk), s') ∧
    maxPushID (en_server s) = 10 ∧ maxBlockedStreams (c_encoder (cc_connection (en_client s))) = 100 ∧
    maxBlockedStreams (c_encoder (sc_connection (en_server s))) = 100 ∧
    qe_base (c_encoder (cc_connection (en_client s'))) = 0 ∧ qe_base (c_encoder (sc_connection (en_server s'))) = 0.
Proof.
  apply (started_conversation noLower 10 exampleConfig exampleConfig talk).
  - done.
  - by split_and!.
  - by split_and!.
  - apply talk_ok.
  - repeat (apply Forall_cons; split; [|]); try apply Forall_nil; try done; by split; [by vm_compute|repeat constructor].
  - by vm_compute.
  - by vm_compute.
Defined.
