(* ===== verification/EventLoopProps.v ===== *)
(** * The event loop: the properties

    What a call of the application comes to: before the connection closes, when it
    closes, and after an operation that the loop cannot handle. *)

From S2P Require Import Prelude EventLoop EventLoopSpec.

(** ** Sample schedules *)

(** The state after a schedule. *)
Definition after_schedule (l : list action) : system sampleMinq :=
  match perform_all l (start sampleStart) with Some (Running s) => s | _ => start sampleStart end.

(** A read that waits, its data, and another call that is offered. *)
Definition readSchedule : list action :=
  [ACall (readRequest 4 10); AAdd 0; AHandle 0; AInput [1; 2; 3]; ACall getStateRequest; AAdd 1].

(** A connection that is closed while a read waits and a write is offered, and a
    call that begins after that. *)
Definition closeSchedule : list action :=
  [ACall (readRequest 4 10); AAdd 0; AHandle 0; ACall closeConnectionRequest; AAdd 1; AHandle 1; AResult 1;
   ACall (writeRequest 4 [7]); AAdd 2; AExit; ACall getStateRequest].

Lemma after_schedule_reachable l s : perform_all l (start sampleStart) = Some (Running s) → reachable (after_schedule l).
Proof. intros Hl. unfold after_schedule. rewrite Hl. by eapply perform_reachable. Qed.

(** ** Calls *)

(** C31: every call that waits is owed one result by exactly one goroutine, which is
    the loop that is to send it or has closed its channel, the reads the loop
    remembers, the drain, or a loop that is blocked; so no call is forgotten and none
    gets two results, in any interleaving. It does not say that the debt is paid: the
    channel of a stopped read is closed with no result, and the reads that a loop
    remembers when it ends wait for ever. A call that has returned keeps its result. *)
Theorem results_owed {M} `{Minq M} (s : system M) : reachable s →
  NoDup (owed s) ∧ (∀ i, i ∈ owed s ↔ ∃ op, at_call s i op CWait) ∧
  ∀ s' i op r, steps s s' → at_call s i op (CReturned r) → at_call s' i op (CReturned r).
Proof.
  intros Hs%sys_reachable_inv. destruct (inv_owes s Hs) as [Hn Hw]. split_and!; [done|exact Hw|].
  intros s' i op r Hsteps Hr. by eapply returned_forever.
Qed.

Lemma results_owed_witness :
  let s := after_schedule readSchedule in owed s = [0]%nat ∧
  NoDup (owed s) ∧ (∀ i, i ∈ owed s ↔ ∃ op, at_call s i op CWait) ∧
  ∀ s' i op r, steps s s' → at_call s i op (CReturned r) → at_call s' i op (CReturned r).
Proof.
  cbv zeta. split; [by vm_compute|]. apply results_owed. eapply after_schedule_reachable. vm_compute. reflexivity.
Defined.

(** C32: while the connection is open and the loop serves, the loop can get rid of what
    it has to send and take any call that is offered. The call then returns with the
    result that its handler sends, or it is a read that waits for its stream;
    unless the operation blocks the loop or the handler panics. *)
Theorem call_completes {M} `{Minq M} (s : system M) i op :
  reachable s → sys_loop s = LService → at_call s i op CSend → loopEnds (minq (sys_conn s)) = false →
  ∃ s1, steps s s1 ∧ at_call s1 i op CSend ∧ sys_conn s1 = set_sending [] (sys_conn s) ∧
    match Handle i op (sys_conn s1) with
    | (Ok true, c) => ∃ s2, steps s1 s2 ∧
        ((∃ r, (i, r) ∈ sending c ∧ at_call s2 i op (CReturned r)) ∨
         ∃ st n, op = readRequest st n ∧ readState (sys_conn s2) !! st = Some (i, n))
    | (Ok false, _) => ∃ s2, step s1 (Running s2) ∧ sys_loop s2 = LBlocked i
    | (Panic, _) => step s1 Crashed
    | _ => False
    end.
Proof.
  intros Hi%sys_reachable_inv Hl Hop Hopen. destruct (deliver_all s Hi Hl) as (cs & Hs & _ & Hkeep).
  set (s1 := set_conn _ _) in Hs. assert (sys_inv s1) as Hi1 by by eapply steps_inv.
  assert (at_call s1 i op CSend) as Hop1.
  { apply Hkeep; [exact Hop|]. intros Hin. assert (i ∈ owed s) as [op' Hw]%(inv_owes s Hi).
    { unfold owed, conn_owed. do 2 (apply elem_of_app; left). exact Hin. }
    by destruct (at_call_inj _ _ _ _ _ _ Hop Hw). }
  exists s1. split_and!; [done|done|done|].
  pose proof (step_handle s1 i op) as Hstep. pose proof (Handle_adds i op (sys_conn s1)) as Hadds.
  assert (selecting s1) as Hsel by by split_and!. specialize (Hstep Hsel Hop1).
  destruct (Handle i op (sys_conn s1)) as [[[]|e| |] c] eqn:Hrun; cbn [after] in Hstep; [|by eexists|done..].
  set (s2 := set_call i op CWait _) in Hstep. assert (sys_inv s2) as Hi2 by by eapply step_inv.
  destruct (Handle_answers _ _ _ _ Hrun) as [[r Hr]|(st & n & -> & Hrs)].
  - destruct (deliver_all s2 Hi2 eq_refl) as (cs2 & Hs2 & Hdone & _). destruct (Hdone i r Hr) as (op' & Hw & Hcs2).
    assert (op' = op) as ->.
    { apply (at_set_call_eq _ i op CWait) in Hop1. by destruct (at_call_inj s2 i op CWait op' CWait Hop1 Hw). }
    eexists. split; [eapply steps_trans; [by apply steps_one|exact Hs2]|]. left. by exists r.
  - exists s2. split; [by apply steps_one|]. right. by exists st, n.
Qed.

Lemma call_completes_witness :
  let s := after_schedule readSchedule in
  ∃ s1, steps s s1 ∧ at_call s1 1 getStateRequest CSend ∧ sys_conn s1 = set_sending [] (sys_conn s) ∧
    match Handle 1 getStateRequest (sys_conn s1) with
    | (Ok true, c) => ∃ s2, steps s1 s2 ∧
        ((∃ r, (1%nat, r) ∈ sending c ∧ at_call s2 1 getStateRequest (CReturned r)) ∨
         ∃ st n, getStateRequest = readRequest st n ∧ readState (sys_conn s2) !! st = Some (1%nat, n))
    | (Ok false, _) => ∃ s2, step s1 (Running s2) ∧ sys_loop s2 = LBlocked 1
    | (Panic, _) => step s1 Crashed
    | _ => False
    end.
Proof.
  cbv zeta. apply call_completes; [|by vm_compute..].
  eapply after_schedule_reachable. vm_compute. reflexivity.
Defined.

(** What becomes of calls when the connection closes. One that is in its send is
    taken by the drain and returns with an error. One that begins later never
    returns: it reports the error to its own channel, that it would receive from
    after that. And a read that waits for its stream never returns. *)
Theorem calls_at_close {M} `{Minq M} (s : system M) : reachable s → sys_loop s = LExited →
  (∀ i op r, at_call s i op CSend → report op ErrConnectionClosed (minq (sys_conn s)) = Some r →
    ∃ s', steps s s' ∧ at_call s' i op (CReturned r)) ∧
  (∀ i op s' r, at_call s i op CAdd → steps s s' → ¬ at_call s' i op (CReturned r)) ∧
  (∀ i op n st s' r, readState (sys_conn s) !! st = Some (i, n) → steps s s' → ¬ at_call s' i op (CReturned r)).
Proof.
  intros Hi%sys_reachable_inv Hl. split_and!.
  - intros i op r Hop Hr. destruct (drain_ready s i op Hi Hl Hop) as (s1 & Hs1 & Hd & Hop1 & Hconn).
    pose proof (step_drain s1 i op Hd Hop1) as Hstep. rewrite Hconn, Hr in Hstep.
    set (s2 := set_call i op CWait _) in Hstep. assert (sys_inv s2) as Hi2 by (eapply step_inv; [by eapply steps_inv|exact Hstep]).
    destruct (send_result s2 i r (set_drain DReady s2) Hi2) as (op' & Hw & Hs2); [by apply sends_drain| |].
    { unfold owed. apply elem_of_app. right. by left. }
    apply (at_set_call_eq _ i op CWait) in Hop1. destruct (at_call_inj s2 i op CWait op' CWait Hop1 Hw) as [<- _].
    eexists. split; [eapply steps_trans; [exact Hs1|eapply steps_trans; [by apply steps_one|exact Hs2]]|].
    by eapply at_set_call_eq.
  - intros i op s' r Hop Hs Hr. pose proof (inv_closed s Hi) as Hc.
    destruct (sys_closed s) eqn:Hcl; [|by destruct Hc].
    destruct (late_forever s i op s' Hi Hcl Hop Hs) as [_ [Hop'|[r' Hop']]]; by destruct (at_call_inj _ _ _ _ _ _ Hr Hop').
  - intros i op n st s' r Hrs Hs Hr. destruct (pending_forever s i st n s' Hi Hl Hrs Hs) as [[op' Hw] _].
    by destruct (at_call_inj _ _ _ _ _ _ Hr Hw).
Qed.

Lemma calls_at_close_witness :
  let s := after_schedule closeSchedule in
  (∃ s', steps s s' ∧ at_call s' 2 (writeRequest 4 [7]) (CReturned (RWrite 0 (Some ErrConnectionClosed)))) ∧
  (∀ s' r, steps s s' → ¬ at_call s' 3 getStateRequest (CReturned r)) ∧
  (∀ s' r, steps s s' → ¬ at_call s' 0 (readRequest 4 10) (CReturned r)).
Proof.
  destruct (calls_at_close (after_schedule closeSchedule)) as (H1 & H2 & H3).
  - eapply after_schedule_reachable. vm_compute. reflexivity.
  - by vm_compute.
  - split_and!.
    + apply H1; by vm_compute.
    + intros s' r. apply H2. by vm_compute.
    + intros s' r. apply (H3 0%nat (readRequest 4 10) 10 4). by vm_compute.
Defined.

(** Asking for the state of a stream ends the service. The operation asks the
    stream itself, which adds a new operation to the loop from within the loop; from
    then on no call returns that has not returned yet. *)
Theorem stream_state_blocks {M} `{Minq M} (s : system M) i op :
  reachable s → selecting s → at_call s i op CSend →
  (∃ st, op = getSendStateRequest st ∨ op = getRecvStateRequest st) →
  ∃ s1, step s (Running s1) ∧ sys_loop s1 = LBlocked i ∧
    ∀ s2, steps s1 s2 → sys_loop s2 = LBlocked i ∧
      ∀ j op' r, at_call s2 j op' (CReturned r) → at_call s1 j op' (CReturned r).
Proof.
  intros Hi%sys_reachable_inv Hsel Hop (st & Hst). pose proof (step_handle s i op Hsel Hop) as Hstep.
  assert (Handle i op (sys_conn s) = (Ok false, sys_conn s)) as Hrun.
  { by destruct Hst as [-> | ->]. }
  rewrite Hrun in Hstep. cbn [after] in Hstep. eexists. split; [exact Hstep|]. split; [done|].
  intros s2 Hs2. apply blocked_forever; [by eapply step_inv|done|done].
Qed.

Lemma stream_state_blocks_witness :
  let s := after_schedule [ACall (getSendStateRequest 4); AAdd 0; ACall getStateRequest; AAdd 1] in
  ∃ s1, step s (Running s1) ∧ sys_loop s1 = LBlocked 0 ∧
    ∀ s2, steps s1 s2 → sys_loop s2 = LBlocked 0 ∧
      ∀ j op' r, at_call s2 j op' (CReturned r) → at_call s1 j op' (CReturned r).
Proof.
  cbv zeta. apply (stream_state_blocks _ 0 (getSendStateRequest 4)).
  - eapply after_schedule_reachable. vm_compute. reflexivity.
  - apply is_selecting_true. by vm_compute.
  - by vm_compute.
  - exists 4. by left.
Defined.

(** ** Panics *)

(** Schedules that end the process: two reads of one stream that wait; [StopSending]
    while a read waits; a stream of the peer that nobody has accepted when the
    connection closes; asking for the state of a stream after that. *)
Example connection_crashes :
  Forall (λ l, perform_all l (start sampleStart) = Some Crashed) (
    [ [ACall (readRequest 4 10); AAdd 0; AHandle 0; ACall (readRequest 4 10); AAdd 1; AHandle 1];
      [ACall (readRequest 4 10); AAdd 0; AHandle 0; ACall (stopRequest 4 0); AAdd 1; AHandle 1; ANil 0];
      [AInput []; ACall closeConnectionRequest; AAdd 0; AHandle 0; AResult 0; AExit];
      [ACall closeConnectionRequest; AAdd 0; AHandle 0; AResult 0; AExit; ACall (getRecvStateRequest 4); AAdd 1] ]).
Proof. repeat constructor. Qed.
