(* ===== verification/ServerProps.v ===== *)
(** * Servers: the properties

    The calls on the connections of a server, its connections, and what [Close] leaves
    behind. *)

From S2P Require Import Prelude EventLoop EventLoopSpec ServerLoop ServerLoopSpec.

(** ** A sample server

    A packet from the address 0 opens a connection, which is up at once; one from a
    higher address belongs to the connection of that number less one. *)
#[export] Instance sampleServer_minq : MinqServer nat sampleMinq := {
  srv_Input addr p n :=
    if addr =? 0 then
      SNewConnection true sampleStart
        (SConnection n (λ m, MCall (UStateChanged StateEstablished) m (MRet tt)) (λ _, SRet (n + 1)%nat))
    else SConnection (Z.to_nat (addr - 1)) (minq_Input p) (λ _, SRet n);
  srv_CheckTimer n := SRet n;
}.

(** Two connections; a read waits on each, and data comes for the second. *)
Definition serverSchedule : list serverAction :=
  [SAInput 0 []; SAInput 0 []; SAAccept; SAAccept; SACall 0 (readRequest 4 10); SACall 1 (readRequest 4 10);
   SAAdd 0; SAAdd 1; SAHandle 1; SAHandle 0; SAInput 2 [1; 2; 3]].

(** A server that is closed while a read waits, and closed once more. *)
Definition shutdownSchedule : list serverAction :=
  [SAInput 0 []; SAAccept; SACall 0 (readRequest 4 10); SAAdd 0; SAHandle 0; SAClose; SAShutdown 0; SAClose;
   SACall 0 getStateRequest].

Definition after_server (l : list serverAction) : serverSystem nat sampleMinq :=
  default (startServer 0%nat) (server_schedule l (startServer 0%nat)).

Lemma after_server_reachable l : server_reachable (after_server l).
Proof.
  exists 0%nat. unfold after_server. destruct (server_schedule l _) as [s|] eqn:Hl; [|apply ss_refl].
  by apply (server_schedule_steps l).
Qed.

(** C33: the one goroutine of a server serves the calls on all its connections as it
    should: each call that waits is owed one result, by one of the goroutines, and a
    call that has returned keeps its result. As for one connection, a debt may be that
    of a loop that has ended or of a channel that was closed with no result (see
    [server_closed]). A connection is handed out at most once, and only when its
    handshake is done. *)
Theorem server_results_owed {S M} `{Minq M} `{!MinqServer S M} (s : serverSystem S M) : server_reachable s →
  NoDup (ss_owed s) ∧ (∀ i, i ∈ ss_owed s ↔ ∃ op, call_at s i op CWait) ∧
  (∀ s' i op r, server_steps s s' → call_at s i op (CReturned r) → call_at s' i op (CReturned r)) ∧
  NoDup (sv_accepted (ss_server s)) ∧
  ∀ k, k ∈ sv_accepted (ss_server s) → ∃ c, sv_conns (ss_server s) !! k = Some c ∧ connectedClosed c = true.
Proof.
  intros [[Hn Hw] (Hacc & _ & Hup) _ _ _]%server_reachable_inv. split_and!; [done|exact Hw| |by apply NoDup_app in Hacc as [? _]|done].
  intros s' i op r. apply server_returned.
Qed.

Lemma server_results_owed_witness :
  let s := after_server serverSchedule in ss_owed s = [1; 0]%nat ∧
  NoDup (ss_owed s) ∧ (∀ i, i ∈ ss_owed s ↔ ∃ op, call_at s i op CWait) ∧
  (∀ s' i op r, server_steps s s' → call_at s i op (CReturned r) → call_at s' i op (CReturned r)) ∧
  NoDup (sv_accepted (ss_server s)) ∧
  ∀ k, k ∈ sv_accepted (ss_server s) → ∃ c, sv_conns (ss_server s) !! k = Some c ∧ connectedClosed c = true.
Proof. cbv zeta. split; [by vm_compute|]. apply server_results_owed, after_server_reachable. Defined.

(** When the loop has ended on [Close], nobody receives any more: no [Close] that has
    not returned ever does, a second one among them; a call that begins then never
    returns, and neither does a read that waits on any of the connections. *)
Theorem server_closed {S M} `{Minq M} `{!MinqServer S M} (s : serverSystem S M) : server_reachable s → ss_loop s = LExited →
  ∀ s', server_steps s s' →
  (∀ j, ss_closers s' !! j = Some ClReturned → ss_closers s !! j = Some ClReturned) ∧
  (∀ i op r, call_at s i op CAdd → ¬ call_at s' i op (CReturned r)) ∧
  (∀ k c st i n op r, sv_conns (ss_server s) !! k = Some c → readState c !! st = Some (i, n) → ¬ call_at s' i op (CReturned r)).
Proof.
  intros Hi%server_reachable_inv Hl s' Hs. split_and!.
  - by apply closers_stay.
  - intros i op r Hop Hr. pose proof (ssi_closed s Hi) as Hc. destruct (ss_closed s) eqn:Hcl; [|by destruct Hc].
    destruct (late_stays s s' i op Hl Hcl Hs (or_introl Hop)) as [Hop'|[r' Hop']]; by destruct (call_at_inj _ _ _ _ _ _ Hr Hop').
  - intros k c st i n op r Hk Hrs Hr. destruct (pending_stays s s' i k c st n Hi Hl Hk Hrs Hs) as [op' Hw].
    by destruct (call_at_inj _ _ _ _ _ _ Hr Hw).
Qed.

Lemma server_closed_witness :
  let s := after_server shutdownSchedule in ss_closers s = [ClReturned; ClSend] ∧
  ∀ s', server_steps s s' → ss_closers s' !! 1%nat ≠ Some ClReturned ∧
    (∀ r, ¬ call_at s' 0 (readRequest 4 10) (CReturned r)) ∧ (∀ r, ¬ call_at s' 1 getStateRequest (CReturned r)).
Proof.
  cbv zeta. split; [by vm_compute|]. intros s' Hs.
  destruct (server_closed (after_server shutdownSchedule)) with (s' := s') as (H1 & H2 & H3);
    [apply after_server_reachable|by vm_compute|done|]. split_and!.
  - intros Hj%H1. by vm_compute in Hj.
  - intros r. by eapply (H3 0%nat _ 4 0%nat 10); vm_compute.
  - intros r. apply H2. by vm_compute.
Defined.
