(* ===== verification/HttpServerProps.v ===== *)
(** * The HTTP server: the properties

    The goroutines of the server, between the loop of the QUIC server and the
    application. *)

From S2P Require Import Prelude EventLoop EventLoopSpec ServerLoop ServerLoopSpec ServerProps Bits GoIo BitWriter BitReader Streams Frame HcInt HuffmanTable Huffman HcString StaticTable Table Codec QpackTable QpackEncoder QpackDecoder QpackSamples Settings Headers Message MessageSpec MessageLink Connection Push Request RequestSpec HttpSamples Conversation ConversationSpec StartUp Server ServerSpec.

(** C34: what the server hands to its application, in any order of its goroutines.
    Every connection that the loop hands out, each of which is up, gets one goroutine,
    in their order; the channel of connections gives each of them at most once, and
    only when [TrackConnections] asks for it, after its [Connect] has returned. The
    channel of requests gives the request of each stream at most once, and exactly
    those of the streams whose goroutines have sent one; each is what [handle] read from
    the stream, on the connection that [connect] had made and its goroutines had brought
    that far. Only connections whose [Connect] succeeded have streams that are served;
    and whatever happens next, what was handed out stays so, and the streams of a
    connection, served or waiting, are kept, in the order in which they came. *)
Theorem server_hands_out `{UrlLib} lower bufSize {S M} `{Minq M} `{!MinqServer S M} (s : httpServer (S := S) (M := M)) :
  http_reachable lower bufSize s →
  wk_conn <$> hs_workers s = sv_accepted (ss_server (hs_mw s)) ∧ NoDup (wk_conn <$> hs_workers s) ∧
  (∀ w, w ∈ hs_workers s → ∃ c, sv_conns (ss_server (hs_mw s)) !! wk_conn w = Some c ∧ connectedClosed c = true) ∧
  NoDup (hs_connections s) ∧
  (∀ j, j ∈ hs_connections s ↔ ∃ w, hs_workers s !! j = Some w ∧ TrackConnections (hs_config s) = true ∧ wk_phase w = WReturned) ∧
  NoDup (hs_requests s).*1 ∧
  (∀ j i req, (j, i, req) ∈ hs_requests s ↔
    ∃ w, hs_workers s !! j = Some w ∧ ∃ p, wk_handlers w !! i = Some p ∧ ∃ body, p.2 = HServed req body) ∧
  (∀ j w i id req body, hs_workers s !! j = Some w → wk_handlers w !! i = Some (id, HServed req body) →
    ∃ st cn st' c, connect (hs_config s) st = (Ok cn, st') ∧ wk_base w = Some c ∧
      read_between lower bufSize (newServerConnection cn) c id req body) ∧
  (∀ w, w ∈ hs_workers s → wk_base w = None → wk_handlers w = []) ∧
  ∀ s', http_steps lower bufSize s s' → grows s s'.
Proof.
  intros Hs%http_reachable_inv. pose proof Hs as [Hm Hw Hok Hn Hc Hrn Hr]. destruct (server_reachable_inv _ Hm) as [_ (Hacc & _ & Hup) _ _ _].
  assert (NoDup (wk_conn <$> hs_workers s)) as Hnd by (rewrite Hw; by apply NoDup_app in Hacc as [? _]).
  split_and!; try done.
  - intros w Hin. apply Hup. rewrite <- Hw. by apply list_elem_of_fmap_2.
  - intros j w i id req body Hj Hi. destruct (proj1 (Forall_lookup _ _) Hok j w Hj) as [_ _ Hh Hhist].
    destruct (wk_base w) as [c|] eqn:Hb; [|by rewrite Hh in Hi]. destruct (Hhist c Hb) as (st & cn & st' & Hconn & _ & Hall).
    exists st, cn, st', c. split_and!; [done|done|]. exact (proj1 (Forall_lookup _ _) Hall i _ Hi).
  - intros w Hin. rewrite Forall_forall in Hok. by apply Hok.
  - intros s'. by apply http_steps_grow.
Qed.

(** *** A sample: a connection that is up, and a stream of its peer *)

Definition webServer (config : Config) : httpServer (S := nat) (M := sampleMinq) := RunServer 0%nat config.

Definition opened (config : Config) : httpServer (S := nat) (M := sampleMinq) :=
  HttpServer (after_server [SAInput 0 []; SAInput 1 []]) config [] [] [].

Lemma opened_reachable config : http_reachable noLower 10 (opened config).
Proof.
  exists 0%nat, config.
  assert (∀ l l' s a, server_perform a (hs_mw s) = Some (Some l) → takes_nothing (hs_mw s) l →
    http_steps noLower 10 (hs_set_mw l s) l' → http_steps noLower 10 s l') as Hstep.
  { intros l l' s a Hp Ht Hs. eapply http_steps_trans; [|exact Hs]. eexists. apply http_run_one, hs_loop; [|done].
    by eapply server_perform_step. }
  apply (Hstep (after_server [SAInput 0 []]) _ _ (SAInput 0 [])); [by vm_compute|split; [done|by intros k c c' Hk]|].
  apply (Hstep (after_server [SAInput 0 []; SAInput 1 []]) _ _ (SAInput 1 [])); [by vm_compute| |exists []; apply run_nil].
  split; [done|]. intros [|k] c c'; [|done]. vm_compute. intros [= <-] [= <-]. by exists [1].
Qed.

(** *** A request that a client fetches *)

(** Two connections start, and the client fetches: what the server's goroutines make of
    the bytes. *)
Lemma fetched `{UrlLib} lower bufSize clientConfig serverConfig x method target u headers chunks :
  0 < bufSize → config_ok clientConfig → config_ok serverConfig →
  act_ok lower HuffmanCodingAuto HuffmanCodingAuto (Ask x method target headers chunks) → url_Parse target = Ok u →
  act_short lower (Ask x method target headers chunks) → 4 + zlen headers < 2 ^ 60 →
  ∃ e0 st e1 cn st' creq w client c2 c3,
    connectBoth clientConfig serverConfig (newStreams, newStreams) = (Ok e0, st) ∧ serveControls lower bufSize e0 = (Ok tt, e1) ∧
    fetchWith lower x (MkBuffer []) method target headers chunks (en_client e1) = (Ok (creq, w), client) ∧
    connect serverConfig newStreams = (Ok cn, st') ∧
    serve_run lower [AStream (buf_bytes (bw_writer (c_controlStream (cc_connection (en_client e0)))));
      AUpdates (since (c_updates (cc_connection (en_client e1))) (c_updates (cc_connection client)))] (newServerConnection cn) c2 ∧
    serviceRequest lower bufSize x (buf_bytes (bw_writer w)) c2 =
      (Ok (MkServerRequest (lower_names lower (request_list u method headers)) method (Some u) true false, bodies chunks), c3).
Proof.
  intros Hbuf Hc Hs Hact Hu Hshort Hroom. set (a := Ask x method target headers chunks) in *.
  destruct (starts lower bufSize clientConfig serverConfig Hc Hs) as (e0 & st & e1 & Hconnect & Hserve & _ & _ & _ & Hidle & Hok).
  specialize (Hok ((act_fields a).1 + 0, (act_fields a).2 + 0)). cbn in Hok. specialize (Hok ltac:(lia) ltac:(lia)).
  destruct (act_runs_ok lower bufSize _ _ a Hbuf Hact (0, 0) e1) as (e2 & Hrun & _); [done|done|exact Hok|by eapply (idle_act_live _ _ _ _ (0, 0))|].
  cbn [perform said a] in Hrun. rewrite Hu in Hrun. unfold ask in Hrun.
  rewrite bind_unfold in Hrun. cbn [getS] in Hrun. apply bind_Ok_inv in Hrun as ([creq w] & e3 & Hfetch & Hrun).
  unfold at_client, zoom in Hfetch. destruct (fetchWith _ _ _ _ _ _ _ _) as [o client] eqn:Hf. injection Hfetch as -> <-.
  rewrite bind_unfold in Hrun. cbn [getS] in Hrun. apply bind_Ok_inv in Hrun as ([] & e4 & Hupd & Hrun).
  unfold at_server, zoom in Hupd. cbn [en_server] in Hupd. destruct (updatesArrive _ (en_server e1)) as [o2 c2] eqn:Hua. injection Hupd as -> <-.
  apply bind_Ok_inv in Hrun as ([req body] & e5 & Hreq & Hrun). rewrite ret_unfold in Hrun. injection Hrun as -> -> _.
  unfold at_server, zoom in Hreq. cbn [en_server] in Hreq. destruct (serviceRequest _ _ _ _ c2) as [o3 c3] eqn:Hsr. injection Hreq as -> _.
  pose proof Hconnect as Hcb. unfold connectBoth in Hcb. apply bind_Ok_inv in Hcb as (cl & st1 & Hcl & Hcb).
  apply bind_Ok_inv in Hcb as (cn & st2 & Hcn & Hcb). rewrite bind_unfold in Hcb. cbn [getS] in Hcb. rewrite ret_unfold in Hcb. injection Hcb as <- _.
  unfold zoom in Hcl. destruct (connect clientConfig _) as [? ?]. injection Hcl as -> <-. unfold zoom in Hcn. cbn [snd] in Hcn.
  destruct (connect serverConfig newStreams) as [? st'] eqn:Hcs. injection Hcn as -> _.
  pose proof Hserve as Hsv. unfold serveControls in Hsv. rewrite bind_unfold in Hsv. cbn [getS] in Hsv.
  apply bind_Ok_inv in Hsv as ([] & e6 & Hsv & Hsv'). unfold at_server, zoom in Hsv. cbn [en_server en_client] in Hsv.
  destruct (controlArrives _ _) as [? c1] eqn:Hca. injection Hsv as -> <-. unfold at_client, zoom in Hsv'. cbn [en_client] in Hsv'.
  destruct (controlArrives _ _) as [? cl1] in Hsv'. injection Hsv' as -> <-. cbn [en_client en_server] in *.
  eexists _, st, _, cn, st', creq, w, client, c2, c3. split_and!; [exact Hconnect|exact Hserve|exact Hf|reflexivity| |exact Hsr].
  eapply serve_cons; [exact Hca|done|]. eapply serve_cons; [exact Hua|done|]. apply serve_nil.
Qed.

(** C35: a connection that is up gets its requests to the application, whatever the
    application does with the others. From any state of the server, a client connects
    and fetches; the goroutines of its connection alone, in the order given, bring its
    first stream to the channel of requests: [serviceConnections] wraps it, its
    [Connect] opens its streams, the goroutines of the client's control stream and
    encoder stream take what came, [serviceRequests] takes the request's stream, its
    [handle] reads what the client wrote, and the request is received. Nobody has to
    receive this or any other connection from the channel of connections; and the
    request has the method, the URL, the fields and the body of the fetch, for URLs of
    a host and a path alone. *)
Theorem server_request_arrives `{UrlLib} lower bufSize {S M} `{Minq M} `{!MinqServer S M} (s : httpServer (S := S) (M := M))
    clientConfig before k after m x rest method target u headers chunks :
  sv_offers (ss_server (hs_mw s)) = before ++ k :: after → sv_conns (ss_server (hs_mw s)) !! k = Some m →
  connectedClosed m = true → remoteStreams m = x :: rest →
  0 < bufSize → config_ok clientConfig → config_ok (hs_config s) →
  act_ok lower HuffmanCodingAuto HuffmanCodingAuto (Ask x method target headers chunks) → url_Parse target = Ok u →
  act_short lower (Ask x method target headers chunks) → 4 + zlen headers < 2 ^ 60 →
  let j := length (hs_workers s) in
  let req := MkServerRequest (lower_names lower (request_list u method headers)) method (Some u) true false in
  ∃ e0 st e1 creq w client control updates s',
    connectBoth clientConfig (hs_config s) (newStreams, newStreams) = (Ok e0, st) ∧ serveControls lower bufSize e0 = (Ok tt, e1) ∧
    control = buf_bytes (bw_writer (c_controlStream (cc_connection (en_client e0)))) ∧
    fetchWith lower x (MkBuffer []) method target headers chunks (en_client e1) = (Ok (creq, w), client) ∧
    updates = since (c_updates (cc_connection (en_client e1))) (c_updates (cc_connection client)) ∧
    http_run lower bufSize
      [Wraps k; Connects j; Serves j (AStream control); Serves j (AUpdates updates); TakesStream j;
       Handles j 0 (buf_bytes (bw_writer w)); Delivers j 0] s s' ∧
    hs_connections s' = hs_connections s ∧ hs_requests s' = hs_requests s ++ [(j, 0%nat, req)] ∧
    ∃ wk, hs_workers s' = hs_workers s ++ [wk] ∧ wk_handlers wk = [(x, HServed req (DBody <$> chunks))].
Proof.
  intros Ho Hk Hup Hx Hbuf Hc Hs Hact Hu Hshort Hroom j req.
  destruct (fetched lower bufSize clientConfig (hs_config s) x method target u headers chunks) as
    (e0 & st & e1 & cn & st' & creq & w & client & c2 & c3 & Hcb & Hsc & Hf & Hcn & Hsr & Hreq); [done..|].
  destruct (first_request lower bufSize s before k after m x rest newStreams cn st' _ c2 _ req (bodies chunks) c3 Ho Hk Hup Hx Hcn Hsr Hreq eq_refl)
    as (mw & Hrun).
  eexists e0, st, e1, creq, w, client, _, _, _. split_and!; [exact Hcb|exact Hsc|done|exact Hf|done|exact Hrun|done|done|].
  by eexists.
Qed.

(** The connection that is up, and a client that posts to it. *)
Definition askedHeaders : list HeaderField := [MkHeaderField "Accept" "a" false]%string.

Definition askedRequest : ServerRequest :=
  MkServerRequest [MkHeaderField ":authority" "example.com" false; MkHeaderField ":path" "/a" false; MkHeaderField ":method" "POST" false;
    MkHeaderField ":scheme" "https" false; MkHeaderField "accept" "a" false]%string "POST" (Some ("https", "example.com", "/a")%string) true false.

Lemma asked_ok : act_ok noLower HuffmanCodingAuto HuffmanCodingAuto (Ask 1 "POST" "https://example.com/a" askedHeaders [[1; 2]]) ∧
  act_short noLower (Ask 1 "POST" "https://example.com/a" askedHeaders [[1; 2]]).
Proof.
  split; [|by split; [by vm_compute|repeat constructor]]. split; [done|]. split; [|by repeat constructor].
  split_and!; [done|by repeat constructor|done|]. cbn zeta beta iota. cbn -[lower_names request_list ValidatePseudoHeaders].
  split_and!; [by split_and!|by apply short_fields_ok; vm_compute|done].
Qed.

Lemma server_request_arrives_witness : ∃ control updates bs s', http_run noLower 10
    [Wraps 0; Connects 0; Serves 0 (AStream control); Serves 0 (AUpdates updates); TakesStream 0; Handles 0 0 bs; Delivers 0 0]
    (opened exampleConfig) s' ∧ hs_connections s' = [] ∧ hs_requests s' = [(0%nat, 0%nat, askedRequest)].
Proof.
  destruct asked_ok as [Hok Hshort].
  destruct (server_request_arrives (H := sampleUrl) noLower 10 (opened exampleConfig) exampleConfig [] 0%nat [] (MkConnection sampleStart true true false [1] [] ∅ [] [])
      1 [] "POST" "https://example.com/a" ("https", "example.com", "/a")%string askedHeaders [[1; 2]])
    as (e0 & st & e1 & creq & w & client & control & updates & s' & _ & _ & _ & _ & _ & Hrun & Hcs & Hrs & _);
    [by vm_compute|by vm_compute|done|done|done|by split_and!|by split_and!|exact Hok|by vm_compute|exact Hshort|by vm_compute|].
  exists control, updates, (buf_bytes (bw_writer w)), s'. split; [exact Hrun|]. split; [exact Hcs|exact Hrs].
Defined.

Definition trackingConfig : Config := MkConfig 4096 100 10 true true.

(** A connection and a request were handed out: the goroutines of the witness above, and
    the send to the channel of connections. *)
Lemma handed_out_state : ∃ s, http_reachable noLower 10 s ∧ hs_connections s = [0%nat] ∧ hs_requests s = [(0%nat, 0%nat, askedRequest)] ∧
  ∃ w, hs_workers s = [w] ∧ wk_conn w = 0%nat ∧ wk_handlers w = [(1, HServed askedRequest [DBody [1; 2]])].
Proof.
  destruct asked_ok as [Hok Hshort].
  destruct (fetched (H := sampleUrl) noLower 10 exampleConfig trackingConfig 1 "POST" "https://example.com/a" ("https", "example.com", "/a")%string askedHeaders [[1; 2]])
    as (e0 & st & e1 & cn & st' & creq & w & client & c2 & c3 & _ & _ & _ & Hcn & Hsr & Hreq);
    [done|by split_and!|by split_and!|exact Hok|by vm_compute|exact Hshort|by vm_compute|].
  change (lower_names _ _) with (rq_Headers askedRequest) in Hreq. change (MkServerRequest _ _ _ _ _) with askedRequest in Hreq.
  destruct (first_request noLower 10 (opened trackingConfig) [] 0%nat [] (MkConnection sampleStart true true false [1] [] ∅ [] [])
    1 [] newStreams cn st' _ c2 (buf_bytes (bw_writer w)) askedRequest (bodies [[1; 2]]) c3 ltac:(by vm_compute) ltac:(by vm_compute) eq_refl eq_refl Hcn Hsr Hreq eq_refl) as (mw & Hrun).
  destruct (opened_reachable trackingConfig) as (ms & config & gs & Hreach).
  set (s1 := HttpServer _ _ _ _ _) in Hrun.
  pose proof (hs_offer noLower 10 s1 0 _ eq_refl eq_refl) as Hoffer. eexists. split.
  { exists ms, config. eexists. eapply http_run_app; [exact Hreach|]. eapply http_run_app; [exact Hrun|apply http_run_one, Hoffer]. }
  split_and!; [done|done|]. eexists. by split_and!.
Qed.

Lemma server_hands_out_witness : ∃ s c, http_reachable noLower 10 s ∧ hs_connections s = [0%nat] ∧
  hs_requests s = [(0%nat, 0%nat, askedRequest)] ∧ sv_accepted (ss_server (hs_mw s)) = [0%nat] ∧
  sv_conns (ss_server (hs_mw s)) !! 0%nat = Some c ∧ connectedClosed c = true ∧ NoDup (hs_requests s).*1 ∧
  ∃ st cn st' c', connect (hs_config s) st = (Ok cn, st') ∧
    read_between noLower 10 (newServerConnection cn) c' 1 askedRequest [DBody [1; 2]].
Proof.
  destruct handed_out_state as (s & Hs & Hcs & Hrs & w & Hws & Hk & Hh).
  destruct (server_hands_out noLower 10 s Hs) as (H1 & _ & H2 & _ & _ & H3 & _ & H4 & _). rewrite Hws in *. cbn in H1. rewrite Hk in H1.
  destruct (H2 w) as (c & Hc & Hup); [by apply list_elem_of_singleton|]. rewrite Hk in Hc.
  destruct (H4 0%nat w 0%nat 1 askedRequest [DBody [1; 2]] eq_refl) as (st & cn & st' & c' & Hcn & _ & Hread); [by rewrite Hh|].
  exists s, c. split_and!; [done..|]. by exists st, cn, st', c'.
Defined.

(** The error of [Connect] is lost: with [TrackConnections] a connection that
    [connect] could not set up is handed to the application like the others, and none
    of its streams is ever served. *)
Theorem server_failed_connection `{UrlLib} lower bufSize {S M} `{Minq M} `{!MinqServer S M} (s : httpServer (S := S) (M := M))
    before k after m st e st' :
  sv_offers (ss_server (hs_mw s)) = before ++ k :: after → sv_conns (ss_server (hs_mw s)) !! k = Some m →
  connectedClosed m = true → connect (hs_config s) st = (Err e, st') → TrackConnections (hs_config s) = true →
  let j := length (hs_workers s) in
  ∃ s', http_steps lower bufSize s s' ∧ hs_connections s' = hs_connections s ++ [j] ∧
    ∀ s'', http_steps lower bufSize s' s'' → ∃ w, hs_workers s'' !! j = Some w ∧ wk_base w = None ∧ wk_handlers w = [].
Proof.
  intros Ho Hk Hup Hc Ht j. destruct (failed_connection lower bufSize s before k after m st e st' Ho Hk Hup Hc Ht)
    as (s' & Hs & Hcs & w & Hw & _ & Hd). exists s'. split_and!; [done|done|]. intros s'' Hs''.
  destruct (dead_steps lower bufSize s' s'' j w Hw Hd Hs'') as (w' & Hw' & _ & Hb & Hh). by exists w'.
Qed.

(** A table that no setting can state. *)
Lemma server_failed_connection_witness :
  let config := MkConfig (2 ^ 62) 100 0 true false in
  ∃ s', http_steps noLower 10 (opened config) s' ∧ hs_connections s' = [0%nat] ∧
    ∀ s'', http_steps noLower 10 s' s'' → ∃ w, hs_workers s'' !! 0%nat = Some w ∧ wk_base w = None ∧ wk_handlers w = [].
Proof.
  cbv zeta. set (config := MkConfig (2 ^ 62) 100 0 true false).
  destruct (connect config newStreams) as [[cn|e| |] st'] eqn:Hc; [by vm_compute in Hc| |by vm_compute in Hc..].
  apply (server_failed_connection noLower 10 (opened config) [] 0%nat [] (MkConnection sampleStart true true false [1] [] ∅ [] [])
    newStreams e st'); [by vm_compute|by vm_compute|done|exact Hc|done].
Defined.

(** C39: what [Listen] does on every path. It returns a server if, and only if, the host
    splits, resolves and can be listened on, the files are a pair, all certificates of the
    chain parse and the key signs; the server then listens on the address of the host,
    with its name, exactly the parsed certificates in their order, and the key. Otherwise
    the first of these steps that fails gives the error; and the socket, which is opened
    before the files are looked at, stays open when they are bad. *)
Theorem listen_exact `{TlsLib} `{ListenNet} host certfile keyfile socks o socks' :
  Listen host certfile keyfile socks = (o, socks') ↔
  ∃ opened, listens host certfile keyfile o opened ∧ socks' = socks ++ opened.
Proof.
  split.
  - intros Hr. destruct (Listen_listens host certfile keyfile socks) as (o' & opened & Hr' & Hl).
    rewrite Hr in Hr'. injection Hr' as <- ->. by exists opened.
  - intros (opened & Hl & ->). destruct (Listen_listens host certfile keyfile socks) as (o' & opened' & -> & Hl').
    by destruct (listens_functional _ _ _ _ _ _ _ Hl Hl') as [<- <-].
Qed.

(** A host that can be listened on, and three pairs of files: a good one, one whose
    second certificate does not parse, and one with a key that does not sign. *)
#[local] Instance sampleTls : TlsLib := {
  Certificate := list Z;
  PrivateKey := Z;
  Signer := Z;
  tls_LoadX509KeyPair cert key :=
    if decide (cert = "bad"%string) then Ok ([[1]; [2; 2]; [3]], 7)
    else if decide (key = "dumb"%string) then Ok ([[1]], 8)
    else if decide (cert = "good"%string) then Ok ([[1]; [3]], 7) else Err (ErrForeign 5);
  x509_ParseCertificate b := if decide (b = [2; 2]) then Err (ErrForeign 4) else Ok b;
  as_Signer k := if decide (k = 7) then Some 7 else None;
}.
#[local] Instance sampleListenNet : ListenNet := {
  lsn_SplitHostPort h := if decide (h = "nowhere"%string) then Err (ErrForeign 1) else Ok ("localhost", "443")%string;
  lsn_ResolveUDPAddr h := Ok h;
  lsn_ListenUDP a := Ok tt;
}.

Lemma listen_exact_witness :
  Listen "localhost:443" "good" "key" [] = (Ok ("localhost:443"%string, MkTlsConfig "localhost" [Some [1]; Some [3]] (Some 7)), ["localhost:443"%string]) ∧
  Listen "localhost:443" "bad" "key" [] = (Err (ErrForeign 4), ["localhost:443"%string]) ∧
  Listen "localhost:443" "good" "dumb" [] = (Err (ErrText "Private key isn't suitable for signing"), ["localhost:443"%string]) ∧
  Listen "nowhere" "good" "key" [] = (Err (ErrForeign 1), []) ∧
  ¬ ∃ opened, listens "localhost:443" "good" "key" (Err (ErrForeign 1)) opened.
Proof.
  split_and!.
  - apply listen_exact. exists ["localhost:443"%string]. split; [|done]. apply (li_ok _ _ _ "localhost" "443"); [done..|].
    apply (ce_ok (H := sampleTls) _ _ _ [[1]; [3]] 7); [done|by repeat econstructor|done].
  - apply listen_exact. exists ["localhost:443"%string]. split; [|done]. apply (li_cert _ _ _ "localhost" "443" _ (Err (ErrForeign 4))); [done..| |done].
    apply (ce_parse (H := sampleTls) _ _ _ [[1]] [2; 2] [[3]] 7 [Some [1]] (Err (ErrForeign 4))); [done|by repeat econstructor|done|done].
  - apply listen_exact. exists ["localhost:443"%string]. split; [|done]. eapply (li_cert _ _ _ "localhost" "443" _ (Err _)); [done..| |done].
    apply (ce_key (H := sampleTls) _ _ _ [[1]] 8 [Some [1]]); [done|by repeat econstructor|done].
  - apply listen_exact. exists []. split; [|done]. by apply (li_split _ _ _ (Err (ErrForeign 1))).
  - intros (opened & Hl). assert (Listen "localhost:443" "good" "key" [] = (Err (ErrForeign 1), opened)) as Hr by (apply listen_exact; by exists opened).
    by vm_compute in Hr.
Defined.
