(* ===== verification/HqProps.v ===== *)
(** * The command hq: the properties

    Its command line, and what its client and its server do with the library. *)

From S2P Require Import Prelude Bits GoIo BitWriter BitReader Streams Frame HcInt HuffmanTable Huffman HcString StaticTable Table Codec QpackTable QpackEncoder QpackDecoder QpackDecoderSpec QpackEncoderSpec QpackReach QpackSamples Settings Headers Message MessageSpec MessageLink Connection Push Request RequestSpec HttpSamples Conversation ConversationSpec StartUp Client ClientProps ConversationProps Hq HqSpec.

(** C37: a command line means what it spells. Whatever options come first, in any order
    and as often as one likes, with one dash or two, their decimal values as the next
    argument or after an equals sign, and whatever the command and its arguments, [main]
    runs the command with those arguments and the last value of each option, or 4096
    and 100; it panics when the last limit on blocked streams needs more than 16 bits. *)
Theorem hq_command_line opts c : Forall option_ok opts → command_ok c →
  main (mjoin (optionText <$> opts) ++ commandText c) =
    if 2 ^ 16 <=? (optionsOf opts).2 then Panics
    else Returns (MkConfig (optionsOf opts).1 (optionsOf opts).2 0 false false, commandOf c).
Proof.
  intros Hopts Hc. pose proof (Parse_range (mjoin (optionText <$> opts) ++ commandText c)) as Hr.
  unfold main. rewrite Parse_text in * by done. destruct (optionsOf opts) as [t b]. cbn [fst snd TableSize ConcurrentDecodersFlag cl_args] in *.
  destruct Hr as [Ht Hb]. cbn -[Z.modulo]. unfold boundsCheck. rewrite (proj2 (Z.ltb_ge _ t)) by lia. cbn -[Z.modulo].
  destruct (Z.leb_spec (2 ^ 16) b); [by rewrite (proj2 (Z.ltb_lt _ b)) by lia|].
  rewrite (proj2 (Z.ltb_ge _ b)) by lia. cbn -[Z.modulo]. by rewrite Z.mod_small by lia.
Qed.

Definition someOptions : list (spelling * hqOption) :=
  [(Spelling true true, TableOption 256); (Spelling false false, BlockedOption 3); (Spelling true false, TableOption 0)].

Lemma hq_command_line_witness :
  main ["--t=256"; "-b"; "3"; "--t"; "0"; "c"; "-d=body"; "https://example.com/a"; "-x"]%string =
    Returns (MkConfig 0 3 0 false false, clientArguments ["https://example.com/a"; "-x"] "body")%string ∧
  main ["-b"; "65536"; "s"; "a"; "b"; "c"; "d"]%string = Panics.
Proof.
  assert (∀ b bs, bytes_of_string "https://example.com/a" ≠ 45 :: b :: bs) as Hurl by done. split.
  - apply (hq_command_line someOptions
      (ClientCommand true (Some (Spelling false true, "body")) false ["https://example.com/a"; "-x"])%string).
    + by repeat constructor.
    + split; [done|by right].
  - apply (hq_command_line [(Spelling false false, BlockedOption 65536)] (ServerCommand true "a" "b" "c" ["d"])%string);
      [by repeat constructor|done].
Defined.

(** C38: any other arguments end the process: on any arguments at all the parser of
    flags comes to an end, and [main] exits with the status 2 of a bad usage, or has a
    configuration whose numbers are within the widths of its fields, or panics because
    of a limit on blocked streams that was given and needs more than 16 bits. *)
Theorem hq_arguments args :
  match main args with
  | Returns (config, _) => 0 ≤ DecoderTableCapacity config < 2 ^ 64 ∧ 0 ≤ ConcurrentDecoders config < 2 ^ 16 ∧
      MaxConcurrentPushes config = 0 ∧ TrackConnections config = false ∧ InformationalResponses config = false ∧
      ∃ c, Parse args = Returns c ∧ DecoderTableCapacity config = TableSize c ∧ ConcurrentDecoders config = ConcurrentDecodersFlag c
  | Exits n => n = 2 ∧ Parse args = Exits 2
  | Panics => ∃ c, Parse args = Returns c ∧ 2 ^ 16 ≤ ConcurrentDecodersFlag c < 2 ^ 64
  end.
Proof.
  pose proof (Parse_range args) as Hr. unfold main. destruct (Parse args) as [c|n|] eqn:Hp; [|by subst|done].
  destruct Hr as [Ht Hb]. cbn [process_bind]. unfold boundsCheck. rewrite (proj2 (Z.ltb_ge _ _)) by lia. cbn [process_bind].
  destruct (Z.ltb_spec (2 ^ 16 - 1) (ConcurrentDecodersFlag c)) as [Hlt|Hle]; cbn [process_bind]; [exists c; split; [done|lia]|].
  cbn [DecoderTableCapacity ConcurrentDecoders MaxConcurrentPushes TrackConnections InformationalResponses].
  rewrite Z.mod_small by lia. split_and!; try done; try lia. by exists c.
Qed.

Example hq_bad_usage : main [] = Exits 2 ∧ main ["client"]%string = Exits 2 ∧ main ["server"; "a"; "b"]%string = Exits 2 ∧
  main ["go"]%string = Exits 2 ∧ main ["-t"]%string = Exits 2 ∧ main ["-t"; "x"; "c"; "u"]%string = Exits 2 ∧
  main ["-h"]%string = Exits 2 ∧ main ["---t"; "1"; "c"; "u"]%string = Exits 2 ∧
  main ["-t"; "18446744073709551616"; "c"; "u"]%string = Exits 2 ∧ main ["-t"; "08"; "c"; "u"]%string = Exits 2.
Proof. by vm_compute. Qed.

(** Values may be octal or hexadecimal, a dash alone is no flag, and [client -d file]
    without an URL does nothing. *)
Example hq_usage : main ["-t"; "010"; "-b=0x1F"; "c"; "-"]%string =
    Returns (MkConfig 8 31 0 false false, clientArguments ["-"] "")%string ∧
  main ["c"; "-d"; "f"]%string = Returns (MkConfig 4096 100 0 false false, clientArguments [] "f")%string.
Proof. by vm_compute. Qed.

(** The client of hq never gets an answer: with any URL it exits, or waits for ever
    in its first [Fetch], which is what it does when the URL is one of a host that it
    can reach, since nothing connects its connections. It prints nothing and starts no
    [sendFile]. *)
Theorem hq_client_stuck `{UrlLib} `{HqFiles} `{Net} lower {W : Type} `{IoWriter W} lib answer file url urls :
  ∃ o c, runClient lower lib answer file (url :: urls) (HqClient newClient [] []) = (o, HqClient (W := W) c [] []) ∧ o ≠ Ok tt ∧
    ∀ u, url_Parse url = Ok u → url_Scheme u = "https"%string →
      (∃ i, (Connect (url_Host u) (newClient (W := W))).1 = Ok i) → o = Err ErrWouldBlock.
Proof.
  assert (client_inv (newClient (W := W))) as Hc by (split; [constructor|by intros ???]).
  destruct (runClient_stuck lower lib answer file url urls newClient [] [] Hc) as (o & c & Hr & Hne & Hwait).
  exists o, c. split_and!; [done|done|]. intros u Hu Hs [i Hi]. apply Hwait.
  destruct (client_fetch_waits lower (lib url).1 (lib url).2 "GET" url [] (newClient (W := W)) u) as (c' & -> & _); try done.
  - constructor.
  - by destruct (Connect (url_Host u) (newClient (W := W))) as [[]].
Qed.

(** Every host can be reached. *)
#[local] Instance sampleNet : Net :=
  { net_SplitHostPort h := Ok (h, ""%string); net_ResolveUDPAddr h := Ok h; net_ListenUDP := Ok tt }.
#[local] Instance noFiles : HqFiles := { hq_Open _ := Err (ErrForeign 2) }.

Example hq_client_waits :
  (runClient (W := Buffer) noLower (λ _, (true, Some (0, MkBuffer []))) (λ _, Err ErrWouldBlock) ""
    ["https://example.com/a"]%string (HqClient newClient [] [])).1 = Err ErrWouldBlock.
Proof. by vm_compute. Qed.

(** Hq sends no file. When a name is given [sendFile] closes the request with
    nothing written, whatever the file is; when none is given it opens the file of the
    empty name, which no system has, and ends the process before the request is closed. *)
Theorem hq_sends_no_file `{HqFiles} {U W} `{IoWriter U} `{IoWriter W} closing fname (s : outgoing U W) e : hq_Open "" = Err e →
  sendFile closing fname s =
    if decide (fname = ""%string) then (Err exitError, s)
    else (Ok tt, Outgoing (og_encoder s) (og_updates s) (og_stream s) true).
Proof. apply sendFile_run. Qed.

(** Every file but that of the empty name can be read. *)
#[local] Instance sampleFiles : HqFiles :=
  { hq_Open name := if decide (name = ""%string) then Err (ErrForeign 2) else Ok ([[1; 2; 3]], None) }.

Lemma hq_sends_no_file_witness :
  let s := Outgoing (U := Buffer) (W := Buffer) connectionEncoder emptyWriter emptyWriter false in
  hq_Open "body" = Ok ([[1; 2; 3]], None) ∧ sendFile None "body" s = (Ok tt, Outgoing connectionEncoder emptyWriter emptyWriter true).
Proof. cbv zeta. split; [done|]. rewrite (hq_sends_no_file None "body" _ (ErrForeign 2)); done. Defined.


