(* ===== verification/QifProps.v ===== *)
(** * The QPACK interop tool: the properties

    A QIF file goes through [encode] and [decode] and comes back; inputs and command
    lines that the tool does not survive. *)

From S2P Require Import Prelude Bits GoIo BitWriter BitReader Streams HcInt HuffmanTable Huffman HcString StaticTable Table Codec QpackTable QpackEncoder QpackDecoder QpackTableSpec QpackUsageSpec QpackDecoderSpec QpackEncoderSpec QpackReach QpackLink QpackSamples Headers Qif QifSpec QifStream QifMain QifAsync QifAsyncSpec.

(** ** The tool as its flags set it up *)

(** Flags that make sense. *)
Definition flags_ok (f : flags) : Prop :=
  0 ≤ fl_capacity f < 2 ^ 60 ∧ 0 ≤ fl_referenceable f ∧ 0 ≤ fl_maxBlocked f.

(** The QPACK encoder for the flags [f]. *)
Definition configured (f : flags) : QpackEncoder :=
  let e := match NewQpackEncoder 4096 3072 with Ok e => e | _ => emptyEncoder end in
  let e := (Encoder_SetCapacity (fl_capacity f) e).2 in
  let e := (Encoder_SetReferenceableLimit (fl_referenceable f) e).2 in
  (SetMaxBlockedStreams (fl_maxBlocked f) e).2.

Lemma configured_ok (lower : string → string) f : flags_ok f →
  enc_inv (configured f) ∧ enc_pref (configured f) = HuffmanCodingAuto ∧ highestAcknowledged (configured f) = 0 ∧
  qe_common_table (configured f) = TableCommon [] (fl_capacity f) 0 0.
Proof.
  intros (Hc & Hr & Hm). split.
  - enough (enc_reachable lower (Config (configured f) [])) as Hreach by apply (reachable_inv lower _ Hreach).
    unfold configured. destruct (NewQpackEncoder 4096 3072) as [e| | |] eqn:Hnew; [|by vm_compute in Hnew..].
    pose proof (reach_new lower 4096 3072 e ltac:(lia) ltac:(lia) Hnew) as H0'.
    cbv zeta.
    destruct (Encoder_SetCapacity (fl_capacity f) e) as [o1 e1] eqn:H1'. cbn [snd].
    destruct (Encoder_SetReferenceableLimit (fl_referenceable f) e1) as [o2 e2] eqn:H2'. cbn [snd].
    destruct (SetMaxBlockedStreams (fl_maxBlocked f) e2) as [o3 e3] eqn:H3'. cbn [snd].
    eapply reach_step; [eapply reach_step; [eapply reach_step; [exact H0'|]|]|].
    + by apply (step_capacity _ (fl_capacity f) _ _ o1 e1).
    + by apply (step_limit _ (fl_referenceable f) _ _ o2 e2).
    + by apply (step_max_blocked _ (fl_maxBlocked f) _ _ o3 e3).
  - unfold configured. assert (NewQpackEncoder 4096 3072 = Ok (MkQpackEncoder (EncoderCommon HuffmanCodingAuto ∅)
      (MkQpackEncoderTable (TableCommon [] 4096 0 0) 3072 0 0) newUsage 0 0 0 0)) as -> by (vm_compute; reflexivity).
    cbv zeta. unfold Encoder_SetCapacity, EncoderTable_SetCapacity, Encoder_SetReferenceableLimit, SetMaxBlockedStreams.
    rewrite !bind_unfold. cbn [getS qe_table qt_common tbase Z.ltb Z.compare lift modS snd dynamic used].
    cbn [referenceableLimit]. destruct (fl_capacity f <? 3072); cbn [blockedStreams set_qe_table getS];
      rewrite (proj2 (Z.ltb_ge _ _)) by done; by split_and!.
Qed.

(** None of the settings fails on a new encoder. *)
Lemma settings_run f e : flags_ok f → NewQpackEncoder 4096 3072 = Ok e →
  let e1 := (Encoder_SetCapacity (fl_capacity f) e).2 in
  let e2 := (Encoder_SetReferenceableLimit (fl_referenceable f) e1).2 in
  Encoder_SetCapacity (fl_capacity f) e = (Ok tt, e1) ∧
  Encoder_SetReferenceableLimit (fl_referenceable f) e1 = (Ok tt, e2) ∧
  SetMaxBlockedStreams (fl_maxBlocked f) e2 = (Ok tt, configured f).
Proof.
  intros (Hc & Hr & Hm) Hnew. unfold configured. rewrite Hnew. cbv zeta.
  assert (tbase (qt_common (qe_table e)) = 0 ∧ blockedStreams e = 0) as [Hb Hbl]
    by (vm_compute in Hnew; by injection Hnew as <-).
  assert (∃ q, Encoder_SetCapacity (fl_capacity f) e = (Ok tt, set_qe_table q e)) as [q Hq].
  { unfold Encoder_SetCapacity, EncoderTable_SetCapacity. rewrite bind_unfold. cbn [getS]. rewrite bind_unfold, Hb. by eexists. }
  rewrite Hq. cbn [snd]. split_and!; [done|done|].
  unfold SetMaxBlockedStreams, Encoder_SetReferenceableLimit. cbn [modS snd]. rewrite bind_unfold. cbn [getS].
  change (blockedStreams (set_qe_table _ _)) with (blockedStreams e). rewrite Hbl, (proj2 (Z.ltb_ge _ _)) by lia. done.
Qed.

Section run.
Context {R W : Type} `{IoReader R} `{IoWriter W} (lower : string → string).

(** The encoder that [encode] runs. *)
Definition started (f : flags) (input : R) (output : W) : encoder R W :=
  MkEncoder (NewReader input) (NewBitWriter output) (fl_ack f) 0 (NewBitWriter (MkBuffer [])) (configured f).

Lemma runEncoder_started fuel f (input : R) (output : W) : flags_ok f →
  runEncoder lower fuel f input output = Ok (Encode lower fuel (started f input output)).
Proof.
  intros Hf. unfold runEncoder, newEncoder. destruct (NewQpackEncoder 4096 3072) as [e| | |] eqn:Hnew; [|by vm_compute in Hnew..].
  destruct (settings_run f e Hf Hnew) as (H1' & H2' & H3'). cbn [outcome_bind]. f_equal.
  rewrite bind_unfold. unfold configure. rewrite bind_unfold. cbn [modS]. rewrite bind_unfold. unfold on_qpack at 1, zoom at 1.
  cbn [en_qpack]. rewrite H1'. rewrite bind_unfold. unfold on_qpack at 1, zoom at 1. cbn [en_qpack]. rewrite H2'.
  unfold on_qpack, zoom. cbn [en_qpack]. by rewrite H3'.
Qed.
End run.

(** The QPACK side of a new decoder. *)
Definition newUpdates (f : flags) : decoding bytesReader :=
  qdec (TableCommon [] (fl_capacity f) 0 0, []) (NewBitReader (MkBytesReader [])).

Lemma newUpdates_drained f : drained (newUpdates f) (TableCommon [] (fl_capacity f) 0 0).
Proof. exists [], (NewBitReader (MkBytesReader [])). by split_and!; [|split; [constructor|]|]. Qed.

(** ** There and back *)

(** What the encoder writes. *)
Lemma runEncoder_sent {R W} `{IoReaderSpec R} `{IoWriterSpec W} `{!IoWriterTotal W} lower f nl srcs (input : R) (output : W) fuel :
  flags_ok f → line_end nl → rd_wf input → content input = qif_source nl srcs → Forall is_byte (accepted output) →
  Forall (block_fine lower HuffmanCodingAuto) srcs → zlen (mjoin (fields srcs)) < 2 ^ 60 → zlen srcs < 2 ^ 64 →
  fl_ack f = false ∨ blocks_live lower true 0 (plain_blocks (fields srcs)) (configured f) = true →
  (length (content input) < fuel)%nat →
  ∃ s file cs, runEncoder lower fuel f input output = Ok (Ok tt, s) ∧
    accepted (bw_writer (en_output s)) = accepted output ++ file ∧ bits_of_bytes file = chunks_bits cs ∧
    sent HuffmanCodingAuto (TableCommon [] (fl_capacity f) 0 0) 0 (lower_blocks lower (fields srcs)) cs (qe_common_table (en_qpack s)) ∧
    enc_inv (en_qpack s) ∧ qe_base (en_qpack s) < 2 ^ 60 ∧
    (fl_ack f = false → highestAcknowledged (en_qpack s) = 0).
Proof.
  intros Hf Hnl Hin Hc Hout Hfine Hlen Hblocks Hlive Hfuel.
  destruct (configured_ok lower f Hf) as (Hinv & Hpref & Hack & Htab). set (s0 := started f input output).
  assert (en_ok s0) as Hok0 by (split; [done|apply buffer_at_byte|done|done]).
  assert (qe_base (configured f) = 0) as Hbase by (change (tbase (qe_common_table (configured f)) = 0); by rewrite Htab).
  rewrite Hc in Hfuel.
  destruct (Encode_blocks lower nl srcs s0 fuel Hnl Hok0) as (s & cs & Hrun & Hsent & Hok & Hb & Ha).
  - split; [done|]. cbn. rewrite Hc. by destruct (qif_source nl srcs).
  - cbn. by rewrite Hpref.
  - cbn. rewrite Hbase. lia.
  - cbn. lia.
  - unfold names_stay. cbn [s0 started en_acknowledge en_stream en_qpack]. destruct (fl_ack f) eqn:Ha; [right|by left]. by destruct Hlive.
  - done.
  - destruct (zlen_chunks_bits cs) as [k Hk].
    destruct (swrites_whole en_at _ _ _ _ _ _ (NewBitWriter output) Hrun Hk) as (w & file & Hr & _ & Hac & Hfb & Hbits);
      [by split; [split|]|].
    change (en_at s0 (NewBitWriter output)) with s0 in Hr. exists (en_at s w), file, cs.
    cbn [s0 started en_qpack en_stream en_acknowledge] in *. rewrite Hpref, Htab in Hsent.
    split_and!; [rewrite runEncoder_started by done; fold s0; by rewrite Hr|done|done|done|apply Hok|done|].
    intros Hno. cbn. by rewrite (Ha Hno).
Qed.

(** C6: a QIF file, with any of the three line endings and comments in front of fields, that the tool encodes and
    decodes again with the same capacity comes back as text with line feeds: the same
    blocks in order, each field in its place, the names in lower case. Neither side
    fails. Blocks may have 4096 fields of 64 KiB. With [-a] every block counts as
    acknowledged, entries may be evicted, and the run must show that no name is gone
    when it is referred to; without it this always holds. *)
Theorem qif_roundtrip {R W R' W'} `{IoReaderSpec R} `{IoWriterSpec W} `{!IoWriterTotal W}
    `{IoReaderSpec R'} `{IoWriterSpec W'} `{!IoWriterTotal W'} lower f nl srcs (input : R) (output : W) fuel :
  flags_ok f → line_end nl → rd_wf input → content input = qif_source nl srcs → Forall is_byte (accepted output) →
  Forall (block_fine lower HuffmanCodingAuto) srcs → zlen (mjoin (fields srcs)) < 2 ^ 60 → zlen srcs < 2 ^ 64 →
  fl_ack f = false ∨ blocks_live lower true 0 (plain_blocks (fields srcs)) (configured f) = true →
  (length (content input) < fuel)%nat →
  ∃ s file, runEncoder lower fuel f input output = Ok (Ok tt, s) ∧
    accepted (bw_writer (en_output s)) = accepted output ++ file ∧
    ∀ (input' : R') (output' : W') fuel', rd_wf input' → content input' = file → (8 * length file < fuel')%nat →
    ∃ d, runDecoder fuel' f input' output' = (Ok tt, d) ∧
      accepted (de_output d) = accepted output' ++ qif_text [lineFeed] (lower_blocks lower (fields srcs)).
Proof.
  intros Hf Hnl Hin Hc Hout Hfine Hlen Hblocks Hlive Hfuel.
  destruct (runEncoder_sent lower f nl srcs input output fuel) as (s & file & cs & Hrun & Hac & Hbits & Hsent & _); [done..|].
  exists s, file. split_and!; [done|done|]. intros input' output' fuel' Hin' Hc' Hfuel'.
  destruct (reader_start input' Hin') as [Hbr Hl]. rewrite Hc', Hbits in Hl.
  destruct (Decode_sent _ _ _ _ _ _ Hsent ltac:(lia) fuel' output' (newUpdates f) (NewBitReader input'))
    as (w' & d' & br' & Hdec & Hac' & _); [apply newUpdates_drained|done|done|by rewrite <- Hbits, (bytes_length file _ eq_refl)|].
  eexists (de_at (w', d') br'). split; [|done]. unfold runDecoder. rewrite <- Hdec. by f_equal.
Qed.

(** C7: the asynchronous decoder gives the same for a file that was encoded without
    [-a], in whatever order its goroutines run: no step fails, there is a step until
    all is done, no run is longer than a bound, and what is printed in the end are the
    blocks in the order of the file, however the results came in. *)
Theorem qif_async {R W R' W'} `{IoReaderSpec R} `{IoWriterSpec W} `{!IoWriterTotal W}
    `{IoReaderSpec R'} `{IoWriterSpec W'} `{!IoWriterTotal W'} lower f nl srcs (input : R) (output : W) fuel :
  flags_ok f → line_end nl → rd_wf input → content input = qif_source nl srcs → Forall is_byte (accepted output) →
  Forall (block_fine lower HuffmanCodingAuto) srcs → zlen (mjoin (fields srcs)) < 2 ^ 60 → zlen srcs < 2 ^ 64 →
  fl_ack f = false → (length (content input) < fuel)%nat →
  ∃ s file, runEncoder lower fuel f input output = Ok (Ok tt, s) ∧
    accepted (bw_writer (en_output s)) = accepted output ++ file ∧
    ∀ (input' : R') (output' : W') fuel', rd_wf input' → content input' = file → (8 * length file < fuel')%nat →
    ∃ bound, ∀ n a, async_run fuel' (startAsync (setTable (fl_capacity f) (newDecoder input' output'))) n a →
      (n ≤ bound)%nat ∧ (∀ o, async_step fuel' a o → ∃ a', o = Ok a') ∧ (finished a ∨ ∃ a', async_step fuel' a (Ok a')) ∧
      (finished a → ∀ sorted, sorts (as_results a) sorted → ∃ w, writeResults sorted output' = (Ok tt, w) ∧
        accepted w = accepted output' ++ qif_text [lineFeed] (lower_blocks lower (fields srcs))).
Proof.
  intros Hf Hnl Hin Hc Hout Hfine Hlen Hblocks Hno Hfuel.
  destruct (runEncoder_sent lower f nl srcs input output fuel) as
    (s & file & cs & Hrun & Hac & Hbits & Hsent & Hinv & Hbase & Hacked); [done..|by left|done|].
  exists s, file. split_and!; [done|done|]. intros input' output' fuel' Hin' Hc' Hfuel'.
  destruct (reader_start input' Hin') as [Hbr Hl]. rewrite Hc', Hbits in Hl.
  set (tf := qe_common_table (en_qpack s)) in *.
  assert (table_wf tf) as Hwf by apply enc_table_wf, Hinv.
  pose proof (unacked_full _ Hinv (Hacked Hno)) as Hfull. fold tf in Hfull.
  assert (Forall sized (dynamic tf)) as Hsized by apply Hinv.
  destruct (sent_ok _ tf Hwf Hfull _ _ _ _ _ Hsent eq_refl) as (_ & _ & [_ _ Hcap]). cbn in Hcap.
  assert (capacity tf < 2 ^ 60) as Hcap' by (destruct Hf as [? _]; lia).
  assert (tbase tf < 2 ^ 60) as Hb' by exact Hbase.
  pose proof (async_start _ tf Hwf Hfull fuel' _ _ _ _ (NewBitReader input') (newUpdates f) Hsent
    (newUpdates_drained f) Hbr Hl ltac:(by rewrite <- Hbits, (bytes_length file _ eq_refl)) eq_refl) as Hstart.
  change (MkAsync Reading _ _ [] []) with (startAsync (setTable (fl_capacity f) (newDecoder input' output'))) in Hstart.
  set (a0 := startAsync _) in *. exists (measure a0). intros n a Ha.
  destruct (async_run_inv _ tf Hwf Hfull Hsized Hcap' Hb' fuel' _ a0 n a Hstart Ha) as [Hinv' Hn].
  pose proof (async_step_inv HuffmanCodingAuto tf Hwf Hfull Hsized Hcap' Hb' fuel' (results_of 0 (lower_blocks lower (fields srcs))) a) as Hstep.
  split; [lia|]. split_and!.
  - intros o Ho. destruct (Hstep o Hinv' Ho) as (a' & -> & _). by exists a'.
  - destruct (async_progress _ tf Hwf Hfull Hsized Hcap' Hb' fuel' _ a Hinv') as [|[o Ho]]; [by left|right].
    destruct (Hstep o Hinv' Ho) as (a' & -> & _). by exists a'.
  - intros Hfin sorted Hsorted. rewrite (sort_results 0 (lower_blocks lower (fields srcs)) (as_results a) sorted)
      by (done || by eapply async_finished).
    apply writeResults_writes.
Qed.

(** Four blocks for a table of two entries: the encoder evicts. *)
Definition sampleSources : list source :=
  [ [([bytes_of_string "# first"; bytes_of_string "#"], MkHeaderField ":method" "GET" false);
     ([], MkHeaderField "x-a" "one" false)]; [];
    [([], MkHeaderField "x-b" "two" false); ([bytes_of_string "# again"], MkHeaderField "x-a" "one" false)];
    [([], MkHeaderField "x-c" "three" false); ([], MkHeaderField "x-a" "one" false)] ]%string.

Definition sampleFlags (ack : bool) : flags := Flags ack 90 90 10.

Definition sampleText : list Z := qif_source [carriageReturn; lineFeed] sampleSources.

Lemma sampleSources_fine : Forall (block_fine noLower HuffmanCodingAuto) sampleSources.
Proof. repeat constructor; try done; try (by apply (bool_decide_unpack _)); try (by right). Qed.

Lemma sampleFlags_ok ack : flags_ok (sampleFlags ack).
Proof. by split_and!. Qed.

Lemma qif_roundtrip_witness : ∃ s file,
  runEncoder noLower 1000 (sampleFlags true) (MkBytesReader sampleText) (MkBuffer []) = Ok (Ok tt, s) ∧
  accepted (bw_writer (en_output s)) = accepted (MkBuffer []) ++ file ∧
  ∀ (input' : bytesReader) (output' : Buffer) fuel', rd_wf input' → content input' = file → (8 * length file < fuel')%nat →
  ∃ d, runDecoder fuel' (sampleFlags true) input' output' = (Ok tt, d) ∧
    accepted (de_output d) = accepted output' ++ qif_text [lineFeed] (lower_blocks noLower (fields sampleSources)).
Proof.
  apply (qif_roundtrip (R' := bytesReader) (W' := Buffer) noLower (sampleFlags true) [carriageReturn; lineFeed] sampleSources (MkBytesReader sampleText)
    (MkBuffer []) 1000).
  - apply sampleFlags_ok.
  - by right; left.
  - by apply (bool_decide_unpack _).
  - done.
  - constructor.
  - apply sampleSources_fine.
  - by vm_compute.
  - by vm_compute.
  - right. by vm_compute.
  - apply Nat.ltb_lt. by vm_compute.
Defined.

Lemma qif_async_witness : ∃ s file,
  runEncoder noLower 1000 (sampleFlags false) (MkBytesReader sampleText) (MkBuffer []) = Ok (Ok tt, s) ∧
  accepted (bw_writer (en_output s)) = accepted (MkBuffer []) ++ file ∧
  ∀ (input' : bytesReader) (output' : Buffer) fuel', rd_wf input' → content input' = file → (8 * length file < fuel')%nat →
  ∃ bound, ∀ n a, async_run fuel' (startAsync (setTable 90 (newDecoder input' output'))) n a →
    (n ≤ bound)%nat ∧ (∀ o, async_step fuel' a o → ∃ a', o = Ok a') ∧ (finished a ∨ ∃ a', async_step fuel' a (Ok a')) ∧
    (finished a → ∀ sorted, sorts (as_results a) sorted → ∃ w, writeResults sorted output' = (Ok tt, w) ∧
      accepted w = accepted output' ++ qif_text [lineFeed] (lower_blocks noLower (fields sampleSources))).
Proof.
  apply (qif_async (R' := bytesReader) (W' := Buffer) noLower (sampleFlags false) [carriageReturn; lineFeed] sampleSources
    (MkBytesReader sampleText) (MkBuffer []) 1000).
  - apply sampleFlags_ok.
  - by right; left.
  - by apply (bool_decide_unpack _).
  - done.
  - constructor.
  - apply sampleSources_fine.
  - by vm_compute.
  - by vm_compute.
  - done.
  - apply Nat.ltb_lt. by vm_compute.
Defined.

(** ** What the tool does not survive *)

(** Three endings of a text, after any fields of a block and comments: a comment in
    front of the empty line that ends the block makes the parser panic, and so does a
    line with no tab; a text that ends before the empty line does is read as the end
    of the file, and the fields are lost. *)
Theorem qif_parse_errors {R} `{IoReaderSpec R} (qr : Reader R) nl src cs line l fuel :
  line_end nl → source_ok src → Forall comment cs → plain_line line → (head line ≠ Some numberSign) → separated nl l →
  (length (source_fields nl src ++ comment_lines nl cs ++ line) < fuel)%nat →
  (line = [] → cs ≠ [] → unread qr (source_fields nl src ++ comment_lines nl cs ++ nl ++ l) →
    ∃ qr', ReadHeaderBlock fuel qr = (Panic, qr')) ∧
  (line ≠ [] → tab ∉ line → unread qr (source_fields nl src ++ comment_lines nl cs ++ line ++ nl ++ l) →
    ∃ qr', ReadHeaderBlock fuel qr = (Panic, qr')) ∧
  (unread qr (source_fields nl src ++ line) → ∃ qr', ReadHeaderBlock fuel qr = (Err EOF, qr')).
Proof.
  intros Hnl Hsrc Hcs Hline Hno Hsep Hf.
  assert (unread qr (source_fields nl src ++ comment_lines nl cs ++ line ++ nl ++ l) → ∃ qr' fuel',
    (length (comment_lines nl cs ++ line) < S fuel')%nat ∧ unread qr' (comment_lines nl cs ++ line ++ nl ++ l) ∧
    ReadHeaderBlock fuel qr = ReadHeaderBlock_loop (S fuel') (plain <$> src.*2) qr') as Hfields.
  { intros Hl. rewrite !length_app in Hf.
    destruct (ReadHeaderBlock_fields qr src (comment_lines nl cs ++ line ++ nl ++ l) [] nl fuel) as (qr1 & fuel1 & Hf1 & Hl1 & Hr);
      [done|by apply separated_comments|done|done|lia|].
    destruct fuel1 as [|fuel1]; [lia|]. exists qr1, fuel1. split_and!; [rewrite length_app; lia|done|done]. }
  split_and!.
  - intros -> Hcs0 Hl. destruct (Hfields Hl) as (qr1 & fuel1 & Hf1 & Hl1 & ->).
    destruct (readHeaderField_line qr1 cs [] nl l (S fuel1)) as (qr2 & _ & Hr); [done..|].
    exists qr2. cbn [ReadHeaderBlock_loop]. rewrite bind_unfold, Hr. by destruct cs.
  - intros Hne Htab Hl. destruct (Hfields Hl) as (qr1 & fuel1 & Hf1 & Hl1 & ->).
    destruct (readHeaderField_line qr1 cs line nl l (S fuel1)) as (qr2 & _ & Hr); [done..|].
    exists qr2. cbn [ReadHeaderBlock_loop]. rewrite bind_unfold, Hr. destruct line; [done|]. by rewrite splitTab_none.
  - intros Hl. rewrite !length_app in Hf.
    assert (separated nl line) as Hs by (intros _; destruct Hline as [|b line Hb _]; [done|]; intros [= ->]; done).
    destruct (ReadHeaderBlock_fields qr src line [] nl fuel) as (qr1 & fuel1 & Hf1 & Hl1 & Hr); [done..|lia|].
    destruct fuel1 as [|fuel1]; [lia|].
    destruct (readLine_unterminated qr1 line [] (S fuel1) Hline Hl1) as [qr2 Hr2]; [lia|].
    exists qr2. unfold ReadHeaderBlock. rewrite Hr. cbn [ReadHeaderBlock_loop]. apply bind_Err. unfold readHeaderField.
    by rewrite (bind_Err _ _ _ _ _ Hr2).
Qed.

(** A flag that a command does not know is never skipped: the loop over the flags
    does not end, whatever came before it. [-b] is such a flag for [decode]. *)
Theorem unknown_flag_loops flag next rest fuel f :
  isFlag flag = Ok true → flag ∉ ["-a"; "-v"; "-t"]%string →
  decodeFlags fuel f (flag :: next :: rest) = NoFuel ∧
  (flag ∉ ["-b"; "-r"]%string → encodeFlags fuel f (flag :: next :: rest) = NoFuel).
Proof.
  intros Hflag Hno. rewrite !not_elem_of_cons in Hno. destruct Hno as (Ha & Hv & Ht & _). revert f.
  induction fuel as [|fuel IH]; intros f; [done|]. destruct (IH f) as [IHd IHe]. split; cbn [decodeFlags encodeFlags]; rewrite Hflag.
  - by rewrite !decide_False by done.
  - intros Hbr. specialize (IHe Hbr). rewrite !not_elem_of_cons in Hbr. destruct Hbr as (Hb & Hr & _).
    by rewrite !decide_False by done.
Qed.

Lemma unknown_flag_loops_witness :
  decodeFlags 100 defaultFlags ["-x"; "10"; "in"]%string = NoFuel ∧
  ("-x"%string ∉ ["-b"; "-r"]%string → encodeFlags 100 defaultFlags ["-x"; "10"; "in"]%string = NoFuel).
Proof.
  apply (unknown_flag_loops "-x" "10" ["in"%string] 100 defaultFlags).
  - done.
  - by apply (bool_decide_unpack _).
Defined.

Lemma qif_parse_errors_witness :
  ∃ qr', ReadHeaderBlock 100 (NewReader (MkBytesReader (bytes_of_string "# a comment" ++ [lineFeed; lineFeed]))) = (Panic, qr').
Proof.
  eapply (proj1 (qif_parse_errors _ [lineFeed] [] [bytes_of_string "# a comment"] [] [] 100 _ _ _ _ _ _ _)).
  - done.
  - done.
  - split; [by apply (bool_decide_unpack _)|done].
  Unshelve.
  + by left.
  + constructor.
  + repeat constructor.
  + constructor.
  + done.
  + done.
  + apply Nat.ltb_lt. by vm_compute.
Defined.
